(* ===== verification/_CoqProject ===== *)
-Q . S2P
Prelude.v
CStdlib.v
CPosix.v
CDouble.v
CFloat.v
CFloatExact.v
CFloatText.v
NetBuffer.v
ProtoSerializer.v
ProtoParser.v
StoreTTLHeap.v
StoreHashTable.v
StoreSkiplist.v
StoreSkiplistMove.v
StoreObject.v
StoreInterfaces.v
StoreDatabase.v
NetConnection.v
NetListener.v
NetEventLoop.v
CmdBase.v
CmdString.v
CmdKey.v
CmdList.v
CmdHash.v
CmdSet.v
CmdZSet.v
CmdTransaction.v
CmdTable.v
CmdSpec.v
CmdStore.v
CmdIdle.v
CmdTimed.v
CmdPubSub.v
CmdInfo.v
PersistAOF.v
PersistRewrite.v
PersistRecovery.v
PersistTorn.v
PersistDeadlines.v
PersistSnapshot.v
Server.v
Main.v
ServerSafety.v
ServerProperties.v
ServerSession.v
ServerFrame.v
ServerIsolation.v
MainProperties.v
ServerDurable.v
