(* ===== verification/Prelude.v ===== *)
(** * simple-redis: a verification development

    simple-redis (src/) is a single-threaded key-value server that speaks RESP2.
    This library models its data structures, protocol code, commands and
    persistence as executable functions and proves them correct.

    ** The program and its parts

    A client's bytes are read into the input [Buffer] of its [Connection]
    (src/net), cut into commands by [RespParser] (src/proto), looked up in the
    [CommandTable] and executed by a handler (src/cmd) on the [Database]
    (src/store), which answers through [RespSerializer] into the output [Buffer].
    The [Database] is a [HashTable] from keys to [RedisObject]s with a [TTLHeap] of
    deadlines; sorted sets hold a [Skiplist].  Write commands are appended to a
    log by [AOFWriter] and replayed at start-up by [AOFLoader]
    (src/persistence).

    [main] (src/main.cpp) owns all of it: it waits in the [EventLoop] (src/net) for
    clients and for a timer, executes what has arrived, keeps the connections and
    the [PubSubRegistry] of channels, and registers the commands that need more
    than the database.

    ** Files

    - [Prelude]: bytes, machine integers, the [result] type of code that can
      fault, its specification predicates [m ⇓ P], [m ⇓? P] and [m ⇓?? P], tactics and shared
      lemmas.
    - [CStdlib], [CDouble], [CFloat]: what the code uses of the C and C++ library:
      number conversions, character classes, string order, IEEE comparisons,
      [strtod] and ["%.17g"].  [CPosix]: the descriptors of the process,
      [inet_pton] and [setrlimit].  [CFloatExact], [CFloatText]: seventeen digits
      determine a binary64 number, and [strtod] reads them back.
    - [NetBuffer], [NetConnection], [NetListener], [NetEventLoop]: src/net/Buffer.*,
      Connection.*, Listener.*, EventLoop.*.
    - [ProtoSerializer], [ProtoParser]: src/proto/*.
    - [StoreTTLHeap], [StoreHashTable], [StoreSkiplist], [StoreObject]:
      src/store/TTLHeap.*, HashTable.*, Skiplist.*, RedisObject.*.
      [StoreSkiplistMove]: construction, moves and destruction of Skiplist.cpp, over
      one heap that all objects share.
    - [StoreInterfaces]: the classes [KeyTable] and [DeadlineIndex], what the
      database relies on, and the instances that the two structures provide.
    - [StoreDatabase]: src/store/Database.*, generic in those classes.
    - [CmdBase]: replies, the shape of handlers, specifications of commands.
    - [CmdString], [CmdKey], [CmdList], [CmdHash], [CmdSet], [CmdZSet],
      [CmdTransaction]: the handlers of src/cmd, with DBSIZE and FLUSHDB of
      ServerCommands.cpp.
    - [CmdTable]: src/cmd/CommandTable.* and the registration tables.
    - [CmdSpec]: the specifications of all commands as one relation, which the
      command table implements.
    - [CmdStore]: the abstract key-value store and the reference interpreter that
      the command table refines.  [CmdTimed]: the same with deadlines.
      [CmdIdle]: without EXPIRE and PEXPIRE the deadline heap stays empty.
    - [CmdPubSub]: src/cmd/PubSubRegistry.* over an explicit store of connections.
    - [CmdInfo]: [ServerMetrics] and INFO of src/cmd/ServerCommands.*.
    - [PersistAOF]: the log and its replay, src/persistence/*, for any table of
      commands ([Replayer]).  [PersistRewrite]:
      the background rewrite of AOFWriter.cpp with its child process.
      [PersistRecovery]: what a restart gives back.  [PersistTorn]: what becomes
      of commands logged behind a torn one.  [PersistDeadlines]: what a restart
      does to deadlines, [PersistSnapshot]: and what a rewrite does to them.
    - [Server]: the event loop of src/main.cpp as a state machine over events.
      [Main]: the start, with the replay of the log by the commands registered so
      far (INFO and BGREWRITEAOF among them), the turns of the loop and the shutdown
      around it.
      [ServerSafety]: the invariant and the reachable states.
      [ServerProperties]: what the server does with a command.  [ServerSession]:
      from the bytes of a client to its replies.  [ServerFrame]: relations that a
      client's event keeps.  [ServerIsolation]: what it does to other clients.
      [MainProperties]: the whole program.  [ServerDurable]: its data and its log.

    ** How the code is represented

    An object is a record with the fields of the class; a method is a function
    that returns the new object.  Definitions keep the names of the source.  A
    failed [assert] (the Makefile does not define NDEBUG), an index out of range,
    a null or dangling pointer, a [std::get] of the wrong alternative and an
    uncaught exception are values [Fault f], so that [m ⇓ P] (the run of [m] ends
    in a value that satisfies [P]) also says that none of these happens.  Two
    exceptions can be raised by what a client sends and are caught nowhere: that of
    [std::stoi] on an index of LRANGE and ZRANGE, which [m ⇓? P] allows, and the
    [std::bad_alloc] of the memory that the parser reserves for the number of
    arguments a request announces, which [m ⇓?? P] allows as well.  Which numbers the
    allocator grants is a parameter ([grants]).
    [int], [int64_t], [uint64_t] and [size_t] values that can leave their range
    are [Z] with the wrap-around written out, also where the source has a signed
    overflow (the deadlines that EXPIRE and PEXPIRE compute); sizes and positions
    bounded by a container are [nat], without the wrap-around of [size_t] that a
    [Buffer] would show beyond 2^63 bytes.  Library containers without a visible order are
    finite maps and sets; commands that traverse them take the order from their
    environment, and the theorems hold for every order.  The clock, the random
    generator, [read], [write], [open] and the sizes that [memoryUsage] reads
    are parameters; the wall clock may jump in either direction.  [fsync] makes
    durable what was written before it: its result, which the source ignores, is
    taken to be success.  The open descriptors of the process are a set; closing one
    that is not open, or opening one that is, is a fault or excluded by the
    kernel's contract, so that a leak or a double close shows.

    Connections are shared by pointer between the connection map and the
    registry; they live in a store under addresses that are not reused, and
    following the address of a destroyed connection is a fault.  In the same way
    skiplists that are moved point into one heap, in which what was freed is gone.  The child process
    of a rewrite is a function of the copy of the database that [fork] gave it.
    An event of the server carries what the outside does in it (bytes read,
    outcomes of calls, clocks); [event_ok] says what is assumed: the kernel keeps
    its contracts, and a traversal visits every element once.

    Loops that are not structural carry fuel, and running out is the fault
    [OutOfFuel], which the theorems exclude.  The fuel is: the index for [siftUp]
    (each step at least halves it), the heap size for [siftDown], the number of
    nodes for a walk in the skiplist (addresses on a level do not repeat), the
    bytes needed for the doubling loop of [Buffer] (the capacity is at least 1
    and doubles), the length of the input for the splitter of inline commands,
    the readable bytes plus one for the replay loop and for the parse loop of a
    client (every command consumes at least one byte), and one level of nesting
    for EXEC, which is never queued.

    ** What is proved

    - Buffers, connections, event loop: a buffer is a FIFO queue of bytes; nothing
      sent is lost, repeated or reordered under partial writes; a wait never
      passes the timer, and the timer fires when it is due.
    - Protocol: a request is read back exactly, pipelined and binary-safe; a
      cut request is incomplete, never misread; more input never changes a
      parsed command; the parser stays inside its buffer on any bytes and can be
      stopped only by a refused allocation; inline
      splitting equals a reference splitter; a malformed element blocks the
      connection.
    - Heap, hash table, skiplist: invariants in every reachable state, and
      refinement of a map of deadlines, a finite map and a sorted list; the
      incremental migration keeps all entries and ends; SCAN returns every key;
      the skiplist's destructor frees every node, and however skiplists are moved
      and assigned every node of the heap has one owner.
    - Database: the heap and the expiry fields agree, unless [setObject] overwrites
      a key with a deadline in the middle of a migration
      ([overwrite_drops_deadline] shows what happens then, and no command does it);
      lazy and active expiry are invisible; SET/GET and the life of a deadline;
      SCAN's pages and filter; memory accounting, and the operations that break it.
    - Commands: every handler implements its specification on all branches;
      dispatch answers every command exactly once and keeps the invariants;
      commands not flagged as writes change nothing visible; the whole table
      implements one specification ([dispatch_implements]) and refines reference
      interpreters on an abstract store, exactly on data without deadlines
      ([dispatch_refines_store]) and up to expired entries with them
      ([dispatch_refines_timed]); printed scores are read back exactly.
    - Publish/subscribe and metrics: a message reaches exactly the subscribers;
      counters, histogram and slow log are exact.
    - Log: the file is exactly the log of the commands; loading any prefix of it
      executes exactly its complete commands; a restart, after a crash or after a
      background rewrite during which commands went on, gives the store the
      server had.  With deadlines: the same keys and values, deadlines moved by
      the time in between, as long as no key expires during the session or the
      rewrite; [expired_write_lost] shows what happens otherwise.  A command torn
      by a crash stays in the file and can swallow what is logged behind it
      ([torn_log_swallows_writes]).
    - Server: in every reachable state all invariants hold together and the next
      event is safe, the two exceptions apart; the gates of subscriber mode and MULTI
      admit exactly the commands they name; EXEC runs its queue;
      exactly the executed writes are logged; no pending reply is left without a
      registration for output; a client's commands, however fragmented, are
      executed once and in order with exactly their replies
      ([client_session]); no other client is affected but by messages on channels
      it has subscribed to ([clients_isolated]).
    - Program: [main] serves from reachable states only, under the hard limit on
      descriptors, and ends with every descriptor closed once and the log handed to
      a last [fsync]; the port it listens on is the argument modulo 2^16.  In every state of every run
      without deadlines and NaN scores, whatever the clients, the timer and the rewrites do, a
      new start from the log has exactly the data of the running server
      ([server_durable]): the invariant [recoverable] says that the commands in the
      log give the data, and that the snapshot of a rewrite under way and its
      buffer do so as well.

    Bounds: the parser converts positions to [int], so its theorems assume at
    most 2^31 readable bytes; ranks of sorted sets are [int], so their exact
    specification assumes fewer than 2^31 members.  A NaN score breaks the order
    of the source: the type invariant and the safety of the server allow it, the
    theorems on the contents of sorted sets exclude it, and [nan_breaks_zset] shows
    what goes wrong.  [crash_restores_store], [rewrite_keeps_data] and
    [server_durable] are about data without deadlines; [snapshot_keeps_deadlines]
    is about a snapshot with them, and [restart_keeps_deadlines] about sessions with
    EXPIRE and PEXPIRE, with one reading of the clock per command.  A deadline can
    be earlier in the replay of a rewritten log than in the session, because the
    child writes the time left when it comes to the key: the two theorems on
    deadlines are therefore not combined into one on rewrites during which
    commands go on.

    ** What is not modelled

    Messages on standard output and standard error, and the installation of the
    signal handlers: the flag they clear is what a turn of the loop finds.  Memory
    is granted everywhere but for an announced number of arguments; failures of
    [fsync] and the sign of a NaN, which a score can have but the order of a skiplist
    cannot use, are outside the model, and so are the tests of the repository.  The lines of src/ that no definition stands for
    are comments, includes, the declarations of functions and classes in headers,
    and the empty [PubSubCommands::registerAll].
*)
From Stdlib Require Import Ascii String ZArith Lia ZifyNat ZifyBool.
From stdpp Require Import base option list strings gmap.

(** ** Bytes

    A C++ [std::string] and the contents of a network buffer are both
    sequences of 8-bit bytes: [list ascii].  String literals of the source are
    written [lit "..."]. *)
Abbreviation bytes := (list ascii).

Definition lit (s : string) : bytes := String.list_ascii_of_string s.

Definition CR : ascii := "013"%char.
Definition LF : ascii := "010"%char.
Definition SP : ascii := " "%char.
Definition crlf : bytes := [CR; LF].

(** The unsigned value of a byte. *)
Definition byte_val (c : ascii) : Z := Z.of_N (N_of_ascii c).

(** ** Machine integers

    [int], [int64_t] and [uint64_t] are integers [Z] together with the
    wrap-around of their width. *)
Definition wrap_u64 (z : Z) : Z := (z mod 2 ^ 64)%Z.
Definition wrap_s32 (z : Z) : Z := ((z + 2 ^ 31) mod 2 ^ 32 - 2 ^ 31)%Z.
Definition wrap_s64 (z : Z) : Z := ((z + 2 ^ 63) mod 2 ^ 64 - 2 ^ 63)%Z.

Definition in_s32 (z : Z) : Prop := (- 2 ^ 31 ≤ z < 2 ^ 31)%Z.
Definition in_s64 (z : Z) : Prop := (- 2 ^ 63 ≤ z < 2 ^ 63)%Z.

(** ** Faults

    Everything that makes the C++ program leave its defined, non-exceptional
    behaviour is an explicit outcome: an [assert] that fails, an index outside
    its array, a dereference of a null pointer, [std::get] on the wrong
    alternative, an exception nobody catches ([std::invalid_argument],
    [std::out_of_range], [std::bad_alloc]), [close] on a descriptor that is not
    open.  [OutOfFuel] is the outcome of a
    loop that did not end within the iterations its model allows; every loop
    is proved never to produce it. *)
Inductive fault : Type :=
| OutOfBounds
| AssertFailed
| OutOfFuel
| NullDeref
| DanglingPointer
| BadVariantAccess
| InvalidArgument
| OutOfRange
| BadAlloc
| BadDescriptor.

#[export] Instance fault_eq_dec : EqDecision fault.
Proof. solve_decision. Defined.

Inductive result (A : Type) : Type :=
| Ok (a : A)
| Fault (f : fault).
Arguments Ok {A} a.
Arguments Fault {A} f.

#[export] Instance result_ret : MRet result := @Ok.
#[export] Instance result_bind : MBind result :=
  λ A B k m, match m with Ok a => k a | Fault f => Fault f end.

(** [assert(b)] of the source. *)
Definition assert (b : bool) : result unit :=
  if b then Ok tt else Fault AssertFailed.

(** [v[i]] on an array or a [std::vector]. *)
Definition vec_get {A} (v : list A) (i : nat) : result A :=
  match v !! i with Some x => Ok x | None => Fault OutOfBounds end.

(** [v[i] = x]. *)
Definition vec_set {A} (v : list A) (i : nat) (x : A) : result (list A) :=
  match v !! i with Some _ => Ok (<[i := x]> v) | None => Fault OutOfBounds end.

(** [*p] for a pointer that may be null. *)
Definition deref {A} (p : option A) : result A :=
  match p with Some x => Ok x | None => Fault NullDeref end.

(** ** A unary logic of outcomes

    [m ⇓ P] says that [m] ends without a fault in a value satisfying [P]:
    total correctness, since a loop without enough fuel faults. *)
Definition returns {A} (m : result A) (P : A → Prop) : Prop :=
  match m with Ok a => P a | Fault _ => False end.

Declare Scope redis_scope.
Delimit Scope redis_scope with redis.
Notation "m ⇓ P" := (returns m P) (at level 70, no associativity) : redis_scope.
#[global] Open Scope redis_scope.

Lemma returns_iff {A} (m : result A) (P : A → Prop) :
  m ⇓ P ↔ ∃ a, m = Ok a ∧ P a.
Proof. split; [destruct m; simpl; eauto; done | by intros (a & -> & ?)]. Qed.

Lemma returns_ok {A} (a : A) (P : A → Prop) : P a → Ok a ⇓ P.
Proof. done. Qed.

Lemma returns_mono {A} (m : result A) (P Q : A → Prop) :
  m ⇓ P → (∀ a, P a → Q a) → m ⇓ Q.
Proof. destruct m; simpl; auto. Qed.

(** A second fact about the same result, under a condition. *)
Lemma returns_also {A} (m : result A) (C : Prop) (P Q : A → Prop) :
  m ⇓ P → (C → m ⇓ Q) → m ⇓ λ a, P a ∧ (C → Q a).
Proof. destruct m; cbn; auto. Qed.

Lemma returns_bind {A B} (m : result A) (k : A → result B) (P : A → Prop) (Q : B → Prop) :
  m ⇓ P → (∀ a, P a → k a ⇓ Q) → (m ≫= k) ⇓ Q.
Proof. destruct m; simpl; auto. Qed.

Lemma returns_eq {A} (m : result A) (a : A) (P : A → Prop) :
  m ⇓ P → m = Ok a → P a.
Proof. intros H ->. done. Qed.

Lemma bind_ok {A B} (a : A) (k : A → result B) : (Ok a ≫= k) = k a.
Proof. done. Qed.

Lemma bind_fault {A B} (f : fault) (k : A → result B) : (Fault f ≫= k) = Fault f.
Proof. done. Qed.

Lemma bind_Ok_inv {A B} (m : result A) (k : A → result B) (b : B) :
  (m ≫= k) = Ok b → ∃ a, m = Ok a ∧ k a = Ok b.
Proof. destruct m; simpl; [eauto | discriminate]. Qed.

Lemma assert_decide (P : Prop) `{Decision P} : P → assert (bool_decide P) = Ok tt.
Proof. intros. unfold assert. by rewrite bool_decide_true. Qed.

Lemma vec_get_ok {A} (v : list A) (i : nat) (x : A) : v !! i = Some x → vec_get v i = Ok x.
Proof. unfold vec_get. by intros ->. Qed.

Lemma vec_get_inv {A} (v : list A) (i : nat) (x : A) : vec_get v i = Ok x → v !! i = Some x.
Proof. unfold vec_get. destruct (v !! i); congruence. Qed.

Lemma vec_get_lt {A} (v : list A) (i : nat) : i < length v → vec_get v i ⇓ λ x, v !! i = Some x.
Proof.
  intros [x Hx]%lookup_lt_is_Some. rewrite (vec_get_ok _ _ _ Hx). done.
Qed.

Lemma vec_set_ok {A} (v : list A) (i : nat) (x : A) :
  i < length v → vec_set v i x = Ok (<[i := x]> v).
Proof. unfold vec_set. intros [y ->]%lookup_lt_is_Some. done. Qed.

(** Ending in a value satisfying [P], or with an exception in [X] that nothing
    catches. *)
Definition survives (X : fault → Prop) {A} (m : result A) (P : A → Prop) : Prop :=
  match m with Ok a => P a | Fault f => X f end.

(** The exceptions of a number conversion; and with them the one of an allocation
    that was refused. *)
Definition conversion (f : fault) : Prop := f = InvalidArgument ∨ f = OutOfRange.
Definition escaping (f : fault) : Prop := conversion f ∨ f = BadAlloc.
Notation "m ⇓? P" := (survives conversion m P) (at level 70, no associativity) : redis_scope.
Notation "m ⇓?? P" := (survives escaping m P) (at level 70, no associativity) : redis_scope.

Section survives.
Context {X : fault → Prop}.

Lemma returns_survives {A} (m : result A) (P Q : A → Prop) : m ⇓ P → (∀ a, P a → Q a) → survives X m Q.
Proof. destruct m; simpl; [auto|done]. Qed.

Lemma survives_mono {A} (m : result A) (P Q : A → Prop) : survives X m P → (∀ a, P a → Q a) → survives X m Q.
Proof. destruct m; simpl; auto. Qed.

Lemma survives_bind {A B} (m : result A) (k : A → result B) (P : A → Prop) (Q : B → Prop) :
  survives X m P → (∀ a, P a → survives X (k a) Q) → survives X (m ≫= k) Q.
Proof. destruct m; simpl; auto. Qed.

Lemma returns_survives_bind {A B} (m : result A) (k : A → result B) (P : A → Prop) (Q : B → Prop) :
  m ⇓ P → (∀ a, P a → survives X (k a) Q) → survives X (m ≫= k) Q.
Proof. destruct m; simpl; [auto|done]. Qed.

(** A fact that an exception could have prevented, once there is none. *)
Lemma returns_and {A} (m : result A) (P Q : A → Prop) : m ⇓ P → survives X m Q → m ⇓ λ a, P a ∧ Q a.
Proof. destruct m; cbn; auto. Qed.

End survives.

Lemma survives_escaping {A} (m : result A) (P : A → Prop) : m ⇓? P → m ⇓?? P.
Proof. destruct m; cbn; [done|]. by left. Qed.

Create HintDb redis.
#[export] Hint Resolve returns_ok vec_get_ok : redis.

(** ** Tactics

    [inv_bind] takes apart a successful sequence; [step_ok] runs the head of a
    sequence whose outcome is known. *)
Ltac inv_bind :=
  repeat match goal with
  | H : (_ ≫= _) = Ok _ |- _ =>
      let a := fresh "r" in let E := fresh "E" in
      apply bind_Ok_inv in H; destruct H as (a & E & H); cbv beta in H
  | H : Ok _ = Ok _ |- _ => injection H as H
  | H : Fault _ = Ok _ |- _ => discriminate H
  end.

(** Run the head of [m ≫= k] with a lemma [m ⇓ P]. *)
Tactic Notation "run_with" uconstr(lem) :=
  eapply returns_bind; [ eapply lem | cbv beta ].

(** The same when the rest may end with an exception, and when the head may, too. *)
Tactic Notation "go_with" uconstr(lem) :=
  eapply returns_survives_bind; [ eapply lem | cbv beta ].
Tactic Notation "try_with" uconstr(lem) :=
  eapply survives_bind; [ eapply lem | cbv beta ].
Tactic Notation "pass_with" uconstr(lem) :=
  eapply survives_bind; [ eapply survives_escaping; eapply lem | cbv beta ].

(** ** Generic facts on lists *)

(** The slice [l[i .. i+n)], as a C++ pointer-and-length pair selects it. *)
Definition slice {A} (i n : nat) (l : list A) : list A := take n (drop i l).

Lemma length_slice {A} (i n : nat) (l : list A) :
  i + n ≤ length l → length (slice i n l) = n.
Proof. intros. unfold slice. rewrite length_take, length_drop. lia. Qed.

Lemma slice_app_r {A} (p l : list A) (n : nat) : slice (length p) n (p ++ l) = take n l.
Proof. unfold slice. by rewrite drop_app_length. Qed.

Lemma lookup_app_plus {A} (p l : list A) (i : nat) : (p ++ l) !! (length p + i) = l !! i.
Proof. rewrite lookup_app_r by lia. f_equal. lia. Qed.

(** A slice that starts after a known prefix. *)
Lemma slice_plus {A} (p l : list A) (i n : nat) : slice (length p + i) n (p ++ l) = slice i n l.
Proof. unfold slice. by rewrite drop_app_add. Qed.

Lemma slice_0_app {A} (s t : list A) : slice 0 (length s) (s ++ t) = s.
Proof. unfold slice. by rewrite drop_0, take_app_length. Qed.

Lemma slice_app_l {A} (l t : list A) (i n : nat) :
  i + n ≤ length l → slice i n (l ++ t) = slice i n l.
Proof.
  intros. unfold slice. rewrite drop_app_le by lia.
  rewrite take_app_le; [done|]. rewrite length_drop. lia.
Qed.
