(* ===== verification/CStdlib.v ===== *)
(** * The C and C++ standard library functions the program calls

    Executable definitions of the number conversions ([std::to_string],
    [std::strtoll], [std::atoi], [std::stoi]), of [::toupper]/[::tolower] in the
    "C" locale, and of [std::string]'s ordering, with the facts the components
    need: what is printed is read back, and what the readers accept.

    [atoi] follows glibc, where it is [(int) strtol(s, nullptr, 10)]: a value
    outside [long] saturates, and the conversion to [int] keeps the low 32
    bits. *)
From Stdlib Require Import Ascii String ZArith Lia ZifyNat ZifyBool.
From stdpp Require Import base option list strings gmap numbers.
From S2P Require Import Prelude.

Local Open Scope Z_scope.

(** ** Digits *)
Definition digit_char (d : Z) : ascii := ascii_of_N (Z.to_N (48 + d)).

(** The value of a decimal digit, [None] for any other byte. *)
Definition digit_val (c : ascii) : option Z :=
  let v := byte_val c in
  if (48 <=? v) && (v <=? 57) then Some (v - 48) else None.

(** [isspace] in the "C" locale: space, \t, \n, \v, \f, \r. *)
Definition isspace (c : ascii) : bool :=
  let v := byte_val c in (v =? 32) || ((9 <=? v) && (v <=? 13)).

(** ** Printing: [std::to_string] *)
Fixpoint print_digits (fuel : nat) (n : Z) (acc : bytes) : bytes :=
  match fuel with
  | O => acc
  | S fuel' =>
      let acc' := digit_char (n mod 10) :: acc in
      if n <? 10 then acc' else print_digits fuel' (n / 10) acc'
  end.

(** One digit per step, and no more digits than bits. *)
Definition to_string_nat (n : Z) : bytes := print_digits (S (Z.to_nat (Z.log2 n))) n [].

Definition to_string (z : Z) : bytes :=
  if z <? 0 then "-"%char :: to_string_nat (- z) else to_string_nat z.

(** ** Reading: [strtoll] and its users *)

(** The longest run of digits: its value from [acc] on, and its length. *)
Fixpoint scan_digits (s : bytes) (acc : Z) (n : nat) : Z * nat :=
  match s with
  | [] => (acc, n)
  | c :: s' =>
      match digit_val c with
      | Some d => scan_digits s' (10 * acc + d) (S n)
      | None => (acc, n)
      end
  end.

Fixpoint skip_spaces (s : bytes) : nat * bytes :=
  match s with
  | c :: s' =>
      if isspace c then let '(n, r) := skip_spaces s' in (S n, r) else (O, s)
  | [] => (O, [])
  end.

(** An optional sign: whether it is a minus, its length, what follows. *)
Definition read_sign (s : bytes) : bool * nat * bytes :=
  match s with
  | c :: s' =>
      if decide (c = "-"%char) then (true, 1%nat, s')
      else if decide (c = "+"%char) then (false, 1%nat, s')
      else (false, O, s)
  | [] => (false, O, [])
  end.

Record strto_result := mkStrto {
  st_value : Z;      (* the converted value, saturated to the range *)
  st_end : nat;      (* [end - start]: 0 when nothing was converted *)
  st_range : bool    (* errno == ERANGE *)
}.

Definition LLONG_MIN : Z := - 2 ^ 63.
Definition LLONG_MAX : Z := 2 ^ 63 - 1.

(** [std::strtoll(s, &end, 10)]; [long] and [long long] are both 64 bits. *)
Definition strtoll (s : bytes) : strto_result :=
  let '(nsp, s1) := skip_spaces s in
  let '(neg, nsg, s2) := read_sign s1 in
  let '(v, nd) := scan_digits s2 0 0 in
  if (nd =? 0)%nat then mkStrto 0 0 false
  else
    let z := if neg : bool then - v else v in
    let e := (nsp + nsg + nd)%nat in
    if z <? LLONG_MIN then mkStrto LLONG_MIN e true
    else if LLONG_MAX <? z then mkStrto LLONG_MAX e true
    else mkStrto z e false.

(** [std::atoi(s)]. *)
Definition atoi (s : bytes) : Z := wrap_s32 (st_value (strtoll s)).

(** [std::stoi(s)]: throws [std::invalid_argument] when nothing converts and
    [std::out_of_range] when the value does not fit an [int]. *)
Definition stoi (s : bytes) : result Z :=
  let r := strtoll s in
  if (st_end r =? 0)%nat then Fault InvalidArgument
  else if st_range r then Fault OutOfRange
  else if (st_value r <? - 2 ^ 31) || (2 ^ 31 - 1 <? st_value r) then Fault OutOfRange
  else Ok (st_value r).

Lemma stoi_survives s : stoi s ⇓? λ _, True.
Proof. unfold stoi, conversion. repeat case_match; cbn; auto. Qed.

(** ** Case mapping, byte by byte *)
Definition toupper (c : ascii) : ascii :=
  let v := byte_val c in
  if (97 <=? v) && (v <=? 122) then ascii_of_N (Z.to_N (v - 32)) else c.

Definition tolower (c : ascii) : ascii :=
  let v := byte_val c in
  if (65 <=? v) && (v <=? 90) then ascii_of_N (Z.to_N (v + 32)) else c.

Definition to_upper (s : bytes) : bytes := map toupper s.
Definition to_lower (s : bytes) : bytes := map tolower s.

(** ** [std::string::operator<]: unsigned bytes, lexicographically *)
Fixpoint bytes_ltb (a b : bytes) : bool :=
  match a, b with
  | _, [] => false
  | [], _ :: _ => true
  | x :: a', y :: b' =>
      if byte_val x <? byte_val y then true
      else if byte_val y <? byte_val x then false
      else bytes_ltb a' b'
  end.

(** ** Facts *)

Lemma byte_val_range (c : ascii) : 0 <= byte_val c < 256.
Proof. unfold byte_val. pose proof (N_ascii_bounded c). lia. Qed.

Lemma byte_val_inj (a b : ascii) : byte_val a = byte_val b → a = b.
Proof.
  unfold byte_val. intros H%N2Z.inj.
  by rewrite <- (ascii_N_embedding a), <- (ascii_N_embedding b), H.
Qed.

Lemma byte_val_digit (d : Z) : 0 <= d < 10 → byte_val (digit_char d) = 48 + d.
Proof.
  intros. unfold byte_val, digit_char. rewrite N_ascii_embedding by lia. lia.
Qed.

Lemma digit_val_char (d : Z) : 0 <= d < 10 → digit_val (digit_char d) = Some d.
Proof.
  intros. unfold digit_val. rewrite byte_val_digit by lia.
  replace ((48 <=? 48 + d) && (48 + d <=? 57)) with true by lia. f_equal; lia.
Qed.

(** The value a byte string denotes when read digit by digit from [acc]. *)
Definition is_digit (c : ascii) : Prop := is_Some (digit_val c).

Lemma scan_digits_app (s t : bytes) (acc : Z) (n : nat) :
  Forall is_digit s →
  scan_digits (s ++ t) acc n =
    scan_digits t (fst (scan_digits s acc n)) (n + length s)%nat.
Proof.
  intros Hs. revert acc n. induction Hs as [|c s [d Hd] Hs IH]; intros acc n; simpl.
  - by rewrite Nat.add_0_r.
  - rewrite Hd, IH. f_equal. lia.
Qed.

Lemma print_digits_digits fuel n acc :
  0 <= n → Forall is_digit acc → Forall is_digit (print_digits fuel n acc).
Proof.
  revert n acc. induction fuel as [|fuel IH]; intros n acc Hn Hacc; simpl; [done|].
  assert (Forall is_digit (digit_char (n mod 10) :: acc)).
  { constructor; [|done]. exists (n mod 10). apply digit_val_char, Z.mod_pos_bound. lia. }
  destruct (n <? 10); [done|]. apply IH; [apply Z.div_pos; lia|done].
Qed.

(** [print_digits] prepends the digits of [n]: reading them from [0] gives [n]
    and goes on with what was there. *)
Lemma print_digits_scan fuel n acc t m :
  0 <= n < 2 ^ Z.of_nat (S fuel) →
  ∃ k, (k > 0)%nat ∧
    length (print_digits (S fuel) n acc) = (k + length acc)%nat ∧
    scan_digits (print_digits (S fuel) n acc ++ t) 0 m = scan_digits (acc ++ t) n (m + k)%nat.
Proof.
  revert n acc t m. induction fuel as [|fuel IH]; intros n acc t m Hn;
    cbn [print_digits]; destruct (Z.ltb_spec n 10).
  - exists 1%nat. rewrite Z.mod_small by lia. cbn [length app scan_digits].
    rewrite digit_val_char by lia. repeat split; try lia. f_equal; lia.
  - change (2 ^ Z.of_nat 1) with 2 in Hn. lia.
  - exists 1%nat. rewrite Z.mod_small by lia. cbn [length app scan_digits].
    rewrite digit_val_char by lia. repeat split; try lia. f_equal; lia.
  - assert (0 <= n / 10 < 2 ^ Z.of_nat (S fuel)) as Hdiv.
    { split; [apply Z.div_pos; lia|]. apply Z.div_lt_upper_bound; [lia|].
      rewrite !Nat2Z.inj_succ, Z.pow_succ_r in Hn by lia.
      rewrite !Nat2Z.inj_succ. lia. }
    destruct (IH (n / 10) (digit_char (n mod 10) :: acc) t m Hdiv) as (k & Hk & Hlen & Hscan).
    exists (S k). cbn [print_digits] in Hlen, Hscan. rewrite Hlen, Hscan. cbn [length app scan_digits].
    rewrite digit_val_char by (apply Z.mod_pos_bound; lia).
    repeat split; try lia. f_equal; [pose proof (Z.div_mod n 10); lia | lia].
Qed.

Lemma to_string_nat_scan n t m :
  0 <= n →
  ∃ k, (k > 0)%nat ∧ length (to_string_nat n) = k ∧
    scan_digits (to_string_nat n ++ t) 0 m = scan_digits t n (m + k)%nat.
Proof.
  intros Hn. destruct (print_digits_scan (Z.to_nat (Z.log2 n)) n [] t m) as (k & Hk & Hl & Hs).
  { split; [lia|]. rewrite Nat2Z.inj_succ, Z2Nat.id by apply Z.log2_nonneg.
    destruct (decide (n = 0)) as [->|]; [done|]. apply Z.log2_spec. lia. }
  exists k. unfold to_string_nat. rewrite Hl, Hs. simpl. repeat split; lia.
Qed.

Lemma to_string_nat_digits n : 0 <= n → Forall is_digit (to_string_nat n).
Proof. intros. by apply print_digits_digits. Qed.

Lemma to_string_nat_cons n : 0 <= n → ∃ c s, to_string_nat n = c :: s ∧ is_digit c.
Proof.
  intros Hn. destruct (to_string_nat_scan n [] 0 Hn) as (k & Hk & Hl & _).
  pose proof (to_string_nat_digits n Hn) as Hd.
  destruct (to_string_nat n) as [|c s]; simpl in Hl; [lia|].
  exists c, s. split; [done|]. by inversion Hd.
Qed.

Lemma is_digit_range c : is_digit c ↔ 48 <= byte_val c <= 57.
Proof.
  unfold is_digit, digit_val. cbv zeta. split.
  - intros [d Hd]. destruct (_ && _) eqn:E; [lia|done].
  - intros H. replace ((48 <=? byte_val c) && (byte_val c <=? 57)) with true by lia. eauto.
Qed.

Lemma is_digit_not_space c : is_digit c → isspace c = false.
Proof. rewrite is_digit_range. unfold isspace. lia. Qed.

Lemma byte_val_minus : byte_val "-" = 45.
Proof. done. Qed.
Lemma byte_val_plus : byte_val "+" = 43.
Proof. done. Qed.

Lemma is_digit_no_sign c s : is_digit c → read_sign (c :: s) = (false, 0%nat, c :: s).
Proof.
  rewrite is_digit_range. intros Hc. unfold read_sign.
  rewrite decide_False by (intros ->; rewrite byte_val_minus in Hc; lia).
  by rewrite decide_False by (intros ->; rewrite byte_val_plus in Hc; lia).
Qed.

(** What follows the printed number does not start with a digit. *)
Definition no_digit_head (t : bytes) : Prop :=
  match t with [] => True | c :: _ => digit_val c = None end.

Lemma scan_no_digit t acc n : no_digit_head t → scan_digits t acc n = (acc, n).
Proof. destruct t as [|c t]; simpl; [done|]. by intros ->. Qed.

(** [strtoll] reads back a printed [int64_t], whatever non-digit follows. *)
Lemma strtoll_to_string_app z t :
  in_s64 z → no_digit_head t →
  strtoll (to_string z ++ t) = mkStrto z (length (to_string z)) false.
Proof.
  intros [Hlo Hhi] Ht. unfold to_string.
  destruct (Z.ltb_spec z 0).
  - destruct (to_string_nat_scan (- z) t 0 ltac:(lia)) as (k & Hk & Hl & Hs).
    unfold strtoll. cbn [app skip_spaces]. change (isspace "-") with false. cbv iota.
    unfold read_sign. rewrite decide_True by done.
    rewrite Hs, scan_no_digit by done. cbn [length Nat.add].
    rewrite Hl. replace (k =? 0)%nat with false by lia.
    rewrite Z.opp_involutive. unfold LLONG_MIN, LLONG_MAX.
    replace (z <? - 2 ^ 63) with false by lia. replace (2 ^ 63 - 1 <? z) with false by lia.
    f_equal; lia.
  - destruct (to_string_nat_scan z t 0 ltac:(lia)) as (k & Hk & Hl & Hs).
    destruct (to_string_nat_cons z ltac:(lia)) as (c & s & Hcs & Hc).
    unfold strtoll. rewrite Hcs in Hs, Hl |- *. cbn [app skip_spaces] in Hs |- *.
    rewrite is_digit_not_space by done. cbv iota. rewrite is_digit_no_sign by done.
    rewrite Hs, scan_no_digit by done. cbn [Nat.add]. rewrite Hl.
    replace (k =? 0)%nat with false by lia. cbv zeta. unfold LLONG_MIN, LLONG_MAX.
    replace (z <? - 2 ^ 63) with false by lia. replace (2 ^ 63 - 1 <? z) with false by lia.
    done.
Qed.

Lemma strtoll_to_string z :
  in_s64 z → strtoll (to_string z) = mkStrto z (length (to_string z)) false.
Proof. intros Hz. rewrite <- (app_nil_r (to_string z)) at 1. by apply strtoll_to_string_app. Qed.

Lemma wrap_s32_id z : in_s32 z → wrap_s32 z = z.
Proof. unfold in_s32, wrap_s32. intros. rewrite Z.mod_small; lia. Qed.

Lemma wrap_s32_range z : in_s32 (wrap_s32 z).
Proof. unfold in_s32, wrap_s32. pose proof (Z.mod_pos_bound (z + 2 ^ 31) (2 ^ 32)). lia. Qed.

Lemma wrap_s64_id z : in_s64 z → wrap_s64 z = z.
Proof. unfold in_s64, wrap_s64. intros. rewrite Z.mod_small; lia. Qed.

Lemma wrap_u64_id z : 0 <= z < 2 ^ 64 → wrap_u64 z = z.
Proof. unfold wrap_u64. intros. by rewrite Z.mod_small. Qed.

Lemma atoi_to_string z : in_s32 z → atoi (to_string z) = z.
Proof.
  unfold in_s32. intros Hz. unfold atoi.
  rewrite strtoll_to_string by (unfold in_s64; lia). by apply wrap_s32_id.
Qed.

Lemma stoi_to_string z : in_s32 z → stoi (to_string z) = Ok z.
Proof.
  unfold in_s32. intros Hz. unfold stoi.
  rewrite strtoll_to_string by (unfold in_s64; lia). cbn [st_end st_range st_value].
  assert (length (to_string z) ≠ 0)%nat.
  { unfold to_string. destruct (z <? 0) eqn:E; simpl; [lia|].
    destruct (to_string_nat_cons z ltac:(lia)) as (c & s & -> & _). simpl; lia. }
  replace (length (to_string z) =? 0)%nat with false by lia.
  by replace ((z <? - 2 ^ 31) || (2 ^ 31 - 1 <? z)) with false by lia.
Qed.

(** A printed number holds no carriage return. *)
Lemma to_string_no_CR z : CR ∉ to_string z.
Proof.
  assert (Hd : ∀ n, 0 <= n → CR ∉ to_string_nat n).
  { intros n Hn Hin. pose proof (to_string_nat_digits n Hn) as Hf.
    rewrite list.Forall_forall in Hf. specialize (Hf _ Hin). by apply is_digit_range in Hf as [? ?]. }
  unfold to_string. destruct (Z.ltb_spec z 0).
  - rewrite elem_of_cons. intros [?|Hin]; [done|]. by apply (Hd (- z)); [lia|].
  - apply Hd. lia.
Qed.

Lemma to_string_inj z1 z2 : in_s64 z1 → in_s64 z2 → to_string z1 = to_string z2 → z1 = z2.
Proof.
  intros H1 H2 E. apply strtoll_to_string in H1. apply strtoll_to_string in H2.
  rewrite E in H1. rewrite H1 in H2. by injection H2.
Qed.

#[export] Instance bytes_ltb_irrefl : Irreflexive (λ a b, bytes_ltb a b = true).
Proof.
  intros a. red. induction a as [|x a IH]; simpl; [done|].
  by rewrite Z.ltb_irrefl.
Qed.

#[export] Instance bytes_ltb_trans : Transitive (λ a b, bytes_ltb a b = true).
Proof.
  intros a. induction a as [|x a IH]; intros [|y b] [|z c]; simpl; try done.
  repeat match goal with |- context [Z.ltb ?u ?v] => destruct (Z.ltb_spec u v) end;
    try done; try lia. apply IH.
Qed.

Lemma bytes_ltb_total a b : bytes_ltb a b = true ∨ a = b ∨ bytes_ltb b a = true.
Proof.
  revert b. induction a as [|x a IH]; intros [|y b]; simpl; auto.
  destruct (Z.ltb_spec (byte_val x) (byte_val y)); [auto|].
  destruct (Z.ltb_spec (byte_val y) (byte_val x)); [auto|].
  assert (x = y) as -> by (apply byte_val_inj; lia).
  destruct (IH b) as [?|[->|?]]; auto.
Qed.
