(* ===== verification/CPosix.v ===== *)
(** * What the program uses of the operating system

    The descriptors a process has opened and not yet closed are a finite set;
    [open], [socket], [epoll_create1], [pipe] and [accept4] add the descriptor the
    kernel chose, [close] removes one.  Closing a descriptor that is not open is a
    fault: in a larger program it would close somebody else's.  [inet_pton] is the
    reader of dotted IPv4 addresses, and [rlimit] the limit on descriptors. *)
From Stdlib Require Import Ascii String ZArith Lia ZifyNat ZifyBool.
From stdpp Require Import base option list strings gmap.
From S2P Require Import Prelude CStdlib.

(** ** Descriptors *)

Abbreviation Fds := (gset Z).

(** A call that returned [fd]; a negative number is a failure. *)
Definition openFd (fd : Z) (fds : Fds) : Fds := if (0 <=? fd)%Z then {[fd]} ∪ fds else fds.

(** [::close(fd)]; on a negative number it only fails with [EBADF]. *)
Definition closeFd (fd : Z) (fds : Fds) : result Fds :=
  if (0 <=? fd)%Z then if bool_decide (fd ∈ fds) then mret (fds ∖ {[fd]}) else Fault BadDescriptor
  else mret fds.

(** The kernel gives out descriptors that are not in use. *)
Definition fresh_fd (fd : Z) (fds : Fds) : Prop := (0 ≤ fd)%Z → fd ∉ fds.

Lemma closeFd_ok fd fds : (0 ≤ fd)%Z → fd ∈ fds → closeFd fd fds = Ok (fds ∖ {[fd]}).
Proof. intros H0 Hin. unfold closeFd. replace (0 <=? fd)%Z with true by lia. by rewrite bool_decide_true. Qed.

Lemma closeFd_neg fd fds : (fd < 0)%Z → closeFd fd fds = Ok fds.
Proof. intros H0. unfold closeFd. by replace (0 <=? fd)%Z with false by lia. Qed.

Lemma openFd_pos fd fds : (0 ≤ fd)%Z → openFd fd fds = {[fd]} ∪ fds.
Proof. intros H0. unfold openFd. by replace (0 <=? fd)%Z with true by lia. Qed.

Lemma openFd_neg fd fds : (fd < 0)%Z → openFd fd fds = fds.
Proof. intros H0. unfold openFd. by replace (0 <=? fd)%Z with false by lia. Qed.

(** What was opened and closed again leaves no trace. *)
Lemma open_close fd fds : fresh_fd fd fds → closeFd fd (openFd fd fds) = Ok fds.
Proof.
  intros Hf. destruct (decide (0 ≤ fd)%Z) as [H0|H0].
  - rewrite openFd_pos, closeFd_ok by (done || set_solver). f_equal. specialize (Hf H0). set_solver.
  - by rewrite openFd_neg, closeFd_neg by lia.
Qed.

(** ** [inet_pton(AF_INET, ...)]

    One pass over the text: [done] are the finished octets, [cur] is the one being
    read.  An octet has no leading zeros and is at most 255. *)
Fixpoint inet4 (s : bytes) (done : list Z) (cur : option Z) : option (list Z) :=
  match s with
  | [] =>
      match cur with
      | Some v => if bool_decide (length done = 3) then Some (done ++ [v]) else None
      | None => None
      end
  | c :: s' =>
      match digit_val c, cur with
      | Some d, None => inet4 s' done (Some d)
      | Some d, Some v =>
          if (v =? 0)%Z then None
          else if (255 <? 10 * v + d)%Z then None
          else inet4 s' done (Some (10 * v + d)%Z)
      | None, Some v =>
          if bool_decide (c = "."%char ∧ length done < 3) then inet4 s' (done ++ [v]) None else None
      | None, None => None
      end
  end.

Definition inet_pton (s : bytes) : option (list Z) := inet4 s [] None.

(** A parsed address has four octets. *)
Lemma inet4_octets s done cur a :
  length done ≤ 3 → Forall (λ v, 0 ≤ v ≤ 255)%Z done → (∀ v, cur = Some v → 0 ≤ v ≤ 255)%Z →
  inet4 s done cur = Some a → length a = 4 ∧ Forall (λ v, 0 ≤ v ≤ 255)%Z a.
Proof.
  revert done cur. induction s as [|c s IH]; intros done cur Hl Hd Hc; cbn [inet4].
  { destruct cur as [v|]; [|done]. case_bool_decide; [|done]. intros [= <-]. rewrite length_app. split; [simpl; lia|].
    apply Forall_app. split; [done|]. constructor; [by apply Hc|done]. }
  destruct (digit_val c) as [d|] eqn:Hdig, cur as [v|]; try done.
  - specialize (Hc v eq_refl). assert (0 ≤ d ≤ 9)%Z by (unfold digit_val in Hdig; case_match; [injection Hdig; lia|done]).
    destruct (v =? 0)%Z; [done|]. destruct (Z.ltb_spec 255 (10 * v + d)); [done|]. apply IH; [done|done|].
    intros ? [= <-]. lia.
  - apply IH; [done|done|]. intros ? [= <-]. unfold digit_val in Hdig. case_match; [injection Hdig; lia|done].
  - case_bool_decide as Hdot; [|done]. destruct Hdot as [_ Hlt]. apply IH; [rewrite length_app; simpl; lia| |done].
    apply Forall_app. split; [done|]. constructor; [by apply Hc|done].
Qed.

(** ** The limit on descriptors *)

Record rlimit := mkRlimit {
  rlim_cur : Z;
  rlim_max : Z
}.

(** [setrlimit] for a process with limit [l]; [permits l new] says whether the
    kernel allows the change. *)
Definition setrlimit (permits : rlimit → rlimit → bool) (new l : rlimit) : bool * rlimit :=
  if permits l new then (true, new) else (false, l).
