(* ===== verification/CDouble.v ===== *)
(** * Doubles of C++ as far as the sorted sets use them

    A [double] is an IEEE 754 value of the Standard Library's [SpecFloat]:
    signed zeros, infinities and NaN included.  This file holds the comparisons
    [==] and [<] of the language and shows that, NaN apart, they are a total
    preorder, in which the two zeros are equal. *)
From Stdlib Require Import ZArith Lia SpecFloat.
From stdpp Require Import base numbers.
From S2P Require Import Prelude.

Abbreviation double := spec_float.

Definition is_nan (f : double) : bool := match f with S754_nan => true | _ => false end.

Definition dbl_eqb : double → double → bool := SFeqb.
Definition dbl_ltb : double → double → bool := SFltb.

(** The position of a number on the extended real line, compared
    lexicographically: class and sign, exponent, mantissa. *)
Definition rank (f : double) : Z * Z * Z :=
  match f with
  | S754_nan => (3, 0, 0)
  | S754_infinity true => (-2, 0, 0)
  | S754_finite true m e => (-1, -e, Z.neg m)
  | S754_zero _ => (0, 0, 0)
  | S754_finite false m e => (1, e, Z.pos m)
  | S754_infinity false => (2, 0, 0)
  end%Z.

Definition rank_lt (a b : Z * Z * Z) : Prop :=
  (a.1.1 < b.1.1 ∨ a.1.1 = b.1.1 ∧ (a.1.2 < b.1.2 ∨ a.1.2 = b.1.2 ∧ a.2 < b.2))%Z.

Lemma rank_lt_irrefl a : ¬ rank_lt a a.
Proof. unfold rank_lt. lia. Qed.

Lemma rank_lt_trans a b c : rank_lt a b → rank_lt b c → rank_lt a c.
Proof. unfold rank_lt. lia. Qed.

Lemma rank_lt_total a b : rank_lt a b ∨ a = b ∨ rank_lt b a.
Proof. destruct a as [[? ?] ?], b as [[? ?] ?]. unfold rank_lt. simpl. rewrite !pair_eq. lia. Qed.

(** [SFcompare] is the comparison of ranks. *)
Lemma SFcompare_rank f g :
  is_nan f = false → is_nan g = false →
  match SFcompare f g with
  | Some Lt => rank_lt (rank f) (rank g)
  | Some Eq => rank f = rank g
  | Some Gt => rank_lt (rank g) (rank f)
  | None => False
  end.
Proof.
  intros Hf Hg.
  destruct f as [[]|[]| |[] mf ef], g as [[]|[]| |[] mg eg];
    try discriminate; unfold rank_lt; cbn -[Z.lt]; try (rewrite ?pair_eq; lia);
    destruct (Z.compare_spec ef eg); cbn -[Z.lt]; try lia;
    change (Pos.compare_cont Eq mf mg) with (Pos.compare mf mg);
    destruct (Pos.compare_spec mf mg); cbn -[Z.lt]; rewrite ?pair_eq; lia.
Qed.

Lemma dbl_ltb_rank f g :
  is_nan f = false → is_nan g = false → dbl_ltb f g = true ↔ rank_lt (rank f) (rank g).
Proof.
  intros Hf Hg. pose proof (SFcompare_rank f g Hf Hg) as H. unfold dbl_ltb, SFltb.
  destruct (SFcompare f g) as [[]|]; split; intros; try done.
  - rewrite H in *. by destruct (rank_lt_irrefl (rank g)).
  - by destruct (rank_lt_irrefl (rank g) (rank_lt_trans _ _ _ H ltac:(done))).
Qed.

Lemma dbl_eqb_rank f g :
  is_nan f = false → is_nan g = false → dbl_eqb f g = true ↔ rank f = rank g.
Proof.
  intros Hf Hg. pose proof (SFcompare_rank f g Hf Hg) as H. unfold dbl_eqb, SFeqb.
  destruct (SFcompare f g) as [[]|]; split; intros; try done; rewrite H0 in H;
    by destruct (rank_lt_irrefl (rank g)).
Qed.

(** Comparisons with a NaN are false. *)
Lemma dbl_eqb_nan f g : dbl_eqb f g = true → is_nan f = false ∧ is_nan g = false.
Proof. unfold dbl_eqb, SFeqb. by destruct f as [[]|[]| |[] ? ?], g as [[]|[]| |[] ? ?]. Qed.
