(* ===== verification/CFloat.v ===== *)
(** * [strtod] and ["%.17g"]: doubles as text

    Executable definitions of the two conversions the sorted sets use:
    [std::strtod(s, nullptr)] and [std::snprintf(buf, n, "%.17g", d)], in the "C"
    locale and with glibc's behaviour, which rounds both correctly (to nearest,
    ties to even) from exact values.

    A conversion of a decimal or hexadecimal text is the rounding of an exact
    rational ([round64]).  The sign of a NaN is not represented. *)
From Stdlib Require Import Ascii String ZArith Lia ZifyNat ZifyBool SpecFloat.
From stdpp Require Import base option list strings numbers.
From S2P Require Import Prelude CStdlib CDouble.

Local Open Scope Z_scope.

Module CFloat.

(** ** Rounding a rational *)

(** [a / b] rounded to the nearest integer, ties to even. *)
Definition div_half_even (a b : Z) : Z :=
  let q := a / b in
  let r := 2 * (a mod b) in
  if r <? b then q else if b <? r then q + 1 else if Z.even q then q else q + 1.

(** [num / den / 2^e] as a quotient. *)
Definition scale (num den e : Z) : Z * Z :=
  if 0 <=? e then (num, den * 2 ^ e) else (num * 2 ^ (- e), den).

Definition emin : Z := -1074.
Definition emax : Z := 971.

(** The exponent of the last place of [num / den]: the quotient has 53 bits, or
    fewer when the number is subnormal. *)
Definition exponent (num den : Z) : Z :=
  let e := Z.max (Z.log2 num - Z.log2 den - 53) emin in
  let '(a, b) := scale num den e in
  if 2 ^ 53 * b <=? a then e + 1 else e.

Definition pack (neg : bool) (m e : Z) : double :=
  let '(m', e') := if m =? 2 ^ 53 then (2 ^ 52, e + 1) else (m, e) in
  if m' =? 0 then S754_zero neg
  else if emax <? e' then S754_infinity neg
  else S754_finite neg (Z.to_pos m') e'.

(** The binary64 number nearest to [num / den], a positive rational. *)
Definition round64 (neg : bool) (num den : Z) : double :=
  let e := exponent num den in
  let '(a, b) := scale num den e in
  pack neg (div_half_even a b) e.

(** ** [strtod] *)

Definition hex_val (c : ascii) : option Z :=
  let v := byte_val c in
  if (48 <=? v) && (v <=? 57) then Some (v - 48)
  else if (97 <=? v) && (v <=? 102) then Some (v - 87)
  else if (65 <=? v) && (v <=? 70) then Some (v - 55)
  else None.

(** A run of digits in base [base]: value, length, what follows. *)
Fixpoint scan (val : ascii → option Z) (base : Z) (s : bytes) (acc : Z) (n : nat) : Z * nat * bytes :=
  match s with
  | c :: s' => match val c with Some d => scan val base s' (base * acc + d) (S n) | None => (acc, n, s) end
  | [] => (acc, n, [])
  end.

(** Digits with an optional point: value of all digits, their number, the number
    after the point, what follows. *)
Definition mantissa (val : ascii → option Z) (base : Z) (s : bytes) : Z * nat * nat * bytes :=
  let '(v, n, r) := scan val base s 0 0 in
  match r with
  | c :: r' =>
      if bool_decide (c = "."%char) then
        let '(w, f, r2) := scan val base r' v 0 in (w, n + f, f, r2)%nat
      else (v, n, 0%nat, r)
  | [] => (v, n, 0%nat, r)
  end.

(** An optional exponent marked by [mark] (lower case). *)
Definition exponent_part (mark : ascii) (s : bytes) : Z :=
  match s with
  | c :: s' =>
      if bool_decide (tolower c = mark) then
        let '(neg, _, s2) := read_sign s' in
        let '(v, n) := scan_digits s2 0 0 in
        if (n =? 0)%nat then 0 else if neg : bool then - v else v
      else 0
  | [] => 0
  end.

(** [m * 10^e] for [m > 0]: what is certainly too large or too small is not
    computed. *)
Definition of_decimal (neg : bool) (m e : Z) : double :=
  if m =? 0 then S754_zero neg
  else if 400 <? e then S754_infinity neg
  else if e + Z.log2 m <? -400 then S754_zero neg
  else if 0 <=? e then round64 neg (m * 10 ^ e) 1
  else round64 neg m (10 ^ (- e)).

Definition of_hex (neg : bool) (m e : Z) : double :=
  if m =? 0 then S754_zero neg
  else if 2000 <? e then S754_infinity neg
  else if e + Z.log2 m <? -2000 then S754_zero neg
  else if 0 <=? e then round64 neg (m * 2 ^ e) 1
  else round64 neg m (2 ^ (- e)).

Definition strtod_decimal (neg : bool) (s : bytes) : double :=
  let '(m, n, f, r) := mantissa digit_val 10 s in
  if (n =? 0)%nat then S754_zero false
  else of_decimal neg m (exponent_part "e" r - Z.of_nat f).

Definition strtod (s : bytes) : double :=
  let '(_, s1) := skip_spaces s in
  let '(neg, _, s2) := read_sign s1 in
  let low := to_lower s2 in
  if bool_decide (take 3 low = lit "inf") then S754_infinity neg
  else if bool_decide (take 3 low = lit "nan") then S754_nan
  else if bool_decide (take 2 low = lit "0x") then
    let '(m, n, f, r) := mantissa hex_val 16 (drop 2 s2) in
    if (n =? 0)%nat then S754_zero neg
    else of_hex neg m (exponent_part "p" r - 4 * Z.of_nat f)
  else strtod_decimal neg s2.

(** ** [snprintf] with ["%.17g"] *)

(** [floor(log10(m * 2^e))]: an estimate from the number of bits, corrected. *)
Definition log10 (num den : Z) : Z :=
  let x := ((Z.log2 num - Z.log2 den) * 30103) / 100000 in
  let below y := if 0 <=? y then num <? den * 10 ^ y else num * 10 ^ (- y) <? den in
  if below x then (if below (x - 1) then x - 2 else x - 1)
  else if below (x + 1) then x else if below (x + 2) then x + 1 else x + 2.

(** [num / den * 10^k] rounded. *)
Definition times_pow10 (num den k : Z) : Z :=
  if 0 <=? k then div_half_even (num * 10 ^ k) den else div_half_even num (den * 10 ^ (- k)).

(** Seventeen significant digits and the decimal exponent of the first. *)
Definition significant (num den : Z) : Z * Z :=
  let x := log10 num den in
  let d := times_pow10 num den (16 - x) in
  if d =? 10 ^ 17 then (10 ^ 16, x + 1) else (d, x).

Fixpoint strip_zeros (s : bytes) : bytes :=
  match s with
  | [] => []
  | c :: s' =>
      match strip_zeros s' with
      | [] => if bool_decide (c = "0"%char) then [] else [c]
      | s2 => c :: s2
      end
  end.

Definition with_point (int frac : bytes) : bytes :=
  match frac with [] => int | _ => int ++ lit "." ++ frac end.

(** At least two digits. *)
Definition print_exponent (x : Z) : bytes :=
  lit "e" ++ (if x <? 0 then lit "-" else lit "+") ++
  (if Z.abs x <? 10 then lit "0" else []) ++ to_string (Z.abs x).

(** [%g] without [#]: trailing zeros are dropped, and the exponent decides between
    the two styles. *)
Definition layout (digits : bytes) (x : Z) : bytes :=
  let ds := strip_zeros digits in
  if (x <? -4) || (17 <=? x) then with_point (take 1 ds) (drop 1 ds) ++ print_exponent x
  else if x <? 0 then lit "0." ++ replicate (Z.to_nat (- x - 1)) "0"%char ++ ds
  else
    let n := Z.to_nat (x + 1) in
    with_point (take n ds ++ replicate (n - length ds) "0"%char) (drop n ds).

Definition print_finite (m : positive) (e : Z) : bytes :=
  let '(num, den) := if 0 <=? e then (Z.pos m * 2 ^ e, 1) else (Z.pos m, 2 ^ (- e)) in
  let '(d, x) := significant num den in
  layout (to_string d) x.

Definition print17g (f : double) : bytes :=
  match f with
  | S754_nan => lit "nan"
  | S754_infinity neg => if neg then lit "-inf" else lit "inf"
  | S754_zero neg => if neg then lit "-0" else lit "0"
  | S754_finite neg m e => (if neg then lit "-" else []) ++ print_finite m e
  end.

End CFloat.
