(* ===== verification/CFloatExact.v ===== *)
(** * Seventeen digits are enough

    What [CFloat] prints with ["%.17g"] is read back by [strtod] as the same
    number, for every binary64 value that is not a NaN; the text fits the
    64-byte buffers of the program.

    Numbers are compared as integers: everything is scaled by [10^3000], so that
    [P k] stands for [2^k] and [T y] for [10^y] for all exponents that occur. *)
From Stdlib Require Import Ascii String ZArith Lia ZifyNat ZifyBool SpecFloat.
From stdpp Require Import base option list strings numbers.
From S2P Require Import Prelude CStdlib CDouble CFloat.
Import CFloat.

Local Open Scope Z_scope.

Module CFloatExact.

(** ** Scaled powers *)

Definition P (k : Z) : Z := 5 ^ 3000 * 2 ^ (3000 + k).
Definition T (y : Z) : Z := 10 ^ (3000 + y).
Definition U : Z := T 0.

Lemma P_add k j : -3000 <= k → 0 <= j → P (k + j) = P k * 2 ^ j.
Proof. intros Hk Hj. unfold P. rewrite Z.add_assoc, Z.pow_add_r by lia. apply Z.mul_assoc. Qed.

Lemma T_add y j : -3000 <= y → 0 <= j → T (y + j) = T y * 10 ^ j.
Proof. intros Hk Hj. unfold T. rewrite Z.add_assoc, Z.pow_add_r by lia. done. Qed.

Lemma P_pos k : -3000 <= k → 0 < P k.
Proof. intros Hk. unfold P. apply Z.mul_pos_pos; apply Z.pow_pos_nonneg; lia. Qed.

Lemma T_pos y : -3000 <= y → 0 < T y.
Proof. intros Hy. unfold T. apply Z.pow_pos_nonneg; lia. Qed.

Lemma P_0 : P 0 = U.
Proof. unfold P, U, T. rewrite !Z.add_0_r. change 10 with (5 * 2). by rewrite Z.pow_mul_l. Qed.

#[local] Opaque P T.

Lemma P_lt k k' : -3000 <= k → k < k' → P k < P k'.
Proof.
  intros Hk Hlt. replace k' with (k + (k' - k)) by lia. rewrite P_add by lia. pose proof (P_pos k Hk).
  pose proof (Z.pow_gt_1 2 (k' - k)). nia.
Qed.

Lemma T_lt y y' : -3000 <= y → y < y' → T y < T y'.
Proof.
  intros Hk Hlt. replace y' with (y + (y' - y)) by lia. rewrite T_add by lia. pose proof (T_pos y Hk).
  pose proof (Z.pow_gt_1 10 (y' - y)). nia.
Qed.

Lemma P_lt_inv k k' : -3000 <= k → -3000 <= k' → P k < P k' → k < k'.
Proof.
  intros Hk Hk' Hlt. destruct (Z.lt_total k k') as [?|[->|?]]; [done|lia|].
  pose proof (P_lt k' k Hk'). lia.
Qed.

Lemma U_pos : 0 < U.
Proof. by apply T_pos. Qed.

(** [v / U] is [num / den]. *)
Definition ratio (num den v : Z) : Prop := 0 < num ∧ 0 < den ∧ num * U = v * den.

Lemma ratio_pos num den v : ratio num den v → 0 < v.
Proof. intros (Hn & Hd & Heq). pose proof U_pos. nia. Qed.

(** ** Rounding *)

Lemma div_half_even_near a b : 0 < b → 2 * Z.abs (a - div_half_even a b * b) <= b.
Proof.
  intros Hb. unfold div_half_even. cbv zeta. pose proof (Z.div_mod a b ltac:(lia)) as Hdm.
  pose proof (Z.mod_pos_bound a b Hb) as Hm. set (q := a / b) in *. set (r := a mod b) in *.
  destruct (2 * r <? b) eqn:H1; [nia|]. destruct (b <? 2 * r) eqn:H2; [nia|]. destruct (Z.even q); nia.
Qed.

Lemma div_half_even_unique a b k : 0 < b → 2 * Z.abs (a - k * b) < b → div_half_even a b = k.
Proof. intros Hb Hk. pose proof (div_half_even_near a b Hb). set (q := div_half_even a b) in *. nia. Qed.

(** [a / b] is [v / 2^e]. *)
Lemma scale_ratio num den v e a b :
  ratio num den v → -3000 <= e → scale num den e = (a, b) → 0 < b ∧ a * P e = v * b.
Proof.
  intros (Hn & Hd & Heq) He. unfold scale. destruct (Z.leb_spec 0 e) as [H|H]; intros [= <- <-].
  - pose proof (Z.pow_pos_nonneg 2 e ltac:(lia) H). split; [nia|].
    assert (HP : P e = U * 2 ^ e) by (rewrite <- P_0, <- P_add by lia; f_equal; lia). rewrite HP. nia.
  - split; [done|]. assert (HP : U = P e * 2 ^ (- e)) by (rewrite <- P_0, <- P_add by lia; f_equal; lia).
    rewrite <- Heq, HP. lia.
Qed.

(** The logarithms of numerator and denominator bound the number. *)
Lemma log2_bounds num den v l :
  ratio num den v → l = Z.log2 num - Z.log2 den → -2990 <= l → P (l - 1) < v < P (l + 1).
Proof.
  intros (Hn & Hd & Heq) Hl Hr. pose proof (Z.log2_spec num Hn) as [Hn1 Hn2]. pose proof (Z.log2_spec den Hd) as [Hd1 Hd2].
  pose proof (Z.log2_nonneg num). pose proof (Z.log2_nonneg den). rewrite <- P_0 in Heq.
  pose proof (P_pos 0 ltac:(lia)) as HP0.
  set (ln := Z.log2 num) in *. set (ld := Z.log2 den) in *. rewrite Z.pow_succ_r in Hn2, Hd2 by lia.
  assert (Hp : ∀ k, -3000 <= k → k + ld = ln → P k * 2 ^ ld = P 0 * 2 ^ ln).
  { intros k Hk Hs. rewrite <- P_add, <- (P_add 0) by lia. f_equal. lia. }
  specialize (Hp l ltac:(lia) ltac:(lia)).
  assert (Hl1 : P (l + 1) = P l * 2) by by rewrite P_add by lia.
  assert (Hl0 : P l = P (l - 1) * 2) by (replace l with (l - 1 + 1) at 1 by lia; by rewrite P_add by lia).
  pose proof (P_pos (l - 1) ltac:(lia)). pose proof (Z.pow_pos_nonneg 2 ld ltac:(lia) ltac:(lia)).
  split; nia.
Qed.

Lemma exponent_cases num den v :
  ratio num den v → -2990 <= Z.log2 num - Z.log2 den →
  let e1 := Z.max (Z.log2 num - Z.log2 den - 53) emin in
  exponent num den = if P (e1 + 53) <=? v then e1 + 1 else e1.
Proof.
  intros Hr Hl e1. unfold exponent. cbv zeta. fold e1. destruct (scale num den e1) as [a b] eqn:Hs.
  assert (He : -3000 <= e1) by (unfold e1, emin; lia).
  destruct (scale_ratio _ _ _ _ _ _ Hr He Hs) as [Hb Hab]. rewrite P_add by lia. pose proof (P_pos e1 He).
  replace (2 ^ 53 * b <=? a) with (P e1 * 2 ^ 53 <=? v); [done|].
  apply eq_bool_prop_intro. rewrite !Is_true_true, !Z.leb_le. split; nia.
Qed.

Lemma exponent_normal num den v e :
  ratio num den v → -2990 <= Z.log2 num - Z.log2 den → emin <= e → P (e + 52) <= v < P (e + 53) →
  exponent num den = e.
Proof.
  intros Hr Hl He [H1 H2]. rewrite (exponent_cases num den v Hr Hl). set (l := Z.log2 num - Z.log2 den) in *.
  destruct (log2_bounds num den v l Hr eq_refl Hl) as [H3 H4]. unfold emin in *.
  pose proof (P_lt_inv (l - 1) (e + 53) ltac:(lia) ltac:(lia) ltac:(lia)).
  pose proof (P_lt_inv (e + 52) (l + 1) ltac:(lia) ltac:(lia) ltac:(lia)).
  assert (l = e + 52 ∨ l = e + 53) as [-> | ->] by lia.
  - destruct (decide (e = -1074)) as [->|].
    + rewrite Z.max_r by lia. destruct (Z.leb_spec (P (-1074 + 53)) v); lia.
    + rewrite Z.max_l by lia. replace (e + 52 - 53 + 53) with (e + 52) by lia.
      destruct (Z.leb_spec (P (e + 52)) v); lia.
  - rewrite Z.max_l by lia. replace (e + 53 - 53 + 53) with (e + 53) by lia.
    destruct (Z.leb_spec (P (e + 53)) v); lia.
Qed.

Lemma exponent_subnormal num den v :
  ratio num den v → -2990 <= Z.log2 num - Z.log2 den → v < P (emin + 53) → exponent num den = emin.
Proof.
  intros Hr Hl H1. rewrite (exponent_cases num den v Hr Hl). set (l := Z.log2 num - Z.log2 den) in *.
  destruct (log2_bounds num den v l Hr eq_refl Hl) as [H3 _]. unfold emin in *.
  pose proof (P_lt_inv (l - 1) (-1074 + 53) ltac:(lia) ltac:(lia) ltac:(lia)).
  rewrite Z.max_r by lia. destruct (Z.leb_spec (P (-1074 + 53)) v); lia.
Qed.

(** A canonical binary64 significand and exponent. *)
Definition canonical (m e : Z) : Prop :=
  emin <= e <= emax ∧ 0 < m < 2 ^ 53 ∧ (2 ^ 52 <= m ∨ e = emin).

Lemma pack_canonical neg m e : canonical m e → pack neg m e = S754_finite neg (Z.to_pos m) e.
Proof.
  intros (He & Hm & _). unfold pack. replace (m =? 2 ^ 53) with false by lia. replace (m =? 0) with false by lia.
  by replace (emax <? e) with false by lia.
Qed.

Lemma round64_exponent neg num den w e m :
  ratio num den w → -3000 <= e → exponent num den = e → 2 * Z.abs (w - m * P e) < P e →
  round64 neg num den = pack neg m e.
Proof.
  intros Hr He Hx Hn. unfold round64. cbv zeta. rewrite Hx. destruct (scale num den e) as [a b] eqn:Hs.
  destruct (scale_ratio _ _ _ _ _ _ Hr He Hs) as [Hb Hab]. pose proof (P_pos e He).
  rewrite (div_half_even_unique a b m); [done|done|]. nia.
Qed.

(** A number closer to a canonical one than half of its last place, a quarter at
    a power of two, is rounded to it. *)
Lemma round64_near neg num den w m e :
  ratio num den w → -2990 <= Z.log2 num - Z.log2 den → canonical m e →
  2 * Z.abs (w - m * P e) < P e → (m = 2 ^ 52 → 4 * Z.abs (w - m * P e) < P e) →
  round64 neg num den = S754_finite neg (Z.to_pos m) e.
Proof.
  intros Hr Hl Hc Hn Hp. pose proof Hc as (He & Hm & Hor). unfold emin, emax in He. pose proof (P_pos e ltac:(lia)) as HP.
  assert (H52 : P (e + 52) = P e * 2 ^ 52) by (apply P_add; lia).
  assert (H53 : P (e + 53) = P e * 2 ^ 53) by (apply P_add; lia).
  assert (HmP : m * P e <= (2 ^ 53 - 1) * P e) by (apply Z.mul_le_mono_nonneg_r; lia).
  destruct (decide (P (e + 52) <= w ∨ e = emin)) as [Hcase|Hcase].
  - rewrite <- (pack_canonical neg m e Hc). apply (round64_exponent neg num den w); [done|lia| |done].
    destruct (decide (P (e + 52) <= w)) as [Hge|Hlt].
    + apply (exponent_normal num den w); [done|done|unfold emin; lia|]. lia.
    + destruct Hcase as [?|Heq]; [done|]. rewrite Heq. apply (exponent_subnormal num den w); [done|done|]. rewrite <- Heq. lia.
  - assert (Hm52 : m = 2 ^ 52).
    { destruct (decide (2 ^ 52 + 1 <= m)) as [Hge|]; [|unfold emin in *; lia].
      pose proof (Z.mul_le_mono_nonneg_r _ _ (P e) ltac:(lia) Hge). lia. }
    specialize (Hp Hm52).
    assert (HPe : P e = P (e - 1) * 2) by (replace e with (e - 1 + 1) at 1 by lia; rewrite P_add by lia; lia).
    assert (He1 : P (e - 1 + 52) = P (e - 1) * 2 ^ 52) by (apply P_add; lia).
    assert (He2 : P (e - 1 + 53) = P (e - 1) * 2 ^ 53) by (apply P_add; lia).
    unfold emin in Hcase.
    rewrite (round64_exponent neg num den w (e - 1) (2 ^ 53)); [|done|lia| |].
    + unfold pack. rewrite Z.eqb_refl. replace (e - 1 + 1) with e by lia. replace (2 ^ 52 =? 0) with false by lia.
      unfold emax. replace (971 <? e) with false by lia. by rewrite Hm52.
    + apply (exponent_normal num den w); [done|done|unfold emin; lia|]. lia.
    + lia.
Qed.

(** ** The decimal exponent *)

(** [T y <= P k] and [P k <= T y], checked on smaller numbers. *)
Definition dec_le_bin (y k : Z) : bool := 10 ^ (400 + y) * 2 ^ 1200 <=? 10 ^ 400 * 2 ^ (1200 + k).
Definition bin_le_dec (k y : Z) : bool := 10 ^ 400 * 2 ^ (1200 + k) <=? 10 ^ (400 + y) * 2 ^ 1200.

Transparent P T.
Lemma unscale y k : -400 <= y → -1200 <= k →
  T y * 2 ^ 1200 = 10 ^ 2600 * (10 ^ (400 + y) * 2 ^ 1200) ∧
  P k * 2 ^ 1200 = 10 ^ 2600 * (10 ^ 400 * 2 ^ (1200 + k)).
Proof.
  intros Hy Hk. unfold P, T. split.
  - replace (3000 + y) with (2600 + (400 + y)) by lia. rewrite Z.pow_add_r by lia.
    generalize (2 ^ 1200) (10 ^ 2600). intros. ring.
  - replace (3000 + k) with (1800 + (1200 + k)) by lia. rewrite (Z.pow_add_r 2) by lia.
    assert (H : 5 ^ 3000 * (2 ^ 1800 * 2 ^ 1200) = 10 ^ 2600 * 10 ^ 400).
    { rewrite <- !Z.pow_add_r by lia. change 10 with (5 * 2). rewrite Z.pow_mul_l. f_equal. }
    revert H. generalize (5 ^ 3000) (2 ^ 1800) (2 ^ 1200) (10 ^ 2600) (10 ^ 400) (2 ^ (1200 + k)). intros a b c d f z H.
    transitivity (d * f * z); [rewrite <- H|]; ring.
Qed.
#[local] Opaque P T.

Lemma scales_pos : 0 < 2 ^ 1200 ∧ 0 < 10 ^ 2600.
Proof. split; apply Z.pow_pos_nonneg; lia. Qed.

Lemma dec_le_bin_ok y k : -400 <= y → -1200 <= k → dec_le_bin y k = true → T y <= P k.
Proof.
  intros Hy Hk H%Z.leb_le. destruct (unscale y k Hy Hk) as [HT HP].
  destruct scales_pos as [Hc Hd]. set (c := 2 ^ 1200) in *. set (d := 10 ^ 2600) in *. clearbody c d. nia.
Qed.

Lemma bin_le_dec_ok y k : -400 <= y → -1200 <= k → bin_le_dec k y = true → P k <= T y.
Proof.
  intros Hy Hk H%Z.leb_le. destruct (unscale y k Hy Hk) as [HT HP].
  destruct scales_pos as [Hc Hd]. set (c := 2 ^ 1200) in *. set (d := 10 ^ 2600) in *. clearbody c d. nia.
Qed.

(** The estimate is off by at most two, for every exponent of a binary64 number:
    checked one exponent after the other, with the powers carried along. *)
Definition estimate (l : Z) : Z := (l * 30103) / 100000.

Fixpoint estimates_ok (n : nat) (l a b : Z) : bool :=
  match n with
  | O => true
  | S n' => (b <=? a) && (4 * a <=? 100000 * b) &&
      estimates_ok n' (l + 1) (2 * a) (if estimate (l + 1) =? estimate l then b else 10 * b)
  end.

Lemma estimate_step l : estimate (l + 1) = estimate l ∨ estimate (l + 1) = estimate l + 1.
Proof.
  unfold estimate. pose proof (Z.div_mod (l * 30103) 100000 ltac:(lia)). pose proof (Z.div_mod ((l + 1) * 30103) 100000 ltac:(lia)).
  pose proof (Z.mod_pos_bound (l * 30103) 100000 ltac:(lia)). pose proof (Z.mod_pos_bound ((l + 1) * 30103) 100000 ltac:(lia)).
  lia.
Qed.

Lemma estimates_ok_sound n l a b l' :
  estimates_ok n l a b = true → -1190 <= l → 0 <= 398 + estimate l →
  a = 10 ^ 400 * 2 ^ (1200 + (l - 1)) → b = 10 ^ (400 + (estimate l - 2)) * 2 ^ 1200 →
  l <= l' < l + Z.of_nat n →
  dec_le_bin (estimate l' - 2) (l' - 1) = true ∧ bin_le_dec (l' + 1) (estimate l' + 3) = true.
Proof.
  revert l a b. induction n as [|n IH]; intros l a b Hok Hl He Ha Hb Hl'; [lia|]. cbn [estimates_ok] in Hok.
  apply andb_prop in Hok as [[H1 H2]%andb_prop Hrest]. apply Z.leb_le in H1, H2.
  destruct (decide (l' = l)) as [->|Hne].
  - unfold dec_le_bin, bin_le_dec. rewrite !Z.leb_le, <- Ha, <- Hb. split; [done|].
    replace (1200 + (l + 1)) with (1200 + (l - 1) + 2) by lia. rewrite Z.pow_add_r by lia.
    replace (400 + (estimate l + 3)) with (400 + (estimate l - 2) + 5) by lia. rewrite (Z.pow_add_r 10) by lia.
    change (2 ^ 2) with 4. change (10 ^ 5) with 100000. rewrite Z.mul_assoc, <- Ha.
    replace (10 ^ (400 + (estimate l - 2)) * 100000 * 2 ^ 1200) with (100000 * b) by (rewrite Hb; ring). lia.
  - apply (IH (l + 1) _ _ Hrest); [lia| | | |lia].
    + destruct (estimate_step l) as [-> | ->]; lia.
    + rewrite Ha. replace (1200 + (l + 1 - 1)) with (1200 + (l - 1) + 1) by lia. rewrite (Z.pow_add_r 2 _ 1) by lia. ring.
    + destruct (estimate_step l) as [Hs|Hs]; rewrite Hs.
      * by rewrite Z.eqb_refl.
      * replace (estimate l + 1 =? estimate l) with false by lia. rewrite Hb.
        replace (400 + (estimate l + 1 - 2)) with (400 + (estimate l - 2) + 1) by lia. rewrite (Z.pow_add_r 10 _ 1) by lia. ring.
Qed.

Lemma estimate_all :
  estimates_ok (Z.to_nat 2110) (-1080) (10 ^ 400 * 2 ^ (1200 + (-1080 - 1))) (10 ^ (400 + (estimate (-1080) - 2)) * 2 ^ 1200) = true.
Proof. vm_compute. reflexivity. Qed.

Lemma estimate_bounds l :
  -1080 <= l < 1030 → -400 <= estimate l - 2 ∧ T (estimate l - 2) <= P (l - 1) ∧ P (l + 1) <= T (estimate l + 3).
Proof.
  intros Hl. destruct (estimates_ok_sound _ _ _ _ l estimate_all) as [H1 H2]; [lia|by vm_compute|done|done|lia|].
  assert (Hx : -400 <= estimate l - 2).
  { unfold estimate. pose proof (Z.div_le_mono (-1080 * 30103) (l * 30103) 100000 ltac:(lia) ltac:(lia)) as Hd.
    change (-1080 * 30103 / 100000) with (-326) in Hd. lia. }
  split; [done|]. split; [apply dec_le_bin_ok; [lia|lia|done]|apply bin_le_dec_ok; [lia|lia|done]].
Qed.

Lemma log10_ok num den v :
  ratio num den v → -1080 <= Z.log2 num - Z.log2 den < 1030 →
  let x := log10 num den in -402 <= x <= 312 ∧ T x <= v < T (x + 1).
Proof.
  intros Hr Hl. unfold log10. cbv zeta. fold (estimate (Z.log2 num - Z.log2 den)).
  set (l := Z.log2 num - Z.log2 den) in *. set (y := estimate l).
  destruct (estimate_bounds l Hl) as (Hy & H1 & H2). fold y in Hy, H1, H2.
  destruct (log2_bounds num den v l Hr eq_refl ltac:(lia)) as [H3 H4].
  assert (Hup : y <= 310).
  { unfold y, estimate. pose proof (Z.div_le_mono (l * 30103) (1030 * 30103) 100000 ltac:(lia) ltac:(lia)) as Hd.
    change (1030 * 30103 / 100000) with 310 in Hd. lia. }
  destruct Hr as (Hn & Hd & Heq). pose proof U_pos.
  assert (Hb : ∀ z, -3000 <= z → (if 0 <=? z then num <? den * 10 ^ z else num * 10 ^ (- z) <? den) = (v <? T z)).
  { intros z Hz. apply eq_bool_prop_intro. rewrite Is_true_true. destruct (Z.leb_spec 0 z) as [H0|H0].
    - pose proof (Z.pow_pos_nonneg 10 z ltac:(lia) H0).
      assert (HT : T z = U * 10 ^ z) by (unfold U; rewrite <- T_add by lia; f_equal; lia).
      rewrite Is_true_true, !Z.ltb_lt, HT. split; intros ?; nia.
    - pose proof (Z.pow_pos_nonneg 10 (- z) ltac:(lia) ltac:(lia)). pose proof (T_pos z Hz).
      assert (HT : U = T z * 10 ^ (- z)) by (unfold U; rewrite <- T_add by lia; f_equal; lia).
      rewrite Is_true_true, !Z.ltb_lt. rewrite HT in Heq. split; intros ?; nia. }
  rewrite !Hb by lia.
  destruct (Z.ltb_spec v (T y)); [destruct (Z.ltb_spec v (T (y - 1)))|destruct (Z.ltb_spec v (T (y + 1)));
    [|destruct (Z.ltb_spec v (T (y + 2)))]].
  - replace (y - 2 + 1) with (y - 1) by lia. lia.
  - replace (y - 1 + 1) with y by lia. lia.
  - lia.
  - replace (y + 1 + 1) with (y + 2) by lia. lia.
  - replace (y + 2 + 1) with (y + 3) by lia. lia.
Qed.

(** ** Seventeen digits *)

Lemma times_pow10_near num den v k :
  ratio num den v → -2000 <= k <= 2000 →
  2 * Z.abs (times_pow10 num den k * T (- k) - v) <= T (- k).
Proof.
  intros (Hn & Hd & Heq) Hk. unfold times_pow10. pose proof (T_pos (- k) ltac:(lia)) as HT.
  destruct (Z.leb_spec 0 k) as [H0|H0].
  - pose proof (div_half_even_near (num * 10 ^ k) den Hd) as Hnear. set (d := div_half_even _ _) in *.
    assert (HU : U = T (- k) * 10 ^ k) by (unfold U; rewrite <- T_add by lia; f_equal; lia).
    assert (Hv : v * den = num * 10 ^ k * T (- k)) by (rewrite <- Heq, HU; ring).
    set (a := num * 10 ^ k) in *. set (t := T (- k)) in *. clearbody a t d. clear -Hd HT Hnear Hv.
    assert (2 * Z.abs (d * t - v) * den <= t * den); [|nia].
    replace (2 * Z.abs (d * t - v) * den) with (2 * Z.abs (a - d * den) * t); [nia|]. 
    rewrite <- (Z.abs_eq den) at 2 by lia. rewrite <- (Z.abs_eq t) at 1 by lia.
    rewrite <- !Z.mul_assoc, <- !Z.abs_mul. f_equal. rewrite <- (Z.abs_opp (_ * den)). f_equal. lia.
  - pose proof (Z.pow_pos_nonneg 10 (- k) ltac:(lia) ltac:(lia)) as Hpow.
    pose proof (div_half_even_near num (den * 10 ^ (- k)) ltac:(nia)) as Hnear. set (d := div_half_even _ _) in *.
    assert (HT2 : T (- k) = U * 10 ^ (- k)) by (unfold U; rewrite <- T_add by lia; f_equal; lia).
    rewrite HT2 in *. pose proof U_pos as HU. set (q := 10 ^ (- k)) in *. set (u := U) in *. clearbody q u d.
    clear -Hd Hnear Heq Hpow HU.
    assert (2 * Z.abs (d * (u * q) - v) * den <= u * q * den); [|nia].
    replace (2 * Z.abs (d * (u * q) - v) * den) with (2 * Z.abs (num - d * (den * q)) * u); [nia|].
    rewrite <- (Z.abs_eq den) at 2 by lia. rewrite <- (Z.abs_eq u) at 1 by lia.
    rewrite <- !Z.mul_assoc, <- !Z.abs_mul. f_equal. rewrite <- (Z.abs_opp (_ * den)). f_equal. lia.
Qed.

(** Seventeen digits, with a relative error of at most half of [10^-16]. *)
Lemma significant_ok num den v d x :
  ratio num den v → -1080 <= Z.log2 num - Z.log2 den < 1030 → significant num den = (d, x) →
  10 ^ 16 <= d < 10 ^ 17 ∧ -402 <= x <= 313 ∧ v < T (x + 1) ∧ 2 * 10 ^ 16 * Z.abs (d * T (x - 16) - v) <= v.
Proof.
  intros Hr Hl. unfold significant. cbv zeta. destruct (log10_ok num den v Hr Hl) as (Hx & H1 & H2).
  set (y := log10 num den) in *.
  pose proof (times_pow10_near num den v (16 - y) Hr ltac:(lia)) as Hnear. replace (- (16 - y)) with (y - 16) in Hnear by lia.
  set (q := times_pow10 num den (16 - y)) in *.
  assert (HT : ∀ j, 0 <= j → T (y - 16 + j) = T (y - 16) * 10 ^ j) by (intros j Hj; apply T_add; lia).
  assert (HTx : T y = T (y - 16) * 10 ^ 16) by (rewrite <- HT by lia; f_equal; lia).
  assert (HTx1 : T (y + 1) = T (y - 16) * 10 ^ 17) by (rewrite <- HT by lia; f_equal; lia).
  pose proof (T_pos (y - 16) ltac:(lia)) as HTp. pose proof (T_lt (y + 1) (y + 2) ltac:(lia) ltac:(lia)) as Hup.
  assert (Hup' : T (y + 1 - 16) = T (y - 16) * 10) by (replace (y + 1 - 16) with (y - 16 + 1) by lia; rewrite HT by lia; reflexivity).
  set (t := T (y - 16)) in *. clearbody q. change (10 ^ 16) with 10000000000000000 in *. change (10 ^ 17) with 100000000000000000 in *.
  destruct (Z.eqb_spec q 100000000000000000) as [Hq|Hq]; intros [= <- <-];
    fold t; clearbody t.
  - replace (y + 1 + 1) with (y + 2) by lia. rewrite Hup'. split; [lia|]. split; [lia|]. split; [lia|]. subst q. lia.
  - split; [nia|]. split; [lia|]. split; [lia|]. lia.
Qed.

(** ** Reading a decimal *)

Lemma log2_lt_T m e : 0 < m → -3000 <= e → m * T e < T (e + Z.log2 m + 1).
Proof.
  intros Hm He. pose proof (Z.log2_nonneg m). replace (e + Z.log2 m + 1) with (e + (Z.log2 m + 1)) by lia.
  rewrite T_add by lia. pose proof (T_pos e He). destruct (Z.log2_spec m Hm) as [_ Hlt]. rewrite <- Z.add_1_r in Hlt.
  pose proof (Z.pow_le_mono_l 2 10 (Z.log2 m + 1) ltac:(lia)). nia.
Qed.

(** A decimal within half of [10^-16] of a canonical number is read as it. *)
Lemma of_decimal_near neg m' e' m e :
  0 < m' → -400 <= e' <= 400 → canonical m e → T (-350) <= m' * T e' →
  2 * 10 ^ 16 * Z.abs (m' * T e' - m * P e) <= m * P e →
  of_decimal neg m' e' = S754_finite neg (Z.to_pos m) e.
Proof.
  intros Hm He Hc Hbig Hnear. pose proof Hc as (Hce & Hcm & _). unfold emin, emax in Hce.
  pose proof (P_pos e ltac:(lia)) as HP. pose proof (Z.log2_nonneg m') as Hlog.
  assert (Hhalf : 2 * Z.abs (m' * T e' - m * P e) < P e).
  { set (d := Z.abs _) in *. clearbody d. change (2 ^ 53) with 9007199254740992 in Hcm. nia. }
  assert (Hquarter : m = 2 ^ 52 → 4 * Z.abs (m' * T e' - m * P e) < P e).
  { intros Hm52. set (d := Z.abs _) in *. clearbody d. change (2 ^ 52) with 4503599627370496 in Hm52. subst m. lia. }
  unfold of_decimal. replace (m' =? 0) with false by lia. replace (400 <? e') with false by lia.
  replace (e' + Z.log2 m' <? -400) with false.
  2:{ symmetry. apply Z.ltb_ge. destruct (Z.lt_ge_cases (e' + Z.log2 m') (-400)) as [Hlt|]; [|done].
      pose proof (log2_lt_T m' e' Hm ltac:(lia)). pose proof (T_lt (e' + Z.log2 m' + 1) (-350) ltac:(lia) ltac:(lia)). lia. }
  destruct (Z.leb_spec 0 e') as [H0|H0].
  - pose proof (Z.pow_pos_nonneg 10 e' ltac:(lia) H0).
    apply (round64_near neg (m' * 10 ^ e') 1 (m' * T e')); [|rewrite Z.log2_1; pose proof (Z.log2_nonneg (m' * 10 ^ e')); lia|done|done|done].
    assert (HT : T e' = U * 10 ^ e') by (unfold U; rewrite <- T_add by lia; f_equal; lia). split; [nia|]. split; [lia|]. rewrite HT. ring.
  - pose proof (Z.pow_pos_nonneg 10 (- e') ltac:(lia) ltac:(lia)).
    apply (round64_near neg m' (10 ^ (- e')) (m' * T e')); [| |done|done|done].
    + assert (HT : U = T e' * 10 ^ (- e')) by (unfold U; rewrite <- T_add by lia; f_equal; lia). split; [done|]. split; [done|]. rewrite HT. ring.
    + assert (Z.log2 (10 ^ (- e')) < 1601); [|lia]. apply Z.log2_lt_pow2; [done|].
      apply Z.le_lt_trans with (16 ^ (- e')); [apply Z.pow_le_mono_l; lia|]. change 16 with (2 ^ 4). rewrite <- Z.pow_mul_r by lia.
      apply Z.pow_lt_mono_r; lia.
Qed.

(** A canonical number, its ratio and its decimal digits. *)
Lemma canonical_ratio m e :
  canonical m e → let '(num, den) := if 0 <=? e then (m * 2 ^ e, 1) else (m, 2 ^ (- e)) in
  ratio num den (m * P e) ∧ -1080 <= Z.log2 num - Z.log2 den < 1030.
Proof.
  intros (He & Hm & _). unfold emin, emax in He.
  assert (Hlog : 0 <= Z.log2 m < 53) by (split; [apply Z.log2_nonneg|apply Z.log2_lt_pow2; lia]).
  destruct (Z.leb_spec 0 e) as [H0|H0].
  - pose proof (Z.pow_pos_nonneg 2 e ltac:(lia) H0). split.
    + assert (HP : P e = U * 2 ^ e) by (rewrite <- P_0, <- P_add by lia; f_equal; lia). split; [nia|]. split; [lia|]. rewrite HP. ring.
    + rewrite Z.log2_mul_pow2 by lia. rewrite Z.log2_1. lia.
  - split.
    + assert (HP : U = P e * 2 ^ (- e)) by (rewrite <- P_0, <- P_add by lia; f_equal; lia). split; [lia|].
      split; [apply Z.pow_pos_nonneg; lia|]. rewrite HP. ring.
    + rewrite Z.log2_pow2 by lia. lia.
Qed.

(** The smallest number is above [10^-324]. *)
Lemma tiny_bound : T (-324) <= P emin.
Proof. apply dec_le_bin_ok; [done|done|]. vm_compute. reflexivity. Qed.

End CFloatExact.
