(* ===== verification/CFloatText.v ===== *)
(** * A printed score is read back

    The text side of [CFloatExact]: what [strtod] makes of the three layouts of
    ["%.17g"].  Together: for every binary64 number that is not a NaN, [strtod] of
    the text that ["%.17g"] gives is that number again, and the text fits the
    program's 64-byte buffers. *)
From Stdlib Require Import Ascii String ZArith Lia ZifyNat ZifyBool SpecFloat.
From stdpp Require Import base option list strings numbers.
From S2P Require Import Prelude CStdlib CDouble CFloat CFloatExact.
Import CFloat CFloatExact.

Local Open Scope Z_scope.

Module CFloatText.

(** ** Values of digit strings *)

Definition zeros (k : nat) : bytes := replicate k "0"%char.

Definition digits_from (acc : Z) (s : bytes) : Z := foldl (λ acc c, 10 * acc + default 0 (digit_val c)) acc s.
Definition value (s : bytes) : Z := digits_from 0 s.

Lemma digits_from_app acc s t : digits_from acc (s ++ t) = digits_from (digits_from acc s) t.
Proof. apply foldl_app. Qed.

Lemma digits_from_value acc s : digits_from acc s = acc * 10 ^ Z.of_nat (length s) + value s.
Proof.
  unfold value. revert acc. induction s as [|c s IH]; intros acc.
  - cbn. lia.
  - change (digits_from acc (c :: s)) with (digits_from (10 * acc + default 0 (digit_val c)) s).
    change (digits_from 0 (c :: s)) with (digits_from (10 * 0 + default 0 (digit_val c)) s).
    rewrite IH, (IH (10 * 0 + _)). cbn [length]. rewrite Nat2Z.inj_succ, Z.pow_succ_r by lia. ring.
Qed.

Lemma value_app s t : value (s ++ t) = value s * 10 ^ Z.of_nat (length t) + value t.
Proof. unfold value at 1. rewrite digits_from_app. apply digits_from_value. Qed.

Lemma value_zeros k : value (zeros k) = 0.
Proof.
  induction k as [|k IH]; [done|]. change (zeros (S k)) with ("0"%char :: zeros k). exact IH.
Qed.

Lemma value_bound s : Forall is_digit s → 0 <= value s < 10 ^ Z.of_nat (length s).
Proof.
  induction s as [|c s IH] using rev_ind; [done|]. intros [Hs Hlast]%Forall_app. apply Forall_inv in Hlast as [d Hc].
  specialize (IH Hs). rewrite value_app, length_app, Nat2Z.inj_add, Z.pow_add_r by lia. cbn [length].
  assert (Hd : 0 <= d < 10).
  { unfold digit_val in Hc. cbv zeta in Hc. destruct (_ && _) eqn:E; [|done]. injection Hc as <-. lia. }
  assert (Hv : value [c] = d) by (unfold value, digits_from; cbn [foldl]; rewrite Hc; cbn; lia).
  rewrite Hv. change (10 ^ Z.of_nat 1) with 10. lia.
Qed.

Lemma zeros_digits k : Forall is_digit (zeros k).
Proof. apply Forall_replicate. by exists 0. Qed.

Lemma scan_digits_value s t acc n :
  Forall is_digit s → no_digit_head t → scan_digits (s ++ t) acc n = (digits_from acc s, (n + length s)%nat).
Proof.
  intros Hs Ht. revert acc n. induction Hs as [|c s [d Hd] _ IH]; intros acc n.
  - rewrite app_nil_l, scan_no_digit by done. cbn. f_equal. lia.
  - cbn [app scan_digits]. rewrite Hd, IH. cbn [length]. unfold digits_from at 2. cbn [foldl]. rewrite Hd. cbn [default].
    f_equal. lia.
Qed.

Lemma scan_value s t acc n :
  Forall is_digit s → no_digit_head t → scan digit_val 10 (s ++ t) acc n = (digits_from acc s, (n + length s)%nat, t).
Proof.
  intros Hs Ht. revert acc n. induction Hs as [|c s [d Hd] _ IH]; intros acc n.
  - rewrite app_nil_l. cbn [length]. rewrite Nat.add_0_r. destruct t as [|c t]; cbn; [done|]. cbn in Ht. by rewrite Ht.
  - cbn [app scan]. rewrite Hd, IH. cbn [length]. unfold digits_from at 2. cbn [foldl]. rewrite Hd. cbn [default].
    do 2 f_equal. lia.
Qed.

(** ** The digits of a number *)

Lemma to_string_value z : 0 <= z → Forall is_digit (to_string z) ∧ value (to_string z) = z.
Proof.
  intros Hz. unfold to_string. replace (z <? 0) with false by lia. split; [by apply to_string_nat_digits|].
  destruct (to_string_nat_scan z [] 0 Hz) as (k & _ & _ & Hs). rewrite scan_digits_value in Hs; [|by apply to_string_nat_digits|done].
  cbn in Hs. by injection Hs.
Qed.

Lemma value_digit d : 0 <= d < 10 → value [digit_char d] = d.
Proof. intros Hd. unfold value, digits_from. cbn [foldl]. rewrite digit_val_char by done. cbn. lia. Qed.

Lemma print_digits_head fuel n acc :
  0 < n < 2 ^ Z.of_nat (S fuel) → ∃ d s, print_digits (S fuel) n acc = digit_char d :: s ∧ 0 < d < 10.
Proof.
  revert n acc. induction fuel as [|fuel IH]; intros n acc Hn; cbn [print_digits]; destruct (Z.ltb_spec n 10).
  - rewrite Z.mod_small by lia. eexists _, _. split; [done|lia].
  - change (2 ^ Z.of_nat 1) with 2 in Hn. lia.
  - rewrite Z.mod_small by lia. eexists _, _. split; [done|lia].
  - apply IH. split; [apply Z.div_str_pos; lia|]. apply Z.div_lt_upper_bound; [lia|].
    rewrite !Nat2Z.inj_succ, Z.pow_succ_r in Hn by lia. rewrite !Nat2Z.inj_succ. lia.
Qed.

(** The text of a positive number starts with a digit that is not zero. *)
Lemma to_string_head z : 0 < z → ∃ d s, to_string z = digit_char d :: s ∧ 0 < d < 10.
Proof.
  intros Hz. unfold to_string. replace (z <? 0) with false by lia. apply print_digits_head. split; [done|].
  rewrite Nat2Z.inj_succ, Z2Nat.id by apply Z.log2_nonneg. by apply Z.log2_spec.
Qed.

(** ... so its length is known. *)
Lemma to_string_length z n : 10 ^ Z.of_nat n <= z < 10 ^ Z.of_nat (S n) → length (to_string z) = S n.
Proof.
  intros Hz. pose proof (Z.pow_pos_nonneg 10 (Z.of_nat n) ltac:(lia) ltac:(lia)).
  destruct (to_string_value z ltac:(lia)) as [Hd Hv]. pose proof (value_bound _ Hd) as Hb. rewrite Hv in Hb.
  destruct (to_string_head z ltac:(lia)) as (d & s & Heq & Hdig). rewrite Heq in *. cbn [length] in *.
  pose proof (Forall_inv_tail Hd) as Hs. pose proof (value_bound _ Hs) as Hbs.
  change (digit_char d :: s) with ([digit_char d] ++ s) in Hv. rewrite value_app in Hv.
  rewrite value_digit in Hv by lia. assert (H1 : 10 ^ Z.of_nat (length s) <= z) by nia.
  assert (Z.of_nat (length s) < Z.of_nat (S n)) by (apply (Z.pow_lt_mono_r_iff 10); lia).
  assert (Z.of_nat n < Z.of_nat (S (length s))) by (apply (Z.pow_lt_mono_r_iff 10); lia). lia.
Qed.

(** ** Trailing zeros *)

Lemma strip_zeros_app s : ∃ k, s = strip_zeros s ++ zeros k.
Proof.
  induction s as [|c s [k IH]]; [by exists 0%nat|]. cbn [strip_zeros]. destruct (strip_zeros s) as [|c2 s2].
  - case_bool_decide as Hc; [exists (S k); subst c; cbn; by f_equal|exists k; cbn; by f_equal].
  - exists k. cbn. by f_equal.
Qed.

Lemma strip_zeros_head c s : c ≠ "0"%char → ∃ s', strip_zeros (c :: s) = c :: s'.
Proof.
  intros Hc. cbn [strip_zeros]. destruct (strip_zeros s) as [|c2 s2]; [|eauto]. rewrite bool_decide_false by done. eauto.
Qed.

Lemma digit_char_nonzero d : 0 < d < 10 → digit_char d ≠ "0"%char.
Proof. intros Hd Heq. apply (f_equal byte_val) in Heq. rewrite byte_val_digit in Heq by lia. change (byte_val "0") with 48 in Heq. lia. Qed.

(** ** What [strtod] reads *)

Lemma byte_val_dot : byte_val "." = 46.
Proof. done. Qed.

Lemma dot_no_digit t : no_digit_head (lit "." ++ t).
Proof. done. Qed.

(** Digits, with or without a fraction. *)
Lemma mantissa_integer s t :
  Forall is_digit s → no_digit_head t → (∀ t', t ≠ "."%char :: t') →
  mantissa digit_val 10 (s ++ t) = (value s, length s, 0%nat, t).
Proof.
  intros Hs Ht Hdot. unfold mantissa. rewrite scan_value by done. cbn [Nat.add]. destruct t as [|c t]; [done|].
  rewrite bool_decide_false; [done|]. intros ->. by destruct (Hdot t).
Qed.

Lemma mantissa_fraction s f t :
  Forall is_digit s → Forall is_digit f → no_digit_head t →
  mantissa digit_val 10 (s ++ lit "." ++ f ++ t) = (value (s ++ f), (length s + length f)%nat, length f, t).
Proof.
  intros Hs Hf Ht. unfold mantissa. rewrite scan_value by done. cbn [Nat.add app lit String.list_ascii_of_string].
  rewrite bool_decide_true by done. rewrite scan_value by done. by rewrite <- digits_from_app.
Qed.

Lemma print_exponent_head x : ∃ t, print_exponent x = "e"%char :: t.
Proof. unfold print_exponent. cbn [app lit String.list_ascii_of_string]. eauto. Qed.

Lemma exponent_part_print x : exponent_part "e" (print_exponent x) = x.
Proof.
  unfold print_exponent, exponent_part. cbn [app lit String.list_ascii_of_string]. change (tolower "e") with "e"%char.
  rewrite bool_decide_true by done.
  set (pad := if Z.abs x <? 10 then _ else _). assert (Hpad : Forall is_digit pad ∧ value pad = 0).
  { unfold pad. destruct (_ <? _); [|done]. split; [|done]. constructor; [by exists 0|constructor]. }
  destruct (to_string_value (Z.abs x) ltac:(lia)) as [Hd Hv].
  assert (Hscan : scan_digits (pad ++ to_string (Z.abs x)) 0 0 = (Z.abs x, length (pad ++ to_string (Z.abs x)))).
  { rewrite <- (app_nil_r (pad ++ to_string _)) at 1. rewrite scan_digits_value; [|apply Forall_app; split; [apply Hpad|done]|done].
    change (digits_from 0) with value. rewrite value_app. destruct Hpad as [_ ->]. f_equal. lia. }
  assert (Hne : length (pad ++ to_string (Z.abs x)) ≠ 0%nat).
  { rewrite length_app. destruct (to_string_nat_cons (Z.abs x) ltac:(lia)) as (c & t & Hc & _). unfold to_string.
    replace (Z.abs x <? 0) with false by lia. rewrite Hc. cbn [length]. lia. }
  destruct (Z.ltb_spec x 0); cbn [app read_sign].
  - rewrite decide_True by done. rewrite Hscan. replace (_ =? 0)%nat with false by lia. lia.
  - rewrite decide_False by done. rewrite decide_True by done. rewrite Hscan. replace (_ =? 0)%nat with false by lia. lia.
Qed.

(** [strtod_decimal] of a mantissa and what follows it. *)
Lemma strtod_decimal_of neg s m n f r e' :
  mantissa digit_val 10 s = (m, n, f, r) → n ≠ 0%nat → e' = exponent_part "e" r - Z.of_nat f →
  strtod_decimal neg s = of_decimal neg m e'.
Proof. intros Hm Hn ->. unfold strtod_decimal. rewrite Hm. by replace (n =? 0)%nat with false by lia. Qed.

(** ** The layouts *)

(** Seventeen digits without their trailing zeros [ds], at the decimal exponent [x]. *)
Section layouts.
Context (ds : bytes) (x : Z) (neg : bool).
Context (Hds : Forall is_digit ds) (Hlen : (0 < length ds <= 17)%nat) (Hpos : 0 < value ds) (Hx : -324 <= x <= 313).

(** The decimal [ds] with the point after its first digit, times [10^x]. *)
Definition reads_as (s : bytes) : Prop :=
  ∃ m' e', strtod_decimal neg s = of_decimal neg m' e' ∧ 0 < m' ∧ -400 <= e' <= 400 ∧
    m' * T e' = value ds * T (x + 1 - Z.of_nat (length ds)).

Lemma scientific_reads : reads_as (with_point (take 1 ds) (drop 1 ds) ++ print_exponent x).
Proof using Hds Hlen Hpos Hx.
  exists (value ds), (x + 1 - Z.of_nat (length ds)). split; [|split; [done|split; [lia|done]]].
  destruct (print_exponent_head x) as [t Ht].
  assert (Hne : no_digit_head (print_exponent x)) by (rewrite Ht; done).
  assert (H1 : length (take 1 ds) = 1%nat) by (rewrite length_take; lia).
  pose proof (length_drop ds 1) as Hd. destruct (drop 1 ds) as [|c f] eqn:Hf; cbn [with_point].
  - cbn [length] in Hd. rewrite take_ge by lia.
    eapply strtod_decimal_of; [apply mantissa_integer; [done|done|by rewrite Ht]|lia|]. rewrite exponent_part_print. lia.
  - rewrite <- Hf, <- !app_assoc in *. rewrite <- (take_drop 1 ds) at 3.
    eapply strtod_decimal_of; [apply mantissa_fraction; [by apply Forall_take|by apply Forall_drop|done]|lia|].
    rewrite exponent_part_print. rewrite length_drop. lia.
Qed.

Lemma small_reads : x < 0 → reads_as (lit "0." ++ zeros (Z.to_nat (- x - 1)) ++ ds).
Proof using Hds Hlen Hpos Hx.
  intros Hneg. exists (value ds), (x + 1 - Z.of_nat (length ds)). split; [|split; [done|split; [lia|done]]].
  set (k := Z.to_nat (- x - 1)). change (lit "0." ++ zeros k ++ ds) with (zeros 1 ++ lit "." ++ (zeros k ++ ds)).
  rewrite <- (app_nil_r (zeros k ++ ds)).
  assert (Hv : value (zeros 1 ++ zeros k ++ ds) = value ds) by (rewrite !value_app, !value_zeros; lia).
  rewrite <- Hv. eapply strtod_decimal_of; [apply mantissa_fraction; [apply zeros_digits| |done]|change (length (zeros 1)) with 1%nat; lia|].
  - apply Forall_app. split; [apply zeros_digits|done].
  - rewrite length_app. unfold zeros. rewrite length_replicate. cbn. lia.
Qed.

Lemma plain_reads (n : nat) :
  Z.of_nat n = x + 1 → 0 <= x < 17 → reads_as (with_point (take n ds ++ zeros (n - length ds)) (drop n ds)).
Proof using Hds Hlen Hpos Hx.
  intros Hn Hx2. destruct (drop n ds) as [|c f] eqn:Hf; cbn [with_point].
  - assert (Hle : (length ds <= n)%nat) by (pose proof (length_drop ds n) as Hd; rewrite Hf in Hd; cbn in Hd; lia).
    rewrite take_ge by lia. exists (value (ds ++ zeros (n - length ds))), 0.
    assert (Hv : value (ds ++ zeros (n - length ds)) = value ds * 10 ^ Z.of_nat (n - length ds)).
    { rewrite value_app, value_zeros. unfold zeros. rewrite length_replicate. lia. }
    pose proof (Z.pow_pos_nonneg 10 (Z.of_nat (n - length ds)) ltac:(lia) ltac:(lia)).
    split; [|split; [nia|split; [lia|]]].
    + rewrite <- (app_nil_r (ds ++ _)) at 1. eapply strtod_decimal_of; [apply mantissa_integer; [|done|done]| |done].
      * apply Forall_app. split; [done|apply zeros_digits].
      * rewrite length_app. lia.
    + replace (x + 1 - Z.of_nat (length ds)) with (0 + Z.of_nat (n - length ds)) by lia. rewrite T_add by lia. rewrite Hv. ring.
  - assert (Hgt : (n < length ds)%nat) by (pose proof (length_drop ds n) as Hd; rewrite Hf in Hd; cbn in Hd; lia).
    replace (n - length ds)%nat with 0%nat by lia. cbn [zeros replicate]. rewrite app_nil_r. rewrite <- Hf.
    exists (value ds), (x + 1 - Z.of_nat (length ds)). split; [|split; [done|split; [lia|done]]].
    rewrite <- (take_drop n ds) at 3. rewrite <- (app_nil_r (drop n ds)) at 1.
    eapply strtod_decimal_of; [apply mantissa_fraction; [by apply Forall_take|by apply Forall_drop|done]| |].
    + rewrite length_take. lia.
    + rewrite length_drop. cbn. lia.
Qed.
End layouts.

(** A text that starts like a decimal number. *)
Definition number_head (s : bytes) : Prop :=
  ∃ c r, s = c :: r ∧ is_digit c ∧ (c ≠ "0"%char ∨ ∃ r', r = "."%char :: r').

Lemma tolower_digit c : is_digit c → tolower c = c.
Proof. rewrite is_digit_range. intros Hc. unfold tolower. cbv zeta. by replace ((65 <=? byte_val c) && (byte_val c <=? 90)) with false by lia. Qed.

Lemma digit_not c d : is_digit c → (byte_val d < 48 ∨ 57 < byte_val d) → c ≠ d.
Proof. rewrite is_digit_range. intros Hc Hd ->. lia. Qed.

Lemma strtod_text (neg : bool) s :
  number_head s → strtod ((if neg then lit "-" else []) ++ s) = strtod_decimal neg s.
Proof.
  intros (c & r & -> & Hc & Hhead). unfold strtod.
  assert (Hsplit : ∃ n, (let '(_, s1) := skip_spaces ((if neg then lit "-" else []) ++ c :: r) in read_sign s1) = (neg, n, c :: r)).
  { destruct neg; cbn [app lit String.list_ascii_of_string skip_spaces].
    - change (isspace "-") with false. cbn [read_sign]. exists 1%nat. by rewrite decide_True.
    - rewrite is_digit_not_space by done. rewrite is_digit_no_sign by done. by exists 0%nat. }
  destruct (skip_spaces _) as [k s1]. destruct Hsplit as [n ->].
  unfold to_lower. cbn [map firstn]. rewrite (tolower_digit c Hc).
  rewrite bool_decide_false by (intros [= Heq _]; revert Heq; apply digit_not; [done|right; done]).
  rewrite bool_decide_false by (intros [= Heq _]; revert Heq; apply digit_not; [done|right; done]).
  rewrite bool_decide_false; [done|]. intros [= Heq Hx]. destruct Hhead as [?|[r' ->]]; [done|]. cbn in Hx. discriminate Hx.
Qed.

Lemma head_app c (s t : bytes) : is_digit c → c ≠ "0"%char → number_head ((c :: s) ++ t).
Proof. intros Hc Hz. exists c, (s ++ t). auto. Qed.

(** ** Seventeen digits at a decimal exponent *)

Lemma layout_reads neg d s x :
  0 < d < 10 → Forall is_digit s → length s = 16%nat → -324 <= x <= 313 →
  number_head (layout (digit_char d :: s) x) ∧
  ∃ m' e', strtod_decimal neg (layout (digit_char d :: s) x) = of_decimal neg m' e' ∧ 0 < m' ∧ -400 <= e' <= 400 ∧
    m' * T e' = value (digit_char d :: s) * T (x - 16).
Proof.
  intros Hd Hs Hlen Hx. assert (Hc : is_digit (digit_char d)) by (exists d; apply digit_val_char; lia).
  pose proof (digit_char_nonzero d Hd) as Hz. destruct (strip_zeros_app (digit_char d :: s)) as [k Hk].
  destruct (strip_zeros_head (digit_char d) s Hz) as [s' Hs']. unfold layout. cbv zeta. rewrite Hs' in *.
  assert (Hall : Forall is_digit (digit_char d :: s')).
  { assert (Hd0 : Forall is_digit (digit_char d :: s)) by by constructor. rewrite Hk in Hd0. by apply Forall_app in Hd0 as [? _]. }
  assert (Hl : (length (digit_char d :: s') + k = 17)%nat).
  { apply (f_equal length) in Hk. rewrite length_app in Hk. unfold zeros in Hk. rewrite length_replicate in Hk. cbn [length] in *. lia. }
  assert (Hpos : 0 < value (digit_char d :: s')).
  { change (digit_char d :: s') with ([digit_char d] ++ s'). rewrite value_app. pose proof (value_bound s' (Forall_inv_tail Hall)).
    rewrite value_digit by lia. pose proof (Z.pow_pos_nonneg 10 (Z.of_nat (length s')) ltac:(lia) ltac:(lia)). nia. }
  assert (Hsame : value (digit_char d :: s') * T (x + 1 - Z.of_nat (length (digit_char d :: s'))) =
    value (digit_char d :: s) * T (x - 16)).
  { rewrite Hk, value_app, value_zeros. unfold zeros. rewrite length_replicate.
    replace (x + 1 - Z.of_nat (length (digit_char d :: s'))) with (x - 16 + Z.of_nat k) by lia. rewrite T_add by lia. ring. }
  rewrite <- Hsame. change replicate with (@replicate ascii). set (ds := digit_char d :: s') in *.
  assert (Hl2 : (0 < length ds <= 17)%nat) by (unfold ds in *; cbn [length] in *; lia).
  destruct ((x <? -4) || (17 <=? x)) eqn:H1; [|destruct (Z.ltb_spec x 0) as [H2|H2]].
  - split; [|by apply scientific_reads]. unfold ds. cbn [take drop firstn skipn].
    destruct s' as [|c2 s2]; cbn [with_point app]; [by apply (head_app _ [] (print_exponent x))|].
    eexists _, _. split; [done|]. auto.
  - split; [|by apply small_reads]. exists "0"%char. eexists. split; [done|]. split; [by exists 0|]. right. eexists. done.
  - split; [|apply plain_reads; lia || done].
    destruct (Z.to_nat (x + 1)) as [|n] eqn:Hn; [lia|]. unfold ds. cbn [take drop firstn skipn].
    destruct (skipn n s'); cbn [with_point app]; eexists _, _; (split; [done|]; auto).
Qed.

(** The binary64 numbers: zeros, infinities, and canonical significands. *)
Definition binary64 (f : double) : Prop :=
  match f with
  | S754_nan => False
  | S754_finite _ m e => canonical (Z.pos m) e
  | _ => True
  end.

(** The seventeen digits and the exponent that are printed. *)
Lemma print_finite_digits m e :
  canonical (Z.pos m) e → ∃ d s x,
    print_finite m e = layout (digit_char d :: s) x ∧ 0 < d < 10 ∧ Forall is_digit s ∧ length s = 16%nat ∧
    -324 <= x <= 313 ∧ T (-350) <= value (digit_char d :: s) * T (x - 16) ∧
    2 * 10 ^ 16 * Z.abs (value (digit_char d :: s) * T (x - 16) - Z.pos m * P e) <= Z.pos m * P e.
Proof.
  intros Hc. pose proof (canonical_ratio _ _ Hc) as Hr. unfold print_finite.
  destruct (if 0 <=? e then _ else _) as [num den]. destruct Hr as [Hr Hl].
  destruct (significant num den) as [q x] eqn:Hsig.
  destruct (significant_ok num den _ q x Hr Hl Hsig) as (Hq & Hx & Hup & Hnear).
  assert (Hlen : length (to_string q) = 17%nat) by (apply (to_string_length q 16); lia).
  destruct (to_string_value q ltac:(lia)) as [Hd Hv]. destruct (to_string_head q ltac:(lia)) as (d & s & Heq & Hdig).
  rewrite Heq in *. exists d, s, x. rewrite Hv. split; [done|]. split; [done|]. split; [by apply Forall_inv_tail in Hd|].
  split; [cbn [length] in Hlen; lia|]. destruct Hc as (He & _ & _).
  assert (Hx' : -324 <= x).
  { destruct (Z.lt_ge_cases x (-324)) as [Hlt|]; [|done]. exfalso. pose proof tiny_bound as Htiny.
    assert (P emin <= P e) by (destruct (decide (e = emin)) as [->|]; [lia|]; apply Z.lt_le_incl, P_lt; unfold emin in *; lia).
    assert (T (x + 1) <= T (-324)) by (destruct (decide (x + 1 = -324)) as [->|]; [lia|]; apply Z.lt_le_incl, T_lt; lia).
    pose proof (P_pos e ltac:(unfold emin in *; lia)). nia. }
  split; [lia|]. split; [|done].
  pose proof (T_lt (-350) x ltac:(lia) ltac:(lia)) as Hbig. pose proof (T_pos (x - 16) ltac:(lia)).
  assert (HT : T x = T (x - 16) * 10 ^ 16) by (rewrite <- T_add by lia; f_equal; lia). nia.
Qed.

Lemma print_finite_reads neg m e :
  canonical (Z.pos m) e →
  strtod ((if neg : bool then lit "-" else []) ++ print_finite m e) = S754_finite neg m e.
Proof.
  intros Hc. destruct (print_finite_digits m e Hc) as (d & s & x & -> & Hd & Hs & Hlen & Hx & Hbig & Hnear).
  destruct (layout_reads neg d s x Hd Hs Hlen Hx) as (Hhead & m' & e' & Hread & Hm & He & Heq).
  rewrite strtod_text by done. rewrite Hread, <- Heq in *. by rewrite (of_decimal_near neg m' e' (Z.pos m) e).
Qed.

(** *** Lengths *)

Lemma print_exponent_length x : -324 <= x <= 313 → (length (print_exponent x) <= 5)%nat.
Proof.
  intros Hx. unfold print_exponent. rewrite !length_app. assert (Hsign : length (if x <? 0 then lit "-" else lit "+") = 1%nat) by by destruct (x <? 0).
  rewrite Hsign. change (length (lit "e")) with 1%nat.
  destruct (Z.ltb_spec (Z.abs x) 10); cbn [length lit String.list_ascii_of_string].
  - destruct (decide (Z.abs x = 0)) as [->|]; [cbn; lia|]. rewrite (to_string_length (Z.abs x) 0); lia.
  - destruct (Z.lt_ge_cases (Z.abs x) 100); [rewrite (to_string_length (Z.abs x) 1); lia|rewrite (to_string_length (Z.abs x) 2); lia].
Qed.

Lemma with_point_length a b : (length (with_point a b) <= length a + length b + 1)%nat.
Proof. unfold with_point. destruct b; [cbn; lia|]. rewrite !length_app. cbn. lia. Qed.

Lemma layout_length s x : length s = 17%nat → -324 <= x <= 313 → (length (layout s x) <= 23)%nat.
Proof.
  intros Hs Hx. unfold layout. cbv zeta. destruct (strip_zeros_app s) as [k Hk]. apply (f_equal length) in Hk. rewrite length_app in Hk.
  set (ds := strip_zeros s) in *. destruct ((x <? -4) || (17 <=? x)) eqn:H1; [|destruct (Z.ltb_spec x 0)].
  - rewrite length_app. pose proof (with_point_length (take 1 ds) (drop 1 ds)). pose proof (print_exponent_length x Hx).
    rewrite length_take, length_drop in *. lia.
  - rewrite !length_app, length_replicate. cbn [length lit String.list_ascii_of_string]. lia.
  - pose proof (with_point_length (take (Z.to_nat (x + 1)) ds ++ replicate (Z.to_nat (x + 1) - length ds) "0"%char)
      (drop (Z.to_nat (x + 1)) ds)) as Hw. rewrite length_app, length_replicate, length_take, length_drop in Hw. lia.
Qed.

(** ** Round trip *)

Lemma print17g_length f : binary64 f → (length (print17g f) <= 24)%nat.
Proof.
  destruct f as [[]|[]| |neg m e]; cbn [binary64 print17g]; try (intros; cbn; lia). intros Hc.
  destruct (print_finite_digits m e Hc) as (d & s & x & -> & _ & _ & Hlen & Hx & _). rewrite length_app.
  pose proof (layout_length (digit_char d :: s) x ltac:(cbn [length]; lia) Hx).
  assert (length (if neg then lit "-" else []) <= 1)%nat by (destruct neg; cbn; lia). lia.
Qed.

Lemma strtod_print17g f : binary64 f → strtod (print17g f) = f.
Proof. destruct f as [[]|[]| |neg m e]; try done. apply print_finite_reads. Qed.

(** ** What [strtod] returns is a binary64 number or a NaN *)

Section scaled.
Context (num den : Z) (Hnum : 0 < num) (Hden : 0 < den).

Lemma log2_num : 2 ^ Z.log2 num <= num < 2 ^ (Z.log2 num + 1).
Proof using Hnum. rewrite Z.add_1_r. by apply Z.log2_spec. Qed.
Lemma log2_den : 2 ^ Z.log2 den <= den < 2 ^ (Z.log2 den + 1).
Proof using Hden. rewrite Z.add_1_r. by apply Z.log2_spec. Qed.

Lemma scale_pos e a b : scale num den e = (a, b) → 0 < a ∧ 0 < b.
Proof using Hnum Hden.
  unfold scale. destruct (Z.leb_spec 0 e); intros [= <- <-]; (split; [|]); try done; apply Z.mul_pos_pos; try done;
    apply Z.pow_pos_nonneg; lia.
Qed.

Lemma scale_upper e a b k :
  scale num den e = (a, b) → 0 <= k → Z.log2 num - Z.log2 den + 1 <= e + k → a < b * 2 ^ k.
Proof using Hnum Hden.
  intros Hs Hk Hle. pose proof log2_num. pose proof log2_den. pose proof (Z.log2_nonneg num). pose proof (Z.log2_nonneg den).
  unfold scale in Hs. destruct (Z.leb_spec 0 e); injection Hs as <- <-.
  - rewrite <- Z.mul_assoc, <- Z.pow_add_r by lia. pose proof (Z.pow_pos_nonneg 2 (e + k) ltac:(lia) ltac:(lia)).
    pose proof (Z.pow_le_mono_r 2 (Z.log2 num + 1) (Z.log2 den + (e + k)) ltac:(lia) ltac:(lia)) as Hm.
    rewrite (Z.pow_add_r 2 (Z.log2 den)) in Hm by lia. nia.
  - pose proof (Z.pow_pos_nonneg 2 (- e) ltac:(lia) ltac:(lia)). pose proof (Z.pow_pos_nonneg 2 k ltac:(lia) ltac:(lia)).
    pose proof (Z.pow_le_mono_r 2 (Z.log2 num + 1 + - e) (Z.log2 den + k) ltac:(lia) ltac:(lia)) as Hm.
    rewrite !(Z.pow_add_r 2 _ k), (Z.pow_add_r 2 _ (- e)) in Hm by lia. nia.
Qed.

Lemma scale_lower e a b k :
  scale num den e = (a, b) → 0 <= k → e + k <= Z.log2 num - Z.log2 den - 1 → b * 2 ^ k <= a.
Proof using Hnum Hden.
  intros Hs Hk Hle. pose proof log2_num. pose proof log2_den. pose proof (Z.log2_nonneg num). pose proof (Z.log2_nonneg den).
  unfold scale in Hs. destruct (Z.leb_spec 0 e); injection Hs as <- <-.
  - rewrite <- Z.mul_assoc, <- Z.pow_add_r by lia. pose proof (Z.pow_pos_nonneg 2 (e + k) ltac:(lia) ltac:(lia)).
    pose proof (Z.pow_le_mono_r 2 (Z.log2 den + 1 + (e + k)) (Z.log2 num) ltac:(lia) ltac:(lia)) as Hm.
    rewrite (Z.pow_add_r 2 (Z.log2 den + 1)) in Hm by lia. nia.
  - pose proof (Z.pow_pos_nonneg 2 (- e) ltac:(lia) ltac:(lia)). pose proof (Z.pow_pos_nonneg 2 k ltac:(lia) ltac:(lia)).
    pose proof (Z.pow_le_mono_r 2 (Z.log2 den + 1 + k) (Z.log2 num + - e) ltac:(lia) ltac:(lia)) as Hm.
    rewrite (Z.pow_add_r 2 _ k), (Z.pow_add_r 2 _ (- e)) in Hm by lia. nia.
Qed.

Lemma scale_succ e a b a' b' :
  scale num den e = (a, b) → scale num den (e + 1) = (a', b') → a * b' = 2 * a' * b.
Proof using.
  unfold scale. destruct (Z.leb_spec 0 e), (Z.leb_spec 0 (e + 1)); intros [= <- <-] [= <- <-]; try lia.
  - rewrite Z.pow_add_r by lia. ring.
  - replace e with (-1) by lia. change (- -1) with 1. change (-1 + 1) with 0. rewrite Z.pow_1_r, Z.pow_0_r. ring.
  - replace (- e) with (- (e + 1) + 1) by lia. rewrite (Z.pow_add_r 2 _ 1) by lia. ring.
Qed.

(** The exponent leaves a quotient of 53 bits, or fewer for a subnormal number. *)
Lemma exponent_spec a b :
  scale num den (exponent num den) = (a, b) →
  emin <= exponent num den ∧ a < b * 2 ^ 53 ∧ (b * 2 ^ 52 <= a ∨ exponent num den = emin).
Proof using Hnum Hden.
  unfold exponent. cbv zeta. set (e := Z.max _ emin). destruct (scale num den e) as [a1 b1] eqn:Hs.
  destruct (scale_pos _ _ _ Hs) as [Ha1 Hb1]. pose proof (scale_upper e a1 b1 54 Hs ltac:(lia) ltac:(lia)) as Hup.
  change (2 ^ 54) with (2 * 2 ^ 53) in Hup. destruct (Z.leb_spec (2 ^ 53 * b1) a1) as [Hge|Hlt]; intros Hs2.
  - destruct (scale_pos _ _ _ Hs2) as [Ha Hb]. pose proof (scale_succ _ _ _ _ _ Hs Hs2) as Heq.
    change (2 ^ 53) with (2 * 2 ^ 52) in *. set (c := 2 ^ 52) in *. clearbody c. split; [lia|]. split; [|left]; nia.
  - rewrite Hs in Hs2. injection Hs2 as <- <-. split; [lia|]. split; [lia|].
    destruct (decide (e = emin)) as [|Hne]; [by right|left]. apply (scale_lower e a1 b1 52 Hs); lia.
Qed.
End scaled.

Lemma div_half_even_range a b :
  0 < a → 0 < b → a < b * 2 ^ 53 → 0 <= div_half_even a b <= 2 ^ 53 ∧ (b * 2 ^ 52 <= a → 2 ^ 52 <= div_half_even a b).
Proof.
  intros Ha Hb Hlt. pose proof (div_half_even_near a b Hb) as Hn. set (q := div_half_even a b) in *. clearbody q.
  set (c := 2 ^ 52) in *. change (2 ^ 53) with (2 * c) in *. clearbody c. split; [|intros]; nia.
Qed.

Lemma round64_binary64 neg num den : 0 < num → 0 < den → binary64 (round64 neg num den).
Proof.
  intros Hn Hd. unfold round64. cbv zeta. destruct (scale num den _) as [a b] eqn:Hs.
  destruct (exponent_spec num den Hn Hd a b Hs) as (He & Hlt & Hor). destruct (scale_pos num den Hn Hd _ _ _ Hs) as [Ha Hb].
  destruct (div_half_even_range a b Ha Hb Hlt) as [[Hq1 Hq2] Hq3]. set (q := div_half_even a b) in *. clearbody q.
  set (e := exponent num den) in *. clearbody e. unfold pack.
  destruct (Z.eqb_spec q (2 ^ 53)) as [Hq|Hq]; cbv iota beta.
  - replace (2 ^ 52 =? 0) with false by lia. destruct (Z.ltb_spec emax (e + 1)); [done|].
    cbn [binary64]. rewrite Z2Pos.id by lia. split; [unfold emin, emax in *; lia|]. split; [lia|]. left. lia.
  - destruct (Z.eqb_spec q 0); [done|]. destruct (Z.ltb_spec emax e); [done|]. cbn [binary64]. rewrite Z2Pos.id by lia.
    split; [lia|]. split; [lia|]. destruct Hor as [Hge|Heq]; [left; by apply Hq3|by right].
Qed.

Lemma scan_nonneg val base s acc n :
  0 <= base → (∀ c d, val c = Some d → 0 <= d) → 0 <= acc → 0 <= (scan val base s acc n).1.1.
Proof.
  intros Hb Hv. revert acc n. induction s as [|c s IH]; intros acc n Hacc; [done|]. cbn [scan].
  destruct (val c) as [d|] eqn:Hd; [|done]. apply IH. pose proof (Hv c d Hd). nia.
Qed.

Lemma mantissa_nonneg val base s : 0 <= base → (∀ c d, val c = Some d → 0 <= d) → 0 <= (mantissa val base s).1.1.1.
Proof.
  intros Hb Hv. unfold mantissa. pose proof (scan_nonneg val base s 0 0 Hb Hv ltac:(lia)) as H1.
  destruct (scan val base s 0 0) as [[v n] r]. cbn in H1. destruct r as [|c r]; [done|]. case_bool_decide; [|done].
  pose proof (scan_nonneg val base r v 0 Hb Hv H1) as H2. by destruct (scan val base r v 0) as [[w f] r2].
Qed.

Lemma of_decimal_binary64 neg m e : 0 <= m → binary64 (of_decimal neg m e).
Proof.
  intros Hm. unfold of_decimal. destruct (Z.eqb_spec m 0); [done|]. destruct (_ <? _); [done|]. destruct (_ <? _); [done|].
  destruct (Z.leb_spec 0 e); apply round64_binary64; lia.
Qed.

Lemma of_hex_binary64 neg m e : 0 <= m → binary64 (of_hex neg m e).
Proof.
  intros Hm. unfold of_hex. destruct (Z.eqb_spec m 0); [done|]. destruct (_ <? _); [done|]. destruct (_ <? _); [done|].
  destruct (Z.leb_spec 0 e); apply round64_binary64; lia.
Qed.

Lemma strtod_binary64 s : strtod s = S754_nan ∨ binary64 (strtod s).
Proof.
  unfold strtod. destruct (skip_spaces s) as [k s1]. destruct (read_sign s1) as [[neg n] s2]. cbv zeta.
  case_bool_decide; [by right|]. case_bool_decide; [by left|]. right. case_bool_decide.
  - pose proof (mantissa_nonneg hex_val 16 (drop 2 s2) ltac:(lia)) as Hm.
    destruct (mantissa hex_val 16 _) as [[[m d] f] r]. destruct (_ =? _)%nat; [done|]. apply of_hex_binary64, Hm.
    intros c d'. unfold hex_val. cbv zeta. repeat case_match; intros [= <-]; lia.
  - unfold strtod_decimal. pose proof (mantissa_nonneg digit_val 10 s2 ltac:(lia)) as Hm.
    destruct (mantissa digit_val 10 _) as [[[m d] f] r]. destruct (_ =? _)%nat; [done|]. apply of_decimal_binary64, Hm.
    intros c d'. unfold digit_val. cbv zeta. case_match; intros [= <-]; lia.
Qed.

End CFloatText.
