(* ===== verification/NetBuffer.v ===== *)
(** * [net/Buffer]: the two-cursor byte buffer

    State and operations of class [Buffer] (src/net/Buffer.h, Buffer.cpp): a
    vector of bytes with a read and a write cursor, compacted or grown when
    more room is needed.  Cursors and sizes are [nat]: they are bounded by the
    size of the vector, which the invariant [wf] states and every operation
    preserves.  The abstract contents of a buffer are its unread bytes,
    [readable]; the theorems describe every operation on those contents. *)
From Stdlib Require Import Ascii String ZArith Lia ZifyNat ZifyBool.
From stdpp Require Import base option list strings gmap.
From S2P Require Import Prelude.

Module Buffer.

Record Buffer := mkBuffer {
  data_ : list ascii;
  readPos_ : nat;
  writePos_ : nat
}.

Definition kInitialCapacity : nat := 4096.

(** The constructor: no storage until the first write. *)
Definition empty : Buffer := mkBuffer [] 0 0.

Definition writableBytes (b : Buffer) : nat := length (data_ b) - writePos_ b.
Definition readableBytes (b : Buffer) : nat := writePos_ b - readPos_ b.

Definition advanceWrite (b : Buffer) (n : nat) : result Buffer :=
  _ ← assert (bool_decide (writePos_ b + n ≤ length (data_ b)));
  mret (mkBuffer (data_ b) (readPos_ b) (writePos_ b + n)).

Definition consume (b : Buffer) (n : nat) : result Buffer :=
  _ ← assert (bool_decide (n ≤ readableBytes b));
  let r := readPos_ b + n in
  if bool_decide (r = writePos_ b)
  then mret (mkBuffer (data_ b) 0 0)
  else mret (mkBuffer (data_ b) r (writePos_ b)).

(** [std::memcpy(dst + pos, src, len)] inside the vector: outside it the write
    is out of bounds. *)
Definition memcpy (dst : list ascii) (pos : nat) (src : bytes) : result (list ascii) :=
  if bool_decide (pos + length src ≤ length dst)
  then Ok (take pos dst ++ src ++ drop (pos + length src) dst)
  else Fault OutOfBounds.

(** [std::memmove(data, data + from, n)], guarded by [if (readable > 0)]. *)
Definition memmove_front (d : list ascii) (from n : nat) : result (list ascii) :=
  if bool_decide (0 < n) then
    if bool_decide (from + n ≤ length d)
    then memcpy d 0 (slice from n d)
    else Fault OutOfBounds
  else Ok d.

(** [while (newCap < needed) newCap *= 2;] *)
Fixpoint grow (fuel newCap needed : nat) : result nat :=
  if bool_decide (newCap < needed) then
    match fuel with
    | O => Fault OutOfFuel
    | S fuel' => grow fuel' (newCap * 2) needed
    end
  else Ok newCap.

(** [std::vector<uint8_t>::resize]: new elements are zero. *)
Definition resize (d : list ascii) (n : nat) : list ascii :=
  if bool_decide (n ≤ length d) then take n d
  else d ++ replicate (n - length d) "000"%char.

Definition ensureWritableBytes (b : Buffer) (len : nat) : result Buffer :=
  if bool_decide (len ≤ writableBytes b) then mret b
  else
    let readable := readableBytes b in
    if bool_decide (readable + len ≤ length (data_ b)) then
      d ← memmove_front (data_ b) (readPos_ b) readable;
      mret (mkBuffer d 0 readable)
    else
      d ← memmove_front (data_ b) (readPos_ b) readable;
      let needed := readable + len in
      let newCap := if bool_decide (length d = 0) then kInitialCapacity else length d in
      cap ← grow needed newCap needed;
      mret (mkBuffer (resize d cap) 0 readable).

Definition append (b : Buffer) (s : bytes) : result Buffer :=
  b1 ← ensureWritableBytes b (length s);
  d ← memcpy (data_ b1) (writePos_ b1) s;
  advanceWrite (mkBuffer d (readPos_ b1) (writePos_ b1)) (length s).

(** Bytes the operating system stores at [writablePtr()] (a [read] of at most
    [writableBytes()] bytes), followed by [advanceWrite(n)]. *)
Definition fill (b : Buffer) (s : bytes) : result Buffer :=
  d ← memcpy (data_ b) (writePos_ b) s;
  advanceWrite (mkBuffer d (readPos_ b) (writePos_ b)) (length s).

(** ** Invariant and abstraction *)

(** INV-1 and INV-2 of the source. *)
Definition wf (b : Buffer) : Prop :=
  readPos_ b ≤ writePos_ b ≤ length (data_ b).

(** The unread bytes: [readableBytes()] bytes from [readablePtr()]. *)
Definition readable (b : Buffer) : bytes :=
  slice (readPos_ b) (readableBytes b) (data_ b).

(** [represents b s]: [b] is a well-formed buffer whose contents are [s]. *)
Definition represents (b : Buffer) (s : bytes) : Prop := wf b ∧ readable b = s.

Lemma length_readable b : wf b → length (readable b) = readableBytes b.
Proof. intros [??]. unfold readable, readableBytes. apply length_slice. lia. Qed.

Lemma empty_represents : represents empty [].
Proof. split; [red; simpl; lia | done]. Qed.

Lemma memcpy_ok d pos s :
  pos + length s ≤ length d →
  memcpy d pos s = Ok (take pos d ++ s ++ drop (pos + length s) d).
Proof. intros. unfold memcpy. by rewrite bool_decide_true. Qed.

Lemma memmove_front_ok d from n :
  from + n ≤ length d →
  memmove_front d from n ⇓ λ d', length d' = length d ∧ take n d' = slice from n d.
Proof.
  intros Hn. unfold memmove_front. case_bool_decide.
  - rewrite bool_decide_true by done. pose proof (length_slice from n d Hn) as Hl.
    rewrite memcpy_ok by (rewrite Hl; lia). apply returns_ok. cbn beta. rewrite take_0, Hl. cbn [app Nat.add]. split.
    + rewrite length_app, Hl, length_drop. lia.
    + rewrite take_app_le by lia. rewrite take_ge; [done|lia].
  - apply returns_ok. replace n with 0 by lia. done.
Qed.

Lemma grow_ok fuel cap needed :
  0 < cap → needed ≤ fuel + cap → grow fuel cap needed ⇓ λ c, needed ≤ c ∧ cap ≤ c.
Proof.
  revert cap. induction fuel as [|fuel IH]; intros cap Hcap Hf; simpl; case_bool_decide;
    try (simpl; lia).
  eapply returns_mono; [apply IH; lia|]. simpl. lia.
Qed.

Lemma resize_grow d n k :
  length d ≤ n → k ≤ length d → length (resize d n) = n ∧ take k (resize d n) = take k d.
Proof.
  intros. unfold resize. case_bool_decide.
  - assert (n = length d) as -> by lia. rewrite take_ge by done. auto.
  - rewrite length_app, length_replicate, take_app_le by lia. split; [lia|done].
Qed.

Lemma ensureWritableBytes_ok b s len :
  represents b s →
  ensureWritableBytes b len ⇓ λ b', represents b' s ∧ len ≤ writableBytes b'.
Proof.
  intros [Hwf Hs]. pose proof Hwf as [Hr Hw]. unfold ensureWritableBytes.
  case_bool_decide as H1; [by apply returns_ok|].
  assert (Hmm := memmove_front_ok (data_ b) (readPos_ b) (readableBytes b)).
  unfold readable in Hs. unfold writableBytes in H1.
  case_bool_decide as H2; (eapply returns_bind; [apply Hmm; unfold readableBytes; lia|]);
    intros d [Hd1 Hd2]; clear Hmm.
  - apply returns_ok. unfold represents, wf, readable, writableBytes, readableBytes, slice in *.
    simpl. rewrite drop_0, Nat.sub_0_r, Hd2, Hd1. repeat split; try done; lia.
  - eapply returns_bind.
    { apply grow_ok; [|lia]. case_bool_decide; unfold kInitialCapacity; lia. }
    intros cap [Hc1 Hc2]. apply returns_ok.
    assert (length d ≤ cap ∧ readableBytes b ≤ length d) as [Hc3 Hc4].
    { unfold readableBytes in *. case_bool_decide; unfold kInitialCapacity in *; lia. }
    destruct (resize_grow d cap (readableBytes b) Hc3 Hc4) as [Hl Ht].
    unfold represents, wf, readable, writableBytes, readableBytes, slice in *.
    simpl. rewrite drop_0, Nat.sub_0_r, Ht, Hd2, Hl. repeat split; try done; lia.
Qed.

Lemma fill_ok b s t :
  represents b s → length t ≤ writableBytes b →
  fill b t ⇓ λ b', represents b' (s ++ t).
Proof.
  intros [[Hr Hw] Hs] Hl. unfold fill, writableBytes in *.
  rewrite memcpy_ok by lia. rewrite bind_ok. unfold advanceWrite. cbn [writePos_ data_ readPos_].
  assert (Hlen : length (take (writePos_ b) (data_ b) ++ t ++
                   drop (writePos_ b + length t) (data_ b)) = length (data_ b)).
  { rewrite !length_app, length_take, length_drop. lia. }
  rewrite assert_decide by (rewrite Hlen; lia). rewrite bind_ok.
  apply returns_ok. split; [unfold wf; cbn [data_ readPos_ writePos_]; rewrite Hlen; lia|].
  unfold readable, readableBytes, slice in *. cbn [data_ readPos_ writePos_].
  rewrite drop_app_le by (rewrite length_take; lia).
  rewrite app_assoc, take_app_le.
  2:{ rewrite length_app, length_drop, length_take. lia. }
  rewrite take_ge.
  2:{ rewrite length_app, length_drop, length_take. lia. }
  f_equal. rewrite <- Hs, skipn_firstn_comm. done.
Qed.

Lemma append_ok b s t : represents b s → append b t ⇓ λ b', represents b' (s ++ t).
Proof.
  intros Hb. unfold append. run_with ensureWritableBytes_ok; [done|].
  intros b1 [Hb1 Hl]. by apply fill_ok.
Qed.

Lemma consume_ok b s n :
  represents b s → n ≤ length s → consume b n ⇓ λ b', represents b' (drop n s).
Proof.
  intros [Hwf Hs] Hn. pose proof Hwf as [Hr Hw]. rewrite <- Hs, length_readable in Hn by done.
  unfold consume. rewrite assert_decide by done. rewrite bind_ok. cbv zeta.
  unfold represents, wf, readable, readableBytes, slice in *. case_bool_decide; apply returns_ok; simpl.
  - split; [lia|]. rewrite <- Hs. rewrite take_0, drop_ge; [done|]. rewrite length_take, length_drop. lia.
  - split; [lia|]. rewrite <- Hs, skipn_firstn_comm, drop_drop. f_equal; lia.
Qed.

Lemma readableBytes_length b s : represents b s → readableBytes b = length s.
Proof. intros [Hwf <-]. by rewrite length_readable. Qed.

#[export] Hint Resolve empty_represents append_ok : redis.

(** ** Properties *)

(** The operations clients call, and what they do to a queue of bytes.  A
    [Consume] beyond the readable bytes is outside the contract (INV-1). *)
Inductive op :=
| Append (s : bytes)
| Consume (n : nat)
| EnsureWritable (n : nat)
| EnsureFill (n : nat) (s : bytes).

Definition run_op (b : Buffer) (o : op) : result Buffer :=
  match o with
  | Append s => append b s
  | Consume n => consume b n
  | EnsureWritable n => ensureWritableBytes b n
  | EnsureFill n s => b1 ← ensureWritableBytes b n; fill b1 s
  end.

Fixpoint run_ops (b : Buffer) (os : list op) : result Buffer :=
  match os with
  | [] => mret b
  | o :: os' => b' ← run_op b o; run_ops b' os'
  end.

Definition queue_op (s : bytes) (o : op) : option bytes :=
  match o with
  | Append t => Some (s ++ t)
  | Consume n => if bool_decide (n ≤ length s) then Some (drop n s) else None
  | EnsureWritable _ => Some s
  | EnsureFill n t => if bool_decide (length t ≤ n) then Some (s ++ t) else None
  end.

Fixpoint queue_ops (s : bytes) (os : list op) : option bytes :=
  match os with
  | [] => Some s
  | o :: os' => s' ← queue_op s o; queue_ops s' os'
  end.

Lemma run_op_ok b s o s' :
  represents b s → queue_op s o = Some s' → run_op b o ⇓ λ b', represents b' s'.
Proof.
  intros Hb Ho. destruct o as [t|n|n|n t]; simpl in *; simplify_option_eq.
  - by apply append_ok.
  - by apply consume_ok.
  - eapply returns_mono; [by apply ensureWritableBytes_ok|]. by intros ? [? _].
  - run_with ensureWritableBytes_ok; [done|]. intros b1 [Hb1 Hl]. apply fill_ok; [done|lia].
Qed.

(** C20: a buffer is a FIFO queue of bytes.  Every sequence of operations that
    never consumes more than is readable and never fills more than it reserved
    runs from the empty buffer without a failed assertion, an out-of-bounds
    copy or an unbounded growth loop, and the buffer then holds exactly the
    bytes the queue holds. *)
Theorem buffer_refines_queue (os : list op) (s : bytes) :
  queue_ops [] os = Some s →
  run_ops empty os ⇓ λ b, wf b ∧ readable b = s.
Proof.
  assert (Hgen : ∀ os b t, represents b t → queue_ops t os = Some s →
    run_ops b os ⇓ λ b', represents b' s).
  { clear os. induction os as [|o os IH]; intros b t Hb Hq; simpl in *.
    - injection Hq as ->. by apply returns_ok.
    - destruct (queue_op t o) as [t'|] eqn:Ho; [|discriminate]. simpl in Hq.
      run_with run_op_ok; [done..|]. intros b' Hb'. by eapply IH. }
  intros Hq. by eapply Hgen; [apply empty_represents|].
Qed.

Lemma buffer_refines_queue_witness :
  run_ops empty [Append (lit "*1"); EnsureFill 3 (lit "abc"); Consume 2]
    ⇓ λ b, wf b ∧ readable b = lit "abc".
Proof. apply buffer_refines_queue. reflexivity. Defined.


End Buffer.
