(* ===== verification/ProtoSerializer.v ===== *)
(** * [proto/RespSerializer]: writing RESP2 replies

    The six static methods of class [RespSerializer]
    (src/proto/RespSerializer.cpp) write into a [Buffer]; each is the same
    sequence of [append] calls as in the source.  [enc_*] are the wire forms the
    comments of RespSerializer.h promise, and the lemmas say that each writer
    appends its wire form to the readable contents. *)
From Stdlib Require Import Ascii String ZArith Lia ZifyNat ZifyBool.
From stdpp Require Import base option list strings gmap.
From S2P Require Import Prelude CStdlib NetBuffer.
Import Buffer.

(** ** Wire forms *)
Definition enc_line (tag : ascii) (s : bytes) : bytes := tag :: s ++ crlf.
Definition enc_simple (s : bytes) : bytes := enc_line "+" s.
Definition enc_error (s : bytes) : bytes := enc_line "-" s.
Definition enc_int (z : Z) : bytes := enc_line ":" (to_string z).
Definition enc_header (z : Z) : bytes := enc_line "*" (to_string z).
Definition enc_bulk (s : bytes) : bytes :=
  enc_line "$" (to_string (Z.of_nat (length s))) ++ s ++ crlf.
Definition enc_null : bytes := lit "$-1" ++ crlf.

(** An array of bulk strings: a complete request. *)
Definition enc_bulks (args : list bytes) : bytes := mjoin (enc_bulk <$> args).
Definition enc_command (args : list bytes) : bytes :=
  enc_header (Z.of_nat (length args)) ++ enc_bulks args.

Lemma enc_line_eq tag s : enc_line tag s = [tag] ++ s ++ crlf.
Proof. done. Qed.

Lemma enc_bulk_eq s :
  enc_bulk s = ["$"%char] ++ to_string (Z.of_nat (length s)) ++ crlf ++ s ++ crlf.
Proof. unfold enc_bulk. by rewrite enc_line_eq, <- !app_assoc. Qed.

Lemma enc_bulks_cons x xs : enc_bulks (x :: xs) = enc_bulk x ++ enc_bulks xs.
Proof. done. Qed.

Module RespSerializer.

Definition writeSimpleString (buf : Buffer) (s : bytes) : result Buffer :=
  b1 ← append buf (lit "+");
  b2 ← append b1 s;
  append b2 crlf.

Definition writeError (buf : Buffer) (msg : bytes) : result Buffer :=
  b1 ← append buf (lit "-");
  b2 ← append b1 msg;
  append b2 crlf.

Definition writeInteger (buf : Buffer) (val : Z) : result Buffer :=
  let s := lit ":" ++ to_string val ++ crlf in
  append buf s.

Definition writeBulkString (buf : Buffer) (s : bytes) : result Buffer :=
  let header := lit "$" ++ to_string (Z.of_nat (length s)) ++ crlf in
  b1 ← append buf header;
  b2 ← append b1 s;
  append b2 crlf.

Definition writeNull (buf : Buffer) : result Buffer :=
  append buf (lit "$-1" ++ crlf).

Definition writeArrayHeader (buf : Buffer) (count : Z) : result Buffer :=
  let s := lit "*" ++ to_string count ++ crlf in
  append buf s.

(** [for (const auto& x : xs) RespSerializer::writeBulkString(out, x);] *)
Fixpoint writeBulkStrings (buf : Buffer) (xs : list bytes) : result Buffer :=
  match xs with
  | [] => mret buf
  | x :: xs' => b1 ← writeBulkString buf x; writeBulkStrings b1 xs'
  end.

Section writers.
Context (b : Buffer) (t : bytes) (Hb : represents b t).

Lemma writeSimpleString_ok s : writeSimpleString b s ⇓ λ b', represents b' (t ++ enc_simple s).
Proof using Hb.
  unfold writeSimpleString. run_with append_ok; [exact Hb|]. intros b1 H1.
  run_with append_ok; [exact H1|]. intros b2 H2.
  eapply returns_mono; [apply append_ok, H2|]. cbv beta. intros b3 H3.
  by rewrite <- !app_assoc in H3.
Qed.

Lemma writeError_ok s : writeError b s ⇓ λ b', represents b' (t ++ enc_error s).
Proof using Hb.
  unfold writeError. run_with append_ok; [exact Hb|]. intros b1 H1.
  run_with append_ok; [exact H1|]. intros b2 H2.
  eapply returns_mono; [apply append_ok, H2|]. cbv beta. intros b3 H3.
  by rewrite <- !app_assoc in H3.
Qed.

Lemma writeInteger_ok z : writeInteger b z ⇓ λ b', represents b' (t ++ enc_int z).
Proof using Hb. by apply append_ok. Qed.

Lemma writeArrayHeader_ok z : writeArrayHeader b z ⇓ λ b', represents b' (t ++ enc_header z).
Proof using Hb. by apply append_ok. Qed.

Lemma writeNull_ok : writeNull b ⇓ λ b', represents b' (t ++ enc_null).
Proof using Hb. by apply append_ok. Qed.

Lemma writeBulkString_ok s : writeBulkString b s ⇓ λ b', represents b' (t ++ enc_bulk s).
Proof using Hb.
  unfold writeBulkString. run_with append_ok; [exact Hb|]. intros b1 H1.
  run_with append_ok; [exact H1|]. intros b2 H2.
  eapply returns_mono; [apply append_ok, H2|]. cbv beta. intros b3 H3.
  revert H3. by rewrite enc_bulk_eq, <- !app_assoc.
Qed.

End writers.

Lemma writeBulkStrings_ok xs b t :
  represents b t → writeBulkStrings b xs ⇓ λ b', represents b' (t ++ enc_bulks xs).
Proof.
  revert b t. induction xs as [|x xs IH]; intros b t Hb; simpl.
  - apply returns_ok. unfold enc_bulks. simpl. by rewrite app_nil_r.
  - run_with writeBulkString_ok; [exact Hb|]. intros b1 H1.
    rewrite enc_bulks_cons, app_assoc. by apply IH.
Qed.

End RespSerializer.
