(* ===== verification/ProtoParser.v ===== *)
(** * [proto/RespParser]: reading RESP2 requests

    Class [RespParser] (src/proto/RespParser.cpp).  The parser works on the
    readable bytes of a [Buffer]: [data] is that byte sequence and [len] its
    length, so a read at or past [len] is a fault of the model.  [findCRLF]
    returns an [int], which keeps only the low 32 bits of the position it
    found.  A frame that is not complete, or that breaks the protocol, is
    [None] and leaves the buffer alone.  [parseArray] reserves room for as many
    strings as the header of the request announces, before it has seen any of
    them: [grants n] is whether the allocator has room for [n] strings. *)
From Stdlib Require Import Ascii String ZArith Lia ZifyNat ZifyBool.
From stdpp Require Import base option list strings gmap.
From S2P Require Import Prelude CStdlib NetBuffer ProtoSerializer.
Import Buffer.

Module RespParser.

(** The loop of [findCRLF]: [n] iterations left, at index [i]. *)
Fixpoint findCRLF_loop (n : nat) (data : bytes) (i : nat) : result Z :=
  match n with
  | O => mret (-1)%Z
  | S n' =>
      c0 ← vec_get data i;
      if decide (c0 = CR) then
        c1 ← vec_get data (i + 1);
        if decide (c1 = LF) then mret (wrap_s32 (Z.of_nat i))
        else findCRLF_loop n' data (i + 1)
      else findCRLF_loop n' data (i + 1)
  end.

(** [i] runs over [offset .. len - 2]. *)
Definition findCRLF (data : bytes) (len offset : nat) : result Z :=
  if bool_decide (len < offset + 2) then mret (-1)%Z
  else findCRLF_loop (len - 1 - offset) data offset.

(** [std::string(data + i, n)] for a [size_t] length [n]. *)
Definition substr (data : bytes) (i : nat) (n : Z) : result bytes :=
  if bool_decide (Z.of_nat i + n ≤ Z.of_nat (length data))%Z
  then mret (slice i (Z.to_nat n) data) else Fault OutOfBounds.

(** One round of the loop of [parseArray]: the bulk string at [pos] and the
    position after it. *)
Definition parseBulk (data : bytes) (len pos : nat) : result (option (bytes * nat)) :=
  if bool_decide (len ≤ pos) then mret None
  else
    c ← vec_get data pos;
    if decide (c ≠ "$"%char) then mret None
    else
      lenCRLF ← findCRLF data len (pos + 1);
      if (lenCRLF <? 0)%Z then mret None
      else
        lenStr ← substr data (pos + 1) (wrap_u64 (lenCRLF - Z.of_nat (pos + 1)));
        let bulkLen := atoi lenStr in
        if (bulkLen <? 0)%Z then mret (Some ([], Z.to_nat lenCRLF + 2))
        else
          let dataStart := Z.to_nat lenCRLF + 2 in
          let dataEnd := dataStart + Z.to_nat bulkLen in
          if bool_decide (len < dataEnd + 2) then mret None
          else
            e0 ← vec_get data dataEnd;
            if decide (e0 ≠ CR) then mret None
            else
              e1 ← vec_get data (dataEnd + 1);
              if decide (e1 ≠ LF) then mret None
              else
                s ← substr data dataStart bulkLen;
                mret (Some (s, dataEnd + 2)).

(** The loop: [n] strings left, at [pos]. *)
Fixpoint parseBulks (n : nat) (data : bytes) (len pos : nat) (args : list bytes)
    : result (option (list bytes * nat)) :=
  match n with
  | O => mret (Some (args, pos))
  | S n' =>
      r ← parseBulk data len pos;
      match r with
      | None => mret None
      | Some (s, pos') => parseBulks n' data len pos' (args ++ [s])
      end
  end.

(** [args.reserve(count)] on the empty vector; a refusal is an uncaught
    [std::bad_alloc]. *)
Definition reserve (grants : Z → bool) (count : Z) : result unit :=
  if (count =? 0)%Z || grants count then mret tt else Fault BadAlloc.

Definition parseArray (grants : Z → bool) (data : bytes) (len : nat) : result (option (list bytes * nat)) :=
  crlfPos ← findCRLF data len 1;
  if (crlfPos <? 0)%Z then mret None
  else
    countStr ← substr data 1 (wrap_u64 (crlfPos - 1));
    let count := atoi countStr in
    if (count <? 0)%Z then mret (Some ([], Z.to_nat crlfPos + 2))
    else
      _ ← reserve grants count;
      parseBulks (Z.to_nat count) data len (Z.to_nat crlfPos + 2) [].

(** Splitting an inline command.  A position [pos] in [line] is the suffix of
    [line] from it: [skip_sp] is the inner [while], [token] is the [find] of the
    next space together with the [substr] up to it. *)
Fixpoint skip_sp (l : bytes) : bytes :=
  match l with
  | c :: l' => if decide (c = SP) then skip_sp l' else l
  | [] => []
  end.

Fixpoint token (l : bytes) : bytes * bytes :=
  match l with
  | c :: l' =>
      if decide (c = SP) then ([], l) else let '(t, r) := token l' in (c :: t, r)
  | [] => ([], [])
  end.

Fixpoint splitSpaces (fuel : nat) (l : bytes) (args : list bytes) : result (list bytes) :=
  match l with
  | [] => mret args
  | _ =>
      match fuel with
      | O => Fault OutOfFuel
      | S fuel' =>
          match skip_sp l with
          | [] => mret args
          | l' => let '(t, r) := token l' in splitSpaces fuel' r (args ++ [t])
          end
      end
  end.

(** Each round of the outer loop reads at least one byte of the line. *)
Definition parseInline (data : bytes) (len : nat) : result (option (list bytes * nat)) :=
  crlfPos ← findCRLF data len 0;
  if (crlfPos <? 0)%Z then mret None
  else
    line ← substr data 0 crlfPos;
    args ← splitSpaces (length line) line [];
    mret (Some (args, Z.to_nat crlfPos + 2)).

Definition parse (grants : Z → bool) (buf : Buffer) : result (option (list bytes) * Buffer) :=
  let readable := readableBytes buf in
  if bool_decide (readable = 0) then mret (None, buf)
  else
    let data := Buffer.readable buf in
    c ← vec_get data 0;
    r ← (if decide (c = "*"%char) then parseArray grants data readable
         else parseInline data readable);
    match r with
    | Some (args, bytesConsumed) =>
        buf' ← consume buf bytesConsumed;
        mret (Some args, buf')
    | None => mret (None, buf)
    end.

(** ** [findCRLF] finds the first CRLF *)

Definition crlf_at (data : bytes) (i : nat) : Prop :=
  data !! i = Some CR ∧ data !! (i + 1) = Some LF.

Definition first_crlf (data : bytes) (off i : nat) : Prop :=
  off ≤ i ∧ crlf_at data i ∧ ∀ j, off ≤ j < i → ¬ crlf_at data j.

(** Positions up to [2^31 - 1] survive the conversion to [int]. *)
Definition fits_int (data : bytes) : Prop := (Z.of_nat (length data) ≤ 2 ^ 31)%Z.

Lemma crlf_at_lt data i : crlf_at data i → i + 1 < length data.
Proof. intros [_ H]. by apply lookup_lt_Some in H. Qed.

#[export] Instance crlf_at_dec data i : Decision (crlf_at data i).
Proof. unfold crlf_at. apply _. Defined.

Lemma findCRLF_loop_step n data i :
  i + 1 < length data →
  findCRLF_loop (S n) data i =
    if decide (crlf_at data i) then Ok (wrap_s32 (Z.of_nat i)) else findCRLF_loop n data (i + 1).
Proof.
  intros Hi. cbn [findCRLF_loop].
  destruct (lookup_lt_is_Some_2 data i ltac:(lia)) as [c0 H0].
  destruct (lookup_lt_is_Some_2 data (i + 1) ltac:(lia)) as [c1 H1].
  rewrite (vec_get_ok _ _ _ H0), (vec_get_ok _ _ _ H1), !bind_ok.
  assert (Hat : crlf_at data i ↔ c0 = CR ∧ c1 = LF) by (unfold crlf_at; rewrite H0, H1; split; [by intros [[= ->] [= ->]] | by intros [-> ->]]).
  destruct (decide (crlf_at data i)); repeat case_decide; try done; tauto.
Qed.

Lemma findCRLF_loop_spec n data i :
  fits_int data → n = length data - 1 - i →
  findCRLF_loop n data i ⇓ λ z,
    (z = (-1)%Z ∧ ∀ j, i ≤ j → ¬ crlf_at data j) ∨
    (∃ j, z = Z.of_nat j ∧ first_crlf data i j).
Proof.
  intros Hfit. revert i. induction n as [|n IH]; intros i Hn.
  - apply returns_ok. left. split; [done|]. intros j Hj Hat%crlf_at_lt. lia.
  - rewrite findCRLF_loop_step by lia. case_decide as Hat.
    + apply returns_ok. right. exists i. unfold fits_int in Hfit.
      rewrite wrap_s32_id by (apply crlf_at_lt in Hat; unfold in_s32; lia).
      split; [done|]. split; [lia|]. split; [done|]. intros; lia.
    + eapply returns_mono; [apply IH; lia|]. cbv beta.
      intros z [[-> Hno]|(j & -> & Hj1 & Hj2 & Hj3)].
      * left. split; [done|]. intros j Hj. destruct (decide (j = i)) as [->|]; [done|].
        apply Hno. lia.
      * right. exists j. split; [done|]. split; [lia|]. split; [done|].
        intros k Hk. destruct (decide (k = i)) as [->|]; [done|]. apply Hj3. lia.
Qed.

Lemma findCRLF_spec data off :
  fits_int data →
  findCRLF data (length data) off ⇓ λ z,
    (z = (-1)%Z ∧ ∀ j, off ≤ j → ¬ crlf_at data j) ∨
    (∃ j, z = Z.of_nat j ∧ first_crlf data off j).
Proof.
  intros Hfit. unfold findCRLF. case_bool_decide.
  - apply returns_ok. left. split; [done|]. intros j Hj Hat%crlf_at_lt. lia.
  - by apply findCRLF_loop_spec.
Qed.

Lemma first_crlf_unique data off i j : first_crlf data off i → first_crlf data off j → i = j.
Proof.
  intros (Hi1 & Hi2 & Hi3) (Hj1 & Hj2 & Hj3).
  destruct (lt_eq_lt_dec i j) as [[?|?]|?]; [|done|].
  - destruct (Hj3 i); [lia|done].
  - destruct (Hi3 j); [lia|done].
Qed.

Lemma findCRLF_found data off i :
  fits_int data → first_crlf data off i →
  findCRLF data (length data) off = Ok (Z.of_nat i).
Proof.
  intros Hfit Hi. pose proof (findCRLF_spec data off Hfit) as Hs.
  apply returns_iff in Hs as (z & -> & [[-> Hno]|(j & -> & Hj)]).
  - destruct Hi as (? & ? & _). by destruct (Hno i).
  - by rewrite (first_crlf_unique _ _ _ _ Hi Hj).
Qed.

(** Appending bytes does not move the first CRLF. *)
Lemma crlf_at_app data t i : i + 1 < length data → crlf_at (data ++ t) i ↔ crlf_at data i.
Proof. intros. unfold crlf_at. by rewrite !lookup_app_l by lia. Qed.

Lemma first_crlf_app data t off i : first_crlf data off i → first_crlf (data ++ t) off i.
Proof.
  intros (H1 & H2 & H3). pose proof (crlf_at_lt _ _ H2).
  split; [done|]. split; [by apply crlf_at_app|].
  intros j Hj. rewrite crlf_at_app by lia. by apply H3.
Qed.

(** The first CRLF after a CR-free run. *)
Lemma first_crlf_after pre s t :
  CR ∉ s → first_crlf (pre ++ s ++ crlf ++ t) (length pre) (length pre + length s).
Proof.
  intros Hs. split; [lia|]. split.
  - unfold crlf_at. rewrite <- Nat.add_assoc, !lookup_app_plus.
    rewrite lookup_app_r by lia. by rewrite Nat.sub_diag.
  - intros j Hj [Hc _]. apply Hs.
    rewrite lookup_app_r, lookup_app_l in Hc by lia. by eapply list_elem_of_lookup_2.
Qed.

(** ** Memory safety and progress *)

Lemma substr_ok data i n :
  i + n ≤ length data → substr data i (Z.of_nat n) = Ok (slice i n data).
Proof. intros. unfold substr. rewrite bool_decide_true by lia. by rewrite Nat2Z.id. Qed.

Lemma wrap_u64_sub data i j :
  fits_int data → i ≤ j < length data →
  wrap_u64 (Z.of_nat j - Z.of_nat i) = Z.of_nat (j - i).
Proof. unfold fits_int. intros. rewrite wrap_u64_id by lia. lia. Qed.

(** What [findCRLF] at [off] yields, as a case analysis for its callers. *)
Lemma findCRLF_cases data off :
  fits_int data →
  findCRLF data (length data) off = Ok (-1)%Z ∨
  ∃ j, findCRLF data (length data) off = Ok (Z.of_nat j) ∧ first_crlf data off j ∧
    off ≤ j ∧ j + 1 < length data.
Proof.
  intros Hfit. pose proof (findCRLF_spec data off Hfit) as Hs.
  apply returns_iff in Hs as (z & -> & [[-> _]|(j & -> & Hj)]); [by left|right].
  exists j. split; [done|]. split; [done|]. pose proof Hj as (? & ?%crlf_at_lt & _). lia.
Qed.

Lemma atoi_range s : in_s32 (atoi s).
Proof. apply wrap_s32_range. Qed.

Lemma parseBulk_safe data pos :
  fits_int data →
  parseBulk data (length data) pos ⇓ λ r,
    match r with Some (_, p) => pos < p ≤ length data | None => True end.
Proof.
  intros Hfit. unfold parseBulk. case_bool_decide; [done|].
  run_with vec_get_lt; [lia|]. intros c Hc. case_decide; [done|].
  destruct (findCRLF_cases data (pos + 1) Hfit) as [->|(j & -> & _ & Hj1 & Hj2)];
    rewrite bind_ok; [done|].
  replace (Z.of_nat j <? 0)%Z with false by lia.
  rewrite (wrap_u64_sub data) by (done || lia). rewrite substr_ok, bind_ok by lia. cbv zeta.
  destruct (Z.ltb_spec (atoi (slice (pos + 1) (j - (pos + 1)) data)) 0) as [Hneg|Hpos];
    [simpl; lia|].
  set (n := atoi _) in *. case_bool_decide as Hlen; [done|].
  run_with vec_get_lt; [lia|]. intros e0 _. case_decide; [done|].
  run_with vec_get_lt; [lia|]. intros e1 _. case_decide; [done|].
  rewrite <- (Z2Nat.id n) at 1 by done. rewrite substr_ok, bind_ok by lia.
  simpl. lia.
Qed.

Lemma parseBulks_safe n data pos args :
  fits_int data → pos ≤ length data →
  parseBulks n data (length data) pos args ⇓ λ r,
    match r with
    | Some (args', c) => pos ≤ c ≤ length data ∧ length args' = length args + n
    | None => True
    end.
Proof.
  intros Hfit. revert pos args. induction n as [|n IH]; intros pos args Hpos; simpl; [lia|].
  run_with parseBulk_safe; [done|]. intros [[s p]|] Hp; [|done].
  eapply returns_mono; [apply IH; lia|]. intros [[args' c]|]; [|done].
  rewrite length_app. simpl. lia.
Qed.

(** The number of strings that a request with a complete header asks for. *)
Definition announces (data : bytes) (n : Z) : Prop :=
  head data = Some "*"%char ∧ (0 < n)%Z ∧
  ∃ j, first_crlf data 1 j ∧ n = atoi (slice 1 (j - 1) data).

(** A refused allocation, for a count that the request announces. *)
Definition refused (grants : Z → bool) (data : bytes) (f : fault) : Prop :=
  f = BadAlloc ∧ ∃ n, announces data n ∧ grants n = false.

Lemma reserve_ok grants count : (count = 0 ∨ grants count = true)%Z → reserve grants count = Ok tt.
Proof. unfold reserve. intros [->| ->]; [done|by rewrite orb_true_r]. Qed.

Lemma parseArray_safe grants data :
  fits_int data → head data = Some "*"%char →
  match parseArray grants data (length data) with
  | Ok (Some (_, c)) => 2 < c ≤ length data
  | Ok None => True
  | Fault f => refused grants data f
  end.
Proof.
  intros Hfit Hstar. unfold parseArray.
  destruct (findCRLF_cases data 1 Hfit) as [->|(j & -> & Hj & Hj1 & Hj2)]; rewrite bind_ok; [done|].
  replace (Z.of_nat j <? 0)%Z with false by lia.
  change 1%Z with (Z.of_nat 1). rewrite (wrap_u64_sub data) by (done || lia).
  rewrite substr_ok, bind_ok by lia. cbv zeta. set (n := atoi _).
  destruct (Z.ltb_spec n 0) as [|Hn]; [cbn; lia|]. unfold reserve.
  destruct ((n =? 0)%Z || grants n) eqn:Hg; cbn [mbind result_bind mret result_ret].
  - pose proof (parseBulks_safe (Z.to_nat n) data (Z.to_nat (Z.of_nat j) + 2) [] Hfit ltac:(lia)) as Hb.
    destruct (parseBulks _ _ _ _ _) as [[[? ?]|]|]; [|done|done]. cbn in Hb. lia.
  - apply orb_false_elim in Hg as [H0%Z.eqb_neq Hg]. split; [done|]. exists n.
    split; [|done]. split; [done|]. split; [lia|]. by exists j.
Qed.

Lemma skip_sp_length l : length (skip_sp l) ≤ length l.
Proof. induction l as [|c l IH]; simpl; [done|]. case_decide; simpl; lia. Qed.

Lemma token_length l : length (snd (token l)) ≤ length l.
Proof.
  induction l as [|c l IH]; simpl; [done|]. case_decide; simpl; [done|].
  destruct (token l); simpl in *. lia.
Qed.

Lemma skip_sp_head l c l' : skip_sp l = c :: l' → c ≠ SP.
Proof.
  induction l as [|x l IH]; simpl; [done|]. case_decide; [done|]. by intros [= -> ->].
Qed.

(** ** Inline commands: the split agrees with a one-pass reference *)

(** All segments between single spaces, empty ones included. *)
Fixpoint segments (l : bytes) : list bytes :=
  match l with
  | [] => [[]]
  | c :: l' =>
      if decide (c = SP) then [] :: segments l'
      else match segments l' with [] => [[c]] | s :: ss => (c :: s) :: ss end
  end.

Definition words (l : bytes) : list bytes := filter (λ s, s ≠ []) (segments l).

Lemma words_skip_sp l : words (skip_sp l) = words l.
Proof.
  induction l as [|c l IH]; simpl; [done|]. case_decide as Hc; [|done].
  rewrite IH. unfold words. simpl. by rewrite decide_True.
Qed.

Lemma segments_token l : ∃ ss,
  segments l = (token l).1 :: ss ∧ words (token l).2 = filter (λ s, s ≠ []) ss.
Proof.
  induction l as [|c l (ss & Hs & Hw)]; simpl; [by exists []|].
  case_decide as Hc.
  - exists (segments l). split; [done|]. unfold words. simpl. rewrite decide_True by done.
    rewrite filter_cons, decide_False by (by intros []). done.
  - rewrite Hs. destruct (token l) as [t r]. simpl in *. by exists ss.
Qed.

Lemma words_token c l :
  c ≠ SP → words (c :: l) = (token (c :: l)).1 :: words (token (c :: l)).2.
Proof.
  intros Hc. destruct (segments_token (c :: l)) as (ss & Hs & Hw).
  rewrite Hw. unfold words. rewrite Hs. rewrite filter_cons, decide_True; [done|].
  simpl. rewrite decide_False by done. by destruct (token l).
Qed.

Lemma splitSpaces_words fuel l args :
  length l ≤ fuel → splitSpaces fuel l args = Ok (args ++ words l).
Proof.
  revert l args. induction fuel as [|fuel IH]; intros l args Hl.
  - destruct l; simpl in Hl; [|lia]. simpl. by rewrite app_nil_r.
  - destruct l as [|x l]; [simpl; by rewrite app_nil_r|].
    rewrite <- (words_skip_sp (x :: l)).
    pose proof (skip_sp_length (x :: l)) as Hsk. pose proof (skip_sp_head (x :: l)) as Hh.
    cbn [splitSpaces]. destruct (skip_sp (x :: l)) as [|c l'] eqn:E.
    + simpl. by rewrite app_nil_r.
    + specialize (Hh c l' eq_refl). rewrite words_token by done.
      assert (Ht : length (token (c :: l')).2 ≤ length l').
      { simpl. rewrite decide_False by done. pose proof (token_length l').
        by destruct (token l'). }
      destruct (token (c :: l')) as [t r]. simpl in Ht, Hsk, Hl |- *.
      rewrite IH by lia. by rewrite <- app_assoc.
Qed.

Lemma parseInline_safe data :
  fits_int data →
  parseInline data (length data) ⇓ λ r,
    match r with Some (_, c) => 1 < c ≤ length data | None => True end.
Proof.
  intros Hfit. unfold parseInline.
  destruct (findCRLF_cases data 0 Hfit) as [->|(j & -> & _ & Hj1 & Hj2)]; rewrite bind_ok; [done|].
  replace (Z.of_nat j <? 0)%Z with false by lia.
  rewrite substr_ok, bind_ok by lia. rewrite splitSpaces_words, bind_ok by done.
  apply returns_ok. lia.
Qed.

(** ** Stability: more bytes never change a parsed frame *)

Lemma fits_int_app_l data t : fits_int (data ++ t) → fits_int data.
Proof. unfold fits_int. rewrite length_app. lia. Qed.

Lemma findCRLF_app data t off z :
  fits_int (data ++ t) → findCRLF data (length data) off = Ok z → (0 ≤ z)%Z →
  findCRLF (data ++ t) (length (data ++ t)) off = Ok z ∧ (z < Z.of_nat (length data))%Z.
Proof.
  intros Hfit Hf Hz. pose proof (fits_int_app_l _ _ Hfit) as Hfit'.
  destruct (findCRLF_cases data off Hfit') as [Hf'|(j & Hf' & Hj & ? & ?)];
    rewrite Hf in Hf'; injection Hf' as ->; [lia|].
  split; [|lia]. apply findCRLF_found; [done|]. by apply first_crlf_app.
Qed.

Lemma vec_get_app {A} (l t : list A) i x : vec_get l i = Ok x → vec_get (l ++ t) i = Ok x.
Proof. intros H%vec_get_inv. apply vec_get_ok. by apply lookup_app_l_Some. Qed.

Lemma substr_app data t i n s : substr data i n = Ok s → (0 ≤ n)%Z → substr (data ++ t) i n = Ok s.
Proof.
  unfold substr. case_bool_decide; [|done]. intros [= <-] Hn.
  rewrite bool_decide_true by (rewrite length_app; lia). f_equal. apply slice_app_l. lia.
Qed.

Lemma wrap_u64_nonneg z : (0 ≤ wrap_u64 z)%Z.
Proof. apply Z.mod_pos_bound. lia. Qed.

Lemma parseBulk_app data t pos s p :
  fits_int (data ++ t) →
  parseBulk data (length data) pos = Ok (Some (s, p)) →
  parseBulk (data ++ t) (length (data ++ t)) pos = Ok (Some (s, p)).
Proof.
  intros Hfit. unfold parseBulk. case_bool_decide as H1; [done|]. intros H. inv_bind.
  rewrite bool_decide_false by (rewrite length_app; lia).
  rewrite (vec_get_app _ _ _ _ E), bind_ok.
  case_decide; [done|]. inv_bind. case_match eqn:Hz; [done|]. inv_bind.
  destruct (findCRLF_app _ t _ _ Hfit E0 ltac:(lia)) as [-> _]. rewrite bind_ok, Hz.
  rewrite (substr_app _ t _ _ _ E1 (wrap_u64_nonneg _)), bind_ok. cbv zeta in *.
  case_match eqn:Hb; [done|]. case_bool_decide as H2; [done|].
  rewrite bool_decide_false by (rewrite length_app; lia). inv_bind.
  rewrite (vec_get_app _ _ _ _ E2), bind_ok. case_decide; [done|]. inv_bind.
  rewrite (vec_get_app _ _ _ _ E3), bind_ok. case_decide; [done|]. inv_bind.
  rewrite (substr_app _ t _ _ _ E4 ltac:(lia)), bind_ok. by simplify_eq/=.
Qed.

Lemma parseBulks_app n data t pos args r :
  fits_int (data ++ t) →
  parseBulks n data (length data) pos args = Ok (Some r) →
  parseBulks n (data ++ t) (length (data ++ t)) pos args = Ok (Some r).
Proof.
  intros Hfit. revert pos args. induction n as [|n IH]; intros pos args; [done|].
  cbn [parseBulks]. intros H. inv_bind. destruct r0 as [[s p]|]; [|done].
  rewrite (parseBulk_app _ t _ _ _ Hfit E), bind_ok. by apply IH.
Qed.

Lemma parseArray_app grants data t r :
  fits_int (data ++ t) →
  parseArray grants data (length data) = Ok (Some r) →
  parseArray grants (data ++ t) (length (data ++ t)) = Ok (Some r).
Proof.
  intros Hfit. unfold parseArray. intros H. inv_bind. case_match eqn:Hz; [done|]. inv_bind.
  destruct (findCRLF_app _ t _ _ Hfit E ltac:(lia)) as [-> _]. rewrite bind_ok, Hz.
  rewrite (substr_app _ t _ _ _ E0 (wrap_u64_nonneg _)), bind_ok. cbv zeta in *.
  case_match; [done|]. inv_bind. rewrite E1, bind_ok. by apply parseBulks_app.
Qed.

Lemma parseInline_app data t r :
  fits_int (data ++ t) →
  parseInline data (length data) = Ok (Some r) →
  parseInline (data ++ t) (length (data ++ t)) = Ok (Some r).
Proof.
  intros Hfit. unfold parseInline. intros H. inv_bind. case_match eqn:Hz; [done|]. inv_bind.
  destruct (findCRLF_app _ t _ _ Hfit E ltac:(lia)) as [-> _]. rewrite bind_ok, Hz.
  rewrite (substr_app _ t _ _ _ E0 ltac:(lia)), bind_ok.
  by rewrite E1, bind_ok.
Qed.

(** ** Reading back what the serializer writes *)

(** The success path of one round: a '$', a length line that reads as [n], and
    a CRLF right after [n] bytes. *)
Lemma parseBulk_at data pos j n :
  fits_int data →
  data !! pos = Some "$"%char → first_crlf data (pos + 1) j →
  atoi (slice (pos + 1) (j - (pos + 1)) data) = Z.of_nat n →
  crlf_at data (j + 2 + n) →
  parseBulk data (length data) pos = Ok (Some (slice (j + 2) n data, j + 2 + n + 2)).
Proof.
  intros Hfit Hc Hf Hn Hend. pose proof (crlf_at_lt _ _ Hend).
  assert (pos + 1 ≤ j < length data).
  { pose proof Hf as (? & ?%crlf_at_lt & _). lia. }
  unfold parseBulk. rewrite bool_decide_false by lia.
  rewrite (vec_get_ok _ _ _ Hc), bind_ok, decide_False by (by intros []).
  rewrite (findCRLF_found _ _ _ Hfit Hf), bind_ok.
  replace (Z.of_nat j <? 0)%Z with false by lia.
  rewrite (wrap_u64_sub data) by (done || lia). rewrite substr_ok, bind_ok by lia. cbv zeta.
  rewrite Hn. replace (Z.of_nat n <? 0)%Z with false by lia.
  rewrite !Nat2Z.id, bool_decide_false by lia. destruct Hend as [He0 He1].
  rewrite (vec_get_ok _ _ _ He0), bind_ok, decide_False by (by intros []).
  rewrite (vec_get_ok _ _ _ He1), bind_ok, decide_False by (by intros []).
  by rewrite substr_ok, bind_ok by lia.
Qed.

Lemma crlf_at_after pre t : crlf_at (pre ++ crlf ++ t) (length pre).
Proof.
  split; [rewrite <- (Nat.add_0_r (length pre))|]; by rewrite lookup_app_plus.
Qed.

Lemma parseBulk_enc pre s t :
  fits_int (pre ++ enc_bulk s ++ t) →
  parseBulk (pre ++ enc_bulk s ++ t) (length (pre ++ enc_bulk s ++ t)) (length pre) =
    Ok (Some (s, length (pre ++ enc_bulk s))).
Proof.
  intros Hfit. set (num := to_string (Z.of_nat (length s))).
  assert (Hd : pre ++ enc_bulk s ++ t = (pre ++ ["$"%char]) ++ num ++ crlf ++ (s ++ crlf ++ t)).
  { rewrite enc_bulk_eq. fold num. by rewrite <- !app_assoc. }
  assert (Hl : length (pre ++ ["$"%char]) = length pre + 1) by (rewrite length_app; done).
  assert (Hh : length (pre ++ ["$"%char] ++ num ++ crlf) = length pre + 1 + length num + 2).
  { rewrite !length_app. simpl. lia. }
  assert (Hd2 : pre ++ enc_bulk s ++ t = (pre ++ ["$"%char] ++ num ++ crlf) ++ s ++ crlf ++ t).
  { rewrite Hd. by rewrite <- !app_assoc. }
  assert (Hs32 : in_s32 (Z.of_nat (length s))).
  { unfold fits_int in Hfit. rewrite Hd2, !length_app in Hfit. change (length crlf) with 2 in Hfit.
    unfold in_s32. lia. }
  rewrite (parseBulk_at _ _ (length pre + 1 + length num) (length s)); [|done|..].
  - do 3 f_equal.
    + rewrite Hd2, <- Hh, slice_app_r. apply take_app_length.
    + rewrite enc_bulk_eq. fold num. rewrite !length_app. simpl. lia.
  - rewrite <- (Nat.add_0_r (length pre)), lookup_app_plus. by rewrite enc_bulk_eq.
  - rewrite Hd, <- Hl. apply first_crlf_after, to_string_no_CR.
  - rewrite Hd, <- Hl, slice_app_r. replace (_ + length num - _) with (length num) by lia.
    rewrite take_app_length. by apply atoi_to_string.
  - rewrite Hd2, <- Hh, app_assoc, <- length_app. apply crlf_at_after.
Qed.

Lemma parseBulks_enc args pre t acc :
  fits_int (pre ++ enc_bulks args ++ t) →
  parseBulks (length args) (pre ++ enc_bulks args ++ t)
    (length (pre ++ enc_bulks args ++ t)) (length pre) acc =
    Ok (Some (acc ++ args, length (pre ++ enc_bulks args))).
Proof.
  revert pre acc. induction args as [|s args IH]; intros pre acc Hfit.
  - simpl. unfold enc_bulks. simpl. by rewrite !app_nil_r.
  - rewrite enc_bulks_cons, <- app_assoc in Hfit |- *.
    cbn [length parseBulks]. rewrite parseBulk_enc, bind_ok by done.
    rewrite app_assoc in Hfit |- *. rewrite IH by done. by rewrite <- !app_assoc.
Qed.

Lemma length_args_fits args t :
  fits_int (enc_command args ++ t) → (Z.of_nat (length args) < 2 ^ 31)%Z.
Proof.
  assert (Hb : length args ≤ length (enc_bulks args)).
  { induction args as [|s args IH]; [done|]. rewrite enc_bulks_cons, enc_bulk_eq, !length_app.
    cbn [length]. lia. }
  unfold fits_int, enc_command, enc_header. rewrite enc_line_eq, !length_app.
  cbn [length]. lia.
Qed.

Lemma parseArray_enc grants args t :
  fits_int (enc_command args ++ t) →
  grants (Z.of_nat (length args)) = true →
  parseArray grants (enc_command args ++ t) (length (enc_command args ++ t)) =
    Ok (Some (args, length (enc_command args))).
Proof.
  intros Hfit Hg. assert (Hn : (Z.of_nat (length args) < 2 ^ 31)%Z) by by eapply length_args_fits.
  set (num := to_string (Z.of_nat (length args))).
  assert (Hd : enc_command args ++ t = ["*"%char] ++ num ++ crlf ++ (enc_bulks args ++ t)).
  { unfold enc_command, enc_header. rewrite enc_line_eq. fold num. by rewrite <- !app_assoc. }
  assert (Hf := first_crlf_after ["*"%char] num (enc_bulks args ++ t) (to_string_no_CR _)).
  rewrite <- Hd in Hf. cbn [length] in Hf.
  unfold parseArray. rewrite (findCRLF_found _ _ _ Hfit Hf), bind_ok.
  pose proof Hf as (_ & Hlt%crlf_at_lt & _).
  replace (Z.of_nat _ <? 0)%Z with false by lia. change 1%Z with (Z.of_nat 1).
  rewrite (wrap_u64_sub (enc_command args ++ t)) by (done || lia).
  rewrite substr_ok, bind_ok by lia. replace (1 + length num - 1) with (length num) by lia.
  replace (slice 1 (length num) (enc_command args ++ t)) with num.
  2:{ rewrite Hd. change 1 with (length ["*"%char]). by rewrite slice_app_r, take_app_length. }
  cbv zeta. replace (atoi num) with (Z.of_nat (length args)).
  2:{ symmetry. apply atoi_to_string. unfold in_s32. lia. }
  replace (Z.of_nat (length args) <? 0)%Z with false by lia. rewrite reserve_ok, bind_ok by auto. rewrite !Nat2Z.id.
  assert (Hh : 1 + length num + 2 = length (enc_header (Z.of_nat (length args)))).
  { unfold enc_header. rewrite enc_line_eq. fold num. rewrite !length_app. simpl. lia. }
  rewrite Hh. unfold enc_command. rewrite <- app_assoc. apply parseBulks_enc.
  unfold enc_command in Hfit. by rewrite <- app_assoc in Hfit.
Qed.

(** ** The entry point *)

Section entry.
Context (grants : Z → bool).

(** The choice [parse] makes on the first byte. *)
Definition parse_frame (data : bytes) : result (option (list bytes * nat)) :=
  match data with
  | [] => mret None
  | c :: _ =>
      if decide (c = "*"%char) then parseArray grants data (length data)
      else parseInline data (length data)
  end.

Lemma parse_eq b :
  wf b →
  parse grants b =
    r ← parse_frame (readable b);
    match r with
    | Some (args, n) => b' ← consume b n; mret (Some args, b')
    | None => mret (None, b)
    end.
Proof.
  intros Hwf. unfold parse. rewrite <- (length_readable b Hwf).
  destruct (readable b) as [|c data] eqn:E; [done|].
  rewrite bool_decide_false by done. by rewrite (vec_get_ok _ _ c).
Qed.

Lemma parse_frame_safe data :
  fits_int data →
  match parse_frame data with
  | Ok (Some (_, c)) => 0 < c ≤ length data
  | Ok None => True
  | Fault f => refused grants data f
  end.
Proof.
  intros Hfit. destruct data as [|c data]; [done|]. unfold parse_frame. case_decide as Hc.
  - pose proof (parseArray_safe grants (c :: data) Hfit ltac:(by rewrite Hc)) as Ha.
    destruct (parseArray _ _ _) as [[[? ?]|]|]; [lia|done|exact Ha].
  - pose proof (parseInline_safe (c :: data) Hfit) as Ha.
    destruct (parseInline _ _) as [[[? ?]|]|]; [|done..]. cbn [returns] in Ha. lia.
Qed.

Lemma parse_frame_app data t r :
  fits_int (data ++ t) → parse_frame data = Ok (Some r) → parse_frame (data ++ t) = Ok (Some r).
Proof.
  intros Hfit. destruct data as [|c data]; [done|]. unfold parse_frame.
  cbn [app]. change (c :: data ++ t) with ((c :: data) ++ t) in *. case_decide.
  - by apply parseArray_app.
  - by apply parseInline_app.
Qed.

Lemma parse_frame_enc args t :
  fits_int (enc_command args ++ t) → grants (Z.of_nat (length args)) = true →
  parse_frame (enc_command args ++ t) = Ok (Some (args, length (enc_command args))).
Proof. apply parseArray_enc. Qed.

(** A parsed frame is cut off the front of the contents. *)
Lemma parse_some b data args n :
  represents b data → parse_frame data = Ok (Some (args, n)) → n ≤ length data →
  parse grants b ⇓ λ '(r, b'), r = Some args ∧ represents b' (drop n data).
Proof.
  intros [Hwf Hd] Hf Hn. rewrite parse_eq, Hd, Hf, bind_ok by done.
  run_with consume_ok; [done..|]. intros b' Hb'. done.
Qed.

Lemma parse_none b data :
  represents b data → parse_frame data = Ok None → parse grants b = Ok (None, b).
Proof. intros [Hwf Hd] Hf. by rewrite parse_eq, Hd, Hf, bind_ok. Qed.

Lemma parse_total (b : Buffer) :
  wf b → (Z.of_nat (length (readable b)) ≤ 2 ^ 31)%Z →
  match parse grants b with
  | Ok (r, b') => wf b' ∧
      match r with
      | None => b' = b
      | Some _ => ∃ frame, frame ≠ [] ∧ readable b = frame ++ readable b'
      end
  | Fault f => refused grants (readable b) f
  end.
Proof.
  intros Hwf Hfit. pose proof (parse_frame_safe _ Hfit) as Hs.
  destruct (parse_frame (readable b)) as [[[args n]|]|f] eqn:Hr.
  - pose proof (parse_some b _ _ _ (conj Hwf eq_refl) Hr (proj2 Hs)) as Hp.
    destruct (parse grants b) as [[r b']|]; [|done]. destruct Hp as [-> [Hwf' Hb']]. split; [done|].
    exists (take n (readable b)). rewrite Hb', take_drop. split; [|done]. intros Ht%(f_equal length).
    rewrite length_take in Ht. simpl in Ht. lia.
  - by rewrite (parse_none b (readable b)).
  - by rewrite parse_eq, Hr.
Qed.

(** The same for a caller that does not look at the cause of an exception. *)
Lemma parse_survives (b : Buffer) :
  wf b → fits_int (readable b) →
  parse grants b ⇓?? λ '(r, b'), wf b' ∧
    match r with
    | None => b' = b
    | Some _ => ∃ frame, frame ≠ [] ∧ readable b = frame ++ readable b'
    end.
Proof.
  intros Hwf Hfit. pose proof (parse_total b Hwf Hfit) as H.
  destruct (parse grants b) as [[r b']|f]; [done|]. destruct H as [-> _]. by right.
Qed.

Lemma parse_enc b args t :
  represents b (enc_command args ++ t) → fits_int (enc_command args ++ t) →
  grants (Z.of_nat (length args)) = true →
  parse grants b ⇓ λ '(r, b'), r = Some args ∧ represents b' t.
Proof.
  intros Hb Hfit Hg. eapply returns_mono.
  - eapply parse_some; [done|by apply parse_frame_enc|]. rewrite length_app. lia.
  - intros [r b']. by rewrite drop_app_length.
Qed.

(** The header of a request announces its length, whatever is missing behind it. *)
Lemma announces_prefix data missing args n :
  enc_command args = data ++ missing → fits_int (enc_command args) → announces data n → n = Z.of_nat (length args).
Proof.
  intros Hd Hfit (Hstar & Hn & j & Hj & ->). set (num := to_string (Z.of_nat (length args))).
  assert (He : enc_command args = ["*"%char] ++ num ++ crlf ++ enc_bulks args).
  { unfold enc_command, enc_header. rewrite enc_line_eq. fold num. by rewrite <- !app_assoc. }
  assert (Hf := first_crlf_after ["*"%char] num (enc_bulks args) (to_string_no_CR _)). rewrite <- He in Hf. cbn [length] in Hf.
  apply (first_crlf_app _ missing) in Hj as Hj'. rewrite <- Hd in Hj'.
  rewrite (first_crlf_unique _ _ _ _ Hj' Hf) in Hj |- *. pose proof Hj as (_ & Hlt%crlf_at_lt & _).
  rewrite <- (slice_app_l data missing) by lia. rewrite <- Hd, He. change 1 with (length ["*"%char]) at 1.
  rewrite slice_app_r. replace (1 + length num - 1) with (length num) by lia. rewrite take_app_length.
  apply atoi_to_string. pose proof (length_args_fits args [] ltac:(by rewrite app_nil_r)). unfold in_s32. lia.
Qed.

(** A strict prefix of a request is no command. *)
Lemma parse_prefix_none b data args missing :
  represents b data → enc_command args = data ++ missing → missing ≠ [] →
  fits_int (enc_command args) → grants (Z.of_nat (length args)) = true → parse grants b = Ok (None, b).
Proof.
  intros Hb Hd Hm Hfit Hg. pose proof Hfit as Hfit'. rewrite Hd in Hfit'.
  pose proof (parse_frame_safe _ (fits_int_app_l _ _ Hfit')) as Hs.
  destruct (parse_frame data) as [[[args1 n]|]|f] eqn:Hr; [exfalso|by eapply parse_none|exfalso].
  - apply (parse_frame_app _ missing) in Hr; [|done].
    pose proof (parse_frame_enc args []) as He. rewrite app_nil_r, Hd in He.
    specialize (He Hfit' Hg). rewrite Hr in He. injection He as _ ->.
    destruct missing; [done|]. rewrite length_app in Hs. simpl in Hs. lia.
  - destruct Hs as (_ & n & Hn & Hno). rewrite (announces_prefix data missing args n Hd Hfit Hn) in Hno. congruence.
Qed.

(** ** Properties *)

(** C19: reading back a request.  When the readable bytes start with the RESP
    form of an argument vector (any bytes in the arguments, CR and LF
    included), [parse] returns exactly that vector and leaves exactly the bytes
    after it, so pipelined requests come out one by one; the allocator has to
    grant room for as many strings as the request has. *)
Theorem parse_roundtrip (b : Buffer) (args : list bytes) (rest : bytes) :
  wf b → readable b = enc_command args ++ rest →
  (Z.of_nat (length (readable b)) ≤ 2 ^ 31)%Z → grants (Z.of_nat (length args)) = true →
  parse grants b ⇓ λ '(r, b'), r = Some args ∧ wf b' ∧ readable b' = rest.
Proof.
  intros Hwf Hd Hfit Hg. eapply returns_mono.
  - apply (parse_enc b args rest); [by split|by rewrite <- Hd|done].
  - by intros [r b'] [-> [? ?]].
Qed.

(** C28: the parser is memory safe and makes progress.  On any bytes at all it
    reads only inside the readable region, never trips an assertion of
    [Buffer], leaves the buffer untouched when it returns no command, and cuts
    at least one byte off the front when it returns one.  It can end without a
    result in one way only: the input announces a number of strings for which
    the allocator has no room. *)
Theorem parse_safe (b : Buffer) :
  wf b → (Z.of_nat (length (readable b)) ≤ 2 ^ 31)%Z →
  match parse grants b with
  | Ok (r, b') => wf b' ∧
      match r with
      | None => b' = b
      | Some _ => ∃ frame, frame ≠ [] ∧ readable b = frame ++ readable b'
      end
  | Fault f => f = BadAlloc ∧ ∃ n, announces (readable b) n ∧ grants n = false
  end.
Proof. apply parse_total. Qed.

(** C29: more input never changes a parsed command.  If a command comes out of
    the bytes received so far, the same command comes out when more bytes have
    arrived behind them, and the extra bytes are all still there. *)
Theorem parse_stable (b b2 : Buffer) (args : list bytes) (b' : Buffer) (more : bytes) :
  wf b → wf b2 → readable b2 = readable b ++ more →
  (Z.of_nat (length (readable b2)) ≤ 2 ^ 31)%Z →
  parse grants b = Ok (Some args, b') →
  parse grants b2 ⇓ λ '(r, b2'), r = Some args ∧ wf b2' ∧ readable b2' = readable b' ++ more.
Proof.
  intros Hwf Hwf2 Hd Hfit Hp. rewrite Hd in Hfit.
  pose proof (parse_frame_safe _ (fits_int_app_l _ _ Hfit)) as Hn.
  destruct (parse_frame (readable b)) as [[[args1 n]|]|f] eqn:Hr.
  2:{ rewrite (parse_none b (readable b)) in Hp by done. done. }
  2:{ rewrite parse_eq, Hr in Hp by done. done. }
  pose proof (parse_some b _ _ _ (conj Hwf eq_refl) Hr (proj2 Hn)) as Hb.
  rewrite Hp in Hb. destruct Hb as [[= ->] [_ Hb']].
  eapply returns_mono.
  - eapply parse_some; [by split|by apply parse_frame_app|]. rewrite length_app. lia.
  - intros [r b2'] [-> [? ->]]. by rewrite Hb', drop_app_le by lia.
Qed.

(** A request cut short is incomplete, not misread.  Every strict prefix
    of a request yields no command and leaves the buffer as it is, so the
    bytes wait for the rest. *)
Theorem parse_incomplete (b : Buffer) (args : list bytes) (missing : bytes) :
  wf b → enc_command args = readable b ++ missing → missing ≠ [] →
  (Z.of_nat (length (enc_command args)) ≤ 2 ^ 31)%Z → grants (Z.of_nat (length args)) = true →
  parse grants b = Ok (None, b).
Proof. intros Hwf Hd. apply (parse_prefix_none b (readable b) args missing); [by split|done]. Qed.

(** Inline commands.  A line that does not start with an asterisk is split
    into its words, as the one-pass reference [words] does, whatever the number
    of spaces before, between and after them. *)
Theorem parse_inline (b : Buffer) (line rest : bytes) :
  wf b → readable b = line ++ crlf ++ rest → CR ∉ line → head line ≠ Some "*"%char →
  (Z.of_nat (length (readable b)) ≤ 2 ^ 31)%Z →
  parse grants b ⇓ λ '(r, b'), r = Some (words line) ∧ wf b' ∧ readable b' = rest.
Proof.
  intros Hwf Hd Hcr Hstar Hfit. pose proof (first_crlf_after [] line rest Hcr) as Hf.
  cbn [app length Nat.add] in Hf. rewrite <- Hd in Hf.
  assert (Hfr : parse_frame (readable b) = Ok (Some (words line, length line + 2))).
  { assert (Hin : parse_frame (readable b) = parseInline (readable b) (length (readable b))).
    { rewrite Hd. destruct line as [|c l]; [done|]. unfold parse_frame. cbn [app].
      by rewrite decide_False by (intros ->; done). }
    rewrite Hin. unfold parseInline. rewrite (findCRLF_found _ _ _ Hfit Hf), bind_ok.
    replace (Z.of_nat _ <? 0)%Z with false by lia.
    rewrite substr_ok, bind_ok by (rewrite Hd, length_app; lia).
    rewrite Hd, slice_0_app, splitSpaces_words, bind_ok by done. by rewrite Nat2Z.id. }
  eapply returns_mono.
  - eapply (parse_some b (readable b)); [by split|exact Hfr|]. rewrite Hd, !length_app. simpl. lia.
  - intros [r b'] [-> [? ->]]. split; [done|]. split; [done|].
    rewrite Hd, app_assoc. by rewrite drop_app_length' by (rewrite length_app; done).
Qed.

(** A protocol error wedges the connection.  When an array header announces
    at least one element and the next byte is not a dollar sign, [parse]
    returns no command and consumes nothing, whatever follows: the comment
    speaks of recovering, but the same bytes stay at the front for ever. *)
Theorem parse_bad_element_stuck (b : Buffer) (n : Z) (c : ascii) (rest : bytes) :
  wf b → readable b = enc_header n ++ c :: rest → (0 < n < 2 ^ 31)%Z → c ≠ "$"%char →
  (Z.of_nat (length (readable b)) ≤ 2 ^ 31)%Z → grants n = true →
  parse grants b = Ok (None, b).
Proof.
  intros Hwf Hd Hn Hc Hfit Hg. apply (parse_none b (readable b)); [by split|].
  assert (Hd1 : readable b = ["*"%char] ++ to_string n ++ crlf ++ (c :: rest)).
  { rewrite Hd. unfold enc_header. by rewrite enc_line_eq, <- !app_assoc. }
  pose proof (first_crlf_after ["*"%char] (to_string n) (c :: rest) (to_string_no_CR n)) as Hf.
  rewrite <- Hd1 in Hf. cbn [length] in Hf. pose proof Hf as (_ & Hlt%crlf_at_lt & _).
  assert (Hfr : parse_frame (readable b) = parseArray grants (readable b) (length (readable b))).
  { by rewrite Hd1. }
  rewrite Hfr. unfold parseArray. rewrite (findCRLF_found _ _ _ Hfit Hf), bind_ok.
  replace (Z.of_nat _ <? 0)%Z with false by lia. change 1%Z with (Z.of_nat 1).
  rewrite (wrap_u64_sub (readable b)) by (done || lia). rewrite substr_ok, bind_ok by lia.
  replace (slice 1 _ (readable b)) with (to_string n).
  2:{ rewrite Hd1. change 1 with (length ["*"%char]).
      rewrite slice_app_r. rewrite Nat.add_comm, Nat.add_sub. by rewrite take_app_length. }
  cbv zeta. rewrite atoi_to_string by (unfold in_s32; lia).
  replace (n <? 0)%Z with false by lia. rewrite reserve_ok, bind_ok by auto.
  destruct (Z.to_nat n) as [|n'] eqn:En; [lia|]. cbn [parseBulks].
  assert (Hat : readable b !! (Z.to_nat (Z.of_nat (1 + length (to_string n))) + 2) = Some c).
  { rewrite Nat2Z.id, Hd. replace (1 + length (to_string n) + 2) with (length (enc_header n) + 0).
    - by rewrite lookup_app_plus.
    - unfold enc_header. rewrite enc_line_eq, !length_app. simpl. lia. }
  unfold parseBulk. rewrite bool_decide_false by (apply lookup_lt_Some in Hat; lia).
  by rewrite (vec_get_ok _ _ _ Hat), bind_ok, decide_True.
Qed.


End entry.

(** ** Witnesses *)

(** A buffer holding [s] and nothing else. *)
Definition buffer_of (s : bytes) : Buffer := mkBuffer s 0 (length s).

Definition plenty (n : Z) : bool := true.

Definition ping : list bytes := [lit "PING"; CR :: lit "x"].

Lemma parse_roundtrip_witness :
  parse plenty (buffer_of (enc_command ping ++ lit "*1"))
    ⇓ λ '(r, b'), r = Some ping ∧ wf b' ∧ readable b' = lit "*1".
Proof. apply parse_roundtrip; [split; vm_compute; lia | reflexivity | vm_compute; done | reflexivity]. Defined.

(** A header that asks for more strings than there is room for: 13 bytes. *)
Definition huge : bytes := lit "*2147483647" ++ crlf.
Definition a_gigabyte (n : Z) : bool := (n <=? 2 ^ 25)%Z.

Lemma parse_safe_witness :
  parse a_gigabyte (buffer_of huge) = Fault BadAlloc ∧
  match parse a_gigabyte (buffer_of huge) with
  | Ok (r, b') => wf b' ∧
      match r with
      | None => b' = buffer_of huge
      | Some _ => ∃ frame, frame ≠ [] ∧ readable (buffer_of huge) = frame ++ readable b'
      end
  | Fault f => f = BadAlloc ∧ ∃ n, announces (readable (buffer_of huge)) n ∧ a_gigabyte n = false
  end.
Proof.
  split; [vm_compute; reflexivity|]. apply (parse_safe a_gigabyte (buffer_of huge)); [split; vm_compute; lia | vm_compute; done].
Defined.

Lemma parse_stable_witness :
  parse plenty (buffer_of (enc_command ping ++ lit "*1"))
    ⇓ λ '(r, b'), r = Some ping ∧ wf b' ∧
        readable b' = readable (mkBuffer (enc_command ping) 0 0) ++ lit "*1".
Proof.
  apply (parse_stable plenty (buffer_of (enc_command ping))); [split; vm_compute; lia.. | | |].
  - reflexivity.
  - vm_compute; done.
  - vm_compute. reflexivity.
Defined.

Lemma parse_incomplete_witness :
  parse plenty (buffer_of (lit "*1" ++ crlf ++ lit "$4" ++ crlf ++ lit "PI")) =
    Ok (None, buffer_of (lit "*1" ++ crlf ++ lit "$4" ++ crlf ++ lit "PI")).
Proof.
  apply (parse_incomplete plenty _ [lit "PING"] (lit "NG" ++ crlf));
    [split; vm_compute; lia | vm_compute; reflexivity | done | vm_compute; done | reflexivity].
Defined.

Lemma parse_inline_witness :
  parse plenty (buffer_of (lit " SET  a 1 " ++ crlf ++ lit "x"))
    ⇓ λ '(r, b'), r = Some (words (lit " SET  a 1 ")) ∧ wf b' ∧ readable b' = lit "x".
Proof.
  apply parse_inline; [split; vm_compute; lia | reflexivity | | done | vm_compute; done].
  apply (bool_decide_unpack _). vm_compute. done.
Defined.

Lemma parse_bad_element_stuck_witness :
  parse plenty (buffer_of (enc_header 1 ++ lit ":5")) = Ok (None, buffer_of (enc_header 1 ++ lit ":5")).
Proof.
  apply (parse_bad_element_stuck plenty _ 1 ":" (lit "5"));
    [split; vm_compute; lia | reflexivity | lia | done | vm_compute; done | reflexivity].
Defined.

End RespParser.
