(* ===== verification/StoreTTLHeap.v ===== *)
(** * [store/TTLHeap]: the deadline min-heap

    Class [TTLHeap] (src/store/TTLHeap.h, TTLHeap.cpp): a binary min-heap of
    (key, deadline) entries in a vector, with a map from each key to its
    position.  Every vector access is checked, every [assert] of the source is
    kept, and the loops carry fuel, so that [m ⇓ P] below also says that the
    operation stays in bounds, passes its assertions and terminates.  The
    abstract state is [deadlines]: a finite map from keys to deadlines. *)
From Stdlib Require Import Ascii String ZArith Lia ZifyNat ZifyBool.
From stdpp Require Import base option list strings gmap sorting.
From S2P Require Import Prelude.

Module TTLHeap.

Record HeapEntry := mkEntry { key : bytes; expireAtMs : Z }.

#[export] Instance HeapEntry_eq_dec : EqDecision HeapEntry.
Proof. solve_decision. Defined.

Record TTLHeap := mkHeap {
  heap_ : list HeapEntry;
  keyToIndex_ : gmap bytes nat
}.

Definition empty_heap : TTLHeap := mkHeap [] ∅.

Definition swapEntries (h : TTLHeap) (a b : nat) : result TTLHeap :=
  x ← vec_get (heap_ h) a;
  y ← vec_get (heap_ h) b;
  let v := <[a := y]> (<[b := x]> (heap_ h)) in
  mret (mkHeap v (<[key x := b]> (<[key y := a]> (keyToIndex_ h)))).

(** One parent per iteration, so [idx] iterations are enough. *)
Fixpoint siftUp_loop (fuel : nat) (h : TTLHeap) (idx : nat) : result TTLHeap :=
  if bool_decide (0 < idx) then
    match fuel with
    | O => Fault OutOfFuel
    | S fuel' =>
        let parent := (idx - 1) / 2 in
        e ← vec_get (heap_ h) idx;
        p ← vec_get (heap_ h) parent;
        if (expireAtMs p <=? expireAtMs e)%Z then mret h
        else h' ← swapEntries h idx parent; siftUp_loop fuel' h' parent
    end
  else mret h.

Definition siftUp (h : TTLHeap) (idx : nat) : result TTLHeap := siftUp_loop idx h idx.

(** [if (c < heap_.size() && heap_[c] < heap_[smallest]) smallest = c;] *)
Definition smaller (h : TTLHeap) (smallest c : nat) : result nat :=
  if bool_decide (c < length (heap_ h)) then
    ec ← vec_get (heap_ h) c;
    es ← vec_get (heap_ h) smallest;
    mret (if (expireAtMs ec <? expireAtMs es)%Z then c else smallest)
  else mret smallest.

(** The index at least doubles, so [heap_.size()] iterations are enough. *)
Fixpoint siftDown_loop (fuel : nat) (h : TTLHeap) (idx : nat) : result TTLHeap :=
  match fuel with
  | O => Fault OutOfFuel
  | S fuel' =>
      let left := 2 * idx + 1 in
      let right := 2 * idx + 2 in
      s1 ← smaller h idx left;
      smallest ← smaller h s1 right;
      if bool_decide (smallest = idx) then mret h
      else h' ← swapEntries h idx smallest; siftDown_loop fuel' h' smallest
  end.

Definition siftDown (h : TTLHeap) (idx : nat) : result TTLHeap :=
  siftDown_loop (S (length (heap_ h))) h idx.

(** INV-3: [assert(heap_.size() == keyToIndex_.size())]. *)
Definition assert_sizes (h : TTLHeap) : result TTLHeap :=
  _ ← assert (bool_decide (length (heap_ h) = size (keyToIndex_ h)));
  mret h.

(** The body of [push] for a key that is not in the heap. *)
Definition pushNew (h : TTLHeap) (k : bytes) (expireAt : Z) : result TTLHeap :=
  let v := heap_ h ++ [mkEntry k expireAt] in
  let idx := length v - 1 in
  h1 ← siftUp (mkHeap v (<[k := idx]> (keyToIndex_ h))) idx;
  assert_sizes h1.

(** The body of [update] for a key at position [idx]. *)
Definition updateAt (h : TTLHeap) (idx : nat) (newExpireAt : Z) : result TTLHeap :=
  e ← vec_get (heap_ h) idx;
  let h1 := mkHeap (<[idx := mkEntry (key e) newExpireAt]> (heap_ h)) (keyToIndex_ h) in
  h2 ← siftUp h1 idx;
  h3 ← siftDown h2 idx;
  assert_sizes h3.

(** [push] and [update] call each other: each hands a key it is not meant for
    to the other, whose lookup then takes the branch of its own body. *)
Definition push (h : TTLHeap) (k : bytes) (expireAt : Z) : result TTLHeap :=
  match keyToIndex_ h !! k with
  | Some idx => updateAt h idx expireAt
  | None => pushNew h k expireAt
  end.

Definition update (h : TTLHeap) (k : bytes) (newExpireAt : Z) : result TTLHeap :=
  match keyToIndex_ h !! k with
  | None => pushNew h k newExpireAt
  | Some idx => updateAt h idx newExpireAt
  end.

(** [keyToIndex_.erase(heap_.back().key); heap_.pop_back();] *)
Definition popBack (h : TTLHeap) : result TTLHeap :=
  match last (heap_ h) with
  | Some e => mret (mkHeap (take (length (heap_ h) - 1) (heap_ h)) (delete (key e) (keyToIndex_ h)))
  | None => Fault OutOfBounds
  end.

Definition remove (h : TTLHeap) (k : bytes) : result TTLHeap :=
  match keyToIndex_ h !! k with
  | None => mret h
  | Some idx =>
      let lastIdx := length (heap_ h) - 1 in
      h1 ← (if bool_decide (idx ≠ lastIdx) then swapEntries h idx lastIdx else mret h);
      h2 ← popBack h1;
      h3 ← (if bool_decide (idx < length (heap_ h2))
            then h' ← siftDown h2 idx; siftUp h' idx
            else mret h2);
      assert_sizes h3
  end.

(** One round of the loop of [popExpired]: take the root out. *)
Definition popRoot (h : TTLHeap) : result TTLHeap :=
  let lastIdx := length (heap_ h) - 1 in
  h1 ← (if bool_decide (0 < lastIdx) then swapEntries h 0 lastIdx else mret h);
  h2 ← popBack h1;
  if bool_decide (heap_ h2 ≠ []) then siftDown h2 0 else mret h2.

Fixpoint popExpired_loop (n : nat) (h : TTLHeap) (nowMs : Z) (expired : list bytes)
    : result (list bytes * TTLHeap) :=
  match n with
  | O => mret (expired, h)
  | S n' =>
      match heap_ h with
      | [] => mret (expired, h)
      | root :: _ =>
          if (nowMs <? expireAtMs root)%Z then mret (expired, h)
          else h' ← popRoot h; popExpired_loop n' h' nowMs (expired ++ [key root])
      end
  end.

(** [maxWork] bounds the number of rounds (INV-8). *)
Definition popExpired (h : TTLHeap) (nowMs maxWork : Z) : result (list bytes * TTLHeap) :=
  '(expired, h1) ← popExpired_loop (Z.to_nat maxWork) h nowMs [];
  h2 ← assert_sizes h1;
  mret (expired, h2).

Definition empty (h : TTLHeap) : bool := bool_decide (heap_ h = []).
Definition size_of (h : TTLHeap) : nat := length (heap_ h).

(** ** Invariant and abstraction *)

Definition par (i : nat) : nat := (i - 1) / 2.

Definition le_at (l : list HeapEntry) (i j : nat) : Prop :=
  ∀ x y, l !! i = Some x → l !! j = Some y → (expireAtMs x ≤ expireAtMs y)%Z.

(** INV-1: no entry is due before its parent. *)
Definition heap_ok (l : list HeapEntry) : Prop := ∀ i, 0 < i → le_at l (par i) i.

(** INV-2 and INV-4: the map holds exactly the position of every key. *)
Definition index_ok (h : TTLHeap) : Prop :=
  ∀ k i, keyToIndex_ h !! k = Some i ↔ ∃ e, heap_ h !! i = Some e ∧ key e = k.

Definition wf (h : TTLHeap) : Prop := index_ok h ∧ heap_ok (heap_ h).

Definition deadlines (h : TTLHeap) : gmap bytes Z :=
  list_to_map ((λ e, (key e, expireAtMs e)) <$> heap_ h).

Lemma par_lt i : 0 < i → par i < i.
Proof. intros. unfold par. apply Nat.Div0.div_lt_upper_bound. lia. Qed.

(** The two children of [i] are the positions whose parent is [i]. *)
Lemma par_child i j : 0 < j → par j = i ↔ j = 2 * i + 1 ∨ j = 2 * i + 2.
Proof.
  intros Hj. unfold par. pose proof (Nat.div_mod_eq (j - 1) 2).
  pose proof (Nat.mod_upper_bound (j - 1) 2). lia.
Qed.

Lemma index_ok_unique h i j e f :
  index_ok h → heap_ h !! i = Some e → heap_ h !! j = Some f → key e = key f → i = j.
Proof.
  intros Hidx Hi Hj Hk.
  assert (keyToIndex_ h !! key e = Some i) by (apply Hidx; eauto).
  assert (keyToIndex_ h !! key e = Some j) by (apply Hidx; eauto). congruence.
Qed.

Lemma keys_NoDup h : index_ok h → NoDup (key <$> heap_ h).
Proof.
  intros Hidx. apply NoDup_alt. intros i j k.
  rewrite !list_lookup_fmap. intros (e & He & ->)%fmap_Some (f & Hf & Hk)%fmap_Some.
  by eapply index_ok_unique.
Qed.

Lemma deadlines_lookup h k d :
  index_ok h → deadlines h !! k = Some d ↔ mkEntry k d ∈ heap_ h.
Proof.
  intros Hidx. unfold deadlines. rewrite <- elem_of_list_to_map.
  - rewrite list_elem_of_fmap. split.
    + by intros ([k' d'] & [= -> ->] & ?).
    + intros ?. by exists (mkEntry k d).
  - rewrite <- list_fmap_compose. by apply keys_NoDup.
Qed.

(** Two heaps with the same entries have the same deadlines. *)
Lemma deadlines_ext h1 h2 :
  index_ok h1 → index_ok h2 → (∀ e, e ∈ heap_ h1 ↔ e ∈ heap_ h2) →
  deadlines h1 = deadlines h2.
Proof.
  intros H1 H2 He. apply map_eq. intros k. apply option_eq. intros d.
  by rewrite !deadlines_lookup, He.
Qed.

Lemma index_size h : index_ok h → size (keyToIndex_ h) = length (heap_ h).
Proof.
  intros Hidx. rewrite <- (size_dom (D := gset bytes)).
  assert (Hd : dom (keyToIndex_ h) = list_to_set (key <$> heap_ h)).
  { apply set_eq. intros k. rewrite elem_of_dom, elem_of_list_to_set, list_elem_of_fmap. split.
    - intros [i Hi]. apply Hidx in Hi as (e & He & <-). exists e. split; [done|].
      by eapply list_elem_of_lookup_2.
    - intros (e & -> & [i Hi]%list_elem_of_lookup). exists i. apply Hidx. eauto. }
  rewrite Hd, size_list_to_set by by apply keys_NoDup. by rewrite length_fmap.
Qed.

Lemma assert_sizes_ok h : index_ok h → assert_sizes h = Ok h.
Proof.
  intros Hidx. unfold assert_sizes. by rewrite assert_decide by by rewrite index_size.
Qed.
(** ** Swapping and sifting *)

(** [h'] holds the entries of [h] in another order, and its map is right. *)
Definition shuffled (h h' : TTLHeap) : Prop :=
  index_ok h' ∧ length (heap_ h') = length (heap_ h) ∧
  ∀ e, e ∈ heap_ h' ↔ e ∈ heap_ h.

Lemma shuffled_refl h : index_ok h → shuffled h h.
Proof. done. Qed.

Lemma shuffled_trans h1 h2 h3 : shuffled h1 h2 → shuffled h2 h3 → shuffled h1 h3.
Proof.
  intros (_ & Hl & He) (Hi' & Hl' & He'). split; [done|]. split; [congruence|].
  intros e. by rewrite He', He.
Qed.

Lemma shuffled_deadlines h h' : index_ok h → shuffled h h' → deadlines h' = deadlines h.
Proof. intros Hi (Hi' & _ & He). by apply deadlines_ext. Qed.

Lemma lookup_swap (l : list HeapEntry) a b x y j :
  l !! a = Some x → l !! b = Some y →
  <[a := y]> (<[b := x]> l) !! j =
    if decide (j = a) then Some y else if decide (j = b) then Some x else l !! j.
Proof.
  intros Ha%lookup_lt_Some Hb%lookup_lt_Some.
  destruct (decide (j = a)) as [->|].
  { rewrite list_lookup_insert_eq; [done|]. by rewrite length_insert. }
  rewrite list_lookup_insert_ne by done. destruct (decide (j = b)) as [->|].
  - by apply list_lookup_insert_eq.
  - by rewrite list_lookup_insert_ne.
Qed.

Lemma swapEntries_ok h a b :
  index_ok h → a ≠ b → a < length (heap_ h) → b < length (heap_ h) →
  swapEntries h a b ⇓ λ h', shuffled h h' ∧
    (∃ x y, heap_ h !! a = Some x ∧ heap_ h !! b = Some y ∧
      ∀ j, heap_ h' !! j =
        if decide (j = a) then Some y else if decide (j = b) then Some x else heap_ h !! j).
Proof.
  intros Hidx Hab [x Hx]%lookup_lt_is_Some [y Hy]%lookup_lt_is_Some. unfold swapEntries.
  rewrite (vec_get_ok _ _ _ Hx), (vec_get_ok _ _ _ Hy), !bind_ok. apply returns_ok.
  pose proof (λ j, lookup_swap (heap_ h) a b x y j Hx Hy) as Hl.
  split; [|by exists x, y]. split; [|split].
  - intros k i. simpl. rewrite Hl.
    assert (Hu : ∀ j e, heap_ h !! j = Some e →
      (key e = key x → j = a) ∧ (key e = key y → j = b)).
    { intros j e He. split; intros; by eapply index_ok_unique. }
    assert (Hxy : key x ≠ key y) by (intros E; by eapply Hab, index_ok_unique).
    rewrite !lookup_insert. pose proof (Hidx k i) as Hk.
    repeat case_decide; simplify_eq; naive_solver.
  - simpl. by rewrite !length_insert.
  - intros e. simpl. rewrite !list_elem_of_lookup. split; intros [j Hj].
    + rewrite Hl in Hj. repeat case_decide; naive_solver.
    + destruct (decide (j = a)); [exists b|destruct (decide (j = b)); [exists a|exists j]];
        rewrite Hl; repeat case_decide; congruence.
Qed.

(** Order everywhere except around one position: [hp_up] leaves open the pair
    of [idx] with its parent, [hp_down] the pairs of [idx] with its children,
    [hp_mid] both.  All three know that the children of [idx] are not due
    before its parent. *)
Definition bridged (l : list HeapEntry) (idx : nat) : Prop :=
  ∀ i, 0 < i → par i = idx → 0 < idx → le_at l (par idx) i.
Definition hp_up (l : list HeapEntry) (idx : nat) : Prop :=
  (∀ i, 0 < i → i ≠ idx → le_at l (par i) i) ∧ bridged l idx.
Definition hp_down (l : list HeapEntry) (idx : nat) : Prop :=
  (∀ i, 0 < i → par i ≠ idx → le_at l (par i) i) ∧ bridged l idx.
Definition hp_mid (l : list HeapEntry) (idx : nat) : Prop :=
  (∀ i, 0 < i → i ≠ idx → par i ≠ idx → le_at l (par i) i) ∧ bridged l idx.

Lemma le_at_trans l i j k : is_Some (l !! j) → le_at l i j → le_at l j k → le_at l i k.
Proof. intros [y Hy] H1 H2 x z Hx Hz. specialize (H1 x y Hx Hy). specialize (H2 y z Hy Hz). lia. Qed.

Lemma parent_is_Some (l : list HeapEntry) i : is_Some (l !! i) → is_Some (l !! par i).
Proof.
  rewrite !lookup_lt_is_Some. intros. destruct (decide (i = 0)) as [->|]; [done|].
  pose proof (par_lt i). lia.
Qed.

Lemma heap_ok_bridged l idx : heap_ok l → bridged l idx.
Proof.
  intros Hh i Hi <- Hp x y Hx Hy. destruct (parent_is_Some l i) as [z Hz]; [by eauto|].
  pose proof (Hh i Hi _ _ Hz Hy). pose proof (Hh (par i) Hp _ _ Hx Hz). lia.
Qed.

Lemma heap_ok_up l idx : heap_ok l → hp_up l idx.
Proof. intros H. split; [auto|]. by apply heap_ok_bridged. Qed.
Lemma heap_ok_down l idx : heap_ok l → hp_down l idx.
Proof. intros H. split; [auto|]. by apply heap_ok_bridged. Qed.
Lemma hp_up_mid l idx : hp_up l idx → hp_mid l idx.
Proof. intros [H ?]. split; [auto|done]. Qed.
Lemma hp_down_mid l idx : hp_down l idx → hp_mid l idx.
Proof. intros [H ?]. split; [auto|done]. Qed.

Lemma hp_up_ok l idx : hp_up l idx → (0 < idx → le_at l (par idx) idx) → heap_ok l.
Proof. intros [H _] Hi i Hi0. destruct (decide (i = idx)) as [->|]; auto. Qed.

Lemma hp_mid_down l idx : hp_mid l idx → (0 < idx → le_at l (par idx) idx) → hp_down l idx.
Proof.
  intros [H ?] Hi. split; [|done]. intros i Hi0 Hp.
  destruct (decide (i = idx)) as [->|]; auto.
Qed.

Lemma hp_mid_up l idx :
  hp_mid l idx → (∀ i, 0 < i → par i = idx → le_at l idx i) → hp_up l idx.
Proof.
  intros [H ?] Hc. split; [|done]. intros i Hi0 Hne.
  destruct (decide (par i = idx)) as [Hp|]; [rewrite Hp|]; auto.
Qed.

(** [l'] is [l] with the positions [a] and [b] exchanged. *)
Definition exchanged (l l' : list HeapEntry) (a b : nat) : Prop :=
  ∃ x y, l !! a = Some x ∧ l !! b = Some y ∧
    ∀ j, l' !! j = if decide (j = a) then Some y else if decide (j = b) then Some x else l !! j.

(** Exchanging [idx] with a parent that is due later leaves only the parent to
    be fixed. *)
Lemma exchange_up l l' idx :
  hp_mid l idx → 0 < idx → exchanged l l' idx (par idx) →
  ¬ le_at l (par idx) idx → hp_up l' (par idx).
Proof.
  intros [Hm Hb] Hidx (x & p & Hx & Hp & Hl) Hlt.
  assert (expireAtMs x < expireAtMs p)%Z as Hxp.
  { apply Z.nle_gt. intros ?. apply Hlt. intros ? ?. naive_solver. }
  assert (Hge : ∀ i y, 0 < i → par i = par idx → i ≠ idx → l !! i = Some y →
    (expireAtMs p ≤ expireAtMs y)%Z).
  { intros i y Hi Hpi Hne Hy. eapply (Hm i); rewrite ?Hpi; try done.
    pose proof (par_lt idx). lia. }
  pose proof (par_lt idx Hidx) as Hpl.
  split.
  - intros i Hi Hne u v. rewrite !Hl. pose proof (par_lt i Hi).
    destruct (decide (i = idx)) as [->|Hi1].
    { rewrite decide_False, decide_True by (done || lia). intros [= <-] [= <-]. lia. }
    rewrite (decide_False (P := i = par idx)) by done.
    destruct (decide (par i = idx)) as [Hpi|].
    { intros [= <-] Hv. by apply (Hb i Hi Hpi Hidx p v). }
    destruct (decide (par i = par idx)) as [Hpi|].
    { intros [= <-] Hv. specialize (Hge i v Hi Hpi Hi1 Hv). lia. }
    intros Hu Hv. by apply (Hm i).
  - intros i Hi Hpi Hp0 u v. rewrite !Hl. pose proof (par_lt (par idx) Hp0).
    rewrite (decide_False (P := par (par idx) = idx)), (decide_False (P := par (par idx) = par idx))
      by lia. intros Hu Hv.
    assert (expireAtMs u ≤ expireAtMs p)%Z as Hup.
    { eapply (Hm (par idx)); try done; lia. }
    destruct (decide (i = idx)) as [->|Hi1]; [naive_solver|].
    rewrite decide_False in Hv by (pose proof (par_lt i Hi); lia).
    specialize (Hge i v Hi Hpi Hi1 Hv). lia.
Qed.

Lemma siftUp_step fuel h idx (P : TTLHeap → Prop) :
  idx < length (heap_ h) →
  ((0 < idx → le_at (heap_ h) (par idx) idx) → P h) →
  (0 < idx → ¬ le_at (heap_ h) (par idx) idx →
    (h' ← swapEntries h idx (par idx); siftUp_loop fuel h' (par idx)) ⇓ P) →
  siftUp_loop (S fuel) h idx ⇓ P.
Proof.
  intros Hlt Hstop Hgo. cbn [siftUp_loop]. case_bool_decide as H0.
  2:{ apply returns_ok, Hstop. lia. }
  fold (par idx). pose proof (par_lt idx H0).
  run_with vec_get_lt; [done|]. intros e He. run_with vec_get_lt; [lia|]. intros p Hp.
  destruct (Z.leb_spec (expireAtMs p) (expireAtMs e)) as [Hle|Hgt].
  - apply returns_ok, Hstop. intros _ ? ?. naive_solver.
  - apply Hgo; [done|]. intros Hle. specialize (Hle _ _ Hp He). lia.
Qed.

Lemma siftUp_loop_ok fuel h idx :
  index_ok h → hp_up (heap_ h) idx → idx < length (heap_ h) → idx ≤ fuel →
  siftUp_loop fuel h idx ⇓ λ h', shuffled h h' ∧ heap_ok (heap_ h').
Proof.
  revert h idx. induction fuel as [|fuel IH]; intros h idx Hi Hup Hlt Hf.
  { assert (idx = 0) as -> by lia. apply returns_ok.
    split; [by apply shuffled_refl|]. apply (hp_up_ok _ 0); [done|lia]. }
  apply siftUp_step; [done|..].
  { intros Hle. split; [by apply shuffled_refl|]. by apply (hp_up_ok _ idx). }
  intros H0 Hnle. pose proof (par_lt idx H0).
  run_with swapEntries_ok; [done|lia..|]. intros h' [Hsh Hex].
  eapply returns_mono.
  - apply IH; [apply Hsh| |destruct Hsh as (_ & -> & _); lia|lia].
    apply (exchange_up (heap_ h)); [by apply hp_up_mid|done..].
  - intros h'' [Hsh' Hok]. split; [by eapply shuffled_trans|done].
Qed.

(** Exchanging [idx] with its earliest child [s] leaves only [s] to be fixed. *)
Lemma exchange_down l l' idx s :
  hp_mid l idx → 0 < s → par s = idx → exchanged l l' idx s →
  ¬ le_at l idx s → (∀ i, 0 < i → par i = idx → le_at l s i) → hp_down l' s.
Proof.
  intros [Hm Hb] Hs0 Hps (x & c & Hx & Hc & Hl) Hlt Hmin.
  assert (expireAtMs c < expireAtMs x)%Z as Hcx.
  { apply Z.nle_gt. intros ?. apply Hlt. intros ? ?. naive_solver. }
  pose proof (par_lt s Hs0) as Hsi. rewrite Hps in Hsi.
  split.
  - intros i Hi Hne u v. rewrite !Hl. pose proof (par_lt i Hi).
    rewrite (decide_False (P := par i = s)) by done.
    destruct (decide (i = idx)) as [->|Hi1].
    { rewrite (decide_False (P := par idx = idx)) by lia. intros Hu [= <-].
      by apply (Hb s Hs0 Hps Hi u c). }
    destruct (decide (par i = idx)) as [Hpi|].
    { intros [= <-]. destruct (decide (i = s)) as [->|]; [intros [= <-]; lia|].
      intros Hv. by apply (Hmin i Hi Hpi c v). }
    rewrite decide_False by congruence. intros Hu Hv. by apply (Hm i).
  - intros i Hi Hpi _ u v. rewrite !Hl, Hps, decide_True by done.
    pose proof (par_lt i Hi). rewrite !decide_False by lia. intros [= <-] Hv.
    apply (Hm i Hi); rewrite ?Hpi; (done || lia).
Qed.

Lemma smaller_ok h s c :
  s < length (heap_ h) →
  smaller h s c ⇓ λ r, r < length (heap_ h) ∧
    le_at (heap_ h) r s ∧ le_at (heap_ h) r c ∧
    (r = s ∨ r = c ∧ ¬ le_at (heap_ h) s c).
Proof.
  intros Hs. unfold smaller. case_bool_decide as Hc.
  - run_with vec_get_lt; [done|]. intros ec Hec. run_with vec_get_lt; [done|]. intros es Hes.
    apply returns_ok. unfold le_at. destruct (Z.ltb_spec (expireAtMs ec) (expireAtMs es)).
    + split; [done|]. rewrite Hec, Hes. repeat split; try (by naive_solver lia).
      right. split; [done|]. intros Hle. specialize (Hle es ec eq_refl eq_refl). lia.
    + split; [done|]. rewrite Hec, Hes. repeat split; try (by naive_solver lia).
  - apply returns_ok. split; [done|]. split; [intros ? ?; naive_solver|].
    split; [|by left]. intros ? y _ Hy%lookup_lt_Some. lia.
Qed.

(** What the two comparisons of one round of [siftDown] select. *)
Lemma smallest_ok h idx :
  idx < length (heap_ h) →
  (s1 ← smaller h idx (2 * idx + 1); smaller h s1 (2 * idx + 2)) ⇓ λ r,
    r < length (heap_ h) ∧
    (r = idx ∨ 0 < r ∧ par r = idx ∧ ¬ le_at (heap_ h) idx r) ∧
    ∀ i, 0 < i → par i = idx → le_at (heap_ h) r i.
Proof.
  intros Hidx. run_with smaller_ok; [done|]. intros s1 (Hs1 & H1 & H2 & H3).
  eapply returns_mono; [by apply smaller_ok|]. intros r (Hr & H4 & H5 & H6).
  assert (is_Some (heap_ h !! s1)) as Hsome by by apply lookup_lt_is_Some.
  split; [done|]. split.
  - destruct H6 as [->|[-> H6]].
    + destruct H3 as [->|[-> H3]]; [by left|]. right. split; [lia|]. split; [|done].
      apply par_child; lia.
    + right. split; [lia|]. split; [apply par_child; lia|]. intros Hle. apply H6.
      eapply le_at_trans; [|exact H1|done]. by apply lookup_lt_is_Some.
  - intros i Hi0 [->| ->]%par_child; [|done|done].
    eapply le_at_trans; [exact Hsome|done..].
Qed.

Lemma siftDown_step fuel h idx (P : TTLHeap → Prop) :
  idx < length (heap_ h) →
  ((∀ i, 0 < i → par i = idx → le_at (heap_ h) idx i) → P h) →
  (∀ s, s < length (heap_ h) → 0 < s → par s = idx → ¬ le_at (heap_ h) idx s →
    (∀ i, 0 < i → par i = idx → le_at (heap_ h) s i) →
    (h' ← swapEntries h idx s; siftDown_loop fuel h' s) ⇓ P) →
  siftDown_loop (S fuel) h idx ⇓ P.
Proof.
  intros Hidx Hstop Hgo. cbn [siftDown_loop].
  pose proof (smallest_ok h idx Hidx) as Hsm. apply returns_iff in Hsm as (r & Hr & Hlt & Hc & Hmin).
  apply bind_Ok_inv in Hr as (s1 & E1 & E2). rewrite E1, bind_ok, E2, bind_ok.
  case_bool_decide as Hri; [subst; by apply returns_ok, Hstop|].
  destruct Hc as [?|(? & ? & ?)]; [done|]. by apply Hgo.
Qed.

Lemma siftDown_loop_ok fuel h idx :
  index_ok h → hp_down (heap_ h) idx → idx < length (heap_ h) →
  length (heap_ h) ≤ fuel + idx →
  siftDown_loop fuel h idx ⇓ λ h', shuffled h h' ∧ heap_ok (heap_ h').
Proof.
  revert h idx. induction fuel as [|fuel IH]; intros h idx Hi Hd Hlt Hf; [lia|].
  apply siftDown_step; [done|..].
  - intros Hc. split; [by apply shuffled_refl|]. destruct Hd as [Hd _].
    intros i Hi0. destruct (decide (par i = idx)) as [Hp|]; [rewrite Hp|]; auto.
  - intros s Hs Hs0 Hp Hlt' Hmin. pose proof (par_lt s Hs0).
    run_with swapEntries_ok; [done|lia..|]. intros h' [Hsh Hex].
    eapply returns_mono.
    + apply IH; [apply Hsh| |destruct Hsh as (_ & -> & _); lia..].
      apply (exchange_down (heap_ h) _ idx); [by apply hp_down_mid|done..].
    + intros h'' [Hsh' Hok]. split; [by eapply shuffled_trans|done].
Qed.

(** [siftDown(idx); siftUp(idx)], as in [remove]: whatever entry stands at
    [idx], order is restored. *)
Lemma siftDown_siftUp_ok h idx :
  index_ok h → hp_mid (heap_ h) idx → idx < length (heap_ h) →
  (h' ← siftDown h idx; siftUp h' idx) ⇓ λ h', shuffled h h' ∧ heap_ok (heap_ h').
Proof.
  intros Hi Hm Hlt.
  eapply returns_bind with (P := λ h', shuffled h h' ∧ hp_up (heap_ h') idx).
  - apply siftDown_step; [done|..].
    + intros Hc. split; [by apply shuffled_refl|]. by apply hp_mid_up.
    + intros s Hs Hs0 Hp Hlt' Hmin. pose proof (par_lt s Hs0).
      run_with swapEntries_ok; [done|lia..|]. intros h' [Hsh Hex].
      eapply returns_mono.
      * apply siftDown_loop_ok; [apply Hsh| |destruct Hsh as (_ & -> & _); lia..].
        by apply (exchange_down (heap_ h) _ idx).
      * intros h'' [Hsh' Hok]. split; [by eapply shuffled_trans|]. by apply heap_ok_up.
  - intros h' [Hsh Hup]. eapply returns_mono.
    + apply siftUp_loop_ok; [apply Hsh|done|destruct Hsh as (_ & -> & _); done|done].
    + intros h'' [Hsh' Hok]. split; [by eapply shuffled_trans|done].
Qed.

(** [siftUp(idx); siftDown(idx)], as in [update]. *)
Lemma siftUp_siftDown_ok h idx :
  index_ok h → hp_mid (heap_ h) idx → idx < length (heap_ h) →
  (h' ← siftUp h idx; siftDown h' idx) ⇓ λ h', shuffled h h' ∧ heap_ok (heap_ h').
Proof.
  intros Hi Hm Hlt.
  eapply returns_bind with (P := λ h', shuffled h h' ∧ hp_down (heap_ h') idx).
  - unfold siftUp. destruct idx as [|i0].
    { apply returns_ok. split; [by apply shuffled_refl|]. apply hp_mid_down; [done|lia]. }
    apply siftUp_step; [done|..].
    { intros Hle. split; [by apply shuffled_refl|]. by apply hp_mid_down. }
    intros H0 Hnle. pose proof (par_lt (S i0) H0).
    run_with swapEntries_ok; [done|lia..|]. intros h' [Hsh Hex]. eapply returns_mono.
    + apply siftUp_loop_ok; [apply Hsh| |destruct Hsh as (_ & -> & _); lia|lia].
      by apply (exchange_up (heap_ h)).
    + intros h'' [Hsh' Hok]. split; [by eapply shuffled_trans|]. by apply heap_ok_down.
  - intros h' [Hsh Hd]. eapply returns_mono.
    + apply siftDown_loop_ok; [apply Hsh|done|destruct Hsh as (_ & -> & _); lia..].
    + intros h'' [Hsh' Hok]. split; [by eapply shuffled_trans|done].
Qed.

(** ** Operations on the deadline map *)

Lemma deadlines_eq (h : TTLHeap) (m : gmap bytes Z) :
  index_ok h → (∀ k d, mkEntry k d ∈ heap_ h ↔ m !! k = Some d) → deadlines h = m.
Proof.
  intros Hi Hm. apply map_eq. intros k. apply option_eq. intros d.
  by rewrite deadlines_lookup, Hm.
Qed.

Lemma keyToIndex_deadlines h k :
  index_ok h → keyToIndex_ h !! k = None ↔ deadlines h !! k = None.
Proof.
  intros Hi. rewrite !eq_None_not_Some. apply not_iff_compat. split.
  - intros [i Hk]. apply Hi in Hk as ([k' d] & He & <-). exists d.
    apply deadlines_lookup; [done|]. by eapply list_elem_of_lookup_2.
  - intros [d Hd]. apply deadlines_lookup, list_elem_of_lookup in Hd as [i He]; [|done].
    exists i. apply Hi. eauto.
Qed.

Lemma pushNew_ok h k d :
  wf h → keyToIndex_ h !! k = None →
  pushNew h k d ⇓ λ h', wf h' ∧ deadlines h' = <[k := d]> (deadlines h).
Proof.
  intros [Hi Hh] Hk. unfold pushNew. rewrite length_app. simpl length. rewrite Nat.add_sub.
  set (n := length (heap_ h)). set (h1 := mkHeap _ _).
  assert (Hl : ∀ j, heap_ h1 !! j = if decide (j = n) then Some (mkEntry k d) else heap_ h !! j).
  { intros j. simpl. case_decide as Hj; [subst; by apply list_lookup_middle|].
    destruct (decide (j < n)); [by rewrite lookup_app_l|].
    rewrite !lookup_ge_None_2; [done|fold n; lia|rewrite length_app; simpl; fold n; lia]. }
  assert (Hi1 : index_ok h1).
  { intros k' i. rewrite Hl. simpl. rewrite lookup_insert.
    assert (Hn : heap_ h !! n = None) by by apply lookup_ge_None_2.
    pose proof (Hi k' i) as Hki. repeat case_decide; simplify_eq; naive_solver. }
  assert (Hn1 : ∀ j x, heap_ h1 !! j = Some x → j ≤ n).
  { intros j x. rewrite Hl. case_decide; [lia|]. intros ?%lookup_lt_Some. fold n in H0. lia. }
  eapply returns_bind.
  - apply siftUp_loop_ok with (idx := n); [done| |simpl; rewrite length_app; simpl; lia|done].
    split.
    + intros i Hi0 Hne x y Hx Hy. pose proof (par_lt i Hi0). pose proof (Hn1 _ _ Hy).
      rewrite Hl, decide_False in Hx by lia. rewrite Hl, decide_False in Hy by lia. by eapply Hh.
    + intros i Hi0 Hpi _ x y _ Hy%Hn1. pose proof (par_lt i Hi0). lia.
  - intros h' [Hsh Hok]. rewrite assert_sizes_ok by apply Hsh. apply returns_ok.
    split; [split; [apply Hsh|done]|]. rewrite (shuffled_deadlines h1) by done.
    apply deadlines_eq; [done|]. intros k' d'. simpl.
    rewrite elem_of_app, list_elem_of_singleton, lookup_insert, <- deadlines_lookup by done.
    apply keyToIndex_deadlines in Hk; [|done]. case_decide; naive_solver.
Qed.

Lemma updateAt_ok h idx e d :
  wf h → heap_ h !! idx = Some e →
  updateAt h idx d ⇓ λ h', wf h' ∧ deadlines h' = <[key e := d]> (deadlines h).
Proof.
  intros [Hi Hh] He. pose proof (lookup_lt_Some _ _ _ He) as Hlt.
  unfold updateAt. rewrite (vec_get_ok _ _ _ He), bind_ok. cbv zeta. set (h1 := mkHeap _ _).
  assert (Hl : ∀ j, heap_ h1 !! j =
    if decide (j = idx) then Some (mkEntry (key e) d) else heap_ h !! j).
  { intros j. simpl. case_decide as Hj; [subst; by apply list_lookup_insert_eq|].
    by apply list_lookup_insert_ne. }
  assert (Hi1 : index_ok h1).
  { intros k' i. rewrite Hl. simpl. rewrite (Hi k' i). case_decide; naive_solver. }
  assert (Hm : hp_mid (heap_ h1) idx).
  { split.
    - intros i Hi0 Hne Hp x y. rewrite !Hl, !decide_False by done. by apply Hh.
    - intros i Hi0 Hp Hx0 x y. pose proof (par_lt i Hi0). pose proof (par_lt idx Hx0).
      rewrite !Hl, !decide_False by lia. by apply (heap_ok_bridged _ idx Hh i). }
  pose proof (siftUp_siftDown_ok h1 idx Hi1 Hm) as Hs.
  simpl in Hs. rewrite length_insert in Hs. specialize (Hs Hlt).
  apply returns_iff in Hs as (h3 & Hr & Hsh & Hok). apply bind_Ok_inv in Hr as (h2 & -> & Hr).
  rewrite bind_ok, Hr, bind_ok. rewrite assert_sizes_ok by apply Hsh. apply returns_ok.
  split; [split; [apply Hsh|done]|]. rewrite (shuffled_deadlines h1) by done.
  apply deadlines_eq; [done|]. intros k' d'. rewrite lookup_insert, list_elem_of_lookup.
  assert (Hu : ∀ j, heap_ h !! j = Some (mkEntry k' d') → key e = k' → j = idx).
  { intros j Hj Hk. by eapply (index_ok_unique h). }
  case_decide as Hk.
  - split; [|intros [= <-]; exists idx; by rewrite Hl, decide_True by done; subst].
    intros [j Hj]. rewrite Hl in Hj. case_decide; naive_solver.
  - rewrite deadlines_lookup, list_elem_of_lookup by done.
    split; intros [j Hj]; exists j; rewrite Hl in *; case_decide; naive_solver.
Qed.

Lemma popBack_ok h e :
  index_ok h → heap_ h !! (length (heap_ h) - 1) = Some e →
  popBack h ⇓ λ h', index_ok h' ∧ length (heap_ h') = length (heap_ h) - 1 ∧
    (∀ j, heap_ h' !! j = if decide (j < length (heap_ h) - 1) then heap_ h !! j else None) ∧
    (∀ x, x ∈ heap_ h' ↔ x ∈ heap_ h ∧ key x ≠ key e).
Proof.
  intros Hi He. unfold popBack. rewrite last_lookup.
  replace (pred (length (heap_ h))) with (length (heap_ h) - 1) by lia. rewrite He.
  apply returns_ok. cbn [heap_ keyToIndex_]. set (n := length (heap_ h) - 1) in *.
  assert (Hl : ∀ j, take n (heap_ h) !! j = if decide (j < n) then heap_ h !! j else None).
  { intros j. case_decide; [by apply lookup_take_lt|]. apply lookup_take_ge. lia. }
  pose proof (lookup_lt_Some _ _ _ He) as Hn.
  assert (Hu : ∀ j x, heap_ h !! j = Some x → j < n ↔ key x ≠ key e).
  { intros j x Hx. pose proof (lookup_lt_Some _ _ _ Hx). split.
    - intros Hj Hk. assert (j = n) by by eapply (index_ok_unique h). lia.
    - intros Hk. assert (j ≠ n) by congruence. lia. }
  split; [|split; [|split; [done|]]].
  - intros k' i. cbn [heap_ keyToIndex_]. rewrite Hl, lookup_delete. pose proof (Hi k' i) as Hki.
    repeat case_decide; naive_solver.
  - rewrite length_take. lia.
  - intros x. rewrite !list_elem_of_lookup. split.
    + intros [j Hj]. rewrite Hl in Hj. case_decide; [|done]. split; [eauto|]. by eapply Hu.
    + intros [[j Hj] Hk]. exists j. rewrite Hl, decide_True; [done|]. by eapply Hu.
Qed.

(** Moving entry [idx] to the back and popping it: only [idx] may now be out of
    order. *)
Lemma detach_ok h idx e (c : bool) :
  wf h → heap_ h !! idx = Some e → c = bool_decide (idx ≠ length (heap_ h) - 1) →
  (h1 ← (if c then swapEntries h idx (length (heap_ h) - 1) else mret h); popBack h1)
    ⇓ λ h2, index_ok h2 ∧ length (heap_ h2) = length (heap_ h) - 1 ∧ hp_mid (heap_ h2) idx ∧
      (∀ x, x ∈ heap_ h2 ↔ x ∈ heap_ h ∧ key x ≠ key e).
Proof.
  intros [Hi Hh] He ->. pose proof (lookup_lt_Some _ _ _ He) as Hlt.
  set (n := length (heap_ h) - 1).
  eapply returns_bind with (P := λ h1, shuffled h h1 ∧ heap_ h1 !! n = Some e ∧
    ∀ j, j < n → j ≠ idx → heap_ h1 !! j = heap_ h !! j).
  { case_bool_decide as Hne.
    - eapply returns_mono; [apply swapEntries_ok; [done|done|lia..]|].
      intros h1 [Hsh (x & y & Hx & Hy & Hl)]. split; [done|]. fold n in Hl |- *. split.
      + rewrite Hl, decide_False, decide_True by (done || lia). congruence.
      + intros j Hj Hji. rewrite Hl, !decide_False by (done || lia). done.
    - apply returns_ok. split; [done|]. split; [|done]. unfold n.
      by replace (length (heap_ h) - 1) with idx. }
  intros h1 (Hsh & Hn & Hl1). pose proof Hsh as (Hi1 & Hlen & Hel).
  eapply returns_mono; [apply popBack_ok; [done|by rewrite Hlen]|].
  rewrite Hlen. fold n. intros h2 (Hi2 & Hlen2 & Hl2 & Hel2).
  assert (Hl : ∀ j, j ≠ idx → heap_ h2 !! j = if decide (j < n) then heap_ h !! j else None).
  { intros j Hj. rewrite Hl2. case_decide; auto. }
  assert (Hsub : ∀ j x, j ≠ idx → heap_ h2 !! j = Some x → heap_ h !! j = Some x).
  { intros j x Hj. rewrite Hl by done. by case_decide. }
  split; [done|]. split; [done|]. split.
  - split.
    + intros i Hi0 Hne Hp x y Hx%Hsub Hy%Hsub; [|done..]. by eapply Hh.
    + intros i Hi0 Hp Hx0 x y Hx Hy. pose proof (par_lt i Hi0). pose proof (par_lt idx Hx0).
      apply Hsub in Hx, Hy; [|lia..]. by apply (heap_ok_bridged _ idx Hh i Hi0 Hp Hx0).
  - intros x. by rewrite Hel2, Hel.
Qed.

Lemma remove_ok h k :
  wf h → remove h k ⇓ λ h', wf h' ∧ deadlines h' = delete k (deadlines h).
Proof.
  intros Hwf. pose proof Hwf as [Hi Hh]. unfold remove.
  destruct (keyToIndex_ h !! k) as [idx|] eqn:Hk.
  2:{ apply returns_ok. split; [done|]. symmetry. apply delete_id. by apply keyToIndex_deadlines. }
  apply Hi in Hk as (e & He & <-).
  pose proof (detach_ok h idx e _ Hwf He eq_refl) as Hd.
  apply returns_iff in Hd as (h2 & Hr & Hi2 & Hlen & Hm & Hel).
  apply bind_Ok_inv in Hr as (h1 & -> & Hr). rewrite bind_ok, Hr, bind_ok.
  eapply returns_bind with (P := λ h3, shuffled h2 h3 ∧ heap_ok (heap_ h3)).
  - case_bool_decide as Hlt; [by apply siftDown_siftUp_ok|].
    apply returns_ok. split; [by apply shuffled_refl|]. destruct Hm as [Hm _].
    intros i Hi0 x y Hx Hy. pose proof (par_lt i Hi0).
    pose proof (lookup_lt_Some _ _ _ Hx). pose proof (lookup_lt_Some _ _ _ Hy).
    apply (Hm i); try done; lia.
  - intros h3 [Hsh Hok]. rewrite assert_sizes_ok by apply Hsh. apply returns_ok.
    split; [split; [apply Hsh|done]|]. rewrite (shuffled_deadlines h2) by done.
    apply deadlines_eq; [done|]. intros k' d'.
    rewrite Hel, lookup_delete, <- deadlines_lookup by done. simpl. case_decide; naive_solver.
Qed.

Lemma push_ok h k d :
  wf h → push h k d ⇓ λ h', wf h' ∧ deadlines h' = <[k := d]> (deadlines h).
Proof.
  intros Hwf. unfold push. destruct (keyToIndex_ h !! k) as [idx|] eqn:Hk.
  - apply Hwf in Hk as (e & He & <-). by apply updateAt_ok.
  - by apply pushNew_ok.
Qed.

Lemma update_ok h k d :
  wf h → update h k d ⇓ λ h', wf h' ∧ deadlines h' = <[k := d]> (deadlines h).
Proof.
  intros Hwf.
  unfold update. destruct (keyToIndex_ h !! k) as [idx|] eqn:Hk.
  - apply Hwf in Hk as (e & He & <-). by apply updateAt_ok.
  - by apply pushNew_ok.
Qed.

(** ** The root is the earliest deadline *)

Lemma root_minimal l r : heap_ok l → l !! 0 = Some r →
  ∀ i e, l !! i = Some e → (expireAtMs r ≤ expireAtMs e)%Z.
Proof.
  intros Hh H0 i. induction i as [i IH] using lt_wf_ind. intros e He.
  destruct (decide (i = 0)) as [->|Hi]; [naive_solver|].
  destruct (parent_is_Some l i) as [p Hp]; [by eauto|].
  pose proof (IH (par i) (par_lt i ltac:(lia)) p Hp). pose proof (Hh i ltac:(lia) _ _ Hp He). lia.
Qed.

Lemma popRoot_ok h root rest :
  wf h → heap_ h = root :: rest →
  popRoot h ⇓ λ h', wf h' ∧ deadlines h' = delete (key root) (deadlines h).
Proof.
  intros Hwf Hr. pose proof Hwf as [Hi Hh].
  assert (H0 : heap_ h !! 0 = Some root) by by rewrite Hr.
  unfold popRoot. set (n := length (heap_ h) - 1).
  pose proof (detach_ok h 0 root (bool_decide (0 < n)) Hwf H0) as Hd.
  assert (Hb : bool_decide (0 < n) = bool_decide (0 ≠ n)) by (apply bool_decide_ext; lia).
  specialize (Hd Hb). clear Hb. fold n in Hd. apply returns_iff in Hd as (h2 & Hs & Hi2 & Hlen & Hm & Hel).
  apply bind_Ok_inv in Hs as (h1 & -> & Hs). rewrite bind_ok, Hs, bind_ok.
  assert (Hdl : deadlines h2 = delete (key root) (deadlines h)).
  { apply deadlines_eq; [done|]. intros k d.
    rewrite Hel, lookup_delete_Some, deadlines_lookup by done. cbn [key].
    split; intros [? ?]; by split. }
  case_bool_decide as Hne.
  - eapply returns_mono.
    + apply siftDown_loop_ok; [done| |destruct (heap_ h2); simpl; [done|lia]|lia].
      apply hp_mid_down; [done|lia].
    + intros h3 [Hsh Hok]. split; [split; [apply Hsh|done]|]. by rewrite (shuffled_deadlines h2).
  - apply returns_ok. split; [|done]. split; [done|].
    rewrite Hne. by intros i Hi0 x y Hx.
Qed.

(** What one call takes out of the heap: [ks] with deadlines [ds], earliest
    first, none later than [now], and none later than any deadline left. *)
Definition popped (m m' : gmap bytes Z) (now : Z) (ks : list bytes) : Prop :=
  NoDup ks ∧ m' = filter (λ kd, kd.1 ∉ ks) m ∧
  ∃ ds, Forall2 (λ k d, m !! k = Some d) ks ds ∧ StronglySorted Z.le ds ∧
    Forall (λ d, d ≤ now)%Z ds ∧
    ∀ k d, m' !! k = Some d → Forall (λ x, x ≤ d)%Z ds.

Lemma popped_nil m now : popped m m now [].
Proof.
  split; [constructor|]. split.
  - symmetry. apply map_filter_id. intros ? ? _. apply not_elem_of_nil.
  - exists []. repeat split; try constructor.
Qed.

Lemma popped_cons m m' now k d ks :
  m !! k = Some d → (d ≤ now)%Z → (∀ k' d', m !! k' = Some d' → (d ≤ d')%Z) →
  popped (delete k m) m' now ks → popped m m' now (k :: ks).
Proof.
  intros Hk Hd Hmin (Hnd & -> & ds & Hf & Hs & Hle & Hrest).
  assert (Hks : k ∉ ks).
  { intros [i Hi]%list_elem_of_lookup. destruct (Forall2_lookup_l _ _ _ _ _ Hf Hi) as (y & _ & Hy).
    by rewrite lookup_delete_eq in Hy. }
  assert (Hm : filter (λ kd, kd.1 ∉ ks) (delete k m) = filter (λ kd, kd.1 ∉ k :: ks) m).
  { apply map_eq. intros k'. apply option_eq. intros d'.
    rewrite !map_lookup_filter_Some, lookup_delete_Some. simpl.
    rewrite not_elem_of_cons. naive_solver. }
  assert (Hall : Forall (λ x, d ≤ x)%Z ds).
  { apply Forall_lookup. intros i x Hx.
    destruct (Forall2_lookup_r _ _ _ _ _ Hf Hx) as (k' & _ & Hk').
    apply lookup_delete_Some in Hk' as [_ Hk']. eauto. }
  rewrite Hm in Hrest |- *. split; [by constructor|]. split; [done|]. exists (d :: ds).
  split; [|split; [|split]].
  - constructor; [done|]. eapply Forall2_impl; [exact Hf|]. intros k' x Hx.
    by apply lookup_delete_Some in Hx as [_ ?].
  - constructor; [done|]. done.
  - by constructor.
  - intros k' x Hx. constructor; [|eauto].
    apply map_lookup_filter_Some in Hx as [Hx _]. eauto.
Qed.

Lemma popExpired_loop_ok n h now acc :
  wf h →
  popExpired_loop n h now acc ⇓ λ '(ks, h'), wf h' ∧ ∃ new, ks = acc ++ new ∧
    length new ≤ n ∧ popped (deadlines h) (deadlines h') now new ∧
    (length new < n → ∀ k d, deadlines h' !! k = Some d → (now < d)%Z).
Proof.
  revert h acc. induction n as [|n IH]; intros h acc Hwf; cbn [popExpired_loop].
  { apply returns_ok. split; [done|]. exists []. rewrite app_nil_r.
    split; [done|]. split; [done|]. split; [apply popped_nil|simpl; lia]. }
  destruct (heap_ h) as [|root rest] eqn:Hr.
  { apply returns_ok. split; [done|]. exists []. rewrite app_nil_r. split; [done|].
    split; [simpl; lia|]. split; [apply popped_nil|]. intros _ k d Hk.
    apply deadlines_lookup in Hk; [|apply Hwf]. rewrite Hr in Hk. by apply not_elem_of_nil in Hk. }
  assert (Hmin : ∀ k d, deadlines h !! k = Some d → (expireAtMs root ≤ d)%Z).
  { intros k d [i Hi]%deadlines_lookup%list_elem_of_lookup; [|apply Hwf].
    apply (root_minimal _ _ (proj2 Hwf) ltac:(by rewrite Hr) _ _ Hi). }
  destruct (Z.ltb_spec now (expireAtMs root)) as [Hlt|Hle].
  { apply returns_ok. split; [done|]. exists []. rewrite app_nil_r. split; [done|].
    split; [simpl; lia|]. split; [apply popped_nil|]. intros _ k d Hk%Hmin. lia. }
  run_with popRoot_ok; [done|exact Hr|]. intros h1 [Hwf1 Hd1].
  eapply returns_mono; [by apply IH|].
  intros [ks h'] (Hwf' & new & -> & Hlen & Hp & Hdone). split; [done|].
  exists (key root :: new). rewrite <- app_assoc. split; [done|]. split; [simpl; lia|].
  split; [|intros ?; apply Hdone; simpl in *; lia].
  rewrite Hd1 in Hp. eapply popped_cons; [|exact Hle|exact Hmin|done].
  apply deadlines_lookup; [apply Hwf|]. rewrite Hr. destruct root. constructor.
Qed.

Lemma popExpired_ok h now maxWork :
  wf h →
  popExpired h now maxWork ⇓ λ '(ks, h'), wf h' ∧
    length ks ≤ Z.to_nat maxWork ∧ popped (deadlines h) (deadlines h') now ks ∧
    (length ks < Z.to_nat maxWork → ∀ k d, deadlines h' !! k = Some d → (now < d)%Z).
Proof.
  intros Hwf. unfold popExpired. run_with popExpired_loop_ok; [done|].
  intros [ks h'] (Hwf' & new & -> & Hrest). rewrite assert_sizes_ok by apply Hwf'. done.
Qed.

Lemma empty_heap_ok : wf empty_heap ∧ deadlines empty_heap = ∅.
Proof.
  split; [|done]. split.
  - intros k i. simpl. rewrite lookup_empty. naive_solver.
  - by intros i Hi x y Hx.
Qed.

(** ** Properties *)

Inductive op :=
| Push (k : bytes) (d : Z)
| Remove (k : bytes)
| Update (k : bytes) (d : Z)
| PopExpired (now maxWork : Z).

Definition run_op (h : TTLHeap) (o : op) : result TTLHeap :=
  match o with
  | Push k d => push h k d
  | Remove k => remove h k
  | Update k d => update h k d
  | PopExpired now w => '(_, h') ← popExpired h now w; mret h'
  end.

Fixpoint run_ops (h : TTLHeap) (os : list op) : result TTLHeap :=
  match os with
  | [] => mret h
  | o :: os' => h' ← run_op h o; run_ops h' os'
  end.

Lemma run_ops_wf os h : wf h → run_ops h os ⇓ wf.
Proof.
  revert h. induction os as [|o os IH]; intros h Hwf; [done|]. simpl.
  eapply returns_bind with (P := wf); [|exact (λ h', IH h')]. destruct o; simpl.
  - eapply returns_mono; [by apply push_ok|]. by intros ? [? _].
  - eapply returns_mono; [by apply remove_ok|]. by intros ? [? _].
  - eapply returns_mono; [by apply update_ok|]. by intros ? [? _].
  - run_with popExpired_ok; [done|]. by intros [ks h'] [? _].
Qed.

(** C16: the heap invariants hold in every reachable state.  Any sequence of
    [push], [remove], [update] and [popExpired] from the empty heap runs
    without a fault (indices in range, INV-3 assertions true, loops finite) and
    ends with the heap order (INV-1) and the exact key-to-index map (INV-2,
    INV-4). *)
Theorem heap_always_wf (os : list op) :
  run_ops empty_heap os ⇓ λ h, index_ok h ∧ heap_ok (heap_ h).
Proof. apply run_ops_wf, empty_heap_ok. Qed.

(** [push] (and [update]) set the deadline of one key, [remove] forgets one
    key, and no other deadline changes. *)
Theorem heap_refines_map (h : TTLHeap) (k : bytes) (d : Z) :
  wf h →
  (push h k d ⇓ λ h', wf h' ∧ deadlines h' = <[k := d]> (deadlines h)) ∧
  (update h k d ⇓ λ h', wf h' ∧ deadlines h' = <[k := d]> (deadlines h)) ∧
  (remove h k ⇓ λ h', wf h' ∧ deadlines h' = delete k (deadlines h)).
Proof. intros Hwf. split; [by apply push_ok|]. split; [by apply update_ok|by apply remove_ok]. Qed.

(** C32: [popExpired] returns due keys only, earliest first, each once, at most
    [maxWork] of them, removes exactly those, and when it stops early nothing
    due is left. *)
Theorem popExpired_earliest_first (h : TTLHeap) (now maxWork : Z) :
  wf h →
  popExpired h now maxWork ⇓ λ '(ks, h'), wf h' ∧
    length ks ≤ Z.to_nat maxWork ∧ popped (deadlines h) (deadlines h') now ks ∧
    (length ks < Z.to_nat maxWork → ∀ k d, deadlines h' !! k = Some d → (now < d)%Z).
Proof. apply popExpired_ok. Qed.

(** ** Witnesses *)

Definition two_keys : TTLHeap :=
  mkHeap [mkEntry (lit "b") 10; mkEntry (lit "a") 30]
    (<[lit "a" := 1]> (<[lit "b" := 0]> ∅)).

Lemma two_keys_reached : run_ops empty_heap [Push (lit "a") 30; Push (lit "b") 10] = Ok two_keys.
Proof. vm_compute. reflexivity. Qed.

Lemma two_keys_wf : wf two_keys.
Proof.
  pose proof (run_ops_wf [Push (lit "a") 30; Push (lit "b") 10] _ (proj1 empty_heap_ok)) as H.
  by rewrite two_keys_reached in H.
Qed.

Lemma heap_refines_map_witness :
  remove two_keys (lit "b")
    ⇓ λ h', wf h' ∧ deadlines h' = delete (lit "b") (deadlines two_keys).
Proof. exact (proj2 (proj2 (heap_refines_map two_keys (lit "b") 0 two_keys_wf))). Defined.

Lemma popExpired_earliest_first_witness :
  popExpired two_keys 20 200 ⇓ λ '(ks, h'), wf h' ∧
    length ks ≤ Z.to_nat 200 ∧ popped (deadlines two_keys) (deadlines h') 20 ks ∧
    (length ks < Z.to_nat 200 → ∀ k d, deadlines h' !! k = Some d → (20 < d)%Z).
Proof. exact (popExpired_earliest_first two_keys 20 200 two_keys_wf). Defined.

End TTLHeap.
