(* ===== verification/StoreHashTable.v ===== *)
(** * [store/HashTable]: the key table with incremental rehashing

    Class [HashTable] (src/store/HashTable.h, HashTable.cpp): separate chaining
    under FNV-1a, power-of-two capacities, and a second table that is drained a
    few slots at a time after each doubling.  The model is generic in the value
    type [V] (the source stores [RedisObject]).

    A chain of [HTEntry] nodes linked by [next] is a list; a null [slots] pointer
    is [None]; a pointer to an entry is used by the callers only to read it or to
    write its fields, and is modelled by [find] and [modify], which write the
    entry a [find] of the same key returns.  The counters [size] are integers, so
    that a decrement below zero would be visible.  The abstract state is
    [to_map]: a finite map from keys to values and deadlines. *)
From Stdlib Require Import Ascii String ZArith Lia ZifyNat ZifyBool.
From stdpp Require Import base option list strings gmap.
From S2P Require Import Prelude CStdlib.

Module HashTable.

Definition kFNVOffsetBasis : Z := 14695981039346656037.
Definition kFNVPrime : Z := 1099511628211.
Definition kInitialCapacity : nat := 4.
Definition kRehashBatchSize : nat := 128.

(** FNV-1a over the bytes of the key, modulo [2^64]. *)
Definition hash_step (h : Z) (c : ascii) : Z := wrap_u64 (Z.lxor h (byte_val c) * kFNVPrime).
Definition hash (key : bytes) : Z := foldl hash_step kFNVOffsetBasis key.

Section hashtable.
Context {V : Type}.

Record HTEntry := mkHTEntry {
  key : bytes;
  value : V;
  hashCode : Z;
  expireAt : Z
}.

Record Table := mkTable {
  slots : option (list (list HTEntry));
  capacity : nat;
  mask : Z;
  size : Z
}.

Record HashTable := mkHashTable {
  primary_ : Table;
  rehash_ : Table;
  isRehashing_ : bool;
  rehashIdx_ : nat
}.

Definition null_table : Table := mkTable None 0 0 0.
Definition empty : HashTable := mkHashTable null_table null_table false 0.

Definition allocTable (cap : nat) : result Table :=
  _ ← assert (bool_decide (0 < cap) && (Z.land (Z.of_nat cap) (Z.of_nat cap - 1) =? 0)%Z);
  mret (mkTable (Some (replicate cap [])) cap (Z.of_nat cap - 1) 0).

(** All chains are deleted and the fields reset; a null table is left alone. *)
Definition freeTable (t : Table) : Table :=
  match slots t with Some _ => null_table | None => t end.

(** [hashCode & table.mask] *)
Definition slot_index (t : Table) (h : Z) : nat := Z.to_nat (Z.land h (mask t)).

Definition matches (k : bytes) (h : Z) (e : HTEntry) : bool :=
  (hashCode e =? h)%Z && bool_decide (key e = k).

Definition findInTable (t : Table) (k : bytes) (h : Z) : result (option HTEntry) :=
  match slots t with
  | None => mret None
  | Some s =>
      chain ← vec_get s (slot_index t h);
      mret (List.find (matches k h) chain)
  end.

Definition find (ht : HashTable) (k : bytes) : result (option HTEntry) :=
  let h := hash k in
  r ← findInTable (primary_ ht) k h;
  match r with
  | Some e => mret (Some e)
  | None => if isRehashing_ ht then findInTable (rehash_ ht) k h else mret None
  end.

(** Unlinking the first matching node of a chain. *)
Fixpoint unlink (k : bytes) (h : Z) (chain : list HTEntry) : option (list HTEntry) :=
  match chain with
  | [] => None
  | e :: rest => if matches k h e then Some rest else (e ::.) <$> unlink k h rest
  end.

Definition delFromTable (t : Table) (k : bytes) (h : Z) : result (bool * Table) :=
  match slots t with
  | None => mret (false, t)
  | Some s =>
      let idx := slot_index t h in
      chain ← vec_get s idx;
      match unlink k h chain with
      | Some chain' => mret (true, mkTable (Some (<[idx := chain']> s)) (capacity t) (mask t) (size t - 1))
      | None => mret (false, t)
      end
  end.

(** [while (rehashIdx_ < rehash_.capacity && rehash_.slots[rehashIdx_] == nullptr)
    rehashIdx_++;] with [n] slots left. *)
Fixpoint skipEmpty (n : nat) (s : list (list HTEntry)) (i : nat) : result nat :=
  match n with
  | O => mret i
  | S n' =>
      chain ← vec_get s i;
      match chain with [] => skipEmpty n' s (i + 1) | _ => mret i end
  end.

(** One node moves to the head of its chain in [primary_]. *)
Definition migrateEntry (p : Table) (e : HTEntry) : result Table :=
  s ← deref (slots p);
  let idx := slot_index p (hashCode e) in
  chain ← vec_get s idx;
  mret (mkTable (Some (<[idx := e :: chain]> s)) (capacity p) (mask p) (size p + 1)).

Fixpoint migrateChain (p : Table) (chain : list HTEntry) : result Table :=
  match chain with
  | [] => mret p
  | e :: rest => p' ← migrateEntry p e; migrateChain p' rest
  end.

Definition migrateOneSlot (ht : HashTable) : result HashTable :=
  let r := rehash_ ht in
  s ← (if bool_decide (rehashIdx_ ht < capacity r) then deref (slots r) else mret []);
  i ← skipEmpty (capacity r - rehashIdx_ ht) s (rehashIdx_ ht);
  if bool_decide (capacity r ≤ i) then
    mret (mkHashTable (primary_ ht) (freeTable r) false 0)
  else
    chain ← vec_get s i;
    p' ← migrateChain (primary_ ht) chain;
    let size' := (size r - Z.of_nat (length chain))%Z in
    let r' := mkTable (Some (<[i := []]> s)) (capacity r) (mask r) size' in
    if (size' =? 0)%Z then
      mret (mkHashTable p' (mkTable None 0 0 size') false 0)
    else mret (mkHashTable p' r' true (i + 1)).

Fixpoint rehashStep (n : nat) (ht : HashTable) : result HashTable :=
  if isRehashing_ ht then
    match n with
    | O => mret ht
    | S n' => ht' ← migrateOneSlot ht; rehashStep n' ht'
    end
  else mret ht.

Definition triggerRehash (ht : HashTable) : result HashTable :=
  _ ← assert (negb (isRehashing_ ht));
  _ ← assert (bool_decide (is_Some (slots (primary_ ht))) && bool_decide (0 < capacity (primary_ ht)));
  p ← allocTable (capacity (primary_ ht) * 2);
  mret (mkHashTable p (primary_ ht) true 0).

(** [existing->value = std::move(value)] on the entry [findInTable] returned. *)
Fixpoint overwrite (f : HTEntry → HTEntry) (k : bytes) (h : Z) (chain : list HTEntry)
    : list HTEntry :=
  match chain with
  | [] => []
  | e :: rest => if matches k h e then f e :: rest else e :: overwrite f k h rest
  end.

Definition modifyInTable (f : HTEntry → HTEntry) (t : Table) (k : bytes) (h : Z) : result Table :=
  s ← deref (slots t);
  let idx := slot_index t h in
  chain ← vec_get s idx;
  mret (mkTable (Some (<[idx := overwrite f k h chain]> s)) (capacity t) (mask t) (size t)).

Definition set_value (v : V) (e : HTEntry) : HTEntry :=
  mkHTEntry (key e) v (hashCode e) (expireAt e).
Definition set_expireAt (d : Z) (e : HTEntry) : HTEntry :=
  mkHTEntry (key e) (value e) (hashCode e) d.

(** A write through an [HTEntry*] that [find(k)] returned; without an entry it
    would be a write through a null pointer. *)
Definition modify (f : HTEntry → HTEntry) (ht : HashTable) (k : bytes) : result HashTable :=
  let h := hash k in
  r ← findInTable (primary_ ht) k h;
  match r with
  | Some _ =>
      p ← modifyInTable f (primary_ ht) k h;
      mret (mkHashTable p (rehash_ ht) (isRehashing_ ht) (rehashIdx_ ht))
  | None =>
      r2 ← (if isRehashing_ ht then findInTable (rehash_ ht) k h else mret None);
      match r2 with
      | Some _ =>
          t ← modifyInTable f (rehash_ ht) k h;
          mret (mkHashTable (primary_ ht) t (isRehashing_ ht) (rehashIdx_ ht))
      | None => Fault NullDeref
      end
  end.

(** The load factor [size / capacity > 2.0]: exact in [double], since the
    capacity is a power of two. *)
Definition overloaded (t : Table) : bool := (2 * Z.of_nat (capacity t) <? size t)%Z.

(** The first half of [set]: a rehashing step, the removal of an old copy of
    the key, and the first allocation. *)
Definition set_prepare (ht0 : HashTable) (k : bytes) : result HashTable :=
  ht1 ← (if isRehashing_ ht0 then rehashStep kRehashBatchSize ht0 else mret ht0);
  let h := hash k in
  r ← (if isRehashing_ ht1
       then '(_, r) ← delFromTable (rehash_ ht1) k h; mret r
       else mret (rehash_ ht1));
  p ← (match slots (primary_ ht1) with
       | None => allocTable kInitialCapacity
       | Some _ => mret (primary_ ht1)
       end);
  mret (mkHashTable p r (isRehashing_ ht1) (rehashIdx_ ht1)).

Definition set (ht0 : HashTable) (k : bytes) (v : V) : result HashTable :=
  ht ← set_prepare ht0 k;
  let h := hash k in
  existing ← findInTable (primary_ ht) k h;
  match existing with
  | Some _ =>
      p ← modifyInTable (set_value v) (primary_ ht) k h;
      mret (mkHashTable p (rehash_ ht) (isRehashing_ ht) (rehashIdx_ ht))
  | None =>
      p ← migrateEntry (primary_ ht) (mkHTEntry k v h (-1));
      let ht' := mkHashTable p (rehash_ ht) (isRehashing_ ht) (rehashIdx_ ht) in
      if negb (isRehashing_ ht) && overloaded p then triggerRehash ht' else mret ht'
  end.

Definition del (ht0 : HashTable) (k : bytes) : result (bool * HashTable) :=
  ht ← (if isRehashing_ ht0 then rehashStep kRehashBatchSize ht0 else mret ht0);
  let h := hash k in
  '(found, p) ← delFromTable (primary_ ht) k h;
  if found : bool then mret (true, mkHashTable p (rehash_ ht) (isRehashing_ ht) (rehashIdx_ ht))
  else if isRehashing_ ht then
    '(found2, r) ← delFromTable (rehash_ ht) k h;
    mret (found2, mkHashTable (primary_ ht) r (isRehashing_ ht) (rehashIdx_ ht))
  else mret (false, ht).

Definition size_of (ht : HashTable) : Z := (size (primary_ ht) + size (rehash_ ht))%Z.

(** All entries of a table, slot by slot. *)
Definition table_entries (t : Table) : list HTEntry := mjoin (default [] (slots t)).

Definition keys (ht : HashTable) : list bytes :=
  (key <$> table_entries (primary_ ht)) ++ (key <$> table_entries (rehash_ ht)).

(** The slot walk of [scan]: [n] slots left, [visited] keys so far. *)
Fixpoint scan_loop (n : nat) (s : list (list HTEntry)) (slot visited count : nat)
    (acc : list bytes) : result (nat * list bytes) :=
  match n with
  | O => mret (slot, acc)
  | S n' =>
      if bool_decide (visited < count) then
        chain ← vec_get s slot;
        scan_loop n' s (slot + 1) (visited + length chain) count (acc ++ (key <$> chain))
      else mret (slot, acc)
  end.

Definition scan (ht : HashTable) (cursor count : nat) : result (nat * list bytes) :=
  let p := primary_ ht in
  match slots p with
  | None => mret (0, [])
  | Some s =>
      if bool_decide (capacity p = 0) then mret (0, [])
      else
        '(slot, res) ← scan_loop (capacity p - cursor) s cursor 0 count [];
        let res' :=
          if isRehashing_ ht && bool_decide (is_Some (slots (rehash_ ht))) && bool_decide (cursor = 0)
          then res ++ (key <$> table_entries (rehash_ ht)) else res in
        mret (if bool_decide (capacity p ≤ slot) then 0 else slot, res')
  end.

Definition flushAll (ht : HashTable) : HashTable :=
  mkHashTable (freeTable (primary_ ht)) (freeTable (rehash_ ht)) false 0.

Definition expiryCount (ht : HashTable) : nat :=
  length (filter (λ e, (0 ≤ expireAt e)%Z) (table_entries (primary_ ht))) +
  length (filter (λ e, (0 ≤ expireAt e)%Z) (table_entries (rehash_ ht))).

End hashtable.
Arguments HTEntry V : clear implicits.
Arguments Table V : clear implicits.
Arguments HashTable V : clear implicits.

(** ** Invariant and abstraction *)

Section invariant.
Context {V : Type}.
Implicit Types (e : HTEntry V) (t : Table V) (ht : HashTable V).

(** Every entry of slot [i] carries its own hash and belongs to slot [i]. *)
Definition buckets_ok t (s : list (list (HTEntry V))) : Prop :=
  ∀ i c e, s !! i = Some c → e ∈ c →
    hashCode e = hash (key e) ∧ slot_index t (hashCode e) = i.

Definition table_ok t : Prop :=
  match slots t with
  | None => capacity t = 0 ∧ mask t = 0%Z ∧ size t = 0%Z
  | Some s =>
      length s = capacity t ∧ (∃ n, capacity t = 2 ^ n) ∧
      mask t = (Z.of_nat (capacity t) - 1)%Z ∧
      size t = Z.of_nat (length (mjoin s)) ∧ buckets_ok t s
  end.

(** The first [n] slots hold nothing. *)
Definition drained t (n : nat) : Prop :=
  ∀ s i c, slots t = Some s → i < n → s !! i = Some c → c = [].

Definition entries ht : list (HTEntry V) :=
  table_entries (primary_ ht) ++ table_entries (rehash_ ht).

Definition wf ht : Prop :=
  table_ok (primary_ ht) ∧ table_ok (rehash_ ht) ∧
  NoDup (key <$> entries ht) ∧
  if isRehashing_ ht then
    is_Some (slots (primary_ ht)) ∧ is_Some (slots (rehash_ ht)) ∧
    rehashIdx_ ht ≤ capacity (rehash_ ht) ∧ drained (rehash_ ht) (rehashIdx_ ht)
  else slots (rehash_ ht) = None ∧ rehashIdx_ ht = 0.

(** What an entry stores. *)
Definition content e : V * Z := (value e, expireAt e).

Definition emap (l : list (HTEntry V)) : gmap bytes (V * Z) :=
  list_to_map ((λ e, (key e, content e)) <$> l).

Definition to_map ht : gmap bytes (V * Z) := emap (entries ht).

(** ** Entries as a map *)

Lemma fst_entries (l : list (HTEntry V)) : ((λ e, (key e, content e)) <$> l).*1 = key <$> l.
Proof. by rewrite <- list_fmap_compose. Qed.

Lemma emap_perm (l l' : list (HTEntry V)) : NoDup (key <$> l) → l ≡ₚ l' → emap l = emap l'.
Proof.
  intros Hnd Hp. unfold emap. apply list_to_map_proper; [|by rewrite Hp].
  by rewrite fst_entries.
Qed.

Lemma emap_lookup (l : list (HTEntry V)) k x :
  NoDup (key <$> l) → emap l !! k = Some x ↔ ∃ e, e ∈ l ∧ key e = k ∧ content e = x.
Proof.
  intros Hnd. unfold emap. rewrite <- elem_of_list_to_map by by rewrite fst_entries.
  rewrite list_elem_of_fmap. naive_solver.
Qed.

Lemma emap_None (l : list (HTEntry V)) k : emap l !! k = None ↔ ∀ e, e ∈ l → key e ≠ k.
Proof.
  unfold emap. rewrite <- not_elem_of_list_to_map, fst_entries, list_elem_of_fmap.
  naive_solver.
Qed.

Lemma emap_cons e l : emap (e :: l) = <[key e := content e]> (emap l).
Proof. done. Qed.

Lemma emap_delete e l :
  NoDup (key <$> e :: l) → emap l = delete (key e) (emap (e :: l)).
Proof.
  rewrite fmap_cons, NoDup_cons. intros [Hni _]. rewrite emap_cons, delete_insert_eq.
  rewrite delete_id; [done|]. apply emap_None. intros e' He' Hk. apply Hni.
  rewrite <- Hk. by apply list_elem_of_fmap_2.
Qed.

(** ** One slot of a table *)

Lemma join_lookup {A} (s : list (list A)) i c :
  s !! i = Some c → mjoin s ≡ₚ c ++ mjoin (delete i s).
Proof.
  intros Hi. rewrite <- (take_drop_middle s i c Hi) at 1.
  rewrite delete_take_drop, !join_app. simpl. rewrite !app_assoc.
  by rewrite (Permutation_app_comm c).
Qed.

Lemma join_insert {A} (s : list (list A)) i c c' :
  s !! i = Some c → mjoin (<[i := c']> s) ≡ₚ c' ++ mjoin (delete i s).
Proof.
  intros Hi. assert (i < length s) by by eapply lookup_lt_Some.
  rewrite (join_lookup _ i c') by by apply list_lookup_insert_eq.
  rewrite !delete_take_drop, take_insert_ge, drop_insert_lt by lia. done.
Qed.

Lemma slot_index_lt t s h : table_ok t → slots t = Some s → slot_index t h < length s.
Proof.
  unfold table_ok. intros Ht Hs. rewrite Hs in Ht. destruct Ht as (-> & (n & Hn) & Hm & _).
  unfold slot_index. rewrite Hm, Hn. rewrite Nat2Z.inj_pow.
  replace (Z.of_nat 2 ^ Z.of_nat n - 1)%Z with (Z.ones (Z.of_nat n)) by (rewrite Z.ones_equiv; lia).
  rewrite Z.land_ones by lia. pose proof (Z.mod_pos_bound h (2 ^ Z.of_nat n)).
  pose proof (Nat2Z.inj_pow 2 n). lia.
Qed.

Lemma buckets_in t s e :
  buckets_ok t s → e ∈ mjoin s →
  hashCode e = hash (key e) ∧ ∃ c, s !! slot_index t (hash (key e)) = Some c ∧ e ∈ c.
Proof.
  intros Hb (c & He & [i Hi]%list_elem_of_lookup)%list_elem_of_join.
  destruct (Hb i c e Hi He) as [Hh Hx]. split; [done|]. exists c. rewrite <- Hh, Hx. done.
Qed.

Lemma buckets_insert t s i c' :
  buckets_ok t s → (∀ e, e ∈ c' → hashCode e = hash (key e) ∧ slot_index t (hashCode e) = i) →
  buckets_ok t (<[i := c']> s).
Proof.
  intros Hb Hc j c e [(<- & <- & _)|[_ Hj]]%list_lookup_insert_Some He; [by apply Hc|].
  by eapply Hb.
Qed.

Lemma matches_ok k e : hashCode e = hash (key e) → matches k (hash k) e = bool_decide (key e = k).
Proof.
  unfold matches. intros ->. case_bool_decide as Hk; [|by rewrite andb_false_r].
  rewrite Hk. by rewrite Z.eqb_refl.
Qed.

(** Replacing the chain a key hashes to. *)
Lemma update_slot t s idx c c' sz :
  table_ok t → slots t = Some s → s !! idx = Some c →
  (∀ e, e ∈ c' → hashCode e = hash (key e) ∧ slot_index t (hashCode e) = idx) →
  sz = (size t + Z.of_nat (length c') - Z.of_nat (length c))%Z →
  table_ok (mkTable (Some (<[idx := c']> s)) (capacity t) (mask t) sz).
Proof.
  unfold table_ok. intros Ht Hs Hi Hc ->. rewrite Hs in Ht. cbn [slots capacity mask size].
  destruct Ht as (Hl & Hcap & Hm & Hsz & Hb).
  split; [by rewrite length_insert|]. split; [done|]. split; [done|]. split.
  - rewrite Hsz, (join_lookup s idx c Hi), (join_insert s idx c c' Hi), !length_app. lia.
  - by apply buckets_insert.
Qed.

Lemma findInTable_ok t k :
  table_ok t →
  findInTable t k (hash k) ⇓ λ r,
    match r with
    | Some e => e ∈ table_entries t ∧ key e = k
    | None => ∀ e, e ∈ table_entries t → key e ≠ k
    end.
Proof.
  intros Ht. unfold findInTable, table_entries. destruct (slots t) as [s|] eqn:Hs.
  2:{ apply returns_ok. simpl. by intros e ?%not_elem_of_nil. }
  run_with vec_get_lt; [by apply slot_index_lt|]. intros c Hc. apply returns_ok. simpl.
  unfold table_ok in Ht. rewrite Hs in Ht. destruct Ht as (_ & _ & _ & _ & Hb).
  destruct (List.find _ c) as [e|] eqn:Hf.
  - apply find_some in Hf as [Hin%list_elem_of_In Hm].
    destruct (Hb _ _ _ Hc Hin) as [Hh _]. rewrite matches_ok in Hm by done.
    apply bool_decide_eq_true in Hm. split; [|done]. apply list_elem_of_join. exists c.
    split; [done|]. by eapply list_elem_of_lookup_2.
  - intros e He Hk. destruct (buckets_in _ _ _ Hb He) as (Hh & c' & Hc' & Hin).
    rewrite Hk, Hc in Hc'. injection Hc' as <-.
    eapply find_none in Hf; [|by apply list_elem_of_In].
    rewrite matches_ok in Hf by done. by apply bool_decide_eq_false in Hf.
Qed.

Lemma unlink_Some k h (c c' : list (HTEntry V)) :
  unlink k h c = Some c' → ∃ e, matches k h e = true ∧ c ≡ₚ e :: c'.
Proof.
  revert c'. induction c as [|e c IH]; intros c'; simpl; [done|].
  destruct (matches k h e) eqn:Hm; [intros [= <-]; by exists e|].
  intros (c1 & Hc1 & ->)%fmap_Some. destruct (IH _ Hc1) as (e' & Hm' & Hp). exists e'.
  split; [done|]. rewrite Hp. constructor.
Qed.

Lemma unlink_None k h (c : list (HTEntry V)) :
  unlink k h c = None → ∀ e, e ∈ c → matches k h e = false.
Proof.
  induction c as [|e c IH]; simpl; [by intros _ e ?%not_elem_of_nil|].
  destruct (matches k h e) eqn:Hm; [done|]. intros Hn%fmap_None e' [->|He']%elem_of_cons; auto.
Qed.

Lemma delFromTable_ok t k :
  table_ok t →
  delFromTable t k (hash k) ⇓ λ '(b, t'),
    table_ok t' ∧ capacity t' = capacity t ∧ (is_Some (slots t') ↔ is_Some (slots t)) ∧
    (∀ n, drained t n → drained t' n) ∧
    if b : bool then ∃ e, key e = k ∧ table_entries t ≡ₚ e :: table_entries t'
    else t' = t ∧ ∀ e, e ∈ table_entries t → key e ≠ k.
Proof.
  intros Ht. unfold delFromTable, table_entries. destruct (slots t) as [s|] eqn:Hs.
  2:{ apply returns_ok. rewrite Hs. simpl. split; [done|]. split; [done|]. split; [done|].
      split; [done|]. split; [done|]. by intros e ?%not_elem_of_nil. }
  run_with vec_get_lt; [by apply slot_index_lt|]. intros c Hc.
  assert (Hb : buckets_ok t s) by (unfold table_ok in Ht; rewrite Hs in Ht; tauto).
  destruct (unlink k (hash k) c) as [c'|] eqn:Hu.
  - apply unlink_Some in Hu as (e & Hm & Hp).
    assert (Hin : ∀ x, x ∈ c' → x ∈ c) by (intros x Hx; rewrite Hp; by right).
    assert (He : e ∈ c) by (rewrite Hp; left).
    apply returns_ok. cbn [slots capacity]. split; [|split; [done|split; [by split; eauto|split]]].
    + eapply update_slot; [done..| |].
      * intros x Hx. by eapply Hb; [|apply Hin].
      * rewrite Hp. simpl. lia.
    + intros n Hd s' i x Hs' Hi Hx. injection Hs' as <-.
      apply list_lookup_insert_Some in Hx as [(<- & <- & _)|[_ Hx]]; [|by eapply Hd].
      assert (c = []) as -> by by eapply Hd. by apply Permutation_nil_cons in Hp.
    + exists e. rewrite matches_ok in Hm by by eapply Hb.
      split; [by apply bool_decide_eq_true in Hm|]. simpl.
      rewrite (join_lookup s _ c Hc), (join_insert s _ c c' Hc), Hp. done.
  - apply returns_ok. rewrite Hs. split; [done|]. split; [done|]. split; [done|]. split; [done|].
    split; [done|]. simpl. intros e He Hk.
    destruct (buckets_in _ _ _ Hb He) as (Hh & c' & Hc' & Hin).
    rewrite Hk, Hc in Hc'. injection Hc' as <-.
    eapply unlink_None in Hu; [|exact Hin]. rewrite matches_ok in Hu by done.
    by apply bool_decide_eq_false in Hu.
Qed.

(** ** Writing one entry *)

(** A field write leaves the key and the cached hash alone. *)
Definition keeps_key (f : HTEntry V → HTEntry V) : Prop :=
  ∀ e, key (f e) = key e ∧ hashCode (f e) = hashCode e.

Lemma set_value_keeps v : keeps_key (set_value v).
Proof. done. Qed.
Lemma set_expireAt_keeps d : keeps_key (set_expireAt d).
Proof. done. Qed.

Lemma overwrite_perm f k h (c : list (HTEntry V)) x :
  x ∈ c → matches k h x = true →
  ∃ e rest, matches k h e = true ∧ c ≡ₚ e :: rest ∧ overwrite f k h c ≡ₚ f e :: rest.
Proof.
  induction c as [|e c IH]; [by intros ?%not_elem_of_nil|]. intros Hx Hm. simpl.
  destruct (matches k h e) eqn:Hme; [by exists e, c|].
  apply elem_of_cons in Hx as [->|Hx]; [congruence|].
  destruct (IH Hx Hm) as (e' & rest & Hm' & Hp & Hp'). exists e', (e :: rest).
  split; [done|]. split; [rewrite Hp|rewrite Hp']; constructor.
Qed.

Lemma modifyInTable_ok f t k x :
  table_ok t → keeps_key f → x ∈ table_entries t → key x = k →
  modifyInTable f t k (hash k) ⇓ λ t',
    table_ok t' ∧ capacity t' = capacity t ∧ is_Some (slots t') ∧
    (∀ n, drained t n → drained t' n) ∧
    ∃ e rest, key e = k ∧ table_entries t ≡ₚ e :: rest ∧ table_entries t' ≡ₚ f e :: rest.
Proof.
  intros Ht Hf Hx Hk. unfold modifyInTable. unfold table_entries in Hx |- *.
  destruct (slots t) as [s|] eqn:Hs; simpl in Hx; [|by apply not_elem_of_nil in Hx].
  assert (Hb : buckets_ok t s) by (unfold table_ok in Ht; rewrite Hs in Ht; tauto).
  destruct (buckets_in _ _ _ Hb Hx) as (Hh & c & Hc & Hin). rewrite Hk in Hc.
  cbn [deref]. rewrite bind_ok. rewrite (vec_get_ok _ _ _ Hc), bind_ok. apply returns_ok.
  assert (Hmx : matches k (hash k) x = true) by (rewrite matches_ok by done; by apply bool_decide_eq_true).
  destruct (overwrite_perm f k (hash k) c x Hin Hmx) as (e & rest & Hme & Hp & Hp').
  assert (He : e ∈ c) by (rewrite Hp; left).
  destruct (Hb _ _ _ Hc He) as [Hhe Hse].
  cbn [slots capacity]. split; [|split; [done|split; [by eauto|split]]].
  - eapply update_slot; [done..| |].
    + intros y Hy. rewrite Hp' in Hy. apply elem_of_cons in Hy as [->|Hy].
      * destruct (Hf e) as [-> ->]. by rewrite <- Hhe.
      * eapply Hb; [done|]. rewrite Hp. by right.
    + rewrite Hp', Hp. simpl. lia.
  - intros n Hd s' i y Hs' Hi Hy. injection Hs' as <-.
    apply list_lookup_insert_Some in Hy as [(<- & <- & _)|[_ Hy]]; [|by eapply Hd].
    assert (c = []) as -> by by eapply Hd. done.
  - exists e, (rest ++ mjoin (delete (slot_index t (hash k)) s)).
    rewrite matches_ok in Hme by done. split; [by apply bool_decide_eq_true in Hme|]. simpl.
    rewrite (join_lookup s _ c Hc), (join_insert s _ c _ Hc), Hp'. by rewrite Hp.
Qed.

(** ** Inserting and moving entries *)

Lemma land_pow2 n : Z.land (Z.of_nat (2 ^ n)) (Z.of_nat (2 ^ n) - 1) = 0%Z.
Proof.
  rewrite Nat2Z.inj_pow.
  replace (Z.of_nat 2 ^ Z.of_nat n - 1)%Z with (Z.ones (Z.of_nat n)) by (rewrite Z.ones_equiv; lia).
  rewrite Z.land_ones by lia. apply Z.mod_same. lia.
Qed.

Lemma allocTable_ok n :
  allocTable (V := V) (2 ^ n) ⇓ λ t, table_ok t ∧ capacity t = 2 ^ n ∧ is_Some (slots t) ∧
    table_entries t = [].
Proof.
  unfold allocTable. assert (0 < 2 ^ n) by (apply Nat.neq_0_lt_0, Nat.pow_nonzero; lia).
  rewrite land_pow2, bool_decide_true by done. cbn [assert Z.eqb andb]. rewrite bind_ok.
  assert (Hj : ∀ m, mjoin (replicate m ([] : list (HTEntry V))) = []).
  { induction m; [done|]. simpl. done. }
  apply returns_ok. unfold table_ok, table_entries. simpl.
  rewrite Hj, length_replicate. repeat split; try done; try lia; try eauto.
  all: apply lookup_replicate in H0 as [-> _]; by apply not_elem_of_nil in H1.
Qed.

Lemma migrateEntry_ok t e :
  table_ok t → is_Some (slots t) → hashCode e = hash (key e) →
  migrateEntry t e ⇓ λ t', table_ok t' ∧ capacity t' = capacity t ∧ is_Some (slots t') ∧
    table_entries t' ≡ₚ e :: table_entries t.
Proof.
  intros Ht [s Hs] He. unfold migrateEntry, table_entries. rewrite Hs. cbn [deref].
  rewrite bind_ok. run_with vec_get_lt; [by apply slot_index_lt|]. intros c Hc.
  assert (Hb : buckets_ok t s) by (unfold table_ok in Ht; rewrite Hs in Ht; tauto).
  apply returns_ok. cbn [slots capacity]. split; [|split; [done|split; [by eauto|]]].
  - eapply update_slot; [done..| |simpl; lia].
    intros x [->|Hx]%elem_of_cons; [done|]. by eapply Hb.
  - simpl. by rewrite (join_lookup s _ c Hc), (join_insert s _ c _ Hc).
Qed.

Lemma migrateChain_ok t c :
  table_ok t → is_Some (slots t) → (∀ e, e ∈ c → hashCode e = hash (key e)) →
  migrateChain t c ⇓ λ t', table_ok t' ∧ capacity t' = capacity t ∧ is_Some (slots t') ∧
    table_entries t' ≡ₚ c ++ table_entries t.
Proof.
  revert t. induction c as [|e c IH]; intros t Ht Hs Hc; cbn [migrateChain]; [done|].
  run_with migrateEntry_ok; [done|done|apply Hc; left|]. intros t1 (Ht1 & Hc1 & Hs1 & Hp1).
  eapply returns_mono; [apply IH; [done|done|intros; apply Hc; by right]|].
  intros t' (Ht' & Hc' & Hs' & Hp'). split; [done|]. split; [congruence|]. split; [done|].
  rewrite Hp', Hp1. symmetry. apply Permutation_middle.
Qed.

Lemma skipEmpty_ok n (s : list (list (HTEntry V))) i :
  n = length s - i → i ≤ length s →
  skipEmpty n s i ⇓ λ j, i ≤ j ≤ length s ∧
    (∀ k c, i ≤ k < j → s !! k = Some c → c = []) ∧
    (j < length s → ∃ c, s !! j = Some c ∧ c ≠ []).
Proof.
  revert i. induction n as [|n IH]; intros i Hn Hi; cbn [skipEmpty].
  { apply returns_ok. split; [lia|]. split; [intros; lia|lia]. }
  run_with vec_get_lt; [lia|]. intros [|e c] Hc.
  - eapply returns_mono; [apply IH; lia|]. intros j (Hj & He & Hne). split; [lia|].
    split; [|done]. intros k x Hk Hx. destruct (decide (k = i)) as [->|]; [congruence|].
    apply (He k); [lia|done].
  - apply returns_ok. split; [lia|]. split; [intros; lia|]. eauto.
Qed.

Lemma join_all_nil {A} (s : list (list A)) :
  (∀ i c, s !! i = Some c → c = []) → mjoin s = [].
Proof.
  induction s as [|c s IH]; intros H; [done|]. simpl. rewrite (H 0 c eq_refl).
  apply IH. intros i x Hx. by apply (H (S i)).
Qed.

(** ** Incremental rehashing keeps the contents *)

(** [ht'] has the entries of [ht], in another order or table. *)
Definition same_entries ht ht' : Prop := wf ht' ∧ entries ht' ≡ₚ entries ht.

Lemma same_entries_map ht ht' : wf ht → same_entries ht ht' → to_map ht' = to_map ht.
Proof.
  intros (_ & _ & Hnd & _) [_ Hp]. unfold to_map. symmetry. apply emap_perm; [done|by symmetry].
Qed.

Lemma same_entries_trans ht1 ht2 ht3 :
  same_entries ht1 ht2 → same_entries ht2 ht3 → same_entries ht1 ht3.
Proof. intros [_ H1] [? H2]. split; [done|]. by rewrite H2, H1. Qed.

Lemma table_hash t e : table_ok t → e ∈ table_entries t → hashCode e = hash (key e).
Proof.
  unfold table_ok, table_entries. destruct (slots t) as [s|].
  - simpl. intros (_ & _ & _ & _ & Hb) He. by apply (buckets_in t s).
  - by intros _ ?%not_elem_of_nil.
Qed.

Lemma null_table_ok : table_ok (null_table (V := V)).
Proof. done. Qed.

(** Progress of one migration: rehashing is over, or the index has moved on. *)
Definition advanced ht ht' (n : nat) : Prop :=
  isRehashing_ ht' = false ∨
  (rehashIdx_ ht + n ≤ rehashIdx_ ht' ∧ capacity (rehash_ ht') = capacity (rehash_ ht)).

(** The slot the skipping loop stops at. *)
Lemma migrateOneSlot_slot ht s :
  slots (rehash_ ht) = Some s → length s = capacity (rehash_ ht) →
  rehashIdx_ ht ≤ capacity (rehash_ ht) → drained (rehash_ ht) (rehashIdx_ ht) →
  ∃ i, rehashIdx_ ht ≤ i ≤ capacity (rehash_ ht) ∧
    (∀ k c, k < i → s !! k = Some c → c = []) ∧
    migrateOneSlot ht =
      if bool_decide (capacity (rehash_ ht) ≤ i) then
        mret (mkHashTable (primary_ ht) null_table false 0)
      else
        chain ← vec_get s i;
        p' ← migrateChain (primary_ ht) chain;
        let size' := (size (rehash_ ht) - Z.of_nat (length chain))%Z in
        let r' := mkTable (Some (<[i := []]> s)) (capacity (rehash_ ht)) (mask (rehash_ ht)) size' in
        if (size' =? 0)%Z then mret (mkHashTable p' (mkTable None 0 0 size') false 0)
        else mret (mkHashTable p' r' true (i + 1)).
Proof.
  intros Hs Hlen Hidx Hdr. unfold migrateOneSlot. set (r := rehash_ ht) in *.
  assert (Hft : freeTable r = null_table) by (unfold freeTable; by rewrite Hs).
  rewrite Hft, Hs. cbn [deref].
  destruct (decide (rehashIdx_ ht < capacity r)) as [Hlt|Hge].
  - rewrite (bool_decide_true _ Hlt), bind_ok.
    pose proof (skipEmpty_ok (capacity r - rehashIdx_ ht) s (rehashIdx_ ht)) as Hsk.
    rewrite Hlen in Hsk. specialize (Hsk eq_refl Hidx).
    apply returns_iff in Hsk as (i & -> & Hi & Hempty & _). rewrite bind_ok.
    exists i. split; [done|]. split; [|done]. intros k c Hk Hc.
    destruct (decide (k < rehashIdx_ ht)); [by eapply Hdr|]. apply (Hempty k); [lia|done].
  - rewrite (bool_decide_false _ Hge), bind_ok.
    replace (capacity r - rehashIdx_ ht) with 0 by lia. cbn [skipEmpty]. rewrite bind_ok.
    exists (rehashIdx_ ht). split; [lia|]. split; [by eauto|].
    by rewrite bool_decide_true by lia.
Qed.

(** Emptying slot [i] after its chain [c] has been moved. *)
Lemma clear_slot t s i c :
  table_ok t → slots t = Some s → s !! i = Some c →
  let t' := mkTable (Some (<[i := []]> s)) (capacity t) (mask t)
              (size t - Z.of_nat (length c))%Z in
  table_ok t' ∧ c ++ table_entries t' ≡ₚ table_entries t.
Proof.
  intros Ht Hs Hc. cbv zeta. split.
  - eapply update_slot; [done..|by intros e ?%not_elem_of_nil|]. simpl. lia.
  - unfold table_entries. rewrite Hs. simpl.
    by rewrite (join_lookup s i c Hc), (join_insert s i c _ Hc).
Qed.

Lemma migrateOneSlot_ok ht :
  wf ht → isRehashing_ ht = true →
  migrateOneSlot ht ⇓ λ ht', same_entries ht ht' ∧ advanced ht ht' 1.
Proof.
  intros (Hp & Hr & Hnd & Hst) Hre. rewrite Hre in Hst. destruct Hst as (Hps & [s Hs] & Hidx & Hdr).
  pose proof Hr as Hr'. unfold table_ok in Hr'. rewrite Hs in Hr'. destruct Hr' as (Hlen & _ & _ & _ & Hb).
  destruct (migrateOneSlot_slot ht s Hs Hlen Hidx Hdr) as (i & Hi & Hempty & ->).
  unfold same_entries, wf, entries, advanced in *.
  case_bool_decide as Hdone.
  - apply returns_ok. assert (Hj : table_entries (rehash_ ht) = []).
    { unfold table_entries. rewrite Hs. apply join_all_nil. simpl. intros k c Hc.
      apply (Hempty k); [|done]. apply lookup_lt_Some in Hc. lia. }
    rewrite Hj in Hnd |- *. cbn. repeat split; try done. by left.
  - destruct (lookup_lt_is_Some_2 s i ltac:(lia)) as [c Hc].
    rewrite (vec_get_ok _ _ _ Hc), bind_ok.
    run_with migrateChain_ok; [done|done|intros e He; by eapply Hb|].
    intros p' (Hp' & Hcp & Hsp & Hpe).
    destruct (clear_slot _ s i c Hr Hs Hc) as [Hr' Hre']. cbv zeta. set (r' := mkTable _ _ _ _) in *.
    assert (Hall : table_entries p' ++ table_entries r' ≡ₚ
      table_entries (primary_ ht) ++ table_entries (rehash_ ht)).
    { rewrite Hpe, <- Hre', <- app_assoc. apply Permutation_app_swap_app. }
    rewrite <- Hall in Hnd. case_match eqn:Hz; apply returns_ok; cbn.
    + assert (Hnil : table_entries r' = []).
      { unfold table_ok in Hr'. simpl in Hr'. destruct Hr' as (_ & _ & _ & Hz' & _).
        apply length_zero_iff_nil. unfold table_entries. simpl. lia. }
      rewrite Hnil in Hall, Hnd. repeat split; try done; try lia.
    + split; [|right; lia]. split; [|exact Hall]. split; [done|]. split; [exact Hr'|].
      split; [exact Hnd|]. split; [done|]. split; [by eauto|]. split; [lia|].
      intros s'' k x [= <-] Hk Hx.
      apply list_lookup_insert_Some in Hx as [(<- & <- & _)|[Hki Hx]]; [done|].
      apply (Hempty k); [lia|done].
Qed.

Lemma ht_rehashStep_ok n ht :
  wf ht → rehashStep n ht ⇓ λ ht', same_entries ht ht' ∧ advanced ht ht' n ∧
    (isRehashing_ ht = false → ht' = ht).
Proof.
  revert ht. induction n as [|n IH]; intros ht Hwf; cbn [rehashStep];
    destruct (isRehashing_ ht) eqn:Hre.
  1,2,4: apply returns_ok; split; [done|]; split; [unfold advanced; rewrite ?Hre; auto with lia|done].
  run_with migrateOneSlot_ok; [done..|]. intros ht1 [Hs1 Ha1].
  eapply returns_mono; [apply IH, Hs1|]. intros ht' (Hs' & Ha' & Hid).
  split; [by eapply same_entries_trans|]. split; [|done].
  destruct Ha1 as [Ha1|[Ha1 Hc1]]; [left; by rewrite Hid|].
  destruct Ha' as [Ha'|[Ha' Hc']]; [by left|right]. lia.
Qed.

Lemma rehashStep_guard ht :
  (if isRehashing_ ht then rehashStep kRehashBatchSize ht else mret ht) =
    rehashStep kRehashBatchSize ht.
Proof. unfold kRehashBatchSize. simpl. by destruct (isRehashing_ ht). Qed.

(** ** The operations on the abstract map *)

Lemma not_rehashing_nil ht : wf ht → isRehashing_ ht = false → table_entries (rehash_ ht) = [].
Proof.
  intros (_ & _ & _ & Hst) Hre. rewrite Hre in Hst. unfold table_entries.
  by destruct Hst as [-> _].
Qed.

Lemma ht_find_ok ht k :
  wf ht → find ht k ⇓ λ r, to_map ht !! k = content <$> r ∧ ∀ e, r = Some e → key e = k.
Proof.
  intros Hwf. pose proof Hwf as (Hp & Hr & Hnd & _). unfold find, to_map.
  assert (Hin : ∀ e, e ∈ entries ht → key e = k → emap (entries ht) !! k = Some (content e)).
  { intros e He Hk. apply emap_lookup; [done|]. eauto. }
  unfold entries in Hin at 1. run_with findInTable_ok; [done|]. intros [e|] He.
  - apply returns_ok. split; [|naive_solver]. simpl.
    apply Hin; [|apply He]. apply elem_of_app. by left; apply He.
  - assert (Hr2 : (if isRehashing_ ht then findInTable (rehash_ ht) k (hash k) else mret None) ⇓
      λ r, match r with
           | Some e => e ∈ table_entries (rehash_ ht) ∧ key e = k
           | None => ∀ e, e ∈ table_entries (rehash_ ht) → key e ≠ k
           end).
    { destruct (isRehashing_ ht) eqn:Hre; [by apply findInTable_ok|]. apply returns_ok.
      rewrite not_rehashing_nil by done. by intros e ?%not_elem_of_nil. }
    eapply returns_mono; [exact Hr2|]. intros [e|] He2.
    + split; [|naive_solver]. apply Hin; [|apply He2]. apply elem_of_app. right. apply He2.
    + split; [|done]. apply emap_None. unfold entries.
      intros e [?|?]%elem_of_app; auto.
Qed.

Lemma ht_empty_ok : wf (empty (V := V)) ∧ to_map (empty (V := V)) = ∅.
Proof. split; [|done]. split; [done|]. split; [done|]. split; [constructor|done]. Qed.

Lemma drop_entry (l l' : list (HTEntry V)) e :
  NoDup (key <$> l) → l ≡ₚ e :: l' →
  NoDup (key <$> l') ∧ emap l' = delete (key e) (emap l) ∧ emap l !! key e = Some (content e).
Proof.
  intros Hnd Hp. pose proof Hnd as Hnd'. rewrite Hp in Hnd'. split; [|split].
  - rewrite fmap_cons, NoDup_cons in Hnd'. tauto.
  - rewrite (emap_perm l (e :: l')) by done. by apply emap_delete.
  - rewrite (emap_perm l (e :: l')) by done. by rewrite emap_cons, lookup_insert_eq.
Qed.

Lemma add_entry (l l' : list (HTEntry V)) e :
  NoDup (key <$> l') → emap l' !! key e = None → l ≡ₚ e :: l' →
  NoDup (key <$> l) ∧ emap l = <[key e := content e]> (emap l').
Proof.
  intros Hnd Hn Hp.
  assert (Hnd' : NoDup (key <$> e :: l')).
  { rewrite fmap_cons, NoDup_cons. split; [|done]. intros (e' & Hk & He')%list_elem_of_fmap.
    rewrite emap_None in Hn. by apply (Hn e'). }
  split; [by rewrite Hp|]. rewrite <- emap_cons. symmetry. by apply emap_perm.
Qed.

Lemma ht_del_ok ht k :
  wf ht →
  del ht k ⇓ λ '(b, ht'), wf ht' ∧ to_map ht' = delete k (to_map ht) ∧
    b = bool_decide (is_Some (to_map ht !! k)).
Proof.
  intros Hwf. unfold del. rewrite rehashStep_guard. run_with ht_rehashStep_ok; [done|].
  intros ht1 (Hse & _ & _). rewrite <- (same_entries_map ht ht1) by done.
  destruct Hse as [Hwf1 _]. clear Hwf ht. rename ht1 into ht.
  pose proof Hwf1 as (Hp & Hr & Hnd & Hst). run_with delFromTable_ok; [done|].
  intros [b p] (Hp' & Hcp & Hsp & _ & Hb). unfold to_map. destruct b.
  - destruct Hb as (e & <- & Hpe). apply returns_ok.
    assert (Hall : entries ht ≡ₚ e :: (table_entries p ++ table_entries (rehash_ ht))).
    { unfold entries. by rewrite Hpe. }
    destruct (drop_entry _ _ _ Hnd Hall) as (Hnd' & Hm & Hl). split; [|split].
    + split; [done|]. split; [done|]. split; [done|]. cbn. destruct (isRehashing_ ht); [|done].
      by rewrite Hsp.
    + exact Hm.
    + by rewrite Hl.
  - destruct Hb as [-> Hno]. destruct (isRehashing_ ht) eqn:Hre.
    + run_with delFromTable_ok; [done|]. intros [b r] (Hr' & Hcr & Hsr & Hdr & Hb).
      destruct Hst as (Hps & Hrs & Hidx & Hd). apply returns_ok. destruct b.
      * destruct Hb as (e & <- & Hre').
        assert (Hall : entries ht ≡ₚ e :: (table_entries (primary_ ht) ++ table_entries r)).
        { unfold entries. rewrite Hre'. symmetry. apply Permutation_middle. }
        destruct (drop_entry _ _ _ Hnd Hall) as (Hnd' & Hm & Hl).
        split; [|split; [exact Hm|by rewrite Hl]].
        split; [done|]. split; [done|]. split; [done|]. cbn. rewrite Hsr, Hcr. auto.
      * destruct Hb as [-> Hno2].
        assert (Hn : emap (entries ht) !! k = None).
        { apply emap_None. intros e [?|?]%elem_of_app; auto. }
        split; [|rewrite Hn; split; [symmetry; by apply delete_id|done]].
        split; [done|]. split; [done|]. split; [done|]. cbn. auto.
    + apply returns_ok. assert (Hn : emap (entries ht) !! k = None).
      { apply emap_None. unfold entries. rewrite not_rehashing_nil, app_nil_r by done. done. }
      split; [done|]. rewrite Hn. split; [symmetry; by apply delete_id|done].
Qed.

(** ** Writing through an entry pointer *)

Lemma replace_entry (l l' rest : list (HTEntry V)) e f :
  NoDup (key <$> l) → keeps_key f → l ≡ₚ e :: rest → l' ≡ₚ f e :: rest →
  NoDup (key <$> l') ∧ emap l' = <[key e := content (f e)]> (emap l) ∧
  emap l !! key e = Some (content e).
Proof.
  intros Hnd Hf Hl Hl'. destruct (Hf e) as [Hk _].
  assert (Hkk : key <$> l' ≡ₚ key <$> l) by (rewrite Hl, Hl', !fmap_cons, Hk; done).
  split; [by rewrite Hkk|]. split.
  - rewrite (emap_perm l' (f e :: rest)), (emap_perm l (e :: rest)) by (done || by rewrite Hkk).
    rewrite !emap_cons, Hk, insert_insert_eq. done.
  - rewrite (emap_perm l (e :: rest)) by done. by rewrite emap_cons, lookup_insert_eq.
Qed.

Lemma modify_ok f ht k x :
  wf ht → keeps_key f → to_map ht !! k = Some x →
  modify f ht k ⇓ λ ht', wf ht' ∧
    ∃ e, key e = k ∧ content e = x ∧ to_map ht' = <[k := content (f e)]> (to_map ht).
Proof.
  intros Hwf Hf Hx. pose proof Hwf as (Hp & Hr & Hnd & Hst). unfold modify.
  run_with findInTable_ok; [done|]. intros [y|] Hy.
  - destruct Hy as [Hy1 Hy2]. run_with modifyInTable_ok; [done..|].
    intros p (Hp' & Hcp & Hsp & _ & e & rest & <- & Hpe & Hpe'). apply returns_ok.
    destruct (replace_entry (entries ht) (table_entries p ++ table_entries (rehash_ ht))
      (rest ++ table_entries (rehash_ ht)) e f) as (Hnd' & Hm & Hl);
      [done|done|unfold entries; by rewrite Hpe|by rewrite Hpe'|].
    split; [|exists e; split; [done|]; split; [|exact Hm]].
    + split; [done|]. split; [done|]. split; [done|]. cbn. destruct (isRehashing_ ht); [|done]. tauto.
    + unfold to_map in Hx. congruence.
  - destruct (isRehashing_ ht) eqn:Hre.
    2:{ exfalso. unfold to_map in Hx. apply emap_lookup in Hx as (e & He & Hk & _); [|done].
        unfold entries in He. rewrite not_rehashing_nil, app_nil_r in He by done. by eapply Hy. }
    run_with findInTable_ok; [done|]. intros [z|] Hz.
    2:{ exfalso. unfold to_map in Hx. apply emap_lookup in Hx as (e & He & Hk & _); [|done].
        apply elem_of_app in He as [He|He]; [by eapply Hy|by eapply Hz]. }
    destruct Hz as [Hz1 Hz2]. run_with modifyInTable_ok; [done..|].
    intros r (Hr' & Hcr & Hsr & Hdr & e & rest & <- & Hre1 & Hre2). apply returns_ok.
    destruct (replace_entry (entries ht) (table_entries (primary_ ht) ++ table_entries r)
      (table_entries (primary_ ht) ++ rest) e f) as (Hnd' & Hm & Hl);
      [done|done|unfold entries; rewrite Hre1; by rewrite Permutation_middle
      |rewrite Hre2; by rewrite Permutation_middle|].
    split; [|exists e; split; [done|]; split; [|exact Hm]].
    + split; [done|]. split; [done|]. split; [done|]. cbn. rewrite Hcr.
      destruct Hst as (? & ? & ? & ?). auto.
    + unfold to_map in Hx. congruence.
Qed.

Lemma modify_value_ok v ht k v0 d :
  wf ht → to_map ht !! k = Some (v0, d) →
  modify (set_value v) ht k ⇓ λ ht', wf ht' ∧ to_map ht' = <[k := (v, d)]> (to_map ht).
Proof.
  intros Hwf Hx. eapply returns_mono; [by apply modify_ok; [| |exact Hx]|].
  intros ht' (Hwf' & e & _ & Hc & Hm). split; [done|].
  rewrite Hm. unfold content in *. simpl. by injection Hc as _ ->.
Qed.

Lemma modify_expire_ok d' ht k v0 d :
  wf ht → to_map ht !! k = Some (v0, d) →
  modify (set_expireAt d') ht k ⇓ λ ht', wf ht' ∧ to_map ht' = <[k := (v0, d')]> (to_map ht).
Proof.
  intros Hwf Hx. eapply returns_mono; [by apply modify_ok; [| |exact Hx]|].
  intros ht' (Hwf' & e & _ & Hc & Hm). split; [done|].
  rewrite Hm. unfold content in *. simpl. by injection Hc as -> _.
Qed.

(** ** Insertion *)

Lemma set_prepare_ok ht k :
  wf ht →
  set_prepare ht k ⇓ λ ht', wf ht' ∧ is_Some (slots (primary_ ht')) ∧
    (∀ e, e ∈ table_entries (rehash_ ht') → key e ≠ k) ∧
    (to_map ht' = to_map ht ∨ isRehashing_ ht = true ∧ to_map ht' = delete k (to_map ht)).
Proof.
  intros Hwf. unfold set_prepare. rewrite rehashStep_guard. run_with ht_rehashStep_ok; [done|].
  intros ht1 (Hse & _ & Hid). rewrite <- (same_entries_map ht ht1) by done.
  pose proof Hse as [(Hp & Hr & Hnd & Hst) _]. destruct (isRehashing_ ht1) eqn:Hre.
  - assert (Hre0 : isRehashing_ ht = true).
    { destruct (isRehashing_ ht) eqn:E; [done|]. rewrite (Hid eq_refl) in Hre. congruence. }
    destruct Hst as (Hps & Hrs & Hidx & Hd).
    pose proof (delFromTable_ok (rehash_ ht1) k Hr) as Hdel.
    apply returns_iff in Hdel as ([b r] & -> & Hr' & Hcr & Hsr & Hdr & Hb). rewrite !bind_ok.
    destruct Hps as [s Hs]. rewrite Hs, bind_ok. apply returns_ok.
    unfold wf, to_map, entries. cbn [primary_ rehash_ isRehashing_ rehashIdx_].
    rewrite Hs, Hsr, Hcr. destruct b.
    + destruct Hb as (e & <- & Hre').
      assert (Hall : entries ht1 ≡ₚ e :: (table_entries (primary_ ht1) ++ table_entries r)).
      { unfold entries. rewrite Hre'. symmetry. apply Permutation_middle. }
      destruct (drop_entry _ _ _ Hnd Hall) as (Hnd' & Hm & _).
      split; [by eauto 10|]. split; [by eauto|]. split; [|by right].
      intros x Hx Hk. unfold entries in Hnd. rewrite Hre' in Hnd.
      rewrite fmap_app, fmap_cons, NoDup_app, NoDup_cons in Hnd. destruct Hnd as (_ & _ & Hn & _).
      apply Hn. rewrite <- Hk. by apply list_elem_of_fmap_2.
    + destruct Hb as [-> Hno]. split; [by eauto 10|]. split; [by eauto|]. split; [done|by left].
  - rewrite !bind_ok. destruct Hst as [Hrs Hidx].
    assert (Hnil : table_entries (rehash_ ht1) = []) by (unfold table_entries; by rewrite Hrs).
    destruct (slots (primary_ ht1)) as [s|] eqn:Hs.
    + rewrite bind_ok. apply returns_ok. unfold wf. cbn [primary_ rehash_ isRehashing_ rehashIdx_].
      rewrite Hs, Hnil. split; [done|]. split; [by eauto|]. split; [by intros ? ?%not_elem_of_nil|by left].
    + run_with (allocTable_ok 2). intros p (Hp' & Hcp & Hsp & Hpe). apply returns_ok.
      assert (Hpnil : table_entries (primary_ ht1) = []) by (unfold table_entries; by rewrite Hs).
      unfold wf, to_map, entries in *. cbn [primary_ rehash_ isRehashing_ rehashIdx_].
      rewrite Hpe, Hnil, Hpnil in *. split; [done|]. split; [done|].
      split; [by intros ? ?%not_elem_of_nil|by left].
Qed.

Lemma triggerRehash_ok ht :
  wf ht → isRehashing_ ht = false → is_Some (slots (primary_ ht)) →
  triggerRehash ht ⇓ λ ht', same_entries ht ht'.
Proof.
  intros (Hp & Hr & Hnd & Hst) Hre [s Hs]. unfold triggerRehash. rewrite Hre in Hst |- *.
  cbn [negb assert]. rewrite bind_ok. pose proof Hp as Hp'. unfold table_ok in Hp'.
  rewrite Hs in Hp'. destruct Hp' as (_ & (n & Hcap) & _).
  assert (0 < 2 ^ n) by (apply Nat.neq_0_lt_0, Nat.pow_nonzero; lia).
  rewrite bool_decide_true, bool_decide_true by (lia || by eauto). cbn [andb assert]. rewrite bind_ok.
  replace (capacity (primary_ ht) * 2) with (2 ^ S n) by (rewrite Hcap; simpl; lia).
  run_with allocTable_ok. intros p (Hpp & Hcp & Hsp & Hpe). apply returns_ok.
  assert (Hnil : table_entries (rehash_ ht) = []).
  { unfold table_entries. by destruct Hst as [-> _]. }
  unfold same_entries, wf, entries in *. cbn [primary_ rehash_ isRehashing_ rehashIdx_].
  rewrite Hpe, Hnil, app_nil_r in *. cbn [app]. split; [|done].
  split; [done|]. split; [done|]. split; [done|]. split; [done|]. split; [by eauto|].
  split; [lia|]. intros ? ? ? _ Hlt. lia.
Qed.

Lemma ht_set_ok ht k v :
  wf ht →
  set ht k v ⇓ λ ht', wf ht' ∧ ∃ x, to_map ht' = <[k := (v, x)]> (to_map ht) ∧
    match to_map ht !! k with
    | None => x = (-1)%Z
    | Some (_, d) => x = d ∨ isRehashing_ ht = true ∧ x = (-1)%Z
    end.
Proof.
  intros Hwf. unfold set. run_with set_prepare_ok; [done|].
  intros ht1 (Hwf1 & Hps & Hno & Hm). pose proof Hwf1 as (Hp & Hr & Hnd & Hst).
  assert (Hins : ∀ y, <[k := y]> (to_map ht1) = <[k := y]> (to_map ht)).
  { intros y. destruct Hm as [->|[_ ->]]; [done|]. by rewrite insert_delete_eq. }
  assert (Hr1 : ∀ t, table_ok t → is_Some (slots t) →
    NoDup (key <$> table_entries t ++ table_entries (rehash_ ht1)) →
    wf (mkHashTable t (rehash_ ht1) (isRehashing_ ht1) (rehashIdx_ ht1))).
  { intros t Ht Hts Hn. split; [done|]. split; [done|]. split; [done|].
    cbn. destruct (isRehashing_ ht1); [|done]. tauto. }
  run_with findInTable_ok; [done|]. intros [y|] Hy.
  - destruct Hy as [Hy1 Hy2].
    run_with modifyInTable_ok; [done|apply set_value_keeps|done..|].
    intros p (Hp' & Hcp & Hsp & _ & e & rest & Hek & Hpe & Hpe'). apply returns_ok.
    destruct (replace_entry (entries ht1) (table_entries p ++ table_entries (rehash_ ht1))
      (rest ++ table_entries (rehash_ ht1)) e (set_value v)) as (Hnd' & Hm' & Hl);
      [done|apply set_value_keeps|unfold entries; by rewrite Hpe|by rewrite Hpe'|].
    split; [by apply Hr1|]. exists (expireAt e). rewrite Hek in Hm', Hl.
    fold (to_map ht1) in Hm', Hl. split; [rewrite <- Hins; exact Hm'|].
    destruct Hm as [<-|[_ Hdel]]; [rewrite Hl; by left|].
    rewrite Hdel, lookup_delete_eq in Hl. done.
  - run_with migrateEntry_ok; [done..|]. intros p (Hp' & Hcp & Hsp & Hpe).
    assert (Hn : to_map ht1 !! k = None).
    { apply emap_None. intros e [?|?]%elem_of_app; auto. }
    destruct (add_entry (table_entries p ++ table_entries (rehash_ ht1)) (entries ht1)
      (mkHTEntry k v (hash k) (-1))) as [Hnd' Hm']; [done|done|unfold entries; by rewrite Hpe|].
    fold (to_map ht1) in Hm'. cbn [key] in Hm'. rewrite Hins in Hm'.
    specialize (Hr1 p Hp' Hsp Hnd'). set (ht2 := mkHashTable _ _ _ _) in *.
    assert (Hpost : match to_map ht !! k with
      | None => (-1)%Z = (-1)%Z
      | Some (_, d) => (-1)%Z = d ∨ isRehashing_ ht = true ∧ (-1)%Z = (-1)%Z end).
    { destruct Hm as [Heq|[Hre _]]; [by rewrite <- Heq, Hn|]. destruct (to_map ht !! k) as [[? ?]|]; auto. }
    destruct (negb (isRehashing_ ht1) && overloaded p) eqn:Hc.
    + apply andb_true_iff in Hc as [Hre%negb_true_iff _]. eapply returns_mono.
      * apply triggerRehash_ok; [done|done|exact Hsp].
      * intros ht' Hse. split; [apply Hse|]. exists (-1)%Z. split; [|done].
        by rewrite (same_entries_map ht2) by done.
    + apply returns_ok. split; [done|]. by exists (-1)%Z.
Qed.

(** ** Sizes, keys, flushing *)

Lemma table_size t : table_ok t → size t = Z.of_nat (length (table_entries t)).
Proof.
  unfold table_ok, table_entries. destruct (slots t) as [s|]; simpl; [tauto|].
  by intros (_ & _ & ->).
Qed.

Lemma size_of_ok ht : wf ht → size_of ht = Z.of_nat (base.size (to_map ht)).
Proof.
  intros (Hp & Hr & Hnd & _). unfold size_of, to_map, emap.
  rewrite map_size_list_to_map by by rewrite fst_entries.
  rewrite length_fmap, !table_size by done. unfold entries. rewrite length_app. lia.
Qed.

Lemma keys_entries ht : keys ht = key <$> entries ht.
Proof. unfold keys, entries. by rewrite fmap_app. Qed.

Lemma ht_keys_ok ht : wf ht → NoDup (keys ht) ∧ ∀ k, k ∈ keys ht ↔ is_Some (to_map ht !! k).
Proof.
  intros (_ & _ & Hnd & _). rewrite keys_entries. split; [done|]. intros k. split.
  - intros (e & -> & He)%list_elem_of_fmap. exists (content e). apply emap_lookup; [done|]. eauto.
  - intros [x (e & He & <- & _)%emap_lookup]; [|done]. by apply list_elem_of_fmap_2.
Qed.

Lemma flushAll_ok ht : wf ht → wf (flushAll ht) ∧ to_map (flushAll ht) = ∅.
Proof.
  intros (Hp & Hr & _). assert (Hf : ∀ t, table_ok t → freeTable t = null_table).
  { intros [ss c m z]. unfold table_ok, freeTable. simpl. destruct ss; [done|]. by intros (-> & -> & ->). }
  unfold flushAll. rewrite !Hf by done. apply ht_empty_ok.
Qed.

Lemma ht_expiryCount_ok ht :
  wf ht → expiryCount ht = base.size (filter (λ kx, (0 ≤ kx.2.2)%Z) (to_map ht)).
Proof.
  intros (_ & _ & Hnd & _). unfold expiryCount. rewrite <- length_app, <- filter_app.
  fold (entries ht). unfold to_map. revert Hnd. generalize (entries ht). clear ht.
  intros l. induction l as [|e l IH]; intros Hnd; [done|].
  assert (Hn : emap l !! key e = None).
  { rewrite (emap_delete e l) by done. apply lookup_delete_eq. }
  rewrite fmap_cons, NoDup_cons in Hnd. rewrite emap_cons, filter_cons.
  destruct (decide (0 ≤ expireAt e)%Z) as [H|H].
  - rewrite map_filter_insert_True by done. rewrite map_size_insert_None.
    + cbn [length]. f_equal. by apply IH, Hnd.
    + apply map_lookup_filter_None. by left.
  - rewrite map_filter_insert_False by done. rewrite delete_id by done. by apply IH, Hnd.
Qed.

(** ** Cursor iteration *)

Lemma scan_loop_ok n (s : list (list (HTEntry V))) slot visited count acc :
  n = length s - slot → slot ≤ length s →
  scan_loop n s slot visited count acc ⇓ λ '(slot', ks),
    slot ≤ slot' ≤ length s ∧
    ks = acc ++ (key <$> mjoin (slice slot (slot' - slot) s)) ∧
    (visited < count → slot < length s → slot < slot') ∧
    (slot' < length s → count ≤ visited + length (key <$> mjoin (slice slot (slot' - slot) s))).
Proof.
  revert slot visited acc. induction n as [|n IH]; intros slot visited acc Hn Hs; cbn [scan_loop].
  { apply returns_ok. rewrite Nat.sub_diag. unfold slice. rewrite take_0. simpl.
    rewrite app_nil_r. split; [lia|]. split; [done|]. split; intros; lia. }
  case_bool_decide.
  2:{ apply returns_ok. rewrite Nat.sub_diag. unfold slice. rewrite take_0. simpl.
      rewrite app_nil_r. split; [lia|]. split; [done|]. split; intros; lia. }
  run_with vec_get_lt; [lia|]. intros c Hc. eapply returns_mono; [apply IH; lia|].
  intros [slot' ks] (Hlt & -> & _ & Hfull). split; [lia|].
  assert (Hsl : slice slot (slot' - slot) s = c :: slice (slot + 1) (slot' - (slot + 1)) s).
  { unfold slice. rewrite (drop_S s c slot Hc).
    replace (slot' - slot) with (S (slot' - (slot + 1))) by lia. simpl. by rewrite Nat.add_1_r. }
  rewrite Hsl. split; [by rewrite <- app_assoc, <- fmap_app|]. split; [lia|].
  intros Hl. specialize (Hfull Hl). rewrite !length_fmap in *.
  set (l := slice (slot + 1) _ s) in *. change (mjoin (c :: l)) with (c ++ mjoin l). rewrite length_app. lia.
Qed.

(** A client's iteration: call [scan] until the cursor comes back as 0. *)
Fixpoint scan_all (fuel : nat) ht (cursor count : nat) : result (list bytes) :=
  '(next, ks) ← scan ht cursor count;
  if bool_decide (next = 0) then mret ks
  else
    match fuel with
    | O => Fault OutOfFuel
    | S fuel' => rest ← scan_all fuel' ht next count; mret (ks ++ rest)
    end.

(** The keys of the table being drained come with the first page. *)
Definition first_page ht (cursor : nat) : list bytes :=
  if bool_decide (cursor = 0) then key <$> table_entries (rehash_ ht) else [].

Lemma ht_scan_ok ht s cursor count :
  wf ht → slots (primary_ ht) = Some s → cursor < length s →
  scan ht cursor count ⇓ λ '(next, ks), ∃ slot,
    cursor ≤ slot ≤ length s ∧ (0 < count → cursor < slot) ∧ next = (if bool_decide (length s ≤ slot) then 0 else slot) ∧
    ks = (key <$> mjoin (slice cursor (slot - cursor) s)) ++ first_page ht cursor ∧
    (slot < length s → count ≤ length ks).
Proof.
  intros Hwf Hs Hc. pose proof Hwf as (Hp & _ & _ & Hst).
  unfold table_ok in Hp. rewrite Hs in Hp. destruct Hp as (Hlen & _).
  unfold scan. rewrite Hs, bool_decide_false by lia. rewrite <- Hlen.
  run_with scan_loop_ok; [done|lia|]. intros [slot ks] (Hle & -> & Hprog & Hfull).
  apply returns_ok. exists slot. split; [lia|]. split; [auto|]. split; [done|].
  assert (Hpage : ∀ l : list bytes,
    (if isRehashing_ ht && bool_decide (is_Some (slots (rehash_ ht))) && bool_decide (cursor = 0)
     then l ++ (key <$> table_entries (rehash_ ht)) else l) = l ++ first_page ht cursor).
  { intros l. unfold first_page. destruct (isRehashing_ ht) eqn:Hre; cbn [andb].
    - rewrite bool_decide_true by tauto. cbn [andb]. case_bool_decide; [done|by rewrite app_nil_r].
    - rewrite not_rehashing_nil by done. case_bool_decide; by rewrite app_nil_r. }
  rewrite Hpage. split; [done|]. intros Hl. specialize (Hfull Hl). rewrite length_app. simpl in *. lia.
Qed.

(** What one call returns: stored keys, none twice; a cursor that moves on after at
    least [count] of them, or 0 at the end; all keys when the first call is also
    the last. *)
Definition page {A} (m : gmap bytes A) (cursor count next : nat) (ks : list bytes) : Prop :=
  NoDup ks ∧ (∀ k, k ∈ ks → is_Some (m !! k)) ∧
  (next ≠ 0 → cursor ≤ next ∧ (0 < count → cursor < next) ∧ count ≤ length ks) ∧
  (cursor = 0 → next = 0 → 0 < count → ∀ k, is_Some (m !! k) → k ∈ ks).

(** A run of slots and the keys of the other table, among all keys. *)
Lemma slice_keys ht s cursor n :
  wf ht → slots (primary_ ht) = Some s →
  (key <$> mjoin (slice cursor n s)) ++ first_page ht cursor ⊆+ keys ht.
Proof.
  intros Hwf Hs. unfold keys, table_entries at 1. rewrite Hs. cbn [default from_option id].
  apply submseteq_app.
  - apply fmap_submseteq. rewrite <- (take_drop cursor s) at 2. rewrite <- (take_drop n (drop cursor s)).
    rewrite !join_app. fold (slice cursor n s). apply submseteq_inserts_l, submseteq_inserts_r. done.
  - unfold first_page. case_bool_decide; [done|]. apply submseteq_nil_l.
Qed.

Lemma scan_nothing ht cursor count : cursor ≠ 0 ∨ keys ht = [] → wf ht → page (to_map ht) cursor count 0 [].
Proof.
  intros Hk Hwf. split; [apply NoDup_nil_2|]. split; [by intros k ?%not_elem_of_nil|]. split; [done|].
  intros Hc _ _ k Hin%(ht_keys_ok ht Hwf). destruct Hk as [|Hk]; [done|by rewrite Hk in Hin].
Qed.

(** [scan] never faults, whatever the cursor. *)
Lemma scan_total ht cursor count : wf ht → scan ht cursor count ⇓ λ '(next, ks), page (to_map ht) cursor count next ks.
Proof.
  intros Hwf. pose proof (ht_keys_ok ht Hwf) as [Hnd Hkeys]. pose proof Hwf as (Hp & Hr & _ & Hst).
  unfold table_ok in Hp. destruct (slots (primary_ ht)) as [s|] eqn:Hs.
  2: { unfold scan. rewrite Hs. apply returns_ok. apply scan_nothing; [right|done]. unfold keys, table_entries at 1.
       rewrite Hs. cbn. destruct (isRehashing_ ht) eqn:Hre; [by destruct Hst as [[? ?] _]|]. by rewrite not_rehashing_nil. }
  destruct Hp as (Hlen & Hp). destruct (decide (cursor < length s)) as [Hc|Hc].
  - eapply returns_mono; [by apply ht_scan_ok|]. intros [next ks] (slot & Hslot & Hprog & -> & -> & Hfull).
    pose proof (slice_keys ht s cursor (slot - cursor) Hwf Hs) as Hsub. split.
    { apply submseteq_Permutation in Hsub as [l Hl]. rewrite Hl in Hnd. by apply NoDup_app in Hnd as [? _]. }
    split; [intros k Hk; apply Hkeys; by eapply elem_of_submseteq|]. split.
    + intros Hn. case_bool_decide; [done|]. split; [lia|]. split; [done|]. apply Hfull. lia.
    + intros -> Hn Hcount k Hin%Hkeys. specialize (Hprog Hcount). case_bool_decide; [|lia]. unfold keys, table_entries at 1 in Hin. rewrite Hs in Hin.
      cbn in Hin. rewrite Nat.sub_0_r. unfold slice, first_page. rewrite bool_decide_true, drop_0, take_ge by (done || lia). done.
  - destruct Hp as ((n & Hn) & _). pose proof (Nat.pow_nonzero 2 n ltac:(done)) as H0.
    unfold scan. rewrite Hs, bool_decide_false, <- Hlen by lia. replace (length s - cursor) with 0 by lia.
    cbn [scan_loop mbind result_bind mret result_ret].
    rewrite (bool_decide_false (cursor = 0)), andb_false_r, bool_decide_true by lia.
    apply returns_ok, scan_nothing; [left; lia|done].
Qed.

Lemma scan_all_from fuel ht s cursor count :
  wf ht → slots (primary_ ht) = Some s → cursor < length s → 0 < count →
  length s ≤ fuel + cursor →
  scan_all fuel ht cursor count ⇓ λ ks,
    ks ≡ₚ (key <$> mjoin (drop cursor s)) ++ first_page ht cursor.
Proof.
  intros Hwf Hs. revert cursor. induction fuel as [|fuel IH]; intros cursor Hc Hcount Hf; [lia|].
  cbn [scan_all]. run_with ht_scan_ok; [done..|]. intros [next ks] (slot & Hslot & Hprog & -> & -> & _).
  specialize (Hprog Hcount).
  destruct (decide (length s ≤ slot)) as [Hend|Hend].
  - assert (slot = length s) as -> by lia. rewrite (bool_decide_true (length s ≤ length s)) by lia.
    rewrite bool_decide_true by done. apply returns_ok. unfold slice.
    rewrite (take_ge (drop cursor s)) by (rewrite length_drop; lia). done.
  - rewrite (bool_decide_false (length s ≤ slot)), bool_decide_false by lia.
    run_with IH; [lia|done|lia|].
    intros rest Hrest. apply returns_ok. rewrite Hrest. unfold first_page at 2.
    rewrite (bool_decide_false (slot = 0)), app_nil_r by lia. unfold slice.
    rewrite <- (take_drop (slot - cursor) (drop cursor s)) at 2.
    rewrite drop_drop, join_app, fmap_app. replace (cursor + (slot - cursor)) with slot by lia.
    rewrite <- !app_assoc. f_equiv. apply Permutation_app_comm.
Qed.

(** ** Sequences of operations *)

Inductive op :=
| SetKey (k : bytes) (v : V)
| DelKey (k : bytes)
| FindKey (k : bytes)
| Size
| RehashStep (n : nat)
| FlushAll.

Inductive output :=
| ODone
| OFound (v : option V)
| ODeleted (b : bool)
| OSize (n : Z).

Definition run_op ht (o : op) : result (output * HashTable V) :=
  match o with
  | SetKey k v => ht' ← set ht k v; mret (ODone, ht')
  | DelKey k => '(b, ht') ← del ht k; mret (ODeleted b, ht')
  | FindKey k => r ← find ht k; mret (OFound (value <$> r), ht)
  | Size => mret (OSize (size_of ht), ht)
  | RehashStep n => ht' ← rehashStep n ht; mret (ODone, ht')
  | FlushAll => mret (ODone, flushAll ht)
  end.

Fixpoint run_ops ht (os : list op) : result (list output * HashTable V) :=
  match os with
  | [] => mret ([], ht)
  | o :: os' =>
      '(r, ht1) ← run_op ht o; '(rs, ht2) ← run_ops ht1 os'; mret (r :: rs, ht2)
  end.

(** The specification: the same operations on a finite map. *)
Definition spec_op (m : gmap bytes V) (o : op) : output * gmap bytes V :=
  match o with
  | SetKey k v => (ODone, <[k := v]> m)
  | DelKey k => (ODeleted (bool_decide (is_Some (m !! k))), delete k m)
  | FindKey k => (OFound (m !! k), m)
  | Size => (OSize (Z.of_nat (base.size m)), m)
  | RehashStep _ => (ODone, m)
  | FlushAll => (ODone, ∅)
  end.

Fixpoint spec_ops (m : gmap bytes V) (os : list op) : list output * gmap bytes V :=
  match os with
  | [] => ([], m)
  | o :: os' => let '(r, m1) := spec_op m o in
                let '(rs, m2) := spec_ops m1 os' in (r :: rs, m2)
  end.

Definition values ht : gmap bytes V := fst <$> to_map ht.

(** Each operation simulates its specification. *)
Lemma ht_run_op_ok ht o :
  wf ht → run_op ht o ⇓ λ '(r, ht'), wf ht' ∧ (r, values ht') = spec_op (values ht) o.
Proof.
  intros Hwf. destruct o as [k v|k|k| |n|]; cbn [run_op spec_op].
  - run_with ht_set_ok; [done|]. intros ht' (Hwf' & x & Hm & _). apply returns_ok. split; [done|].
    unfold values. by rewrite Hm, fmap_insert.
  - run_with ht_del_ok; [done|]. intros [b ht'] (Hwf' & Hm & ->). apply returns_ok. split; [done|].
    unfold values. rewrite Hm, fmap_delete, lookup_fmap. do 2 f_equal.
    apply bool_decide_ext. by rewrite fmap_is_Some.
  - run_with ht_find_ok; [done|]. intros r [Hr _]. apply returns_ok. split; [done|].
    unfold values. rewrite lookup_fmap, Hr. by destruct r.
  - apply returns_ok. split; [done|]. unfold values. by rewrite size_of_ok, map_size_fmap.
  - run_with ht_rehashStep_ok; [done|]. intros ht' (Hse & _ & _). apply returns_ok. split; [apply Hse|].
    unfold values. by rewrite (same_entries_map ht ht').
  - apply returns_ok. destruct (flushAll_ok ht Hwf) as [Hw Hm]. split; [done|].
    unfold values. by rewrite Hm, fmap_empty.
Qed.

Lemma ht_run_ops_ok os ht :
  wf ht → run_ops ht os ⇓ λ '(rs, ht'), wf ht' ∧ (rs, values ht') = spec_ops (values ht) os.
Proof.
  revert ht. induction os as [|o os IH]; intros ht Hwf; [done|]. cbn [run_ops spec_ops].
  run_with ht_run_op_ok; [done|]. intros [r ht1] [Hwf1 Hs]. rewrite <- Hs.
  run_with IH; [done|]. intros [rs ht2] [Hwf2 Hs2]. rewrite <- Hs2. by apply returns_ok.
Qed.

Lemma ht_run_ops_wf os ht rs ht' : wf ht → run_ops ht os = Ok (rs, ht') → wf ht'.
Proof. intros Hwf Hr. pose proof (ht_run_ops_ok os ht Hwf) as H. rewrite Hr in H. apply H. Qed.

(** ** Properties *)

(** C10: the table implements a finite map.  Whatever sequence of [set], [del],
    [find], [size], [rehashStep] and [flushAll] is run on a new table, growing
    and migrating on the way, no assertion fails, no index is out of range, and
    every answer is the one a finite map gives. *)
Theorem hashtable_refines_map (os : list op) :
  run_ops empty os ⇓ λ '(rs, ht), wf ht ∧ (rs, values ht) = spec_ops ∅ os.
Proof.
  destruct ht_empty_ok as [Hwf Hm]. eapply returns_mono; [by apply ht_run_ops_ok|].
  intros [rs ht] [Hw Hs]. split; [done|]. rewrite Hs. unfold values. by rewrite Hm, fmap_empty.
Qed.

(** C30: incremental rehashing keeps every entry, value and deadline, whatever
    the number of slots migrated, and is over after as many steps as the old
    table has slots, plus one. *)
Theorem rehash_terminates (ht : HashTable V) (n : nat) :
  wf ht →
  rehashStep n ht ⇓ λ ht', wf ht' ∧ entries ht' ≡ₚ entries ht ∧ to_map ht' = to_map ht ∧
    (capacity (rehash_ ht) < n → isRehashing_ ht' = false ∧ slots (rehash_ ht') = None).
Proof.
  intros Hwf. eapply returns_mono; [by apply ht_rehashStep_ok|]. intros ht' (Hse & Ha & _).
  pose proof Hse as [Hwf' Hp]. split; [done|]. split; [done|]. split; [by apply same_entries_map|].
  intros Hn. pose proof Hwf' as (_ & _ & _ & Hst).
  destruct (isRehashing_ ht') eqn:Hre; [|split; [done|apply Hst]].
  destruct Ha as [Ha|[Ha Hc]]; [congruence|]. destruct Hst as (_ & _ & Hst & _). lia.
Qed.

(** Writing a key changes that key only; a new key has no deadline, and an
    overwritten one keeps its own unless a migration was under way, when the old
    copy may have been dropped together with its deadline. *)
Theorem set_writes_one_key (ht : HashTable V) (k : bytes) (v : V) :
  wf ht →
  set ht k v ⇓ λ ht', wf ht' ∧ ∃ x, to_map ht' = <[k := (v, x)]> (to_map ht) ∧
    match to_map ht !! k with
    | None => x = (-1)%Z
    | Some (_, d) => x = d ∨ isRehashing_ ht = true ∧ x = (-1)%Z
    end.
Proof. apply ht_set_ok. Qed.

(** C31: a complete SCAN of an unchanging table, following the cursors from 0
    until 0 comes back, ends within [capacity] calls and returns every key
    exactly once, also in the middle of a migration. *)
Theorem scan_returns_all_keys (ht : HashTable V) (count : nat) :
  wf ht → 0 < count →
  scan_all (capacity (primary_ ht)) ht 0 count ⇓ λ ks, ks ≡ₚ keys ht.
Proof.
  intros Hwf Hc. pose proof Hwf as (Hp & _ & _ & Hst). unfold table_ok in Hp.
  destruct (slots (primary_ ht)) as [s|] eqn:Hs.
  - destruct Hp as (Hlen & [n Hn] & _). pose proof (Nat.pow_nonzero 2 n).
    eapply returns_mono; [apply (scan_all_from _ ht s); [done..|lia|done|lia]|].
    intros ks ->. unfold keys, first_page, table_entries. rewrite Hs. by rewrite drop_0.
  - destruct Hp as (-> & _). cbn [scan_all]. unfold scan. rewrite Hs. apply returns_ok.
    unfold keys, table_entries. rewrite Hs. destruct (isRehashing_ ht).
    + destruct Hst as [[? ?] _]. congruence.
    + destruct Hst as [-> _]. done.
Qed.

End invariant.

(** ** Witnesses *)

(** Nine insertions overload the first table of four slots, so that a migration
    to eight slots is under way. *)
Definition nine_keys : list op :=
  (λ i, SetKey (lit i) i) <$> ["a"; "b"; "c"; "d"; "e"; "f"; "g"; "h"; "i"]%string.

Definition nine : HashTable string :=
  match run_ops empty nine_keys with Ok (_, ht) => ht | Fault _ => empty end.

Lemma nine_wf : wf nine.
Proof.
  unfold nine. destruct (run_ops empty nine_keys) as [[rs ht]|] eqn:H; [|apply ht_empty_ok].
  eapply ht_run_ops_wf; [apply ht_empty_ok|exact H].
Qed.

Lemma nine_rehashing : isRehashing_ nine = true ∧ capacity (rehash_ nine) = 4.
Proof. vm_compute. done. Qed.

Lemma rehash_terminates_witness :
  rehashStep 5 nine ⇓ λ ht', wf ht' ∧ entries ht' ≡ₚ entries nine ∧ to_map ht' = to_map nine ∧
    (capacity (rehash_ nine) < 5 → isRehashing_ ht' = false ∧ slots (rehash_ ht') = None).
Proof. exact (rehash_terminates nine 5 nine_wf). Defined.

Lemma set_writes_one_key_witness :
  set nine (lit "a") "new"%string ⇓ λ ht', wf ht' ∧
    ∃ x, to_map ht' = <[lit "a" := ("new"%string, x)]> (to_map nine) ∧
    match to_map nine !! lit "a" with
    | None => x = (-1)%Z
    | Some (_, d) => x = d ∨ isRehashing_ nine = true ∧ x = (-1)%Z
    end.
Proof. exact (set_writes_one_key nine (lit "a") "new"%string nine_wf). Defined.

Lemma scan_returns_all_keys_witness :
  scan_all (capacity (primary_ nine)) nine 0 3 ⇓ λ ks, ks ≡ₚ keys nine.
Proof. apply (scan_returns_all_keys nine 3 nine_wf). lia. Defined.

End HashTable.
