(* ===== verification/StoreSkiplist.v ===== *)
(** * [store/Skiplist]: the ordered index of sorted sets

    Class [Skiplist] (src/store/Skiplist.h, Skiplist.cpp): a multi-level linked
    list of heap-allocated nodes ordered by (score, member).

    The nodes live in an explicit store [nodes] from addresses to [Node]s;
    [forward] and [backward] are nullable addresses, [new] takes a fresh address,
    [delete] removes one, and following a null or freed address is a fault.
    [rng_] is the stream of the numbers that the generator will draw from 0..3:
    the theorems hold for every stream.

    The abstract state is the list of (member, score) pairs in order
    ([represents]). *)
From Stdlib Require Import Ascii String ZArith Lia ZifyNat ZifyBool Sorted.
From stdpp Require Import base option list strings gmap.
From S2P Require Import Prelude CStdlib CDouble.

Module Skiplist.

Definition addr := nat.

Record Node := mkNode {
  member : bytes;
  score : double;
  forward : list (option addr);
  backward : option addr
}.

Abbreviation store := (gmap addr Node).

Record Skiplist := mkSkiplist {
  level_ : nat;
  size_ : nat;
  rng_ : nat → Z;
  nodes : store;
  next_addr : addr
}.

Definition kMaxLevel : nat := 32.

(** The sentinel is the first node allocated. *)
Definition header_ : addr := 0.

(** [new Node(m, s, level)] *)
Definition new_node (m : bytes) (s : double) (level : nat) : Node :=
  mkNode m s (replicate level None) None.

Definition create (rng : nat → Z) : Skiplist :=
  mkSkiplist 1 0 rng {[ header_ := new_node [] (SpecFloat.S754_zero false) kMaxLevel ]} 1.

(** *** Memory accesses *)

Definition load (ns : store) (x : addr) : result Node :=
  match ns !! x with Some n => mret n | None => Fault DanglingPointer end.

(** [x->forward[i]] *)
Definition get_forward (ns : store) (x : addr) (i : nat) : result (option addr) :=
  n ← load ns x; vec_get (forward n) i.

(** [x->forward[i] = p] *)
Definition set_forward (ns : store) (x : addr) (i : nat) (p : option addr) : result store :=
  n ← load ns x;
  f ← vec_set (forward n) i p;
  mret (<[x := mkNode (member n) (score n) f (backward n)]> ns).

(** [x->backward = p] *)
Definition set_backward (ns : store) (x : addr) (p : option addr) : result store :=
  n ← load ns x;
  mret (<[x := mkNode (member n) (score n) (forward n) p]> ns).

(** *** Order, levels *)

Definition lessThan (s1 : double) (m1 : bytes) (s2 : double) (m2 : bytes) : bool :=
  if negb (dbl_eqb s1 s2) then dbl_ltb s1 s2 else bytes_ltb m1 m2.

(** [while (dist(rng_) == 0 && lvl < kMaxLevel) ++lvl;] with [n] levels to go;
    a draw is consumed by each test. *)
Fixpoint randomLevel_loop (n lvl : nat) (rng : nat → Z) : nat * (nat → Z) :=
  let rng' := λ i, rng (S i) in
  match n with
  | O => (lvl, rng')
  | S n' => if (rng 0%nat =? 0)%Z then randomLevel_loop n' (lvl + 1) rng' else (lvl, rng')
  end.

Definition randomLevel (rng : nat → Z) : nat * (nat → Z) := randomLevel_loop (kMaxLevel - 1) 1 rng.

(** *** Searching *)

(** The inner [while]: move right on level [i] while the next node is less. *)
Fixpoint walk (fuel : nat) (ns : store) (i : nat) (x : addr) (s : double) (m : bytes)
    : result addr :=
  nx ← get_forward ns x i;
  match nx with
  | None => mret x
  | Some y =>
      n ← load ns y;
      if lessThan (score n) (member n) s m then
        match fuel with
        | O => Fault OutOfFuel
        | S fuel' => walk fuel' ns i y s m
        end
      else mret x
  end.

(** [for (int i = level_ - 1; i >= 0; --i) { while ...; update[i] = x; }]: the
    last position and [update[0 .. level_ - 1]]. *)
Fixpoint descend (i : nat) (ns : store) (x : addr) (s : double) (m : bytes) (update : list addr)
    : result (addr * list addr) :=
  match i with
  | O => mret (x, update)
  | S i' =>
      y ← walk (base.size ns) ns i' x s m;
      descend i' ns y s m (y :: update)
  end.

(** *** Insertion *)

(** [for (int i = 0; i < newLevel; ++i) { node->forward[i] = update[i]->forward[i];
    update[i]->forward[i] = node; }], [n] levels to go. *)
Fixpoint splice (n i : nat) (node : addr) (update : list addr) (ns : store) : result store :=
  match n with
  | O => mret ns
  | S n' =>
      u ← vec_get update i;
      p ← get_forward ns u i;
      ns1 ← set_forward ns node i p;
      ns2 ← set_forward ns1 u i (Some node);
      splice n' (i + 1) node update ns2
  end.

(** Splicing the new node in, and the backward pointers of the new node and of
    its successor. *)
Definition link_node (ns0 : store) (node : addr) (newLevel : nat) (update : list addr) : result store :=
  ns1 ← splice newLevel 0 node update ns0;
  u0 ← vec_get update 0;
  ns2 ← set_backward ns1 node (if bool_decide (u0 = header_) then None else Some u0);
  nx ← get_forward ns2 node 0;
  match nx with
  | Some y => set_backward ns2 y (Some node)
  | None => mret ns2
  end.

Definition insert (sl : Skiplist) (m : bytes) (s : double) : result Skiplist :=
  '(_, update0) ← descend (level_ sl) (nodes sl) header_ s m [];
  let '(newLevel, rng') := randomLevel (rng_ sl) in
  let update := update0 ++ replicate (newLevel - level_ sl) header_ in
  let level' := Nat.max (level_ sl) newLevel in
  let node := next_addr sl in
  ns' ← link_node (<[node := new_node m s newLevel]> (nodes sl)) node newLevel update;
  mret (mkSkiplist level' (size_ sl + 1) rng' ns' (S node)).

(** *** Removal *)

(** [for (int i = 0; i < level_; ++i) { if (update[i]->forward[i] != x) break;
    update[i]->forward[i] = x->forward[i]; }], [n] levels to go. *)
Fixpoint unlink (n i : nat) (x : addr) (update : list addr) (ns : store) : result store :=
  match n with
  | O => mret ns
  | S n' =>
      u ← vec_get update i;
      p ← get_forward ns u i;
      if bool_decide (p = Some x) then
        q ← get_forward ns x i;
        ns1 ← set_forward ns u i q;
        unlink n' (i + 1) x update ns1
      else mret ns
  end.

(** Unlinking [x], the backward pointer of its successor, and [delete x]. *)
Definition detach (ns : store) (x : addr) (level : nat) (update : list addr) : result store :=
  ns1 ← unlink level 0 x update ns;
  nx ← get_forward ns1 x 0;
  xn ← load ns1 x;
  ns2 ← match nx with
        | Some y => set_backward ns1 y (backward xn)
        | None => mret ns1
        end;
  mret (delete x ns2).

(** [while (level_ > 1 && !header_->forward[level_ - 1]) --level_;] *)
Fixpoint shrink (level : nat) (ns : store) : result nat :=
  match level with
  | S (S l as level') =>
      p ← get_forward ns header_ level';
      match p with None => shrink level' ns | Some _ => mret level end
  | _ => mret level
  end.

Definition remove (sl : Skiplist) (m : bytes) (s : double) : result (bool * Skiplist) :=
  '(x0, update) ← descend (level_ sl) (nodes sl) header_ s m [];
  px ← get_forward (nodes sl) x0 0;
  match px with
  | None => mret (false, sl)
  | Some x =>
      n ← load (nodes sl) x;
      if negb (dbl_eqb (score n) s) || negb (bool_decide (member n = m)) then mret (false, sl)
      else
        ns' ← detach (nodes sl) x (level_ sl) update;
        level' ← shrink (level_ sl) ns';
        mret (true, mkSkiplist level' (size_ sl - 1) (rng_ sl) ns' (next_addr sl))
  end.

(** *** Look-up *)

Definition find (sl : Skiplist) (m : bytes) (s : double) : result (option Node) :=
  '(x0, _) ← descend (level_ sl) (nodes sl) header_ s m [];
  px ← get_forward (nodes sl) x0 0;
  match px with
  | None => mret None
  | Some x =>
      n ← load (nodes sl) x;
      mret (if dbl_eqb (score n) s && bool_decide (member n = m) then Some n else None)
  end.

(** [for (int i = 0; i < start && x; ++i) x = x->forward[0];] *)
Fixpoint skip_ranks (n : nat) (ns : store) (x : option addr) : result (option addr) :=
  match n, x with
  | S n', Some y => p ← get_forward ns y 0; skip_ranks n' ns p
  | _, _ => mret x
  end.

(** [for (int i = start; i <= stop && x; ++i) { result.emplace_back(...); x =
    x->forward[0]; }] *)
Fixpoint collect (n : nat) (ns : store) (x : option addr) (acc : list (bytes * double))
    : result (list (bytes * double)) :=
  match n, x with
  | S n', Some y =>
      nd ← load ns y;
      p ← get_forward ns y 0;
      collect n' ns p (acc ++ [(member nd, score nd)])
  | _, _ => mret acc
  end.

Definition rangeByRank (sl : Skiplist) (start stop : Z) : result (list (bytes * double)) :=
  let n := wrap_s32 (Z.of_nat (size_ sl)) in
  let start1 := (if start <? 0 then start + n else start)%Z in
  let stop1 := (if stop <? 0 then stop + n else stop)%Z in
  let start2 := (if start1 <? 0 then 0 else start1)%Z in
  let stop2 := (if n <=? stop1 then n - 1 else stop1)%Z in
  if (stop2 <? start2)%Z || (n <=? start2)%Z then mret []
  else
    x0 ← get_forward (nodes sl) header_ 0;
    x ← skip_ranks (Z.to_nat start2) (nodes sl) x0;
    collect (Z.to_nat (stop2 - start2 + 1)) (nodes sl) x [].

Definition size (sl : Skiplist) : nat := size_ sl.

(** *** Destruction *)

(** [while (x) { next = x->forward[0]; delete x; x = next; }] *)
Fixpoint delete_chain (fuel : nat) (ns : store) (x : option addr) : result store :=
  match x, fuel with
  | None, _ => mret ns
  | Some y, O => Fault OutOfFuel
  | Some y, S fuel' => next ← get_forward ns y 0; delete_chain fuel' (delete y ns) next
  end.

(** What is left in the store. *)
Definition deleteAllNodes (sl : Skiplist) : result store :=
  x ← get_forward (nodes sl) header_ 0;
  ns ← delete_chain (size_ sl) (nodes sl) x;
  mret (delete header_ ns).

(** ** Views of the store *)

Definition fwd_at (ns : store) (x : addr) (i : nat) : option (option addr) :=
  match ns !! x with Some n => forward n !! i | None => None end.
Definition data_of (ns : store) (x : addr) : option (bytes * double) :=
  (λ n, (member n, score n)) <$> ns !! x.
Definition back_of (ns : store) (x : addr) : option (option addr) := backward <$> ns !! x.
Definition height (ns : store) (x : addr) : nat :=
  match ns !! x with Some n => length (forward n) | None => 0 end.

(** The same nodes, with the same members, scores and heights. *)
Definition same_nodes (ns ns' : store) : Prop :=
  (∀ x, height ns' x = height ns x) ∧ (∀ x, data_of ns' x = data_of ns x).

Lemma same_nodes_trans ns1 ns2 ns3 :
  same_nodes ns1 ns2 → same_nodes ns2 ns3 → same_nodes ns1 ns3.
Proof. intros [H1 H2] [H3 H4]. split; intros x; [by rewrite H3|by rewrite H4]. Qed.

Lemma data_is_Some ns x : is_Some (data_of ns x) ↔ is_Some (ns !! x).
Proof. unfold data_of. apply fmap_is_Some. Qed.

Lemma fwd_at_height ns x i : is_Some (fwd_at ns x i) ↔ i < height ns x.
Proof.
  unfold fwd_at, height. destruct (ns !! x); [apply lookup_lt_is_Some|].
  split; [intros []; congruence|lia].
Qed.

Lemma get_forward_ok ns x i p : fwd_at ns x i = Some p → get_forward ns x i = Ok p.
Proof.
  unfold fwd_at, get_forward, load. destruct (ns !! x); [|done]. cbn.
  apply vec_get_ok.
Qed.

Lemma sl_load_ok ns x e :
  data_of ns x = Some e → load ns x ⇓ λ n, member n = e.1 ∧ score n = e.2 ∧ ns !! x = Some n.
Proof. unfold data_of, load. destruct (ns !! x); [|done]. simpl. by intros [= <-]. Qed.

Lemma set_forward_ok ns x i p :
  i < height ns x →
  set_forward ns x i p ⇓ λ ns', same_nodes ns ns' ∧
    (∀ y, back_of ns' y = back_of ns y) ∧
    ∀ y j, fwd_at ns' y j = if decide (y = x ∧ j = i) then Some p else fwd_at ns y j.
Proof.
  unfold same_nodes, height, data_of, back_of, fwd_at, set_forward, load.
  destruct (ns !! x) as [n|] eqn:Hx; [|lia]. cbn. intros Hi. rewrite vec_set_ok by done. cbn.
  split; [split|split]; intros y; destruct (decide (y = x)) as [->|Hne];
    rewrite ?lookup_insert_eq, ?lookup_insert_ne, ?Hx by done; simpl; rewrite ?length_insert; try done.
  - intros j. destruct (decide (j = i)) as [->|Hj].
    + rewrite decide_True by done. by rewrite list_lookup_insert_eq.
    + rewrite decide_False by tauto. by rewrite list_lookup_insert_ne.
  - intros j. by rewrite decide_False by tauto.
Qed.

Lemma set_backward_ok ns x p :
  is_Some (data_of ns x) →
  set_backward ns x p ⇓ λ ns', same_nodes ns ns' ∧
    (∀ y j, fwd_at ns' y j = fwd_at ns y j) ∧
    ∀ y, back_of ns' y = if decide (y = x) then Some p else back_of ns y.
Proof.
  unfold same_nodes, height, data_of, back_of, fwd_at, set_backward, load.
  destruct (ns !! x) as [n|] eqn:Hx; [|by intros []]. intros _. cbn.
  split; [split|split]; intros y; destruct (decide (y = x)) as [->|Hne];
    rewrite ?lookup_insert_eq, ?lookup_insert_ne, ?Hx by done; done.
Qed.

(** ** Invariant *)

(** The first node of [l] that reaches level [i]. *)
Definition first_tall (ns : store) (i : nat) (l : list addr) : option addr :=
  List.find (λ x, i <? height ns x) l.

(** Every pointer of level [i] leads to the next node of that level. *)
Definition links_ok (ns : store) (ids : list addr) : Prop :=
  ∀ pre x post i, header_ :: ids = pre ++ x :: post → i < height ns x →
    fwd_at ns x i = Some (first_tall ns i post).

(** Every backward pointer leads to the previous node. *)
Definition backs_ok (ns : store) (ids : list addr) : Prop :=
  ∀ pre x post, ids = pre ++ x :: post → back_of ns x = Some (last pre).

Record wf (sl : Skiplist) (ids : list addr) : Prop := {
  wf_nodup : NoDup (header_ :: ids);
  wf_dom x : is_Some (data_of (nodes sl) x) ↔ x ∈ header_ :: ids;
  wf_header : height (nodes sl) header_ = kMaxLevel;
  wf_heights : Forall (λ x, 0 < height (nodes sl) x ≤ level_ sl) ids;
  wf_links : links_ok (nodes sl) ids;
  wf_backs : backs_ok (nodes sl) ids;
  wf_size : size_ sl = length ids;
  wf_level : 0 < level_ sl ≤ kMaxLevel;
  wf_top : level_ sl = 1 ∨ first_tall (nodes sl) (level_ sl - 1) ids ≠ None;
  wf_fresh : Forall (λ x, x < next_addr sl) (header_ :: ids)
}.

(** *** The order of the elements *)

Abbreviation elem := (bytes * double)%type.

Definition elem_ok (e : elem) : Prop := is_nan e.2 = false.
Definition less (e f : elem) : bool := lessThan e.2 e.1 f.2 f.1.
Definition same (e f : elem) : bool := dbl_eqb e.2 f.2 && bool_decide (e.1 = f.1).

Definition sorted (l : list elem) : Prop :=
  Forall elem_ok l ∧ StronglySorted (λ e f, less e f = true) l.

(** The skiplist links the elements of [l], in this order, whatever it is. *)
Definition chained (sl : Skiplist) (l : list elem) : Prop :=
  ∃ ids, wf sl ids ∧ data_of (nodes sl) <$> ids = Some <$> l.

(** The skiplist holds the elements of [l], in order. *)
Definition represents (sl : Skiplist) (l : list elem) : Prop := chained sl l ∧ sorted l.

Lemma less_rank e f :
  elem_ok e → elem_ok f →
  less e f = true ↔ rank_lt (rank e.2) (rank f.2) ∨ rank e.2 = rank f.2 ∧ bytes_ltb e.1 f.1 = true.
Proof.
  intros He Hf. unfold less, lessThan. pose proof (dbl_ltb_rank _ _ He Hf) as Hlt.
  pose proof (dbl_eqb_rank _ _ He Hf) as Heq.
  destruct (dbl_eqb e.2 f.2); simpl.
  - assert (Hr : rank e.2 = rank f.2) by by apply Heq. rewrite Hr in *.
    pose proof (rank_lt_irrefl (rank f.2)). tauto.
  - assert (Hr : rank e.2 ≠ rank f.2) by by intros ?%Heq. rewrite Hlt. tauto.
Qed.

Lemma less_irrefl e : elem_ok e → less e e = false.
Proof.
  intros He. apply not_true_is_false. rewrite less_rank by done.
  intros [?%rank_lt_irrefl|[_ H]]; [done|]. by apply bytes_ltb_irrefl in H.
Qed.

Lemma less_trans e f g :
  elem_ok e → elem_ok f → elem_ok g → less e f = true → less f g = true → less e g = true.
Proof.
  intros He Hf Hg. rewrite !less_rank by done.
  intros [H1|[H1 H1']] [H2|[H2 H2']].
  - left. by eapply rank_lt_trans.
  - left. by rewrite <- H2.
  - left. by rewrite H1.
  - right. split; [congruence|]. by eapply (bytes_ltb_trans e.1 f.1 g.1).
Qed.

Lemma less_total e f :
  elem_ok e → elem_ok f → less e f = true ∨ same e f = true ∨ less f e = true.
Proof.
  intros He Hf. rewrite !less_rank by done. unfold same.
  rewrite andb_true_iff, dbl_eqb_rank, bool_decide_eq_true by done.
  destruct (rank_lt_total (rank e.2) (rank f.2)) as [?|[?|?]];
    destruct (bytes_ltb_total e.1 f.1) as [?|[?|?]]; auto 6.
Qed.

Lemma same_less e f g :
  elem_ok e → elem_ok f → elem_ok g → same e f = true → less g e = less g f ∧ less e g = less f g.
Proof.
  intros He Hf Hg. unfold same. rewrite andb_true_iff, dbl_eqb_rank, bool_decide_eq_true by done.
  intros [Hr Hm]. split; apply eq_true_iff_eq; rewrite !less_rank by done; by rewrite Hr, Hm.
Qed.

(** The elements before and from the place of [e]. *)
Definition lower (e : elem) (l : list elem) : list elem := filter (λ f, less f e = true) l.
Definition upper (e : elem) (l : list elem) : list elem := filter (λ f, ¬ less f e = true) l.

Lemma lower_nil e l : Forall (λ f, ¬ less f e = true) l → lower e l = [].
Proof.
  unfold lower. induction 1 as [|f l Hf _ IH]; [done|]. by rewrite filter_cons, decide_False.
Qed.

Lemma sorted_cons e l : sorted (e :: l) ↔ elem_ok e ∧ Forall (λ f, less e f = true) l ∧ sorted l.
Proof.
  unfold sorted. rewrite Forall_cons. split.
  - intros [[? ?] [? ?]%StronglySorted_inv]. done.
  - intros (? & ? & ? & ?). split; [done|by constructor].
Qed.

(** A sorted list falls into the part below [e] and the rest. *)
Lemma sorted_split e l : elem_ok e → sorted l → l = lower e l ++ upper e l.
Proof.
  intros He. induction l as [|f l IH]; [done|]. intros (Hf & Hall & Hs)%sorted_cons.
  unfold lower, upper. rewrite !filter_cons.
  destruct (decide (less f e = true)) as [Hlt|Hge].
  - rewrite decide_False by tauto. simpl. f_equal. by apply IH.
  - rewrite decide_True by done. fold (lower e l) (upper e l).
    assert (Hn : lower e l = []).
    { apply lower_nil. apply list.Forall_forall. intros g Hg Hge'. apply Hge.
      destruct Hs as [Hok _]. rewrite list.Forall_forall in Hok, Hall. eauto using less_trans. }
    rewrite Hn. simpl. f_equal. rewrite (IH Hs) at 1. by rewrite Hn.
Qed.

Lemma sorted_app l1 l2 :
  sorted (l1 ++ l2) ↔ sorted l1 ∧ sorted l2 ∧ ∀ e f, e ∈ l1 → f ∈ l2 → less e f = true.
Proof.
  induction l1 as [|e l1 IH]; simpl.
  - split; [|tauto]. intros ?. split; [repeat constructor|]. split; [done|]. by intros ? ? ?%not_elem_of_nil.
  - rewrite !sorted_cons, IH, Forall_app, !list.Forall_forall. set_solver.
Qed.

Lemma lower_elem e l f : f ∈ lower e l ↔ less f e = true ∧ f ∈ l.
Proof. unfold lower. by rewrite list_elem_of_filter. Qed.

Lemma upper_elem e l f : f ∈ upper e l ↔ ¬ less f e = true ∧ f ∈ l.
Proof. unfold upper. by rewrite list_elem_of_filter. Qed.

(** Inserting a new element at its place keeps the list sorted. *)
Lemma sorted_insert e l :
  elem_ok e → sorted l → Forall (λ f, same f e = false) l → sorted (lower e l ++ e :: upper e l).
Proof.
  intros He Hs Hnew. pose proof Hs as [Hok _]. rewrite list.Forall_forall in Hok, Hnew.
  pose proof Hs as Hs'. rewrite (sorted_split e l He Hs), sorted_app in Hs'. destruct Hs' as (H1 & H2 & H3).
  rewrite sorted_app, sorted_cons, list.Forall_forall.
  assert (Hup : ∀ f, f ∈ upper e l → less e f = true).
  { intros f [Hge Hf]%upper_elem. destruct (less_total f e (Hok f Hf) He) as [?|[?|?]]; [done| |done].
    rewrite Hnew in *; done. }
  split; [done|]. split; [auto|]. intros f g Hf [->|Hg]%elem_of_cons; [|auto].
  by apply lower_elem in Hf as [? _].
Qed.

(** ** Searching *)

Lemma first_tall_app ns i l1 l2 :
  first_tall ns i (l1 ++ l2) =
    match first_tall ns i l1 with Some y => Some y | None => first_tall ns i l2 end.
Proof. unfold first_tall. induction l1 as [|x l1 IH]; simpl; [done|]. by destruct (i <? height ns x). Qed.

Lemma first_tall_Some ns i l y :
  first_tall ns i l = Some y → ∃ l1 l2, l = l1 ++ y :: l2 ∧ i < height ns y ∧ Forall (λ x, height ns x ≤ i) l1.
Proof.
  unfold first_tall. induction l as [|x l IH]; simpl; [done|].
  destruct (Nat.ltb_spec i (height ns x)) as [H|H].
  - intros [= ->]. by exists [], l.
  - intros (l1 & l2 & -> & ? & ?)%IH. exists (x :: l1), l2. split; [done|]. split; [done|]. by constructor.
Qed.

Lemma first_tall_None ns i l : first_tall ns i l = None ↔ Forall (λ x, height ns x ≤ i) l.
Proof.
  unfold first_tall. induction l as [|x l IH]; simpl; [done|]. rewrite Forall_cons.
  destruct (Nat.ltb_spec i (height ns x)); [|rewrite IH; intuition lia].
  split; [done|]. intros [? _]. lia.
Qed.

Lemma first_tall_ext ns ns' i l :
  (∀ x, x ∈ l → height ns' x = height ns x) → first_tall ns' i l = first_tall ns i l.
Proof.
  unfold first_tall. induction l as [|x l IH]; simpl; [done|]. intros H.
  rewrite (H x), IH; [done|set_solver|set_solver].
Qed.

Lemma first_tall_head ns l :
  Forall (λ x, 0 < height ns x) l → first_tall ns 0 l = head l.
Proof.
  destruct 1 as [|x l Hx _]; [done|]. unfold first_tall. simpl.
  by destruct (Nat.ltb_spec 0 (height ns x)); [|lia].
Qed.

(** [u] is the last node of level [i] among the sentinel and [lo]. *)
Definition is_pred (ns : store) (i : nat) (lo : list addr) (u : addr) : Prop :=
  ∃ pre mid, header_ :: lo = pre ++ u :: mid ∧ i < height ns u ∧ Forall (λ z, height ns z ≤ i) mid.

Lemma filter_all {A} (P : A → Prop) `{∀ x, Decision (P x)} (l : list A) : Forall P l → filter P l = l.
Proof. induction 1 as [|x l Hx _ IH]; [done|]. by rewrite filter_cons, decide_True, IH. Qed.

Section search.
Context (ns : store) (ids : list addr) (m : bytes) (s : double).
Hypothesis Hlinks : links_ok ns ids.
Hypothesis Hdata : ∀ x, x ∈ ids → is_Some (data_of ns x).

(** The comparison of the walk: the node at [x] is less than the target. *)
Definition less_at (x : addr) : bool :=
  match data_of ns x with Some e => less e (m, s) | None => false end.

(** The next node of level [i], if any, is not less. *)
Definition stops (i : nat) (mid : list addr) : Prop := ∀ y, first_tall ns i mid = Some y → less_at y = false.

Lemma walk_ok fuel i x pre mid :
  header_ :: ids = pre ++ x :: mid → i < height ns x → length mid ≤ fuel →
  walk fuel ns i x s m ⇓ λ y, ∃ seg mid', mid = seg ++ mid' ∧ last (x :: seg) = Some y ∧
    i < height ns y ∧ stops i mid' ∧ Forall (λ z, i < height ns z → less_at z = true) seg.
Proof using Hlinks Hdata.
  revert x pre mid. induction fuel as [|fuel IH]; intros x pre mid Hsplit Hi Hf; cbn [walk];
    rewrite (get_forward_ok _ _ _ (first_tall ns i mid)) by (by apply (Hlinks pre)); cbn [mbind result_bind].
  { destruct mid; [|simpl in Hf; lia]. cbn. by exists [], []. }
  destruct (first_tall ns i mid) as [y|] eqn:Hmid; [|apply returns_ok; exists [], mid; split; [done|];
    repeat (split; [done|]); split; [intros ?; by rewrite Hmid|constructor]].
  pose proof Hmid as (m1 & m2 & -> & Hty & Hm1)%first_tall_Some.
  destruct (Hdata y) as [e He]; [destruct pre as [|? pre]; simplify_eq/=; set_solver|].
  run_with sl_load_ok; [exact He|]. intros n (-> & -> & _).
  destruct (lessThan e.2 e.1 s m) eqn:Hle.
  - eapply returns_mono; [apply (IH y (pre ++ x :: m1) m2); [by rewrite Hsplit, <- app_assoc|done|]|].
    { rewrite length_app in Hf. simpl in Hf. lia. }
    intros z (seg & mid' & -> & Hlast & Hz & Hst & Hseg). exists (m1 ++ y :: seg), mid'.
    rewrite <- app_assoc. split; [done|]. split; [by rewrite app_comm_cons, last_app, Hlast|].
    split; [done|]. split; [done|]. apply Forall_app. split.
    + eapply Forall_impl; [exact Hm1|]. simpl. lia.
    + constructor; [|done]. intros _. unfold less_at. by rewrite He.
  - apply returns_ok. exists [], (m1 ++ y :: m2). split; [done|]. split; [done|]. split; [done|].
    split; [|constructor]. intros y' Hy'. assert (y' = y) as -> by congruence. unfold less_at. by rewrite He.
Qed.

(** A lower level cannot pass the node at which a higher one stopped. *)
Lemma stops_skip i j seg mid :
  i ≤ j → Forall (λ z, i < height ns z → less_at z = true) seg → stops j (seg ++ mid) →
  Forall (λ z, height ns z ≤ j) seg ∧ stops j mid.
Proof.
  intros Hij Hseg Hst. assert (Hnone : first_tall ns j seg = None).
  { destruct (first_tall ns j seg) as [w|] eqn:Hw; [|done].
    pose proof (Hst w ltac:(by rewrite first_tall_app, Hw)) as Hno.
    apply first_tall_Some in Hw as (? & ? & -> & Hh & _). rewrite Forall_app, Forall_cons in Hseg.
    destruct Hseg as (_ & Hyes & _). rewrite Hyes in Hno by lia. done. }
  split; [by apply first_tall_None|]. intros y Hy. apply Hst. by rewrite first_tall_app, Hnone.
Qed.

Lemma descend_ok n x pre mid update :
  header_ :: ids = pre ++ x :: mid → n ≤ height ns x → length ids ≤ base.size ns →
  descend n ns x s m update ⇓ λ '(y, upd), ∃ new seg mid',
    upd = new ++ update ∧ length new = n ∧ mid = seg ++ mid' ∧ last (x :: seg) = Some y ∧
    (∀ i u, new !! i = Some u → ∃ a b, pre ++ x :: seg = a ++ u :: b ∧ i < height ns u ∧
       Forall (λ z, height ns z ≤ i) b) ∧
    (if n is 0 then seg = [] else new !! 0 = Some y ∧ stops 0 mid') ∧ (seg = [] ∨ less_at y = true) ∧
    (∀ j, n ≤ j → stops j mid → Forall (λ z, height ns z ≤ j) seg ∧ stops j mid').
Proof using Hlinks Hdata.
  revert x pre mid update. induction n as [|n IH]; intros x pre mid update Hsplit Hn Hsz; cbn [descend].
  { apply returns_ok. exists [], [], mid. repeat (split; [done|]). split; [by left|]. intros j _ Hj. by split. }
  run_with walk_ok; [exact Hsplit|lia|..].
  { apply (f_equal length) in Hsplit. rewrite length_app in Hsplit. simpl in Hsplit. lia. }
  intros y (seg & mid' & -> & Hlast & Hy & Hst & Hseg).
  apply last_Some in Hlast as [w Hw].
  assert (Hpre : pre ++ x :: seg = (pre ++ w) ++ [y]) by by rewrite Hw, <- app_assoc.
  eapply returns_mono; [apply (IH y (pre ++ w) mid'); [|lia|done]|].
  { rewrite Hsplit, app_comm_cons, Hw, <- !app_assoc. done. }
  intros [z upd] (new & seg2 & mid2 & -> & Hlen & -> & Hl2 & Hpred & Hzero & Hless & Hframe).
  assert (Hall : pre ++ x :: seg ++ seg2 = (pre ++ w) ++ y :: seg2).
  { rewrite (app_comm_cons seg), app_assoc, Hpre, <- app_assoc. done. }
  exists (new ++ [y]), (seg ++ seg2), mid2. rewrite <- !app_assoc. split; [done|].
  split; [rewrite length_app; simpl; lia|]. split; [done|]. split.
  { rewrite app_comm_cons, Hw, <- app_assoc, last_app. cbn [app]. by rewrite Hl2. }
  destruct (Hframe n ltac:(lia) Hst) as [Hs2 Hst2]. split; [|split; [|split]].
  - rewrite Hall. intros i u [Hi|[Hge Hi]]%lookup_app_Some; [by apply Hpred|].
    apply list_lookup_singleton_Some in Hi as [? ->]. replace i with n by lia. by exists (pre ++ w), seg2.
  - destruct n as [|n]; [|by rewrite lookup_app_l by lia]. subst seg2. destruct new; [|done].
    split; [|done]. cbn in *. by simplify_eq.
  - destruct Hless as [->|Hz]; [|by right]. rewrite app_nil_r. injection Hl2 as <-.
    destruct seg as [|v seg]; [by left|right]. rewrite list.Forall_forall in Hseg. apply Hseg; [|done].
    destruct w as [|? w]; [done|]. injection Hw as _ ->. apply elem_of_app. right. by left.
  - intros j Hj Hstj. destruct (stops_skip n j seg (seg2 ++ mid2)) as [Hs1 Hst1]; [lia|done|done|].
    destruct (Hframe j ltac:(lia) Hst1) as [? ?]. split; [by apply Forall_app|done].
Qed.

End search.

(** An occurrence in [l1 ++ l2] is in one of the two. *)
Lemma app_occurrence {A} (l1 l2 pre post : list A) x :
  l1 ++ l2 = pre ++ x :: post →
  (∃ mid, l1 = pre ++ x :: mid ∧ post = mid ++ l2) ∨ (∃ pre', l2 = pre' ++ x :: post ∧ pre = l1 ++ pre').
Proof.
  intros (k & [[-> Hk]|[-> Hk]])%app_eq_app; [|right; by exists k].
  destruct k as [|y k]; simpl in Hk; simplify_eq/=.
  - right. exists []. by rewrite !app_nil_r.
  - left. by exists k.
Qed.

Lemma is_pred_last ns i lo u :
  is_pred ns i lo u → last (filter (λ z, i < height ns z) (header_ :: lo)) = Some u.
Proof.
  intros (pre & mid & -> & Hu & Hmid). rewrite filter_app, filter_cons, decide_True by done.
  replace (filter (λ z, i < height ns z) mid) with (@nil addr).
  - by rewrite last_snoc.
  - induction Hmid as [|z mid Hz _ IH]; [done|]. by rewrite filter_cons, decide_False by lia.
Qed.

Lemma is_pred_unique ns i lo u v : is_pred ns i lo u → is_pred ns i lo v → u = v.
Proof. intros Hu%is_pred_last Hv%is_pred_last. congruence. Qed.

Lemma is_pred_elem ns i lo u : is_pred ns i lo u → u ∈ header_ :: lo.
Proof. intros (pre & mid & -> & _). set_solver. Qed.

(** What the search finds in a well-formed skiplist: a place, its predecessors on
    all levels, and neighbours between which the target belongs. *)
Lemma search_any sl ids l e :
  wf sl ids → data_of (nodes sl) <$> ids = Some <$> l →
  descend (level_ sl) (nodes sl) header_ e.2 e.1 [] ⇓ λ '(y, upd), ∃ lo hi l1 l2,
    ids = lo ++ hi ∧ l = l1 ++ l2 ∧ data_of (nodes sl) <$> lo = Some <$> l1 ∧
    data_of (nodes sl) <$> hi = Some <$> l2 ∧
    (∀ f, last l1 = Some f → less f e = true) ∧ (∀ f, head l2 = Some f → less f e = false) ∧
    length upd = level_ sl ∧ (∀ i u, upd !! i = Some u → is_pred (nodes sl) i lo u) ∧
    upd !! 0 = Some y ∧ fwd_at (nodes sl) y 0 = Some (head hi) ∧ last (header_ :: lo) = Some y.
Proof.
  intros Hwf Hdata. destruct e as [m s]. cbn [fst snd]. pose proof (wf_nodup _ _ Hwf) as [Hhdr Hnd]%NoDup_cons.
  assert (Hdom : ∀ x, x ∈ ids → is_Some (data_of (nodes sl) x)).
  { intros x Hx. apply (wf_dom _ _ Hwf). by right. }
  eapply returns_mono; [apply (descend_ok (nodes sl) ids m s (wf_links _ _ Hwf) Hdom _ header_ [] ids); [done|..]|].
  { rewrite (wf_header _ _ Hwf). apply Hwf. }
  { assert (Hsub : list_to_set ids ⊆ dom (nodes sl)).
    { intros x Hx%elem_of_list_to_set. by apply elem_of_dom, data_is_Some, Hdom. }
    apply subseteq_size in Hsub. by rewrite size_list_to_set, size_dom in Hsub. }
  intros [y upd] (new & lo & hi & -> & Hlen & -> & Hlast & Hpred & Hzero & Hless & _). rewrite app_nil_r.
  pose proof (wf_level _ _ Hwf) as Hlv. destruct (level_ sl) as [|n] eqn:Hl; [lia|]. destruct Hzero as [Hy Hst].
  pose proof Hdata as Hd. rewrite fmap_app in Hd. symmetry in Hd. apply fmap_app_inv in Hd as (l1 & l2 & Hl1 & Hl2 & ->).
  assert (Hhead : first_tall (nodes sl) 0 hi = head hi).
  { apply first_tall_head. pose proof (wf_heights _ _ Hwf) as [_ Hh]%Forall_app.
    eapply Forall_impl; [exact Hh|]. simpl. lia. }
  exists lo, hi, l1, l2. repeat (split; [done|]). split; [|split; [|split; [done|split; [done|split; [done|split; [|done]]]]]].
  - intros f Hf. apply (f_equal last) in Hl1. rewrite !fmap_last, Hf in Hl1. rewrite last_cons in Hlast.
    destruct (last lo) as [z|] eqn:Hz; [|done]. simplify_eq/=. destruct Hless as [->|Hless]; [done|].
    unfold less_at in Hless.
    by assert (data_of (nodes sl) y = Some f) as Hyf by congruence; rewrite Hyf in Hless.
  - intros f Hf. destruct hi as [|x hi], l2 as [|f' l2]; try done. simplify_eq/=.
    specialize (Hst x Hhead). unfold less_at in Hst.
    by assert (data_of (nodes sl) x = Some f) as Hxf by congruence; rewrite Hxf in Hst.
  - apply last_Some in Hlast as [w Hw].
    rewrite (wf_links _ _ Hwf w y hi 0); [by rewrite Hhead|by rewrite app_comm_cons, Hw, <- app_assoc|].
    by destruct (Hpred 0 y Hy) as (? & ? & _ & ? & _).
Qed.

(** In a sorted list the place is the one the order gives. *)
Lemma sorted_place e l1 l2 :
  sorted (l1 ++ l2) → elem_ok e → (∀ f, last l1 = Some f → less f e = true) →
  (∀ f, head l2 = Some f → less f e = false) → l1 = lower e (l1 ++ l2) ∧ l2 = upper e (l1 ++ l2).
Proof.
  intros Hs He Hlast Hhead. pose proof Hs as (Hs1 & Hs2 & Hs12)%sorted_app.
  assert (H1 : Forall (λ f, less f e = true) l1).
  { destruct l1 as [|x l1 _] using rev_ind; [constructor|]. rewrite last_snoc in Hlast.
    apply Forall_app. split; [|constructor; [by apply Hlast|constructor]].
    apply sorted_app in Hs1 as ([Hl1 _] & (Hx & _)%sorted_cons & Hlx). rewrite list.Forall_forall in Hl1 |- *.
    intros f Hf. apply (less_trans f x e); auto. apply Hlx; [done|by left]. }
  assert (H2 : Forall (λ f, ¬ less f e = true) l2).
  { destruct l2 as [|x l2]; [constructor|]. specialize (Hhead x eq_refl). constructor; [congruence|].
    apply sorted_cons in Hs2 as (Hx & Hxl & Hl2 & _). rewrite list.Forall_forall in Hxl, Hl2 |- *.
    intros f Hf Hfe. assert (less x e = true) by (apply (less_trans x f e); auto). congruence. }
  unfold lower, upper. rewrite !filter_app. fold (lower e l2).
  rewrite (lower_nil e l2), app_nil_r, (filter_all _ l1), (filter_all _ l2) by done. split; [done|].
  replace (filter (λ f, ¬ less f e = true) l1) with (@nil elem); [done|].
  clear -H1. induction H1 as [|f l Hf _ IH]; [done|]. rewrite filter_cons, decide_False; [done|]. auto.
Qed.

(** ** Insertion *)

(** The store after [k] levels of [splice]. *)
Definition spliced (ns0 : store) (node : addr) (update : list addr) (k : nat) (ns : store) : Prop :=
  same_nodes ns0 ns ∧ (∀ x, back_of ns x = back_of ns0 x) ∧
  (∀ j u, j < k → update !! j = Some u → fwd_at ns node j = fwd_at ns0 u j) ∧
  (∀ j u, j < k → update !! j = Some u → fwd_at ns u j = Some (Some node)) ∧
  (∀ j x, x ≠ node → ¬ (j < k ∧ update !! j = Some x) → fwd_at ns x j = fwd_at ns0 x j).

Lemma splice_ok ns0 node update n i ns :
  i + n ≤ height ns0 node → i + n ≤ length update → node ∉ update →
  (∀ j u, update !! j = Some u → j < height ns0 u) →
  spliced ns0 node update i ns →
  splice n i node update ns ⇓ spliced ns0 node update (i + n).
Proof.
  intros Hh Hlen Hnode Hu. revert i ns Hh Hlen. induction n as [|n IH]; intros i ns Hh Hlen Hsp; cbn [splice].
  { by rewrite Nat.add_0_r. }
  destruct Hsp as ((Hsh & Hsd) & Hb & H1 & H2 & H3).
  destruct (lookup_lt_is_Some_2 update i) as [u Hui]; [lia|].
  assert (Hne : u ≠ node) by (intros ->; by apply Hnode, (list_elem_of_lookup_2 _ i)).
  assert (Hiu : i < height ns0 u) by by apply Hu. apply fwd_at_height in Hiu as [p Hp].
  rewrite (vec_get_ok _ _ _ Hui). cbn.
  rewrite (get_forward_ok _ _ _ p); [cbn|rewrite H3; [done|done|lia]].
  run_with set_forward_ok; [rewrite Hsh; lia|]. intros ns1 ((Hh1 & Hd1) & Hb1 & Hf1).
  run_with set_forward_ok; [rewrite Hh1, Hsh; apply fwd_at_height; eauto|].
  intros ns2 ((Hh2 & Hd2) & Hb2 & Hf2). replace (i + S n) with (i + 1 + n) by lia.
  apply IH; [lia|lia|]. split; [split; congruence|]. split; [congruence|].
  assert (Hf : ∀ x j, fwd_at ns2 x j = if decide (x = u ∧ j = i) then Some (Some node) else
    if decide (x = node ∧ j = i) then Some p else fwd_at ns x j).
  { intros x j. by rewrite Hf2, Hf1. }
  split; [|split].
  - intros j v Hj Hv. rewrite Hf, decide_False by naive_solver. case_decide as Hd.
    + destruct Hd as [_ ->]. congruence.
    + apply H1; [|done]. destruct (decide (j = i)); [naive_solver|lia].
  - intros j v Hj Hv. rewrite Hf. case_decide as Hd; [done|]. rewrite decide_False.
    + apply H2; [|done]. destruct (decide (j = i)); [naive_solver|lia].
    + intros [-> ->]. by apply Hnode, (list_elem_of_lookup_2 _ i).
  - intros j x Hx Hno. rewrite Hf, !decide_False; [|naive_solver|].
    + apply H3; [done|]. intros [? ?]. apply Hno. split; [lia|done].
    + intros [-> ->]. apply Hno. split; [lia|done].
Qed.

(** A node with a node of level [i] between it and the end of [lo] is not the
    last one. *)
Lemma not_pred ns i lo pre x mid y :
  NoDup (header_ :: lo) → header_ :: lo = pre ++ x :: mid → first_tall ns i mid = Some y →
  ¬ is_pred ns i lo x.
Proof.
  intros Hnd Hx (m1 & m2 & -> & Hy & _)%first_tall_Some Hp%is_pred_last.
  rewrite Hx in Hp, Hnd. replace (pre ++ x :: m1 ++ y :: m2) with ((pre ++ x :: m1) ++ y :: m2) in Hp, Hnd
    by by rewrite <- app_assoc.
  rewrite filter_app, (filter_cons _ y), decide_True, last_app_cons in Hp by done.
  apply last_Some_elem_of in Hp. apply NoDup_app in Hnd as (_ & Hnd & _). apply (Hnd x); [set_solver|].
  apply elem_of_cons in Hp as [->|[_ ?]%list_elem_of_filter]; set_solver.
Qed.

(** Linking a new node of height [h] between [lo] and [hi]. *)
Lemma links_insert ns ns' lo hi node h :
  links_ok ns (lo ++ hi) → NoDup (header_ :: lo ++ hi) → node ∉ header_ :: lo ++ hi →
  height ns' node = h → (∀ x, x ≠ node → height ns' x = height ns x) →
  (∀ j, j < h → fwd_at ns' node j = Some (first_tall ns j hi)) →
  (∀ j u, j < h → is_pred ns j lo u → fwd_at ns' u j = Some (Some node)) →
  (∀ j x, x ≠ node → ¬ (j < h ∧ is_pred ns j lo x) → fwd_at ns' x j = fwd_at ns x j) →
  links_ok ns' (lo ++ node :: hi).
Proof.
  intros Hl Hnd Hnode Hh Hhs Hf1 Hf2 Hf3 pre x post i Hsplit Hi.
  assert (Hft : ∀ j k, node ∉ k → first_tall ns' j k = first_tall ns j k).
  { intros j k Hk. apply first_tall_ext. intros y Hy. apply Hhs. by intros ->. }
  rewrite app_comm_cons in Hsplit. apply app_occurrence in Hsplit as [(mid & Hx & ->)|(pre' & Hx & ->)].
  - assert (Hxn : x ≠ node).
    { intros ->. apply Hnode. rewrite app_comm_cons, Hx. set_solver. }
    assert (Hmid : node ∉ mid).
    { intros Hm. apply Hnode. rewrite app_comm_cons, Hx. set_solver. }
    assert (Hhi : node ∉ hi) by set_solver.
    assert (Hold : i < height ns x) by by rewrite <- Hhs.
    rewrite first_tall_app, Hft by done. unfold first_tall at 2. simpl. fold (first_tall ns' i hi).
    rewrite Hh, Hft by done.
    assert (Hlx : fwd_at ns x i = Some (first_tall ns i (mid ++ hi))).
    { apply (Hl pre); [|done]. by rewrite app_comm_cons, Hx, <- app_assoc. }
    rewrite first_tall_app in Hlx.
    destruct (first_tall ns i mid) as [y|] eqn:Hy.
    + rewrite Hf3; [done|done|]. intros [_ Hp]. revert Hp. eapply not_pred; [|exact Hx|exact Hy].
      rewrite app_comm_cons in Hnd. by apply NoDup_app in Hnd as [? _].
    + apply first_tall_None in Hy. destruct (Nat.ltb_spec i h).
      * rewrite (Hf2 i x); [done|done|by exists pre, mid].
      * rewrite Hf3; [done|done|lia].
  - destruct pre' as [|z pre']; injection Hx as Hz Hx; [subst x post|subst z hi].
    + rewrite Hft by set_solver. apply Hf1. lia.
    + assert (Hxh : x ∉ header_ :: lo).
      { rewrite app_comm_cons in Hnd. apply NoDup_app in Hnd as (_ & Hd & _). intros ?. eapply Hd; [done|]. set_solver. }
      assert (Hxn : x ≠ node) by set_solver.
      rewrite Hf3; [|done|by intros [_ ?%is_pred_elem]]. rewrite Hft by set_solver.
      apply (Hl (header_ :: lo ++ pre')); [simpl; by rewrite <- app_assoc|]. by rewrite <- Hhs.
Qed.

Lemma backs_insert ns ns' lo hi node :
  backs_ok ns (lo ++ hi) → NoDup (lo ++ hi) → node ∉ lo ++ hi →
  back_of ns' node = Some (last lo) →
  (∀ x, head hi = Some x → back_of ns' x = Some (Some node)) →
  (∀ x, x ≠ node → head hi ≠ Some x → back_of ns' x = back_of ns x) →
  backs_ok ns' (lo ++ node :: hi).
Proof.
  intros Hb Hnd Hnode Hn Hy Hx pre x post Hsplit.
  apply app_occurrence in Hsplit as [(mid & Hlo & ->)|(pre' & Hhi & ->)].
  - subst lo. rewrite <- app_assoc in Hb, Hnode. rewrite Hx; [by eapply Hb|set_solver|].
    intros Hhd. destruct hi as [|z hi]; simplify_eq/=.
    apply NoDup_app in Hnd as (_ & Hd & _). apply (Hd x); set_solver.
  - destruct pre' as [|z pre']; injection Hhi as Hz Hhi; [subst x hi|subst z hi].
    + by rewrite app_nil_r.
    + rewrite last_app_cons. destruct pre' as [|z pre']; [by apply Hy|].
      assert (x ∉ z :: pre').
      { apply NoDup_app in Hnd as (_ & _ & [_ [Hd _]]%NoDup_app). intros ?. set_solver. }
      rewrite Hx; [|set_solver|intros [= ->]; set_solver].
      rewrite (Hb (lo ++ z :: pre') x post) by by rewrite <- app_assoc.
      by rewrite last_app_cons, last_cons_cons.
Qed.

Lemma randomLevel_loop_range n lvl rng : lvl ≤ (randomLevel_loop n lvl rng).1 ≤ lvl + n.
Proof.
  revert lvl rng. induction n as [|n IH]; intros lvl rng; simpl; [lia|].
  destruct (rng 0%nat =? 0)%Z; [|simpl; lia]. specialize (IH (lvl + 1) (λ i, rng (S i))). lia.
Qed.

Lemma randomLevel_range rng : 1 ≤ (randomLevel rng).1 ≤ kMaxLevel.
Proof. unfold randomLevel. pose proof (randomLevel_loop_range (kMaxLevel - 1) 1 rng). unfold kMaxLevel in *. lia. Qed.

(** A new node in the store. *)
Lemma alloc_views ns node m s h :
  let ns' := <[node := new_node m s h]> ns in
  height ns' node = h ∧ data_of ns' node = Some (m, s) ∧
  ∀ x, x ≠ node → height ns' x = height ns x ∧ data_of ns' x = data_of ns x ∧
    back_of ns' x = back_of ns x ∧ ∀ j, fwd_at ns' x j = fwd_at ns x j.
Proof.
  cbn zeta. unfold height, data_of, back_of, fwd_at. rewrite lookup_insert_eq. simpl.
  rewrite length_replicate. split; [done|]. split; [done|].
  intros x Hx. by rewrite lookup_insert_ne by done.
Qed.

(** The store a successful insertion leaves, seen from the old one. *)
Definition inserted (ns : store) (lo hi : list addr) (node : addr) (e : elem) (h : nat) (ns' : store) : Prop :=
  height ns' node = h ∧ data_of ns' node = Some e ∧ back_of ns' node = Some (last lo) ∧
  (∀ j, j < h → fwd_at ns' node j = Some (first_tall ns j hi)) ∧
  (∀ j u, j < h → is_pred ns j lo u → fwd_at ns' u j = Some (Some node)) ∧
  (∀ j x, x ≠ node → ¬ (j < h ∧ is_pred ns j lo x) → fwd_at ns' x j = fwd_at ns x j) ∧
  (∀ x, head hi = Some x → back_of ns' x = Some (Some node)) ∧
  (∀ x, x ≠ node → head hi ≠ Some x → back_of ns' x = back_of ns x) ∧
  (∀ x, x ≠ node → height ns' x = height ns x ∧ data_of ns' x = data_of ns x).

Lemma pred_links ns lo hi j u :
  links_ok ns (lo ++ hi) → is_pred ns j lo u → fwd_at ns u j = Some (first_tall ns j hi).
Proof.
  intros Hl (pre & mid & Hsplit & Hh & Hmid).
  rewrite (Hl pre u (mid ++ hi)); [|by rewrite app_comm_cons, Hsplit, <- app_assoc|done].
  rewrite first_tall_app. apply first_tall_None in Hmid. by rewrite Hmid.
Qed.

(** The pointer writes of [insert], once [update] is known. *)
Lemma insert_store ns lo hi node e h update y :
  links_ok ns (lo ++ hi) → node ∉ header_ :: lo ++ hi → 0 < h ≤ length update →
  (∀ x, x ∈ hi → is_Some (data_of ns x)) →
  (∀ j u, update !! j = Some u → is_pred ns j lo u) →
  update !! 0 = Some y → fwd_at ns y 0 = Some (head hi) → last (header_ :: lo) = Some y →
  header_ ∉ lo →
  link_node (<[node := new_node e.1 e.2 h]> ns) node h update ⇓ inserted ns lo hi node e h.
Proof.
  unfold link_node. intros Hl Hnode Hh Hdom Hpred Hy Hfy Hlast Hhdr.
  destruct (alloc_views ns node e.1 e.2 h) as (Ha1 & Ha2 & Ha3).
  set (ns0 := <[node := new_node e.1 e.2 h]> ns) in *. clearbody ns0.
  assert (Hup : node ∉ update).
  { intros [j Hj]%list_elem_of_lookup. apply Hpred, is_pred_elem in Hj. set_solver. }
  assert (Hne : ∀ j u, update !! j = Some u → u ≠ node).
  { intros j u Hu ->. by apply Hup, (list_elem_of_lookup_2 _ j). }
  run_with (splice_ok ns0 node update h 0 ns0); [lia|lia|done| |by split; [|split; [|split; [|split]]]; intros; try lia|].
  { intros j u Hu. rewrite (proj1 (Ha3 u (Hne _ _ Hu))). by destruct (Hpred j u Hu) as (? & ? & _ & ? & _). }
  intros ns1 ((Hh1 & Hd1) & Hb1 & Hf1 & Hf2 & Hf3). rewrite (vec_get_ok _ _ _ Hy). cbn.
  assert (Hbk : (if bool_decide (y = header_) then None else Some y) = last lo).
  { rewrite last_cons in Hlast. destruct (last lo) as [z|] eqn:Hz; simplify_eq.
    - rewrite bool_decide_false; [done|]. intros ->. by apply Hhdr, last_Some_elem_of.
    - by rewrite bool_decide_true. }
  rewrite Hbk. run_with set_backward_ok; [rewrite Hd1, Ha2; eauto|].
  intros ns2 ((Hh2 & Hd2) & Hg2 & Hb2).
  assert (Hn0 : fwd_at ns1 node 0 = Some (head hi)).
  { rewrite (Hf1 0 y); [|lia|done]. by rewrite (proj2 (proj2 (proj2 (Ha3 y (Hne _ _ Hy))))). }
  rewrite (get_forward_ok _ _ _ (head hi)) by by rewrite Hg2. cbn.
  assert (Hrest : ∀ ns3, same_nodes ns2 ns3 → (∀ x j, fwd_at ns3 x j = fwd_at ns2 x j) →
    (∀ x, back_of ns3 x = if decide (head hi = Some x) then Some (Some node) else back_of ns2 x) →
    inserted ns lo hi node e h ns3).
  { intros ns3 [Hh3 Hd3] Hg3 Hb3.
    assert (Hhd : head hi ≠ Some node) by (destruct hi; [done|]; intros [= ->]; set_solver).
    assert (Hupd : ∀ j u, j < h → is_pred ns j lo u → update !! j = Some u).
    { intros j u Hj Hu. destruct (lookup_lt_is_Some_2 update j) as [v Hv]; [lia|].
      by rewrite (is_pred_unique ns j lo u v) by auto. }
    split; [congruence|]. split; [rewrite Hd3, Hd2, Hd1, Ha2; by destruct e|].
    split; [by rewrite Hb3, decide_False, Hb2, decide_True|].
    split.
    { intros j Hj. destruct (lookup_lt_is_Some_2 update j) as [v Hv]; [lia|].
      rewrite Hg3, Hg2, (Hf1 j v) by done. rewrite (proj2 (proj2 (proj2 (Ha3 v (Hne _ _ Hv))))).
      apply (pred_links ns lo hi); auto. }
    split; [intros j u Hj Hu; rewrite Hg3, Hg2; apply (Hf2 j u); auto|].
    split.
    { intros j x Hx Hno. rewrite Hg3, Hg2, Hf3; [by apply Ha3|done|]. intros [??]. apply Hno; auto. }
    split; [intros x Hx; by rewrite Hb3, decide_True|].
    split; [intros x Hx Hx'; rewrite Hb3, decide_False, Hb2, decide_False, Hb1 by done; by apply Ha3|].
    intros x Hx. rewrite Hh3, Hh2, Hh1, Hd3, Hd2, Hd1. split; by apply Ha3. }
  destruct hi as [|z hi]; simpl.
  - apply returns_ok, Hrest; [done|done|]. intros x. by rewrite decide_False.
  - eapply returns_mono; [apply set_backward_ok|].
    + rewrite Hd2, Hd1. destruct (Ha3 z) as (_ & -> & _); [set_solver|]. apply Hdom. set_solver.
    + intros ns3 (Hs3 & Hg3 & Hb3). apply Hrest; [done|done|]. intros x. rewrite Hb3. simpl.
      destruct (decide (x = z)) as [->|]; [by rewrite decide_True|by rewrite decide_False by congruence].
Qed.

Lemma inserted_data ns lo hi node e h ns' (k : list addr) (l : list elem) :
  inserted ns lo hi node e h ns' → node ∉ k → data_of ns <$> k = Some <$> l →
  data_of ns' <$> k = Some <$> l.
Proof.
  intros (_ & _ & _ & _ & _ & _ & _ & _ & Hold) Hk <-. apply list_fmap_ext. intros i x Hx.
  apply Hold. intros ->. by apply Hk, (list_elem_of_lookup_2 _ i).
Qed.

(** The new node keeps the invariant. *)
Lemma insert_wf sl lo hi e h rng ns' :
  wf sl (lo ++ hi) → 1 ≤ h ≤ kMaxLevel →
  inserted (nodes sl) lo hi (next_addr sl) e h ns' →
  wf (mkSkiplist (Nat.max (level_ sl) h) (size_ sl + 1) rng ns' (S (next_addr sl)))
    (lo ++ next_addr sl :: hi).
Proof.
  intros Hwf Hh (H1 & H2 & H3 & H4 & H5 & H6 & H7 & H8 & H9). destruct Hwf.
  assert (Hnew : next_addr sl ∉ header_ :: lo ++ hi).
  { intros Hin. rewrite list.Forall_forall in wf_fresh0. specialize (wf_fresh0 _ Hin). lia. }
  assert (Hperm : header_ :: lo ++ next_addr sl :: hi ≡ₚ next_addr sl :: header_ :: lo ++ hi).
  { rewrite <- Permutation_middle. apply Permutation_swap. }
  assert (Hold : ∀ x, x ∈ lo ++ hi → height ns' x = height (nodes sl) x).
  { intros x Hx. apply H9. set_solver. }
  split; cbn [nodes level_ size_ next_addr].
  - rewrite Hperm. by constructor.
  - intros x. rewrite Hperm, elem_of_cons, <- wf_dom0.
    destruct (decide (x = next_addr sl)) as [->|Hx]; [rewrite H2; naive_solver|].
    rewrite (proj2 (H9 x Hx)). naive_solver.
  - rewrite (proj1 (H9 header_ ltac:(set_solver))). done.
  - rewrite <- Permutation_middle. constructor; [lia|].
    rewrite list.Forall_forall in wf_heights0 |- *. intros x Hx. rewrite Hold by done.
    specialize (wf_heights0 x Hx). lia.
  - eapply links_insert; [exact wf_links0|done|done|done|apply H9|done|done|done].
  - apply NoDup_cons in wf_nodup0 as [_ Hnd].
    eapply backs_insert; [exact wf_backs0|done|set_solver|done|done|done].
  - rewrite wf_size0, !length_app. simpl. lia.
  - lia.
  - destruct (decide (level_ sl ≤ h)) as [Hle|Hgt].
    + right. rewrite first_tall_None, <- Permutation_middle, Forall_cons. intros [Hn _]. lia.
    + destruct wf_top0 as [Hl|Ht]; [lia|right]. intros Hn. apply Ht. rewrite first_tall_None in Hn |- *.
      rewrite <- Permutation_middle, Forall_cons in Hn. destruct Hn as [_ Hn].
      rewrite list.Forall_forall in Hn |- *. intros x Hx. specialize (Hn x Hx). rewrite Hold in Hn by done. lia.
  - rewrite Hperm. constructor; [lia|]. eapply Forall_impl; [exact wf_fresh0|]. simpl. lia.
Qed.

(** Insertion keeps the links, whatever the order of the elements. *)
Lemma insert_any sl l m s :
  chained sl l → insert sl m s ⇓ λ sl', ∃ l1 l2, l = l1 ++ l2 ∧ chained sl' (l1 ++ (m, s) :: l2) ∧
    (∀ f, last l1 = Some f → less f (m, s) = true) ∧ (∀ f, head l2 = Some f → less f (m, s) = false).
Proof.
  intros (ids & Hwf & Hdata). unfold insert. eapply returns_bind; [exact (search_any sl ids l (m, s) Hwf Hdata)|].
  intros [y upd] (lo & hi & l1 & l2 & -> & -> & Hlo & Hhi & Hb1 & Hb2 & Hlen & Hpred & Hy & Hfy & Hlast).
  pose proof (randomLevel_range (rng_ sl)) as Hr. destruct (randomLevel (rng_ sl)) as [h rng'] eqn:Hrl.
  cbn [fst] in Hr. pose proof (wf_nodup _ _ Hwf) as [Hhdr Hnd]%NoDup_cons.
  pose proof (wf_level _ _ Hwf) as Hlv.
  assert (Hfresh : next_addr sl ∉ header_ :: lo ++ hi).
  { intros Hin. pose proof (wf_fresh _ _ Hwf) as Hf. rewrite list.Forall_forall in Hf. specialize (Hf _ Hin). lia. }
  run_with (insert_store (nodes sl) lo hi (next_addr sl) (m, s) h _ y);
    [apply Hwf|done|rewrite length_app, length_replicate; lia| | |by rewrite lookup_app_l by lia|done|done|set_solver|].
  - intros x Hx. apply (wf_dom _ _ Hwf). set_solver.
  - intros j u [Hu|[Hge [-> Hj]%lookup_replicate]]%lookup_app_Some; [by apply Hpred|].
    exists [], lo. split; [done|]. rewrite (wf_header _ _ Hwf). split; [lia|].
    pose proof (wf_heights _ _ Hwf) as [Hhs _]%Forall_app. eapply Forall_impl; [exact Hhs|]. simpl. lia.
  - intros ns' Hins. apply returns_ok. exists l1, l2. split; [done|]. split; [|done].
    exists (lo ++ next_addr sl :: hi). split; [by eapply insert_wf|]. cbn [nodes]. rewrite !fmap_app, !fmap_cons.
    f_equal; [eapply inserted_data; [done|set_solver|done]|].
    f_equal; [apply Hins|eapply inserted_data; [done|set_solver|done]].
Qed.

Lemma insert_ok sl l m s :
  represents sl l → is_nan s = false → Forall (λ f, same f (m, s) = false) l →
  insert sl m s ⇓ λ sl', represents sl' (lower (m, s) l ++ (m, s) :: upper (m, s) l).
Proof.
  intros [Hch Hs] Hnan Hnew. eapply returns_mono; [by apply insert_any|].
  intros sl' (l1 & l2 & -> & Hch' & Hb1 & Hb2).
  pose proof (sorted_insert (m, s) (l1 ++ l2) Hnan Hs Hnew) as Hsort.
  destruct (sorted_place (m, s) l1 l2 Hs Hnan Hb1 Hb2) as [Hl1 Hl2]. rewrite <- Hl1, <- Hl2 in *. by split.
Qed.

(** ** Removal *)

(** The store after [k] levels of [unlink]. *)
Definition unlinked (ns : store) (x : addr) (update : list addr) (k : nat) (ns' : store) : Prop :=
  same_nodes ns ns' ∧ (∀ y, back_of ns' y = back_of ns y) ∧
  (∀ j u, j < k → update !! j = Some u → fwd_at ns' u j = fwd_at ns x j) ∧
  (∀ j y, ¬ (j < k ∧ update !! j = Some y) → fwd_at ns' y j = fwd_at ns y j).

Lemma unlink_ok ns x update n i ns1 :
  (∀ j u, update !! j = Some u → u ≠ x ∧ j < height ns u ∧
    (fwd_at ns u j = Some (Some x) ↔ j < height ns x)) →
  i + n = length update → i ≤ height ns x ≤ length update →
  unlinked ns x update i ns1 →
  unlink n i x update ns1 ⇓ unlinked ns x update (height ns x).
Proof.
  intros Hu. revert i ns1. induction n as [|n IH]; intros i ns1 Hn Hi Hun; cbn [unlink].
  { by replace (height ns x) with i by lia. }
  destruct Hun as ((Hsh & Hsd) & Hb & H1 & H2).
  destruct (lookup_lt_is_Some_2 update i) as [u Hui]; [lia|].
  destruct (Hu i u Hui) as (Hne & Hhu & Hiff). rewrite (vec_get_ok _ _ _ Hui). cbn.
  pose proof Hhu as [p Hp]%fwd_at_height.
  rewrite (get_forward_ok ns1 u i p); [cbn|rewrite H2; [done|lia]].
  rewrite Hp in Hiff. case_bool_decide as Hpx.
  - assert (Hix : i < height ns x) by (apply Hiff; congruence).
    pose proof Hix as [q Hq]%fwd_at_height.
    rewrite (get_forward_ok _ _ _ q); [cbn|rewrite H2; [done|]; intros [? _]; lia].
    run_with set_forward_ok; [by rewrite Hsh|]. intros ns2 ((Hh2 & Hd2) & Hb2 & Hf2).
    apply IH; [lia|lia|]. split; [split; congruence|]. split; [congruence|]. split.
    + intros j v Hj Hv. rewrite Hf2. case_decide as Hd.
      * destruct Hd as [_ ->]. congruence.
      * apply H1; [|done]. destruct (decide (j = i)) as [->|]; [naive_solver|lia].
    + intros j y Hno. rewrite Hf2, decide_False.
      * apply H2. intros [? ?]. apply Hno. split; [lia|done].
      * intros [-> ->]. apply Hno. split; [lia|done].
  - assert (Hix : ¬ i < height ns x) by (rewrite <- Hiff; congruence).
    replace (height ns x) with i by lia. done.
Qed.

Lemma links_remove ns ns' lo hi x :
  links_ok ns (lo ++ x :: hi) → NoDup (header_ :: lo ++ x :: hi) →
  (∀ y, y ≠ x → height ns' y = height ns y) →
  (∀ j u, j < height ns x → is_pred ns j lo u → fwd_at ns' u j = fwd_at ns x j) →
  (∀ j y, y ≠ x → ¬ (j < height ns x ∧ is_pred ns j lo y) → fwd_at ns' y j = fwd_at ns y j) →
  links_ok ns' (lo ++ hi).
Proof.
  intros Hl Hnd Hhs Hf1 Hf2 pre y post i Hsplit Hi. rewrite app_comm_cons in Hnd.
  pose proof Hnd as (Hnd1 & Hd & Hnd2)%NoDup_app. apply NoDup_cons in Hnd2 as [Hxhi Hnd2].
  assert (Hxlo : x ∉ header_ :: lo) by (intros ?; eapply Hd; [done|set_solver]).
  assert (Hft : ∀ j k, x ∉ k → first_tall ns' j k = first_tall ns j k).
  { intros j k Hk. apply first_tall_ext. intros z Hz. apply Hhs. by intros ->. }
  rewrite app_comm_cons in Hsplit. apply app_occurrence in Hsplit as [(mid & Hy & ->)|(pre' & -> & ->)].
  - assert (Hyx : y ≠ x) by (intros ->; apply Hxlo; rewrite Hy; set_solver).
    assert (Hmid : x ∉ mid) by (intros ?; apply Hxlo; rewrite Hy; set_solver).
    assert (Hold : i < height ns y) by by rewrite <- Hhs. rewrite first_tall_app, !Hft by done.
    assert (Hly : fwd_at ns y i = Some (first_tall ns i (mid ++ x :: hi))).
    { apply (Hl pre); [|done]. by rewrite app_comm_cons, Hy, <- app_assoc. }
    rewrite first_tall_app in Hly. destruct (first_tall ns i mid) as [z|] eqn:Hz.
    + rewrite Hf2; [done|done|]. intros [_ Hp]. revert Hp. by eapply not_pred.
    + destruct (Nat.ltb_spec i (height ns x)) as [Hlt|Hge].
      * rewrite (Hf1 i y); [|done|exists pre, mid; by rewrite <- first_tall_None].
        apply (Hl (header_ :: lo)); done.
      * rewrite Hf2; [|done|lia]. rewrite Hly. unfold first_tall at 1. simpl.
        by destruct (Nat.ltb_spec i (height ns x)); [lia|].
  - assert (Hyx : y ≠ x) by set_solver.
    assert (Hylo : y ∉ header_ :: lo) by (intros ?; eapply Hd; [done|set_solver]).
    rewrite Hf2; [|done|by intros [_ ?%is_pred_elem]]. rewrite Hft by set_solver.
    apply (Hl (header_ :: lo ++ x :: pre')); [simpl; by rewrite <- app_assoc|]. by rewrite <- Hhs.
Qed.

Lemma backs_remove ns ns' lo hi x :
  backs_ok ns (lo ++ x :: hi) → NoDup (lo ++ x :: hi) →
  (∀ y, head hi = Some y → back_of ns' y = back_of ns x) →
  (∀ y, y ≠ x → head hi ≠ Some y → back_of ns' y = back_of ns y) →
  backs_ok ns' (lo ++ hi).
Proof.
  intros Hb Hnd Hy Hother pre y post Hsplit.
  pose proof Hnd as (_ & Hd & [Hx Hnd2]%NoDup_cons)%NoDup_app.
  apply app_occurrence in Hsplit as [(mid & -> & ->)|(pre' & -> & ->)].
  - rewrite Hother.
    + apply (Hb pre y (mid ++ x :: hi)). by rewrite <- app_assoc.
    + intros ->. apply (Hd x); set_solver.
    + intros Hh. destruct hi; simplify_eq/=. apply (Hd y); set_solver.
  - destruct pre' as [|z pre'].
    + rewrite app_nil_r, (Hy y) by done. by eapply Hb.
    + rewrite Hother.
      * rewrite (Hb (lo ++ x :: z :: pre') y post) by by rewrite <- app_assoc.
        by rewrite !last_app_cons, last_cons_cons.
      * set_solver.
      * simpl. intros [= ->]. apply NoDup_cons in Hnd2. set_solver.
Qed.

Lemma shrink_ok level ns ids :
  0 < level → Forall (λ x, height ns x ≤ level) ids →
  (∀ j, j < level → fwd_at ns header_ j = Some (first_tall ns j ids)) →
  shrink level ns ⇓ λ l, 0 < l ≤ level ∧ Forall (λ x, height ns x ≤ l) ids ∧
    (l = 1 ∨ first_tall ns (l - 1) ids ≠ None).
Proof.
  intros Hpos. induction level as [|level IH]; intros Hall Hf; [lia|]. cbn [shrink].
  destruct level as [|l]; [apply returns_ok; split; [lia|]; auto|].
  rewrite (get_forward_ok _ _ _ _ (Hf (S l) ltac:(lia))). cbn -[shrink].
  destruct (first_tall ns (S l) ids) as [y|] eqn:Hy.
  - apply returns_ok. split; [lia|]. split; [done|]. right. simpl. by rewrite Hy.
  - apply first_tall_None in Hy. eapply returns_mono; [apply IH; [lia|done|]|].
    + intros j Hj. apply Hf. lia.
    + intros l' (? & ? & ?). split; [lia|]. auto.
Qed.

(** The store a successful removal leaves, seen from the old one. *)
Definition removed (ns : store) (lo hi : list addr) (x : addr) (ns' : store) : Prop :=
  data_of ns' x = None ∧
  (∀ y, y ≠ x → height ns' y = height ns y ∧ data_of ns' y = data_of ns y) ∧
  (∀ j u, j < height ns x → is_pred ns j lo u → fwd_at ns' u j = fwd_at ns x j) ∧
  (∀ j y, y ≠ x → ¬ (j < height ns x ∧ is_pred ns j lo y) → fwd_at ns' y j = fwd_at ns y j) ∧
  (∀ y, head hi = Some y → back_of ns' y = back_of ns x) ∧
  (∀ y, y ≠ x → head hi ≠ Some y → back_of ns' y = back_of ns y).

Lemma delete_views ns x y :
  y ≠ x → height (delete x ns) y = height ns y ∧ data_of (delete x ns) y = data_of ns y ∧
    back_of (delete x ns) y = back_of ns y ∧ ∀ j, fwd_at (delete x ns) y j = fwd_at ns y j.
Proof. intros Hy. unfold height, data_of, back_of, fwd_at. by rewrite lookup_delete_ne. Qed.

(** Reading [x->forward[0]] and fixing the successor's backward pointer. *)
Lemma detach_tail ns1 x hi xn :
  fwd_at ns1 x 0 = Some (head hi) → ns1 !! x = Some xn → x ∉ hi →
  (∀ y, y ∈ hi → is_Some (data_of ns1 y)) →
  (nx ← get_forward ns1 x 0;
   xn ← load ns1 x;
   ns2 ← match nx with Some y => set_backward ns1 y (backward xn) | None => mret ns1 end;
   mret (delete x ns2)) ⇓ λ ns', data_of ns' x = None ∧
     (∀ y, y ≠ x → height ns' y = height ns1 y ∧ data_of ns' y = data_of ns1 y ∧
        ∀ j, fwd_at ns' y j = fwd_at ns1 y j) ∧
     (∀ y, head hi = Some y → back_of ns' y = back_of ns1 x) ∧
     (∀ y, y ≠ x → head hi ≠ Some y → back_of ns' y = back_of ns1 y).
Proof.
  intros Hf Hx Hxhi Hdom. rewrite (get_forward_ok _ _ _ _ Hf). cbn. unfold load. rewrite Hx. cbn.
  assert (Hbx : back_of ns1 x = Some (backward xn)) by by unfold back_of; rewrite Hx.
  assert (Hfin : ∀ ns2, same_nodes ns1 ns2 → (∀ y j, fwd_at ns2 y j = fwd_at ns1 y j) →
    (∀ y, back_of ns2 y = if decide (head hi = Some y) then back_of ns1 x else back_of ns1 y) →
    data_of (delete x ns2) x = None ∧
     (∀ y, y ≠ x → height (delete x ns2) y = height ns1 y ∧ data_of (delete x ns2) y = data_of ns1 y ∧
        ∀ j, fwd_at (delete x ns2) y j = fwd_at ns1 y j) ∧
     (∀ y, head hi = Some y → back_of (delete x ns2) y = back_of ns1 x) ∧
     (∀ y, y ≠ x → head hi ≠ Some y → back_of (delete x ns2) y = back_of ns1 y)).
  { intros ns2 [Hh2 Hd2] Hf2 Hb2. split; [unfold data_of; by rewrite lookup_delete_eq|]. split; [|split].
    - intros y Hy. destruct (delete_views ns2 x y Hy) as (-> & -> & _ & Hfd). rewrite Hh2, Hd2.
      split; [done|]. split; [done|]. intros j. by rewrite Hfd.
    - intros y Hy. destruct (delete_views ns2 x y) as (_ & _ & -> & _).
      + intros ->. destruct hi; simplify_eq/=. set_solver.
      + by rewrite Hb2, decide_True.
    - intros y Hy Hn. destruct (delete_views ns2 x y Hy) as (_ & _ & -> & _). by rewrite Hb2, decide_False. }
  destruct hi as [|z hi]; cbn.
  - apply Hfin; [done|done|]. intros y. by rewrite decide_False.
  - run_with set_backward_ok; [apply Hdom; set_solver|]. intros ns2 (Hs2 & Hf2 & Hb2). apply returns_ok.
    apply Hfin; [done|done|]. intros y. rewrite Hb2, Hbx. simpl.
    destruct (decide (y = z)) as [->|]; [by rewrite decide_True|by rewrite decide_False by congruence].
Qed.

Lemma sl_detach_ok sl lo hi x update :
  wf sl (lo ++ x :: hi) → length update = level_ sl →
  (∀ j u, update !! j = Some u → is_pred (nodes sl) j lo u) →
  detach (nodes sl) x (level_ sl) update ⇓ removed (nodes sl) lo hi x.
Proof.
  intros Hwf Hlen Hpred. pose proof (wf_nodup _ _ Hwf) as Hnd. rewrite app_comm_cons in Hnd.
  pose proof Hnd as (Hnd1 & Hd & [Hxhi Hnd2]%NoDup_cons)%NoDup_app.
  assert (Hxlo : x ∉ header_ :: lo) by (intros ?; apply (Hd x); set_solver).
  pose proof (wf_heights _ _ Hwf) as Hhs. rewrite Forall_app, Forall_cons in Hhs.
  destruct Hhs as (_ & Hhx & Hhhi).
  assert (Hu : ∀ j u, update !! j = Some u → u ≠ x ∧ j < height (nodes sl) u ∧
    (fwd_at (nodes sl) u j = Some (Some x) ↔ j < height (nodes sl) x)).
  { intros j u Hju. pose proof (Hpred j u Hju) as Hp. split.
    { intros ->. by apply is_pred_elem in Hp. }
    split; [by destruct Hp as (? & ? & _ & ? & _)|].
    rewrite (pred_links _ lo (x :: hi) j u (wf_links _ _ Hwf) Hp). unfold first_tall. simpl.
    destruct (Nat.ltb_spec j (height (nodes sl) x)) as [?|Hge]; [done|]. split; [|lia].
    intros [= Hf]. apply find_some in Hf as [Hin _]. by rewrite <- list_elem_of_In in Hin. }
  unfold detach. run_with (unlink_ok (nodes sl) x); [exact Hu|lia|lia|split; [done|split; [done|split; [lia|done]]]|].
  intros ns1 ((Hh1 & Hd1) & Hb1 & Hf1 & Hf2).
  assert (Hx0 : fwd_at ns1 x 0 = Some (head hi)).
  { rewrite Hf2; [|intros [_ ?%Hu]; tauto].
    rewrite (wf_links _ _ Hwf (header_ :: lo) x hi 0); [|done|lia]. f_equal. apply first_tall_head.
    eapply Forall_impl; [exact Hhhi|]. simpl. lia. }
  assert (Hdom : ∀ y, y ∈ header_ :: lo ++ x :: hi → is_Some (data_of ns1 y)).
  { intros y Hy. rewrite Hd1. by apply (wf_dom _ _ Hwf). }
  destruct (Hdom x) as [e He]; [set_solver|]. unfold data_of in He.
  destruct (ns1 !! x) as [xn|] eqn:Hxn; [|done].
  eapply returns_mono; [apply (detach_tail ns1 x hi xn); [done|done|done|intros; apply Hdom; set_solver]|].
  intros ns' (H1 & H2 & H3 & H4). split; [done|]. split; [intros y Hy; rewrite <- Hh1, <- Hd1; split; by apply H2|].
  split; [|split; [|split]].
  - intros j u Hj Hju. assert (u ≠ x) by (intros ->; by apply is_pred_elem in Hju).
    destruct (lookup_lt_is_Some_2 update j) as [v Hv]; [lia|].
    assert (v = u) as -> by (eapply is_pred_unique; eauto).
    rewrite (proj2 (proj2 (H2 u ltac:(done)))). by apply Hf1.
  - intros j y Hy Hno. rewrite (proj2 (proj2 (H2 y Hy))). apply Hf2. intros [? ?]. apply Hno. auto.
  - intros y Hy. by rewrite H3.
  - intros y Hy Hn. by rewrite H4.
Qed.

(** *** Removing from a sorted list *)

Lemma existsb_false_Forall {A} (f : A → bool) (l : list A) :
  existsb f l = false ↔ Forall (λ x, f x = false) l.
Proof. induction l as [|x l IH]; simpl; [done|]. by rewrite orb_false_iff, Forall_cons, IH. Qed.

Definition without (e : elem) (l : list elem) : list elem := filter (λ f, same f e = false) l.

Lemma less_not_same f e :
  elem_ok f → elem_ok e → less f e = true ∨ less e f = true → same f e = false.
Proof.
  intros Hf He Hl. apply not_true_is_false. intros Hs.
  destruct (same_less f e e Hf He He Hs) as [H1 H2]. rewrite less_irrefl in H1, H2 by done.
  destruct Hl; congruence.
Qed.

(** The head of the upper part decides whether [e] occurs. *)
Lemma upper_head e l :
  sorted l → elem_ok e →
  match upper e l with
  | f :: rest =>
      if same f e then without e l = lower e l ++ rest
      else Forall (λ g, same g e = false) l
  | [] => Forall (λ g, same g e = false) l
  end.
Proof.
  intros Hs He. pose proof (sorted_split e l He Hs) as Hl. pose proof Hs as [Hok _].
  assert (Hlow : Forall (λ g, same g e = false) (lower e l)).
  { rewrite list.Forall_forall in Hok |- *. intros g [Hg Hin]%lower_elem.
    apply less_not_same; auto. }
  destruct (upper e l) as [|f rest] eqn:Hup; [by rewrite Hl, app_nil_r|].
  assert (Hf : f ∈ l ∧ less f e = false).
  { assert (Hin : f ∈ upper e l) by (rewrite Hup; set_solver). apply upper_elem in Hin as [Hge ?].
    split; [done|]. by apply not_true_is_false. }
  destruct Hf as [Hfin Hfe]. rewrite Hl in Hs. apply sorted_app in Hs as (_ & (Hfo & Hfr & Hro & _)%sorted_cons & _).
  rewrite list.Forall_forall in Hfr, Hro.
  assert (Hrest : (less e f = true ∨ same f e = true) → Forall (λ g, same g e = false) rest).
  { intros Hor. apply list.Forall_forall. intros g Hg. apply less_not_same; [by apply Hro|done|right].
    destruct Hor as [Hlt|Hsm].
    - eapply (less_trans e f g); [done|done|by apply Hro|done|by apply Hfr].
    - destruct (same_less f e g) as [_ <-]; [done|done|by apply Hro|done|]. by apply Hfr. }
  destruct (same f e) eqn:Hsm.
  - unfold without. rewrite Hl at 1. rewrite filter_app, filter_cons, decide_False by congruence.
    rewrite !filter_all; auto.
  - rewrite Hl. apply Forall_app. split; [done|]. constructor; [done|]. apply Hrest. left.
    destruct (less_total f e Hfo He) as [?|[?|?]]; congruence.
Qed.

Lemma sorted_without e l : sorted l → sorted (without e l).
Proof.
  induction l as [|f l IH]; [done|]. intros (Hf & Hall & Hs)%sorted_cons.
  unfold without. rewrite filter_cons. destruct (decide (same f e = false)); [|by apply IH].
  apply sorted_cons. split; [done|]. split; [|by apply IH].
  rewrite list.Forall_forall in Hall |- *. intros g [_ ?]%list_elem_of_filter. auto.
Qed.

(** A removed node keeps the invariant. *)
Lemma remove_wf sl lo hi x ns' :
  wf sl (lo ++ x :: hi) → removed (nodes sl) lo hi x ns' →
  shrink (level_ sl) ns' ⇓ λ level',
    wf (mkSkiplist level' (size_ sl - 1) (rng_ sl) ns' (next_addr sl)) (lo ++ hi).
Proof.
  intros Hwf (H1 & H2 & H3 & H4 & H5 & H6). destruct Hwf.
  assert (Hperm : header_ :: lo ++ x :: hi ≡ₚ x :: header_ :: lo ++ hi).
  { rewrite <- Permutation_middle. apply Permutation_swap. }
  pose proof wf_nodup0 as Hnd. rewrite Hperm in Hnd. apply NoDup_cons in Hnd as [Hx Hnd].
  assert (Hold : ∀ y, y ∈ header_ :: lo ++ hi → height ns' y = height (nodes sl) y).
  { intros y Hy. apply H2. by intros ->. }
  assert (Hl' : links_ok ns' (lo ++ hi)).
  { eapply links_remove; [exact wf_links0|done|apply H2|done|done]. }
  assert (Hhs : Forall (λ y, 0 < height ns' y ≤ level_ sl) (lo ++ hi)).
  { rewrite <- Permutation_middle, Forall_cons in wf_heights0. destruct wf_heights0 as [_ Hh].
    rewrite list.Forall_forall in Hh |- *. intros y Hy. rewrite Hold by set_solver. by apply Hh. }
  eapply returns_mono; [apply (shrink_ok _ _ (lo ++ hi)); [lia| |]|].
  - eapply Forall_impl; [exact Hhs|]. simpl. lia.
  - intros j Hj. apply (Hl' []); [done|]. rewrite Hold by set_solver. lia.
  - intros level' (Hlv & Hall & Htop). split; cbn [nodes level_ size_ next_addr]; try done.
    + intros y. destruct (decide (y = x)) as [->|Hy].
      * rewrite H1. split; [by intros []|done].
      * rewrite (proj2 (H2 y Hy)), wf_dom0, Hperm. set_solver.
    + by rewrite Hold by set_solver.
    + rewrite list.Forall_forall in Hhs, Hall |- *. intros y Hy. split; [by apply Hhs|by apply Hall].
    + apply NoDup_cons in wf_nodup0 as [_ Hnd']. by eapply backs_remove.
    + rewrite wf_size0, !length_app. simpl. lia.
    + lia.
    + rewrite Hperm in wf_fresh0. by apply Forall_cons in wf_fresh0 as [_ ?].
Qed.

(** Removal keeps the links, and takes away the element at the place of the
    search if it is the same. *)
Lemma remove_any sl l m s :
  chained sl l → remove sl m s ⇓ λ '(b, sl'), ∃ l1 l2, l = l1 ++ l2 ∧
    (∀ f, last l1 = Some f → less f (m, s) = true) ∧ (∀ f, head l2 = Some f → less f (m, s) = false) ∧
    match l2 with
    | f :: rest => b = same f (m, s) ∧ chained sl' (if b then l1 ++ rest else l)
    | [] => b = false ∧ chained sl' l
    end.
Proof.
  intros (ids & Hwf & Hdata). unfold remove. eapply returns_bind; [exact (search_any sl ids l (m, s) Hwf Hdata)|].
  intros [y upd] (lo & hi & l1 & l2 & -> & -> & Hlo & Hhi & Hb1 & Hb2 & Hlen & Hpred & Hy & Hfy & Hlast).
  rewrite (get_forward_ok _ _ _ _ Hfy). cbn [mbind result_bind]. destruct hi as [|x hi]; cbn [head].
  { symmetry in Hhi. apply fmap_nil_inv in Hhi as ->. apply returns_ok. exists l1, []. repeat (split; [done|]).
    by exists (lo ++ []). }
  rewrite fmap_cons in Hhi. symmetry in Hhi. apply fmap_cons_inv in Hhi as (f & rest & Hf & Hrest & ->).
  run_with sl_load_ok; [exact Hf|]. intros n (-> & -> & _).
  rewrite <- negb_andb. change (dbl_eqb f.2 s && bool_decide (f.1 = m)) with (same f (m, s)).
  destruct (same f (m, s)) eqn:Hsm; cbn [negb].
  2: { apply returns_ok. exists l1, (f :: rest). do 3 (split; [done|]). split; [done|]. by exists (lo ++ x :: hi). }
  run_with sl_detach_ok; [done|done|done|]. intros ns' Hrem. run_with remove_wf; [done|done|].
  intros level' Hwf'. apply returns_ok. exists l1, (f :: rest). do 3 (split; [done|]). split; [done|].
  exists (lo ++ hi). split; [done|]. cbn [nodes].
  assert (Hx : x ∉ lo ++ hi).
  { pose proof (wf_nodup _ _ Hwf) as Hnd. rewrite app_comm_cons, <- Permutation_middle in Hnd.
    apply NoDup_cons in Hnd. set_solver. }
  rewrite !fmap_app, <- Hlo, <- Hrest. f_equal; apply list_fmap_ext; intros i z Hz%list_elem_of_lookup_2;
    apply Hrem; set_solver.
Qed.

Lemma sl_remove_ok sl l m s :
  represents sl l → is_nan s = false →
  remove sl m s ⇓ λ '(b, sl'), b = existsb (λ f, same f (m, s)) l ∧ represents sl' (without (m, s) l).
Proof.
  intros [Hch Hs] Hnan. eapply returns_mono; [by apply remove_any|].
  intros [b sl'] (l1 & l2 & -> & Hb1 & Hb2 & Hrest). pose proof (upper_head (m, s) (l1 ++ l2) Hs Hnan) as Hup.
  destruct (sorted_place (m, s) l1 l2 Hs Hnan Hb1 Hb2) as [Hl1 Hl2]. rewrite <- Hl1, <- Hl2 in Hup.
  assert (Hsort : sorted (without (m, s) (l1 ++ l2))) by by apply sorted_without.
  assert (Hnone : Forall (λ g, same g (m, s) = false) (l1 ++ l2) → chained sl' (l1 ++ l2) →
    false = existsb (λ f, same f (m, s)) (l1 ++ l2) ∧ represents sl' (without (m, s) (l1 ++ l2))).
  { intros Hall Hc. split; [symmetry; by apply existsb_false_Forall|]. split; [|done].
    unfold without. by rewrite filter_all. }
  destruct l2 as [|f rest]; destruct Hrest as [-> Hc]; [by apply Hnone|].
  destruct (same f (m, s)) eqn:Hsm; [|by apply Hnone]. split; [|split; [by rewrite Hup|done]].
  symmetry. apply existsb_exists. exists f. split; [|done]. rewrite <- list_elem_of_In. set_solver.
Qed.

(** ** Look-up *)

Lemma sl_find_ok sl l m s :
  represents sl l → is_nan s = false →
  find sl m s ⇓ λ r,
    match r with
    | Some n => (member n, score n) ∈ l ∧ same (member n, score n) (m, s) = true
    | None => Forall (λ f, same f (m, s) = false) l
    end.
Proof.
  intros [(ids & Hwf & Hdata) Hs] Hnan. unfold find.
  eapply returns_bind; [exact (search_any sl ids l (m, s) Hwf Hdata)|].
  intros [y upd] (lo & hi & l1 & l2 & -> & -> & Hlo & Hhi & Hb1 & Hb2 & Hlen & Hpred & Hy & Hfy & Hlast).
  rewrite (get_forward_ok _ _ _ _ Hfy). cbn [mbind result_bind].
  pose proof (upper_head (m, s) (l1 ++ l2) Hs Hnan) as Hup.
  destruct (sorted_place (m, s) l1 l2 Hs Hnan Hb1 Hb2) as [Hl1 Hl2]. rewrite <- Hl1, <- Hl2 in Hup.
  destruct hi as [|x hi]; cbn [head].
  { symmetry in Hhi. apply fmap_nil_inv in Hhi as ->. done. }
  rewrite fmap_cons in Hhi. symmetry in Hhi. apply fmap_cons_inv in Hhi as (f & rest & Hf & Hrest & ->).
  run_with sl_load_ok; [exact Hf|]. intros n (Hm & Hsc & _). apply returns_ok.
  rewrite Hm, Hsc. destruct (dbl_eqb f.2 s && bool_decide (f.1 = m)) eqn:Hsm.
  - rewrite Hm, Hsc, <- surjective_pairing. split; [set_solver|done].
  - change (same f (m, s) = false) in Hsm. by rewrite Hsm in Hup.
Qed.

(** Level 0 links every node to the next. *)
Lemma level0_links sl ids pre x post :
  wf sl ids → header_ :: ids = pre ++ x :: post → fwd_at (nodes sl) x 0 = Some (head post).
Proof.
  intros Hwf Hsplit. pose proof (wf_heights _ _ Hwf) as Hhs.
  rewrite (wf_links _ _ Hwf pre x post 0 Hsplit).
  - f_equal. apply first_tall_head. destruct pre as [|z pre]; simplify_eq/=.
    + eapply Forall_impl; [exact Hhs|]. simpl. lia.
    + rewrite Forall_app, Forall_cons in Hhs. destruct Hhs as (_ & _ & Hhs).
      eapply Forall_impl; [exact Hhs|]. simpl. lia.
  - destruct pre as [|z pre]; simplify_eq/=; [rewrite (wf_header _ _ Hwf); unfold kMaxLevel; lia|].
    rewrite Forall_app, Forall_cons in Hhs. lia.
Qed.

Lemma skip_ranks_ok sl pre post n :
  wf sl (pre ++ post) → skip_ranks n (nodes sl) (head post) = Ok (head (drop n post)).
Proof.
  revert pre post. induction n as [|n IH]; intros pre post Hwf; [done|].
  destruct post as [|x post]; [done|]. cbn.
  rewrite (get_forward_ok _ _ _ (head post)); [|by apply (level0_links sl _ (header_ :: pre) x post Hwf)].
  cbn. apply (IH (pre ++ [x])). by rewrite <- app_assoc.
Qed.

Lemma collect_ok sl pre post (l : list elem) n acc :
  wf sl (pre ++ post) → data_of (nodes sl) <$> post = Some <$> l →
  collect n (nodes sl) (head post) acc ⇓ λ r, r = acc ++ take n l.
Proof.
  revert pre post l acc. induction n as [|n IH]; intros pre post l acc Hwf Hdata.
  { cbn. by rewrite take_0, app_nil_r. }
  destruct post as [|x post], l as [|e l]; try discriminate Hdata.
  { cbn. by rewrite app_nil_r. }
  rewrite !fmap_cons in Hdata. injection Hdata as He Hdata. cbn [head hd_error collect].
  run_with sl_load_ok; [exact He|]. intros nd (-> & -> & _).
  rewrite (get_forward_ok _ _ _ (head post)); [|by apply (level0_links sl _ (header_ :: pre) x post Hwf)].
  cbn [mbind result_bind]. eapply returns_mono; [apply (IH (pre ++ [x]) post l); [by rewrite <- app_assoc|done]|].
  intros r ->. rewrite firstn_cons, <- app_assoc. by destruct e.
Qed.

(** Skipping and collecting give a slice of the list. *)
Lemma slice_ok sl ids l i n :
  wf sl ids → data_of (nodes sl) <$> ids = Some <$> l →
  (x0 ← get_forward (nodes sl) header_ 0; x ← skip_ranks i (nodes sl) x0; collect n (nodes sl) x [])
    ⇓ λ r, r = slice i n l.
Proof.
  intros Hwf Hdata.
  rewrite (get_forward_ok _ _ _ (head ids)); [|by apply (level0_links sl ids [] header_ ids Hwf)].
  cbn [mbind result_bind]. rewrite (skip_ranks_ok sl [] ids) by done. cbn [mbind result_bind].
  eapply returns_mono; [apply (collect_ok sl (take i ids) (drop i ids) (drop i l))|by intros r ->].
  - by rewrite take_drop.
  - by rewrite !fmap_drop, Hdata.
Qed.

Lemma rangeByRank_any sl l start stop :
  chained sl l → rangeByRank sl start stop ⇓ λ r, ∃ i n, r = slice i n l.
Proof.
  intros (ids & Hwf & Hdata). unfold rangeByRank. cbv zeta. destruct (_ || _).
  - apply returns_ok. by exists 0, 0.
  - eapply returns_mono; [by eapply slice_ok|]. intros r ->. by eexists _, _.
Qed.

(** Ranks [start .. stop] of a list, negative ones counted from the end. *)
Definition range_of {A} (l : list A) (start stop : Z) : list A :=
  let n := Z.of_nat (length l) in
  let first := Z.max 0 (if start <? 0 then start + n else start)%Z in
  let final := Z.min (n - 1) (if stop <? 0 then stop + n else stop)%Z in
  slice (Z.to_nat first) (Z.to_nat (final - first + 1)) l.

Lemma rangeByRank_ok sl l start stop :
  chained sl l → (Z.of_nat (length l) < 2 ^ 31)%Z →
  rangeByRank sl start stop ⇓ λ r, r = range_of l start stop.
Proof.
  intros (ids & Hwf & Hdata) Hlen. unfold rangeByRank, range_of.
  assert (Hids : length ids = length l) by by rewrite <- (length_fmap (data_of (nodes sl))), Hdata, length_fmap.
  rewrite (wf_size _ _ Hwf), Hids, wrap_s32_id by (unfold in_s32; lia).
  set (n := Z.of_nat (length l)) in *.
  set (a := if (start <? 0)%Z then (start + n)%Z else start).
  set (b := if (stop <? 0)%Z then (stop + n)%Z else stop).
  replace (if (a <? 0)%Z then 0%Z else a) with (Z.max 0 a) by (destruct (Z.ltb_spec a 0); lia).
  replace (if (n <=? b)%Z then (n - 1)%Z else b) with (Z.min (n - 1) b) by (destruct (Z.leb_spec n b); lia).
  set (f := Z.max 0 a). set (g := Z.min (n - 1) b).
  destruct ((g <? f)%Z || (n <=? f)%Z) eqn:Hor.
  - apply returns_ok. unfold slice. destruct (Z.ltb_spec g f) as [Hgf|Hgf].
    + replace (Z.to_nat (g - f + 1)) with 0 by lia. by rewrite take_0.
    + rewrite drop_ge by lia. by rewrite take_nil.
  - by eapply slice_ok.
Qed.

(** *** Destruction *)

Lemma delete_chain_ok ns ids :
  NoDup ids → (∀ pre x post, ids = pre ++ x :: post → fwd_at ns x 0 = Some (head post)) →
  delete_chain (length ids) ns (head ids) = Ok (filter (λ xn, xn.1 ∉ ids) ns).
Proof.
  revert ns. induction ids as [|x ids IH]; intros ns Hnd Hl.
  { cbn. f_equal. symmetry. apply map_filter_id. intros ???. apply not_elem_of_nil. }
  apply NoDup_cons in Hnd as [Hx Hnd]. cbn [head length delete_chain].
  rewrite (get_forward_ok ns x 0 (head ids)) by by apply (Hl []). cbn [mbind result_bind].
  rewrite IH; [|done|].
  - f_equal. apply map_eq. intros y. apply option_eq. intros n.
    rewrite !map_lookup_filter_Some, lookup_delete_Some, not_elem_of_cons. naive_solver.
  - intros pre y post ->. unfold fwd_at. rewrite lookup_delete_ne by set_solver.
    by apply (Hl (x :: pre)).
Qed.

Lemma deleteAllNodes_ok sl ids : wf sl ids → deleteAllNodes sl = Ok ∅.
Proof.
  intros Hwf. unfold deleteAllNodes.
  assert (Hl : ∀ pre x post, header_ :: ids = pre ++ x :: post → fwd_at (nodes sl) x 0 = Some (head post)).
  { intros pre x post Heq. by eapply level0_links. }
  rewrite (get_forward_ok _ _ _ (head ids)) by by apply (Hl []). cbn [mbind result_bind].
  rewrite (wf_size _ _ Hwf), delete_chain_ok; [|by eapply NoDup_cons, wf_nodup|].
  - cbn. f_equal. apply map_eq. intros y. apply option_eq. intros n.
    rewrite lookup_delete_Some, map_lookup_filter_Some, lookup_empty. split; [|done].
    intros (Hy & Hn & Hout). assert (Hin : y ∈ header_ :: ids).
    { apply (wf_dom _ _ Hwf), data_is_Some. eauto. }
    set_solver.
  - intros pre x post Heq. apply (Hl (header_ :: pre)). by rewrite Heq.
Qed.

Lemma create_ok rng : represents (create rng) [].
Proof.
  split; [|split; constructor]. exists []. split; [|done].
  split; unfold create; cbn [nodes level_ size_ next_addr]; try done; try (unfold kMaxLevel; lia).
  - repeat constructor. set_solver.
  - intros x. rewrite list_elem_of_singleton. unfold data_of.
    destruct (decide (x = header_)) as [->|Hx].
    + rewrite lookup_singleton_eq. naive_solver.
    + rewrite lookup_singleton_ne by done. split; [by intros []|done].
  - intros pre x post i Hsplit Hi. destruct pre as [|? [|? ?]]; simplify_eq/=.
    unfold fwd_at, height in *. rewrite lookup_singleton_eq in *. cbn [forward new_node] in *.
    rewrite length_replicate in Hi. by apply lookup_replicate_2.
  - by intros [|??] x post Hsplit.
  - repeat constructor.
Qed.

(** ** Sequences of operations *)

Inductive op :=
| Insert (m : bytes) (s : double)
| Remove (m : bytes) (s : double)
| Find (m : bytes) (s : double)
| Range (start stop : Z).

Inductive output :=
| ODone
| OBool (b : bool)
| OElems (l : list elem).

Definition run_op (sl : Skiplist) (o : op) : result (output * Skiplist) :=
  match o with
  | Insert m s => sl' ← insert sl m s; mret (ODone, sl')
  | Remove m s => '(b, sl') ← remove sl m s; mret (OBool b, sl')
  | Find m s => r ← find sl m s; mret (OBool (bool_decide (is_Some r)), sl)
  | Range a b => l ← rangeByRank sl a b; mret (OElems l, sl)
  end.

Fixpoint run_ops (sl : Skiplist) (os : list op) : result (list output * Skiplist) :=
  match os with
  | [] => mret ([], sl)
  | o :: os' => '(r, sl1) ← run_op sl o; '(rs, sl2) ← run_ops sl1 os'; mret (r :: rs, sl2)
  end.

(** The same operations on the sorted list of the elements. *)
Definition spec_op (l : list elem) (o : op) : output * list elem :=
  match o with
  | Insert m s => (ODone, lower (m, s) l ++ (m, s) :: upper (m, s) l)
  | Remove m s => (OBool (existsb (λ f, same f (m, s)) l), without (m, s) l)
  | Find m s => (OBool (existsb (λ f, same f (m, s)) l), l)
  | Range a b => (OElems (range_of l a b), l)
  end.

Fixpoint spec_ops (l : list elem) (os : list op) : list output * list elem :=
  match os with
  | [] => ([], l)
  | o :: os' => let '(r, l1) := spec_op l o in
                let '(rs, l2) := spec_ops l1 os' in (r :: rs, l2)
  end.

(** What the header file asks of the caller: no duplicate insertion; scores
    that are numbers; ranks that fit an [int]. *)
Definition op_ok (l : list elem) (o : op) : bool :=
  match o with
  | Insert m s => negb (is_nan s) && negb (existsb (λ f, same f (m, s)) l)
  | Remove _ s | Find _ s => negb (is_nan s)
  | Range _ _ => (Z.of_nat (length l) <? 2 ^ 31)%Z
  end.

Fixpoint ops_ok (l : list elem) (os : list op) : bool :=
  match os with
  | [] => true
  | o :: os' => op_ok l o && ops_ok (spec_op l o).2 os'
  end.

Lemma sl_run_op_ok sl l o :
  represents sl l → op_ok l o = true →
  run_op sl o ⇓ λ '(r, sl'), represents sl' (spec_op l o).2 ∧ r = (spec_op l o).1.
Proof.
  intros Hrep Hok. destruct o as [m s|m s|m s|a b]; cbn [run_op spec_op op_ok fst snd] in *.
  - apply andb_true_iff in Hok as [Hn Hd]. rewrite !negb_true_iff in Hn, Hd.
    run_with insert_ok; [done|done|by apply existsb_false_Forall|]. intros sl' Hr. by apply returns_ok.
  - apply negb_true_iff in Hok. run_with sl_remove_ok; [done|done|]. intros [b sl'] [-> Hr]. by apply returns_ok.
  - apply negb_true_iff in Hok. run_with sl_find_ok; [done|done|]. intros r Hr. apply returns_ok.
    split; [done|]. f_equal. destruct r as [n|].
    + rewrite bool_decide_true by eauto. symmetry. apply existsb_exists.
      exists (member n, score n). rewrite <- list_elem_of_In. naive_solver.
    + rewrite bool_decide_false by by intros []. symmetry. by apply existsb_false_Forall.
  - apply Z.ltb_lt in Hok. run_with rangeByRank_ok; [apply Hrep|done|]. intros r ->. by apply returns_ok.
Qed.

Lemma sl_run_ops_ok os sl l :
  represents sl l → ops_ok l os = true →
  run_ops sl os ⇓ λ '(rs, sl'), represents sl' (spec_ops l os).2 ∧ rs = (spec_ops l os).1.
Proof.
  revert sl l. induction os as [|o os IH]; intros sl l Hrep Hok; [done|].
  cbn [run_ops spec_ops ops_ok] in *. apply andb_true_iff in Hok as [Ho Hos].
  run_with sl_run_op_ok; [done|done|]. destruct (spec_op l o) as [r0 l1]. cbn [fst snd] in *.
  intros [r sl1] [Hrep1 ->]. run_with IH; [done|done|]. destruct (spec_ops l1 os) as [rs0 l2].
  intros [rs sl2] [Hrep2 ->]. by apply returns_ok.
Qed.

(** ** Properties *)

(** C14: the skiplist implements a sorted list.  Whatever levels the generator
    draws, every sequence of insertions, removals, look-ups and rank ranges that
    respects the documented precondition runs without following a null or freed
    pointer, ends every search loop, answers as the sorted list of the elements
    does, and keeps all levels and the backward chain linked in (score, member)
    order. *)
Theorem skiplist_refines_sorted_list (rng : nat → Z) (os : list op) :
  ops_ok [] os = true →
  run_ops (create rng) os ⇓ λ '(rs, sl),
    represents sl (spec_ops [] os).2 ∧ rs = (spec_ops [] os).1.
Proof. intros Hok. apply sl_run_ops_ok; [apply create_ok|done]. Qed.

(** [insert] puts a new element at its place in the order, and [remove]
    takes exactly the elements equal to its argument away, telling whether there
    was one. *)
Theorem skiplist_insert_remove (sl : Skiplist) (l : list elem) (m : bytes) (s : double) :
  represents sl l → is_nan s = false →
  (Forall (λ f, same f (m, s) = false) l →
   insert sl m s ⇓ λ sl', represents sl' (lower (m, s) l ++ (m, s) :: upper (m, s) l)) ∧
  (remove sl m s ⇓ λ '(b, sl'),
     b = existsb (λ f, same f (m, s)) l ∧ represents sl' (without (m, s) l)).
Proof. intros Hr Hs. split; [by apply insert_ok|by apply sl_remove_ok]. Qed.

(** The destructor frees every node exactly once: it follows no null or
    freed pointer, its loop ends, and nothing it allocated is left. *)
Theorem skiplist_freed (sl : Skiplist) (l : list elem) :
  represents sl l → deleteAllNodes sl = Ok ∅.
Proof. intros [(ids & Hwf & _) _]. by apply (deleteAllNodes_ok sl ids). Qed.

(** ** Witnesses *)

Definition num (p : positive) : double := SpecFloat.S754_finite false p 0.

(** A generator that draws a second and a third level now and then. *)
Definition draws (i : nat) : Z := Z.of_nat (i mod 3).

Definition demo_ops : list op :=
  [Insert (lit "b") (num 3); Insert (lit "a") (num 1); Insert (lit "c") (num 3);
   Remove (lit "b") (num 3); Find (lit "c") (num 3); Range 0 (-1)].

Lemma skiplist_refines_sorted_list_witness :
  run_ops (create draws) demo_ops ⇓ λ '(rs, sl),
    represents sl (spec_ops [] demo_ops).2 ∧ rs = (spec_ops [] demo_ops).1.
Proof. apply (skiplist_refines_sorted_list draws demo_ops). vm_compute. reflexivity. Defined.

Definition demo_list : Skiplist :=
  match run_ops (create draws) demo_ops with Ok (_, sl) => sl | Fault _ => create draws end.

Definition demo_elems : list elem := (spec_ops [] demo_ops).2.

Lemma demo_list_ok : represents demo_list demo_elems.
Proof.
  unfold demo_list, demo_elems.
  pose proof (sl_run_ops_ok demo_ops (create draws) [] (create_ok draws) ltac:(vm_compute; reflexivity)) as H.
  destruct (run_ops (create draws) demo_ops) as [[rs sl]|]; [|by destruct H]. apply H.
Qed.

Lemma skiplist_insert_remove_witness :
  (insert demo_list (lit "b") (num 2) ⇓ λ sl', represents sl'
     (lower (lit "b", num 2) demo_elems ++ (lit "b", num 2) :: upper (lit "b", num 2) demo_elems)) ∧
  (remove demo_list (lit "a") (num 1) ⇓ λ '(b, sl'),
     b = true ∧ represents sl' (without (lit "a", num 1) demo_elems)).
Proof.
  split.
  - apply (proj1 (skiplist_insert_remove demo_list demo_elems (lit "b") (num 2) demo_list_ok eq_refl)).
    vm_compute. repeat constructor.
  - exact (proj2 (skiplist_insert_remove demo_list demo_elems (lit "a") (num 1) demo_list_ok eq_refl)).
Defined.

Lemma skiplist_freed_witness : deleteAllNodes demo_list = Ok ∅.
Proof. exact (skiplist_freed demo_list demo_elems demo_list_ok). Defined.

End Skiplist.
