(* ===== verification/StoreSkiplistMove.v ===== *)
(** * [store/Skiplist]: move construction, move assignment, destruction

    The special members of class [Skiplist] (src/store/Skiplist.cpp).  An object is
    its four fields; [header_] is a pointer, or null, into the heap that all objects
    share.  The heap is divided into pools: a constructor allocates its sentinel in a
    new pool, [insert] allocates in the pool of its list, and [delete] frees in it;
    a pool without nodes is gone.  Following a pointer into a pool that is gone, to
    read or to free, is a fault.  A program part is a sequence of operations on
    variables that hold such objects ([vop]). *)
From Stdlib Require Import Ascii String ZArith Lia.
From stdpp Require Import base option list strings gmap.
From S2P Require Import Prelude CStdlib CDouble StoreSkiplist.

Module SkiplistMove.
Import Skiplist.

Record Pool := mkPool {
  p_nodes : store;
  p_next : addr
}.

Abbreviation heap := (gmap nat Pool).

Record object := mkObject {
  o_header : option nat;
  o_level : nat;
  o_size : nat;
  o_rng : nat → Z
}.

(** The list an object stands for, given the nodes its header points to. *)
Definition assemble (o : object) (q : Pool) : Skiplist :=
  mkSkiplist (o_level o) (o_size o) (o_rng o) (p_nodes q) (p_next q).

Definition pool_of (sl : Skiplist) : Pool := mkPool (nodes sl) (next_addr sl).
Definition object_of (p : nat) (sl : Skiplist) : object := mkObject (Some p) (level_ sl) (size_ sl) (rng_ sl).

Definition loadPool (h : heap) (p : nat) : result Pool :=
  match h !! p with Some q => mret q | None => Fault DanglingPointer end.

(** [Skiplist()]: the sentinel is allocated in the pool [p]. *)
Definition construct (p : nat) (rng : nat → Z) (h : heap) : object * heap :=
  (object_of p (create rng), <[p := pool_of (create rng)]> h).

(** [Skiplist(Skiplist&& other)]: the new object and what [other] is left with; the
    generator is copied. *)
Definition moveConstruct (other : object) : object * object :=
  (mkObject (o_header other) (o_level other) (o_size other) (o_rng other), mkObject None 1 0 (o_rng other)).

(** [if (!header_) return;] and the rest of [deleteAllNodes]: what it does not free
    stays in the heap. *)
Definition release (o : object) (h : heap) : result heap :=
  match o_header o with
  | None => mret h
  | Some p =>
      q ← loadPool h p;
      rest ← deleteAllNodes (assemble o q);
      mret (if bool_decide (rest = ∅) then delete p h else <[p := mkPool rest (p_next q)]> h)
  end.

(** [operator=(Skiplist&& other)]: the heap, the new object and what [other] is left
    with; [self] is [this == &other]. *)
Definition moveAssign (self : bool) (this other : object) (h : heap) : result (heap * object * object) :=
  if negb self then
    h' ← release this h;
    mret (h', mkObject (o_header other) (o_level other) (o_size other) (o_rng other), mkObject None 1 0 (o_rng other))
  else mret (h, this, other).

(** ** Programs with list variables *)

Inductive vop :=
| VNew (x : nat) (rng : nat → Z)
| VMove (x y : nat)
| VAssign (x y : nat)
| VUse (x : nat) (o : op)
| VDrop (x : nat).

Record state := mkState {
  the_heap : heap;
  vars : gmap nat object;
  next_pool : nat
}.

Definition var (st : state) (x : nat) : result object :=
  match vars st !! x with Some o => mret o | None => Fault DanglingPointer end.

Definition run_vop (st : state) (v : vop) : result state :=
  match v with
  | VNew x rng =>
      let '(o, h) := construct (next_pool st) rng (the_heap st) in
      mret (mkState h (<[x := o]> (vars st)) (S (next_pool st)))
  | VMove x y =>
      other ← var st y;
      let '(this', other') := moveConstruct other in
      mret (mkState (the_heap st) (<[x := this']> (<[y := other']> (vars st))) (next_pool st))
  | VAssign x y =>
      this ← var st x;
      other ← var st y;
      '(h, this', other') ← moveAssign (bool_decide (x = y)) this other (the_heap st);
      mret (mkState h (<[x := this']> (<[y := other']> (vars st))) (next_pool st))
  | VUse x o =>
      this ← var st x;
      p ← deref (o_header this);
      q ← loadPool (the_heap st) p;
      '(_, sl) ← run_op (assemble this q) o;
      mret (mkState (<[p := pool_of sl]> (the_heap st)) (<[x := object_of p sl]> (vars st)) (next_pool st))
  | VDrop x =>
      this ← var st x;
      h ← release this (the_heap st);
      mret (mkState h (delete x (vars st)) (next_pool st))
  end.

Fixpoint run_vops (st : state) (vs : list vop) : result state :=
  match vs with
  | [] => mret st
  | v :: vs' => st' ← run_vop st v; run_vops st' vs'
  end.

Definition start : state := mkState ∅ ∅ 0.

(** ** Specification

    A variable has a list of elements, or [None] when its value was moved away. *)
Abbreviation spec := (gmap nat (option (list elem))).

Definition spec_vop (m : spec) (v : vop) : spec :=
  match v with
  | VNew x _ => <[x := Some []]> m
  | VMove x y => <[x := mjoin (m !! y)]> (<[y := None]> m)
  | VAssign x y => if bool_decide (x = y) then m else <[x := mjoin (m !! y)]> (<[y := None]> m)
  | VUse x o => match mjoin (m !! x) with Some l => <[x := Some (spec_op l o).2]> m | None => m end
  | VDrop x => delete x m
  end.

(** Variables are declared once before they are used, and only lists that were not
    moved away are used, within the precondition of the operation. *)
Definition vop_ok (m : spec) (v : vop) : bool :=
  match v with
  | VNew x _ => bool_decide (m !! x = None)
  | VMove x y => bool_decide (m !! x = None) && bool_decide (is_Some (m !! y))
  | VAssign x y => bool_decide (is_Some (m !! x)) && bool_decide (is_Some (m !! y))
  | VUse x o => match mjoin (m !! x) with Some l => op_ok l o | None => false end
  | VDrop x => bool_decide (is_Some (m !! x))
  end.

Fixpoint vops_ok (m : spec) (vs : list vop) : bool :=
  match vs with
  | [] => true
  | v :: vs' => vop_ok m v && vops_ok (spec_vop m v) vs'
  end.

(** ** Every pool has one owner *)

(** The object holds the list [l] in the heap, or nothing. *)
Definition object_is (h : heap) (o : object) (l : option (list elem)) : Prop :=
  match o_header o, l with
  | Some p, Some l => ∃ q, h !! p = Some q ∧ represents (assemble o q) l
  | None, None => True
  | _, _ => False
  end.

(** The pool that variable [x] points to. *)
Definition points (vs : gmap nat object) (x : nat) (p : nat) : Prop := (vs !! x ≫= o_header) = Some p.

(** The variables hold what the specification says; no two share a pool, and every
    pool has an owner. *)
Record owns (h : heap) (vs : gmap nat object) (m : spec) : Prop := {
  ow_vars x : match vs !! x, m !! x with
              | Some o, Some l => object_is h o l
              | None, None => True
              | _, _ => False
              end;
  ow_one x y p : points vs x p → points vs y p → x = y;
  ow_all p : is_Some (h !! p) → ∃ x, points vs x p
}.

Lemma owns_var h vs m x l : owns h vs m → m !! x = Some l → ∃ o, vs !! x = Some o ∧ object_is h o l.
Proof. intros Ho Hx. pose proof (ow_vars _ _ _ Ho x) as Hv. rewrite Hx in Hv. destruct (vs !! x) as [o|]; [eauto|done]. Qed.

Lemma owns_none h vs m x : owns h vs m → m !! x = None → vs !! x = None.
Proof. intros Ho Hx. pose proof (ow_vars _ _ _ Ho x) as Hv. rewrite Hx in Hv. by destruct (vs !! x). Qed.

(** What is stored elsewhere does not matter. *)
Lemma object_is_ext h h' o l : (∀ p, o_header o = Some p → h' !! p = h !! p) → object_is h o l → object_is h' o l.
Proof. unfold object_is. intros Hh. destruct (o_header o) as [p|], l as [l|]; try done. by rewrite Hh. Qed.

Lemma points_insert_ne vs x y o p : x ≠ y → points (<[y := o]> vs) x p ↔ points vs x p.
Proof. intros Hne. unfold points. by rewrite lookup_insert_ne. Qed.

Lemma points_insert_eq vs x o p : points (<[x := o]> vs) x p ↔ o_header o = Some p.
Proof. unfold points. by rewrite lookup_insert_eq. Qed.

(** [deleteAllNodes] empties the pool of its object and no other. *)
Lemma release_ok h o l :
  object_is h o l → release o h = Ok (match o_header o with Some p => delete p h | None => h end).
Proof.
  unfold object_is, release, loadPool. destruct (o_header o) as [p|]; [|done]. destruct l as [l|]; [|done].
  intros (q & -> & (ids & Hwf & _) & _). rewrite bind_ok, (deleteAllNodes_ok (assemble o q) ids Hwf), bind_ok.
  by rewrite bool_decide_true.
Qed.

(** *** The steps *)

Lemma owns_new h vs m x n rng :
  owns h vs m → m !! x = None → h !! n = None →
  owns (<[n := pool_of (create rng)]> h) (<[x := object_of n (create rng)]> vs) (<[x := Some []]> m).
Proof.
  intros Ho Hx Hn. pose proof (owns_none _ _ _ _ Ho Hx) as Hvx.
  assert (Hold : ∀ y p, points vs y p → p ≠ n ∧ y ≠ x).
  { intros y p Hp. unfold points in Hp. pose proof (ow_vars _ _ _ Ho y) as Hv. destruct (vs !! y) as [o|] eqn:Hy; [|done].
    cbn in Hp. destruct (m !! y) as [l|]; [|done]. unfold object_is in Hv. rewrite Hp in Hv. split; [|congruence].
    intros ->. destruct l as [l|]; [|done]. destruct Hv as (q & Hq & _). congruence. }
  split.
  - intros y. destruct (decide (y = x)) as [->|Hne].
    + rewrite !lookup_insert_eq. exists (pool_of (create rng)). rewrite lookup_insert_eq. split; [done|]. apply create_ok.
    + rewrite !lookup_insert_ne by done. pose proof (ow_vars _ _ _ Ho y) as Hv. destruct (vs !! y) as [o|] eqn:Hy; [|done].
      destruct (m !! y); [|done]. eapply object_is_ext; [|exact Hv]. intros p Hp. rewrite lookup_insert_ne; [done|].
      intros <-. destruct (Hold y n) as [? _]; [unfold points; by rewrite Hy|done].
  - intros y z p. destruct (decide (y = x)) as [->|Hy], (decide (z = x)) as [->|Hz]; [done|..];
      rewrite ?points_insert_eq, ?points_insert_ne by done.
    + intros [= <-] Hp. by destruct (Hold z n Hp).
    + intros Hp [= <-]. by destruct (Hold y n Hp).
    + apply (ow_one _ _ _ Ho).
  - intros p [q Hq]. destruct (decide (p = n)) as [->|Hp]; [exists x; by rewrite points_insert_eq|].
    rewrite lookup_insert_ne in Hq by done. destruct (ow_all _ _ _ Ho p ltac:(eauto)) as [y Hy].
    exists y. rewrite points_insert_ne; [done|]. by destruct (Hold y p Hy).
Qed.

(** A variable that goes away takes its pool with it. *)
Lemma owns_drop h vs m x o :
  owns h vs m → vs !! x = Some o →
  owns (match o_header o with Some p => delete p h | None => h end) (delete x vs) (delete x m).
Proof.
  intros Ho Hx.
  assert (Hother : ∀ y p, points (delete x vs) y p → y ≠ x ∧ points vs y p ∧ o_header o ≠ Some p).
  { intros y p Hp. unfold points in *. destruct (decide (y = x)) as [->|Hne]; [by rewrite lookup_delete_eq in Hp|].
    rewrite lookup_delete_ne in Hp by done. split; [done|]. split; [done|]. intros Hop. apply Hne.
    apply (ow_one _ _ _ Ho y x p Hp). unfold points. by rewrite Hx. }
  split.
  - intros y. destruct (decide (y = x)) as [->|Hne]; [by rewrite !lookup_delete_eq|]. rewrite !lookup_delete_ne by done.
    pose proof (ow_vars _ _ _ Ho y) as Hv. destruct (vs !! y) as [o'|] eqn:Hy; [|done]. destruct (m !! y); [|done].
    eapply object_is_ext; [|exact Hv]. intros p Hp. destruct (o_header o) as [p0|] eqn:Hh; [|done]. rewrite lookup_delete_ne; [done|].
    intros ->. destruct (Hother y p) as (_ & _ & Hc); [|by apply Hc]. unfold points. by rewrite lookup_delete_ne, Hy.
  - intros y z p (_ & Hy & _)%Hother (_ & Hz & _)%Hother. by apply (ow_one _ _ _ Ho y z p).
  - intros p Hp. assert (Hp' : is_Some (h !! p) ∧ o_header o ≠ Some p).
    { destruct (o_header o) as [p0|]; [|done]. destruct Hp as [q [Hne Hq]%lookup_delete_Some]. split; [eauto|congruence]. }
    destruct Hp' as [Hin Hne]. destruct (ow_all _ _ _ Ho p Hin) as [y Hy]. exists y. unfold points in *.
    rewrite lookup_delete_ne; [done|]. intros <-. rewrite Hx in Hy. done.
Qed.

(** A value that moves from [y] to a variable [x] that is not there yet. *)
Lemma owns_move h vs m x y o l :
  owns h vs m → m !! x = None → m !! y = Some l → vs !! y = Some o →
  owns h (<[x := (moveConstruct o).1]> (<[y := (moveConstruct o).2]> vs)) (<[x := l]> (<[y := None]> m)).
Proof.
  intros Ho Hx Hy Hvy. pose proof (owns_none _ _ _ _ Ho Hx) as Hvx. assert (Hne : x ≠ y) by congruence.
  assert (Hpt : ∀ z p, points (<[x := (moveConstruct o).1]> (<[y := (moveConstruct o).2]> vs)) z p ↔
    z ≠ y ∧ points vs (if bool_decide (z = x) then y else z) p).
  { intros z p. case_bool_decide as Hz; [subst z; rewrite points_insert_eq|].
    - unfold points. rewrite Hvy. cbn. tauto.
    - rewrite points_insert_ne by done. destruct (decide (z = y)) as [->|Hzy].
      + rewrite points_insert_eq. cbn. naive_solver.
      + rewrite points_insert_ne by done. tauto. }
  split.
  - intros z. pose proof (ow_vars _ _ _ Ho z) as Hv. destruct (decide (z = x)) as [->|Hzx].
    + rewrite !lookup_insert_eq. pose proof (ow_vars _ _ _ Ho y) as Hvl. by rewrite Hvy, Hy in Hvl.
    + rewrite !(lookup_insert_ne _ x) by done. destruct (decide (z = y)) as [->|Hzy]; [by rewrite !lookup_insert_eq|].
      by rewrite !lookup_insert_ne.
  - intros z1 z2 p [H1 P1]%Hpt [H2 P2]%Hpt. pose proof (ow_one _ _ _ Ho _ _ p P1 P2) as Heq.
    repeat case_bool_decide; congruence.
  - intros p Hp. destruct (ow_all _ _ _ Ho p Hp) as [z Hz]. destruct (decide (z = y)) as [->|Hzy].
    + exists x. apply Hpt. by rewrite bool_decide_true.
    + exists z. apply Hpt. split; [done|]. rewrite bool_decide_false; [done|]. intros ->. unfold points in Hz. by rewrite Hvx in Hz.
Qed.

(** An operation on the list of [x] stays in its pool. *)
Lemma owns_use h vs m x o p sl l :
  owns h vs m → vs !! x = Some o → o_header o = Some p → represents sl l →
  owns (<[p := pool_of sl]> h) (<[x := object_of p sl]> vs) (<[x := Some l]> m).
Proof.
  intros Ho Hx Hh Hr. assert (Hpx : points vs x p) by (unfold points; by rewrite Hx).
  assert (Hpt : ∀ z q, points (<[x := object_of p sl]> vs) z q ↔ points vs z q).
  { intros z q. destruct (decide (z = x)) as [->|Hne]; [rewrite points_insert_eq|by rewrite points_insert_ne].
    unfold points. rewrite Hx. cbn. by rewrite Hh. }
  split.
  - intros z. destruct (decide (z = x)) as [->|Hne].
    + rewrite !lookup_insert_eq. exists (pool_of sl). rewrite lookup_insert_eq. split; [done|]. by destruct sl.
    + rewrite !(lookup_insert_ne _ x) by done. pose proof (ow_vars _ _ _ Ho z) as Hv. destruct (vs !! z) as [o'|] eqn:Hz; [|done].
      destruct (m !! z); [|done]. eapply object_is_ext; [|exact Hv]. intros q Hq. rewrite lookup_insert_ne; [done|].
      intros ->. apply Hne. apply (ow_one _ _ _ Ho z x q); [unfold points; by rewrite Hz|done].
  - intros z1 z2 q. rewrite !Hpt. apply (ow_one _ _ _ Ho).
  - intros q [q' Hq]. setoid_rewrite Hpt. apply lookup_insert_Some in Hq as [[<- _]|[_ Hq]]; [by exists x|].
    apply (ow_all _ _ _ Ho). eauto.
Qed.

(** The invariant of a program. *)
Record good (st : state) (m : spec) : Prop := {
  gd_owns : owns (the_heap st) (vars st) m;
  gd_fresh p : is_Some (the_heap st !! p) → p < next_pool st
}.

Lemma good_var st m x l : good st m → m !! x = Some l → ∃ o, var st x = Ok o ∧ vars st !! x = Some o ∧ object_is (the_heap st) o l.
Proof.
  intros [Ho _] Hx. destruct (owns_var _ _ _ _ _ Ho Hx) as (o & Hv & Hl). exists o. unfold var. by rewrite Hv.
Qed.

Lemma released_fresh (h : heap) o n :
  (∀ p, is_Some (h !! p) → p < n) →
  ∀ p, is_Some ((match o_header o with Some p => delete p h | None => h end) !! p) → p < n.
Proof.
  intros Hf p Hp. apply Hf. destruct (o_header o); [|done]. destruct Hp as [q [_ Hq]%lookup_delete_Some]. eauto.
Qed.

Lemma run_vop_ok st m v : good st m → vop_ok m v = true → run_vop st v ⇓ λ st', good st' (spec_vop m v).
Proof.
  intros Hst Hok. pose proof Hst as [Ho Hf]. destruct v as [x rng|x y|x y|x o|x]; cbn [run_vop spec_vop vop_ok] in *.
  - apply bool_decide_eq_true in Hok. apply returns_ok. split; cbn.
    + apply owns_new; [done|done|]. apply eq_None_not_Some. intros Hs%Hf. lia.
    + intros p [q [[<- _]|[_ Hq]]%lookup_insert_Some]; [lia|]. pose proof (Hf p ltac:(eauto)). lia.
  - apply andb_prop in Hok as [Hx%bool_decide_eq_true [l Hy]%bool_decide_eq_true].
    destruct (good_var _ _ _ _ Hst Hy) as (o & -> & Hv & _). rewrite bind_ok, Hy. apply returns_ok.
    split; [by apply owns_move|done].
  - apply andb_prop in Hok as [[k Hx]%bool_decide_eq_true [l Hy]%bool_decide_eq_true].
    destruct (good_var _ _ _ _ Hst Hx) as (p & -> & Hvx & Hp), (good_var _ _ _ _ Hst Hy) as (o & -> & Hvy & _).
    rewrite !bind_ok, Hy. unfold moveAssign. case_bool_decide as Hxy; cbn [negb].
    { subst y. rewrite bind_ok. assert (p = o) as -> by congruence. apply returns_ok. rewrite !insert_id by (rewrite ?insert_id; done). by destruct st. }
    rewrite (release_ok _ _ _ Hp), !bind_ok.
    apply returns_ok. split; [|by apply released_fresh]. cbn [the_heap vars].
    assert (Hm := owns_move _ _ _ x y o l (owns_drop _ _ _ _ _ Ho Hvx) (lookup_delete_eq m x)).
    rewrite !(lookup_delete_ne _ x y) in Hm by done. specialize (Hm Hy Hvy).
    rewrite <- !(delete_insert_ne _ x y) in Hm by done. by rewrite !insert_delete_eq in Hm.
  - destruct (m !! x) as [[l|]|] eqn:Hx; try discriminate Hok. cbn in Hok |- *.
    destruct (good_var _ _ _ _ Hst Hx) as (p & -> & Hv & Hp). rewrite bind_ok. unfold object_is in Hp.
    destruct (o_header p) as [a|] eqn:Hh; [|done]. destruct Hp as (q & Hq & Hr). cbn [deref]. rewrite bind_ok.
    unfold loadPool. rewrite Hq, bind_ok. run_with sl_run_op_ok; [exact Hr|exact Hok|]. intros [r sl] [Hsl _]. apply returns_ok.
    split; [by eapply owns_use|]. cbn. intros b [q' [[<- _]|[_ Hb]]%lookup_insert_Some]; apply Hf; eauto.
  - apply bool_decide_eq_true in Hok as [l Hx]. destruct (good_var _ _ _ _ Hst Hx) as (p & -> & Hv & Hp).
    rewrite bind_ok, (release_ok _ _ _ Hp), bind_ok. apply returns_ok. split; [by apply owns_drop|by apply released_fresh].
Qed.

Lemma run_vops_ok vs st m : good st m → vops_ok m vs = true → run_vops st vs ⇓ λ st', good st' (foldl spec_vop m vs).
Proof.
  revert st m. induction vs as [|v vs IH]; intros st m Hst Hok; cbn [run_vops vops_ok foldl] in *; [done|].
  apply andb_prop in Hok as [Hv Hvs]. run_with run_vop_ok; [done|done|]. intros st' Hst'. by apply IH.
Qed.

Lemma start_good : good start ∅.
Proof.
  split; [split|]; cbn.
  - intros x. by rewrite !lookup_empty.
  - intros x y p Hp. unfold points in Hp. by rewrite lookup_empty in Hp.
  - intros p [q Hq]. by rewrite lookup_empty in Hq.
  - intros p [q Hq]. by rewrite lookup_empty in Hq.
Qed.

(** ** Properties *)

(** C15: moving lists neither loses nor duplicates nodes.  However skiplists are
    created, filled, moved into new objects, assigned over others (also over
    themselves) and destroyed, in one heap: nothing that was freed is touched or
    freed again; a variable whose value was moved away has a null header and any
    other holds exactly the elements that were moved into it; no two variables
    point to the same nodes; and every node in the heap belongs to a variable, so
    that once all variables are gone the heap is empty. *)
Theorem skiplist_moves_own_nodes (vs : list vop) :
  vops_ok ∅ vs = true →
  run_vops start vs ⇓ λ st,
    (∀ x, match vars st !! x, foldl spec_vop ∅ vs !! x with
          | Some o, Some None => o_header o = None
          | Some o, Some (Some l) => ∃ p q, o_header o = Some p ∧ the_heap st !! p = Some q ∧ represents (assemble o q) l
          | None, None => True
          | _, _ => False
          end) ∧
    (∀ x y p, points (vars st) x p → points (vars st) y p → x = y) ∧
    (∀ p, is_Some (the_heap st !! p) → ∃ x, points (vars st) x p) ∧
    (vars st = ∅ → the_heap st = ∅).
Proof.
  intros Hok. eapply returns_mono; [apply (run_vops_ok vs start ∅ start_good Hok)|].
  intros st [[Hv Hone Hall] _]. split; [|split; [done|split; [done|]]].
  - intros x. specialize (Hv x). unfold object_is in Hv.
    destruct (vars st !! x) as [o|], (foldl spec_vop ∅ vs !! x) as [[l|]|]; try done;
      destruct (o_header o) as [p|]; try done. destruct Hv as (q & Hq & Hr). eauto.
  - intros Hempty. apply map_empty. intros p. apply eq_None_not_Some. intros [x Hx]%Hall.
    unfold points in Hx. by rewrite Hempty, lookup_empty in Hx.
Qed.

(** ** Witness *)

Definition demo_vops : list vop :=
  [VNew 0 draws; VUse 0 (Insert (lit "a") (num 1)); VNew 1 draws; VUse 1 (Insert (lit "b") (num 2)); VAssign 1 0;
   VMove 2 1; VUse 2 (Insert (lit "c") (num 3)); VAssign 2 2; VDrop 0; VDrop 1; VDrop 2].

Lemma skiplist_moves_own_nodes_witness :
  run_vops start demo_vops ⇓ λ st,
    (∀ x, match vars st !! x, foldl spec_vop ∅ demo_vops !! x with
          | Some o, Some None => o_header o = None
          | Some o, Some (Some l) => ∃ p q, o_header o = Some p ∧ the_heap st !! p = Some q ∧ represents (assemble o q) l
          | None, None => True
          | _, _ => False
          end) ∧
    (∀ x y p, points (vars st) x p → points (vars st) y p → x = y) ∧
    (∀ p, is_Some (the_heap st !! p) → ∃ x, points (vars st) x p) ∧
    (vars st = ∅ → the_heap st = ∅).
Proof. apply (skiplist_moves_own_nodes demo_vops). vm_compute. reflexivity. Defined.

End SkiplistMove.
