(* ===== verification/StoreObject.v ===== *)
(** * [store/RedisObject]: the value stored under a key

    [RedisObject] (src/store/RedisObject.h, RedisObject.cpp) is a type tag, an
    encoding tag and a variant.  The source keeps the three in separate fields,
    so the model does too, and [wf] says that they agree.

    [std::unordered_map] and [std::unordered_set] are finite maps and sets;
    the commands that iterate over them say how the order is modelled.  What
    [memoryUsage] reads of the run-time library (object sizes, string capacities,
    bucket counts) is a [Platform]: the estimate is only ever added up and
    reported, and the theorems hold for every platform. *)
From Stdlib Require Import Ascii String ZArith Lia ZifyNat ZifyBool.
From stdpp Require Import base option list strings gmap.
From S2P Require Import Prelude CStdlib CDouble StoreSkiplist.

Module RedisObject.

Inductive DataType := STRING | LIST | HASH | SET | ZSET.

Inductive Encoding := RAW | INTEGER | LINKEDLIST | HASHTABLE | SKIPLIST.

#[export] Instance DataType_eq_dec : EqDecision DataType.
Proof. solve_decision. Defined.
#[export] Instance Encoding_eq_dec : EqDecision Encoding.
Proof. solve_decision. Defined.

Record ZSetData := mkZSetData {
  skiplist : Skiplist.Skiplist;
  dict : gmap bytes double
}.

Inductive RedisData :=
| DString (s : bytes)
| DInteger (z : Z)
| DDeque (l : list bytes)
| DMap (m : gmap bytes bytes)
| DSet (s : gset bytes)
| DZSet (z : ZSetData).

Record RedisObject := mkObject {
  type : DataType;
  encoding : Encoding;
  data : RedisData
}.

(** [std::get_if<T>(&data)] *)
Definition get_string (d : RedisData) : option bytes := match d with DString s => Some s | _ => None end.
Definition get_integer (d : RedisData) : option Z := match d with DInteger z => Some z | _ => None end.
Definition get_deque (d : RedisData) : option (list bytes) := match d with DDeque l => Some l | _ => None end.
Definition get_map (d : RedisData) : option (gmap bytes bytes) := match d with DMap m => Some m | _ => None end.
Definition get_set (d : RedisData) : option (gset bytes) := match d with DSet s => Some s | _ => None end.
Definition get_zset (d : RedisData) : option ZSetData := match d with DZSet z => Some z | _ => None end.

(** [std::get<T>(data)] throws on another alternative. *)
Definition std_get {A} (p : option A) : result A :=
  match p with Some x => mret x | None => Fault BadVariantAccess end.

(** [end == start + val.size() && errno == 0]; the two comparisons with the
    bounds of [long long] that follow are always true of a [long long]. *)
Definition createString (val : bytes) : RedisObject :=
  let r := strtoll val in
  if negb (bool_decide (val = [])) &&
     (bool_decide (st_end r = length val) && negb (st_range r) &&
      (LLONG_MIN <=? st_value r)%Z && (st_value r <=? LLONG_MAX)%Z)
  then mkObject STRING INTEGER (DInteger (st_value r))
  else mkObject STRING RAW (DString val).

Definition createList : RedisObject := mkObject LIST LINKEDLIST (DDeque []).
Definition createHash : RedisObject := mkObject HASH HASHTABLE (DMap ∅).
Definition createSet : RedisObject := mkObject SET HASHTABLE (DSet ∅).

(** The skiplist of a new sorted set is seeded by the random device. *)
Definition createZSet (rng : nat → Z) : RedisObject :=
  mkObject ZSET SKIPLIST (DZSet (mkZSetData (Skiplist.create rng) ∅)).

Definition asString (o : RedisObject) : bytes :=
  if bool_decide (encoding o = INTEGER) then
    match get_integer (data o) with Some z => to_string z | None => [] end
  else match get_string (data o) with Some s => s | None => [] end.

(** *** The memory estimate *)

Record Platform := mkPlatform {
  sizeof_RedisObject : Z;
  sizeof_string : Z;
  capacity : bytes → Z;
  bucket_count : nat → Z
}.

Definition sizeof_pointer : Z := 8.
Definition sizeof_double : Z := 8.
Definition kBucketOverhead : Z := sizeof_pointer.
Definition kAvgPointersPerNode : Z := 2.

Definition sum (l : list Z) : Z := foldr Z.add 0%Z l.

Definition memoryUsage (p : Platform) (o : RedisObject) : Z :=
  wrap_u64 (sizeof_RedisObject p +
    match type o with
    | STRING =>
        if bool_decide (encoding o = INTEGER) then 0
        else match get_string (data o) with Some s => capacity p s | None => 0 end
    | LIST =>
        match get_deque (data o) with
        | Some l => sum ((λ s, sizeof_string p + capacity p s) <$> l)
        | None => 0
        end
    | HASH =>
        match get_map (data o) with
        | Some m =>
            bucket_count p (base.size m) * kBucketOverhead +
            sum ((λ '(k, v), sizeof_string p * 2 + capacity p k + capacity p v) <$> map_to_list m)
        | None => 0
        end
    | SET =>
        match get_set (data o) with
        | Some s =>
            bucket_count p (base.size s) * kBucketOverhead +
            sum ((λ x, sizeof_string p + capacity p x) <$> elements s)
        | None => 0
        end
    | ZSET =>
        match get_zset (data o) with
        | Some z =>
            Z.of_nat (Skiplist.size (skiplist z)) *
              (sizeof_string p + 32 + sizeof_double + kAvgPointersPerNode * sizeof_pointer) +
            bucket_count p (base.size (dict z)) * kBucketOverhead +
            sum ((λ '(x, _), sizeof_string p + capacity p x + sizeof_double) <$> map_to_list (dict z))
        | None => 0
        end
    end)%Z.

(** ** Invariant *)

(** The skiplist and the dictionary of a sorted set hold the same elements, one
    score per member. *)
Definition zset_ok (z : ZSetData) : Prop :=
  ∃ l : list (bytes * double), Skiplist.represents (skiplist z) l ∧ NoDup l.*1 ∧ dict z = list_to_map l.

(** The type invariant asks for less: the nodes are linked, in whatever order.  A
    score that is not a number breaks the order, and with it the agreement, but
    never the links. *)
Definition zset_linked (z : ZSetData) : Prop := ∃ l, Skiplist.chained (skiplist z) l.

(** The tags name the active alternative, a string that reads as an integer is
    stored as one, integers fit their width, and the nodes of a sorted set are
    linked. *)
Definition wf (o : RedisObject) : Prop :=
  match type o, encoding o, data o with
  | STRING, RAW, DString s => createString s = o
  | STRING, INTEGER, DInteger z => in_s64 z
  | LIST, LINKEDLIST, DDeque _ => True
  | HASH, HASHTABLE, DMap _ => True
  | SET, HASHTABLE, DSet _ => True
  | ZSET, SKIPLIST, DZSet z => zset_linked z
  | _, _, _ => False
  end.

Lemma createString_cases v :
  (createString v = mkObject STRING RAW (DString v)) ∨
  (∃ z, createString v = mkObject STRING INTEGER (DInteger z) ∧ in_s64 z ∧
     st_end (strtoll v) = length v ∧ st_value (strtoll v) = z).
Proof.
  unfold createString. destruct (negb _ && _) eqn:H; [right|by left].
  exists (st_value (strtoll v)). rewrite !andb_true_iff, bool_decide_eq_true in H.
  unfold LLONG_MIN, LLONG_MAX in H. split; [done|]. split; [unfold in_s64; lia|tauto].
Qed.

Lemma createString_wf v : wf (createString v).
Proof. destruct (createString_cases v) as [H|(z & -> & Hz & _)]; [|done]. rewrite H. exact H. Qed.

Lemma createString_type v : type (createString v) = STRING.
Proof. by destruct (createString_cases v) as [->|(z & -> & _)]. Qed.

Lemma create_zset_ok rng : zset_ok (mkZSetData (Skiplist.create rng) ∅).
Proof. exists []. split; [apply Skiplist.create_ok|]. split; [constructor|done]. Qed.

Lemma zset_ok_linked z : zset_ok z → zset_linked z.
Proof. intros (l & [Hl _] & _). by exists l. Qed.

Lemma createZSet_wf rng : wf (createZSet rng).
Proof. apply zset_ok_linked, create_zset_ok. Qed.

Lemma createString_to_string z :
  in_s64 z → createString (to_string z) = mkObject STRING INTEGER (DInteger z).
Proof.
  intros Hz. unfold createString. rewrite strtoll_to_string by done. cbn [st_end st_range st_value].
  unfold in_s64, LLONG_MIN, LLONG_MAX in *.
  rewrite (bool_decide_true (length _ = length _)) by done.
  rewrite bool_decide_false.
  - replace (- 2 ^ 63 <=? z)%Z with true by lia. replace (z <=? 2 ^ 63 - 1)%Z with true by lia. done.
  - unfold to_string. destruct (Z.ltb_spec z 0); [done|].
    by destruct (to_string_nat_cons z ltac:(lia)) as (c & s & -> & _).
Qed.

(** ** Properties *)

(** What a string object gives back.  A value is stored verbatim, or, when
    [strtoll] accepts the whole of it, as the integer it denotes; the canonical
    form of that integer is what is read back, and storing that form again
    changes nothing. *)
Theorem createString_roundtrip (v : bytes) :
  wf (createString v) ∧ type (createString v) = STRING ∧
  (asString (createString v) = v ∨
   ∃ z, in_s64 z ∧ st_end (strtoll v) = length v ∧ st_value (strtoll v) = z ∧
        asString (createString v) = to_string z) ∧
  createString (asString (createString v)) = createString v.
Proof.
  split; [apply createString_wf|]. split; [apply createString_type|].
  destruct (createString_cases v) as [H|(z & H & Hz & He & Hv)].
  - rewrite H. split; [by left|]. by rewrite <- H at 2.
  - rewrite H. split; [right; by exists z|]. apply createString_to_string, Hz.
Qed.

(** The integer encoding does not keep the bytes of every value: a leading
    zero, plus sign or space is lost on the way back. *)
Theorem createString_not_verbatim :
  asString (createString (lit "007")) = lit "7" ∧
  asString (createString (lit "+5")) = lit "5" ∧
  asString (createString (lit " 12")) = lit "12".
Proof. vm_compute. done. Qed.

End RedisObject.
