(* ===== verification/StoreInterfaces.v ===== *)
(** * What the database relies on

    [Database] (src/store/Database.h) is built from a key table and an index of
    deadlines.  [KeyTable] and [DeadlineIndex] are the operations it calls, the
    [...Laws] classes what it relies on about them; the instances at the end
    discharge both with the theorems of [HashTable] and [TTLHeap]. *)
From Stdlib Require Import Ascii String ZArith Lia ZifyNat ZifyBool.
From stdpp Require Import base option list strings gmap.
From S2P Require Import Prelude StoreTTLHeap StoreHashTable.

(** An entry found in the table is given by its value and its [expireAt]; a
    write through an entry pointer is [kt_set_value] or [kt_set_expireAt]. *)
Class KeyTable (V T : Type) := {
  kt_empty : T;
  kt_find : T → bytes → result (option (V * Z));
  kt_set : T → bytes → V → result T;
  kt_del : T → bytes → result (bool * T);
  kt_set_value : V → T → bytes → result T;
  kt_set_expireAt : Z → T → bytes → result T;
  kt_rehashStep : T → result T;
  kt_keys : T → list bytes;
  kt_scan : T → nat → nat → result (nat * list bytes);
  kt_size : T → Z;
  kt_flushAll : T → T;
  kt_expiryCount : T → nat;
  kt_migrating : T → bool
}.
#[global] Hint Mode KeyTable - ! : typeclass_instances.

Class KeyTableLaws (V T : Type) `{KeyTable V T} := {
  kt_wf : T → Prop;
  kt_map : T → gmap bytes (V * Z);
  kt_empty_ok : kt_wf kt_empty ∧ kt_map kt_empty = ∅;
  kt_find_ok t k : kt_wf t → kt_find t k = Ok (kt_map t !! k);
  kt_set_ok t k v : kt_wf t →
    kt_set t k v ⇓ λ t', kt_wf t' ∧ ∃ d, kt_map t' = <[k := (v, d)]> (kt_map t) ∧
      match kt_map t !! k with None => d = (-1)%Z | Some (_, d0) => d = d0 ∨ kt_migrating t = true ∧ d = (-1)%Z end;
  kt_del_ok t k : kt_wf t →
    kt_del t k ⇓ λ '(b, t'), kt_wf t' ∧ kt_map t' = delete k (kt_map t) ∧
      b = bool_decide (is_Some (kt_map t !! k));
  kt_set_value_ok v t k v0 d : kt_wf t → kt_map t !! k = Some (v0, d) →
    kt_set_value v t k ⇓ λ t', kt_wf t' ∧ kt_map t' = <[k := (v, d)]> (kt_map t);
  kt_set_expireAt_ok d' t k v d : kt_wf t → kt_map t !! k = Some (v, d) →
    kt_set_expireAt d' t k ⇓ λ t', kt_wf t' ∧ kt_map t' = <[k := (v, d')]> (kt_map t);
  kt_rehashStep_ok t : kt_wf t → kt_rehashStep t ⇓ λ t', kt_wf t' ∧ kt_map t' = kt_map t;
  kt_keys_ok t : kt_wf t → NoDup (kt_keys t) ∧ ∀ k, k ∈ kt_keys t ↔ is_Some (kt_map t !! k);
  kt_scan_ok t c n : kt_wf t →
    kt_scan t c n ⇓ λ '(next, ks), HashTable.page (kt_map t) c n next ks;
  kt_size_ok t : kt_wf t → kt_size t = Z.of_nat (base.size (kt_map t));
  kt_flushAll_ok t : kt_wf t → kt_wf (kt_flushAll t) ∧ kt_map (kt_flushAll t) = ∅;
  kt_expiryCount_ok t : kt_wf t →
    kt_expiryCount t = base.size (filter (λ kx, (0 ≤ kx.2.2)%Z) (kt_map t))
}.

Class DeadlineIndex (H : Type) := {
  di_empty : H;
  di_push : H → bytes → Z → result H;
  di_remove : H → bytes → result H;
  di_popExpired : H → Z → Z → result (list bytes * H)
}.

Class DeadlineIndexLaws (H : Type) `{DeadlineIndex H} := {
  di_wf : H → Prop;
  di_map : H → gmap bytes Z;
  di_empty_ok : di_wf di_empty ∧ di_map di_empty = ∅;
  di_push_ok h k d : di_wf h → di_push h k d ⇓ λ h', di_wf h' ∧ di_map h' = <[k := d]> (di_map h);
  di_remove_ok h k : di_wf h → di_remove h k ⇓ λ h', di_wf h' ∧ di_map h' = delete k (di_map h);
  di_popExpired_ok h now n : di_wf h →
    di_popExpired h now n ⇓ λ '(ks, h'), di_wf h' ∧ length ks ≤ Z.to_nat n ∧
      TTLHeap.popped (di_map h) (di_map h') now ks ∧
      (length ks < Z.to_nat n → ∀ k d, di_map h' !! k = Some d → (now < d)%Z)
}.

(** ** The implementations *)

Definition find_content {V} (t : HashTable.HashTable V) (k : bytes) : result (option (V * Z)) :=
  r ← HashTable.find t k; Ok (option_map HashTable.content r).

#[export] Instance HashTable_KeyTable V : KeyTable V (HashTable.HashTable V) := {
  kt_empty := HashTable.empty;
  kt_find := find_content;
  kt_set := HashTable.set;
  kt_del := HashTable.del;
  kt_set_value v := HashTable.modify (HashTable.set_value v);
  kt_set_expireAt d := HashTable.modify (HashTable.set_expireAt d);
  kt_rehashStep := HashTable.rehashStep 128;
  kt_keys := HashTable.keys;
  kt_scan := HashTable.scan;
  kt_size := HashTable.size_of;
  kt_flushAll := HashTable.flushAll;
  kt_expiryCount := HashTable.expiryCount;
  kt_migrating := HashTable.isRehashing_
}.

#[export] Program Instance HashTable_laws V : KeyTableLaws V (HashTable.HashTable V) := {
  kt_wf := HashTable.wf;
  kt_map := HashTable.to_map;
  kt_empty_ok := HashTable.ht_empty_ok;
  kt_del_ok := HashTable.ht_del_ok;
  kt_set_value_ok := HashTable.modify_value_ok;
  kt_set_expireAt_ok := HashTable.modify_expire_ok;
  kt_keys_ok := HashTable.ht_keys_ok;
  kt_scan_ok := HashTable.scan_total;
  kt_size_ok := HashTable.size_of_ok;
  kt_flushAll_ok := HashTable.flushAll_ok;
  kt_expiryCount_ok := HashTable.ht_expiryCount_ok
}.
Next Obligation.
  intros V t k Hwf. pose proof (HashTable.ht_find_ok t k Hwf) as H. cbn. unfold find_content.
  destruct (HashTable.find t k) as [r|]; [|done]. destruct H as [H _]. cbn. by rewrite H.
Qed.
Next Obligation.
  intros V t k v Hwf. eapply returns_mono; [by apply HashTable.ht_set_ok|].
  intros t' (Hwf' & x & Hm & Hx). split; [done|]. exists x. split; [done|].
  destruct (HashTable.to_map t !! k) as [[v0 d0]|]; naive_solver.
Qed.
Next Obligation.
  intros V t Hwf. eapply returns_mono; [by apply HashTable.ht_rehashStep_ok|].
  intros t' (Hse & _). split; [apply Hse|]. by apply HashTable.same_entries_map.
Qed.

#[export] Instance TTLHeap_DeadlineIndex : DeadlineIndex TTLHeap.TTLHeap := {
  di_empty := TTLHeap.empty_heap;
  di_push := TTLHeap.push;
  di_remove := TTLHeap.remove;
  di_popExpired := TTLHeap.popExpired
}.

#[export] Instance TTLHeap_laws : DeadlineIndexLaws TTLHeap.TTLHeap := {
  di_wf := TTLHeap.wf;
  di_map := TTLHeap.deadlines;
  di_empty_ok := TTLHeap.empty_heap_ok;
  di_push_ok := TTLHeap.push_ok;
  di_remove_ok := TTLHeap.remove_ok;
  di_popExpired_ok := TTLHeap.popExpired_ok
}.
