(* ===== verification/StoreDatabase.v ===== *)
(** * [store/Database]: the keyspace with expiry

    Class [Database] (src/store/Database.h, Database.cpp): a key table, an index
    of deadlines and a running memory estimate.  The model is generic in the two
    components ([KeyTable] and [DeadlineIndex]) and in the [Platform] that
    [memoryUsage] depends on.

    [nowMs()] is an argument [now]; a function that reads the clock more than
    once takes one argument per reading.  [HTEntry*] results are the contents of
    the entry, and a write through the pointer names the key again: between the
    look-up and the write the source changes nothing else. *)
From Stdlib Require Import Ascii String ZArith Lia ZifyNat ZifyBool.
From stdpp Require Import base option list strings gmap.
From S2P Require Import Prelude CStdlib StoreTTLHeap StoreHashTable StoreSkiplist StoreObject StoreInterfaces.
Import RedisObject.

Module Database.

Record Database (T H : Type) := mkDatabase {
  table_ : T;
  ttlHeap_ : H;
  usedMemory_ : Z
}.
Arguments mkDatabase {T H}.
Arguments table_ {T H}.
Arguments ttlHeap_ {T H}.
Arguments usedMemory_ {T H}.

Section database.
Context {T H : Type} `{KeyTable RedisObject T, DeadlineIndex H} (P : Platform).
Implicit Types (db : Database T H) (k : bytes).

Definition empty : Database T H := mkDatabase kt_empty di_empty 0.

Definition with_table (t : T) db : Database T H := mkDatabase t (ttlHeap_ db) (usedMemory_ db).

(** [usedMemory_ -= o.memoryUsage()] on a [size_t] *)
Definition release (o : RedisObject) db : Database T H :=
  mkDatabase (table_ db) (ttlHeap_ db) (wrap_u64 (usedMemory_ db - memoryUsage P o)).
Definition charge (o : RedisObject) db : Database T H :=
  mkDatabase (table_ db) (ttlHeap_ db) (wrap_u64 (usedMemory_ db + memoryUsage P o)).

(** [if (entry) usedMemory_ -= entry->value.memoryUsage();] *)
Definition release_entry (e : option (RedisObject * Z)) db : Database T H :=
  match e with Some (o, _) => release o db | None => db end.

Definition checkAndExpire (now : Z) db k (e : RedisObject * Z) : result (bool * Database T H) :=
  let '(o, expireAt) := e in
  if (expireAt <? 0)%Z then mret (false, db)
  else if (now <? expireAt)%Z then mret (false, db)
  else
    let db1 := release o db in
    h ← di_remove (ttlHeap_ db1) k;
    '(_, t) ← kt_del (table_ db1) k;
    mret (true, mkDatabase t h (usedMemory_ db1)).

Definition rehashStep db : result (Database T H) :=
  t ← kt_rehashStep (table_ db); mret (with_table t db).

Definition findEntry (now : Z) db k : result (option (RedisObject * Z) * Database T H) :=
  db1 ← rehashStep db;
  r ← kt_find (table_ db1) k;
  match r with
  | None => mret (None, db1)
  | Some e =>
      '(gone, db2) ← checkAndExpire now db1 k e;
      if gone : bool then mret (None, db2) else mret (Some e, db2)
  end.

Definition get (now : Z) db k : result (option bytes * Database T H) :=
  db1 ← rehashStep db;
  r ← kt_find (table_ db1) k;
  match r with
  | None => mret (None, db1)
  | Some e =>
      '(gone, db2) ← checkAndExpire now db1 k e;
      if gone : bool then mret (None, db2)
      else if bool_decide (type e.1 = STRING) then mret (Some (asString e.1), db2)
      else mret (None, db2)
  end.

Definition set db k (v : bytes) : result (Database T H) :=
  h ← di_remove (ttlHeap_ db) k;
  old ← kt_find (table_ db) k;
  let db1 := release_entry old (mkDatabase (table_ db) h (usedMemory_ db)) in
  t ← kt_set (table_ db1) k (createString v);
  entry ← kt_find t k;
  match entry with
  | None => mret (with_table t db1)
  | Some (o, _) =>
      t' ← kt_set_expireAt (-1) t k;
      mret (charge o (with_table t' db1))
  end.

Definition del db k : result (bool * Database T H) :=
  entry ← kt_find (table_ db) k;
  let db1 := release_entry entry db in
  h ← di_remove (ttlHeap_ db1) k;
  '(b, t) ← kt_del (table_ db1) k;
  mret (b, mkDatabase t h (usedMemory_ db1)).

Definition exists_ (now : Z) db k : result (bool * Database T H) :=
  db1 ← rehashStep db;
  r ← kt_find (table_ db1) k;
  match r with
  | None => mret (false, db1)
  | Some e =>
      '(gone, db2) ← checkAndExpire now db1 k e;
      mret (negb gone, db2)
  end.

Definition keys db : result (list bytes * Database T H) :=
  db1 ← rehashStep db; mret (kt_keys (table_ db1), db1).

(** The filtering loop of [scan]; [clk i] is the clock at the [i]-th key. *)
Fixpoint scan_filter (clk : nat → Z) (i : nat) db (raw : list bytes) (pattern : bytes)
    (acc : list bytes) : result (list bytes * Database T H) :=
  match raw with
  | [] => mret (acc, db)
  | k :: raw' =>
      r ← kt_find (table_ db) k;
      match r with
      | None => scan_filter clk (i + 1) db raw' pattern acc
      | Some e =>
          '(gone, db1) ← checkAndExpire (clk i) db k e;
          let acc' :=
            if negb gone && (bool_decide (pattern = lit "*") || bool_decide (k = pattern))
            then acc ++ [k] else acc in
          scan_filter clk (i + 1) db1 raw' pattern acc'
      end
  end.

Definition scan (clk : nat → Z) db (cursor count : nat) (pattern : bytes)
    : result (nat * list bytes * Database T H) :=
  db1 ← rehashStep db;
  '(next, raw) ← kt_scan (table_ db1) cursor count;
  '(ks, db2) ← scan_filter clk 0 db1 raw pattern [];
  mret (next, ks, db2).

Definition dbsize db : Z := kt_size (table_ db).

Definition setExpire (now : Z) db k (expireAtMs : Z) : result (bool * Database T H) :=
  r ← kt_find (table_ db) k;
  match r with
  | None => mret (false, db)
  | Some e =>
      '(gone, db1) ← checkAndExpire now db k e;
      if gone : bool then mret (false, db1)
      else
        t ← kt_set_expireAt expireAtMs (table_ db1) k;
        h ← di_push (ttlHeap_ db1) k expireAtMs;
        mret (true, mkDatabase t h (usedMemory_ db1))
  end.

Definition removeExpire db k : result (Database T H) :=
  r ← kt_find (table_ db) k;
  match r with
  | None => mret db
  | Some _ =>
      t ← kt_set_expireAt (-1) (table_ db) k;
      h ← di_remove (ttlHeap_ db) k;
      mret (mkDatabase t h (usedMemory_ db))
  end.

(** The clock is read once for the check and once for the answer. *)
Definition ttl (now now' : Z) db k : result (Z * Database T H) :=
  r ← kt_find (table_ db) k;
  match r with
  | None => mret (-2, db)%Z
  | Some (_, expireAt) =>
      if (0 <=? expireAt)%Z && (expireAt <=? now)%Z then
        h ← di_remove (ttlHeap_ db) k;
        '(_, t) ← kt_del (table_ db) k;
        mret ((-2)%Z, mkDatabase t h (usedMemory_ db))
      else if (expireAt <? 0)%Z then mret ((-1)%Z, db)
      else mret ((expireAt - now')%Z, db)
  end.

Fixpoint delete_all db (ks : list bytes) : result (Database T H) :=
  match ks with
  | [] => mret db
  | k :: ks' =>
      r ← kt_find (table_ db) k;
      let db1 := release_entry r db in
      '(_, t) ← kt_del (table_ db1) k;
      delete_all (with_table t db1) ks'
  end.

Definition activeExpireCycle (now : Z) db (maxWork : Z) : result (Database T H) :=
  '(ks, h) ← di_popExpired (ttlHeap_ db) now maxWork;
  delete_all (mkDatabase (table_ db) h (usedMemory_ db)) ks.

Definition setObject db k (o : RedisObject) : result (Database T H) :=
  old ← kt_find (table_ db) k;
  let db1 := release_entry old db in
  t ← kt_set (table_ db1) k o;
  entry ← kt_find t k;
  match entry with
  | None => mret (with_table t db1)
  | Some (o', _) => mret (charge o' (with_table t db1))
  end.

(** [entry->value.data] written through the pointer [findEntry] returned. *)
Definition updateObject db k (o : RedisObject) : result (Database T H) :=
  t ← kt_set_value o (table_ db) k; mret (with_table t db).

Definition flushdb db : Database T H := mkDatabase (kt_flushAll (table_ db)) di_empty 0.

Definition expiryCount db : nat := kt_expiryCount (table_ db).

End database.

(** ** Keyspaces

    The contents of the table as a finite map from keys to objects and
    deadlines. *)
Abbreviation keyspace := (gmap bytes (RedisObject * Z)).

Definition expired (now d : Z) : bool := (0 <=? d)%Z && (d <=? now)%Z.

(** What a client can see at time [now]. *)
Definition live (now : Z) (m : keyspace) : keyspace := filter (λ kx, expired now kx.2.2 = false) m.

(** Lazy expiry of one key. *)
Definition purge (now : Z) (k : bytes) (m : keyspace) : keyspace :=
  match m !! k with
  | Some (_, d) => if expired now d then delete k m else m
  | None => m
  end.

(** The keys of [raw] that SCAN reports: alive at their reading of the clock,
    and matching. *)
Fixpoint scan_matches (clk : nat → Z) (i : nat) (m : keyspace) (raw : list bytes) (pattern : bytes)
    : list bytes :=
  match raw with
  | [] => []
  | k :: raw' =>
      (if bool_decide (is_Some (live (clk i) m !! k)) &&
          (bool_decide (pattern = lit "*") || bool_decide (k = pattern)) then [k] else []) ++
      scan_matches clk (i + 1) m raw' pattern
  end.

(** Deadline index and table agree. *)
Definition synced (m : keyspace) (h : gmap bytes Z) : Prop :=
  (∀ k d, h !! k = Some d → ∃ o, m !! k = Some (o, d)) ∧
  (∀ k o d, m !! k = Some (o, d) → (0 ≤ d)%Z → h !! k = Some d).

Lemma live_lookup now m k :
  live now m !! k = match m !! k with
                    | Some (o, d) => if expired now d then None else Some (o, d)
                    | None => None
                    end.
Proof.
  unfold live. destruct (m !! k) as [[o d]|] eqn:Hk.
  - destruct (expired now d) eqn:He.
    + apply map_lookup_filter_None. right. intros x Hx. rewrite Hk in Hx. by simplify_eq/=; rewrite He.
    + by apply map_lookup_filter_Some.
  - apply map_lookup_filter_None. by left.
Qed.

Lemma expired_mono now now' d : (now ≤ now')%Z → expired now d = true → expired now' d = true.
Proof. unfold expired. lia. Qed.

Lemma purge_subseteq now k m : purge now k m ⊆ m.
Proof.
  unfold purge. destruct (m !! k) as [[o d]|]; [|done]. destruct (expired now d); [apply delete_subseteq|done].
Qed.

(** Expiring a key is invisible, then and later. *)
Lemma live_purge_later now now' k m :
  (now ≤ now')%Z → live now' (purge now k m) = live now' m.
Proof.
  intros Hle. unfold purge. destruct (m !! k) as [[o d]|] eqn:Hk; [|done].
  destruct (expired now d) eqn:He; [|done]. apply map_eq. intros k'. rewrite !live_lookup.
  destruct (decide (k' = k)) as [->|Hne]; [|by rewrite lookup_delete_ne].
  by rewrite lookup_delete_eq, Hk, (expired_mono now now').
Qed.

Lemma live_purge now k m : live now (purge now k m) = live now m.
Proof. apply live_purge_later. lia. Qed.

Lemma scan_matches_ext clk i m m' raw pattern :
  (∀ k, k ∈ raw → m' !! k = m !! k) →
  scan_matches clk i m' raw pattern = scan_matches clk i m raw pattern.
Proof.
  revert i. induction raw as [|k raw IH]; intros i Hl; simpl; [done|].
  rewrite !live_lookup, (Hl k), (IH (i + 1)); [done| |by left]. intros k' Hk'. apply Hl. by right.
Qed.

Lemma purge_lookup_ne now k k' m : k' ≠ k → purge now k m !! k' = m !! k'.
Proof.
  intros Hne. unfold purge. destruct (m !! k) as [[o d]|]; [|done].
  destruct (expired now d); [by rewrite lookup_delete_ne|done].
Qed.

Lemma purge_lookup now k m : purge now k m !! k = live now m !! k.
Proof.
  rewrite live_lookup. unfold purge. destruct (m !! k) as [[o d]|] eqn:Hk; [|done].
  destruct (expired now d); [by rewrite lookup_delete_eq|done].
Qed.

Lemma synced_delete k m h : synced m h → synced (delete k m) (delete k h).
Proof.
  intros [H1 H2]. split.
  - intros k' d [Hne Hd]%lookup_delete_Some. destruct (H1 k' d Hd) as [o Ho]. exists o.
    by rewrite lookup_delete_ne.
  - intros k' o d [Hne Hd]%lookup_delete_Some Hpos. rewrite lookup_delete_ne by done. eauto.
Qed.

(** Writing a key with a deadline, or without one. *)
Lemma synced_insert k o d m h : synced m h → synced (<[k := (o, d)]> m) (<[k := d]> h).
Proof.
  intros [H1 H2]. split; intros k'; destruct (decide (k' = k)) as [->|Hne].
  - intros d'. rewrite !lookup_insert_eq. intros [= ->]. eauto.
  - intros d'. rewrite !lookup_insert_ne by done. apply H1.
  - intros o' d'. rewrite !lookup_insert_eq. by intros [= -> ->].
  - intros o' d'. rewrite !lookup_insert_ne by done. apply H2.
Qed.

Lemma synced_insert_none k o m h : synced m h → synced (<[k := (o, (-1)%Z)]> m) (delete k h).
Proof.
  intros [H1 H2]. split; intros k'; destruct (decide (k' = k)) as [->|Hne].
  - intros d'. by rewrite lookup_delete_eq.
  - intros d'. rewrite lookup_delete_ne, lookup_insert_ne by done. apply H1.
  - intros o' d'. rewrite lookup_insert_eq. intros [= _ <-]. lia.
  - intros o' d'. rewrite lookup_delete_ne, lookup_insert_ne by done. apply H2.
Qed.

Lemma synced_update k o o' d m h :
  synced m h → m !! k = Some (o, d) → synced (<[k := (o', d)]> m) h.
Proof.
  intros [H1 H2] Hk. split; intros k'; destruct (decide (k' = k)) as [->|Hne].
  - intros d' Hd'. destruct (H1 k d' Hd') as [o'' Ho]. rewrite lookup_insert_eq. naive_solver.
  - intros d'. rewrite lookup_insert_ne by done. apply H1.
  - intros o'' d'. rewrite lookup_insert_eq. intros [= _ <-]. eauto.
  - intros o'' d'. rewrite lookup_insert_ne by done. apply H2.
Qed.

Lemma synced_absent k m h : synced m h → m !! k = None → h !! k = None.
Proof.
  intros [H1 _] Hk. destruct (h !! k) as [d|] eqn:Hd; [|done].
  destruct (H1 k d Hd) as [o Ho]. congruence.
Qed.

(** *** Memory accounting *)

Section memory.
Context (P : Platform).

(** The estimate of a whole keyspace. *)
Definition total (m : keyspace) : Z := map_fold (λ _ x a, (memoryUsage P x.1 + a)%Z) 0%Z m.

Lemma total_insert k x m : m !! k = None → total (<[k := x]> m) = (memoryUsage P x.1 + total m)%Z.
Proof. intros Hk. unfold total. rewrite map_fold_insert_L; [done| |done]. intros. lia. Qed.

Lemma total_delete k x m : m !! k = Some x → total m = (memoryUsage P x.1 + total (delete k m))%Z.
Proof.
  intros Hk. rewrite <- (insert_delete_id m k x) at 1 by done.
  apply total_insert, lookup_delete_eq.
Qed.

Lemma total_replace k x y m :
  m !! k = Some x → total (<[k := y]> m) = (total m - memoryUsage P x.1 + memoryUsage P y.1)%Z.
Proof.
  intros Hk. rewrite (total_delete k x m Hk), <- insert_delete_eq, total_insert by apply lookup_delete_eq. lia.
Qed.
End memory.

(** ** The operations on keyspaces *)

Section laws.
Context {T H : Type} `{KeyTableLaws RedisObject T, DeadlineIndexLaws H} (P : Platform).
Implicit Types (db : Database T H) (k : bytes).

Definition view db : keyspace := kt_map (table_ db).

Definition wf db : Prop :=
  kt_wf (table_ db) ∧ di_wf (ttlHeap_ db) ∧ synced (view db) (di_map (ttlHeap_ db)).

(** [usedMemory_] is the estimate of everything stored, modulo [2^64]. *)
Definition accounted db : Prop := usedMemory_ db = wrap_u64 (total P (view db)).

(** [db'] is well formed and holds [m]. *)
Definition holds (m : keyspace) db : Prop := wf db ∧ view db = m.

(** A step from [db] to [db'] that also keeps the account. *)
Definition moves db (m : keyspace) db' : Prop := holds m db' ∧ (accounted db → accounted db').

Lemma wrap_add a b : wrap_u64 (wrap_u64 a + b) = wrap_u64 (a + b).
Proof. unfold wrap_u64. by rewrite Zplus_mod_idemp_l. Qed.

Lemma wrap_sub a b : wrap_u64 (wrap_u64 a - b) = wrap_u64 (a - b).
Proof. unfold wrap_u64. by rewrite Zminus_mod_idemp_l. Qed.

Lemma moves_refl db : wf db → moves db (view db) db.
Proof. intros Hwf. by split. Qed.

Lemma moves_trans db db1 db2 m1 m2 : moves db m1 db1 → moves db1 m2 db2 → moves db m2 db2.
Proof. intros [_ Ha] [Hb Hc]. split; auto. Qed.

(** Giving the memory of a key back and removing it from both components. *)
Lemma release_delete db k t h :
  wf db → kt_wf t → di_wf h → kt_map t = delete k (view db) →
  di_map h = delete k (di_map (ttlHeap_ db)) →
  moves db (delete k (view db))
    (mkDatabase t h (usedMemory_ (release_entry P (view db !! k) db))).
Proof.
  intros (Ht & Hh & Hs) Ht' Hh' Hm Hd. split; [split; [split; [done|split; [done|]]|done]|].
  - unfold view in *. cbn. rewrite Hm, Hd. by apply synced_delete.
  - unfold accounted, view in *. cbn. rewrite Hm. intros Hacc.
    destruct (kt_map (table_ db) !! k) as [[o d]|] eqn:Hk; cbn.
    + rewrite Hacc, wrap_sub. f_equal. rewrite (total_delete P k (o, d)) by done. cbn. lia.
    + by rewrite delete_id.
Qed.

Lemma checkAndExpire_ok now db k o d :
  wf db → view db !! k = Some (o, d) →
  checkAndExpire P now db k (o, d) ⇓ λ '(b, db'),
    b = expired now d ∧ moves db (purge now k (view db)) db'.
Proof.
  intros Hwf Hk. unfold checkAndExpire, purge. rewrite Hk. unfold expired.
  destruct (Z.ltb_spec d 0) as [Hneg|Hpos].
  { replace (0 <=? d)%Z with false by lia. apply returns_ok. by split; [|apply moves_refl]. }
  destruct (Z.ltb_spec now d) as [Hlt|Hle].
  { replace (d <=? now)%Z with false by lia. rewrite andb_false_r.
    apply returns_ok. by split; [|apply moves_refl]. }
  replace (0 <=? d)%Z with true by lia. replace (d <=? now)%Z with true by lia.
  pose proof Hwf as (Ht & Hh & _). run_with di_remove_ok; [done|]. intros h [Hh' Hd'].
  run_with kt_del_ok; [done|]. intros [b t] (Ht' & Hm' & _). apply returns_ok. split; [done|].
  pose proof (release_delete db k t h Hwf Ht' Hh' Hm' Hd') as Hmv. by rewrite Hk in Hmv.
Qed.

Lemma rehashStep_ok db : wf db → rehashStep db ⇓ moves db (view db).
Proof.
  intros (Ht & Hh & Hs). unfold rehashStep. run_with kt_rehashStep_ok; [done|]. intros t [Ht' Hm].
  apply returns_ok. unfold moves, holds, wf, accounted, view in *. cbn. by rewrite Hm.
Qed.

(** Looking a key up with lazy expiry: the shared prefix of [get], [exists] and
    [findEntry]. *)
Lemma lookup_expire_ok {A} now db k (none : A) (some : RedisObject * Z → A) :
  wf db →
  (db1 ← rehashStep db;
   r ← kt_find (table_ db1) k;
   match r with
   | None => mret (none, db1)
   | Some e =>
       '(gone, db2) ← checkAndExpire P now db1 k e;
       if gone : bool then mret (none, db2) else mret (some e, db2)
   end) ⇓ λ '(r, db'),
    r = match live now (view db) !! k with Some e => some e | None => none end ∧
    moves db (purge now k (view db)) db'.
Proof.
  intros Hwf. run_with rehashStep_ok; [done|]. intros db1 Hmv. pose proof Hmv as [[Hwf1 Hv1] _].
  rewrite kt_find_ok by apply Hwf1. cbn [mbind result_bind]. fold (view db1). rewrite <- Hv1, live_lookup.
  destruct (view db1 !! k) as [[o d]|] eqn:Hk.
  - run_with checkAndExpire_ok; [done|done|]. intros [b db2] [-> Hmv2].
    destruct (expired now d); apply returns_ok; (split; [done|]); by eapply moves_trans.
  - apply returns_ok. split; [done|]. unfold purge. rewrite Hk. by rewrite Hv1.
Qed.

Lemma findEntry_ok now db k :
  wf db → findEntry P now db k ⇓ λ '(r, db'),
    r = live now (view db) !! k ∧ moves db (purge now k (view db)) db'.
Proof.
  intros Hwf. unfold findEntry. eapply returns_mono; [by apply (lookup_expire_ok now db k None Some)|].
  intros [r db'] [-> Hmv]. split; [|done]. by destruct (live now (view db) !! k).
Qed.

(** The string a client reads. *)
Definition string_of (e : option (RedisObject * Z)) : option bytes :=
  match e with
  | Some (o, _) => if bool_decide (type o = STRING) then Some (asString o) else None
  | None => None
  end.

Lemma get_ok now db k :
  wf db → get P now db k ⇓ λ '(r, db'),
    r = string_of (live now (view db) !! k) ∧ moves db (purge now k (view db)) db'.
Proof.
  intros Hwf. pose proof (lookup_expire_ok now db k None (λ e, string_of (Some e)) Hwf) as Hl.
  assert (Heq : get P now db k = (db1 ← rehashStep db;
   r ← kt_find (table_ db1) k;
   match r with
   | None => mret (None, db1)
   | Some e =>
       '(gone, db2) ← checkAndExpire P now db1 k e;
       if gone : bool then mret (None, db2) else mret (string_of (Some e), db2)
   end)).
  { unfold get. destruct (rehashStep db) as [db1|]; [|done]. cbn [mbind result_bind].
    destruct (kt_find (table_ db1) k) as [[[o d]|]|]; [|done..]. cbn [mbind result_bind].
    destruct (checkAndExpire P now db1 k (o, d)) as [[[] db2]|]; [done| |done]. cbn. by case_bool_decide. }
  rewrite Heq. eapply returns_mono; [exact Hl|]. intros [r db'] [-> Hmv]. split; [|done].
  by destruct (live now (view db) !! k).
Qed.

Lemma exists_ok now db k :
  wf db → exists_ P now db k ⇓ λ '(r, db'),
    r = bool_decide (is_Some (live now (view db) !! k)) ∧ moves db (purge now k (view db)) db'.
Proof.
  intros Hwf. pose proof (lookup_expire_ok now db k false (λ _, true) Hwf) as Hl.
  assert (Heq : exists_ P now db k = (db1 ← rehashStep db;
   r ← kt_find (table_ db1) k;
   match r with
   | None => mret (false, db1)
   | Some e =>
       '(gone, db2) ← checkAndExpire P now db1 k e;
       if gone : bool then mret (false, db2) else mret (true, db2)
   end)).
  { unfold exists_. destruct (rehashStep db) as [db1|]; [|done]. cbn [mbind result_bind].
    destruct (kt_find (table_ db1) k) as [[[o d]|]|]; [|done..]. cbn [mbind result_bind].
    by destruct (checkAndExpire P now db1 k (o, d)) as [[[] db2]|]. }
  rewrite Heq. eapply returns_mono; [exact Hl|]. intros [r db'] [-> Hmv]. split; [|done].
  destruct (live now (view db) !! k); [by rewrite bool_decide_true by eauto|by rewrite bool_decide_false by by intros []].
Qed.

(** Writing an object in place of whatever the key held: the account follows. *)
Lemma account_write db k o d u :
  accounted db → u = usedMemory_ (release_entry P (view db !! k) db) →
  wrap_u64 (u + memoryUsage P o) = wrap_u64 (total P (<[k := (o, d)]> (view db))).
Proof.
  unfold accounted. intros Hacc ->. destruct (view db !! k) as [[o0 d0]|] eqn:Hk; cbn.
  - rewrite wrap_add, Hacc, (total_replace P k (o0, d0)) by done. cbn.
    rewrite <- (wrap_add (_ - _)%Z), wrap_sub, wrap_add. done.
  - rewrite Hacc, wrap_add, total_insert by done. cbn. f_equal. lia.
Qed.

Lemma set_ok db k v :
  wf db → set P db k v ⇓ moves db (<[k := (createString v, (-1)%Z)]> (view db)).
Proof.
  intros Hwf. pose proof Hwf as (Ht & Hh & Hs). unfold set. run_with di_remove_ok; [done|].
  intros h [Hh' Hd]. rewrite kt_find_ok by done. cbn [mbind result_bind]. fold (view db).
  set (db1 := release_entry P (view db !! k) (mkDatabase (table_ db) h (usedMemory_ db))).
  assert (Hdb1 : table_ db1 = table_ db ∧ ttlHeap_ db1 = h ∧
    usedMemory_ db1 = usedMemory_ (release_entry P (view db !! k) db)).
  { unfold db1. by destruct (view db !! k) as [[o0 d0]|]. }
  clearbody db1. destruct Hdb1 as (Hdt & Hdh & Hdu). rewrite Hdt.
  run_with kt_set_ok; [done|]. intros t (Ht' & d & Hm & _). rewrite kt_find_ok by done.
  rewrite Hm, lookup_insert_eq. cbn [mbind result_bind].
  run_with kt_set_expireAt_ok; [done|by rewrite Hm, lookup_insert_eq|]. intros t' [Ht'' Hm'].
  rewrite Hm, insert_insert_eq in Hm'. apply returns_ok.
  split; [split; [split; [done|split; [by cbn; rewrite Hdh|]]|done]|].
  - unfold view in *. cbn. rewrite Hm', Hdh, Hd. by apply synced_insert_none.
  - intros Hacc. unfold accounted, view in *. cbn. rewrite Hm'. by eapply account_write.
Qed.

Lemma del_ok db k :
  wf db → del P db k ⇓ λ '(b, db'),
    b = bool_decide (is_Some (view db !! k)) ∧ moves db (delete k (view db)) db'.
Proof.
  intros Hwf. pose proof Hwf as (Ht & Hh & _). unfold del. rewrite kt_find_ok by done.
  cbn [mbind result_bind]. fold (view db).
  assert (Hdb1 : table_ (release_entry P (view db !! k) db) = table_ db ∧
    ttlHeap_ (release_entry P (view db !! k) db) = ttlHeap_ db) by by destruct (view db !! k) as [[??]|].
  destruct Hdb1 as [-> ->]. run_with di_remove_ok; [done|]. intros h [Hh' Hd'].
  run_with kt_del_ok; [done|]. intros [b t] (Ht' & Hm' & ->). apply returns_ok. split; [done|].
  by apply release_delete.
Qed.

(** An object under a key without a deadline, or while no migration is under way.
    The overwritten entry keeps its deadline, unless the migration has not come to
    it yet. *)
Lemma setObject_over db k o :
  wf db → di_map (ttlHeap_ db) !! k = None ∨ kt_migrating (table_ db) = false →
  setObject P db k o ⇓ λ db', ∃ d, moves db (<[k := (o, d)]> (view db)) db' ∧
    match view db !! k with
    | None => d = (-1)%Z
    | Some (_, d0) => d = d0 ∨ kt_migrating (table_ db) = true ∧ d = (-1)%Z
    end.
Proof.
  intros Hwf Hov. pose proof Hwf as (Ht & Hh & Hs). unfold setObject. rewrite kt_find_ok by done.
  fold (view db). cbn [mbind result_bind]. set (db1 := release_entry P (view db !! k) db).
  assert (Hdb1 : table_ db1 = table_ db ∧ ttlHeap_ db1 = ttlHeap_ db) by (unfold db1; by destruct (view db !! k) as [[??]|]).
  destruct Hdb1 as [Hdt Hdh]. rewrite Hdt.
  run_with kt_set_ok; [done|]. intros t (Ht' & d & Hm & Hd). rewrite kt_find_ok by done.
  rewrite Hm, lookup_insert_eq. cbn [mbind result_bind]. fold (view db) in Hd, Hm.
  assert (Hs' : synced (<[k := (o, d)]> (view db)) (di_map (ttlHeap_ db))).
  { destruct (view db !! k) as [[o0 d0]|] eqn:Hk; [destruct Hd as [->|[Hmig ->]]; [by eapply synced_update|]|subst d].
    - rewrite <- (delete_id (di_map (ttlHeap_ db)) k); [by apply synced_insert_none|]. destruct Hov; [done|congruence].
    - rewrite <- (delete_id (di_map (ttlHeap_ db)) k); [by apply synced_insert_none|]. by eapply synced_absent. }
  apply returns_ok. exists d. split; [|done]. split; [split; [split; [done|split]|done]|].
  - cbn. by rewrite Hdh.
  - unfold view at 1. cbn. by rewrite Hdh, Hm.
  - intros Hacc. unfold accounted, view in *. cbn. rewrite Hm. by eapply account_write.
Qed.

(** An object for a key that is absent. *)
Lemma setObject_ok db k o :
  wf db → view db !! k = None →
  setObject P db k o ⇓ moves db (<[k := (o, (-1)%Z)]> (view db)).
Proof.
  intros Hwf Hk. eapply returns_mono; [apply setObject_over; [done|]|].
  - left. destruct Hwf as (_ & _ & Hs). by eapply synced_absent.
  - intros db' (d & Hmv & Hd). rewrite Hk in Hd. by subst d.
Qed.

(** An in-place write keeps the deadline. *)
Lemma updateObject_ok db k o o' d :
  wf db → view db !! k = Some (o, d) →
  updateObject db k o' ⇓ holds (<[k := (o', d)]> (view db)).
Proof.
  intros (Ht & Hh & Hs) Hk. unfold updateObject. run_with kt_set_value_ok; [done|done|].
  intros t [Ht' Hm]. apply returns_ok. split; [|done]. split; [done|]. split; [done|].
  unfold view in *. cbn. rewrite Hm. by eapply synced_update.
Qed.

Lemma total_same_object k o d d' m :
  m !! k = Some (o, d) → total P (<[k := (o, d')]> m) = total P m.
Proof. intros Hk. rewrite (total_replace P k (o, d)) by done. cbn. lia. Qed.

Lemma setExpire_ok now db k d :
  wf db → setExpire P now db k d ⇓ λ '(b, db'),
    b = bool_decide (is_Some (live now (view db) !! k)) ∧
    moves db (match live now (view db) !! k with
              | Some (o, _) => <[k := (o, d)]> (view db)
              | None => purge now k (view db)
              end) db'.
Proof.
  intros Hwf. unfold setExpire. rewrite kt_find_ok by apply Hwf. cbn [mbind result_bind]. fold (view db).
  rewrite live_lookup. destruct (view db !! k) as [[o d0]|] eqn:Hk.
  - run_with checkAndExpire_ok; [done|done|]. intros [b db1] [-> Hmv].
    unfold purge in *. rewrite Hk in *. destruct (expired now d0) eqn:He.
    + apply returns_ok. split; [by rewrite bool_decide_false by by intros []|done].
    + pose proof Hmv as [[(Ht1 & Hh1 & Hs1) Hv1] Hacc1].
      run_with kt_set_expireAt_ok; [done|by fold (view db1); rewrite Hv1|]. intros t [Ht Hm].
      run_with di_push_ok; [done|]. intros h [Hh Hd]. apply returns_ok.
      split; [by rewrite bool_decide_true by eauto|]. fold (view db1) in Hm. rewrite Hv1 in Hm.
      split; [split; [split; [done|split; [done|]]|done]|].
      * unfold view in *. cbn. rewrite Hm, Hd. rewrite <- Hv1. by apply synced_insert.
      * intros Hacc. specialize (Hacc1 Hacc). unfold accounted, view in *. cbn.
        rewrite Hm, Hacc1, Hv1. by erewrite total_same_object.
  - apply returns_ok. split; [by rewrite bool_decide_false by by intros []|]. unfold purge. rewrite Hk.
    by apply moves_refl.
Qed.

Lemma removeExpire_ok db k :
  wf db → removeExpire db k ⇓ moves db (match view db !! k with
                                         | Some (o, _) => <[k := (o, (-1)%Z)]> (view db)
                                         | None => view db
                                         end).
Proof.
  intros Hwf. pose proof Hwf as (Ht & Hh & Hs). unfold removeExpire. rewrite kt_find_ok by done.
  cbn [mbind result_bind]. fold (view db). destruct (view db !! k) as [[o d]|] eqn:Hk; [|by apply returns_ok, moves_refl].
  run_with kt_set_expireAt_ok; [done|exact Hk|]. intros t [Ht' Hm].
  run_with di_remove_ok; [done|]. intros h [Hh' Hd]. apply returns_ok.
  split; [split; [split; [done|split; [done|]]|done]|].
  - unfold view in *. cbn. rewrite Hm, Hd. by apply synced_insert_none.
  - unfold accounted, view in *. cbn. rewrite Hm. fold (view db). by erewrite total_same_object.
Qed.

(** [ttl] keeps the account only when it does not expire the key. *)
Lemma ttl_ok now now' db k :
  wf db → ttl now now' db k ⇓ λ '(r, db'),
    r = (match live now (view db) !! k with
         | Some (_, d) => if d <? 0 then -1 else d - now'
         | None => -2
         end)%Z ∧
    holds (purge now k (view db)) db' ∧
    (purge now k (view db) = view db → db' = db).
Proof.
  intros Hwf. pose proof Hwf as (Ht & Hh & Hs). unfold ttl. rewrite kt_find_ok by done.
  cbn [mbind result_bind]. fold (view db). rewrite live_lookup. unfold purge.
  destruct (view db !! k) as [[o d]|] eqn:Hk; [|by apply returns_ok].
  fold (expired now d). destruct (expired now d) eqn:He.
  - run_with di_remove_ok; [done|]. intros h [Hh' Hd]. run_with kt_del_ok; [done|].
    intros [b t] (Ht' & Hm & _). apply returns_ok. split; [done|]. split.
    + destruct (release_delete db k t h Hwf Ht' Hh' Hm Hd) as [[[Ha Hb] Hc] _]. done.
    + intros Hdel. assert (Hn : delete k (view db) !! k = None) by apply lookup_delete_eq. congruence.
  - destruct (d <? 0)%Z; by apply returns_ok.
Qed.

Lemma filter_keys_cons {A} k (ks : list bytes) (m : gmap bytes A) :
  filter (λ kx, kx.1 ∉ k :: ks) m = filter (λ kx, kx.1 ∉ ks) (delete k m).
Proof.
  apply map_eq. intros k'. apply option_eq. intros x.
  rewrite !map_lookup_filter_Some, lookup_delete_Some, not_elem_of_cons. simpl. naive_solver.
Qed.

Lemma delete_all_ok db (ks : list bytes) :
  kt_wf (table_ db) →
  delete_all P db ks ⇓ λ db', kt_wf (table_ db') ∧ ttlHeap_ db' = ttlHeap_ db ∧
    view db' = filter (λ kx, kx.1 ∉ ks) (view db) ∧ (accounted db → accounted db').
Proof.
  revert db. induction ks as [|k ks IH]; intros db Ht; cbn [delete_all].
  { apply returns_ok. split; [done|]. split; [done|]. split; [|done]. symmetry. apply map_filter_id.
    intros ? ? _. apply not_elem_of_nil. }
  rewrite kt_find_ok by done. cbn [mbind result_bind]. fold (view db).
  assert (Hdb1 : table_ (release_entry P (view db !! k) db) = table_ db ∧
    ttlHeap_ (release_entry P (view db !! k) db) = ttlHeap_ db) by by destruct (view db !! k) as [[??]|].
  destruct Hdb1 as [-> Hh]. run_with kt_del_ok; [done|]. intros [b t] (Ht' & Hm & _).
  eapply returns_mono; [by apply IH|]. intros db' (Ht2 & Hh2 & Hv2 & Hacc2).
  split; [done|]. split; [rewrite Hh2; exact Hh|]. rewrite filter_keys_cons.
  split; [rewrite Hv2; unfold view; cbn; by rewrite Hm|]. intros Hacc. apply Hacc2.
  unfold accounted, view in *. cbn. rewrite Hm. destruct (kt_map (table_ db) !! k) as [[o d]|] eqn:Hk; cbn.
  - rewrite Hacc, wrap_sub. f_equal. rewrite (total_delete P k (o, d)) by done. cbn. lia.
  - by rewrite delete_id.
Qed.

Lemma synced_filter (ks : list bytes) m h :
  synced m h → synced (filter (λ kx, kx.1 ∉ ks) m) (filter (λ kd, kd.1 ∉ ks) h).
Proof.
  intros [Ha Hb]. split.
  - intros k d [Hd Hk]%map_lookup_filter_Some. destruct (Ha k d Hd) as [o Ho]. exists o.
    by apply map_lookup_filter_Some.
  - intros k o d [Hd Hk]%map_lookup_filter_Some Hpos. apply map_lookup_filter_Some. split; [eauto|done].
Qed.

(** The active cycle removes due keys only, at most [maxWork] of them, and when
    it removes fewer nothing due is left. *)
Lemma activeExpireCycle_ok now db maxWork :
  wf db → activeExpireCycle P now db maxWork ⇓ λ db', ∃ ks : list bytes,
    moves db (filter (λ kx, kx.1 ∉ ks) (view db)) db' ∧
    length ks ≤ Z.to_nat maxWork ∧
    (∀ k, k ∈ ks → ∃ o d, view db !! k = Some (o, d) ∧ di_map (ttlHeap_ db) !! k = Some d ∧ (d ≤ now)%Z) ∧
    (length ks < Z.to_nat maxWork → ∀ k o d, view db' !! k = Some (o, d) → expired now d = false).
Proof.
  intros (Ht & Hh & Hs). unfold activeExpireCycle. run_with di_popExpired_ok; [done|].
  intros [ks h] (Hh' & Hlen & (Hnd & Hm & ds & Hds & _ & Hdue & _) & Hdone).
  eapply returns_mono; [by apply delete_all_ok|]. cbn. intros db' (Ht' & Hhd & Hv & Hacc).
  assert (Hs' : synced (view db') (di_map h)).
  { rewrite Hv, Hm. by apply (synced_filter ks). }
  exists ks. split; [split; [split; [split; [done|]|done]|done]|].
  { rewrite Hhd. cbn. done. }
  split; [done|]. split.
  - intros k [i Hi]%list_elem_of_lookup. destruct (Forall2_lookup_l _ _ _ _ _ Hds Hi) as (d & Hd & Hkd).
    destruct (proj1 Hs k d Hkd) as [o Ho]. exists o, d. split; [done|]. split; [done|].
    by eapply Forall_lookup in Hdue.
  - intros Hlt k o d Hk. unfold expired. destruct (Z.leb_spec 0 d) as [Hpos|?]; [|done].
    pose proof (proj2 Hs' k o d Hk Hpos) as Hkd. specialize (Hdone Hlt k d Hkd). simpl. lia.
Qed.

Lemma flushdb_ok db : wf db → moves db ∅ (flushdb db).
Proof.
  intros (Ht & _). destruct (kt_flushAll_ok _ Ht) as [Hf Hm]. destruct (di_empty_ok (H := H)) as [He Hd].
  split; [split; [split; [done|split; [done|]]|done]|].
  - unfold view. cbn. rewrite Hm, Hd. split; intros ?; intros; by rewrite lookup_empty in *.
  - intros _. unfold accounted, view. cbn. by rewrite Hm.
Qed.

Lemma empty_ok : wf empty ∧ view empty = ∅ ∧ accounted empty.
Proof.
  destruct kt_empty_ok as [Ht Hm], (di_empty_ok (H := H)) as [Hh Hd].
  unfold wf, accounted, view. cbn. rewrite Hm, Hd. split; [|done].
  split; [done|]. split; [done|]. split; intros ?; intros; by rewrite lookup_empty in *.
Qed.

Lemma keys_ok db :
  wf db → keys db ⇓ λ '(ks, db'), NoDup ks ∧ (∀ k, k ∈ ks ↔ is_Some (view db !! k)) ∧
    moves db (view db) db'.
Proof.
  intros Hwf. unfold keys. run_with rehashStep_ok; [done|]. intros db1 Hmv. apply returns_ok.
  pose proof Hmv as [[Hwf1 Hv1] _]. destruct (kt_keys_ok (table_ db1)) as [Hnd Hin]; [apply Hwf1|].
  split; [done|]. split; [|done]. by rewrite <- Hv1.
Qed.

Lemma dbsize_ok db : wf db → dbsize db = Z.of_nat (base.size (view db)).
Proof. intros (Ht & _). by apply kt_size_ok. Qed.

Lemma expiryCount_ok db :
  wf db → expiryCount db = base.size (filter (λ kx, (0 ≤ kx.2.2)%Z) (view db)).
Proof. intros (Ht & _). by apply kt_expiryCount_ok. Qed.

Lemma scan_filter_ok clk i db raw pattern acc :
  wf db → NoDup raw →
  scan_filter P clk i db raw pattern acc ⇓ λ '(ks, db'),
    ks = acc ++ scan_matches clk i (view db) raw pattern ∧ wf db' ∧ (accounted db → accounted db') ∧
    view db' ⊆ view db ∧ ∀ now, (∀ j, clk j ≤ now)%Z → live now (view db') = live now (view db).
Proof.
  intros Hwf Hnd. revert i db acc Hwf. induction Hnd as [|k raw Hnew _ IH]; intros i db acc Hwf; cbn [scan_filter].
  { apply returns_ok. by rewrite app_nil_r. }
  rewrite kt_find_ok by apply Hwf. cbn [mbind result_bind scan_matches]. fold (view db).
  rewrite live_lookup. destruct (view db !! k) as [[o d]|] eqn:Hk.
  - run_with checkAndExpire_ok; [done|done|]. intros [b db1] [-> [[Hwf1 Hv1] Hacc1]].
    eapply returns_mono; [by apply IH|]. intros [ks db'] (-> & Hwf' & Hacc' & Hsub & Hlive).
    split; [|split; [done|split; [auto|split]]].
    + rewrite Hv1. rewrite (scan_matches_ext clk (i + 1) (view db)).
      2:{ intros k' Hk'. apply purge_lookup_ne. by intros ->. }
      destruct (expired (clk i) d).
      * rewrite (bool_decide_false (is_Some None)) by by intros []. done.
      * rewrite (bool_decide_true (is_Some _)) by eauto. cbn [negb andb].
        by destruct (_ || _); rewrite <- ?app_assoc.
    + rewrite Hsub, Hv1. apply purge_subseteq.
    + intros now Hnow. rewrite Hlive, Hv1 by done. by apply live_purge_later.
  - rewrite (bool_decide_false (is_Some None)) by by intros []. cbn [andb app]. by apply IH.
Qed.

Lemma scan_ok clk db cursor count pattern :
  wf db →
  scan P clk db cursor count pattern ⇓ λ '(next, ks, db'), ∃ t raw,
    kt_rehashStep (table_ db) = Ok t ∧ kt_scan t cursor count = Ok (next, raw) ∧
    HashTable.page (view db) cursor count next raw ∧ ks = scan_matches clk 0 (view db) raw pattern ∧
    wf db' ∧ (accounted db → accounted db') ∧ view db' ⊆ view db ∧
    ∀ now, (∀ j, clk j ≤ now)%Z → live now (view db') = live now (view db).
Proof.
  intros Hwf. unfold scan. pose proof (rehashStep_ok db Hwf) as Hre.
  apply returns_iff in Hre as (db1 & Hre & [Hwf1 Hv1] & Hacc1). rewrite Hre. cbn [mbind result_bind].
  assert (Ht : kt_rehashStep (table_ db) = Ok (table_ db1)).
  { unfold rehashStep in Hre. apply bind_Ok_inv in Hre as (t & -> & [= <-]). done. }
  pose proof (kt_scan_ok (table_ db1) cursor count (proj1 Hwf1)) as Hsc.
  apply returns_iff in Hsc as ([next raw] & Hsc & Hraw). rewrite Hsc. cbn [mbind result_bind].
  run_with scan_filter_ok; [done|apply Hraw|].
  intros [ks db2] (-> & Hwf2 & Hacc2 & Hsub & Hl). apply returns_ok. exists (table_ db1), raw. rewrite Hv1 in *.
  split; [done|]. split; [done|]. split; [by rewrite <- Hv1|]. split; [done|]. auto.
Qed.

End laws.

(** ** The server's database *)

Abbreviation DB := (Database (HashTable.HashTable RedisObject) TTLHeap.TTLHeap).

(** [Upsert] is what the commands on containers do: look the key up, create the
    object with [setObject] when there is none, write it in place otherwise.
    [SetObject] is [setObject] on any key, stored or not. *)
Inductive op :=
| Get (k : bytes)
| SetString (k v : bytes)
| Del (k : bytes)
| Exists (k : bytes)
| Keys
| Scan (cursor count : nat) (pattern : bytes)
| SetExpire (k : bytes) (d : Z)
| RemoveExpire (k : bytes)
| Ttl (k : bytes)
| ActiveExpire (maxWork : Z)
| Upsert (k : bytes) (o0 : RedisObject) (f : RedisObject → RedisObject)
| SetObject (k : bytes) (ob : RedisObject)
| Rehash
| Flush.

Section properties.
Context (P : Platform).
Implicit Types (db : DB).

Definition run_op (now : Z) db (o : op) : result DB :=
  match o with
  | Get k => '(_, db') ← get P now db k; mret db'
  | SetString k v => set P db k v
  | Del k => '(_, db') ← del P db k; mret db'
  | Exists k => '(_, db') ← exists_ P now db k; mret db'
  | Keys => '(_, db') ← keys db; mret db'
  | Scan c n p => '(_, _, db') ← scan P (λ _, now) db c n p; mret db'
  | SetExpire k d => '(_, db') ← setExpire P now db k d; mret db'
  | RemoveExpire k => removeExpire db k
  | Ttl k => '(_, db') ← ttl now now db k; mret db'
  | ActiveExpire w => activeExpireCycle P now db w
  | Upsert k o0 f =>
      '(r, db') ← findEntry P now db k;
      match r with
      | None => setObject P db' k o0
      | Some (o, _) => updateObject db' k (f o)
      end
  | SetObject k ob => setObject P db k ob
  | Rehash => rehashStep db
  | Flush => mret (flushdb db)
  end.

Fixpoint run_ops db (os : list (Z * op)) : result DB :=
  match os with
  | [] => mret db
  | (now, o) :: os' => db' ← run_op now db o; run_ops db' os'
  end.

(** Operations after which the account is exact again: all but a lazy expiry by
    [ttl] and an in-place write. *)
Definition keeps_account (o : op) : bool :=
  match o with Ttl _ | Upsert _ _ _ => false | _ => true end.

(** [setObject] may overwrite a key that has a deadline only while the table is not
    being migrated: see [overwrite_drops_deadline]. *)
Definition overwrite_ok db (o : op) : bool :=
  match o with
  | SetObject k _ =>
      bool_decide (TTLHeap.deadlines (ttlHeap_ db) !! k = None) || negb (HashTable.isRehashing_ (table_ db))
  | _ => true
  end.

Fixpoint disciplined db (os : list (Z * op)) : bool :=
  match os with
  | [] => true
  | (now, o) :: os' =>
      overwrite_ok db o && match run_op now db o with Ok db' => disciplined db' os' | Fault _ => true end
  end.

(** The operations that the commands are made of are always disciplined. *)
Lemma no_overwrite db os : Forall (λ to, ∀ k ob, to.2 ≠ SetObject k ob) os → disciplined db os = true.
Proof.
  intros Hos. revert db. induction Hos as [|[now o] os Ho _ IH]; intros db; cbn [disciplined]; [done|].
  apply andb_true_intro. split; [|destruct (run_op now db o); auto]. destruct o; try done. by destruct (Ho k ob).
Qed.

Lemma db_run_op_ok now db o :
  wf db → overwrite_ok db o = true → run_op now db o ⇓ λ db', wf db' ∧ (keeps_account o = true → accounted P db → accounted P db').
Proof.
  intros Hwf Hov. destruct o; cbn [run_op keeps_account].
  - run_with get_ok; [done|]. intros [r db'] [_ [[Hw _] Ha]]. by apply returns_ok.
  - eapply returns_mono; [by apply set_ok|]. intros db' [[Hw _] Ha]. done.
  - run_with del_ok; [done|]. intros [r db'] [_ [[Hw _] Ha]]. by apply returns_ok.
  - run_with exists_ok; [done|]. intros [r db'] [_ [[Hw _] Ha]]. by apply returns_ok.
  - run_with (keys_ok P); [done|]. intros [r db'] (_ & _ & [[Hw _] Ha]). by apply returns_ok.
  - run_with scan_ok; [done|]. intros [[n ks] db'] (t & raw & _ & _ & _ & _ & Hw & Ha & _).
    by apply returns_ok.
  - run_with setExpire_ok; [done|]. intros [r db'] [_ [[Hw _] Ha]]. by apply returns_ok.
  - eapply returns_mono; [by apply (removeExpire_ok P)|]. intros db' [[Hw _] Ha]. done.
  - run_with (ttl_ok P); [done|]. intros [r db'] (_ & [Hw _] & _). by apply returns_ok.
  - eapply returns_mono; [by apply activeExpireCycle_ok|]. intros db' (ks & [[Hw _] Ha] & _). done.
  - run_with findEntry_ok; [done|]. intros [r db'] [-> [[Hw Hv] _]].
    destruct (live now (view db) !! k) as [[ob d]|] eqn:Hk; rewrite <- purge_lookup, <- Hv in Hk.
    + eapply returns_mono; [by eapply updateObject_ok|]. intros db2 [Hw2 _]. done.
    + eapply returns_mono; [by eapply setObject_ok|]. intros db2 [[Hw2 _] _]. done.
  - eapply returns_mono; [apply setObject_over; [done|]|].
    { cbn [overwrite_ok] in Hov. apply orb_true_iff in Hov as [Hov%bool_decide_eq_true|Hov%negb_true_iff]; [by left|by right]. }
    intros db' (d & [[Hw _] Ha] & _). done.
  - eapply returns_mono; [by apply (rehashStep_ok P)|]. intros db' [[Hw _] Ha]. done.
  - apply returns_ok. destruct (flushdb_ok P db Hwf) as [[Hw _] Ha]. done.
Qed.

Lemma db_run_ops_ok os db :
  wf db → disciplined db os = true → run_ops db os ⇓ λ db', wf db' ∧
    (forallb (λ to, keeps_account to.2) os = true → accounted P db → accounted P db').
Proof.
  revert db. induction os as [|[now o] os IH]; intros db Hwf Hd; cbn [run_ops forallb]; [done|].
  apply andb_prop in Hd as [Ho Hd]. pose proof (db_run_op_ok now db o Hwf Ho) as Hr.
  destruct (run_op now db o) as [db1|]; [|done]. destruct Hr as [Hwf1 Ha1]. cbn [mbind result_bind].
  eapply returns_mono; [by apply IH|].
  intros db2 [Hwf2 Ha2]. split; [done|]. rewrite andb_true_iff. cbn. naive_solver.
Qed.

(** C11: the two halves of the expiry data never disagree.  After any sequence of
    database operations at any times, in which [setObject] does not overwrite a key
    with a deadline while the table is being migrated, the deadline heap and the
    table are well formed, every key of the heap is stored with exactly that
    deadline, and every stored key with a deadline is in the heap. *)
Theorem expiry_index_in_sync (os : list (Z * op)) :
  disciplined empty os = true →
  run_ops empty os ⇓ λ db, HashTable.wf (table_ db) ∧ TTLHeap.wf (ttlHeap_ db) ∧
    synced (HashTable.to_map (table_ db)) (TTLHeap.deadlines (ttlHeap_ db)).
Proof.
  intros Hd. eapply returns_mono; [apply db_run_ops_ok; [apply (proj1 (empty_ok P))|done]|]. by intros db [Hwf _].
Qed.

(** C36: [usedMemory_] is the sum of the estimates of the stored objects, modulo
    [2^64], after any sequence of operations without in-place writes and [ttl]:
    [setObject] charges the new object, of any type, and gives back the old one
    (under the condition of C11). *)
Theorem memory_accounted (os : list (Z * op)) :
  disciplined empty os = true → forallb (λ to, keeps_account to.2) os = true →
  run_ops empty os ⇓ λ db, usedMemory_ db = wrap_u64 (total P (HashTable.to_map (table_ db))).
Proof.
  intros Hd Hos. destruct (empty_ok P (T := HashTable.HashTable RedisObject) (H := TTLHeap.TTLHeap)) as (Hw & _ & Ha).
  eapply returns_mono; [by apply db_run_ops_ok|]. intros db [_ Hacc]. by apply Hacc.
Qed.

(** C27: lazy expiry is invisible.  What [get], [exists], [findEntry] and [ttl]
    answer at time [now] depends only on the entries whose deadline has not
    passed, and those are untouched: at [now] and later a client sees the same
    keyspace as before the call. *)
Theorem lazy_expiry_invisible (now now' : Z) (db : DB) (k : bytes) :
  wf db →
  (get P now db k ⇓ λ '(r, db'), r = string_of (live now (view db) !! k) ∧ wf db' ∧
     ∀ t, (now ≤ t)%Z → live t (view db') = live t (view db)) ∧
  (exists_ P now db k ⇓ λ '(r, db'), r = bool_decide (is_Some (live now (view db) !! k)) ∧ wf db' ∧
     ∀ t, (now ≤ t)%Z → live t (view db') = live t (view db)) ∧
  (findEntry P now db k ⇓ λ '(r, db'), r = live now (view db) !! k ∧ wf db' ∧
     ∀ t, (now ≤ t)%Z → live t (view db') = live t (view db)) ∧
  (ttl now now' db k ⇓ λ '(r, db'),
     r = (match live now (view db) !! k with
          | Some (_, d) => if d <? 0 then -1 else d - now'
          | None => -2
          end)%Z ∧ wf db' ∧
     ∀ t, (now ≤ t)%Z → live t (view db') = live t (view db)).
Proof.
  intros Hwf. split; [|split; [|split]].
  - eapply returns_mono; [by apply get_ok|]. intros [r db'] [-> [[Hw ->] _]].
    split; [done|]. split; [done|]. intros t. apply live_purge_later.
  - eapply returns_mono; [by apply exists_ok|]. intros [r db'] [-> [[Hw ->] _]].
    split; [done|]. split; [done|]. intros t. apply live_purge_later.
  - eapply returns_mono; [by apply findEntry_ok|]. intros [r db'] [-> [[Hw ->] _]].
    split; [done|]. split; [done|]. intros t. apply live_purge_later.
  - eapply returns_mono; [by apply (ttl_ok P)|]. intros [r db'] (-> & [Hw ->] & _).
    split; [done|]. split; [done|]. intros t. apply live_purge_later.
Qed.

(** C33: the active cycle removes only entries whose deadline has passed, at most
    [maxWork] of them; when it removes fewer, no expired entry is left; and with
    no deadline before the epoch a client cannot tell that it ran. *)
Theorem active_expiry (now : Z) (db : DB) (maxWork : Z) :
  wf db →
  activeExpireCycle P now db maxWork ⇓ λ db', wf db' ∧ ∃ ks : list bytes,
    view db' = filter (λ kx, kx.1 ∉ ks) (view db) ∧ length ks ≤ Z.to_nat maxWork ∧
    (∀ k, k ∈ ks → ∃ o d, view db !! k = Some (o, d) ∧ (d ≤ now)%Z) ∧
    (length ks < Z.to_nat maxWork → view db' = live now (view db')) ∧
    ((∀ k d, TTLHeap.deadlines (ttlHeap_ db) !! k = Some d → (0 ≤ d)%Z) →
     live now (view db') = live now (view db)).
Proof.
  intros Hwf. eapply returns_mono; [by apply activeExpireCycle_ok|].
  intros db' (ks & [[Hw Hv] _] & Hlen & Hdue & Hdone). split; [done|]. exists ks.
  split; [done|]. split; [done|]. split; [naive_solver|]. split.
  - intros Hlt. symmetry. apply map_filter_id. intros k [o d] Hk. by apply (Hdone Hlt k o d).
  - intros Hpos. rewrite Hv. apply map_eq. intros k. rewrite !live_lookup.
    destruct (decide (k ∈ ks)) as [Hin|Hnin].
    + destruct (Hdue k Hin) as (o & d & Hk & Hd & Hle). rewrite Hk. specialize (Hpos k d Hd).
      replace (filter _ (view db) !! k) with (@None (RedisObject * Z)).
      * unfold expired. replace (0 <=? d)%Z with true by lia. by replace (d <=? now)%Z with true by lia.
      * symmetry. apply map_lookup_filter_None. right. intros x _. simpl. tauto.
    + destruct (view db !! k) as [x|] eqn:Hk.
      * by rewrite (proj2 (map_lookup_filter_Some _ _ k x)) by done.
      * by rewrite (proj2 (map_lookup_filter_None _ _ k)) by by left.
Qed.

(** SET then GET.  After [set k v] the key has no deadline, so that at every
    later time [get] returns [v] (in the canonical form when [v] is an integer)
    and [ttl] answers -1; no other key changes. *)
Theorem set_get (db : DB) (k v : bytes) (now now' : Z) :
  wf db →
  set P db k v ⇓ λ db', wf db' ∧ (∀ k', k' ≠ k → view db' !! k' = view db !! k') ∧
    (get P now db' k ⇓ λ '(r, _), r = Some (asString (createString v))) ∧
    (ttl now now' db' k ⇓ λ '(r, _), r = (-1)%Z).
Proof.
  intros Hwf. eapply returns_mono; [by apply set_ok|]. intros db' [[Hw Hv] _]. split; [done|].
  split; [intros k' Hk'; by rewrite Hv, lookup_insert_ne|].
  assert (Hl : live now (view db') !! k = Some (createString v, (-1)%Z)).
  { rewrite live_lookup, Hv, lookup_insert_eq. done. }
  split.
  - eapply returns_mono; [by apply get_ok|]. intros [r db2] [-> _]. rewrite Hl. simpl.
    by rewrite bool_decide_true by apply createString_type.
  - eapply returns_mono; [by apply (ttl_ok P)|]. intros [r db2] [-> _]. by rewrite Hl.
Qed.

(** C34: the life of a deadline.  [setExpire] on a visible key keeps its value
    until the deadline, [ttl] counts down to it, from the deadline on the key is
    gone, and a key that is not visible gets no deadline. *)
Theorem expire_lifecycle (db : DB) (k : bytes) (o : RedisObject) (d0 now d t : Z) :
  wf db → live now (view db) !! k = Some (o, d0) → (0 ≤ d)%Z →
  setExpire P now db k d ⇓ λ '(b, db'), b = true ∧ wf db' ∧
    (∀ k', k' ≠ k → view db' !! k' = view db !! k') ∧
    (findEntry P t db' k ⇓ λ '(r, _), r = if (t <? d)%Z then Some (o, d) else None) ∧
    (ttl t t db' k ⇓ λ '(r, _), r = if (t <? d)%Z then (d - t)%Z else (-2)%Z).
Proof.
  intros Hwf Hk Hd. eapply returns_mono; [by apply setExpire_ok|]. rewrite Hk.
  intros [b db'] [-> [[Hw Hv] _]]. split; [by rewrite bool_decide_true by eauto|]. split; [done|].
  split; [intros k' Hk'; by rewrite Hv, lookup_insert_ne|].
  assert (Hl : live t (view db') !! k = if (t <? d)%Z then Some (o, d) else None).
  { rewrite live_lookup, Hv, lookup_insert_eq. unfold expired. replace (0 <=? d)%Z with true by lia.
    destruct (Z.ltb_spec t d); [by replace (d <=? t)%Z with false by lia|by replace (d <=? t)%Z with true by lia]. }
  split.
  - eapply returns_mono; [by apply findEntry_ok|]. by intros [r db2] [-> _].
  - eapply returns_mono; [by apply (ttl_ok P)|]. intros [r db2] [-> _]. rewrite Hl.
    destruct (t <? d)%Z; [|done]. by replace (d <? 0)%Z with false by lia.
Qed.

(** One call of [scan] advances the migration, takes one cursor step of the
    table, and returns its cursor and, of the keys [raw] of that step, exactly
    those alive at the moment they are checked that match the pattern; a client
    of any later time sees the same keyspace. *)
Theorem scan_reports_live_keys (clk : nat → Z) (db : DB) (cursor count : nat) (pattern : bytes) :
  wf db →
  scan P clk db cursor count pattern ⇓ λ '(next, ks, db'), ∃ t raw,
    HashTable.rehashStep HashTable.kRehashBatchSize (table_ db) = Ok t ∧
    HashTable.scan t cursor count = Ok (next, raw) ∧
    ks = scan_matches clk 0 (view db) raw pattern ∧
    wf db' ∧ ∀ now, (∀ j, clk j ≤ now)%Z → live now (view db') = live now (view db).
Proof.
  intros Hwf. eapply returns_mono; [by apply scan_ok|].
  intros [[n ks] db'] (t & raw & Ht & Hs & _ & Hks & Hw & _ & _ & Hl). by exists t, raw.
Qed.

End properties.

(** ** Witnesses *)

(** The sizes of a common 64-bit platform. *)
Definition linux64 : Platform :=
  mkPlatform 120 32 (λ s, Z.max 15 (Z.of_nat (length s))) (λ n, Z.max 1 (Z.of_nat n)).

Definition demo_ops : list (Z * op) :=
  [(10, SetString (lit "a") (lit "1")); (11, SetString (lit "b") (lit "two"));
   (12, SetExpire (lit "a") 50)]%Z.

Definition demo : DB := match run_ops linux64 empty demo_ops with Ok db => db | Fault _ => empty end.

Lemma demo_wf : wf demo.
Proof.
  unfold demo. pose proof (db_run_ops_ok linux64 demo_ops _ (proj1 (empty_ok linux64)) eq_refl) as Hr.
  destruct (run_ops linux64 empty demo_ops) as [db|]; [apply Hr|done].
Qed.

(** Objects of other types: a new list, a hash over a string, a set over a key with
    a deadline, and the deadline passing. *)
Definition object_ops : list (Z * op) :=
  demo_ops ++
  [(13, SetObject (lit "l") (mkObject LIST LINKEDLIST (DDeque [lit "x"; lit "y"])));
   (14, SetObject (lit "b") (mkObject HASH HASHTABLE (DMap {[lit "f" := lit "v"]})));
   (15, SetObject (lit "a") (mkObject SET HASHTABLE (DSet {[lit "m"]}))); (60, ActiveExpire 200)]%Z.

Lemma expiry_index_in_sync_witness :
  run_ops linux64 empty object_ops ⇓ λ db, HashTable.wf (table_ db) ∧ TTLHeap.wf (ttlHeap_ db) ∧
    synced (HashTable.to_map (table_ db)) (TTLHeap.deadlines (ttlHeap_ db)).
Proof. apply (expiry_index_in_sync linux64 object_ops). vm_compute. reflexivity. Defined.

Lemma memory_accounted_witness :
  run_ops linux64 empty object_ops ⇓ λ db,
    usedMemory_ db = wrap_u64 (total linux64 (HashTable.to_map (table_ db))).
Proof. apply (memory_accounted linux64 object_ops); vm_compute; reflexivity. Defined.

(** The one case left out: [setObject] on a key with a deadline in the middle of a
    migration.  512 keys, a deadline on the first, one more key, which starts the
    migration, and the overwrite. *)
Definition overwrite_ops : list (Z * op) :=
  ((λ i, (0%Z, SetString (to_string (Z.of_nat i)) [])) <$> seq 0 513) ++ [(0, SetObject (lit "0") createList)]%Z.

(** The table forgets the deadline, which the contract of [setObject] says is kept,
    and the heap still has it: when the time comes, the timer deletes a key that
    answers -1 to TTL. *)
Theorem overwrite_drops_deadline :
  run_ops linux64 empty (take 512 overwrite_ops ++ (0, SetExpire (lit "0") 1000)%Z :: drop 512 overwrite_ops) ⇓ λ db,
    TTLHeap.deadlines (ttlHeap_ db) !! lit "0" = Some 1000%Z ∧ view db !! lit "0" = Some (createList, (-1)%Z) ∧
    activeExpireCycle linux64 1000 db 200 ⇓ λ db', view db' !! lit "0" = None.
Proof. vm_compute. split; [reflexivity|]. split; reflexivity. Qed.

Lemma lazy_expiry_invisible_witness :
  get linux64 60 demo (lit "a") ⇓ λ '(r, db'),
    r = string_of (live 60 (view demo) !! lit "a") ∧ wf db' ∧
    ∀ t, (60 ≤ t)%Z → live t (view db') = live t (view demo).
Proof. exact (proj1 (lazy_expiry_invisible linux64 60 60 demo (lit "a") demo_wf)). Defined.

Lemma active_expiry_witness :
  activeExpireCycle linux64 60 demo 200 ⇓ λ db', wf db' ∧ ∃ ks : list bytes,
    view db' = filter (λ kx, kx.1 ∉ ks) (view demo) ∧ length ks ≤ Z.to_nat 200 ∧
    (∀ k, k ∈ ks → ∃ o d, view demo !! k = Some (o, d) ∧ (d ≤ 60)%Z) ∧
    (length ks < Z.to_nat 200 → view db' = live 60 (view db')) ∧
    ((∀ k d, TTLHeap.deadlines (ttlHeap_ demo) !! k = Some d → (0 ≤ d)%Z) →
     live 60 (view db') = live 60 (view demo)).
Proof. exact (active_expiry linux64 60 demo 200 demo_wf). Defined.

Lemma set_get_witness :
  set linux64 demo (lit "a") (lit "x") ⇓ λ db', wf db' ∧
    (∀ k', k' ≠ lit "a" → view db' !! k' = view demo !! k') ∧
    (get linux64 99 db' (lit "a") ⇓ λ '(r, _), r = Some (asString (createString (lit "x")))) ∧
    (ttl 99 99 db' (lit "a") ⇓ λ '(r, _), r = (-1)%Z).
Proof. exact (set_get linux64 demo (lit "a") (lit "x") 99 99 demo_wf). Defined.

Lemma expire_lifecycle_witness :
  setExpire linux64 20 demo (lit "a") 70 ⇓ λ '(b, db'), b = true ∧ wf db' ∧
    (∀ k', k' ≠ lit "a" → view db' !! k' = view demo !! k') ∧
    (findEntry linux64 65 db' (lit "a") ⇓ λ '(r, _),
       r = if (65 <? 70)%Z then Some (createString (lit "1"), 70%Z) else None) ∧
    (ttl 65 65 db' (lit "a") ⇓ λ '(r, _), r = if (65 <? 70)%Z then (70 - 65)%Z else (-2)%Z).
Proof.
  apply (expire_lifecycle linux64 demo (lit "a") (createString (lit "1")) 50 20 70 65 demo_wf);
    [vm_compute; reflexivity|lia].
Defined.

Lemma scan_reports_live_keys_witness :
  scan linux64 (λ _, 60%Z) demo 0 10 (lit "*") ⇓ λ '(next, ks, db'), ∃ t raw,
    HashTable.rehashStep HashTable.kRehashBatchSize (table_ demo) = Ok t ∧
    HashTable.scan t 0 10 = Ok (next, raw) ∧
    ks = scan_matches (λ _, 60%Z) 0 (view demo) raw (lit "*") ∧
    wf db' ∧ ∀ now, (nat → 60 ≤ now)%Z → live now (view db') = live now (view demo).
Proof. exact (scan_reports_live_keys linux64 (λ _, 60%Z) demo 0 10 (lit "*") demo_wf). Defined.

End Database.
