(* ===== verification/NetConnection.v ===== *)
(** * [net/Connection]: one client

    Class [Connection] (src/net/Connection.h, Connection.cpp): a descriptor, the
    two buffers, the interest flags, the transaction queue and the subscribed
    channels.  [read(2)] and [write(2)] are parameters: functions from what the
    call is given to its outcome, with the kernel's contract (no more bytes than
    asked for) as a hypothesis of the theorems that need it. *)
From Stdlib Require Import Ascii String ZArith Lia ZifyNat ZifyBool.
From stdpp Require Import base option list strings gmap.
From S2P Require Import Prelude CStdlib CPosix NetBuffer.

Module Connection.
Import Buffer.

(** The commands queued by MULTI, each a full argument vector. *)
Record TransactionState := mkTxn { queuedCommands : list (list bytes) }.

Record Connection := mkConnection {
  fd_ : Z;
  in_ : Buffer;
  out_ : Buffer;
  wantRead_ : bool;
  wantWrite_ : bool;
  wantClose_ : bool;
  lastActivity_ : Z;
  txn : option TransactionState;
  subscribedChannels : gset bytes
}.

Definition kReadBufSize : nat := 4096.

Definition create (fd now : Z) : Connection :=
  mkConnection fd Buffer.empty Buffer.empty true false false now None ∅.

(** The destructor closes the descriptor. *)
Definition destroy (c : Connection) (fds : Fds) : result Fds :=
  if (0 <=? fd_ c)%Z then closeFd (fd_ c) fds else mret fds.

(** *** Field updates *)
Definition set_in (b : Buffer) (c : Connection) : Connection :=
  mkConnection (fd_ c) b (out_ c) (wantRead_ c) (wantWrite_ c) (wantClose_ c) (lastActivity_ c) (txn c)
    (subscribedChannels c).
Definition set_out (b : Buffer) (c : Connection) : Connection :=
  mkConnection (fd_ c) (in_ c) b (wantRead_ c) (wantWrite_ c) (wantClose_ c) (lastActivity_ c) (txn c)
    (subscribedChannels c).
Definition set_txn (t : option TransactionState) (c : Connection) : Connection :=
  mkConnection (fd_ c) (in_ c) (out_ c) (wantRead_ c) (wantWrite_ c) (wantClose_ c) (lastActivity_ c) t
    (subscribedChannels c).
Definition set_channels (s : gset bytes) (c : Connection) : Connection :=
  mkConnection (fd_ c) (in_ c) (out_ c) (wantRead_ c) (wantWrite_ c) (wantClose_ c) (lastActivity_ c) (txn c) s.
Definition setWantRead (v : bool) (c : Connection) : Connection :=
  mkConnection (fd_ c) (in_ c) (out_ c) v (wantWrite_ c) (wantClose_ c) (lastActivity_ c) (txn c)
    (subscribedChannels c).
Definition setWantWrite (v : bool) (c : Connection) : Connection :=
  mkConnection (fd_ c) (in_ c) (out_ c) (wantRead_ c) v (wantClose_ c) (lastActivity_ c) (txn c)
    (subscribedChannels c).
Definition setWantClose (v : bool) (c : Connection) : Connection :=
  mkConnection (fd_ c) (in_ c) (out_ c) (wantRead_ c) (wantWrite_ c) v (lastActivity_ c) (txn c)
    (subscribedChannels c).
Definition updateActivity (now : Z) (c : Connection) : Connection :=
  mkConnection (fd_ c) (in_ c) (out_ c) (wantRead_ c) (wantWrite_ c) (wantClose_ c) now (txn c)
    (subscribedChannels c).

Definition inSubscribeMode (c : Connection) : bool := negb (bool_decide (subscribedChannels c = ∅)).

(** *** System calls *)

(** [read]: bytes stored ([n > 0]), end of file ([n == 0]), nothing available
    ([EAGAIN]), or an error. *)
Inductive read_outcome :=
| ReadData (s : bytes)
| ReadEof
| ReadAgain
| ReadError.

#[export] Instance read_outcome_eq_dec : EqDecision read_outcome.
Proof. solve_decision. Defined.

(** [write]: [n] bytes taken (possibly 0), no room ([EAGAIN]), or an error. *)
Inductive write_outcome :=
| Wrote (n : nat)
| WriteAgain
| WriteError.

Definition handleRead (now : Z) (kernel : nat → read_outcome) (c : Connection) : result (bool * Connection) :=
  b ← ensureWritableBytes (in_ c) kReadBufSize;
  match kernel (writableBytes b) with
  | ReadData s =>
      b' ← fill b s;
      mret (true, updateActivity now (set_in b' c))
  | ReadEof => mret (false, set_in b c)
  | ReadAgain => mret (true, set_in b c)
  | ReadError => mret (false, set_in b c)
  end.

Definition handleWrite (now : Z) (kernel : bytes → write_outcome) (c : Connection)
    : result (bool * Connection) :=
  if bool_decide (readableBytes (out_ c) = 0) then mret (true, c)
  else
    match kernel (readable (out_ c)) with
    | Wrote n =>
        if bool_decide (n = 0) then mret (true, c)
        else
          b ← consume (out_ c) n;
          mret (true, updateActivity now (set_out b c))
    | WriteAgain => mret (true, c)
    | WriteError => mret (false, c)
    end.

(** ** Properties *)

(** What [read] delivered to the input buffer, and [write] took from the output. *)
Definition delivered (r : read_outcome) : bytes := match r with ReadData s => s | _ => [] end.
Definition taken (r : write_outcome) : nat := match r with Wrote n => n | _ => 0 end.

Lemma handleRead_ok now kernel c s :
  represents (in_ c) s → (∀ n t, kernel n = ReadData t → length t ≤ n) →
  handleRead now kernel c ⇓ λ '(alive, c'), ∃ n, kReadBufSize ≤ n ∧
    alive = bool_decide (kernel n ≠ ReadEof ∧ kernel n ≠ ReadError) ∧
    represents (in_ c') (s ++ delivered (kernel n)) ∧
    out_ c' = out_ c ∧ txn c' = txn c ∧ subscribedChannels c' = subscribedChannels c ∧ fd_ c' = fd_ c.
Proof.
  intros Hin Hk. unfold handleRead. run_with ensureWritableBytes_ok; [done|]. intros b [Hb Hl].
  destruct (kernel (writableBytes b)) as [t| | |] eqn:Hr.
  - run_with fill_ok; [done|by apply Hk|]. intros b' Hb'. apply returns_ok. exists (writableBytes b).
    rewrite Hr. split; [done|]. split; [|done]. by rewrite bool_decide_true.
  - apply returns_ok. exists (writableBytes b). rewrite Hr. cbn [delivered]. rewrite app_nil_r.
    split; [done|]. split; [|done]. rewrite bool_decide_false; [done|]. tauto.
  - apply returns_ok. exists (writableBytes b). rewrite Hr. cbn [delivered]. rewrite app_nil_r.
    split; [done|]. split; [|done]. by rewrite bool_decide_true.
  - apply returns_ok. exists (writableBytes b). rewrite Hr. cbn [delivered]. rewrite app_nil_r.
    split; [done|]. split; [|done]. rewrite bool_decide_false; [done|]. tauto.
Qed.

(** [kernel] takes no more than it is offered. *)
Definition write_contract (kernel : bytes → write_outcome) : Prop := ∀ s, taken (kernel s) ≤ length s.

Lemma handleWrite_ok now kernel c s :
  represents (out_ c) s → write_contract kernel →
  handleWrite now kernel c ⇓ λ '(alive, c'),
    represents (out_ c') (drop (if bool_decide (s = []) then 0 else taken (kernel s)) s) ∧
    (alive = false → s ≠ [] ∧ kernel s = WriteError ∧ c' = c) ∧
    in_ c' = in_ c ∧ txn c' = txn c ∧ subscribedChannels c' = subscribedChannels c ∧ fd_ c' = fd_ c.
Proof.
  intros Hout Hk. pose proof (readableBytes_length _ _ Hout) as Hlen. pose proof Hout as [_ Hs].
  unfold handleWrite. rewrite Hlen, Hs. destruct s as [|x s].
  { rewrite !bool_decide_true by done. by apply returns_ok. }
  rewrite bool_decide_false by done. rewrite (bool_decide_false (x :: s = [])) by done.
  specialize (Hk (x :: s)). destruct (kernel (x :: s)) as [n| |] eqn:Hn; cbn [taken] in *.
  - case_bool_decide as H0; [subst n; by apply returns_ok|].
    run_with consume_ok; [done|done|]. intros b Hb. by apply returns_ok.
  - by apply returns_ok.
  - by apply returns_ok.
Qed.

(** The output side as a sequence of steps: a command appends a reply, or the
    loop writes to the socket, with some outcome of [write]. *)
Inductive out_event :=
| Reply (s : bytes)
| Flush (kernel : bytes → write_outcome).

(** The bytes the client has received so far, and the connection. *)
Definition out_step (now : Z) (st : bytes * Connection) (e : out_event) : result (bytes * Connection) :=
  let '(sent, c) := st in
  match e with
  | Reply s => b ← append (out_ c) s; mret (sent, set_out b c)
  | Flush kernel =>
      '(_, c') ← handleWrite now kernel c;
      let n := if bool_decide (readableBytes (out_ c) = 0) then 0 else taken (kernel (readable (out_ c))) in
      mret (sent ++ take n (readable (out_ c)), c')
  end.

Fixpoint out_steps (now : Z) (st : bytes * Connection) (es : list out_event) : result (bytes * Connection) :=
  match es with
  | [] => mret st
  | e :: es' => st' ← out_step now st e; out_steps now st' es'
  end.

Definition replies (es : list out_event) : bytes :=
  mjoin ((λ e, match e with Reply s => s | Flush _ => [] end) <$> es).

Definition event_ok (e : out_event) : Prop :=
  match e with Reply _ => True | Flush kernel => write_contract kernel end.

Lemma out_steps_ok now es sent c p :
  Forall event_ok es → represents (out_ c) p →
  out_steps now (sent, c) es ⇓ λ '(sent', c'), ∃ p', represents (out_ c') p' ∧
    sent' ++ p' = sent ++ p ++ replies es.
Proof.
  intros Hes. revert sent c p. induction Hes as [|e es He _ IH]; intros sent c p Hp; cbn [out_steps].
  { apply returns_ok. exists p. unfold replies. simpl. by rewrite app_nil_r. }
  destruct e as [s|kernel]; cbn [out_step].
  - unfold replies. cbn [fmap list_fmap mjoin list_join]. fold (replies es).
    assert (Hstep : (b ← append (out_ c) s; mret (sent, set_out b c)) ⇓
      λ '(sent', c'), sent' = sent ∧ represents (out_ c') (p ++ s)).
    { run_with append_ok; [done|]. intros b Hb. by apply returns_ok. }
    eapply returns_bind; [exact Hstep|]. intros [sent' c'] [-> Hc'].
    eapply returns_mono; [by apply IH|]. intros [sent2 c2] (p' & Hp' & Heq). exists p'. split; [done|].
    rewrite Heq. by rewrite <- !app_assoc.
  - pose proof (readableBytes_length _ _ Hp) as Hlen. pose proof Hp as [_ Hs].
    assert (Hstep : ('(_, c') ← handleWrite now kernel c;
      let n := if bool_decide (readableBytes (out_ c) = 0) then 0 else taken (kernel (readable (out_ c))) in
      mret (sent ++ take n (readable (out_ c)), c')) ⇓
      λ '(sent', c'), ∃ q, represents (out_ c') q ∧ sent' ++ q = sent ++ p).
    { run_with handleWrite_ok; [done|done|]. intros [alive c'] (Hout & _). apply returns_ok.
      eexists. split; [exact Hout|]. rewrite Hlen, Hs.
      destruct p as [|x p]; [rewrite !bool_decide_true by done; by rewrite app_nil_r|].
      rewrite !bool_decide_false by done. by rewrite <- app_assoc, take_drop. }
    eapply returns_bind; [exact Hstep|]. intros [sent' c'] (q & Hq & Heq).
    eapply returns_mono; [by apply IH|]. intros [sent2 c2] (p' & Hp' & Heq2). exists p'. split; [done|].
    rewrite Heq2, app_assoc, Heq, <- app_assoc. done.
Qed.

(** Nothing a client is sent is lost, repeated or reordered.  However the
    socket accepts the output (partial writes, [EAGAIN], errors), what the client
    has received followed by what is still buffered is exactly the sequence of
    the replies written. *)
Theorem output_stream_exact (fd now : Z) (es : list out_event) :
  Forall event_ok es →
  out_steps now ([], create fd now) es ⇓ λ '(sent, c), ∃ pending,
    represents (out_ c) pending ∧ sent ++ pending = replies es.
Proof. intros Hes. apply (out_steps_ok now es [] (create fd now) [] Hes empty_represents). Qed.

(** A read appends exactly what the kernel delivered to the unread input,
    always offers at least 4096 bytes of room, and reports the connection dead
    exactly on end of file and on errors other than [EAGAIN]. *)
Theorem input_stream_exact (now : Z) (kernel : nat → read_outcome) (c : Connection) (s : bytes) :
  represents (in_ c) s → (∀ n t, kernel n = ReadData t → length t ≤ n) →
  handleRead now kernel c ⇓ λ '(alive, c'), ∃ n, kReadBufSize ≤ n ∧
    alive = bool_decide (kernel n ≠ ReadEof ∧ kernel n ≠ ReadError) ∧
    represents (in_ c') (s ++ delivered (kernel n)) ∧
    out_ c' = out_ c ∧ txn c' = txn c ∧ subscribedChannels c' = subscribedChannels c.
Proof.
  intros Hin Hk. eapply returns_mono; [by apply handleRead_ok|].
  intros [alive c'] (n & H1 & H2 & H3 & H4 & H5 & H6 & _). by exists n.
Qed.

(** ** Witnesses *)

(** A socket that takes three bytes at a time. *)
Definition three_at_a_time (s : bytes) : write_outcome := Wrote (Nat.min 3 (length s)).

Lemma output_stream_exact_witness :
  out_steps 0 ([], create 7 0) [Reply (lit "+OK"); Flush three_at_a_time; Reply (lit ":1")] ⇓
    λ '(sent, c), ∃ pending, represents (out_ c) pending ∧
      sent ++ pending = replies [Reply (lit "+OK"); Flush three_at_a_time; Reply (lit ":1")].
Proof.
  apply (output_stream_exact 7 0). constructor; [exact I|]. constructor; [|constructor; [exact I|constructor]].
  intros s. apply Nat.le_min_r.
Defined.

(** A socket with six bytes to read. *)
Definition one_ping (n : nat) : read_outcome :=
  if bool_decide (6 ≤ n) then ReadData (lit "PING" ++ crlf) else ReadAgain.

Lemma input_stream_exact_witness :
  handleRead 0 one_ping (create 7 0) ⇓ λ '(alive, c'), ∃ n, kReadBufSize ≤ n ∧
    alive = bool_decide (one_ping n ≠ ReadEof ∧ one_ping n ≠ ReadError) ∧
    represents (in_ c') ([] ++ delivered (one_ping n)) ∧
    out_ c' = out_ (create 7 0) ∧ txn c' = txn (create 7 0) ∧
    subscribedChannels c' = subscribedChannels (create 7 0).
Proof.
  apply (input_stream_exact 0 one_ping (create 7 0) [] empty_represents).
  intros n t. unfold one_ping. case_bool_decide; [|discriminate]. intros [= <-]. exact H.
Defined.

End Connection.
