(* ===== verification/NetListener.v ===== *)
(** * [net/Listener]: the listening socket

    Class [Listener] (src/net/Listener.h, Listener.cpp).  The outcomes of the
    system calls of the constructor are a [BindWorld]; its exceptions are values,
    and the open descriptors are explicit, so that an early return that forgets
    to close the socket would be visible. *)
From Stdlib Require Import Ascii String ZArith Lia ZifyNat ZifyBool.
From stdpp Require Import base option list strings gmap.
From S2P Require Import Prelude CStdlib CPosix.

Module Listener.

(** [fd_], and what the kernel bound the socket to: the address and the port. *)
Record Listener := mkListener {
  fd_ : Z;
  bound : list Z * Z
}.

(** What [socket], [bind] and [listen] return, and the text of [errno]. *)
Record BindWorld := mkBindWorld {
  bw_socket : Z;
  bw_bind : Z;
  bw_listen : Z;
  bw_strerror : bytes
}.

(** [static_cast<uint16_t>(port)] *)
Definition port16 (port : Z) : Z := (port mod 2 ^ 16)%Z.

(** The constructor: the text of the [std::runtime_error], or the listener; and
    the open descriptors. *)
Definition create (w : BindWorld) (addr : bytes) (port : Z) (fds : Fds) : result ((bytes + Listener) * Fds) :=
  let fd := bw_socket w in
  if (fd <? 0)%Z then mret (inl (lit "socket() failed: " ++ bw_strerror w), fds)
  else
    let fds1 := openFd fd fds in
    match inet_pton addr with
    | None => fds2 ← closeFd fd fds1; mret (inl (lit "Invalid address: " ++ addr), fds2)
    | Some a =>
        if (bw_bind w <? 0)%Z then fds2 ← closeFd fd fds1; mret (inl (lit "bind() failed: " ++ bw_strerror w), fds2)
        else if (bw_listen w <? 0)%Z then
          fds2 ← closeFd fd fds1; mret (inl (lit "listen() failed: " ++ bw_strerror w), fds2)
        else mret (inr (mkListener fd (a, port16 port)), fds1)
    end.

(** The destructor. *)
Definition destroy (l : Listener) (fds : Fds) : result Fds :=
  if (0 <=? fd_ l)%Z then closeFd (fd_ l) fds else mret fds.

(** [accept4] returned [ret]: a descriptor, or [-1] when no client is waiting. *)
Definition acceptClient (ret : Z) (fds : Fds) : Z * Fds := (ret, openFd ret fds).

(** ** Facts *)

Lemma listener_create_ok w addr port fds :
  fresh_fd (bw_socket w) fds →
  create w addr port fds ⇓ λ '(r, fds'),
    match r with
    | inl _ => fds' = fds
    | inr l => fds' = {[fd_ l]} ∪ fds ∧ (0 ≤ fd_ l)%Z ∧ fd_ l = bw_socket w ∧ (fd_ l ∉ fds) ∧
        inet_pton addr = Some (fst (bound l)) ∧ snd (bound l) = port16 port
    end.
Proof.
  intros Hf. unfold create. destruct (Z.ltb_spec (bw_socket w) 0) as [H|H]; [done|].
  pose proof (open_close _ _ Hf) as Hc. rewrite openFd_pos in Hc |- * by done.
  destruct (inet_pton addr) as [a|]; [|by rewrite Hc, bind_ok].
  destruct (bw_bind w <? 0)%Z; [by rewrite Hc, bind_ok|]. destruct (bw_listen w <? 0)%Z; [by rewrite Hc, bind_ok|].
  apply returns_ok. cbn. repeat split; auto.
Qed.

Lemma destroy_ok l fds : (0 ≤ fd_ l)%Z → fd_ l ∈ fds → destroy l fds = Ok (fds ∖ {[fd_ l]}).
Proof. intros H0 Hin. unfold destroy. replace (0 <=? fd_ l)%Z with true by lia. by apply closeFd_ok. Qed.

(** The address the server listens on. *)
Lemma any_address : inet_pton (lit "0.0.0.0") = Some [0; 0; 0; 0]%Z.
Proof. reflexivity. Qed.

End Listener.
