(* ===== verification/NetEventLoop.v ===== *)
(** * [net/EventLoop]: epoll registrations and the timer

    Class [EventLoop] (src/net/EventLoop.h, EventLoop.cpp).  The kernel's epoll set
    is a finite map from descriptors to the events asked for, input and output;
    [epoll_ctl] changes it only for descriptors that are absent (ADD) or present
    (MOD, DEL), and the source ignores its errors.  [poll] is generic in the state
    its timer callback works on.  Readings of the steady clock are in
    nanoseconds; the number of milliseconds since the last firing is converted to
    [int]. *)
From Stdlib Require Import ZArith Lia ZifyNat ZifyBool.
From stdpp Require Import base option list gmap.
From S2P Require Import Prelude CStdlib CPosix.

Module EventLoop.

Abbreviation interest := (bool * bool)%type.

Record EventLoop := mkLoop {
  epollFd_ : Z;
  registered : gmap Z interest;
  numReady_ : Z;
  hasTimer : bool;
  timerIntervalMs_ : Z;
  lastTimerFire_ : Z
}.

(** The constructor; [epfd] is what [epoll_create1] returned.  [None] is the
    [std::runtime_error]. *)
Definition create (epfd now : Z) (fds : Fds) : option EventLoop * Fds :=
  if (epfd <? 0)%Z then (None, fds) else (Some (mkLoop epfd ∅ 0 false 0 now), openFd epfd fds).

Definition destroy (l : EventLoop) (fds : Fds) : result Fds :=
  if (0 <=? epollFd_ l)%Z then closeFd (epollFd_ l) fds else mret fds.

Definition set_registered (m : gmap Z interest) (l : EventLoop) : EventLoop :=
  mkLoop (epollFd_ l) m (numReady_ l) (hasTimer l) (timerIntervalMs_ l) (lastTimerFire_ l).

(** [epoll_ctl] with EPOLL_CTL_ADD, EPOLL_CTL_MOD and EPOLL_CTL_DEL. *)
Definition addFd (fd : Z) (events : interest) (l : EventLoop) : EventLoop :=
  match registered l !! fd with
  | Some _ => l
  | None => set_registered (<[fd := events]> (registered l)) l
  end.

Definition modFd (fd : Z) (events : interest) (l : EventLoop) : EventLoop :=
  match registered l !! fd with
  | Some _ => set_registered (<[fd := events]> (registered l)) l
  | None => l
  end.

Definition removeFd (fd : Z) (l : EventLoop) : EventLoop := set_registered (delete fd (registered l)) l.

Definition setTimerCallback (intervalMs now : Z) (l : EventLoop) : EventLoop :=
  mkLoop (epollFd_ l) (registered l) (numReady_ l) true intervalMs now.

Definition elapsedMs (now : Z) (l : EventLoop) : Z := Z.quot (now - lastTimerFire_ l) 1000000.

Definition timed (l : EventLoop) : bool := hasTimer l && (0 <? timerIntervalMs_ l)%Z.

(** The time [epoll_wait] is given. *)
Definition actualTimeout (now timeoutMs : Z) (l : EventLoop) : Z :=
  if timed l then
    let remaining := wrap_s32 (timerIntervalMs_ l - wrap_s32 (elapsedMs now l)) in
    if (remaining <=? 0)%Z then 0%Z
    else if (remaining <? timeoutMs)%Z then remaining
    else timeoutMs
  else timeoutMs.

(** How [epoll_wait] returns. *)
Inductive wait_result := Ready (n : nat) | Interrupted | WaitFailed.

(** Called at [now]; [wait t] is the outcome of [epoll_wait] with time [t], after
    which the clock reads [now']. *)
Definition poll {St : Type} (timerCb : St → result St) (now timeoutMs : Z) (wait : Z → wait_result) (now' : Z)
    (l : EventLoop) (st : St) : result (Z * EventLoop * St) :=
  let ready n := mkLoop (epollFd_ l) (registered l) n (hasTimer l) (timerIntervalMs_ l) (lastTimerFire_ l) in
  match wait (actualTimeout now timeoutMs l) with
  | Interrupted => mret (0%Z, ready 0%Z, st)
  | WaitFailed => mret ((-1)%Z, ready 0%Z, st)
  | Ready k =>
      let n := Z.of_nat k in
      if timed l && (timerIntervalMs_ l <=? elapsedMs now' l)%Z then
        st' ← timerCb st;
        mret (n, mkLoop (epollFd_ l) (registered l) n (hasTimer l) (timerIntervalMs_ l) now', st')
      else mret (n, ready n, st)
  end.

(** ** Registrations *)

Lemma addFd_lookup fd ev l fd' :
  registered l !! fd = None → registered (addFd fd ev l) !! fd' = if decide (fd' = fd) then Some ev else registered l !! fd'.
Proof.
  intros Hfd. unfold addFd. rewrite Hfd. cbn. destruct (decide (fd' = fd)) as [->|]; [by rewrite lookup_insert_eq|].
  by rewrite lookup_insert_ne.
Qed.

Lemma modFd_lookup fd ev l fd' :
  is_Some (registered l !! fd) →
  registered (modFd fd ev l) !! fd' = if decide (fd' = fd) then Some ev else registered l !! fd'.
Proof.
  intros [x Hfd]. unfold modFd. rewrite Hfd. cbn. destruct (decide (fd' = fd)) as [->|]; [by rewrite lookup_insert_eq|].
  by rewrite lookup_insert_ne.
Qed.

Lemma modFd_is_Some fd ev l fd' : is_Some (registered (modFd fd ev l) !! fd') ↔ is_Some (registered l !! fd').
Proof.
  unfold modFd. destruct (registered l !! fd) as [x|] eqn:Hx; [|done]. cbn.
  destruct (decide (fd' = fd)) as [->|]; [|by rewrite lookup_insert_ne]. rewrite lookup_insert_eq, Hx. by split; eauto.
Qed.

Lemma modFd_fd fd ev l : epollFd_ (modFd fd ev l) = epollFd_ l.
Proof. unfold modFd. by destruct (registered l !! fd). Qed.

Lemma addFd_fd fd ev l : epollFd_ (addFd fd ev l) = epollFd_ l.
Proof. unfold addFd. by destruct (registered l !! fd). Qed.

(** ** The timer *)

(** The loop has a timer that last fired less than 2^31 milliseconds ago. *)
Record timer_armed (now : Z) (l : EventLoop) : Prop := {
  tm_set : hasTimer l = true;
  tm_interval : (0 < timerIntervalMs_ l < 2 ^ 31)%Z;
  tm_elapsed : (0 ≤ elapsedMs now l < 2 ^ 31)%Z
}.

Lemma remaining_exact now l :
  timer_armed now l →
  wrap_s32 (timerIntervalMs_ l - wrap_s32 (elapsedMs now l)) = (timerIntervalMs_ l - elapsedMs now l)%Z.
Proof. intros [_ Hi He]. rewrite !wrap_s32_id; [done|..]; unfold in_s32; rewrite ?wrap_s32_id; unfold in_s32; lia. Qed.

(** ** Properties *)

(** C39: the wait is bounded by the timer.  The time given to [epoll_wait] is
    never negative (which would mean for ever), never longer than asked for, and
    never beyond the next firing; it is zero exactly when the timer is due or no
    wait was asked for, and no conversion to [int] loses anything.  A wait that
    lasts as long as it may ends with the timer due or with the time asked for. *)
Theorem poll_timeout_bounds (now timeoutMs : Z) (l : EventLoop) :
  timer_armed now l → in_s32 timeoutMs → (0 ≤ timeoutMs)%Z →
  (0 ≤ actualTimeout now timeoutMs l ≤ timeoutMs)%Z ∧ in_s32 (actualTimeout now timeoutMs l) ∧
  (actualTimeout now timeoutMs l ≤ Z.max 0 (timerIntervalMs_ l - elapsedMs now l))%Z ∧
  (actualTimeout now timeoutMs l = 0 ↔ timeoutMs = 0 ∨ timerIntervalMs_ l ≤ elapsedMs now l)%Z ∧
  (actualTimeout now timeoutMs l = timeoutMs ∨
   timerIntervalMs_ l ≤ elapsedMs now l + actualTimeout now timeoutMs l)%Z.
Proof.
  intros Ht Hs Hnn. unfold actualTimeout, timed. rewrite (remaining_exact _ _ Ht). destruct Ht as [-> Hi He].
  replace (0 <? timerIntervalMs_ l)%Z with true by lia. cbn [andb]. cbv zeta. unfold in_s32 in *.
  destruct (Z.leb_spec (timerIntervalMs_ l - elapsedMs now l) 0); [lia|].
  destruct (Z.ltb_spec (timerIntervalMs_ l - elapsedMs now l) timeoutMs); lia.
Qed.

(** C40: the timer fires exactly when it is due.  A poll that returns with events
    or at its timeout runs the callback once if the interval has passed since the
    last firing, which it then records, and not at all otherwise; an interrupted
    or failed wait never does, and the registrations never change. *)
Theorem poll_fires_timer {St : Type} (timerCb : St → result St) (now timeoutMs : Z) (wait : Z → wait_result)
    (now' : Z) (l : EventLoop) (st : St) (Q : St → Prop) :
  hasTimer l = true → (0 < timerIntervalMs_ l)%Z → timerCb st ⇓ Q →
  poll timerCb now timeoutMs wait now' l st ⇓ λ '(n, l', st'),
    registered l' = registered l ∧ numReady_ l' = Z.max 0 n ∧
    match wait (actualTimeout now timeoutMs l) with
    | Ready k => n = Z.of_nat k ∧
        if (timerIntervalMs_ l <=? elapsedMs now' l)%Z
        then timerCb st = Ok st' ∧ Q st' ∧ lastTimerFire_ l' = now' ∧ elapsedMs now' l' = 0%Z
        else st' = st ∧ lastTimerFire_ l' = lastTimerFire_ l
    | Interrupted => n = 0%Z ∧ st' = st ∧ lastTimerFire_ l' = lastTimerFire_ l
    | WaitFailed => n = (-1)%Z ∧ st' = st ∧ lastTimerFire_ l' = lastTimerFire_ l
    end.
Proof.
  intros Ht Hi Hcb. unfold poll, timed. rewrite Ht. replace (0 <? timerIntervalMs_ l)%Z with true by lia. cbn [andb].
  destruct (wait _) as [k| |]; [|by apply returns_ok..].
  destruct (timerIntervalMs_ l <=? elapsedMs now' l)%Z eqn:Hdue.
  - destruct (timerCb st) as [st'|]; [|done]. rewrite bind_ok. apply returns_ok. cbn [registered numReady_ lastTimerFire_].
    split; [done|]. split; [lia|]. split; [done|]. split; [done|]. split; [done|]. split; [done|].
    unfold elapsedMs. cbn [lastTimerFire_]. by rewrite Z.sub_diag.
  - apply returns_ok. cbn. split; [done|]. split; [lia|]. done.
Qed.

(** ** Witnesses *)

(** The loop of the server, 40 milliseconds after the timer fired. *)
Definition demo_loop : EventLoop := setTimerCallback 100 0 (mkLoop 4 ∅ 0 false 0 0).

Lemma poll_timeout_bounds_witness :
  let t := actualTimeout 40000000 100 demo_loop in
  ((0 ≤ t ≤ 100) ∧ in_s32 t ∧ (t ≤ Z.max 0 (100 - 40)) ∧ (t = 0 ↔ 100 = 0 ∨ 100 ≤ 40) ∧ (t = 100 ∨ 100 ≤ 40 + t))%Z.
Proof.
  apply (poll_timeout_bounds 40000000 100 demo_loop).
  - split; [reflexivity|cbn; lia|vm_compute; split; [discriminate|reflexivity]].
  - unfold in_s32. lia.
  - lia.
Defined.

Lemma poll_fires_timer_witness :
  poll (λ n, mret (S n)) 40000000 100 (λ _, Ready 2) 120000000 demo_loop 0 ⇓ λ '(n, l', st'),
    registered l' = registered demo_loop ∧ numReady_ l' = Z.max 0 n ∧
    n = Z.of_nat 2 ∧ Ok 1 = Ok st' ∧ st' = 1 ∧ lastTimerFire_ l' = 120000000%Z ∧ elapsedMs 120000000 l' = 0%Z.
Proof.
  apply (poll_fires_timer (λ n, mret (S n)) 40000000 100 (λ _, Ready 2) 120000000 demo_loop 0 (λ n, n = 1));
    [reflexivity|cbn; lia|reflexivity].
Defined.

End EventLoop.
