(* ===== verification/CmdBase.v ===== *)
(** * What the command handlers share

    A handler of src/cmd/ is [void(Database&, Connection&, const
    std::vector<std::string>&)]: here a function from an environment, a database,
    a connection and an argument vector to the new database and connection.  The
    environment holds what a command reads from outside: the successive readings
    of [nowMs()], the draws of the random device, the orders in which the
    unordered containers are traversed, and for which numbers of strings the
    allocator has room when the request is parsed.

    Replies are specified as RESP values ([resp]); [replied c r c'] says that
    exactly the encoding of [r] was appended to the output of [c] and nothing
    else of the connection changed.  A command is specified by a function on
    keyspaces, and [implements] relates the handler to it. *)
From Stdlib Require Import Ascii String ZArith Lia ZifyNat ZifyBool.
From stdpp Require Import base option list strings gmap.
From S2P Require Import Prelude CStdlib CDouble NetBuffer ProtoSerializer NetConnection StoreTTLHeap.
From S2P Require Import StoreHashTable StoreSkiplist StoreObject StoreInterfaces StoreDatabase.
Import RedisObject Connection.

Record Env := mkEnv {
  platform : Platform;
  clk : nat → Z;
  rng : nat → Z;
  iter_map : gmap bytes bytes → list (bytes * bytes);
  iter_set : gset bytes → list bytes;
  grants : Z → bool
}.

(** The command ends at some time, after all its readings of the clock, which may
    otherwise jump; a traversal visits every element once. *)
Record env_ok (e : Env) : Prop := {
  clk_ends : ∃ now, ∀ j, (clk e j ≤ now)%Z;
  iter_map_perm m : iter_map e m ≡ₚ map_to_list m;
  iter_set_perm s : iter_set e s ≡ₚ elements s
}.

Abbreviation DB := Database.DB.
Abbreviation handler := (Env → DB → Connection → list bytes → result (DB * Connection)).

Definition WRONGTYPE : bytes := lit "WRONGTYPE Operation against a key holding the wrong kind of value".

(** ** Replies *)

Definition reply (c : Connection) (w : Buffer.Buffer → result Buffer.Buffer) : result Connection :=
  b ← w (out_ c); mret (set_out b c).

Definition replySimple c s := reply c (λ b, RespSerializer.writeSimpleString b s).
Definition replyError c s := reply c (λ b, RespSerializer.writeError b s).
Definition replyInteger c z := reply c (λ b, RespSerializer.writeInteger b z).
Definition replyBulk c s := reply c (λ b, RespSerializer.writeBulkString b s).
Definition replyNull c := reply c RespSerializer.writeNull.
Definition replyHeader c n := reply c (λ b, RespSerializer.writeArrayHeader b n).
Definition replyBulks c xs := reply c (λ b, RespSerializer.writeBulkStrings b xs).

Inductive resp :=
| RSimple (s : bytes)
| RError (s : bytes)
| RInt (z : Z)
| RBulk (s : bytes)
| RNil
| RArray (l : list resp).

Fixpoint encode (r : resp) : bytes :=
  match r with
  | RSimple s => enc_simple s
  | RError s => enc_error s
  | RInt z => enc_int z
  | RBulk s => enc_bulk s
  | RNil => enc_null
  | RArray l => enc_header (Z.of_nat (length l)) ++ mjoin (encode <$> l)
  end.

Definition RBulks (xs : list bytes) : resp := RArray (RBulk <$> xs).

Lemma encode_bulks xs : encode (RBulks xs) = enc_header (Z.of_nat (length xs)) ++ enc_bulks xs.
Proof.
  unfold RBulks, enc_bulks. cbn [encode]. rewrite length_fmap, <- list_fmap_compose. done.
Qed.

Definition out_ok (c : Connection) : Prop := Buffer.wf (out_ c).

(** [s] was appended to the output of [c]. *)
Definition appended (c : Connection) (s : bytes) (c' : Connection) : Prop :=
  c' = set_out (out_ c') c ∧ out_ok c' ∧
  Buffer.readable (out_ c') = Buffer.readable (out_ c) ++ s.

Definition replied (c : Connection) (r : resp) (c' : Connection) : Prop := appended c (encode r) c'.

Lemma set_out_out b b' c : set_out b (set_out b' c) = set_out b c.
Proof. done. Qed.

Lemma appended_trans c c1 c2 s1 s2 :
  appended c s1 c1 → appended c1 s2 c2 → appended c (s1 ++ s2) c2.
Proof.
  intros (H1 & _ & H3) (H4 & H5 & H6). split; [|split; [done|]].
  - rewrite H4, H1. by rewrite set_out_out.
  - by rewrite H6, H3, <- app_assoc.
Qed.

Lemma reply_ok c w s :
  out_ok c →
  (∀ b t, Buffer.represents b t → w b ⇓ λ b', Buffer.represents b' (t ++ s)) →
  reply c w ⇓ appended c s.
Proof.
  intros Hc Hw. unfold reply. eapply returns_bind; [by apply Hw|].
  intros b [Hb1 Hb2]. by apply returns_ok.
Qed.

Section replies.
Context (c : Connection) (Hc : out_ok c).

Lemma replySimple_ok s : replySimple c s ⇓ replied c (RSimple s).
Proof using Hc. apply reply_ok; [done|]. intros b t Hb. by apply RespSerializer.writeSimpleString_ok. Qed.
Lemma replyError_ok s : replyError c s ⇓ replied c (RError s).
Proof using Hc. apply reply_ok; [done|]. intros b t Hb. by apply RespSerializer.writeError_ok. Qed.
Lemma replyInteger_ok z : replyInteger c z ⇓ replied c (RInt z).
Proof using Hc. apply reply_ok; [done|]. intros b t Hb. by apply RespSerializer.writeInteger_ok. Qed.
Lemma replyBulk_ok s : replyBulk c s ⇓ replied c (RBulk s).
Proof using Hc. apply reply_ok; [done|]. intros b t Hb. by apply RespSerializer.writeBulkString_ok. Qed.
Lemma replyNull_ok : replyNull c ⇓ replied c RNil.
Proof using Hc. apply reply_ok; [done|]. intros b t Hb. by apply RespSerializer.writeNull_ok. Qed.
Lemma replyHeader_ok z : replyHeader c z ⇓ appended c (enc_header z).
Proof using Hc. apply reply_ok; [done|]. intros b t Hb. by apply RespSerializer.writeArrayHeader_ok. Qed.
Lemma replyBulks_ok xs : replyBulks c xs ⇓ appended c (enc_bulks xs).
Proof using Hc. apply reply_ok; [done|]. intros b t Hb. by apply RespSerializer.writeBulkStrings_ok. Qed.

(** A header and its elements. *)
Lemma replyArray_ok xs n :
  n = Z.of_nat (length xs) →
  (c1 ← replyHeader c n; replyBulks c1 xs) ⇓ replied c (RBulks xs).
Proof using Hc.
  intros ->. run_with replyHeader_ok. intros c1 H1.
  eapply returns_mono; [apply reply_ok; [apply H1|intros b t; apply RespSerializer.writeBulkStrings_ok]|].
  intros c2 H2. unfold replied. rewrite encode_bulks. by eapply appended_trans.
Qed.
End replies.

Lemma replyEmpty_ok c : out_ok c → replyHeader c 0 ⇓ replied c (RBulks []).
Proof.
  intros Hc. eapply returns_mono; [by apply replyHeader_ok|]. intros c' Hc'. unfold replied. rewrite encode_bulks.
  change (enc_bulks []) with (@nil ascii). by rewrite app_nil_r.
Qed.

Lemma replied_out c r c' : replied c r c' → out_ok c'.
Proof. by intros (_ & ? & _). Qed.

(** ** Keyspaces of well-formed, non-empty objects *)

Definition nonempty (o : RedisObject) : Prop :=
  match data o with
  | DDeque l => l ≠ []
  | DMap m => m ≠ ∅
  | DSet s => s ≠ ∅
  | DZSet z => dict z ≠ ∅
  | _ => True
  end.

Definition object_ok (o : RedisObject) : Prop := RedisObject.wf o ∧ nonempty o.

(** INV: the keyspace never holds an ill-tagged object or an empty container. *)
Definition keyspace_ok (m : Database.keyspace) : Prop := map_Forall (λ _ x, object_ok x.1) m.

Lemma keyspace_ok_insert k o d m : object_ok o → keyspace_ok m → keyspace_ok (<[k := (o, d)]> m).
Proof. intros Ho Hm. by apply map_Forall_insert_2. Qed.

Lemma keyspace_ok_delete k m : keyspace_ok m → keyspace_ok (delete k m).
Proof. apply map_Forall_delete. Qed.

Lemma keyspace_ok_purge now k m : keyspace_ok m → keyspace_ok (Database.purge now k m).
Proof.
  intros Hm. unfold Database.purge. destruct (m !! k) as [[o d]|]; [|done].
  destruct (Database.expired now d); [by apply keyspace_ok_delete|done].
Qed.

(** The alternative a type tag stands for. *)
Lemma object_list o : RedisObject.wf o → type o = LIST → ∃ l, o = mkObject LIST LINKEDLIST (DDeque l).
Proof. destruct o as [[] [] []]; cbn; try done; eauto. Qed.
Lemma object_hash o : RedisObject.wf o → type o = HASH → ∃ m, o = mkObject HASH HASHTABLE (DMap m).
Proof. destruct o as [[] [] []]; cbn; try done; eauto. Qed.
Lemma object_set o : RedisObject.wf o → type o = SET → ∃ s, o = mkObject SET HASHTABLE (DSet s).
Proof. destruct o as [[] [] []]; cbn; try done; eauto. Qed.
Lemma object_zset o :
  RedisObject.wf o → type o = ZSET → ∃ z, o = mkObject ZSET SKIPLIST (DZSet z) ∧ zset_linked z.
Proof. destruct o as [[] [] []]; cbn; try done; eauto. Qed.

(** ** Finding the object of a command *)

Definition set_data (d : RedisData) (o : RedisObject) : RedisObject := mkObject (type o) (encoding o) d.

(** What a command does once its key is looked up: no entry, an entry of another
    type, or an object of the right type. *)
Inductive target := Missing | Wrong | Found (o : RedisObject).

(** [entry = db.findEntry(key)] and the comparison with the type. *)
Definition openKey (T : DataType) (e : Env) (db : DB) (k : bytes) : result (target * DB) :=
  '(entry, db1) ← Database.findEntry (platform e) (clk e 0) db k;
  match entry with
  | None => mret (Missing, db1)
  | Some (o, _) => mret (if bool_decide (type o = T) then Found o else Wrong, db1)
  end.

(** The opening of the commands that create their container: [if (!entry) {
    db.setObject(key, fresh); entry = db.findEntry(key); }]. *)
Definition openOrCreate (T : DataType) (fresh : RedisObject) (e : Env) (db : DB) (k : bytes)
    : result (target * DB) :=
  '(t, db1) ← openKey T e db k;
  match t with
  | Missing =>
      db2 ← Database.setObject (platform e) db1 k fresh;
      '(entry, db3) ← Database.findEntry (platform e) (clk e 1) db2 k;
      '(o, _) ← deref entry;
      mret (Found o, db3)
  | _ => mret (t, db1)
  end.

(** The specification of both: the type of what is visible under the key. *)
Definition target_of (T : DataType) (m : Database.keyspace) (k : bytes) : target :=
  match m !! k with
  | None => Missing
  | Some (o, _) => if bool_decide (type o = T) then Found o else Wrong
  end.

Lemma openKey_ok T e db k :
  Database.wf db →
  openKey T e db k ⇓ λ '(t, db'),
    Database.holds (Database.purge (clk e 0) k (Database.view db)) db' ∧
    t = target_of T (Database.view db') k.
Proof.
  intros Hwf. unfold openKey, target_of. run_with Database.findEntry_ok; [done|].
  intros [r db1] [-> [Hh _]]. pose proof Hh as [_ Hv].
  destruct (Database.live (clk e 0) (Database.view db) !! k) as [[o d]|] eqn:Hl; apply returns_ok;
    (split; [done|]); by rewrite Hv, Database.purge_lookup, Hl.
Qed.

Lemma openOrCreate_ok T fresh e db k :
  Database.wf db → type fresh = T →
  openOrCreate T fresh e db k ⇓ λ '(t, db'),
    let m := Database.purge (clk e 0) k (Database.view db) in
    match m !! k with
    | Some (o, _) => Database.holds m db' ∧ t = if bool_decide (type o = T) then Found o else Wrong
    | None => Database.holds (<[k := (fresh, (-1)%Z)]> m) db' ∧ t = Found fresh
    end.
Proof.
  intros Hwf HT. unfold openOrCreate. run_with openKey_ok; [done|]. intros [t db1] [[Hw1 Hv1] ->].
  cbn zeta. rewrite <- Hv1. unfold target_of. destruct (Database.view db1 !! k) as [[o d]|] eqn:Hk.
  { by case_bool_decide; apply returns_ok. }
  run_with Database.setObject_ok; [done|done|]. intros db2 [[Hw2 Hv2] _].
  run_with Database.findEntry_ok; [done|]. intros [r db3] [-> [[Hw3 Hv3] _]].
  rewrite Database.live_lookup, Hv2, lookup_insert_eq. cbn. split; [|done]. split; [done|].
  rewrite Hv3, Hv2. unfold Database.purge. by rewrite lookup_insert_eq.
Qed.

(** ** Specifications of commands *)

(** A command as a relation between the environment, the keyspace, the arguments,
    the reply and the new keyspace. *)
Abbreviation command_spec := (Env → Database.keyspace → list bytes → resp → Database.keyspace → Prop).

(** A command whose reply and effect are functions of the rest. *)
Definition exactly (f : Env → Database.keyspace → list bytes → resp * Database.keyspace) : command_spec :=
  λ e m args r m', (r, m') = f e m args.

(** On every database, connection and argument vector it can be called with, the
    handler ends without a fault, appends a reply the specification allows and
    nothing else to the connection, leaves a keyspace the specification allows,
    and keeps that keyspace well formed. *)
Definition implements (h : handler) (pre : list bytes → Prop) (R : command_spec) : Prop :=
  ∀ e db c args, env_ok e → Database.wf db → keyspace_ok (Database.view db) → out_ok c → pre args →
    h e db c args ⇓ λ '(db', c'), ∃ r m',
      R e (Database.view db) args r m' ∧ Database.holds m' db' ∧ keyspace_ok m' ∧ replied c r c'.

(** [args[i]] *)
Definition arg (args : list bytes) (i : nat) : bytes := default [] (args !! i).

Lemma vec_get_arg args i : i < length args → vec_get args i = Ok (arg args i).
Proof. intros [x Hx]%lookup_lt_is_Some. unfold arg. rewrite Hx. by apply vec_get_ok. Qed.

(** Ending a command: the database is final, the reply is written. *)
Lemma finish_ok (m' : Database.keyspace) (R : resp → Database.keyspace → Prop) db c r
    (w : result Connection) :
  w ⇓ replied c r → R r m' → Database.holds m' db → keyspace_ok m' →
  (c' ← w; mret (db, c')) ⇓ λ '(db', c'), ∃ r m', R r m' ∧ Database.holds m' db' ∧ keyspace_ok m' ∧ replied c r c'.
Proof.
  intros Hw HR Hh Hk. eapply returns_bind; [exact Hw|]. intros c' Hc'. apply returns_ok. by exists r, m'.
Qed.

(** ** The shape of the container commands *)

(** The outcome of a command on [c] under [R]. *)
Definition outcome (R : resp → Database.keyspace → Prop) (c : Connection) (x : DB * Connection) : Prop :=
  let '(db', c') := x in
  ∃ r m', R r m' ∧ Database.holds m' db' ∧ keyspace_ok m' ∧ replied c r c'.

(** [HTEntry* entry = db.findEntry(key); if (!entry) { missing } if (type != T) {
    WRONGTYPE } found] *)
Definition withKey (T : DataType) (e : Env) (db : DB) (c : Connection) (k : bytes)
    (missing : Connection → result Connection) (found : DB → RedisObject → result (DB * Connection))
    : result (DB * Connection) :=
  '(t, db1) ← openKey T e db k;
  match t with
  | Missing => c' ← missing c; mret (db1, c')
  | Wrong => c' ← replyError c WRONGTYPE; mret (db1, c')
  | Found o => found db1 o
  end.

(** The same with a container created on demand. *)
Definition withNewKey (T : DataType) (fresh : RedisObject) (e : Env) (db : DB) (c : Connection) (k : bytes)
    (found : DB → RedisObject → result (DB * Connection)) : result (DB * Connection) :=
  '(t, db1) ← openOrCreate T fresh e db k;
  match t with
  | Found o => found db1 o
  | _ => c' ← replyError c WRONGTYPE; mret (db1, c')
  end.

(** [if (container.empty()) db.del(key);] after the object was written in place. *)
Definition writeOrDelete (e : Env) (db : DB) (k : bytes) (o : RedisObject) (isEmpty : bool) : result DB :=
  db1 ← Database.updateObject db k o;
  if isEmpty then '(_, db2) ← Database.del (platform e) db1 k; mret db2 else mret db1.

Section shapes.
Context (e : Env) (db : DB) (c : Connection) (k : bytes) (R : resp → Database.keyspace → Prop).
Context (Hwf : Database.wf db) (Hks : keyspace_ok (Database.view db)) (Hc : out_ok c).

Let m1 := Database.purge (clk e 0) k (Database.view db).

Lemma withKey_ok T missing rm found :
  missing c ⇓ replied c rm →
  (m1 !! k = None → R rm m1) →
  (∀ o d, m1 !! k = Some (o, d) → type o ≠ T → R (RError WRONGTYPE) m1) →
  (∀ db1 o d, Database.holds m1 db1 → keyspace_ok m1 → m1 !! k = Some (o, d) → object_ok o → type o = T →
     found db1 o ⇓ outcome R c) →
  withKey T e db c k missing found ⇓ outcome R c.
Proof using Hwf Hks Hc.
  intros Hm HRm HRw Hf. unfold withKey. run_with openKey_ok; [done|]. fold m1. intros [t db1] [Hh ->].
  pose proof Hh as [_ Hv]. unfold target_of. rewrite Hv.
  assert (Hks1 : keyspace_ok m1) by by apply keyspace_ok_purge.
  destruct (m1 !! k) as [[o d]|] eqn:Hk; [case_bool_decide|].
  - eapply Hf; [done|done|done| |done]. by apply (Hks1 k (o, d)).
  - eapply finish_ok; [by apply replyError_ok|by eapply HRw|done|done].
  - eapply finish_ok; [done|by apply HRm|done|done].
Qed.

Lemma withNewKey_ok T fresh found :
  type fresh = T → RedisObject.wf fresh →
  (∀ o d, m1 !! k = Some (o, d) → type o ≠ T → R (RError WRONGTYPE) m1) →
  (∀ db1 o d m, Database.holds m db1 → keyspace_ok m1 → m !! k = Some (o, d) → RedisObject.wf o → type o = T →
     (m1 !! k = Some (o, d) ∧ m = m1 ∨ m1 !! k = None ∧ o = fresh ∧ d = (-1)%Z ∧ m = <[k := (o, d)]> m1) →
     found db1 o ⇓ outcome R c) →
  withNewKey T fresh e db c k found ⇓ outcome R c.
Proof using Hwf Hks Hc.
  intros HT Hfr HRw Hf. unfold withNewKey. run_with openOrCreate_ok; [done|done|].
  assert (Hks1 : keyspace_ok m1) by by apply keyspace_ok_purge.
  intros [t db1]. cbn zeta. fold m1. destruct (m1 !! k) as [[o d]|] eqn:Hk; intros [Hh ->]; [case_bool_decide|].
  - eapply Hf; [done|done|done| |done|by left]. by apply (Hks1 k (o, d)).
  - eapply finish_ok; [by apply replyError_ok|by eapply HRw|done|done].
  - eapply Hf; [done|done|by rewrite lookup_insert_eq|done|done|by right].
Qed.
End shapes.

(** Writing the new contents back and answering. *)
Lemma write_reply_ok (R : resp → Database.keyspace → Prop) (db : DB) c k o o' d m r w :
  Database.holds m db → m !! k = Some (o, d) → keyspace_ok (delete k m) → object_ok o' →
  w ⇓ replied c r → R r (<[k := (o', d)]> m) →
  (db2 ← Database.updateObject db k o'; c' ← w; mret (db2, c')) ⇓ outcome R c.
Proof.
  intros [Hwf <-] Hk Hks Ho Hw HR. run_with Database.updateObject_ok; [done|done|]. intros db2 Hh.
  eapply finish_ok; [exact Hw|exact HR|done|]. rewrite <- insert_delete_eq. by apply keyspace_ok_insert.
Qed.

Lemma write_delete_reply_ok (e : Env) (R : resp → Database.keyspace → Prop) (db : DB) c k o o' d m r w (b : bool) :
  Database.holds m db → m !! k = Some (o, d) → keyspace_ok (delete k m) →
  RedisObject.wf o' → (b = false → nonempty o') →
  w ⇓ replied c r → R r (if b then delete k m else <[k := (o', d)]> m) →
  (db2 ← writeOrDelete e db k o' b; c' ← w; mret (db2, c')) ⇓ outcome R c.
Proof.
  intros [Hwf <-] Hk Hks Ho Hne Hw HR.
  assert (Hd : writeOrDelete e db k o' b ⇓
    Database.holds (if b then delete k (Database.view db) else <[k := (o', d)]> (Database.view db))).
  { unfold writeOrDelete. run_with Database.updateObject_ok; [done|done|]. intros db1 [Hw1 Hv1]. destruct b; [|done].
    run_with Database.del_ok; [done|]. intros [x db2] [_ [Hh _]]. apply returns_ok.
    by rewrite Hv1, delete_insert_eq in Hh. }
  eapply returns_bind; [exact Hd|]. intros db2 Hh. eapply finish_ok; [exact Hw|exact HR|done|].
  destruct b; [done|]. rewrite <- insert_delete_eq. apply keyspace_ok_insert; [split; auto|done].
Qed.

(** Run [std::get] on an object whose alternative is known. *)
Ltac open_data :=
  match goal with
  | |- context [std_get ?p ≫= _] =>
      let q := eval cbn in p in
      match q with Some ?x => change (std_get p) with (Ok x) end
  end; rewrite bind_ok.
