(* ===== verification/CmdString.v ===== *)
(** * [cmd/StringCommands]: PING, SET, GET

    src/cmd/StringCommands.cpp. *)
From Stdlib Require Import Ascii String ZArith Lia ZifyNat ZifyBool.
From stdpp Require Import base option list strings gmap.
From S2P Require Import Prelude CStdlib ProtoSerializer NetConnection StoreObject StoreInterfaces StoreDatabase.
From S2P Require Import CmdBase.
Import RedisObject Connection.

Module StringCommands.

Definition cmdPing : handler := λ e db c args,
  c' ← (if bool_decide (length args = 1) then replySimple c (lit "PONG")
        else x ← vec_get args 1; replyBulk c x);
  mret (db, c').

Definition cmdSet : handler := λ e db c args,
  k ← vec_get args 1;
  v ← vec_get args 2;
  db' ← Database.set (platform e) db k v;
  c' ← replySimple c (lit "OK");
  mret (db', c').

Definition cmdGet : handler := λ e db c args,
  k ← vec_get args 1;
  '(entry, db1) ← Database.findEntry (platform e) (clk e 0) db k;
  c' ← match entry with
       | None => replyNull c
       | Some (o, _) =>
           if negb (bool_decide (type o = STRING)) then replyError c WRONGTYPE
           else replyBulk c (asString o)
       end;
  mret (db1, c').

(** ** Specifications *)

Definition spec_ping : command_spec := exactly (λ e m args,
  (if bool_decide (length args = 1) then RSimple (lit "PONG") else RBulk (arg args 1), m)).

Definition spec_set : command_spec := exactly (λ e m args,
  (RSimple (lit "OK"), <[arg args 1 := (createString (arg args 2), (-1)%Z)]> m)).

Definition spec_get : command_spec := exactly (λ e m args,
  let m' := Database.purge (clk e 0) (arg args 1) m in
  (match m' !! arg args 1 with
   | None => RNil
   | Some (o, _) => if bool_decide (type o = STRING) then RBulk (asString o) else RError WRONGTYPE
   end, m')).

Lemma createString_ok v : object_ok (createString v).
Proof. split; [apply createString_wf|]. by destruct (createString_cases v) as [->|(z & -> & _)]. Qed.

Lemma cmdPing_ok : implements cmdPing (λ args, 1 ≤ length args) spec_ping.
Proof.
  intros e db c args He Hwf Hks Hc Hargs. unfold cmdPing. cbn in Hargs.
  eapply finish_ok; [|done|done|done]. case_bool_decide; [by apply replySimple_ok|].
  rewrite vec_get_arg by lia. by apply replyBulk_ok.
Qed.

Lemma cmdSet_ok : implements cmdSet (λ args, length args = 3) spec_set.
Proof.
  intros e db c args He Hwf Hks Hc Hargs. unfold cmdSet. rewrite !vec_get_arg by lia. cbn [mbind result_bind].
  run_with Database.set_ok; [done|]. intros db' [Hh _].
  eapply finish_ok; [by apply replySimple_ok|done|done|]. apply keyspace_ok_insert; [apply createString_ok|done].
Qed.

Lemma cmdGet_ok : implements cmdGet (λ args, length args = 2) spec_get.
Proof.
  intros e db c args He Hwf Hks Hc Hargs. unfold cmdGet. rewrite vec_get_arg by lia. cbn [mbind result_bind].
  run_with Database.findEntry_ok; [done|]. intros [r db'] [-> [Hh _]].
  rewrite <- Database.purge_lookup.
  eapply finish_ok; [|done|exact Hh|by apply keyspace_ok_purge].
  destruct (_ !! arg args 1) as [[o d]|]; [|by apply replyNull_ok].
  case_bool_decide; [by apply replyBulk_ok|by apply replyError_ok].
Qed.

(** PING, SET and GET do what they are specified to do on every database
    and argument vector of their arity: PING echoes, SET replaces the value and
    clears the deadline, GET answers the visible string, nil for a missing or
    expired key, and WRONGTYPE for another type, changing nothing visible. *)
Theorem string_commands_correct :
  implements cmdPing (λ args, 1 ≤ length args) spec_ping ∧
  implements cmdSet (λ args, length args = 3) spec_set ∧
  implements cmdGet (λ args, length args = 2) spec_get.
Proof. split; [apply cmdPing_ok|]. split; [apply cmdSet_ok|apply cmdGet_ok]. Qed.

End StringCommands.
