(* ===== verification/CmdKey.v ===== *)
(** * [cmd/KeyCommands]: DEL, EXISTS, KEYS, EXPIRE, TTL, PEXPIRE, PTTL, DBSIZE, SCAN

    src/cmd/KeyCommands.cpp.  Sums and products on [int64_t] wrap around. *)
From Stdlib Require Import Ascii String ZArith Lia ZifyNat ZifyBool.
From stdpp Require Import base option list strings gmap.
From S2P Require Import Prelude StoreHashTable CStdlib ProtoSerializer NetConnection StoreObject StoreInterfaces StoreDatabase.
From S2P Require Import CmdBase.
Import RedisObject Connection.

Module KeyCommands.

(** The value, or [None] for [false]. *)
Definition parseInteger (s : bytes) : option Z :=
  if bool_decide (s = []) then None
  else
    let r := strtoll s in
    if negb (bool_decide (st_end r = length s)) || st_range r then None else Some (st_value r).

Definition ERR_NOT_INTEGER : bytes := lit "ERR value is not an integer or out of range".

Fixpoint del_loop (e : Env) (db : DB) (ks : list bytes) (count : Z) : result (Z * DB) :=
  match ks with
  | [] => mret (count, db)
  | k :: ks' =>
      '(b, db1) ← Database.del (platform e) db k;
      del_loop e db1 ks' (if b : bool then count + 1 else count)%Z
  end.

Definition cmdDel : handler := λ e db c args,
  '(count, db1) ← del_loop e db (drop 1 args) 0;
  c' ← replyInteger c count;
  mret (db1, c').

Fixpoint exists_loop (e : Env) (i : nat) (db : DB) (ks : list bytes) (count : Z) : result (Z * DB) :=
  match ks with
  | [] => mret (count, db)
  | k :: ks' =>
      '(b, db1) ← Database.exists_ (platform e) (clk e i) db k;
      exists_loop e (i + 1) db1 ks' (if b : bool then count + 1 else count)%Z
  end.

Definition cmdExists : handler := λ e db c args,
  '(count, db1) ← exists_loop e 0 db (drop 1 args) 0;
  c' ← replyInteger c count;
  mret (db1, c').

Definition cmdKeys : handler := λ e db c args,
  '(allKeys, db1) ← Database.keys db;
  c' ← (c1 ← replyHeader c (Z.of_nat (length allKeys)); replyBulks c1 allKeys);
  mret (db1, c').

Definition cmdExpire : handler := λ e db c args,
  s ← vec_get args 2;
  match parseInteger s with
  | None => c' ← replyError c ERR_NOT_INTEGER; mret (db, c')
  | Some seconds =>
      let deadlineMs := wrap_s64 (clk e 0 + wrap_s64 (seconds * 1000)) in
      k ← vec_get args 1;
      '(ok, db1) ← Database.setExpire (platform e) (clk e 1) db k deadlineMs;
      c' ← replyInteger c (if ok : bool then 1 else 0)%Z;
      mret (db1, c')
  end.

Definition cmdPexpire : handler := λ e db c args,
  s ← vec_get args 2;
  match parseInteger s with
  | None => c' ← replyError c ERR_NOT_INTEGER; mret (db, c')
  | Some ms =>
      let deadlineMs := wrap_s64 (clk e 0 + ms) in
      k ← vec_get args 1;
      '(ok, db1) ← Database.setExpire (platform e) (clk e 1) db k deadlineMs;
      c' ← replyInteger c (if ok : bool then 1 else 0)%Z;
      mret (db1, c')
  end.

Definition cmdTtl : handler := λ e db c args,
  k ← vec_get args 1;
  '(remainingMs, db1) ← Database.ttl (clk e 0) (clk e 1) db k;
  c' ← (if (remainingMs =? -1)%Z || (remainingMs =? -2)%Z then replyInteger c remainingMs
        else replyInteger c (Z.quot remainingMs 1000));
  mret (db1, c').

Definition cmdPttl : handler := λ e db c args,
  k ← vec_get args 1;
  '(remainingMs, db1) ← Database.ttl (clk e 0) (clk e 1) db k;
  c' ← replyInteger c remainingMs;
  mret (db1, c').

Definition cmdDbsize : handler := λ e db c args,
  c' ← replyInteger c (Database.dbsize db);
  mret (db, c').

(** [for (size_t i = 2; i + 1 < args.size(); i += 2)]: [None] is a syntax error. *)
Fixpoint scan_options (opts : list bytes) (count : nat) (pattern : bytes) : option (nat * bytes) :=
  match opts with
  | o :: v :: opts' =>
      let option := to_upper o in
      if bool_decide (option = lit "COUNT") then
        match parseInteger v with
        | Some n => if (n <=? 0)%Z then None else scan_options opts' (Z.to_nat n) pattern
        | None => None
        end
      else if bool_decide (option = lit "MATCH") then scan_options opts' count v
      else None
  | _ => Some (count, pattern)
  end.

Definition cmdScan : handler := λ e db c args,
  s ← vec_get args 1;
  match parseInteger s with
  | Some cursorVal =>
      if (cursorVal <? 0)%Z then c' ← replyError c (lit "ERR invalid cursor"); mret (db, c')
      else
        match scan_options (drop 2 args) 10 (lit "*") with
        | None => c' ← replyError c (lit "ERR syntax error"); mret (db, c')
        | Some (count, pattern) =>
            '(nextCursor, ks, db1) ← Database.scan (platform e) (clk e) db (Z.to_nat cursorVal) count pattern;
            c' ← (c1 ← replyHeader c 2;
                  c2 ← replyBulk c1 (to_string (Z.of_nat nextCursor));
                  c3 ← replyHeader c2 (Z.of_nat (length ks));
                  replyBulks c3 ks);
            mret (db1, c')
        end
  | None => c' ← replyError c (lit "ERR invalid cursor"); mret (db, c')
  end.

(** ** Specifications *)

(** DEL removes the named keys and counts how many the table lost. *)
Definition spec_del : command_spec := exactly (λ e m args,
  let m' := filter (λ kx, kx.1 ∉ drop 1 args) m in
  (RInt (Z.of_nat (size m) - Z.of_nat (size m')), m')).

(** EXISTS counts the arguments visible when they are reached, repeated ones
    again; one that has expired is gone from then on. *)
Fixpoint count_live (e : Env) (i : nat) (m : Database.keyspace) (ks : list bytes) : Z :=
  match ks with
  | [] => 0
  | k :: ks' =>
      (if bool_decide (is_Some (Database.live (clk e i) m !! k)) then 1 else 0) +
      count_live e (i + 1) (Database.purge (clk e i) k m) ks'
  end.

Fixpoint purge_all (e : Env) (i : nat) (m : Database.keyspace) (ks : list bytes) : Database.keyspace :=
  match ks with
  | [] => m
  | k :: ks' => purge_all e (i + 1) (Database.purge (clk e i) k m) ks'
  end.

Definition spec_exists : command_spec := exactly (λ e m args,
  (RInt (count_live e 0 m (drop 1 args)), purge_all e 0 m (drop 1 args))).

(** KEYS lists every stored key once, expired or not, whatever the pattern. *)
Definition spec_keys : command_spec := λ e m args r m',
  ∃ ks, NoDup ks ∧ (∀ k, k ∈ ks ↔ is_Some (m !! k)) ∧ r = RBulks ks ∧ m' = m.

(** Setting a deadline on the visible key. *)
Definition expire_at (e : Env) (m : Database.keyspace) (k : bytes) (deadline : Z) : resp * Database.keyspace :=
  let m1 := Database.purge (clk e 1) k m in
  match m1 !! k with
  | Some (o, _) => (RInt 1, <[k := (o, deadline)]> m1)
  | None => (RInt 0, m1)
  end.

Definition spec_expire : command_spec := exactly (λ e m args,
  match parseInteger (arg args 2) with
  | None => (RError ERR_NOT_INTEGER, m)
  | Some s => expire_at e m (arg args 1) (wrap_s64 (clk e 0 + wrap_s64 (s * 1000)))
  end).

Definition spec_pexpire : command_spec := exactly (λ e m args,
  match parseInteger (arg args 2) with
  | None => (RError ERR_NOT_INTEGER, m)
  | Some ms => expire_at e m (arg args 1) (wrap_s64 (clk e 0 + ms))
  end).

(** -2 for a missing key, -1 without a deadline, the remaining milliseconds. *)
Definition remaining (e : Env) (m : Database.keyspace) (k : bytes) : Z :=
  match Database.live (clk e 0) m !! k with
  | Some (_, d) => if d <? 0 then -1 else d - clk e 1
  | None => -2
  end%Z.

Definition spec_pttl : command_spec := exactly (λ e m args,
  (RInt (remaining e m (arg args 1)), Database.purge (clk e 0) (arg args 1) m)).

Definition spec_ttl : command_spec := exactly (λ e m args,
  let r := remaining e m (arg args 1) in
  (RInt (if (r =? -1)%Z || (r =? -2)%Z then r else Z.quot r 1000),
   Database.purge (clk e 0) (arg args 1) m)).

Definition spec_dbsize : command_spec := exactly (λ e m args, (RInt (Z.of_nat (size m)), m)).

(** SCAN: errors for a bad cursor or option; otherwise the next cursor and, of
    the keys [raw] the table's step yields, those visible and matching.  The step
    yields stored keys, none twice; it either yields at least as many as COUNT asks
    for and moves the cursor on, or it answers the cursor 0; when the first step is
    the last, it has yielded every stored key. *)
Definition spec_scan : command_spec := λ e m args r m',
  match parseInteger (arg args 1) with
  | Some cursor =>
      if (cursor <? 0)%Z then r = RError (lit "ERR invalid cursor") ∧ m' = m
      else
        match scan_options (drop 2 args) 10 (lit "*") with
        | None => r = RError (lit "ERR syntax error") ∧ m' = m
        | Some (count, pattern) => ∃ next raw,
            HashTable.page m (Z.to_nat cursor) count next raw ∧
            r = RArray [RBulk (to_string (Z.of_nat next));
                        RBulks (Database.scan_matches (clk e) 0 m raw pattern)] ∧
            m' ⊆ m ∧ (∀ now, (∀ j, clk e j ≤ now)%Z → Database.live now m' = Database.live now m)
        end
  | None => r = RError (lit "ERR invalid cursor") ∧ m' = m
  end.

(** ** Proofs *)

Lemma size_delete (m : Database.keyspace) k :
  Z.of_nat (size (delete k m)) =
    (Z.of_nat (size m) - if bool_decide (is_Some (m !! k)) then 1 else 0)%Z.
Proof.
  case_bool_decide as Hk.
  - destruct Hk as [x Hx]. rewrite map_size_delete_Some by eauto.
    assert (size m ≠ 0) by (intros Hz%map_size_empty_inv; subst m; by rewrite lookup_empty in Hx). lia.
  - rewrite delete_id by by apply eq_None_not_Some. lia.
Qed.

Lemma del_loop_ok e db ks count :
  Database.wf db →
  del_loop e db ks count ⇓ λ '(n, db'),
    Database.holds (filter (λ kx, kx.1 ∉ ks) (Database.view db)) db' ∧
    n = (count + (Z.of_nat (size (Database.view db)) - Z.of_nat (size (Database.view db'))))%Z.
Proof.
  revert db count. induction ks as [|k ks IH]; intros db count Hwf; cbn [del_loop].
  { apply returns_ok. split; [|lia]. split; [done|]. symmetry. apply map_filter_id.
    intros ? ? _. apply not_elem_of_nil. }
  run_with Database.del_ok; [done|]. intros [b db1] [-> [[Hwf1 Hv1] _]].
  eapply returns_mono; [by apply IH|]. intros [n db'] [Hh ->].
  split; [by rewrite Database.filter_keys_cons, <- Hv1|]. rewrite Hv1, size_delete. case_bool_decide; lia.
Qed.

Lemma keyspace_ok_filter (ks : list bytes) m : keyspace_ok m → keyspace_ok (filter (λ kx, kx.1 ∉ ks) m).
Proof. intros Hm k x [Hx _]%map_lookup_filter_Some. by apply (Hm k). Qed.

Lemma keyspace_ok_subseteq m m' : m' ⊆ m → keyspace_ok m → keyspace_ok m'.
Proof. intros Hs Hm k x Hx. apply (Hm k x). by eapply lookup_weaken. Qed.

Lemma cmdDel_ok : implements cmdDel (λ args, 2 ≤ length args) spec_del.
Proof.
  intros e db c args He Hwf Hks Hc _. unfold cmdDel. run_with del_loop_ok; [done|]. intros [n db'] [Hh ->].
  pose proof Hh as [_ Hv]. rewrite Hv.
  eapply finish_ok; [by apply replyInteger_ok|done|exact Hh|by apply keyspace_ok_filter].
Qed.

Lemma exists_loop_ok e i db ks count :
  Database.wf db →
  exists_loop e i db ks count ⇓ λ '(n, db'),
    Database.holds (purge_all e i (Database.view db) ks) db' ∧
    n = (count + count_live e i (Database.view db) ks)%Z.
Proof.
  revert i db count. induction ks as [|k ks IH]; intros i db count Hwf; cbn [exists_loop].
  { apply returns_ok. split; [done|simpl; lia]. }
  run_with Database.exists_ok; [done|]. intros [b db1] [-> [[Hwf1 Hv1] _]].
  eapply returns_mono; [by apply IH|]. intros [n db'] [Hh ->]. cbn [purge_all count_live].
  split; [by rewrite <- Hv1|]. rewrite Hv1. case_bool_decide; lia.
Qed.

Lemma keyspace_ok_purge_all e i m ks : keyspace_ok m → keyspace_ok (purge_all e i m ks).
Proof.
  revert i m. induction ks as [|k ks IH]; intros i m Hm; cbn [purge_all]; [done|].
  by apply IH, keyspace_ok_purge.
Qed.

Lemma cmdExists_ok : implements cmdExists (λ args, 2 ≤ length args) spec_exists.
Proof.
  intros e db c args He Hwf Hks Hc _. unfold cmdExists. run_with exists_loop_ok; [done|]. intros [n db'] [Hh ->].
  eapply finish_ok; [by apply replyInteger_ok|done|exact Hh|by apply keyspace_ok_purge_all].
Qed.

Lemma cmdKeys_ok : implements cmdKeys (λ args, length args = 2) spec_keys.
Proof.
  intros e db c args He Hwf Hks Hc _. unfold cmdKeys. run_with (Database.keys_ok (platform e)); [done|].
  intros [ks db'] (Hnd & Hin & [Hh _]).
  eapply finish_ok; [by apply replyArray_ok|by exists ks|exact Hh|done].
Qed.

Lemma expire_ok e db c k d :
  env_ok e → Database.wf db → keyspace_ok (Database.view db) → out_ok c →
  ('(ok, db1) ← Database.setExpire (platform e) (clk e 1) db k d;
   c' ← replyInteger c (if ok : bool then 1 else 0)%Z;
   mret (db1, c')) ⇓ λ '(db', c'), ∃ r m', (r, m') = expire_at e (Database.view db) k d ∧
    Database.holds m' db' ∧ keyspace_ok m' ∧ replied c r c'.
Proof.
  intros He Hwf Hks Hc. run_with Database.setExpire_ok; [done|]. intros [b db'] [-> [Hh _]].
  unfold expire_at. rewrite Database.purge_lookup.
  pose proof (keyspace_ok_purge (clk e 1) k _ Hks) as Hks'.
  destruct (Database.live (clk e 1) (Database.view db) !! k) as [[o d0]|] eqn:Hl.
  - rewrite bool_decide_true by eauto. rewrite Database.live_lookup in Hl.
    assert (Hp : Database.purge (clk e 1) k (Database.view db) = Database.view db).
    { unfold Database.purge. destruct (Database.view db !! k) as [[o1 d1]|]; [|done].
      by destruct (Database.expired (clk e 1) d1). }
    assert (Ho : Database.view db !! k = Some (o, d0)).
    { destruct (Database.view db !! k) as [[o1 d1]|]; [|done]. by destruct (Database.expired (clk e 1) d1). }
    rewrite Hp. eapply finish_ok; [by apply replyInteger_ok|done|exact Hh|].
    apply keyspace_ok_insert; [|done]. by apply (Hks k (o, d0)).
  - rewrite bool_decide_false by by intros []. eapply finish_ok; [by apply replyInteger_ok|done|exact Hh|done].
Qed.

Lemma cmdExpire_ok : implements cmdExpire (λ args, length args = 3) spec_expire.
Proof.
  intros e db c args He Hwf Hks Hc Hargs. unfold cmdExpire, spec_expire, exactly.
  rewrite !vec_get_arg by lia. cbn [mbind result_bind].
  destruct (parseInteger (arg args 2)); [by apply expire_ok|].
  eapply finish_ok; [by apply replyError_ok|done|done|done].
Qed.

Lemma cmdPexpire_ok : implements cmdPexpire (λ args, length args = 3) spec_pexpire.
Proof.
  intros e db c args He Hwf Hks Hc Hargs. unfold cmdPexpire, spec_pexpire, exactly.
  rewrite !vec_get_arg by lia. cbn [mbind result_bind].
  destruct (parseInteger (arg args 2)); [by apply expire_ok|].
  eapply finish_ok; [by apply replyError_ok|done|done|done].
Qed.

Lemma cmdPttl_ok : implements cmdPttl (λ args, length args = 2) spec_pttl.
Proof.
  intros e db c args He Hwf Hks Hc Hargs. unfold cmdPttl. rewrite vec_get_arg by lia. cbn [mbind result_bind].
  run_with (Database.ttl_ok (platform e)); [done|]. intros [r db'] (-> & Hh & _).
  eapply finish_ok; [by apply replyInteger_ok|done|exact Hh|by apply keyspace_ok_purge].
Qed.

Lemma cmdTtl_ok : implements cmdTtl (λ args, length args = 2) spec_ttl.
Proof.
  intros e db c args He Hwf Hks Hc Hargs. unfold cmdTtl. rewrite vec_get_arg by lia. cbn [mbind result_bind].
  run_with (Database.ttl_ok (platform e)); [done|]. intros [r db'] (-> & Hh & _).
  fold (remaining e (Database.view db) (arg args 1)).
  eapply finish_ok; [|done|exact Hh|by apply keyspace_ok_purge].
  destruct (_ || _); by apply replyInteger_ok.
Qed.

Lemma cmdDbsize_ok : implements cmdDbsize (λ args, length args = 1) spec_dbsize.
Proof.
  intros e db c args He Hwf Hks Hc Hargs. unfold cmdDbsize. rewrite Database.dbsize_ok by done.
  eapply finish_ok; [by apply replyInteger_ok|done|done|done].
Qed.

Lemma cmdScan_ok : implements cmdScan (λ args, 2 ≤ length args) spec_scan.
Proof.
  intros e db c args He Hwf Hks Hc Hargs. cbn in Hargs. unfold cmdScan, spec_scan. rewrite vec_get_arg by lia.
  cbn [mbind result_bind]. destruct (parseInteger (arg args 1)) as [cur|].
  2:{ eapply finish_ok; [by apply replyError_ok|done|done|done]. }
  destruct (cur <? 0)%Z; [eapply finish_ok; [by apply replyError_ok|done|done|done]|].
  destruct (scan_options _ _ _) as [[n pattern]|]; [|eapply finish_ok; [by apply replyError_ok|done|done|done]].
  run_with Database.scan_ok; [done|].
  intros [[next ks] db'] (t & raw & _ & _ & Hraw & -> & Hw & _ & Hsub & Hl).
  eapply finish_ok; [|exists next, raw; split; [exact Hraw|split; [reflexivity|split; [exact Hsub|exact Hl]]]
    |done|by eapply keyspace_ok_subseteq].
  run_with replyHeader_ok; [done|]. intros c1 H1. run_with replyBulk_ok; [apply H1|]. intros c2 H2.
  eapply returns_mono; [apply replyArray_ok; [apply H2|done]|]. intros c3 H3. unfold replied in *.
  pose proof (appended_trans _ _ _ _ _ H1 (appended_trans _ _ _ _ _ H2 H3)) as H4.
  cbn [encode fmap list_fmap mjoin list_join length]. rewrite app_nil_r. exact H4.
Qed.

(** The keyspace commands do what they are specified to do.  DEL removes
    the named keys and answers how many entries that took away; EXISTS counts
    visible keys; KEYS lists each stored key once; EXPIRE and PEXPIRE set the
    deadline of a visible key only and reject what is not an integer; TTL and
    PTTL answer -2, -1 or the time left; DBSIZE counts; SCAN answers a cursor
    and visible matching keys, or an error for a bad cursor or option. *)
Theorem key_commands_correct :
  implements cmdDel (λ args, 2 ≤ length args) spec_del ∧
  implements cmdExists (λ args, 2 ≤ length args) spec_exists ∧
  implements cmdKeys (λ args, length args = 2) spec_keys ∧
  implements cmdExpire (λ args, length args = 3) spec_expire ∧
  implements cmdTtl (λ args, length args = 2) spec_ttl ∧
  implements cmdPexpire (λ args, length args = 3) spec_pexpire ∧
  implements cmdPttl (λ args, length args = 2) spec_pttl ∧
  implements cmdDbsize (λ args, length args = 1) spec_dbsize ∧
  implements cmdScan (λ args, 2 ≤ length args) spec_scan.
Proof.
  split; [apply cmdDel_ok|]. split; [apply cmdExists_ok|]. split; [apply cmdKeys_ok|].
  split; [apply cmdExpire_ok|]. split; [apply cmdTtl_ok|]. split; [apply cmdPexpire_ok|].
  split; [apply cmdPttl_ok|]. split; [apply cmdDbsize_ok|apply cmdScan_ok].
Qed.

End KeyCommands.
