(* ===== verification/CmdList.v ===== *)
(** * [cmd/ListCommands]: LPUSH, RPUSH, LPOP, RPOP, LLEN, LRANGE

    src/cmd/ListCommands.cpp.  A [std::deque] is a list, front first. *)
From Stdlib Require Import Ascii String ZArith Lia ZifyNat ZifyBool.
From stdpp Require Import base option list strings gmap.
From S2P Require Import Prelude CStdlib NetBuffer ProtoSerializer NetConnection StoreSkiplist StoreObject.
From S2P Require Import StoreInterfaces StoreDatabase CmdBase.
Import RedisObject Connection.

Module ListCommands.

(** [list.push_front(args[i])] for each argument in turn. *)
Definition push_front (l : list bytes) (xs : list bytes) : list bytes := foldl (λ l x, x :: l) l xs.
Definition push_back (l : list bytes) (xs : list bytes) : list bytes := foldl (λ l x, l ++ [x]) l xs.

Definition cmdPush (push : list bytes → list bytes → list bytes) : handler := λ e db c args,
  k ← vec_get args 1;
  withNewKey LIST createList e db c k (λ db1 o,
    l ← std_get (get_deque (data o));
    let l' := push l (drop 2 args) in
    db2 ← Database.updateObject db1 k (set_data (DDeque l') o);
    c' ← replyInteger c (Z.of_nat (length l'));
    mret (db2, c')).

Definition cmdLPush : handler := cmdPush push_front.
Definition cmdRPush : handler := cmdPush push_back.

Definition cmdLPop : handler := λ e db c args,
  k ← vec_get args 1;
  withKey LIST e db c k replyNull (λ db1 o,
    l ← std_get (get_deque (data o));
    match l with
    | [] => c' ← replyNull c; mret (db1, c')
    | val :: l' =>
        db2 ← writeOrDelete e db1 k (set_data (DDeque l') o) (bool_decide (l' = []));
        c' ← replyBulk c val;
        mret (db2, c')
    end).

(** The last element and the rest. *)
Definition pop_back (l : list bytes) : option (bytes * list bytes) :=
  match rev l with [] => None | x :: r => Some (x, rev r) end.

Definition cmdRPop : handler := λ e db c args,
  k ← vec_get args 1;
  withKey LIST e db c k replyNull (λ db1 o,
    l ← std_get (get_deque (data o));
    match pop_back l with
    | None => c' ← replyNull c; mret (db1, c')
    | Some (val, l') =>
        db2 ← writeOrDelete e db1 k (set_data (DDeque l') o) (bool_decide (l' = []));
        c' ← replyBulk c val;
        mret (db2, c')
    end).

Definition cmdLLen : handler := λ e db c args,
  k ← vec_get args 1;
  withKey LIST e db c k (λ c, replyInteger c 0) (λ db1 o,
    l ← std_get (get_deque (data o));
    c' ← replyInteger c (Z.of_nat (length l));
    mret (db1, c')).

(** [for (int i = start; i <= stop; ++i) writeBulkString(list[i])], [n] to go. *)
Fixpoint write_range (n i : nat) (l : list bytes) (c : Connection) : result Connection :=
  match n with
  | O => mret c
  | S n' => x ← vec_get l i; c1 ← replyBulk c x; write_range n' (i + 1) l c1
  end.

Definition cmdLRange : handler := λ e db c args,
  k ← vec_get args 1;
  withKey LIST e db c k (λ c, replyHeader c 0) (λ db1 o,
    l ← std_get (get_deque (data o));
    let n := wrap_s32 (Z.of_nat (length l)) in
    a2 ← vec_get args 2;
    start0 ← stoi a2;
    a3 ← vec_get args 3;
    stop0 ← stoi a3;
    let start1 := (if start0 <? 0 then start0 + n else start0)%Z in
    let stop1 := (if stop0 <? 0 then stop0 + n else stop0)%Z in
    let start := (if start1 <? 0 then 0 else start1)%Z in
    let stop := (if n <=? stop1 then n - 1 else stop1)%Z in
    if (stop <? start)%Z || (n <=? start)%Z then c' ← replyHeader c 0; mret (db1, c')
    else
      let count := (stop - start + 1)%Z in
      c' ← (c1 ← replyHeader c count; write_range (Z.to_nat count) (Z.to_nat start) l c1);
      mret (db1, c')).

(** ** Specifications *)

Definition list_obj (l : list bytes) : RedisObject := mkObject LIST LINKEDLIST (DDeque l).

(** What the key holds, seen by a list command. *)
Definition on_list (m : Database.keyspace) (k : bytes) (none : resp * Database.keyspace)
    (some : list bytes → Z → resp * Database.keyspace) : resp * Database.keyspace :=
  match m !! k with
  | None => none
  | Some (o, d) =>
      match type o, data o with
      | LIST, DDeque l => some l d
      | _, _ => (RError WRONGTYPE, m)
      end
  end.

Definition spec_push (push : list bytes → list bytes → list bytes) : command_spec := exactly (λ e m args,
  let k := arg args 1 in
  let m1 := Database.purge (clk e 0) k m in
  let put l d := (RInt (Z.of_nat (length l)), <[k := (list_obj l, d)]> m1) in
  on_list m1 k (put (push [] (drop 2 args)) (-1)%Z) (λ l d, put (push l (drop 2 args)) d)).

(** LPUSH puts the arguments before the list, the last one first. *)
Definition spec_lpush : command_spec := spec_push (λ l xs, rev xs ++ l).
Definition spec_rpush : command_spec := spec_push (λ l xs, l ++ xs).

(** Popping deletes a key whose list becomes empty. *)
Definition spec_pop (pop : list bytes → option (bytes * list bytes)) : command_spec := exactly (λ e m args,
  let k := arg args 1 in
  let m1 := Database.purge (clk e 0) k m in
  on_list m1 k (RNil, m1) (λ l d,
    match pop l with
    | None => (RNil, m1)
    | Some (x, l') => (RBulk x, if bool_decide (l' = []) then delete k m1 else <[k := (list_obj l', d)]> m1)
    end)).

Definition pop_front (l : list bytes) : option (bytes * list bytes) :=
  match l with [] => None | x :: l' => Some (x, l') end.

Definition spec_llen : command_spec := exactly (λ e m args,
  let m1 := Database.purge (clk e 0) (arg args 1) m in
  on_list m1 (arg args 1) (RInt 0, m1) (λ l _, (RInt (Z.of_nat (length l)), m1))).

(** The elements of rank [start .. stop] of [l] seen as having [n] elements. *)
Definition range_n (n : Z) (l : list bytes) (start stop : Z) : list bytes :=
  let first := Z.max 0 (if start <? 0 then start + n else start)%Z in
  let final := Z.min (n - 1) (if stop <? 0 then stop + n else stop)%Z in
  slice (Z.to_nat first) (Z.to_nat (final - first + 1)) l.

(** The length is converted to [int]; below [2^31] elements it is the length. *)
Definition spec_lrange : command_spec := exactly (λ e m args,
  let m1 := Database.purge (clk e 0) (arg args 1) m in
  on_list m1 (arg args 1) (RBulks [], m1) (λ l _,
    match stoi (arg args 2), stoi (arg args 3) with
    | Ok start, Ok stop => (RBulks (range_n (wrap_s32 (Z.of_nat (length l))) l start stop), m1)
    | _, _ => (RNil, m1)
    end)).

(** ** Proofs *)

Lemma push_front_eq l xs : push_front l xs = rev xs ++ l.
Proof.
  revert l. induction xs as [|x xs IH]; intros l; simpl; [done|].
  unfold push_front in *. rewrite IH. by rewrite <- app_assoc.
Qed.

Lemma push_back_eq l xs : push_back l xs = l ++ xs.
Proof.
  revert l. induction xs as [|x xs IH]; intros l; simpl; [by rewrite app_nil_r|].
  unfold push_back in *. rewrite IH. by rewrite <- app_assoc.
Qed.

Lemma on_list_wrong m k o d none some :
  m !! k = Some (o, d) → RedisObject.wf o → type o ≠ LIST → on_list m k none some = (RError WRONGTYPE, m).
Proof. intros Hk Ho Ht. unfold on_list. rewrite Hk. by destruct o as [[] [] []]. Qed.

Lemma cmdPush_ok push pushS :
  (∀ l xs, push l xs = pushS l xs) → (∀ l xs, xs ≠ [] → pushS l xs ≠ []) →
  implements (cmdPush push) (λ args, 3 ≤ length args) (spec_push pushS).
Proof.
  intros Heq Hne e db c args He Hwf Hks Hc Hargs. cbn in Hargs. unfold cmdPush. rewrite vec_get_arg by lia.
  cbn [mbind result_bind]. unfold spec_push, exactly.
  assert (Hxs : drop 2 args ≠ []) by (intros Hn%(f_equal length); rewrite length_drop in Hn; simpl in Hn; lia).
  apply withNewKey_ok; [done|done|done|done|done| |].
  { intros o d Hk Ht. cbn zeta. symmetry. eapply on_list_wrong; [done| |done].
    by apply (keyspace_ok_purge _ _ _ Hks _ _ Hk). }
  intros db1 o d m Hh Hks1 Hk Ho Ht Hor. destruct (object_list o Ho Ht) as [l ->]. open_data.
  rewrite Heq. cbn zeta.
  eapply write_reply_ok; [exact Hh|exact Hk| |by split; [|apply Hne]|by apply replyInteger_ok|].
  - destruct Hor as [[_ ->]|(_ & _ & _ & ->)]; rewrite ?delete_insert_eq; by apply keyspace_ok_delete.
  - unfold on_list. destruct Hor as [[Hm ->]|(Hm & [= ->] & -> & ->)]; rewrite Hm; [done|].
    by rewrite insert_insert_eq.
Qed.

Lemma cmdLPush_ok : implements cmdLPush (λ args, 3 ≤ length args) spec_lpush.
Proof.
  apply cmdPush_ok; [apply push_front_eq|]. intros l xs Hxs Hn. apply app_eq_nil in Hn as [Hr _].
  apply Hxs. by rewrite <- (rev_involutive xs), Hr.
Qed.

Lemma cmdRPush_ok : implements cmdRPush (λ args, 3 ≤ length args) spec_rpush.
Proof. apply cmdPush_ok; [apply push_back_eq|]. intros l xs Hxs Hn. by apply app_eq_nil in Hn as [_ Hr]. Qed.

(** LPOP and RPOP after the type check. *)
Lemma pop_ok (e : Env) (db1 : DB) (c : Connection) (k : bytes) (l : list bytes) (d : Z)
    (m1 : Database.keyspace) (x : bytes) (l' : list bytes) (R : resp → Database.keyspace → Prop) :
  Database.holds m1 db1 → keyspace_ok m1 → m1 !! k = Some (list_obj l, d) → out_ok c →
  R (RBulk x) (if bool_decide (l' = []) then delete k m1 else <[k := (list_obj l', d)]> m1) →
  (db2 ← writeOrDelete e db1 k (set_data (DDeque l') (list_obj l)) (bool_decide (l' = []));
   c' ← replyBulk c x; mret (db2, c')) ⇓ outcome R c.
Proof.
  intros Hh Hks Hk Hc HR.
  eapply write_delete_reply_ok; [exact Hh|exact Hk|by apply keyspace_ok_delete|done| |by apply replyBulk_ok|done].
  intros Hb. cbn. by apply bool_decide_eq_false in Hb.
Qed.

Lemma cmdLPop_ok : implements cmdLPop (λ args, length args = 2) (spec_pop pop_front).
Proof.
  intros e db c args He Hwf Hks Hc Hargs. cbn in Hargs. unfold cmdLPop. rewrite vec_get_arg by lia.
  cbn [mbind result_bind]. unfold spec_pop, exactly. cbn zeta.
  apply withKey_ok with (rm := RNil); [done|done|done|by apply replyNull_ok| | |].
  - intros Hk. unfold on_list. by rewrite Hk.
  - intros o d Hk Ht. symmetry. eapply on_list_wrong; [done| |done].
    by apply (keyspace_ok_purge _ _ _ Hks _ _ Hk).
  - intros db1 o d Hh Hks1 Hk [Ho _] Ht. destruct (object_list o Ho Ht) as [l ->].
    open_data. unfold on_list. rewrite Hk. cbn [type data].
    destruct l as [|x l]; cbn [pop_front]; [eapply finish_ok; [by apply replyNull_ok|done|done|done]|].
    eapply pop_ok; [done|done|exact Hk|done|done].
Qed.

Lemma cmdRPop_ok : implements cmdRPop (λ args, length args = 2) (spec_pop pop_back).
Proof.
  intros e db c args He Hwf Hks Hc Hargs. cbn in Hargs. unfold cmdRPop. rewrite vec_get_arg by lia.
  cbn [mbind result_bind]. unfold spec_pop, exactly. cbn zeta.
  apply withKey_ok with (rm := RNil); [done|done|done|by apply replyNull_ok| | |].
  - intros Hk. unfold on_list. by rewrite Hk.
  - intros o d Hk Ht. symmetry. eapply on_list_wrong; [done| |done].
    by apply (keyspace_ok_purge _ _ _ Hks _ _ Hk).
  - intros db1 o d Hh Hks1 Hk [Ho _] Ht. destruct (object_list o Ho Ht) as [l ->].
    open_data. unfold on_list. rewrite Hk. cbn [type data].
    destruct (pop_back l) as [[x l']|]; [|eapply finish_ok; [by apply replyNull_ok|done|done|done]].
    eapply pop_ok; [done|done|exact Hk|done|done].
Qed.

Lemma cmdLLen_ok : implements cmdLLen (λ args, length args = 2) spec_llen.
Proof.
  intros e db c args He Hwf Hks Hc Hargs. cbn in Hargs. unfold cmdLLen. rewrite vec_get_arg by lia.
  cbn [mbind result_bind]. unfold spec_llen, exactly. cbn zeta.
  apply withKey_ok with (rm := RInt 0); [done|done|done|by apply replyInteger_ok| | |].
  - intros Hk. unfold on_list. by rewrite Hk.
  - intros o d Hk Ht. symmetry. eapply on_list_wrong; [done| |done].
    by apply (keyspace_ok_purge _ _ _ Hks _ _ Hk).
  - intros db1 o d Hh Hks1 Hk [Ho _] Ht. destruct (object_list o Ho Ht) as [l ->].
    open_data. unfold on_list. rewrite Hk. cbn [type data].
    eapply finish_ok; [by apply replyInteger_ok|done|done|done].
Qed.

Lemma write_range_ok n i l c :
  out_ok c → i + n ≤ length l → write_range n i l c ⇓ appended c (enc_bulks (slice i n l)).
Proof.
  revert i c. induction n as [|n IH]; intros i c Hc Hn; cbn [write_range].
  { apply returns_ok. unfold slice. rewrite take_0. split; [by destruct c|]. split; [done|]. by rewrite app_nil_r. }
  destruct (lookup_lt_is_Some_2 l i) as [x Hx]; [lia|]. rewrite (vec_get_ok _ _ _ Hx). cbn [mbind result_bind].
  run_with replyBulk_ok; [done|]. intros c1 H1. eapply returns_mono; [apply IH; [apply H1|lia]|].
  intros c2 H2. pose proof (appended_trans _ _ _ _ _ H1 H2) as H3. unfold slice in *.
  rewrite (drop_S l x i Hx). rewrite firstn_cons, enc_bulks_cons. by rewrite Nat.add_1_r in H3.
Qed.

Lemma cmdLRange_ok :
  implements cmdLRange (λ args, length args = 4 ∧ (∃ i, stoi (arg args 2) = Ok i) ∧ ∃ j, stoi (arg args 3) = Ok j)
    spec_lrange.
Proof.
  intros e db c args He Hwf Hks Hc (Hargs & [i Hi] & [j Hj]). unfold cmdLRange. rewrite !vec_get_arg by lia.
  cbn [mbind result_bind]. unfold spec_lrange, exactly. cbn zeta.
  apply withKey_ok with (rm := RBulks []); [done|done|done|by apply replyEmpty_ok| | |].
  - intros Hk. unfold on_list. by rewrite Hk.
  - intros o d Hk Ht. symmetry. eapply on_list_wrong; [done| |done].
    by apply (keyspace_ok_purge _ _ _ Hks _ _ Hk).
  - intros db1 o d Hh Hks1 Hk [Ho _] Ht. destruct (object_list o Ho Ht) as [l ->].
    open_data. unfold on_list. rewrite Hk. cbn [type data].
    rewrite Hi, Hj. cbn [mbind result_bind]. set (n := wrap_s32 (Z.of_nat (length l))).
    assert (Hn : (n ≤ Z.of_nat (length l))%Z).
    { unfold n, wrap_s32. pose proof (Z.mod_le (Z.of_nat (length l) + 2 ^ 31) (2 ^ 32)). lia. }
    clearbody n. unfold range_n.
    set (a := if (i <? 0)%Z then (i + n)%Z else i). set (b := if (j <? 0)%Z then (j + n)%Z else j).
    replace (if (a <? 0)%Z then 0%Z else a) with (Z.max 0 a) by (destruct (Z.ltb_spec a 0); lia).
    replace (if (n <=? b)%Z then (n - 1)%Z else b) with (Z.min (n - 1) b) by (destruct (Z.leb_spec n b); lia).
    set (f := Z.max 0 a). set (g := Z.min (n - 1) b).
    destruct ((g <? f)%Z || (n <=? f)%Z) eqn:Hor.
    + eapply finish_ok; [by apply replyEmpty_ok| |done|done]. replace (Z.to_nat (g - f + 1)) with 0 by lia.
      unfold slice. by rewrite take_0.
    + eapply finish_ok; [|done|done|done]. run_with replyHeader_ok; [done|]. intros c1 H1.
      eapply returns_mono; [apply write_range_ok; [apply H1|lia]|]. intros c2 H2. unfold replied.
      rewrite encode_bulks, length_slice by lia. rewrite Z2Nat.id by lia. by eapply appended_trans.
Qed.

(** The list commands do what they are specified to do.  LPUSH and RPUSH
    create the list when needed, keep an existing deadline and answer the new
    length; LPOP and RPOP answer the end element and delete the key with its last
    element, so that no empty list is ever stored; LLEN counts; LRANGE answers
    the ranks asked for, negative ones counted from the end, clamped; all answer
    WRONGTYPE, changing nothing, on a key of another type. *)
Theorem list_commands_correct :
  implements cmdLPush (λ args, 3 ≤ length args) spec_lpush ∧
  implements cmdRPush (λ args, 3 ≤ length args) spec_rpush ∧
  implements cmdLPop (λ args, length args = 2) (spec_pop pop_front) ∧
  implements cmdRPop (λ args, length args = 2) (spec_pop pop_back) ∧
  implements cmdLLen (λ args, length args = 2) spec_llen ∧
  implements cmdLRange (λ args, length args = 4 ∧ (∃ i, stoi (arg args 2) = Ok i) ∧ ∃ j, stoi (arg args 3) = Ok j)
    spec_lrange.
Proof.
  split; [apply cmdLPush_ok|]. split; [apply cmdRPush_ok|]. split; [apply cmdLPop_ok|].
  split; [apply cmdRPop_ok|]. split; [apply cmdLLen_ok|apply cmdLRange_ok].
Qed.

(** An index that is not an integer is not answered with an error: the
    exception of [std::stoi] leaves the handler, and nothing above it catches
    exceptions. *)
Theorem lrange_bad_index_escapes (e : Env) (db : DB) (c : Connection) (args : list bytes)
    (l : list bytes) (d : Z) (f : fault) :
  Database.wf db → length args = 4 →
  Database.live (clk e 0) (Database.view db) !! arg args 1 = Some (list_obj l, d) →
  stoi (arg args 2) = Fault f →
  cmdLRange e db c args = Fault f.
Proof.
  intros Hwf Hargs Hl Hf. unfold cmdLRange, withKey. rewrite !vec_get_arg by lia. cbn [mbind result_bind].
  pose proof (openKey_ok LIST e db (arg args 1) Hwf) as Hopen.
  destruct (openKey LIST e db (arg args 1)) as [[t db1]|]; [|done]. destruct Hopen as [[_ Hv] ->].
  cbn [mbind result_bind]. unfold target_of. rewrite Hv, Database.purge_lookup, Hl. cbn -[stoi wrap_s32].
  by rewrite Hf.
Qed.

(** ** Witness *)

Definition one_list : DB :=
  match Database.run_op Database.linux64 0 Database.empty
          (Database.Upsert (lit "l") (list_obj [lit "a"]) (λ o, o)) with
  | Ok db => db
  | Fault _ => Database.empty
  end.

Lemma one_list_wf : Database.wf one_list.
Proof.
  unfold one_list. pose proof (Database.db_run_op_ok Database.linux64 0 Database.empty
    (Database.Upsert (lit "l") (list_obj [lit "a"]) (λ o, o)) (proj1 (Database.empty_ok Database.linux64)) eq_refl) as Hr.
  destruct (Database.run_op _ _ _ _) as [db|]; [apply Hr|done].
Qed.

Definition plain_env : Env := mkEnv Database.linux64 (λ _, 0%Z) (λ _, 1%Z) map_to_list elements (λ _, true).

Lemma lrange_bad_index_escapes_witness :
  cmdLRange plain_env one_list (Connection.create 7 0) [lit "LRANGE"; lit "l"; lit "x"; lit "1"]
    = Fault InvalidArgument.
Proof.
  apply (lrange_bad_index_escapes plain_env one_list (Connection.create 7 0)
    [lit "LRANGE"; lit "l"; lit "x"; lit "1"] [lit "a"] (-1) InvalidArgument one_list_wf);
    vm_compute; reflexivity.
Defined.

End ListCommands.
