(* ===== verification/CmdHash.v ===== *)
(** * [cmd/HashCommands]: HSET, HGET, HDEL, HGETALL, HLEN

    src/cmd/HashCommands.cpp.  The [std::unordered_map] of a hash is a finite map;
    HGETALL traverses it in the order the environment gives. *)
From Stdlib Require Import Ascii String ZArith Lia ZifyNat ZifyBool.
From stdpp Require Import base option list strings gmap.
From S2P Require Import Prelude CStdlib NetBuffer ProtoSerializer NetConnection StoreObject StoreInterfaces.
From S2P Require Import StoreDatabase CmdBase.
Import RedisObject Connection.

Module HashCommands.

Definition ERR_HSET : bytes := lit "ERR wrong number of arguments for 'hset' command".

(** [for (size_t i = 2; i < args.size(); i += 2)]: [emplace], counting the new
    fields and overwriting the old ones. *)
Fixpoint hset_loop (fvs : list bytes) (h : gmap bytes bytes) (added : Z) : result (Z * gmap bytes bytes) :=
  match fvs with
  | [] => mret (added, h)
  | [_] => Fault OutOfBounds
  | f :: v :: fvs' =>
      hset_loop fvs' (<[f := v]> h) (match h !! f with None => added + 1 | Some _ => added end)%Z
  end.

Definition cmdHSet : handler := λ e db c args,
  if negb (bool_decide ((length args - 2) mod 2 = 0)) then
    c' ← replyError c ERR_HSET; mret (db, c')
  else
    k ← vec_get args 1;
    withNewKey HASH createHash e db c k (λ db1 o,
      h ← std_get (get_map (data o));
      '(added, h') ← hset_loop (drop 2 args) h 0;
      db2 ← Database.updateObject db1 k (set_data (DMap h') o);
      c' ← replyInteger c added;
      mret (db2, c')).

Definition cmdHGet : handler := λ e db c args,
  k ← vec_get args 1;
  withKey HASH e db c k replyNull (λ db1 o,
    h ← std_get (get_map (data o));
    f ← vec_get args 2;
    c' ← match h !! f with None => replyNull c | Some v => replyBulk c v end;
    mret (db1, c')).

(** [removed += hash.erase(args[i])] *)
Fixpoint hdel_loop (fs : list bytes) (h : gmap bytes bytes) (removed : Z) : Z * gmap bytes bytes :=
  match fs with
  | [] => (removed, h)
  | f :: fs' => hdel_loop fs' (delete f h) (match h !! f with None => removed | Some _ => removed + 1 end)%Z
  end.

Definition cmdHDel : handler := λ e db c args,
  k ← vec_get args 1;
  withKey HASH e db c k (λ c, replyInteger c 0) (λ db1 o,
    h ← std_get (get_map (data o));
    let '(removed, h') := hdel_loop (drop 2 args) h 0 in
    db2 ← writeOrDelete e db1 k (set_data (DMap h') o) (bool_decide (h' = ∅));
    c' ← replyInteger c removed;
    mret (db2, c')).

(** Field, value, field, value, ... *)
Definition flatten (fvs : list (bytes * bytes)) : list bytes := mjoin ((λ fv, [fv.1; fv.2]) <$> fvs).

Definition cmdHGetAll : handler := λ e db c args,
  k ← vec_get args 1;
  withKey HASH e db c k (λ c, replyHeader c 0) (λ db1 o,
    h ← std_get (get_map (data o));
    c' ← (c1 ← replyHeader c (Z.of_nat (size h * 2)); replyBulks c1 (flatten (iter_map e h)));
    mret (db1, c')).

Definition cmdHLen : handler := λ e db c args,
  k ← vec_get args 1;
  withKey HASH e db c k (λ c, replyInteger c 0) (λ db1 o,
    h ← std_get (get_map (data o));
    c' ← replyInteger c (Z.of_nat (size h));
    mret (db1, c')).

(** ** Specifications *)

Definition hash_obj (h : gmap bytes bytes) : RedisObject := mkObject HASH HASHTABLE (DMap h).

(** What the key holds, seen by a hash command. *)
Definition on_hash {A : Type} (m : Database.keyspace) (k : bytes) (none wrong : A) (some : gmap bytes bytes → Z → A) : A :=
  match m !! k with
  | None => none
  | Some (o, d) => match type o, data o with HASH, DMap h => some h d | _, _ => wrong end
  end.

(** The arguments as field-value pairs. *)
Fixpoint pairs (fvs : list bytes) : list (bytes * bytes) :=
  match fvs with f :: v :: fvs' => (f, v) :: pairs fvs' | _ => [] end.

Definition put_all (h : gmap bytes bytes) (fvs : list (bytes * bytes)) : gmap bytes bytes :=
  foldl (λ h fv, <[fv.1 := fv.2]> h) h fvs.

(** HSET writes every pair, later ones over earlier ones, and answers how many
    fields the hash gained. *)
Definition spec_hset : command_spec := exactly (λ e m args,
  if negb (bool_decide ((length args - 2) mod 2 = 0)) then (RError ERR_HSET, m)
  else
    let k := arg args 1 in
    let m1 := Database.purge (clk e 0) k m in
    let put h d :=
      let h' := put_all h (pairs (drop 2 args)) in
      (RInt (Z.of_nat (size h') - Z.of_nat (size h)), <[k := (hash_obj h', d)]> m1) in
    on_hash m1 k (put ∅ (-1)%Z) (RError WRONGTYPE, m1) put).

Definition spec_hget : command_spec := exactly (λ e m args,
  let m1 := Database.purge (clk e 0) (arg args 1) m in
  on_hash m1 (arg args 1) (RNil, m1) (RError WRONGTYPE, m1) (λ h _,
    (match h !! arg args 2 with None => RNil | Some v => RBulk v end, m1))).

(** HDEL removes the named fields and the key with the last field. *)
Definition spec_hdel : command_spec := exactly (λ e m args,
  let k := arg args 1 in
  let m1 := Database.purge (clk e 0) k m in
  on_hash m1 k (RInt 0, m1) (RError WRONGTYPE, m1) (λ h d,
    let h' := filter (λ fv, fv.1 ∉ drop 2 args) h in
    (RInt (Z.of_nat (size h) - Z.of_nat (size h')),
     if bool_decide (h' = ∅) then delete k m1 else <[k := (hash_obj h', d)]> m1))).

(** HGETALL answers every field with its value, once, in some order. *)
Definition spec_hgetall : command_spec := λ e m args r m',
  m' = Database.purge (clk e 0) (arg args 1) m ∧
  on_hash m' (arg args 1) (r = RBulks []) (r = RError WRONGTYPE)
    (λ h _, ∃ fvs, fvs ≡ₚ map_to_list h ∧ r = RBulks (flatten fvs)).

Definition spec_hlen : command_spec := exactly (λ e m args,
  let m1 := Database.purge (clk e 0) (arg args 1) m in
  on_hash m1 (arg args 1) (RInt 0, m1) (RError WRONGTYPE, m1) (λ h _, (RInt (Z.of_nat (size h)), m1))).

(** ** Proofs *)

Lemma on_hash_wrong {A : Type} (m : Database.keyspace) (k : bytes) o (d : Z) (none wrong : A) some :
  m !! k = Some (o, d) → RedisObject.wf o → type o ≠ HASH → on_hash m k none wrong some = wrong.
Proof. intros Hk Ho Ht. unfold on_hash. rewrite Hk. by destruct o as [[] [] []]. Qed.

Lemma size_insert (h : gmap bytes bytes) f v :
  Z.of_nat (size (<[f := v]> h)) = (Z.of_nat (size h) + match h !! f with None => 1 | Some _ => 0 end)%Z.
Proof.
  destruct (h !! f) as [x|] eqn:Hf.
  - rewrite map_size_insert_Some by eauto. lia.
  - rewrite map_size_insert_None by done. lia.
Qed.

Lemma even_pairs (fvs : list bytes) : length fvs mod 2 = 0 → fvs = [] ∨ ∃ f v fvs', fvs = f :: v :: fvs' ∧ length fvs' mod 2 = 0.
Proof.
  destruct fvs as [|f [|v fvs]]; [by left|done|]. intros Hm. right. exists f, v, fvs. split; [done|].
  simpl length in Hm. replace (S (S (length fvs))) with (length fvs + 1 * 2) in Hm by lia.
  by rewrite Nat.Div0.mod_add in Hm.
Qed.

Lemma hset_loop_ok n fvs h added :
  length fvs ≤ n → length fvs mod 2 = 0 →
  hset_loop fvs h added = Ok ((added + (Z.of_nat (size (put_all h (pairs fvs))) - Z.of_nat (size h)))%Z,
    put_all h (pairs fvs)).
Proof.
  revert fvs h added. induction n as [|n IH]; intros fvs h added Hn Hm.
  { destruct fvs; [|simpl in Hn; lia]. cbn. do 2 f_equal. lia. }
  destruct (even_pairs fvs Hm) as [->|(f & v & fvs' & -> & Hm')]; [cbn; do 2 f_equal; lia|].
  cbn [hset_loop pairs put_all foldl fst snd]. rewrite IH; [|simpl in Hn; lia|done].
  fold (put_all (<[f := v]> h) (pairs fvs')). rewrite size_insert. do 2 f_equal.
  destruct (h !! f); lia.
Qed.

Lemma put_all_nonempty h fvs : fvs ≠ [] → put_all h fvs ≠ ∅.
Proof.
  intros Hne. assert (Hk : ∀ h f, is_Some (h !! f) → is_Some (put_all h fvs !! f)).
  { clear. induction fvs as [|[f0 v0] fvs IH]; intros h f Hf; [done|]. apply (IH (<[f0 := v0]> h)).
    destruct (decide (f = f0)) as [->|]; [rewrite lookup_insert_eq; eauto|by rewrite lookup_insert_ne]. }
  destruct fvs as [|[f v] fvs]; [done|]. intros He.
  assert (Hs : is_Some (put_all h ((f, v) :: fvs) !! f)).
  { cbn. clear He Hne Hk. revert h f v. induction fvs as [|[f0 v0] fvs IH]; intros h f v; cbn.
    - rewrite lookup_insert_eq. eauto.
    - destruct (decide (f = f0)) as [->|Hn]; [apply IH|]. rewrite insert_insert_ne by done. apply IH. }
  rewrite He, lookup_empty in Hs. by destruct Hs.
Qed.

Lemma cmdHSet_ok : implements cmdHSet (λ args, 4 ≤ length args) spec_hset.
Proof.
  intros e db c args He Hwf Hks Hc Hargs. cbn in Hargs. unfold cmdHSet, spec_hset, exactly. cbn zeta.
  case_bool_decide as Hm; cbn [negb]; [|eapply finish_ok; [by apply replyError_ok|done|done|done]].
  rewrite vec_get_arg by lia. cbn [mbind result_bind].
  assert (Hm' : length (drop 2 args) mod 2 = 0) by by rewrite length_drop.
  assert (Hne : pairs (drop 2 args) ≠ []).
  { destruct args as [|? [|? [|? [|? args]]]]; simpl in Hargs; (lia || done). }
  apply withNewKey_ok; [done|done|done|done|done| |].
  { intros o d Hk Ht. symmetry. eapply on_hash_wrong; [done| |done].
    by apply (keyspace_ok_purge _ _ _ Hks _ _ Hk). }
  intros db1 o d m Hh Hks1 Hk Ho Ht Hor. destruct (object_hash o Ho Ht) as [h ->]. open_data.
  rewrite (hset_loop_ok (length (drop 2 args))) by done. rewrite bind_ok.
  eapply write_reply_ok; [exact Hh|exact Hk| |split; [done|by apply put_all_nonempty]|by apply replyInteger_ok|].
  - destruct Hor as [[_ ->]|(_ & _ & _ & ->)]; rewrite ?delete_insert_eq; by apply keyspace_ok_delete.
  - unfold on_hash. destruct Hor as [[Hm1 ->]|(Hm1 & [= ->] & -> & ->)]; rewrite Hm1; [done|].
    by rewrite insert_insert_eq.
Qed.

Lemma hdel_loop_ok (fs : list bytes) (h : gmap bytes bytes) (removed : Z) :
  hdel_loop fs h removed =
    ((removed + (Z.of_nat (size h) - Z.of_nat (size (filter (λ fv, fv.1 ∉ fs) h))))%Z,
     filter (λ fv, fv.1 ∉ fs) h).
Proof.
  revert h removed. induction fs as [|f fs IH]; intros h removed; cbn [hdel_loop].
  { rewrite map_filter_id by (intros; apply not_elem_of_nil). f_equal. lia. }
  rewrite IH, Database.filter_keys_cons. f_equal. destruct (h !! f) as [x|] eqn:Hf.
  - rewrite map_size_delete_Some by eauto.
    assert (size h ≠ 0) by (intros Hz%map_size_empty_inv; subst h; by rewrite lookup_empty in Hf). lia.
  - rewrite (delete_id h f) by done. lia.
Qed.

Lemma cmdHDel_ok : implements cmdHDel (λ args, 3 ≤ length args) spec_hdel.
Proof.
  intros e db c args He Hwf Hks Hc Hargs. cbn in Hargs. unfold cmdHDel. rewrite vec_get_arg by lia.
  cbn [mbind result_bind]. unfold spec_hdel, exactly. cbn zeta.
  apply withKey_ok with (rm := RInt 0); [done|done|done|by apply replyInteger_ok| | |].
  - intros Hk. unfold on_hash. by rewrite Hk.
  - intros o d Hk Ht. symmetry. eapply on_hash_wrong; [done| |done].
    by apply (keyspace_ok_purge _ _ _ Hks _ _ Hk).
  - intros db1 o d Hh Hks1 Hk [Ho _] Ht. destruct (object_hash o Ho Ht) as [h ->]. open_data.
    rewrite hdel_loop_ok.
    eapply write_delete_reply_ok; [exact Hh|exact Hk|by apply keyspace_ok_delete|done| |by apply replyInteger_ok|].
    + intros Hb. cbn. by apply bool_decide_eq_false in Hb.
    + unfold on_hash. by rewrite Hk.
Qed.

Lemma cmdHGet_ok : implements cmdHGet (λ args, length args = 3) spec_hget.
Proof.
  intros e db c args He Hwf Hks Hc Hargs. cbn in Hargs. unfold cmdHGet. rewrite !vec_get_arg by lia.
  cbn [mbind result_bind]. unfold spec_hget, exactly. cbn zeta.
  apply withKey_ok with (rm := RNil); [done|done|done|by apply replyNull_ok| | |].
  - intros Hk. unfold on_hash. by rewrite Hk.
  - intros o d Hk Ht. symmetry. eapply on_hash_wrong; [done| |done].
    by apply (keyspace_ok_purge _ _ _ Hks _ _ Hk).
  - intros db1 o d Hh Hks1 Hk [Ho _] Ht. destruct (object_hash o Ho Ht) as [h ->]. open_data.
    unfold on_hash. rewrite Hk. cbn [type data mbind result_bind].
    eapply finish_ok; [|done|done|done]. destruct (h !! arg args 2); [by apply replyBulk_ok|by apply replyNull_ok].
Qed.

Lemma length_flatten fvs : length (flatten fvs) = length fvs * 2.
Proof.
  induction fvs as [|fv fvs IH]; [done|]. change (flatten (fv :: fvs)) with ([fv.1; fv.2] ++ flatten fvs).
  rewrite length_app, IH. simpl. lia.
Qed.

Lemma cmdHGetAll_ok : implements cmdHGetAll (λ args, length args = 2) spec_hgetall.
Proof.
  intros e db c args He Hwf Hks Hc Hargs. cbn in Hargs. unfold cmdHGetAll. rewrite vec_get_arg by lia.
  cbn [mbind result_bind]. unfold spec_hgetall.
  apply withKey_ok with (rm := RBulks []); [done|done|done|by apply replyEmpty_ok| | |].
  - intros Hk. split; [done|]. unfold on_hash. by rewrite Hk.
  - intros o d Hk Ht. split; [done|]. erewrite on_hash_wrong; [done|done| |done].
    by apply (keyspace_ok_purge _ _ _ Hks _ _ Hk).
  - intros db1 o d Hh Hks1 Hk [Ho _] Ht. destruct (object_hash o Ho Ht) as [h ->]. open_data.
    eapply finish_ok; [apply replyArray_ok; [done|]| |exact Hh|done].
    + rewrite length_flatten, (iter_map_perm e He), length_map_to_list. done.
    + split; [done|]. unfold on_hash. rewrite Hk. cbn [type data]. eexists. split; [|done]. by apply iter_map_perm.
Qed.

Lemma cmdHLen_ok : implements cmdHLen (λ args, length args = 2) spec_hlen.
Proof.
  intros e db c args He Hwf Hks Hc Hargs. cbn in Hargs. unfold cmdHLen. rewrite vec_get_arg by lia.
  cbn [mbind result_bind]. unfold spec_hlen, exactly. cbn zeta.
  apply withKey_ok with (rm := RInt 0); [done|done|done|by apply replyInteger_ok| | |].
  - intros Hk. unfold on_hash. by rewrite Hk.
  - intros o d Hk Ht. symmetry. eapply on_hash_wrong; [done| |done].
    by apply (keyspace_ok_purge _ _ _ Hks _ _ Hk).
  - intros db1 o d Hh Hks1 Hk [Ho _] Ht. destruct (object_hash o Ho Ht) as [h ->]. open_data.
    unfold on_hash. rewrite Hk. cbn [type data].
    eapply finish_ok; [by apply replyInteger_ok|done|done|done].
Qed.

(** The hash commands do what they are specified to do.  HSET rejects an
    odd number of field arguments before touching anything, creates the hash when
    needed, keeps its deadline, and answers how many fields are new; HGET answers
    the field or nil; HDEL answers how many fields it removed and deletes the key
    with the last one, so that no empty hash is ever stored; HGETALL answers every
    pair once; HLEN counts; all answer WRONGTYPE on a key of another type. *)
Theorem hash_commands_correct :
  implements cmdHSet (λ args, 4 ≤ length args) spec_hset ∧
  implements cmdHGet (λ args, length args = 3) spec_hget ∧
  implements cmdHDel (λ args, 3 ≤ length args) spec_hdel ∧
  implements cmdHGetAll (λ args, length args = 2) spec_hgetall ∧
  implements cmdHLen (λ args, length args = 2) spec_hlen.
Proof.
  split; [apply cmdHSet_ok|]. split; [apply cmdHGet_ok|]. split; [apply cmdHDel_ok|].
  split; [apply cmdHGetAll_ok|apply cmdHLen_ok].
Qed.

End HashCommands.
