(* ===== verification/CmdSet.v ===== *)
(** * [cmd/SetCommands]: SADD, SREM, SISMEMBER, SMEMBERS, SCARD

    src/cmd/SetCommands.cpp.  The [std::unordered_set] of a set is a finite set;
    SMEMBERS traverses it in the order the environment gives. *)
From Stdlib Require Import Ascii String ZArith Lia ZifyNat ZifyBool.
From stdpp Require Import base option list strings gmap fin_sets.
From S2P Require Import Prelude CStdlib NetBuffer ProtoSerializer NetConnection StoreObject StoreInterfaces.
From S2P Require Import StoreDatabase CmdBase.
Import RedisObject Connection.

Module SetCommands.

(** [if (set.insert(args[i]).second) ++added;] *)
Fixpoint sadd_loop (xs : list bytes) (s : gset bytes) (added : Z) : Z * gset bytes :=
  match xs with
  | [] => (added, s)
  | x :: xs' => sadd_loop xs' ({[ x ]} ∪ s) (if bool_decide (x ∈ s) then added else added + 1)%Z
  end.

Definition cmdSAdd : handler := λ e db c args,
  k ← vec_get args 1;
  withNewKey SET createSet e db c k (λ db1 o,
    s ← std_get (get_set (data o));
    let '(added, s') := sadd_loop (drop 2 args) s 0 in
    db2 ← Database.updateObject db1 k (set_data (DSet s') o);
    c' ← replyInteger c added;
    mret (db2, c')).

(** [removed += set.erase(args[i])] *)
Fixpoint srem_loop (xs : list bytes) (s : gset bytes) (removed : Z) : Z * gset bytes :=
  match xs with
  | [] => (removed, s)
  | x :: xs' => srem_loop xs' (s ∖ {[ x ]}) (if bool_decide (x ∈ s) then removed + 1 else removed)%Z
  end.

Definition cmdSRem : handler := λ e db c args,
  k ← vec_get args 1;
  withKey SET e db c k (λ c, replyInteger c 0) (λ db1 o,
    s ← std_get (get_set (data o));
    let '(removed, s') := srem_loop (drop 2 args) s 0 in
    db2 ← writeOrDelete e db1 k (set_data (DSet s') o) (bool_decide (s' = ∅));
    c' ← replyInteger c removed;
    mret (db2, c')).

Definition cmdSIsMember : handler := λ e db c args,
  k ← vec_get args 1;
  withKey SET e db c k (λ c, replyInteger c 0) (λ db1 o,
    s ← std_get (get_set (data o));
    x ← vec_get args 2;
    c' ← replyInteger c (if bool_decide (x ∈ s) then 1 else 0)%Z;
    mret (db1, c')).

Definition cmdSMembers : handler := λ e db c args,
  k ← vec_get args 1;
  withKey SET e db c k (λ c, replyHeader c 0) (λ db1 o,
    s ← std_get (get_set (data o));
    c' ← (c1 ← replyHeader c (Z.of_nat (size s)); replyBulks c1 (iter_set e s));
    mret (db1, c')).

Definition cmdSCard : handler := λ e db c args,
  k ← vec_get args 1;
  withKey SET e db c k (λ c, replyInteger c 0) (λ db1 o,
    s ← std_get (get_set (data o));
    c' ← replyInteger c (Z.of_nat (size s));
    mret (db1, c')).

(** ** Specifications *)

Definition set_obj (s : gset bytes) : RedisObject := mkObject SET HASHTABLE (DSet s).

(** What the key holds, seen by a set command. *)
Definition on_set {A : Type} (m : Database.keyspace) (k : bytes) (none wrong : A) (some : gset bytes → Z → A) : A :=
  match m !! k with
  | None => none
  | Some (o, d) => match type o, data o with SET, DSet s => some s d | _, _ => wrong end
  end.

(** SADD is union with the arguments, and answers by how much the set grew. *)
Definition spec_sadd : command_spec := exactly (λ e m args,
  let k := arg args 1 in
  let m1 := Database.purge (clk e 0) k m in
  let put s d :=
    let s' := s ∪ list_to_set (drop 2 args) in
    (RInt (Z.of_nat (size s') - Z.of_nat (size s)), <[k := (set_obj s', d)]> m1) in
  on_set m1 k (put ∅ (-1)%Z) (RError WRONGTYPE, m1) put).

(** SREM is difference, and deletes the key with the last member. *)
Definition spec_srem : command_spec := exactly (λ e m args,
  let k := arg args 1 in
  let m1 := Database.purge (clk e 0) k m in
  on_set m1 k (RInt 0, m1) (RError WRONGTYPE, m1) (λ s d,
    let s' := s ∖ list_to_set (drop 2 args) in
    (RInt (Z.of_nat (size s) - Z.of_nat (size s')),
     if bool_decide (s' = ∅) then delete k m1 else <[k := (set_obj s', d)]> m1))).

Definition spec_sismember : command_spec := exactly (λ e m args,
  let m1 := Database.purge (clk e 0) (arg args 1) m in
  on_set m1 (arg args 1) (RInt 0, m1) (RError WRONGTYPE, m1) (λ s _,
    (RInt (if bool_decide (arg args 2 ∈ s) then 1 else 0), m1))).

(** SMEMBERS answers every member once, in some order. *)
Definition spec_smembers : command_spec := λ e m args r m',
  m' = Database.purge (clk e 0) (arg args 1) m ∧
  on_set m' (arg args 1) (r = RBulks []) (r = RError WRONGTYPE)
    (λ s _, ∃ xs, xs ≡ₚ elements s ∧ r = RBulks xs).

Definition spec_scard : command_spec := exactly (λ e m args,
  let m1 := Database.purge (clk e 0) (arg args 1) m in
  on_set m1 (arg args 1) (RInt 0, m1) (RError WRONGTYPE, m1) (λ s _, (RInt (Z.of_nat (size s)), m1))).

(** ** Proofs *)

Lemma on_set_wrong {A : Type} (m : Database.keyspace) (k : bytes) o (d : Z) (none wrong : A) some :
  m !! k = Some (o, d) → RedisObject.wf o → type o ≠ SET → on_set m k none wrong some = wrong.
Proof. intros Hk Ho Ht. unfold on_set. rewrite Hk. by destruct o as [[] [] []]. Qed.

Lemma sadd_loop_ok (xs : list bytes) (s : gset bytes) (added : Z) :
  sadd_loop xs s added =
    ((added + (Z.of_nat (size (s ∪ list_to_set xs)) - Z.of_nat (size s)))%Z, s ∪ list_to_set xs).
Proof.
  revert s added. induction xs as [|x xs IH]; intros s added; cbn [sadd_loop].
  { rewrite list_to_set_nil, union_empty_r_L. f_equal. lia. }
  rewrite IH, list_to_set_cons. replace ({[x]} ∪ s ∪ list_to_set xs) with (s ∪ ({[x]} ∪ list_to_set xs)) by set_solver.
  f_equal. case_bool_decide as Hx.
  - replace ({[x]} ∪ s) with s by set_solver. lia.
  - rewrite (size_union {[x]} s) by set_solver. rewrite size_singleton. lia.
Qed.

Lemma srem_loop_ok (xs : list bytes) (s : gset bytes) (removed : Z) :
  srem_loop xs s removed =
    ((removed + (Z.of_nat (size s) - Z.of_nat (size (s ∖ list_to_set xs))))%Z, s ∖ list_to_set xs).
Proof.
  revert s removed. induction xs as [|x xs IH]; intros s removed; cbn [srem_loop].
  { rewrite list_to_set_nil, difference_empty_L. f_equal. lia. }
  rewrite IH, list_to_set_cons. replace (s ∖ {[x]} ∖ list_to_set xs) with (s ∖ ({[x]} ∪ list_to_set xs)) by set_solver.
  f_equal. case_bool_decide as Hx.
  - assert (size s = size (s ∖ {[x]}) + 1); [|lia].
    rewrite <- (size_singleton (C := gset bytes) x), <- size_union by set_solver. f_equal.
    apply set_eq. intros y. destruct (decide (y = x)); set_solver.
  - replace (s ∖ {[x]}) with s by set_solver. lia.
Qed.

Lemma cmdSAdd_ok : implements cmdSAdd (λ args, 3 ≤ length args) spec_sadd.
Proof.
  intros e db c args He Hwf Hks Hc Hargs. cbn in Hargs. unfold cmdSAdd, spec_sadd, exactly. cbn zeta.
  rewrite vec_get_arg by lia. cbn [mbind result_bind].
  assert (Hne : ∀ s : gset bytes, s ∪ list_to_set (drop 2 args) ≠ ∅).
  { destruct args as [|? [|? [|x args]]]; simpl in Hargs; try lia. simpl. set_solver. }
  apply withNewKey_ok; [done|done|done|done|done| |].
  { intros o d Hk Ht. symmetry. eapply on_set_wrong; [done| |done].
    by apply (keyspace_ok_purge _ _ _ Hks _ _ Hk). }
  intros db1 o d m Hh Hks1 Hk Ho Ht Hor. destruct (object_set o Ho Ht) as [s ->]. open_data.
  rewrite sadd_loop_ok.
  eapply write_reply_ok; [exact Hh|exact Hk| |split; [done|apply Hne]|by apply replyInteger_ok|].
  - destruct Hor as [[_ ->]|(_ & _ & _ & ->)]; rewrite ?delete_insert_eq; by apply keyspace_ok_delete.
  - unfold on_set. destruct Hor as [[Hm1 ->]|(Hm1 & [= ->] & -> & ->)]; rewrite Hm1; [done|].
    by rewrite insert_insert_eq.
Qed.

Lemma cmdSRem_ok : implements cmdSRem (λ args, 3 ≤ length args) spec_srem.
Proof.
  intros e db c args He Hwf Hks Hc Hargs. cbn in Hargs. unfold cmdSRem. rewrite vec_get_arg by lia.
  cbn [mbind result_bind]. unfold spec_srem, exactly. cbn zeta.
  apply withKey_ok with (rm := RInt 0); [done|done|done|by apply replyInteger_ok| | |].
  - intros Hk. unfold on_set. by rewrite Hk.
  - intros o d Hk Ht. symmetry. eapply on_set_wrong; [done| |done].
    by apply (keyspace_ok_purge _ _ _ Hks _ _ Hk).
  - intros db1 o d Hh Hks1 Hk [Ho _] Ht. destruct (object_set o Ho Ht) as [s ->]. open_data.
    rewrite srem_loop_ok.
    eapply write_delete_reply_ok; [exact Hh|exact Hk|by apply keyspace_ok_delete|done| |by apply replyInteger_ok|].
    + intros Hb. cbn. by apply bool_decide_eq_false in Hb.
    + unfold on_set. by rewrite Hk.
Qed.

Lemma cmdSIsMember_ok : implements cmdSIsMember (λ args, length args = 3) spec_sismember.
Proof.
  intros e db c args He Hwf Hks Hc Hargs. cbn in Hargs. unfold cmdSIsMember. rewrite !vec_get_arg by lia.
  cbn [mbind result_bind]. unfold spec_sismember, exactly. cbn zeta.
  apply withKey_ok with (rm := RInt 0); [done|done|done|by apply replyInteger_ok| | |].
  - intros Hk. unfold on_set. by rewrite Hk.
  - intros o d Hk Ht. symmetry. eapply on_set_wrong; [done| |done].
    by apply (keyspace_ok_purge _ _ _ Hks _ _ Hk).
  - intros db1 o d Hh Hks1 Hk [Ho _] Ht. destruct (object_set o Ho Ht) as [s ->]. open_data.
    unfold on_set. rewrite Hk. cbn [type data mbind result_bind].
    eapply finish_ok; [by apply replyInteger_ok|done|done|done].
Qed.

Lemma cmdSMembers_ok : implements cmdSMembers (λ args, length args = 2) spec_smembers.
Proof.
  intros e db c args He Hwf Hks Hc Hargs. cbn in Hargs. unfold cmdSMembers. rewrite vec_get_arg by lia.
  cbn [mbind result_bind]. unfold spec_smembers.
  apply withKey_ok with (rm := RBulks []); [done|done|done|by apply replyEmpty_ok| | |].
  - intros Hk. split; [done|]. unfold on_set. by rewrite Hk.
  - intros o d Hk Ht. split; [done|]. erewrite on_set_wrong; [done|done| |done].
    by apply (keyspace_ok_purge _ _ _ Hks _ _ Hk).
  - intros db1 o d Hh Hks1 Hk [Ho _] Ht. destruct (object_set o Ho Ht) as [s ->]. open_data.
    eapply finish_ok; [apply replyArray_ok; [done|]| |exact Hh|done].
    + by rewrite (iter_set_perm e He).
    + split; [done|]. unfold on_set. rewrite Hk. cbn [type data]. eexists. split; [|done]. by apply iter_set_perm.
Qed.

Lemma cmdSCard_ok : implements cmdSCard (λ args, length args = 2) spec_scard.
Proof.
  intros e db c args He Hwf Hks Hc Hargs. cbn in Hargs. unfold cmdSCard. rewrite vec_get_arg by lia.
  cbn [mbind result_bind]. unfold spec_scard, exactly. cbn zeta.
  apply withKey_ok with (rm := RInt 0); [done|done|done|by apply replyInteger_ok| | |].
  - intros Hk. unfold on_set. by rewrite Hk.
  - intros o d Hk Ht. symmetry. eapply on_set_wrong; [done| |done].
    by apply (keyspace_ok_purge _ _ _ Hks _ _ Hk).
  - intros db1 o d Hh Hks1 Hk [Ho _] Ht. destruct (object_set o Ho Ht) as [s ->]. open_data.
    unfold on_set. rewrite Hk. cbn [type data].
    eapply finish_ok; [by apply replyInteger_ok|done|done|done].
Qed.

(** The set commands do what they are specified to do.  SADD is union and
    SREM difference with the arguments, answering the change in size, SADD keeping
    an existing deadline and SREM deleting the key with the last member, so that
    no empty set is ever stored; SISMEMBER is membership; SMEMBERS answers every
    member once; SCARD counts; all answer WRONGTYPE on a key of another type. *)
Theorem set_commands_correct :
  implements cmdSAdd (λ args, 3 ≤ length args) spec_sadd ∧
  implements cmdSRem (λ args, 3 ≤ length args) spec_srem ∧
  implements cmdSIsMember (λ args, length args = 3) spec_sismember ∧
  implements cmdSMembers (λ args, length args = 2) spec_smembers ∧
  implements cmdSCard (λ args, length args = 2) spec_scard.
Proof.
  split; [apply cmdSAdd_ok|]. split; [apply cmdSRem_ok|]. split; [apply cmdSIsMember_ok|].
  split; [apply cmdSMembers_ok|apply cmdSCard_ok].
Qed.

End SetCommands.
