(* ===== verification/CmdZSet.v ===== *)
(** * [cmd/ZSetCommands]: ZADD, ZSCORE, ZRANK, ZRANGE, ZCARD, ZREM

    src/cmd/ZSetCommands.cpp.  A sorted set is a skiplist and a dictionary from
    members to scores that the commands keep in step.  Scores are read with
    [strtod] and printed with ["%.17g"].

    The dictionary does what it is told for every score.  The agreement of the
    two halves ([zset_ok]) needs scores that are numbers: NaN compares unequal to
    itself, and [nan_breaks_zset] shows what happens then. *)
From Stdlib Require Import Ascii String ZArith Lia ZifyNat ZifyBool.
From stdpp Require Import base option list strings gmap.
From S2P Require Import Prelude CStdlib CDouble CFloat CFloatText NetBuffer ProtoSerializer NetConnection StoreSkiplist.
From S2P Require Import StoreObject StoreInterfaces StoreDatabase CmdBase CmdHash.
Import RedisObject Connection.

Module ZSetCommands.

(** [char buf[64]; snprintf(buf, sizeof(buf), "%.17g", score)] *)
Definition formatScore (score : double) : bytes := take 63 (CFloat.print17g score).

Definition ERR_ZADD : bytes := lit "ERR wrong number of arguments for 'zadd' command".
Definition ERR_SYNTAX : bytes := lit "ERR syntax error".

(** The body of the loop: update the score of a member that exists if it is
    different, insert a new one. *)
Definition zadd_one (score : double) (x : bytes) (z : ZSetData) (added : Z) : result (Z * ZSetData) :=
  match dict z !! x with
  | Some oldScore =>
      if negb (dbl_eqb oldScore score) then
        '(_, sl1) ← Skiplist.remove (skiplist z) x oldScore;
        sl2 ← Skiplist.insert sl1 x score;
        mret (added, mkZSetData sl2 (<[x := score]> (dict z)))
      else mret (added, z)
  | None =>
      sl1 ← Skiplist.insert (skiplist z) x score;
      mret ((added + 1)%Z, mkZSetData sl1 (<[x := score]> (dict z)))
  end.

(** [for (size_t i = 2; i < args.size(); i += 2)] *)
Fixpoint zadd_loop (sxs : list bytes) (z : ZSetData) (added : Z) : result (Z * ZSetData) :=
  match sxs with
  | [] => mret (added, z)
  | [_] => Fault OutOfBounds
  | s :: x :: sxs' => '(added', z') ← zadd_one (CFloat.strtod s) x z added; zadd_loop sxs' z' added'
  end.

Definition cmdZAdd : handler := λ e db c args,
  if negb (bool_decide ((length args - 2) mod 2 = 0)) then
    c' ← replyError c ERR_ZADD; mret (db, c')
  else
    k ← vec_get args 1;
    withNewKey ZSET (createZSet (rng e)) e db c k (λ db1 o,
      z ← std_get (get_zset (data o));
      '(added, z') ← zadd_loop (drop 2 args) z 0;
      db2 ← Database.updateObject db1 k (set_data (DZSet z') o);
      c' ← replyInteger c added;
      mret (db2, c')).

Definition cmdZScore : handler := λ e db c args,
  k ← vec_get args 1;
  withKey ZSET e db c k replyNull (λ db1 o,
    z ← std_get (get_zset (data o));
    x ← vec_get args 2;
    c' ← match dict z !! x with None => replyNull c | Some s => replyBulk c (formatScore s) end;
    mret (db1, c')).

(** [for (const auto& [m, s] : range) { if (m == args[2] && s == score) ...; ++rank; }] *)
Fixpoint rank_loop (range : list (bytes * double)) (x : bytes) (score : double) (rank : Z) : option Z :=
  match range with
  | [] => None
  | (m, s) :: range' =>
      if bool_decide (m = x) && dbl_eqb s score then Some rank else rank_loop range' x score (rank + 1)%Z
  end.

Definition cmdZRank : handler := λ e db c args,
  k ← vec_get args 1;
  withKey ZSET e db c k replyNull (λ db1 o,
    z ← std_get (get_zset (data o));
    x ← vec_get args 2;
    match dict z !! x with
    | None => c' ← replyNull c; mret (db1, c')
    | Some score =>
        range ← Skiplist.rangeByRank (skiplist z) 0 (wrap_s32 (Z.of_nat (Skiplist.size (skiplist z))) - 1);
        c' ← match rank_loop range x score 0 with Some rank => replyInteger c rank | None => replyNull c end;
        mret (db1, c')
    end).

(** Member, score, member, score, ... *)
Definition flatten_scores (l : list (bytes * double)) : list bytes :=
  HashCommands.flatten ((λ '(x, s), (x, formatScore s)) <$> l).

Definition cmdZRange : handler := λ e db c args,
  let flag := if bool_decide (length args = 5) then to_upper <$> (args !! 4%nat) else None in
  let withScores := bool_decide (flag = Some (lit "WITHSCORES")) in
  if bool_decide (length args = 5) && negb withScores then c' ← replyError c ERR_SYNTAX; mret (db, c')
  else
    k ← vec_get args 1;
    withKey ZSET e db c k (λ c, replyHeader c 0) (λ db1 o,
      z ← std_get (get_zset (data o));
      a2 ← vec_get args 2;
      start ← stoi a2;
      a3 ← vec_get args 3;
      stop ← stoi a3;
      res ← Skiplist.rangeByRank (skiplist z) start stop;
      c' ← (if withScores then
              c1 ← replyHeader c (Z.of_nat (length res * 2)); replyBulks c1 (flatten_scores res)
            else c1 ← replyHeader c (Z.of_nat (length res)); replyBulks c1 res.*1);
      mret (db1, c')).

Definition cmdZCard : handler := λ e db c args,
  k ← vec_get args 1;
  withKey ZSET e db c k (λ c, replyInteger c 0) (λ db1 o,
    z ← std_get (get_zset (data o));
    c' ← replyInteger c (Z.of_nat (Skiplist.size (skiplist z)));
    mret (db1, c')).

Fixpoint zrem_loop (xs : list bytes) (z : ZSetData) (removed : Z) : result (Z * ZSetData) :=
  match xs with
  | [] => mret (removed, z)
  | x :: xs' =>
      match dict z !! x with
      | Some s =>
          '(_, sl1) ← Skiplist.remove (skiplist z) x s;
          zrem_loop xs' (mkZSetData sl1 (delete x (dict z))) (removed + 1)%Z
      | None => zrem_loop xs' z removed
      end
  end.

Definition cmdZRem : handler := λ e db c args,
  k ← vec_get args 1;
  withKey ZSET e db c k (λ c, replyInteger c 0) (λ db1 o,
    z ← std_get (get_zset (data o));
    '(removed, z') ← zrem_loop (drop 2 args) z 0;
    db2 ← writeOrDelete e db1 k (set_data (DZSet z') o) (bool_decide (dict z' = ∅));
    c' ← replyInteger c removed;
    mret (db2, c')).

(** ** Specifications *)

Definition zset_obj (z : ZSetData) : RedisObject := mkObject ZSET SKIPLIST (DZSet z).

(** What the key holds, seen by a sorted-set command. *)
Definition on_zset {A : Type} (m : Database.keyspace) (k : bytes) (none wrong : A) (some : ZSetData → Z → A) : A :=
  match m !! k with
  | None => none
  | Some (o, d) => match type o, data o with ZSET, DZSet z => some z d | _, _ => wrong end
  end.

(** Scores and members of ZADD. *)
Definition scored (sxs : list bytes) : list (double * bytes) :=
  (λ '(s, x), (CFloat.strtod s, x)) <$> HashCommands.pairs sxs.

(** A score equal to the old one leaves it, sign of zero included. *)
Definition put_score (h : gmap bytes double) (sx : double * bytes) : gmap bytes double :=
  match h !! sx.2 with
  | Some old => if dbl_eqb old sx.1 then h else <[sx.2 := sx.1]> h
  | None => <[sx.2 := sx.1]> h
  end.

Definition put_scores (h : gmap bytes double) (l : list (double * bytes)) : gmap bytes double :=
  foldl put_score h l.

Definition numbers (l : list (double * bytes)) : Prop := Forall (λ sx, is_nan sx.1 = false) l.

(** ZADD writes every score, later ones over earlier ones, and answers how many
    members are new; with numbers for scores a consistent set stays consistent. *)
Definition spec_zadd : command_spec := λ e m args r m',
  if negb (bool_decide ((length args - 2) mod 2 = 0)) then r = RError ERR_ZADD ∧ m' = m
  else
    let k := arg args 1 in
    let m1 := Database.purge (clk e 0) k m in
    let put z d := ∃ z',
      m' = <[k := (zset_obj z', d)]> m1 ∧ dict z' = put_scores (dict z) (scored (drop 2 args)) ∧
      r = RInt (Z.of_nat (size (dict z')) - Z.of_nat (size (dict z))) ∧
      (zset_ok z → numbers (scored (drop 2 args)) → zset_ok z') in
    on_zset m1 k (put (mkZSetData (Skiplist.create (rng e)) ∅) (-1)%Z) (r = RError WRONGTYPE ∧ m' = m1) put.

Definition spec_zscore : command_spec := exactly (λ e m args,
  let m1 := Database.purge (clk e 0) (arg args 1) m in
  on_zset m1 (arg args 1) (RNil, m1) (RError WRONGTYPE, m1) (λ z _,
    (match dict z !! arg args 2 with None => RNil | Some s => RBulk (formatScore s) end, m1))).

(** The elements of a consistent set in order. *)
Definition in_order (z : ZSetData) (l : list (bytes * double)) : Prop :=
  Skiplist.sorted l ∧ l ≡ₚ map_to_list (dict z).

(** ZRANK answers how many elements come before the member. *)
Definition spec_zrank : command_spec := λ e m args r m',
  m' = Database.purge (clk e 0) (arg args 1) m ∧
  on_zset m' (arg args 1) (r = RNil) (r = RError WRONGTYPE) (λ z _,
    match dict z !! arg args 2 with
    | None => r = RNil
    | Some s => zset_ok z → (Z.of_nat (size (dict z)) < 2 ^ 31)%Z → ∃ l i, in_order z l ∧
        l !! i = Some (arg args 2, s) ∧ r = RInt (Z.of_nat i)
    end).

(** ZRANGE answers a range of the ordered elements, with or without scores. *)
Definition spec_zrange : command_spec := λ e m args r m',
  let withScores := bool_decide (length args = 5 ∧ to_upper (arg args 4) = lit "WITHSCORES") in
  if bool_decide (length args = 5) && negb withScores then r = RError ERR_SYNTAX ∧ m' = m
  else
    m' = Database.purge (clk e 0) (arg args 1) m ∧
    on_zset m' (arg args 1) (r = RBulks []) (r = RError WRONGTYPE) (λ z _,
      zset_ok z → (Z.of_nat (size (dict z)) < 2 ^ 31)%Z → ∃ l start stop, in_order z l ∧
        stoi (arg args 2) = Ok start ∧ stoi (arg args 3) = Ok stop ∧
        let res := Skiplist.range_of l start stop in
        r = RBulks (if withScores then flatten_scores res else res.*1)).

Definition spec_zcard : command_spec := λ e m args r m',
  m' = Database.purge (clk e 0) (arg args 1) m ∧
  on_zset m' (arg args 1) (r = RInt 0) (r = RError WRONGTYPE) (λ z _,
    zset_ok z → r = RInt (Z.of_nat (size (dict z)))).

(** ZREM removes the named members and the key with the last one. *)
Definition spec_zrem : command_spec := λ e m args r m',
  let k := arg args 1 in
  let m1 := Database.purge (clk e 0) k m in
  on_zset m1 k (r = RInt 0 ∧ m' = m1) (r = RError WRONGTYPE ∧ m' = m1) (λ z d, ∃ z',
    dict z' = filter (λ xs, xs.1 ∉ drop 2 args) (dict z) ∧
    r = RInt (Z.of_nat (size (dict z)) - Z.of_nat (size (dict z'))) ∧
    m' = (if bool_decide (dict z' = ∅) then delete k m1 else <[k := (zset_obj z', d)]> m1) ∧
    (zset_ok z → zset_ok z')).

(** ** The two halves stay in step *)

Definition linked (sl : Skiplist.Skiplist) : Prop := ∃ l, Skiplist.chained sl l.

Lemma insert_linked sl x s : linked sl → Skiplist.insert sl x s ⇓ linked.
Proof.
  intros [l Hl]. eapply returns_mono; [by eapply Skiplist.insert_any|]. intros sl' (l1 & l2 & _ & Hl' & _). by eexists.
Qed.

Lemma remove_linked sl x s : linked sl → Skiplist.remove sl x s ⇓ λ r, linked r.2.
Proof.
  intros [l Hl]. eapply returns_mono; [by eapply Skiplist.remove_any|]. intros [b sl'] (l1 & l2 & _ & _ & _ & Hm).
  destruct l2; destruct Hm as [_ Hm]; by eexists.
Qed.

(** Members of the dictionary are the elements of the list. *)
Lemma zset_elems z : zset_ok z → ∃ l, Skiplist.represents (skiplist z) l ∧ NoDup l.*1 ∧ l ≡ₚ map_to_list (dict z).
Proof.
  intros (l & Hl & Hnd & Hd). exists l. split; [done|]. split; [done|]. rewrite Hd. by rewrite map_to_list_to_map.
Qed.

Lemma zset_ok_intro (sl : Skiplist.Skiplist) (l : list (bytes * double)) (h : gmap bytes double) :
  Skiplist.represents sl l → l ≡ₚ map_to_list h → zset_ok (mkZSetData sl h).
Proof.
  intros Hl Hp. exists l. split; [done|]. assert (Hnd : NoDup l.*1) by (rewrite Hp; apply NoDup_fst_map_to_list).
  split; [done|]. cbn. rewrite <- (list_to_map_to_list h). symmetry. by apply list_to_map_proper.
Qed.

Lemma zset_insert z x s :
  zset_ok z → is_nan s = false → dict z !! x = None →
  Skiplist.insert (skiplist z) x s ⇓ λ sl', zset_ok (mkZSetData sl' (<[x := s]> (dict z))).
Proof.
  intros (l & Hl & Hnd & Hp)%zset_elems Hs Hx.
  assert (Hnew : Forall (λ f, Skiplist.same f (x, s) = false) l).
  { apply list.Forall_forall. intros [y t] Hy. unfold Skiplist.same. cbn. rewrite bool_decide_false, andb_false_r; [done|].
    intros ->. rewrite Hp, elem_of_map_to_list in Hy. congruence. }
  eapply returns_mono; [by apply Skiplist.insert_ok|]. intros sl' Hl'. apply (zset_ok_intro _ _ _ Hl').
  rewrite map_to_list_insert, <- Permutation_middle, <- Hp by done. f_equiv.
  symmetry. destruct Hl as [_ Hsort]. by rewrite (Skiplist.sorted_split (x, s) l Hs Hsort) at 1.
Qed.

Lemma zset_remove z x s :
  zset_ok z → dict z !! x = Some s →
  Skiplist.remove (skiplist z) x s ⇓ λ r, r.1 = true ∧ zset_ok (mkZSetData r.2 (delete x (dict z))).
Proof.
  intros (l & Hl & Hnd & Hp)%zset_elems Hx. pose proof Hl as [_ [Hnum _]].
  assert (Hin : (x, s) ∈ l) by by rewrite Hp, elem_of_map_to_list.
  assert (Hs : is_nan s = false) by (rewrite list.Forall_forall in Hnum; by apply (Hnum _ Hin)).
  assert (Hsame : ∀ y t, (y, t) ∈ l → Skiplist.same (y, t) (x, s) = false ↔ y ≠ x).
  { intros y t Hy. unfold Skiplist.same. cbn. split.
    - intros Hf ->. rewrite Hp, elem_of_map_to_list in Hy. assert (t = s) as -> by congruence.
      rewrite bool_decide_true, andb_true_r in Hf by done.
      pose proof (proj2 (dbl_eqb_rank s s Hs Hs) eq_refl). congruence.
    - intros Hne. by rewrite bool_decide_false, andb_false_r. }
  eapply returns_mono; [by apply Skiplist.sl_remove_ok|]. intros [b sl'] [-> Hl']. cbn [fst snd]. split.
  - apply existsb_exists. exists (x, s). split; [by rewrite <- list_elem_of_In|]. apply not_false_is_true.
    intros Hf. by apply (Hsame x s Hin) in Hf.
  - apply (zset_ok_intro _ _ _ Hl'). apply NoDup_Permutation.
    + apply NoDup_filter. by apply NoDup_fmap_1 in Hnd.
    + apply NoDup_map_to_list.
    + intros [y t]. unfold Skiplist.without. rewrite list_elem_of_filter, elem_of_map_to_list, lookup_delete_Some.
      rewrite <- elem_of_map_to_list, <- Hp. split; intros [H1 H2]; split; try done; [|]; naive_solver.
Qed.

Lemma zadd_one_ok score x z added :
  zset_linked z →
  zadd_one score x z added ⇓ λ '(added', z'), dict z' = put_score (dict z) (score, x) ∧
    added' = (added + (Z.of_nat (size (dict z')) - Z.of_nat (size (dict z))))%Z ∧ zset_linked z' ∧
    (zset_ok z → is_nan score = false → zset_ok z').
Proof.
  intros Hz. unfold zadd_one, put_score. cbn [fst snd]. destruct (dict z !! x) as [old|] eqn:Hx.
  - destruct (dbl_eqb old score); cbn [negb]; [apply returns_ok; repeat split; auto; lia|].
    eapply returns_bind; [apply (returns_also _ (zset_ok z)); [by apply remove_linked|intros H; by apply (zset_remove z x old)]|].
    intros [b sl1] [Hl1 Hok1]. cbn [fst snd] in *.
    eapply returns_bind; [apply (returns_also _ (zset_ok z ∧ is_nan score = false)); [by apply insert_linked|]|].
    { intros [Hok Hs]. apply (zset_insert (mkZSetData sl1 (delete x (dict z)))); [by apply Hok1|done|].
      cbn. by rewrite lookup_delete_eq. }
    intros sl2 [Hl2 Hok2]. apply returns_ok. cbn [dict]. split; [done|].
    split; [rewrite map_size_insert_Some by eauto; lia|]. split; [done|]. intros Hok Hs.
    specialize (Hok2 (conj Hok Hs)). cbn [dict] in Hok2. by rewrite insert_delete_eq in Hok2.
  - eapply returns_bind; [apply (returns_also _ (zset_ok z ∧ is_nan score = false)); [by apply insert_linked|]|].
    { intros [Hok Hs]. by apply zset_insert. }
    intros sl1 [Hl1 Hok1]. apply returns_ok. cbn [dict]. split; [done|].
    split; [rewrite map_size_insert_None by done; lia|]. split; [done|]. auto.
Qed.

Lemma zadd_loop_ok n sxs z added :
  length sxs ≤ n → length sxs mod 2 = 0 → zset_linked z →
  zadd_loop sxs z added ⇓ λ '(added', z'), dict z' = put_scores (dict z) (scored sxs) ∧
    added' = (added + (Z.of_nat (size (dict z')) - Z.of_nat (size (dict z))))%Z ∧ zset_linked z' ∧
    (zset_ok z → numbers (scored sxs) → zset_ok z').
Proof.
  revert sxs z added. induction n as [|n IH]; intros sxs z added Hn Hm Hz.
  { destruct sxs; [|simpl in Hn; lia]. apply returns_ok. repeat split; auto; lia. }
  destruct (HashCommands.even_pairs sxs Hm) as [->|(s & x & sxs' & -> & Hm')].
  { apply returns_ok. repeat split; auto; lia. }
  cbn [zadd_loop]. run_with zadd_one_ok; [done|]. intros [added1 z1] (Hd1 & -> & Hz1 & Hok1).
  eapply returns_mono; [apply (IH sxs'); [simpl in Hn; lia|done|done]|].
  intros [added2 z2] (Hd2 & -> & Hz2 & Hok2). split; [by rewrite Hd2, Hd1|]. split; [lia|]. split; [done|].
  intros Hok [Hs Hnum]%Forall_cons. by apply Hok2; [apply Hok1|].
Qed.

Lemma zrem_loop_ok xs z removed :
  zset_linked z →
  zrem_loop xs z removed ⇓ λ '(removed', z'), dict z' = filter (λ xs', xs'.1 ∉ xs) (dict z) ∧
    removed' = (removed + (Z.of_nat (size (dict z)) - Z.of_nat (size (dict z'))))%Z ∧ zset_linked z' ∧
    (zset_ok z → zset_ok z').
Proof.
  revert z removed. induction xs as [|x xs IH]; intros z removed Hz; cbn [zrem_loop].
  { apply returns_ok. rewrite map_filter_id by (intros; apply not_elem_of_nil). repeat split; auto; lia. }
  destruct (dict z !! x) as [s|] eqn:Hx.
  - eapply returns_bind; [apply (returns_also _ (zset_ok z)); [by apply remove_linked|intros H; by apply (zset_remove z x s)]|].
    intros [b sl1] [Hl1 Hok1]. cbn [fst snd] in *. eapply returns_mono; [by apply IH|].
    intros [removed' z'] (Hd & -> & Hz' & Hok). cbn [dict] in *. rewrite Database.filter_keys_cons.
    split; [done|]. split; [|split; [done|naive_solver]].
    rewrite map_size_delete_Some by eauto.
    assert (size (dict z) ≠ 0) by (intros Hs%map_size_empty_inv; rewrite Hs, lookup_empty in Hx; done). lia.
  - eapply returns_mono; [by apply IH|]. intros [removed' z'] (Hd & -> & Hz' & Hok).
    rewrite Database.filter_keys_cons, delete_id by done. done.
Qed.

(** ** Proofs *)

Lemma on_zset_wrong {A : Type} (m : Database.keyspace) (k : bytes) o (d : Z) (none wrong : A) some :
  m !! k = Some (o, d) → RedisObject.wf o → type o ≠ ZSET → on_zset m k none wrong some = wrong.
Proof. intros Hk Ho Ht. unfold on_zset. rewrite Hk. by destruct o as [[] [] []]. Qed.

Lemma dom_put_score h sx : dom (put_score h sx) = {[sx.2]} ∪ dom h.
Proof.
  unfold put_score. destruct (h !! sx.2) as [old|] eqn:Hx; [|by rewrite dom_insert_L].
  assert (sx.2 ∈ dom h) by (apply elem_of_dom; eauto).
  destruct (dbl_eqb old sx.1); [set_solver|by rewrite dom_insert_L].
Qed.

Lemma put_scores_nonempty h l : l ≠ [] → put_scores h l ≠ ∅.
Proof.
  intros Hne He. assert (Hd : ∀ l h, dom h ⊆ dom (put_scores h l)).
  { clear. induction l as [|sx l IH]; intros h; [done|]. cbn. etrans; [|apply IH]. rewrite dom_put_score. set_solver. }
  destruct l as [|sx l]; [done|]. specialize (Hd l (put_score h sx)). rewrite dom_put_score in Hd. cbn in He.
  fold (put_scores (put_score h sx) l) in He. rewrite He, dom_empty_L in Hd. set_solver.
Qed.

Lemma cmdZAdd_ok : implements cmdZAdd (λ args, 4 ≤ length args) spec_zadd.
Proof.
  intros e db c args He Hwf Hks Hc Hargs. cbn in Hargs. unfold cmdZAdd, spec_zadd. cbn zeta.
  case_bool_decide as Hm; cbn [negb]; [|eapply finish_ok; [by apply replyError_ok|done|done|done]].
  rewrite vec_get_arg by lia. cbn [mbind result_bind].
  assert (Hm' : length (drop 2 args) mod 2 = 0) by by rewrite length_drop.
  assert (Hne : scored (drop 2 args) ≠ []).
  { destruct args as [|? [|? [|? [|? args]]]]; simpl in Hargs; (lia || done). }
  apply withNewKey_ok; [done|done|done|done|apply createZSet_wf| |].
  { intros o d Hk Ht. erewrite on_zset_wrong; [done|done| |done]. by apply (keyspace_ok_purge _ _ _ Hks _ _ Hk). }
  intros db1 o d m Hh Hks1 Hk Ho Ht Hor. destruct (object_zset o Ho Ht) as (z & -> & Hz). open_data.
  run_with (zadd_loop_ok (length (drop 2 args))); [done|done|done|].
  intros [added z'] (Hd & -> & Hz' & Hok).
  eapply write_reply_ok; [exact Hh|exact Hk| | |by apply replyInteger_ok|].
  - destruct Hor as [[_ ->]|(_ & _ & _ & ->)]; rewrite ?delete_insert_eq; by apply keyspace_ok_delete.
  - split; [done|]. cbn. rewrite Hd. by apply put_scores_nonempty.
  - unfold on_zset. destruct Hor as [[Hm1 ->]|(Hm1 & [= ->] & -> & ->)]; rewrite Hm1; cbn [type data createZSet].
    + exists z'. by rewrite Z.add_0_l.
    + exists z'. rewrite insert_insert_eq. cbn [dict] in *. by rewrite Z.add_0_l.
Qed.

Lemma cmdZRem_ok : implements cmdZRem (λ args, 3 ≤ length args) spec_zrem.
Proof.
  intros e db c args He Hwf Hks Hc Hargs. cbn in Hargs. unfold cmdZRem. rewrite vec_get_arg by lia.
  cbn [mbind result_bind]. unfold spec_zrem. cbn zeta.
  apply withKey_ok with (rm := RInt 0); [done|done|done|by apply replyInteger_ok| | |].
  - intros Hk. unfold on_zset. by rewrite Hk.
  - intros o d Hk Ht. erewrite on_zset_wrong; [done|done| |done]. by apply (keyspace_ok_purge _ _ _ Hks _ _ Hk).
  - intros db1 o d Hh Hks1 Hk [Ho _] Ht. destruct (object_zset o Ho Ht) as (z & -> & Hz). open_data.
    run_with zrem_loop_ok; [done|]. intros [removed z'] (Hd & -> & Hz' & Hok).
    eapply write_delete_reply_ok; [exact Hh|exact Hk|by apply keyspace_ok_delete|done| |by apply replyInteger_ok|].
    + intros Hb. cbn. by apply bool_decide_eq_false in Hb.
    + unfold on_zset. rewrite Hk. cbn [type data]. exists z'. by rewrite Z.add_0_l.
Qed.

(** The look-up commands open their key the same way, and leave the database
    alone. *)
Definition looked (db1 : DB) (c : Connection) (P : resp → Prop) (x : DB * Connection) : Prop :=
  x.1 = db1 ∧ ∃ r, replied c r x.2 ∧ P r.

Lemma with_reply db1 c r w (P : resp → Prop) : w ⇓ replied c r → P r → (c' ← w; mret (db1, c')) ⇓ looked db1 c P.
Proof. intros Hw HP. eapply returns_bind; [exact Hw|]. intros c' Hc'. split; [done|]. by exists r. Qed.

Section lookups.
Context (e : Env) (db : DB) (c : Connection) (args : list bytes).
Context (Hwf : Database.wf db) (Hks : keyspace_ok (Database.view db)) (Hc : out_ok c).

Let m1 := Database.purge (clk e 0) (arg args 1) (Database.view db).

Lemma lookup_zset_ok missing rm (found : DB → RedisObject → result (DB * Connection)) (P : resp → ZSetData → Prop) :
  missing c ⇓ replied c rm →
  (∀ db1 z, zset_linked z → found db1 (zset_obj z) ⇓ looked db1 c (λ r, P r z)) →
  withKey ZSET e db c (arg args 1) missing found ⇓ outcome (λ r m', m' = m1 ∧
    on_zset m' (arg args 1) (r = rm) (r = RError WRONGTYPE) (λ z _, P r z)) c.
Proof using Hwf Hks Hc.
  intros Hm Hf. apply withKey_ok with (rm := rm); [done|done|done|done| | |].
  - intros Hk. split; [done|]. unfold on_zset, m1. by rewrite Hk.
  - intros o d Hk Ht. split; [done|]. erewrite on_zset_wrong; [done|done| |done].
    by apply (keyspace_ok_purge _ _ _ Hks _ _ Hk).
  - intros db1 o d Hh Hks1 Hk [Ho _] Ht. destruct (object_zset o Ho Ht) as (z & -> & Hz).
    eapply returns_mono; [by apply Hf|]. intros [db2 c'] [Heq (r & Hr & HP)]. cbn in Heq. subst db2. exists r, m1.
    split; [|done]. split; [done|]. unfold on_zset, m1. by rewrite Hk.
Qed.
End lookups.

Lemma cmdZScore_ok : implements cmdZScore (λ args, length args = 3) spec_zscore.
Proof.
  intros e db c args He Hwf Hks Hc Hargs. cbn in Hargs. unfold cmdZScore. rewrite !vec_get_arg by lia.
  cbn [mbind result_bind]. eapply returns_mono; [apply (lookup_zset_ok e db c args Hwf Hks Hc) with (rm := RNil)
    (P := λ r z, r = match dict z !! arg args 2 with None => RNil | Some s => RBulk (formatScore s) end)|].
  - by apply replyNull_ok.
  - intros db1 z Hz. open_data.
    destruct (dict z !! arg args 2); (eapply with_reply; [|done]); [by apply replyBulk_ok|by apply replyNull_ok].
  - intros [db' c'] (r & m' & [-> HR] & Hrest). exists r. eexists. split; [|exact Hrest].
    unfold spec_zscore, exactly. cbn zeta. unfold on_zset in *.
    destruct (_ !! arg args 1) as [[[[] enc []] d]|]; by rewrite HR.
Qed.

Lemma zset_size z l : Skiplist.chained (skiplist z) l → Skiplist.size (skiplist z) = length l.
Proof.
  intros (ids & Hw & Hd). unfold Skiplist.size. rewrite (Skiplist.wf_size _ _ Hw).
  by rewrite <- (length_fmap (Skiplist.data_of (Skiplist.nodes (skiplist z)))), Hd, length_fmap.
Qed.

Lemma cmdZCard_ok : implements cmdZCard (λ args, length args = 2) spec_zcard.
Proof.
  intros e db c args He Hwf Hks Hc Hargs. cbn in Hargs. unfold cmdZCard. rewrite vec_get_arg by lia.
  cbn [mbind result_bind]. apply (lookup_zset_ok e db c args Hwf Hks Hc) with (rm := RInt 0)
    (P := λ r z, zset_ok z → r = RInt (Z.of_nat (size (dict z)))); [by apply replyInteger_ok|].
  intros db1 z Hz. open_data. eapply with_reply; [by apply replyInteger_ok|].
  intros (l & [Hl _] & _ & Hp)%zset_elems. by rewrite (zset_size z l Hl), Hp, length_map_to_list.
Qed.

Lemma range_of_all {A} (l : list A) n : n = Z.of_nat (length l) → Skiplist.range_of l 0 (n - 1) = l.
Proof.
  intros ->. unfold Skiplist.range_of, slice. destruct l as [|x l]; [done|].
  rewrite (proj2 (Z.ltb_ge 0 0)), (proj2 (Z.ltb_ge _ 0)) by (simpl length; lia).
  rewrite Z.min_id, Z.max_id. apply take_ge. simpl length. lia.
Qed.

Lemma rank_loop_ok l i x s r :
  NoDup l.*1 → l !! i = Some (x, s) → is_nan s = false → rank_loop l x s r = Some (r + Z.of_nat i)%Z.
Proof.
  revert i r. induction l as [|[m t] l IH]; intros i r Hnd Hi Hs; [done|]. apply NoDup_cons in Hnd as [Hm Hnd].
  destruct i as [|i]; cbn in *.
  - injection Hi as -> ->. rewrite bool_decide_true, (proj2 (dbl_eqb_rank s s Hs Hs)) by done. cbn. f_equal. lia.
  - rewrite bool_decide_false; [|intros ->; apply Hm, list_elem_of_fmap; exists (x, s); split; [done|];
      by eapply list_elem_of_lookup_2]. cbn. rewrite (IH i) by done. f_equal. lia.
Qed.

Lemma cmdZRank_ok : implements cmdZRank (λ args, length args = 3) spec_zrank.
Proof.
  intros e db c args He Hwf Hks Hc Hargs. cbn in Hargs. unfold cmdZRank. rewrite !vec_get_arg by lia.
  cbn [mbind result_bind]. apply (lookup_zset_ok e db c args Hwf Hks Hc) with (rm := RNil); [by apply replyNull_ok|].
  intros db1 z Hz. open_data. destruct (dict z !! arg args 2) as [s|] eqn:Hx.
  2: { eapply with_reply; [by apply replyNull_ok|done]. }
  eapply returns_bind; [apply (returns_also _ (zset_ok z ∧ (Z.of_nat (size (dict z)) < 2 ^ 31)%Z)
    (λ _, True) (λ range, ∃ l i, in_order z l ∧ l !! i = Some (arg args 2, s) ∧
      rank_loop range (arg args 2) s 0 = Some (Z.of_nat i)))|].
  - destruct Hz as [l Hl]. eapply returns_mono; [by eapply Skiplist.rangeByRank_any|done].
  - intros [Hok Hlen]. apply zset_elems in Hok as (l & [Hl Hs] & Hnd & Hp).
    assert (Hll : length l = size (dict z)) by by rewrite Hp, length_map_to_list.
    eapply returns_mono; [apply (Skiplist.rangeByRank_ok _ l); [done|lia]|]. intros range ->.
    rewrite (zset_size z l Hl), wrap_s32_id by (unfold in_s32; lia). rewrite range_of_all by done.
    assert (Hin : (arg args 2, s) ∈ l) by by rewrite Hp, elem_of_map_to_list.
    apply list_elem_of_lookup in Hin as [i Hi]. exists l, i. split; [done|]. split; [done|].
    rewrite (rank_loop_ok l i) by (done || (destruct Hs as [Hnum _]; by apply (Forall_lookup_1 _ _ _ _ Hnum Hi))).
    by rewrite Z.add_0_l.
  - intros range [_ Hrange]. destruct (rank_loop range (arg args 2) s 0) as [rank|].
    + eapply with_reply; [by apply replyInteger_ok|]. intros Hok Hlen.
      destruct (Hrange (conj Hok Hlen)) as (l & i & ? & ? & [= ->]). by exists l, i.
    + eapply with_reply; [by apply replyNull_ok|]. intros Hok Hlen.
      by destruct (Hrange (conj Hok Hlen)) as (l & i & ? & ? & [=]).
Qed.

Definition zrange_pre (args : list bytes) : Prop :=
  4 ≤ length args ∧ (∃ i, stoi (arg args 2) = Ok i) ∧ ∃ j, stoi (arg args 3) = Ok j.

Lemma zrange_flag args :
  bool_decide ((if bool_decide (length args = 5) then to_upper <$> args !! 4%nat else None) = Some (lit "WITHSCORES")) =
  bool_decide (length args = 5 ∧ to_upper (arg args 4) = lit "WITHSCORES").
Proof.
  apply bool_decide_ext. case_bool_decide as H5; [|split; [done|by intros [? _]]].
  destruct (lookup_lt_is_Some_2 args 4) as [a Ha]; [lia|]. unfold arg. rewrite Ha. cbn [fmap option_fmap option_map default].
  split; [by intros [= ?]|by intros [_ ?]; f_equal].
Qed.

Lemma cmdZRange_ok : implements cmdZRange zrange_pre spec_zrange.
Proof.
  intros e db c args He Hwf Hks Hc (Hargs & [i Hi] & [j Hj]). unfold cmdZRange, spec_zrange. rewrite zrange_flag.
  set (ws := bool_decide (length args = 5 ∧ _)). cbn zeta. destruct (_ && _).
  { eapply finish_ok; [by apply replyError_ok|done|done|done]. }
  rewrite !vec_get_arg by lia. cbn [mbind result_bind]. rewrite Hi, Hj.
  apply (lookup_zset_ok e db c args Hwf Hks Hc) with (rm := RBulks []); [by apply replyEmpty_ok|].
  intros db1 z Hz. open_data. cbn [mbind result_bind].
  eapply returns_bind; [apply (returns_also _ (zset_ok z ∧ (Z.of_nat (size (dict z)) < 2 ^ 31)%Z)
    (λ _, True) (λ res, ∃ l, in_order z l ∧ res = Skiplist.range_of l i j))|].
  - destruct Hz as [l Hl]. eapply returns_mono; [by eapply Skiplist.rangeByRank_any|done].
  - intros [Hok Hlen]. apply zset_elems in Hok as (l & [Hl Hs] & Hnd & Hp).
    assert (Hll : length l = size (dict z)) by by rewrite Hp, length_map_to_list.
    eapply returns_mono; [apply (Skiplist.rangeByRank_ok _ l); [done|lia]|]. intros res ->. by exists l.
  - intros res [_ Hres]. eapply with_reply with (r := RBulks (if ws then flatten_scores res else res.*1)).
    + destruct ws; (apply replyArray_ok; [done|]).
      * unfold flatten_scores. by rewrite HashCommands.length_flatten, length_fmap.
      * by rewrite length_fmap.
    + intros Hok Hlen. destruct (Hres (conj Hok Hlen)) as (l & Hl & ->). by exists l, i, j.
Qed.


(** The buffer is long enough, and what is printed is read back. *)
Lemma formatScore_exact s : CFloatText.binary64 s → formatScore s = CFloat.print17g s.
Proof. intros Hs. pose proof (CFloatText.print17g_length s Hs). unfold formatScore. rewrite take_ge by lia. done. Qed.

Lemma formatScore_reads s : CFloatText.binary64 s → CFloat.strtod (formatScore s) = s.
Proof. intros Hs. rewrite formatScore_exact by done. by apply CFloatText.strtod_print17g. Qed.

(** ZADD keeps scores that are binary64 numbers. *)
Lemma put_scores_binary64 h sxs :
  map_Forall (λ _ s, CFloatText.binary64 s) h → numbers (scored sxs) →
  map_Forall (λ _ s, CFloatText.binary64 s) (put_scores h (scored sxs)).
Proof.
  intros Hh Hn. assert (Hall : Forall (λ sx, CFloatText.binary64 sx.1) (scored sxs)).
  { apply list.Forall_forall. intros [s x] Hin. unfold numbers in Hn. rewrite list.Forall_forall in Hn. specialize (Hn _ Hin).
    apply list_elem_of_fmap in Hin as ([t y] & [= -> ->] & _). cbn in *.
    destruct (CFloatText.strtod_binary64 t) as [Hs|Hs]; [by rewrite Hs in Hn|done]. }
  clear Hn. revert h Hh. induction Hall as [|[s x] l Hs _ IH]; intros h Hh; [done|]. apply IH. unfold put_score. cbn in *.
  destruct (h !! x) as [old|]; [destruct (dbl_eqb old s); [done|]|]; by apply map_Forall_insert_2.
Qed.

(** ** Properties *)

(** C24: scores survive being printed.  Whatever text a score was given as, unless
    it is a NaN, the text that ZSCORE, ZRANGE and the rewrite of the log print for
    it is at most 24 bytes, so the 64-byte buffer never cuts it, and reading that
    text gives the same binary64 number again, subnormal numbers, infinities and
    the sign of zero included. *)
Theorem score_roundtrip (t : bytes) :
  is_nan (CFloat.strtod t) = false →
  formatScore (CFloat.strtod t) = CFloat.print17g (CFloat.strtod t) ∧
  length (formatScore (CFloat.strtod t)) ≤ 24 ∧
  CFloat.strtod (formatScore (CFloat.strtod t)) = CFloat.strtod t.
Proof.
  intros Hn. assert (Hb : CFloatText.binary64 (CFloat.strtod t)).
  { destruct (CFloatText.strtod_binary64 t) as [Hs|Hs]; [by rewrite Hs in Hn|done]. }
  rewrite (formatScore_exact _ Hb). split; [done|]. split; [by apply CFloatText.print17g_length|].
  by apply CFloatText.strtod_print17g.
Qed.

Lemma score_roundtrip_witness :
  formatScore (CFloat.strtod (lit "0.1")) = CFloat.print17g (CFloat.strtod (lit "0.1")) ∧
  length (formatScore (CFloat.strtod (lit "0.1"))) ≤ 24 ∧
  CFloat.strtod (formatScore (CFloat.strtod (lit "0.1"))) = CFloat.strtod (lit "0.1").
Proof. apply (score_roundtrip (lit "0.1")). vm_compute. reflexivity. Defined.

(** The sorted-set commands do what they are specified to do.  ZADD rejects an
    odd number of score arguments before touching anything, creates the set when
    needed, keeps its deadline, writes the scores and answers how many members are
    new; ZREM answers how many it removed and deletes the key with the last one;
    as long as the scores are numbers, skiplist and dictionary hold the same
    elements, and then ZRANK answers the position of a member in (score, member)
    order, ZRANGE the elements of a range of that order, ZCARD their number, and
    ZSCORE the score with 17 digits.  All answer WRONGTYPE on a key of another
    type. *)
Theorem zset_commands_correct :
  implements cmdZAdd (λ args, 4 ≤ length args) spec_zadd ∧
  implements cmdZScore (λ args, length args = 3) spec_zscore ∧
  implements cmdZRank (λ args, length args = 3) spec_zrank ∧
  implements cmdZRange zrange_pre spec_zrange ∧
  implements cmdZCard (λ args, length args = 2) spec_zcard ∧
  implements cmdZRem (λ args, 3 ≤ length args) spec_zrem.
Proof.
  split; [apply cmdZAdd_ok|]. split; [apply cmdZScore_ok|]. split; [apply cmdZRank_ok|].
  split; [apply cmdZRange_ok|]. split; [apply cmdZCard_ok|apply cmdZRem_ok].
Qed.

(** *** A score that is not a number *)

Definition empty_zset : ZSetData := mkZSetData (Skiplist.create Skiplist.draws) ∅.

(** ZADD z 5 a nan b, then ZREM z a. *)
Definition nan_session : result (Z * Z * ZSetData) :=
  '(added, z) ← zadd_loop [lit "5"; lit "a"; lit "nan"; lit "b"] empty_zset 0;
  '(removed, z') ← zrem_loop [lit "a"] z 0;
  mret (added, removed, z').

(** A NaN score is accepted and breaks the set: the search stops at the NaN node,
    so a member behind it can no longer be removed from the skiplist.  After ZREM
    answered 1, ZSCORE does not find the member but ZRANGE still lists it. *)
Theorem nan_breaks_zset :
  ∃ z, nan_session = Ok (2%Z, 1%Z, z) ∧ dict z !! lit "a" = None ∧
    Skiplist.rangeByRank (skiplist z) 0 (-1) =
      Ok [(lit "b", CFloat.strtod (lit "nan")); (lit "a", CFloat.strtod (lit "5"))] ∧ ¬ zset_ok z.
Proof.
  eexists. split; [vm_compute; reflexivity|]. split; [vm_compute; reflexivity|]. split; [vm_compute; reflexivity|].
  intros (l & [Hl _] & _ & Hp)%zset_elems. pose proof (zset_size _ l Hl) as Hs.
  apply Permutation_length in Hp. rewrite <- Hs in Hp. vm_compute in Hp. discriminate Hp.
Qed.

End ZSetCommands.
