(* ===== verification/CmdTransaction.v ===== *)
(** * [cmd/TransactionCommands] and the database commands of [cmd/ServerCommands]

    MULTI and DISCARD (src/cmd/TransactionCommands.cpp) open and drop the queue of
    the connection; DBSIZE and FLUSHDB are those of src/cmd/ServerCommands.cpp. *)
From Stdlib Require Import Ascii String ZArith Lia ZifyNat ZifyBool.
From stdpp Require Import base option list strings gmap.
From S2P Require Import Prelude CStdlib NetBuffer ProtoSerializer NetConnection StoreObject StoreInterfaces.
From S2P Require Import StoreDatabase CmdBase.
Import RedisObject Connection.

Module TransactionCommands.

Definition cmdMulti : handler := λ e db c args,
  match txn c with
  | Some _ => c' ← replyError c (lit "ERR MULTI calls can not be nested"); mret (db, c')
  | None =>
      let c1 := set_txn (Some (mkTxn [])) c in
      c' ← replySimple c1 (lit "OK");
      mret (db, c')
  end.

Definition cmdDiscard : handler := λ e db c args,
  match txn c with
  | None => c' ← replyError c (lit "ERR DISCARD without MULTI"); mret (db, c')
  | Some _ =>
      let c1 := set_txn None c in
      c' ← replySimple c1 (lit "OK");
      mret (db, c')
  end.

(** What the two do to the queue, and their answers. *)
Lemma cmdMulti_ok e db c args :
  out_ok c → cmdMulti e db c args ⇓ λ '(db', c'), db' = db ∧
    match txn c with
    | Some _ => replied c (RError (lit "ERR MULTI calls can not be nested")) c'
    | None => replied (set_txn (Some (mkTxn [])) c) (RSimple (lit "OK")) c'
    end.
Proof.
  intros Hc. unfold cmdMulti. destruct (txn c).
  - run_with replyError_ok; [done|]. intros c' Hc'. by apply returns_ok.
  - run_with replySimple_ok; [done|]. intros c' Hc'. by apply returns_ok.
Qed.

Lemma cmdDiscard_ok e db c args :
  out_ok c → cmdDiscard e db c args ⇓ λ '(db', c'), db' = db ∧
    match txn c with
    | None => replied c (RError (lit "ERR DISCARD without MULTI")) c'
    | Some _ => replied (set_txn None c) (RSimple (lit "OK")) c'
    end.
Proof.
  intros Hc. unfold cmdDiscard. destruct (txn c).
  - run_with replySimple_ok; [done|]. intros c' Hc'. by apply returns_ok.
  - run_with replyError_ok; [done|]. intros c' Hc'. by apply returns_ok.
Qed.

End TransactionCommands.

Module ServerCommands.

Definition cmdDbsize : handler := λ e db c args,
  c' ← replyInteger c (Database.dbsize db);
  mret (db, c').

Definition cmdFlushdb : handler := λ e db c args,
  let db' := Database.flushdb db in
  c' ← replySimple c (lit "OK");
  mret (db', c').

Definition spec_dbsize : command_spec := exactly (λ e m args, (RInt (Z.of_nat (size m)), m)).
Definition spec_flushdb : command_spec := exactly (λ e m args, (RSimple (lit "OK"), ∅)).

Lemma server_cmdDbsize_ok : implements cmdDbsize (λ args, length args = 1) spec_dbsize.
Proof.
  intros e db c args He Hwf Hks Hc Hargs. unfold cmdDbsize. rewrite Database.dbsize_ok by done.
  eapply finish_ok; [by apply replyInteger_ok|done|done|done].
Qed.

Lemma cmdFlushdb_ok : implements cmdFlushdb (λ args, 1 ≤ length args) spec_flushdb.
Proof.
  intros e db c args He Hwf Hks Hc Hargs. unfold cmdFlushdb.
  destruct (Database.flushdb_ok (platform e) db Hwf) as [Hh _].
  eapply finish_ok; [by apply replySimple_ok|done|exact Hh|]. apply map_Forall_empty.
Qed.

End ServerCommands.
