(* ===== verification/CmdTable.v ===== *)
(** * [cmd/CommandTable]: registration and dispatch

    Class [CommandTable] (src/cmd/CommandTable.h, CommandTable.cpp) and the
    [registerAll] functions of the command modules.  [core_table] holds the
    commands of the constructor and
    DBSIZE and FLUSHDB of the server commands, registered afterwards as main.cpp
    does. *)
From Stdlib Require Import Ascii String ZArith Lia ZifyNat ZifyBool.
From stdpp Require Import base option list strings gmap.
From S2P Require Import Prelude CStdlib NetBuffer ProtoSerializer NetConnection StoreObject StoreInterfaces.
From S2P Require Import StoreDatabase CmdBase CmdString CmdKey CmdList CmdHash CmdSet CmdZSet.
From S2P Require Import CmdTransaction.
Import RedisObject Connection.

Module CommandTable.

(** An entry is generic in what a handler is: the functions of the command
    modules, or the closures over the variables of [main]. *)
Record CommandEntry (H : Type) := mkEntry {
  name : bytes;
  arity : Z;
  isWrite : bool;
  run : H
}.
Arguments mkEntry {H} _ _ _ _.
Arguments name {H} _.
Arguments arity {H} _.
Arguments isWrite {H} _.
Arguments run {H} _.

Abbreviation CommandTable := (gmap bytes (CommandEntry handler)).

Definition registerCommand {H : Type} (t : gmap bytes (CommandEntry H)) (entry : CommandEntry H)
    : gmap bytes (CommandEntry H) :=
  let upper := to_upper (name entry) in
  <[upper := mkEntry upper (arity entry) (isWrite entry) (run entry)]> t.

(** A positive arity is exact, another one a minimum.  The number of arguments is
    compared as an [int]: a vector has fewer than 2^31 elements. *)
Definition arity_ok (a : Z) (args : list bytes) : bool :=
  let argCount := Z.of_nat (length args) in
  if (0 <? a)%Z then (argCount =? a)%Z else (- a <=? argCount)%Z.

Definition ERR_ARITY (cmdName : bytes) : bytes :=
  lit "ERR wrong number of arguments for '" ++ cmdName ++ lit "' command".

Definition ERR_UNKNOWN (arg0 : bytes) : bytes := lit "ERR unknown command '" ++ arg0 ++ lit "'".

(** [dispatch] on a state [St]: [error] writes an error to the connection, [call]
    runs the handler of an entry. *)
Definition dispatch_with {H St : Type} (error : bytes → St → result St) (call : H → St → result St)
    (t : gmap bytes (CommandEntry H)) (args : list bytes) (st : St) : result St :=
  match args with
  | [] => mret st
  | arg0 :: _ =>
      let cmdName := to_upper arg0 in
      match t !! cmdName with
      | None => error (ERR_UNKNOWN arg0) st
      | Some entry =>
          if negb (arity_ok (arity entry) args) then error (ERR_ARITY cmdName) st
          else call (run entry) st
      end
  end.

Definition dispatch (t : CommandTable) : handler := λ e db c args,
  dispatch_with (λ msg '(db, c), c' ← replyError c msg; mret (db, c'))
    (λ h '(db, c), h e db c args) t args (db, c).

Definition isWriteCommand {H : Type} (t : gmap bytes (CommandEntry H)) (nm : bytes) : bool :=
  match t !! to_upper nm with Some entry => isWrite entry | None => false end.

(** *** The [registerAll] functions *)

Definition string_commands : list (CommandEntry handler) :=
  [mkEntry (lit "PING") (-1) false StringCommands.cmdPing;
   mkEntry (lit "SET") 3 true StringCommands.cmdSet;
   mkEntry (lit "GET") 2 false StringCommands.cmdGet].

Definition key_commands : list (CommandEntry handler) :=
  [mkEntry (lit "DEL") (-2) true KeyCommands.cmdDel;
   mkEntry (lit "EXISTS") (-2) false KeyCommands.cmdExists;
   mkEntry (lit "KEYS") 2 false KeyCommands.cmdKeys;
   mkEntry (lit "EXPIRE") 3 true KeyCommands.cmdExpire;
   mkEntry (lit "TTL") 2 false KeyCommands.cmdTtl;
   mkEntry (lit "PEXPIRE") 3 true KeyCommands.cmdPexpire;
   mkEntry (lit "PTTL") 2 false KeyCommands.cmdPttl;
   mkEntry (lit "DBSIZE") 1 false KeyCommands.cmdDbsize;
   mkEntry (lit "SCAN") (-2) false KeyCommands.cmdScan].

Definition list_commands : list (CommandEntry handler) :=
  [mkEntry (lit "LPUSH") (-3) true ListCommands.cmdLPush;
   mkEntry (lit "RPUSH") (-3) true ListCommands.cmdRPush;
   mkEntry (lit "LPOP") 2 true ListCommands.cmdLPop;
   mkEntry (lit "RPOP") 2 true ListCommands.cmdRPop;
   mkEntry (lit "LLEN") 2 false ListCommands.cmdLLen;
   mkEntry (lit "LRANGE") 4 false ListCommands.cmdLRange].

Definition hash_commands : list (CommandEntry handler) :=
  [mkEntry (lit "HSET") (-4) true HashCommands.cmdHSet;
   mkEntry (lit "HGET") 3 false HashCommands.cmdHGet;
   mkEntry (lit "HDEL") (-3) true HashCommands.cmdHDel;
   mkEntry (lit "HGETALL") 2 false HashCommands.cmdHGetAll;
   mkEntry (lit "HLEN") 2 false HashCommands.cmdHLen].

Definition set_commands : list (CommandEntry handler) :=
  [mkEntry (lit "SADD") (-3) true SetCommands.cmdSAdd;
   mkEntry (lit "SREM") (-3) true SetCommands.cmdSRem;
   mkEntry (lit "SISMEMBER") 3 false SetCommands.cmdSIsMember;
   mkEntry (lit "SMEMBERS") 2 false SetCommands.cmdSMembers;
   mkEntry (lit "SCARD") 2 false SetCommands.cmdSCard].

Definition zset_commands : list (CommandEntry handler) :=
  [mkEntry (lit "ZADD") (-4) true ZSetCommands.cmdZAdd;
   mkEntry (lit "ZSCORE") 3 false ZSetCommands.cmdZScore;
   mkEntry (lit "ZRANK") 3 false ZSetCommands.cmdZRank;
   mkEntry (lit "ZRANGE") (-4) false ZSetCommands.cmdZRange;
   mkEntry (lit "ZCARD") 2 false ZSetCommands.cmdZCard;
   mkEntry (lit "ZREM") (-3) true ZSetCommands.cmdZRem].

Definition transaction_commands : list (CommandEntry handler) :=
  [mkEntry (lit "MULTI") 1 false TransactionCommands.cmdMulti;
   mkEntry (lit "DISCARD") 1 false TransactionCommands.cmdDiscard].

Definition server_commands : list (CommandEntry handler) :=
  [mkEntry (lit "DBSIZE") 1 false ServerCommands.cmdDbsize;
   mkEntry (lit "FLUSHDB") (-1) true ServerCommands.cmdFlushdb].

Definition core_commands : list (CommandEntry handler) :=
  string_commands ++ key_commands ++ list_commands ++ hash_commands ++ set_commands ++
  zset_commands ++ transaction_commands ++ server_commands.

Definition core_table : CommandTable := foldl registerCommand ∅ core_commands.

(** ** What a client can rely on for every command *)

(** [r] was appended to the output; only the transaction queue may have changed
    besides. *)
Definition answered (c : Connection) (r : resp) (c' : Connection) : Prop :=
  out_ok c' ∧ Buffer.readable (out_ c') = Buffer.readable (out_ c) ++ encode r ∧
  c' = set_out (out_ c') (set_txn (txn c') c).

Lemma replied_answered c r c' : replied c r c' → answered c r c'.
Proof.
  intros (H1 & H2 & H3). split; [done|]. split; [done|]. rewrite H1. by destruct c.
Qed.

(** [LRANGE] and [ZRANGE] let the exceptions of [std::stoi] escape: their indices
    must parse. *)
Definition indices_ok (nm : bytes) (args : list bytes) : Prop :=
  nm = lit "LRANGE" ∨ nm = lit "ZRANGE" → (∃ i, stoi (arg args 2) = Ok i) ∧ ∃ j, stoi (arg args 3) = Ok j.

(** Nothing a client can see at [now] or later differs: at most expired entries
    are gone. *)
Definition unseen (e : Env) (m m' : Database.keyspace) : Prop :=
  m' ⊆ m ∧ ∀ now, (∀ j, clk e j ≤ now)%Z → Database.live now m' = Database.live now m.

(** Only MULTI and DISCARD touch the transaction queue. *)
Definition txn_kept (nm : bytes) (c c' : Connection) : Prop :=
  txn c' = txn c ∨
  ((nm = lit "MULTI" ∨ nm = lit "DISCARD") ∧ (txn c' = None ∨ txn c' = Some (mkTxn []))).

(** One command: one answer, the invariants kept, and no visible change unless
    it is flagged as a write. *)
Definition good_outcome (nm : bytes) (w : bool) (e : Env) (db : DB) (c : Connection) (x : DB * Connection) : Prop :=
  let '(db', c') := x in
  Database.wf db' ∧ keyspace_ok (Database.view db') ∧ (∃ r, answered c r c') ∧ txn_kept nm c c' ∧
  (w = false → unseen e (Database.view db) (Database.view db')).

(** With indices that parse the command succeeds; without, it may still end with
    the exception. *)
Definition serves (nm : bytes) (w : bool) (h : handler) (accepts : list bytes → Prop) : Prop :=
  ∀ e db c args, env_ok e → Database.wf db → keyspace_ok (Database.view db) → out_ok c → accepts args →
    (indices_ok nm args → h e db c args ⇓ good_outcome nm w e db c) ∧
    h e db c args ⇓? good_outcome nm w e db c.

Definition entry_ok (nm : bytes) (entry : CommandEntry handler) : Prop :=
  serves nm (isWrite entry) (run entry) (λ args, arity_ok (arity entry) args = true).

Definition table_ok (t : CommandTable) : Prop := map_Forall entry_ok t.

Definition readonly (R : command_spec) : Prop :=
  ∀ e m args r m', env_ok e → R e m args r m' → unseen e m m'.

Lemma unseen_refl e m : unseen e m m.
Proof. done. Qed.

Lemma unseen_trans e m1 m2 m3 : unseen e m1 m2 → unseen e m2 m3 → unseen e m1 m3.
Proof.
  intros [H1 H2] [H3 H4]. split; [by etrans|]. intros now Hnow. by rewrite H4, H2.
Qed.

Lemma unseen_purge e i k m : unseen e m (Database.purge (clk e i) k m).
Proof.
  split; [apply Database.purge_subseteq|]. intros now Hnow. by apply Database.live_purge_later.
Qed.

#[local] Hint Resolve unseen_refl unseen_purge : redis.

Lemma replied_good nm w e db c r m' db' c' :
  Database.holds m' db' → keyspace_ok m' → replied c r c' → (w = false → unseen e (Database.view db) m') →
  good_outcome nm w e db c (db', c').
Proof.
  intros [Hw Hv] Hk Hr Hu. unfold good_outcome. rewrite Hv. split; [done|]. split; [done|].
  split; [exists r; by apply replied_answered|]. split; [|done]. left. by destruct Hr as [-> _].
Qed.

(** A handler that implements a specification serves. *)
Lemma implements_serves nm w h pre R (accepts : list bytes → Prop) :
  implements h pre R → (∀ args, accepts args → pre args) → (w = false → readonly R) → serves nm w h accepts.
Proof.
  intros Hi Hpre Hro e db c args He Hwf Hks Hc Ha.
  assert (Hok : h e db c args ⇓ good_outcome nm w e db c).
  { eapply returns_mono; [apply (Hi e db c args); auto|]. intros [db' c'] (r & m' & HR & Hh & Hk & Hr).
    eapply replied_good; [exact Hh|done|done|]. intros Hf. by apply (Hro Hf e _ args r). }
  split; [done|]. by eapply returns_survives.
Qed.

Lemma unseen_purge_all e i ks m : unseen e m (KeyCommands.purge_all e i m ks).
Proof.
  revert i m. induction ks as [|k ks IH]; intros i m; cbn [KeyCommands.purge_all]; [done|].
  eapply unseen_trans; [apply unseen_purge|apply IH].
Qed.

Lemma readonly_exactly f :
  (∀ e m args, env_ok e → unseen e m (f e m args).2) → readonly (exactly f).
Proof. intros Hf e m args r m' He HR. unfold exactly in HR. replace m' with (f e m args).2; [auto|by rewrite <- HR]. Qed.

(** The keyspace of a look-up command is the purged one on every path. *)
Lemma on_list_snd (m : Database.keyspace) (k : bytes) none some :
  none.2 = m → (∀ l d, (some l d).2 = m) → (ListCommands.on_list m k none some).2 = m.
Proof.
  intros Hn Hs. unfold ListCommands.on_list. destruct (m !! k) as [[[[] enc dat] d]|]; try done.
  destruct dat; simpl; auto.
Qed.

Lemma on_hash_snd {A : Type} (m : Database.keyspace) (k : bytes) (none wrong : A * Database.keyspace) some :
  none.2 = m → wrong.2 = m → (∀ h d, (some h d).2 = m) → (HashCommands.on_hash m k none wrong some).2 = m.
Proof.
  intros Hn Hw Hs. unfold HashCommands.on_hash. destruct (m !! k) as [[[[] enc dat] d]|]; try done.
  destruct dat; simpl; auto.
Qed.

Lemma on_set_snd {A : Type} (m : Database.keyspace) (k : bytes) (none wrong : A * Database.keyspace) some :
  none.2 = m → wrong.2 = m → (∀ s d, (some s d).2 = m) → (SetCommands.on_set m k none wrong some).2 = m.
Proof.
  intros Hn Hw Hs. unfold SetCommands.on_set. destruct (m !! k) as [[[[] enc dat] d]|]; try done.
  destruct dat; simpl; auto.
Qed.

Lemma on_zset_snd {A : Type} (m : Database.keyspace) (k : bytes) (none wrong : A * Database.keyspace) some :
  none.2 = m → wrong.2 = m → (∀ z d, (some z d).2 = m) → (ZSetCommands.on_zset m k none wrong some).2 = m.
Proof.
  intros Hn Hw Hs. unfold ZSetCommands.on_zset. destruct (m !! k) as [[[[] enc dat] d]|]; try done.
  destruct dat; simpl; auto.
Qed.

Ltac purged := intros e m args _; cbn zeta; rewrite ?on_list_snd, ?on_hash_snd, ?on_set_snd, ?on_zset_snd by
  (intros; repeat case_match; done); apply unseen_purge.

Lemma readonly_specs :
  readonly StringCommands.spec_ping ∧ readonly StringCommands.spec_get ∧
  readonly KeyCommands.spec_exists ∧ readonly KeyCommands.spec_keys ∧ readonly KeyCommands.spec_ttl ∧
  readonly KeyCommands.spec_pttl ∧ readonly KeyCommands.spec_dbsize ∧ readonly KeyCommands.spec_scan ∧
  readonly ListCommands.spec_llen ∧ readonly ListCommands.spec_lrange ∧
  readonly HashCommands.spec_hget ∧ readonly HashCommands.spec_hgetall ∧ readonly HashCommands.spec_hlen ∧
  readonly SetCommands.spec_sismember ∧ readonly SetCommands.spec_smembers ∧ readonly SetCommands.spec_scard ∧
  readonly ServerCommands.spec_dbsize ∧
  readonly ZSetCommands.spec_zscore ∧ readonly ZSetCommands.spec_zrank ∧ readonly ZSetCommands.spec_zrange ∧
  readonly ZSetCommands.spec_zcard.
Proof.
  repeat match goal with |- _ ∧ _ => split end.
  - by apply readonly_exactly.
  - apply readonly_exactly. purged.
  - apply readonly_exactly. intros e m args _. apply unseen_purge_all.
  - intros e m args r m' _ (ks & _ & _ & _ & ->). done.
  - apply readonly_exactly. purged.
  - apply readonly_exactly. purged.
  - by apply readonly_exactly.
  - intros e m args r m' _. unfold KeyCommands.spec_scan.
    destruct (KeyCommands.parseInteger (arg args 1)) as [cur|]; [|by intros [_ ->]].
    destruct (cur <? 0)%Z; [by intros [_ ->]|].
    destruct (KeyCommands.scan_options _ _ _) as [[n p]|]; [|by intros [_ ->]].
    by intros (next & raw & _ & _ & Hsub & Hl).
  - apply readonly_exactly. purged.
  - apply readonly_exactly. purged.
  - apply readonly_exactly. purged.
  - intros e m args r m' _ [-> _]. apply unseen_purge.
  - apply readonly_exactly. purged.
  - apply readonly_exactly. purged.
  - intros e m args r m' _ [-> _]. apply unseen_purge.
  - apply readonly_exactly. purged.
  - by apply readonly_exactly.
  - apply readonly_exactly. purged.
  - intros e m args r m' _ [-> _]. apply unseen_purge.
  - intros e m args r m' _. unfold ZSetCommands.spec_zrange. cbn zeta.
    destruct (_ && _); [by intros [_ ->]|]. intros [-> _]. apply unseen_purge.
  - intros e m args r m' _ [-> _]. apply unseen_purge.
Qed.

Lemma arity_exact n args : (0 < n)%Z → arity_ok n args = true → Z.of_nat (length args) = n.
Proof. unfold arity_ok. intros Hn. destruct (Z.ltb_spec 0 n); lia. Qed.

Lemma arity_min n args : (n ≤ 0)%Z → arity_ok n args = true → (- n ≤ Z.of_nat (length args))%Z.
Proof. unfold arity_ok. intros Hn. destruct (Z.ltb_spec 0 n); lia. Qed.

(** A command that only looks, on a key of type [T]: enough that it survives on an
    object of that type. *)
Lemma withKey_survives nm T e db c k missing rm found :
  Database.wf db → keyspace_ok (Database.view db) → out_ok c → missing c ⇓ replied c rm →
  (∀ db1 o, object_ok o → type o = T → found db1 o ⇓? λ _, False) →
  withKey T e db c k missing found ⇓? good_outcome nm false e db c.
Proof.
  intros Hwf Hks Hc Hm Hf. unfold withKey. go_with openKey_ok; [done|]. intros [t db1] [Hh ->].
  pose proof (keyspace_ok_purge (clk e 0) k _ Hks) as Hks1. pose proof Hh as [_ Hv].
  unfold target_of. rewrite Hv. destruct (Database.purge _ _ _ !! _) as [[o d]|] eqn:Hk; [case_bool_decide as Ht|].
  - eapply survives_mono; [apply Hf; [by apply (Hks1 _ _ Hk)|done]|done].
  - go_with replyError_ok; [done|]. intros c' Hr. cbn. eapply replied_good; eauto using unseen_purge.
  - eapply returns_survives_bind; [exact Hm|]. intros c' Hr. cbn. eapply replied_good; eauto using unseen_purge.
Qed.

(** Two indices of which one does not parse end the command with an exception. *)
Definition bad_indices (args : list bytes) : Prop :=
  ∃ f, stoi (arg args 2) = Fault f ∨ (∃ i, stoi (arg args 2) = Ok i) ∧ stoi (arg args 3) = Fault f.

Lemma bad_indices_survives {A} args (k : Z → Z → result A) :
  bad_indices args → (i ← stoi (arg args 2); j ← stoi (arg args 3); k i j) ⇓? λ _, False.
Proof.
  intros [f [Hf|[[i Hi] Hf]]]; rewrite ?Hi, Hf; cbn [mbind result_bind survives].
  - pose proof (stoi_survives (arg args 2)) as Hs. by rewrite Hf in Hs.
  - pose proof (stoi_survives (arg args 3)) as Hs. by rewrite Hf in Hs.
Qed.

Lemma lrange_bad e db c args :
  Database.wf db → keyspace_ok (Database.view db) → out_ok c → 4 ≤ length args → bad_indices args →
  ListCommands.cmdLRange e db c args ⇓? good_outcome (lit "LRANGE") false e db c.
Proof.
  intros Hwf Hks Hc Hargs Hf. unfold ListCommands.cmdLRange. rewrite !vec_get_arg by lia. cbn [mbind result_bind].
  eapply withKey_survives; [done|done|done|by apply replyEmpty_ok|]. intros db1 o [Ho _] Ht.
  destruct (object_list o Ho Ht) as [l ->]. open_data. by apply bad_indices_survives.
Qed.

Lemma zrange_bad e db c args :
  Database.wf db → keyspace_ok (Database.view db) → out_ok c → 4 ≤ length args → bad_indices args →
  ZSetCommands.cmdZRange e db c args ⇓? good_outcome (lit "ZRANGE") false e db c.
Proof.
  intros Hwf Hks Hc Hargs Hf. unfold ZSetCommands.cmdZRange. cbv zeta. destruct (_ && _).
  { go_with replyError_ok; [done|]. intros c' Hr. cbn. eapply replied_good; eauto using unseen_refl. done. }
  rewrite !vec_get_arg by lia. cbn [mbind result_bind].
  eapply withKey_survives; [done|done|done|by apply replyEmpty_ok|]. intros db1 o [Ho _] Ht.
  destruct (object_zset o Ho Ht) as (z & -> & _). open_data. by apply bad_indices_survives.
Qed.

(** A handler that leaves the database alone. *)
Lemma quiet_serves nm w h accepts :
  (∀ e db c args, out_ok c → h e db c args ⇓ λ '(db', c'), db' = db ∧ (∃ r, answered c r c') ∧ txn_kept nm c c') →
  serves nm w h accepts.
Proof.
  intros Hh e db c args He Hwf Hks Hc Ha.
  assert (Hok : h e db c args ⇓ good_outcome nm w e db c).
  { eapply returns_mono; [by apply Hh|]. intros [db' c'] (-> & Hr & Ht).
    split; [done|]. split; [done|]. split; [done|]. split; [done|]. intros _. apply unseen_refl. }
  split; [done|]. by eapply returns_survives.
Qed.

(** LRANGE and ZRANGE end with an answer or with the exception of a bad index. *)
Lemma indexed_serves nm h R n :
  nm = lit "LRANGE" ∨ nm = lit "ZRANGE" → (∀ args, arity_ok n args = true → 4 ≤ length args) →
  implements h (λ args, arity_ok n args = true ∧ (∃ i, stoi (arg args 2) = Ok i) ∧ ∃ j, stoi (arg args 3) = Ok j) R →
  readonly R →
  (∀ e db c args, Database.wf db → keyspace_ok (Database.view db) → out_ok c → 4 ≤ length args → bad_indices args →
     h e db c args ⇓? good_outcome nm false e db c) →
  serves nm false h (λ args, arity_ok n args = true).
Proof.
  intros Hnm Hn Hi Hro Hbad e db c args He Hwf Hks Hc Ha.
  assert (Hgood : (∃ i, stoi (arg args 2) = Ok i) ∧ (∃ j, stoi (arg args 3) = Ok j) →
    h e db c args ⇓ good_outcome nm false e db c).
  { intros Hij. eapply returns_mono; [apply (Hi e db c args); auto|].
    intros [db' c'] (r & m' & HR & Hh & Hk & Hr). eapply replied_good; [exact Hh|done|done|]. intros _. by eapply Hro. }
  split; [intros Hidx; by apply Hgood, Hidx|].
  destruct (stoi (arg args 2)) as [i|f] eqn:E2; [destruct (stoi (arg args 3)) as [j|f] eqn:E3|].
  - eapply returns_survives; [apply Hgood; eauto|done].
  - apply Hbad; auto. exists f. right. eauto.
  - apply Hbad; auto. exists f. by left.
Qed.

Lemma implements_mono h (P Q : list bytes → Prop) R : implements h P R → (∀ args, Q args → P args) → implements h Q R.
Proof. intros Hi HPQ e db c args He Hwf Hks Hc Hq. by apply Hi; [..|apply HPQ]. Qed.

Lemma lrange_serves : serves (lit "LRANGE") false ListCommands.cmdLRange (λ args, arity_ok 4 args = true).
Proof.
  apply (indexed_serves _ _ ListCommands.spec_lrange); [by left| | |apply readonly_specs|intros; by apply lrange_bad].
  - intros args Ha%arity_exact; lia.
  - eapply implements_mono; [apply ListCommands.cmdLRange_ok|]. intros args [Ha%arity_exact ?]; [|lia]. split; [lia|done].
Qed.

Lemma zrange_serves : serves (lit "ZRANGE") false ZSetCommands.cmdZRange (λ args, arity_ok (-4) args = true).
Proof.
  apply (indexed_serves _ _ ZSetCommands.spec_zrange); [by right| | |apply readonly_specs|intros; by apply zrange_bad].
  - intros args Ha%arity_min; lia.
  - eapply implements_mono; [apply ZSetCommands.cmdZRange_ok|]. intros args [Ha%arity_min ?]; [|lia]. split; [lia|done].
Qed.

Lemma multi_serves : serves (lit "MULTI") false TransactionCommands.cmdMulti (λ args, arity_ok 1 args = true).
Proof.
  apply quiet_serves. intros e db c args Hc. eapply returns_mono; [by apply TransactionCommands.cmdMulti_ok|].
  intros [db' c'] [-> Hm]. split; [done|]. destruct (txn c) eqn:Ht.
  - split; [eexists; by apply replied_answered|]. left. by destruct Hm as [-> _].
  - destruct Hm as (H1 & H2 & H3). split.
    + eexists. split; [done|]. split; [exact H3|]. rewrite H1. by destruct c.
    + right. split; [by left|]. right. by rewrite H1.
Qed.

Lemma discard_serves : serves (lit "DISCARD") false TransactionCommands.cmdDiscard (λ args, arity_ok 1 args = true).
Proof.
  apply quiet_serves. intros e db c args Hc. eapply returns_mono; [by apply TransactionCommands.cmdDiscard_ok|].
  intros [db' c'] [-> Hm]. split; [done|]. destruct (txn c) eqn:Ht.
  - destruct Hm as (H1 & H2 & H3). split.
    + eexists. split; [done|]. split; [exact H3|]. rewrite H1. by destruct c.
    + right. split; [by right|]. left. by rewrite H1.
  - split; [eexists; by apply replied_answered|]. left. by destruct Hm as [-> _].
Qed.

Ltac serve lem :=
  eapply implements_serves; [apply lem
    |intros args Ha; cbv beta in *; first [apply arity_exact in Ha; [lia|lia] | apply arity_min in Ha; [lia|lia]]
    |intros Hw; first [discriminate Hw | apply readonly_specs]].

(** Every registered command serves. *)
Lemma core_commands_ok : Forall (λ entry, entry_ok (to_upper (name entry)) entry) core_commands.
Proof.
  unfold core_commands, string_commands, key_commands, list_commands, hash_commands, set_commands,
    zset_commands, transaction_commands, server_commands. cbn [app].
  repeat (apply Forall_cons; split); try apply Forall_nil; try done; unfold entry_ok; cbn [name arity isWrite run].
  - serve StringCommands.cmdPing_ok.
  - serve StringCommands.cmdSet_ok.
  - serve StringCommands.cmdGet_ok.
  - serve KeyCommands.cmdDel_ok.
  - serve KeyCommands.cmdExists_ok.
  - serve KeyCommands.cmdKeys_ok.
  - serve KeyCommands.cmdExpire_ok.
  - serve KeyCommands.cmdTtl_ok.
  - serve KeyCommands.cmdPexpire_ok.
  - serve KeyCommands.cmdPttl_ok.
  - serve KeyCommands.cmdDbsize_ok.
  - serve KeyCommands.cmdScan_ok.
  - serve ListCommands.cmdLPush_ok.
  - serve ListCommands.cmdRPush_ok.
  - serve ListCommands.cmdLPop_ok.
  - serve ListCommands.cmdRPop_ok.
  - serve ListCommands.cmdLLen_ok.
  - apply lrange_serves.
  - serve HashCommands.cmdHSet_ok.
  - serve HashCommands.cmdHGet_ok.
  - serve HashCommands.cmdHDel_ok.
  - serve HashCommands.cmdHGetAll_ok.
  - serve HashCommands.cmdHLen_ok.
  - serve SetCommands.cmdSAdd_ok.
  - serve SetCommands.cmdSRem_ok.
  - serve SetCommands.cmdSIsMember_ok.
  - serve SetCommands.cmdSMembers_ok.
  - serve SetCommands.cmdSCard_ok.
  - serve ZSetCommands.cmdZAdd_ok.
  - serve ZSetCommands.cmdZScore_ok.
  - serve ZSetCommands.cmdZRank_ok.
  - apply zrange_serves.
  - serve ZSetCommands.cmdZCard_ok.
  - serve ZSetCommands.cmdZRem_ok.
  - apply multi_serves.
  - apply discard_serves.
  - serve ServerCommands.server_cmdDbsize_ok.
  - serve ServerCommands.cmdFlushdb_ok.
Qed.

(** What holds of every entry holds of the table. *)
Lemma register_all_Forall (P : bytes → CommandEntry handler → Prop) t entries :
  (∀ nm entry, P nm entry → P nm (mkEntry (to_upper (name entry)) (arity entry) (isWrite entry) (run entry))) →
  map_Forall P t → Forall (λ entry, P (to_upper (name entry)) entry) entries →
  map_Forall P (foldl registerCommand t entries).
Proof.
  intros HP. revert t. induction entries as [|entry entries IH]; intros t Ht Hall; [done|].
  apply Forall_cons in Hall as [He Hall]. apply IH; [|done]. by apply map_Forall_insert_2; [apply HP|].
Qed.

Lemma core_table_ok : table_ok core_table.
Proof. apply register_all_Forall; [done|apply map_Forall_empty|apply core_commands_ok]. Qed.

Lemma dispatch_serves t e db c arg0 rest :
  table_ok t → env_ok e → Database.wf db → keyspace_ok (Database.view db) → out_ok c →
  indices_ok (to_upper arg0) (arg0 :: rest) →
  dispatch t e db c (arg0 :: rest) ⇓ good_outcome (to_upper arg0) (isWriteCommand t arg0) e db c.
Proof.
  intros Ht He Hwf Hks Hc Hidx. unfold dispatch, dispatch_with, isWriteCommand.
  destruct (t !! to_upper arg0) as [entry|] eqn:Hn.
  - destruct (arity_ok (arity entry) (arg0 :: rest)) eqn:Ha; cbn [negb].
    + by apply (Ht _ _ Hn).
    + run_with replyError_ok; [done|]. intros c' Hc'. apply returns_ok. by eapply replied_good.
  - run_with replyError_ok; [done|]. intros c' Hc'. apply returns_ok. by eapply replied_good.
Qed.

(** Without a condition on the arguments only the exception remains. *)
Lemma dispatch_survives t e db c arg0 rest :
  table_ok t → env_ok e → Database.wf db → keyspace_ok (Database.view db) → out_ok c →
  dispatch t e db c (arg0 :: rest) ⇓? good_outcome (to_upper arg0) (isWriteCommand t arg0) e db c.
Proof.
  intros Ht He Hwf Hks Hc. unfold dispatch, dispatch_with, isWriteCommand.
  destruct (t !! to_upper arg0) as [entry|] eqn:Hn; [destruct (arity_ok _ _) eqn:Ha; cbn [negb]|].
  - by apply (Ht _ _ Hn).
  - go_with replyError_ok; [done|]. intros c' Hc'. by eapply replied_good.
  - go_with replyError_ok; [done|]. intros c' Hc'. by eapply replied_good.
Qed.

(** ** Properties *)

(** C21: every command gets exactly one well-formed answer.  Whatever the bytes
    of a command (indices of LRANGE and ZRANGE that are not integers apart), dispatch
    ends without a fault or uncaught exception, appends one RESP value to the
    output of its connection, keeps the database consistent and free of empty or
    ill-typed objects, and a command not flagged as a write changes nothing that
    any client can see. *)
Theorem dispatch_answers_once (e : Env) (db : DB) (c : Connection) (arg0 : bytes) (rest : list bytes) :
  env_ok e → Database.wf db → keyspace_ok (Database.view db) → out_ok c →
  indices_ok (to_upper arg0) (arg0 :: rest) →
  dispatch core_table e db c (arg0 :: rest) ⇓ λ '(db', c'),
    Database.wf db' ∧ keyspace_ok (Database.view db') ∧ (∃ r, answered c r c') ∧
    (isWriteCommand core_table arg0 = false → unseen e (Database.view db) (Database.view db')).
Proof.
  intros He Hwf Hks Hc Hidx. eapply returns_mono; [by apply (dispatch_serves core_table), Hidx; try apply core_table_ok|].
  intros [db' c'] (? & ? & ? & _ & ?). done.
Qed.

(** Command names are case-insensitive, an unknown one and a wrong number
    of arguments are answered with an error, and the database is not touched. *)
Theorem dispatch_rejects (t : CommandTable) (e : Env) (db : DB) (c : Connection) (arg0 : bytes) (rest : list bytes) :
  out_ok c →
  match t !! to_upper arg0 with
  | None => dispatch t e db c (arg0 :: rest) ⇓ λ '(db', c'), db' = db ∧ replied c (RError (ERR_UNKNOWN arg0)) c'
  | Some entry =>
      if arity_ok (arity entry) (arg0 :: rest)
      then dispatch t e db c (arg0 :: rest) = run entry e db c (arg0 :: rest)
      else dispatch t e db c (arg0 :: rest) ⇓ λ '(db', c'),
             db' = db ∧ replied c (RError (ERR_ARITY (to_upper arg0))) c'
  end.
Proof.
  intros Hc. unfold dispatch, dispatch_with. destruct (t !! to_upper arg0) as [entry|] eqn:Hn.
  - destruct (arity_ok (arity entry) (arg0 :: rest)) eqn:Ha; cbn [negb]; [done|].
    run_with replyError_ok; [done|]. intros c' Hc'. by apply returns_ok.
  - run_with replyError_ok; [done|]. intros c' Hc'. by apply returns_ok.
Qed.

(** ** Witnesses *)

Lemma dispatch_answers_once_witness :
  dispatch core_table ListCommands.plain_env Database.empty (Connection.create 7 0)
    [lit "set"; lit "a"; lit "1"] ⇓ λ '(db', c'),
    Database.wf db' ∧ keyspace_ok (Database.view db') ∧ (∃ r, answered (Connection.create 7 0) r c') ∧
    (isWriteCommand core_table (lit "set") = false →
     unseen ListCommands.plain_env (Database.view Database.empty) (Database.view db')).
Proof.
  apply (dispatch_answers_once ListCommands.plain_env Database.empty (Connection.create 7 0) (lit "set")
    [lit "a"; lit "1"]).
  - split; [exists 0%Z|..]; done.
  - exact (proj1 (Database.empty_ok Database.linux64)).
  - rewrite (proj1 (proj2 (Database.empty_ok Database.linux64))). apply map_Forall_empty.
  - exact (proj1 Buffer.empty_represents).
  - intros [Hn|Hn]; vm_compute in Hn; discriminate Hn.
Defined.

Lemma dispatch_rejects_witness :
  dispatch core_table ListCommands.plain_env Database.empty (Connection.create 7 0) [lit "get"] ⇓ λ '(db', c'),
    db' = Database.empty ∧ replied (Connection.create 7 0) (RError (ERR_ARITY (lit "GET"))) c'.
Proof.
  exact (dispatch_rejects core_table ListCommands.plain_env Database.empty (Connection.create 7 0) (lit "get") []
    (proj1 Buffer.empty_represents)).
Defined.

End CommandTable.
