(* ===== verification/CmdSpec.v ===== *)
(** * What every command line does

    The specifications of the command modules put together: [command_line] relates
    the keyspace and an argument vector to the reply and the new keyspace, for
    every command that works on the database and for every way of calling it
    wrongly.  [dispatch_implements]: the command table implements it, deadlines,
    encodings and container orders included. *)
From Stdlib Require Import Ascii String ZArith Lia ZifyNat ZifyBool.
From stdpp Require Import base option list strings gmap.
From S2P Require Import Prelude CStdlib NetBuffer ProtoSerializer NetConnection StoreObject StoreInterfaces.
From S2P Require Import StoreDatabase CmdBase CmdString CmdKey CmdList CmdHash CmdSet CmdZSet CmdTransaction CmdTable.
Import RedisObject Connection CommandTable.

Module CmdSpec.

(** MULTI and DISCARD work on the connection and are left out. *)
Definition command_specs : list (bytes * command_spec) :=
  [(lit "PING", StringCommands.spec_ping); (lit "SET", StringCommands.spec_set); (lit "GET", StringCommands.spec_get);
   (lit "DEL", KeyCommands.spec_del); (lit "EXISTS", KeyCommands.spec_exists); (lit "KEYS", KeyCommands.spec_keys);
   (lit "EXPIRE", KeyCommands.spec_expire); (lit "TTL", KeyCommands.spec_ttl); (lit "PEXPIRE", KeyCommands.spec_pexpire);
   (lit "PTTL", KeyCommands.spec_pttl); (lit "DBSIZE", ServerCommands.spec_dbsize); (lit "SCAN", KeyCommands.spec_scan);
   (lit "LPUSH", ListCommands.spec_lpush); (lit "RPUSH", ListCommands.spec_rpush);
   (lit "LPOP", ListCommands.spec_pop ListCommands.pop_front); (lit "RPOP", ListCommands.spec_pop ListCommands.pop_back);
   (lit "LLEN", ListCommands.spec_llen); (lit "LRANGE", ListCommands.spec_lrange);
   (lit "HSET", HashCommands.spec_hset); (lit "HGET", HashCommands.spec_hget); (lit "HDEL", HashCommands.spec_hdel);
   (lit "HGETALL", HashCommands.spec_hgetall); (lit "HLEN", HashCommands.spec_hlen);
   (lit "SADD", SetCommands.spec_sadd); (lit "SREM", SetCommands.spec_srem); (lit "SISMEMBER", SetCommands.spec_sismember);
   (lit "SMEMBERS", SetCommands.spec_smembers); (lit "SCARD", SetCommands.spec_scard);
   (lit "ZADD", ZSetCommands.spec_zadd); (lit "ZSCORE", ZSetCommands.spec_zscore); (lit "ZRANK", ZSetCommands.spec_zrank);
   (lit "ZRANGE", ZSetCommands.spec_zrange); (lit "ZCARD", ZSetCommands.spec_zcard); (lit "ZREM", ZSetCommands.spec_zrem);
   (lit "FLUSHDB", ServerCommands.spec_flushdb)].

(** The specification registered under a name. *)
Definition specified (nm : bytes) (R : command_spec) : Prop := (nm, R) ∈ command_specs.

(** A whole command line: unknown names and wrong numbers of arguments are answered
    with an error and change nothing. *)
Definition command_line : command_spec := λ e m args r m',
  match args with
  | [] => False
  | arg0 :: _ =>
      match core_table !! to_upper arg0 with
      | None => r = RError (ERR_UNKNOWN arg0) ∧ m' = m
      | Some entry =>
          if arity_ok (arity entry) args then ∃ R, specified (to_upper arg0) R ∧ R e m args r m'
          else r = RError (ERR_ARITY (to_upper arg0)) ∧ m' = m
      end
  end.

(** Not MULTI or DISCARD, and with indices that parse. *)
Definition data_command (args : list bytes) : Prop :=
  match args with
  | [] => False
  | arg0 :: _ => to_upper arg0 ≠ lit "MULTI" ∧ to_upper arg0 ≠ lit "DISCARD" ∧ indices_ok (to_upper arg0) args
  end.

(** ** The handlers implement it *)

Definition entry_implements (nm : bytes) (entry : CommandEntry handler) : Prop :=
  nm ≠ lit "MULTI" → nm ≠ lit "DISCARD" →
  ∃ R, specified nm R ∧ implements (run entry) (λ args, arity_ok (arity entry) args = true ∧ indices_ok nm args) R.

Lemma with_spec nm n w h pre R :
  specified nm R → implements h pre R → (∀ args, arity_ok n args = true → indices_ok nm args → pre args) →
  entry_implements nm (mkEntry nm n w h).
Proof.
  intros Hs Hi Hpre _ _. exists R. split; [done|]. eapply implements_mono; [exact Hi|]. intros args [Ha Hix]. by apply Hpre.
Qed.

Ltac listed := unfold specified, command_specs; repeat first [apply list_elem_of_here | apply list_elem_of_further].

Ltac by_spec lem :=
  eapply with_spec; [listed|apply lem
    |intros args Ha Hix; cbv beta in *; first [apply arity_exact in Ha; [lia|lia] | apply arity_min in Ha; [lia|lia]]].

Lemma core_commands_implement : Forall (λ entry, entry_implements (to_upper (name entry)) entry) core_commands.
Proof.
  unfold core_commands, string_commands, key_commands, list_commands, hash_commands, set_commands,
    zset_commands, transaction_commands, server_commands. cbn [app].
  repeat (apply Forall_cons; split); try exact (List.Forall_nil _).
  - by_spec StringCommands.cmdPing_ok.
  - by_spec StringCommands.cmdSet_ok.
  - by_spec StringCommands.cmdGet_ok.
  - by_spec KeyCommands.cmdDel_ok.
  - by_spec KeyCommands.cmdExists_ok.
  - by_spec KeyCommands.cmdKeys_ok.
  - by_spec KeyCommands.cmdExpire_ok.
  - by_spec KeyCommands.cmdTtl_ok.
  - by_spec KeyCommands.cmdPexpire_ok.
  - by_spec KeyCommands.cmdPttl_ok.
  - by_spec KeyCommands.cmdDbsize_ok.
  - by_spec KeyCommands.cmdScan_ok.
  - by_spec ListCommands.cmdLPush_ok.
  - by_spec ListCommands.cmdRPush_ok.
  - by_spec ListCommands.cmdLPop_ok.
  - by_spec ListCommands.cmdRPop_ok.
  - by_spec ListCommands.cmdLLen_ok.
  - eapply with_spec; [listed|apply ListCommands.cmdLRange_ok|]. intros args Ha Hix. apply arity_exact in Ha; [|lia].
    split; [lia|]. apply Hix. by left.
  - by_spec HashCommands.cmdHSet_ok.
  - by_spec HashCommands.cmdHGet_ok.
  - by_spec HashCommands.cmdHDel_ok.
  - by_spec HashCommands.cmdHGetAll_ok.
  - by_spec HashCommands.cmdHLen_ok.
  - by_spec SetCommands.cmdSAdd_ok.
  - by_spec SetCommands.cmdSRem_ok.
  - by_spec SetCommands.cmdSIsMember_ok.
  - by_spec SetCommands.cmdSMembers_ok.
  - by_spec SetCommands.cmdSCard_ok.
  - by_spec ZSetCommands.cmdZAdd_ok.
  - by_spec ZSetCommands.cmdZScore_ok.
  - by_spec ZSetCommands.cmdZRank_ok.
  - eapply with_spec; [listed|apply ZSetCommands.cmdZRange_ok|]. intros args Ha Hix. apply arity_min in Ha; [|lia].
    split; [lia|]. apply Hix. by right.
  - by_spec ZSetCommands.cmdZCard_ok.
  - by_spec ZSetCommands.cmdZRem_ok.
  - intros Hno _. by destruct Hno.
  - intros _ Hno. by destruct Hno.
  - by_spec ServerCommands.server_cmdDbsize_ok.
  - by_spec ServerCommands.cmdFlushdb_ok.
Qed.

Lemma core_table_implements : map_Forall entry_implements core_table.
Proof. apply register_all_Forall; [done|apply map_Forall_empty|apply core_commands_implement]. Qed.

#[local] Opaque core_table.

Lemma dispatch_spec : implements (dispatch core_table) data_command command_line.
Proof.
  intros e db c args He Hwf Hks Hc Hd. destruct args as [|arg0 rest]; [done|]. destruct Hd as (Hm & Hdis & Hix).
  unfold dispatch, dispatch_with, command_line. destruct (core_table !! to_upper arg0) as [entry|] eqn:Hn.
  - destruct (arity_ok (arity entry) (arg0 :: rest)) eqn:Ha; cbn [negb].
    + destruct (core_table_implements _ _ Hn Hm Hdis) as (R & HR & Hi). clear Hn.
      eapply returns_mono; [apply (Hi e db c (arg0 :: rest) He Hwf Hks Hc (conj Ha Hix))|].
      intros [db' c'] (r & m' & HR' & Hrest). exists r, m'. split; [exists R; split; assumption|exact Hrest].
    + clear Hn. run_with replyError_ok; [exact Hc|]. intros c' Hc'. apply returns_ok.
      exists (RError (ERR_ARITY (to_upper arg0))), (Database.view db).
      exact (conj (conj eq_refl eq_refl) (conj (conj Hwf eq_refl) (conj Hks Hc'))).
  - clear Hn. run_with replyError_ok; [exact Hc|]. intros c' Hc'. apply returns_ok.
    exists (RError (ERR_UNKNOWN arg0)), (Database.view db).
    exact (conj (conj eq_refl eq_refl) (conj (conj Hwf eq_refl) (conj Hks Hc'))).
Qed.

#[local] Transparent core_table.

(** A name has one specification. *)
Lemma specs_distinct : NoDup command_specs.*1.
Proof. apply (bool_decide_eq_true_1 (NoDup _)). vm_compute. reflexivity. Qed.

(** ** Properties *)

(** C4: the command table implements the specification of the commands.  For every
    command line that is not MULTI or DISCARD, known or not, with any number of
    arguments and any bytes in them (indices of LRANGE and ZRANGE that do not
    parse apart), on any consistent database and at any time, dispatch ends
    without a fault, appends exactly one reply, and reply and new data are the
    ones its specification allows.  The specifications follow the code where the
    documents promise more: KEYS answers every stored key, whatever the pattern and
    expired or not, and SET with options and INCR are errors. *)
Theorem dispatch_implements (e : Env) (db : DB) (c : Connection) (args : list bytes) :
  env_ok e → Database.wf db → keyspace_ok (Database.view db) → out_ok c → data_command args →
  dispatch core_table e db c args ⇓ λ '(db', c'), ∃ r m',
    command_line e (Database.view db) args r m' ∧ Database.holds m' db' ∧ keyspace_ok m' ∧ replied c r c'.
Proof. intros. by apply dispatch_spec. Qed.

(** ** Witness *)

Definition demo_args : list bytes := [lit "expire"; lit "k"; lit "ten"].

Lemma dispatch_implements_witness :
  dispatch core_table ListCommands.plain_env Database.empty (Connection.create 7 0) demo_args ⇓ λ '(db', c'), ∃ r m',
    command_line ListCommands.plain_env (Database.view Database.empty) demo_args r m' ∧ Database.holds m' db' ∧
    keyspace_ok m' ∧ replied (Connection.create 7 0) r c'.
Proof.
  apply (dispatch_implements ListCommands.plain_env Database.empty (Connection.create 7 0) demo_args).
  - split; [exists 0%Z|..]; done.
  - exact (proj1 (Database.empty_ok Database.linux64)).
  - rewrite (proj1 (proj2 (Database.empty_ok Database.linux64))). apply map_Forall_empty.
  - exact (proj1 Buffer.empty_represents).
  - split; [|split].
    + intros H. vm_compute in H. discriminate H.
    + intros H. vm_compute in H. discriminate H.
    + intros [H|H]; vm_compute in H; discriminate H.
Defined.

End CmdSpec.
