(* ===== verification/CmdStore.v ===== *)
(** * The data as a client sees it

    An abstract store: a finite map from keys to values that are strings, lists,
    hashes, sets and sorted sets without their representation (encodings,
    skiplists, hash-table slots, deadlines).  [apply] is the reference
    interpreter: what each command does to it.

    [dispatch_refines_store] shows that dispatching a command on a database
    without deadlines does exactly that, whatever the environment.  Replay of the
    log and the background rewrite are proved correct on top of it. *)
From Stdlib Require Import Ascii String ZArith Lia ZifyNat ZifyBool.
From stdpp Require Import base option list strings gmap.
From S2P Require Import Prelude CStdlib CDouble CFloat CFloatText NetBuffer ProtoSerializer NetConnection StoreSkiplist.
From S2P Require Import StoreObject StoreInterfaces StoreDatabase CmdBase CmdString CmdKey CmdList CmdHash CmdSet CmdZSet.
From S2P Require Import CmdTransaction CmdTable.
Import RedisObject Connection.

Module Store.

Inductive value :=
| VString (s : bytes)
| VList (l : list bytes)
| VHash (h : gmap bytes bytes)
| VSet (s : gset bytes)
| VZSet (h : gmap bytes double).

Abbreviation store := (gmap bytes value).

(** ** The reference interpreter *)

(** Change the value under [k]: [f] answers [None] for a value of another type,
    [Some None] to delete the key. *)
Definition change (k : bytes) (f : option value → option (option value)) (st : store) : store :=
  match f (st !! k) with
  | None => st
  | Some None => delete k st
  | Some (Some v) => <[k := v]> st
  end.

Definition some_unless {A} (b : bool) (v : A) : option A := if b then None else Some v.

Definition push_list (push : list bytes → list bytes) (v : option value) : option (option value) :=
  match v with
  | None => Some (Some (VList (push [])))
  | Some (VList l) => Some (Some (VList (push l)))
  | Some _ => None
  end.

Definition pop_list (pop : list bytes → option (bytes * list bytes)) (v : option value) : option (option value) :=
  match v with
  | Some (VList l) =>
      match pop l with
      | Some (_, l') => Some (some_unless (bool_decide (l' = [])) (VList l'))
      | None => None
      end
  | _ => None
  end.

Definition put_hash (fvs : list (bytes * bytes)) (v : option value) : option (option value) :=
  match v with
  | None => Some (Some (VHash (HashCommands.put_all ∅ fvs)))
  | Some (VHash h) => Some (Some (VHash (HashCommands.put_all h fvs)))
  | Some _ => None
  end.

Definition del_hash (fs : list bytes) (v : option value) : option (option value) :=
  match v with
  | Some (VHash h) =>
      let h' := filter (λ fv, fv.1 ∉ fs) h in Some (some_unless (bool_decide (h' = ∅)) (VHash h'))
  | _ => None
  end.

Definition add_set (xs : list bytes) (v : option value) : option (option value) :=
  match v with
  | None => Some (Some (VSet (∅ ∪ list_to_set xs)))
  | Some (VSet s) => Some (Some (VSet (s ∪ list_to_set xs)))
  | Some _ => None
  end.

Definition rem_set (xs : list bytes) (v : option value) : option (option value) :=
  match v with
  | Some (VSet s) =>
      let s' := s ∖ list_to_set xs in Some (some_unless (bool_decide (s' = ∅)) (VSet s'))
  | _ => None
  end.

Definition add_zset (sxs : list (double * bytes)) (v : option value) : option (option value) :=
  match v with
  | None => Some (Some (VZSet (ZSetCommands.put_scores ∅ sxs)))
  | Some (VZSet h) => Some (Some (VZSet (ZSetCommands.put_scores h sxs)))
  | Some _ => None
  end.

Definition rem_zset (xs : list bytes) (v : option value) : option (option value) :=
  match v with
  | Some (VZSet h) =>
      let h' := filter (λ xs', xs'.1 ∉ xs) h in Some (some_unless (bool_decide (h' = ∅)) (VZSet h'))
  | _ => None
  end.

(** An even number of arguments after the key. *)
Definition paired (args : list bytes) : bool := bool_decide ((length args - 2) mod 2 = 0).

(** What the commands on one value do to it. *)
Definition update (nm : bytes) (args : list bytes) : option value → option (option value) :=
  let xs := drop 2 args in
  if bool_decide (nm = lit "LPUSH") then push_list (λ l, rev xs ++ l)
  else if bool_decide (nm = lit "RPUSH") then push_list (λ l, l ++ xs)
  else if bool_decide (nm = lit "LPOP") then pop_list ListCommands.pop_front
  else if bool_decide (nm = lit "RPOP") then pop_list ListCommands.pop_back
  else if bool_decide (nm = lit "HSET") then if paired args then put_hash (HashCommands.pairs xs) else λ _, None
  else if bool_decide (nm = lit "HDEL") then del_hash xs
  else if bool_decide (nm = lit "SADD") then add_set xs
  else if bool_decide (nm = lit "SREM") then rem_set xs
  else if bool_decide (nm = lit "ZADD") then if paired args then add_zset (ZSetCommands.scored xs) else λ _, None
  else if bool_decide (nm = lit "ZREM") then rem_zset xs
  else λ _, None.

(** The command [nm], called with a number of arguments it accepts. *)
Definition apply_named (nm : bytes) (args : list bytes) (st : store) : store :=
  let k := arg args 1 in
  if bool_decide (nm = lit "SET") then <[k := VString (asString (createString (arg args 2)))]> st
  else if bool_decide (nm = lit "DEL") then filter (λ kv, kv.1 ∉ drop 1 args) st
  else if bool_decide (nm = lit "FLUSHDB") then ∅
  else change k (update nm args) st.

(** A command line: unknown commands and wrong numbers of arguments do nothing. *)
Definition apply (t : CommandTable.CommandTable) (args : list bytes) (st : store) : store :=
  match args with
  | [] => st
  | arg0 :: _ =>
      match t !! to_upper arg0 with
      | Some entry =>
          if CommandTable.arity_ok (CommandTable.arity entry) args then apply_named (to_upper arg0) args st else st
      | None => st
      end
  end.

(** ** Abstraction *)

Definition value_of (o : RedisObject) : value :=
  match data o with
  | DString s => VString s
  | DInteger z => VString (to_string z)
  | DDeque l => VList l
  | DMap h => VHash h
  | DSet s => VSet s
  | DZSet z => VZSet (dict z)
  end.

Definition store_of (m : Database.keyspace) : store := (λ x, value_of x.1) <$> m.

(** A sorted set whose two halves agree and whose scores are binary64 numbers. *)
Definition zset_good (z : ZSetData) : Prop := zset_ok z ∧ map_Forall (λ _ s, CFloatText.binary64 s) (dict z).

Definition set_good (o : RedisObject) : Prop := ∀ z, data o = DZSet z → zset_good z.

Definition sets_good (m : Database.keyspace) : Prop := map_Forall (λ _ x, set_good x.1) m.

(** No deadlines, and good sorted sets. *)
Definition calm (m : Database.keyspace) : Prop := map_Forall (λ _ x, x.2 = (-1)%Z ∧ set_good x.1) m.

(** The commands of a session without deadlines: no EXPIRE or PEXPIRE, and scores
    that are numbers. *)
Definition plain (args : list bytes) : Prop :=
  match args with
  | [] => True
  | arg0 :: _ =>
      to_upper arg0 ≠ lit "EXPIRE" ∧ to_upper arg0 ≠ lit "PEXPIRE" ∧
      (to_upper arg0 = lit "ZADD" → ZSetCommands.numbers (ZSetCommands.scored (drop 2 args)))
  end.

Lemma purge_calm now k m : calm m → Database.purge now k m = m.
Proof.
  intros Hm. unfold Database.purge. destruct (m !! k) as [[o d]|] eqn:Hk; [|done].
  destruct (Hm k _ Hk) as [Hd _]. cbn in Hd. by rewrite Hd.
Qed.

Lemma live_calm now m : calm m → Database.live now m = m.
Proof.
  intros Hm. unfold Database.live. apply map_filter_id. intros k x Hk. destruct (Hm k x Hk) as [Hd _].
  change (Database.expired now x.2 = false). by rewrite Hd.
Qed.

Lemma calm_sub m m' : m' ⊆ m → calm m → calm m'.
Proof. intros Hs Hm k x Hk. apply (Hm k). by eapply lookup_weaken. Qed.

Lemma calm_delete k m : calm m → calm (delete k m).
Proof. apply calm_sub, delete_subseteq. Qed.

Lemma calm_insert k o d m : d = (-1)%Z → set_good o → calm m → calm (<[k := (o, d)]> m).
Proof. intros -> Hz Hm. by apply map_Forall_insert_2. Qed.

Lemma calm_sets m : calm m → sets_good m.
Proof. intros Hm k x Hk. apply (Hm k x Hk). Qed.

Lemma sets_good_sub m m' : m' ⊆ m → sets_good m → sets_good m'.
Proof. intros Hs Hm k x Hk. apply (Hm k). by eapply lookup_weaken. Qed.

(** *** What a command sees under its key *)

(** The object under a key of a good keyspace, by its value. *)
Inductive entry_view (d : Z) : option (RedisObject * Z) → option value → Prop :=
| view_none : d = (-1)%Z → entry_view d None None
| view_string o s : type o = STRING → entry_view d (Some (o, d)) (Some (VString s))
| view_list l : entry_view d (Some (ListCommands.list_obj l, d)) (Some (VList l))
| view_hash h : entry_view d (Some (HashCommands.hash_obj h, d)) (Some (VHash h))
| view_set s : entry_view d (Some (SetCommands.set_obj s, d)) (Some (VSet s))
| view_zset z : zset_good z → entry_view d (Some (ZSetCommands.zset_obj z, d)) (Some (VZSet (dict z))).

(** The deadline of a key, -1 for none. *)
Definition deadline_at (m : Database.keyspace) (k : bytes) : Z := default (-1)%Z (snd <$> m !! k).

Lemma entry_cases m k : keyspace_ok m → sets_good m → entry_view (deadline_at m k) (m !! k) (store_of m !! k).
Proof.
  intros Hk Hc. unfold store_of, deadline_at. rewrite lookup_fmap.
  destruct (m !! k) as [[o d]|] eqn:Ho; [|by constructor]. destruct (Hk k _ Ho) as [Hw _]. specialize (Hc k _ Ho). cbn in *.
  destruct o as [[] [] []]; cbn in *; try done; constructor; auto.
Qed.

Lemma store_insert k o d m : store_of (<[k := (o, d)]> m) = <[k := value_of o]> (store_of m).
Proof. unfold store_of. by rewrite fmap_insert. Qed.

Lemma store_delete k m : store_of (delete k m) = delete k (store_of m).
Proof. unfold store_of. by rewrite fmap_delete. Qed.

Lemma store_lookup k m : store_of m !! k = (λ x, value_of x.1) <$> m !! k.
Proof. unfold store_of. by rewrite lookup_fmap. Qed.

Lemma value_of_string v : value_of (createString v) = VString (asString (createString v)).
Proof. by destruct (createString_cases v) as [->|(z & -> & _)]. Qed.

(** ** Commands refine the interpreter *)

(** A specification that, on data without deadlines, does what the interpreter
    does. *)
Definition refines (nm : bytes) (pre : list bytes → Prop) (R : command_spec) : Prop :=
  ∀ e m args r m', keyspace_ok m → calm m → pre args → R e m args r m' →
    store_of m' = apply_named nm args (store_of m) ∧ calm m'.

Lemma refines_set : refines (lit "SET") (λ _, True) StringCommands.spec_set.
Proof.
  intros e m args r m' Hk Hc _ [= _ ->]. split; [by rewrite store_insert, value_of_string|].
  apply calm_insert; [done| |done]. by destruct (createString_cases (arg args 2)) as [->|(z & -> & _)].
Qed.

Lemma refines_del : refines (lit "DEL") (λ _, True) KeyCommands.spec_del.
Proof.
  intros e m args r m' Hk Hc _ [= _ ->]. split; [|by eapply calm_sub; [apply map_filter_subseteq|]].
  change (apply_named (lit "DEL") args (store_of m)) with (filter (λ kv, kv.1 ∉ drop 1 args) (store_of m)).
  apply map_eq. intros k. apply option_eq. intros v. rewrite store_lookup, map_lookup_filter_Some, store_lookup.
  rewrite !fmap_Some. setoid_rewrite map_lookup_filter_Some. naive_solver.
Qed.

Lemma refines_flushdb : refines (lit "FLUSHDB") (λ _, True) ServerCommands.spec_flushdb.
Proof. intros e m args r m' Hk Hc _ [= _ ->]. split; [apply fmap_empty|apply map_Forall_empty]. Qed.

(** *** Commands on one value *)

(** [f] says what happens to the value under [k]: it stays, it goes, or an object
    with the new value takes its place and keeps its deadline. *)
Inductive updated (k : bytes) (m : Database.keyspace) : option (option value) → Database.keyspace → Prop :=
| updated_keep : updated k m None m
| updated_delete : updated k m (Some None) (delete k m)
| updated_write o v d :
    value_of o = v → d = deadline_at m k → set_good o → updated k m (Some (Some v)) (<[k := (o, d)]> m).

(** A specification that updates the value under its key, unless the arguments are
    refused. *)
Definition updates (nm : bytes) (pre : list bytes → Prop) (R : command_spec) : Prop :=
  ∀ e m args r m', keyspace_ok m → sets_good m → pre args → R e m args r m' →
    (m' = m ∧ ∀ v, update nm args v = None) ∨
    let m1 := Database.purge (clk e 0) (arg args 1) m in
    updated (arg args 1) m1 (update nm args (store_of m1 !! arg args 1)) m'.

(** By the value under the key, in the keyspace without it when it has expired. *)
Ltac by_value m k HR :=
  match goal with
  | Hk : keyspace_ok m, Hc : sets_good m |- _ =>
      right; cbv zeta; match type of HR with context [Database.purge ?now k m] =>
        let m1 := fresh "m1" in
        set (m1 := Database.purge now k m) in *;
        let H1 := fresh in let H2 := fresh in
        assert (keyspace_ok m1) as H1 by (by apply keyspace_ok_purge);
        assert (sets_good m1) as H2 by (by apply (sets_good_sub m); [apply Database.purge_subseteq|]); clearbody m1;
        revert HR; destruct (entry_cases m1 k H1 H2) as [Hd|o s Ho|l|h|s|z Hz]; intros HR;
        [|destruct o as [[] enc dat]; try discriminate Ho|..]; cbn in HR |- *
      end
  end.

(** The value stays, goes, or is written. *)
Ltac written HR := first [injection HR as _ -> | destruct HR as [_ ->]]; by constructor; try symmetry.

Lemma updates_push nm (push : list bytes → list bytes → list bytes) :
  (∀ args, update nm args = push_list (λ l, push l (drop 2 args))) → updates nm (λ _, True) (ListCommands.spec_push push).
Proof.
  intros Hn e m args r m' Hk Hc _ HR. unfold ListCommands.spec_push, exactly in HR. cbn zeta in HR. rewrite Hn.
  unfold ListCommands.on_list in *. by_value m (arg args 1) HR; written HR.
Qed.

Lemma updates_pop nm pop :
  (∀ args, update nm args = pop_list pop) → updates nm (λ _, True) (ListCommands.spec_pop pop).
Proof.
  intros Hn e m args r m' Hk Hc _ HR. unfold ListCommands.spec_pop, exactly in HR. cbn zeta in HR. rewrite Hn.
  unfold ListCommands.on_list in *. by_value m (arg args 1) HR; [written HR|written HR| |written HR..].
  destruct (pop l) as [[x l']|]; [|written HR]. case_bool_decide; cbn; written HR.
Qed.

Lemma updates_lpush : updates (lit "LPUSH") (λ _, True) ListCommands.spec_lpush.
Proof. by apply (updates_push (lit "LPUSH") (λ l xs, rev xs ++ l)). Qed.
Lemma updates_rpush : updates (lit "RPUSH") (λ _, True) ListCommands.spec_rpush.
Proof. by apply (updates_push (lit "RPUSH") (λ l xs, l ++ xs)). Qed.
Lemma updates_lpop : updates (lit "LPOP") (λ _, True) (ListCommands.spec_pop ListCommands.pop_front).
Proof. by apply updates_pop. Qed.
Lemma updates_rpop : updates (lit "RPOP") (λ _, True) (ListCommands.spec_pop ListCommands.pop_back).
Proof. by apply updates_pop. Qed.

Lemma updates_hset : updates (lit "HSET") (λ _, True) HashCommands.spec_hset.
Proof.
  intros e m args r m' Hk Hc _ HR. unfold HashCommands.spec_hset, exactly in HR. cbn zeta in HR.
  change (update (lit "HSET") args) with (if paired args then put_hash (HashCommands.pairs (drop 2 args)) else λ _, None).
  fold (paired args) in HR. destruct (paired args); cbn [negb] in HR; [|left; by injection HR as _ ->].
  unfold HashCommands.on_hash in *. by_value m (arg args 1) HR; written HR.
Qed.

Lemma updates_hdel : updates (lit "HDEL") (λ _, True) HashCommands.spec_hdel.
Proof.
  intros e m args r m' Hk Hc _ HR. unfold HashCommands.spec_hdel, exactly in HR. cbn zeta in HR.
  change (update (lit "HDEL") args) with (del_hash (drop 2 args)).
  unfold HashCommands.on_hash in *. by_value m (arg args 1) HR; try written HR. case_bool_decide; cbn; written HR.
Qed.

Lemma updates_sadd : updates (lit "SADD") (λ _, True) SetCommands.spec_sadd.
Proof.
  intros e m args r m' Hk Hc _ HR. unfold SetCommands.spec_sadd, exactly in HR. cbn zeta in HR.
  change (update (lit "SADD") args) with (add_set (drop 2 args)).
  unfold SetCommands.on_set in *. by_value m (arg args 1) HR; written HR.
Qed.

Lemma updates_srem : updates (lit "SREM") (λ _, True) SetCommands.spec_srem.
Proof.
  intros e m args r m' Hk Hc _ HR. unfold SetCommands.spec_srem, exactly in HR. cbn zeta in HR.
  change (update (lit "SREM") args) with (rem_set (drop 2 args)).
  unfold SetCommands.on_set in *. by_value m (arg args 1) HR; try written HR. case_bool_decide; cbn; written HR.
Qed.

Lemma updates_zadd :
  updates (lit "ZADD") (λ args, ZSetCommands.numbers (ZSetCommands.scored (drop 2 args))) ZSetCommands.spec_zadd.
Proof.
  intros e m args r m' Hk Hc Hnum HR. unfold ZSetCommands.spec_zadd in HR. cbn zeta in HR.
  change (update (lit "ZADD") args) with (if paired args then add_zset (ZSetCommands.scored (drop 2 args)) else λ _, None).
  fold (paired args) in HR. destruct (paired args); cbn [negb] in HR; [|left; by destruct HR as [_ ->]].
  unfold ZSetCommands.on_zset in *. by_value m (arg args 1) HR; try written HR.
  - destruct HR as (z' & -> & Hz & _ & Hok). constructor; [cbn; by rewrite Hz|done|]. intros z [= <-].
    split; [apply Hok; [apply create_zset_ok|done]|].
    rewrite Hz. apply ZSetCommands.put_scores_binary64; [apply map_Forall_empty|done].
  - destruct HR as (z' & -> & Hd & _ & Hok). constructor; [cbn; by rewrite Hd|done|]. intros z2 [= <-].
    destruct Hz as [Hz Hb]. split; [by apply Hok|]. rewrite Hd. by apply ZSetCommands.put_scores_binary64.
Qed.

Lemma updates_zrem : updates (lit "ZREM") (λ _, True) ZSetCommands.spec_zrem.
Proof.
  intros e m args r m' Hk Hc _ HR. unfold ZSetCommands.spec_zrem in HR. cbn zeta in HR.
  change (update (lit "ZREM") args) with (rem_zset (drop 2 args)).
  unfold ZSetCommands.on_zset in *. by_value m (arg args 1) HR; try written HR.
  destruct HR as (z' & Hd & _ & -> & Hok). rewrite <- Hd. case_bool_decide; cbn; constructor; [done|done|].
  intros z2 [= <-]. destruct Hz as [Hz Hb]. split; [by apply Hok|].
  rewrite Hd. intros x s [Hx _]%map_lookup_filter_Some. by apply (Hb x).
Qed.

(** On data without deadlines an update is the interpreter's. *)
Lemma updates_refines nm pre R :
  updates nm pre R → (∀ args st, apply_named nm args st = change (arg args 1) (update nm args) st) → refines nm pre R.
Proof.
  intros Hu Hn e m args r m' Hk Hc Hp HR. rewrite Hn. unfold change.
  destruct (Hu e m args r m' Hk (calm_sets m Hc) Hp HR) as [[-> ->]|H]; [done|]. rewrite purge_calm in H by done.
  cbv zeta in H. destruct H as [| |o v d <- -> Ho].
  - done.
  - split; [apply store_delete|by apply calm_delete].
  - split; [apply store_insert|]. apply calm_insert; [|done|done]. unfold deadline_at.
    destruct (m !! arg args 1) as [x|] eqn:Hx; [|done]. apply (Hc _ x Hx).
Qed.

(** ** Dispatch refines the interpreter *)

Definition plain_named (nm : bytes) (args : list bytes) : Prop :=
  nm ≠ lit "EXPIRE" ∧ nm ≠ lit "PEXPIRE" ∧
  (nm = lit "ZADD" → ZSetCommands.numbers (ZSetCommands.scored (drop 2 args))).

Definition applied (nm : bytes) (args : list bytes) (db : DB) (x : DB * Connection) : Prop :=
  store_of (Database.view x.1) = apply_named nm args (store_of (Database.view db)) ∧ calm (Database.view x.1).

Definition entry_refines (nm : bytes) (entry : CommandTable.CommandEntry handler) : Prop :=
  ∀ e db c args, env_ok e → Database.wf db → keyspace_ok (Database.view db) → calm (Database.view db) → out_ok c →
    plain_named nm args → CommandTable.arity_ok (CommandTable.arity entry) args = true →
    CommandTable.run entry e db c args ⇓? applied nm args db.

Lemma write_refines nm pre pre' R n w h :
  implements h pre R → refines nm pre' R → (∀ args, CommandTable.arity_ok n args = true → pre args) →
  (∀ args, plain_named nm args → pre' args) → entry_refines nm (CommandTable.mkEntry nm n w h).
Proof.
  intros Hi Hr Hpre Hpre' e db c args He Hwf Hks Hc Hout Hp Ha. cbn in *.
  eapply returns_survives; [by apply (Hi e db c args); [..|apply Hpre]|].
  intros [db' c'] (r & m' & HR & [_ Hv] & _). unfold applied. cbn [fst]. rewrite Hv. by eapply Hr; [..|apply Hpre'|].

Qed.

(** Nothing visible changes: nothing changes. *)
Lemma unseen_calm e m m' : env_ok e → calm m → CommandTable.unseen e m m' → m' = m.
Proof.
  intros He Hc [Hsub Hl]. destruct (clk_ends e He) as [now Hnow]. specialize (Hl now Hnow).
  by rewrite !live_calm in Hl by eauto using calm_sub.
Qed.

Lemma read_refines nm entry :
  CommandTable.entry_ok nm entry → CommandTable.isWrite entry = false → (∀ args st, apply_named nm args st = st) →
  entry_refines nm entry.
Proof.
  intros Hok Hw Hid e db c args He Hwf Hks Hc Hout Hp Ha. unfold CommandTable.entry_ok in Hok. rewrite Hw in Hok.
  eapply survives_mono; [by apply Hok|]. intros [db' c'] (_ & _ & _ & _ & Hu). unfold applied. cbn [fst].
  rewrite (unseen_calm e _ _ He Hc (Hu eq_refl)), Hid. done.
Qed.

Ltac refine_write H1 H2 :=
  eapply write_refines; [apply H1|apply H2
    |intros args Ha; cbv beta in *; first [apply CommandTable.arity_exact in Ha; [lia|lia]
       | apply CommandTable.arity_min in Ha; [lia|lia]]
    |try done].

Ltac refine_update H1 H2 := refine_write H1 (updates_refines _ _ _ H2 (λ _ _, eq_refl)).

Ltac each_command :=
  unfold CommandTable.core_commands, CommandTable.string_commands, CommandTable.key_commands,
    CommandTable.list_commands, CommandTable.hash_commands, CommandTable.set_commands, CommandTable.zset_commands,
    CommandTable.transaction_commands, CommandTable.server_commands; cbn [app];
  repeat (apply Forall_cons; split); try exact (List.Forall_nil _); intros Hw.

(** The commands that are not writes do nothing to the store. *)
Definition entry_reads (nm : bytes) (entry : CommandTable.CommandEntry handler) : Prop :=
  CommandTable.isWrite entry = false → ∀ args st, apply_named nm args st = st.

Lemma core_commands_read : Forall (λ entry, entry_reads (to_upper (CommandTable.name entry)) entry) CommandTable.core_commands.
Proof. each_command; first [discriminate Hw | reflexivity]. Qed.

Lemma core_commands_refine :
  Forall (λ entry, entry_refines (to_upper (CommandTable.name entry)) entry) CommandTable.core_commands.
Proof.
  pose proof core_commands_read as Hreads.
  assert (Hwrites : Forall (λ entry, CommandTable.isWrite entry = true →
    entry_refines (to_upper (CommandTable.name entry)) entry) CommandTable.core_commands).
  { each_command; try discriminate Hw; clear Hw.
    - refine_write StringCommands.cmdSet_ok refines_set.
    - refine_write KeyCommands.cmdDel_ok refines_del.
    - intros e db c args _ _ _ _ _ [Hno _]. by destruct Hno.
    - intros e db c args _ _ _ _ _ (_ & Hno & _). by destruct Hno.
    - refine_update ListCommands.cmdLPush_ok updates_lpush.
    - refine_update ListCommands.cmdRPush_ok updates_rpush.
    - refine_update ListCommands.cmdLPop_ok updates_lpop.
    - refine_update ListCommands.cmdRPop_ok updates_rpop.
    - refine_update HashCommands.cmdHSet_ok updates_hset.
    - refine_update HashCommands.cmdHDel_ok updates_hdel.
    - refine_update SetCommands.cmdSAdd_ok updates_sadd.
    - refine_update SetCommands.cmdSRem_ok updates_srem.
    - refine_update ZSetCommands.cmdZAdd_ok updates_zadd. intros args (_ & _ & Hz). by apply Hz.
    - refine_update ZSetCommands.cmdZRem_ok updates_zrem.
    - refine_write ServerCommands.cmdFlushdb_ok refines_flushdb. }
  pose proof CommandTable.core_commands_ok as Hok. rewrite list.Forall_forall in Hreads, Hwrites, Hok |- *.
  intros entry Hin. destruct (CommandTable.isWrite entry) eqn:Hw; [by apply Hwrites|].
  apply read_refines; [by apply Hok|done|by apply Hreads].
Qed.

Lemma core_table_refines : map_Forall entry_refines CommandTable.core_table.
Proof.
  apply CommandTable.register_all_Forall; [done|apply map_Forall_empty|apply core_commands_refine].
Qed.

Lemma apply_read arg0 rest st :
  CommandTable.isWriteCommand CommandTable.core_table arg0 = false →
  apply CommandTable.core_table (arg0 :: rest) st = st.
Proof.
  unfold apply, CommandTable.isWriteCommand.
  assert (Hall : map_Forall entry_reads CommandTable.core_table).
  { apply CommandTable.register_all_Forall; [done|apply map_Forall_empty|apply core_commands_read]. }
  destruct (CommandTable.core_table !! to_upper arg0) as [entry|] eqn:Hn; [|done]. intros Hw.
  destruct (CommandTable.arity_ok _ _); [|done]. by apply (Hall _ _ Hn).
Qed.

(** Dispatching does to the store what the interpreter does. *)
Lemma dispatch_applies e db c args :
  env_ok e → Database.wf db → keyspace_ok (Database.view db) → calm (Database.view db) → out_ok c → plain args →
  args ≠ [] →
  CommandTable.dispatch CommandTable.core_table e db c args ⇓? λ '(db', _),
    store_of (Database.view db') = apply CommandTable.core_table args (store_of (Database.view db)) ∧
    calm (Database.view db').
Proof.
  intros He Hwf Hks Hc Hout Hp Hne. destruct args as [|arg0 rest]; [done|].
  unfold CommandTable.dispatch, CommandTable.dispatch_with, apply.
  destruct (CommandTable.core_table !! to_upper arg0) as [entry|] eqn:Hn.
  - destruct (CommandTable.arity_ok (CommandTable.arity entry) (arg0 :: rest)) eqn:Ha; cbn [negb].
    + eapply survives_mono; [by apply (core_table_refines _ _ Hn)|]. by intros [db' c'] ?.
    + go_with replyError_ok; [done|]. intros c' _. exact (conj eq_refl Hc).
  - go_with replyError_ok; [done|]. intros c' _. exact (conj eq_refl Hc).
Qed.

(** ** Properties *)

(** C9: the server is a key-value store.  On data without deadlines, dispatching any
    command but EXPIRE, PEXPIRE and a ZADD with a score that is not a number changes
    the database exactly as the reference interpreter changes the abstract store:
    independently of the clock, of random levels, of the order in which containers
    are traversed, of rehashing and of the encodings, on every error path as well.
    Only the exception of an index of LRANGE or ZRANGE that is not an integer can
    prevent it. *)
Theorem dispatch_refines_store (e : Env) (db : DB) (c : Connection) (args : list bytes) :
  env_ok e → Database.wf db → keyspace_ok (Database.view db) → calm (Database.view db) → out_ok c → plain args →
  args ≠ [] →
  CommandTable.dispatch CommandTable.core_table e db c args ⇓? λ '(db', _),
    store_of (Database.view db') = apply CommandTable.core_table args (store_of (Database.view db)) ∧
    calm (Database.view db').
Proof. apply dispatch_applies. Qed.

(** ** Witness *)

Definition rpush_args : list bytes := [lit "rpush"; lit "l"; lit "a"; lit "b"].

Lemma empty_calm : calm (Database.view Database.empty) ∧ keyspace_ok (Database.view Database.empty).
Proof. rewrite (proj1 (proj2 (Database.empty_ok Database.linux64))). split; apply map_Forall_empty. Qed.

Lemma dispatch_refines_store_witness :
  CommandTable.dispatch CommandTable.core_table ListCommands.plain_env Database.empty (Connection.create 7 0) rpush_args
    ⇓? λ '(db', _),
    store_of (Database.view db') =
      apply CommandTable.core_table rpush_args (store_of (Database.view Database.empty)) ∧
    calm (Database.view db').
Proof.
  apply (dispatch_refines_store ListCommands.plain_env Database.empty (Connection.create 7 0) rpush_args).
  - split; [exists 0%Z|..]; done.
  - exact (proj1 (Database.empty_ok Database.linux64)).
  - exact (proj2 empty_calm).
  - exact (proj1 empty_calm).
  - exact (proj1 Buffer.empty_represents).
  - split; [|split]; intros Hn; vm_compute in Hn; discriminate Hn.
  - discriminate.
Defined.

End Store.
