(* ===== verification/CmdIdle.v ===== *)
(** * Commands that set no deadline

    Next to [CmdStore], which follows the keyspace: the deadline heap itself.  As
    long as neither EXPIRE nor PEXPIRE is executed it stays empty, so that the
    timer's [activeExpireCycle] has nothing to delete.  [m ⇓! P] says that [P]
    holds if [m] ends in a value; whether it does is the subject of [CmdTable]. *)
From Stdlib Require Import Ascii String ZArith Lia ZifyNat ZifyBool.
From stdpp Require Import base option list strings gmap.
From S2P Require Import Prelude CStdlib NetConnection StoreTTLHeap StoreObject StoreInterfaces StoreDatabase CmdBase.
From S2P Require Import CmdString CmdKey CmdList CmdHash CmdSet CmdZSet CmdTransaction CmdTable CmdStore.
Import RedisObject Connection.

Module Idle.
Import Store.

(** ** Partial correctness *)

Definition yields {A} (m : result A) (P : A → Prop) : Prop := ∀ a, m = Ok a → P a.
Local Notation "m ⇓! P" := (yields m P) (at level 70, no associativity).

Lemma yields_ret {A} (a : A) (P : A → Prop) : P a → mret a ⇓! P.
Proof. by intros HP b [= <-]. Qed.

Lemma yields_any {A} (m : result A) : m ⇓! λ _, True.
Proof. done. Qed.

Lemma yields_bind {A B} (m : result A) (k : A → result B) (P : A → Prop) (Q : B → Prop) :
  m ⇓! P → (∀ a, P a → k a ⇓! Q) → (m ≫= k) ⇓! Q.
Proof. intros Hm Hk b (a & Ha & Hb)%bind_Ok_inv. by eapply Hk; [apply Hm|]. Qed.

(** ** The database *)

(** No deadline is recorded. *)
Definition no_deadline (db : DB) : Prop := Database.ttlHeap_ db = TTLHeap.empty_heap.

(** The results that carry a database. *)
Definition idle_fst {A} (x : DB * A) : Prop := no_deadline x.1.
Definition idle_snd {A} (x : A * DB) : Prop := no_deadline x.2.

Create HintDb idle.

(** Through binds and branches, with the hints for the calls in between. *)
Ltac idles :=
  repeat first
    [ match goal with H : idle_snd (_, _) |- _ => unfold idle_snd in H; cbn [snd] in H end
    | progress cbv zeta
    | match goal with
      | |- yields (mret _) _ => apply yields_ret; cbv beta iota
      | |- yields (Fault _) _ => intros ? ?; discriminate
      | |- yields (_ ≫= _) _ =>
          first [ eapply yields_bind; [solve [eauto 3 with idle nocore]|cbv beta; intros ? ?]
                | eapply yields_bind; [apply yields_any|cbv beta; intros ? _] ]
      | |- yields (match ?x with _ => _ end) _ => destruct x
      end ];
  try solve [ assumption | eauto 3 with idle nocore ].

Section operations.
Context (P : Platform).
Implicit Types db : DB.

Lemma remove_idle db k : no_deadline db → TTLHeap.remove (Database.ttlHeap_ db) k = Ok TTLHeap.empty_heap.
Proof. by intros ->. Qed.

Lemma rehashStep_idle db : no_deadline db → Database.rehashStep db ⇓! no_deadline.
Proof. intros H. unfold Database.rehashStep. idles. Qed.
Hint Resolve rehashStep_idle : idle.

Lemma checkAndExpire_idle now db k x : no_deadline db → Database.checkAndExpire P now db k x ⇓! idle_snd.
Proof.
  intros H. destruct x as [o d]. unfold Database.checkAndExpire. cbv zeta. cbn [di_remove TTLHeap_DeadlineIndex].
  rewrite (remove_idle (Database.release P o db)) by done. rewrite bind_ok. idles; done.
Qed.
Hint Resolve checkAndExpire_idle : idle.

Lemma findEntry_idle now db k : no_deadline db → Database.findEntry P now db k ⇓! idle_snd.
Proof. intros H. unfold Database.findEntry. idles; done. Qed.

Lemma exists_idle now db k : no_deadline db → Database.exists_ P now db k ⇓! idle_snd.
Proof. intros H. unfold Database.exists_. idles; done. Qed.

Lemma release_entry_idle e db : no_deadline db → no_deadline (Database.release_entry P e db).
Proof. by destruct e as [[o d]|]. Qed.

Lemma del_idle db k : no_deadline db → Database.del P db k ⇓! idle_snd.
Proof.
  intros H. unfold Database.del. eapply yields_bind; [apply yields_any|]. intros r _. cbv zeta.
  cbn [di_remove TTLHeap_DeadlineIndex]. rewrite remove_idle, bind_ok by by apply release_entry_idle. idles; done.
Qed.

Lemma set_idle db k v : no_deadline db → Database.set P db k v ⇓! no_deadline.
Proof.
  intros H. unfold Database.set. cbn [di_remove TTLHeap_DeadlineIndex]. rewrite remove_idle, bind_ok by done.
  assert (Hr : ∀ e m, no_deadline (Database.release_entry P e (Database.mkDatabase (Database.table_ db) TTLHeap.empty_heap m)))
    by (intros e m; by apply release_entry_idle).
  idles; apply Hr.
Qed.

Lemma setObject_idle db k o : no_deadline db → Database.setObject P db k o ⇓! no_deadline.
Proof. intros H. unfold Database.setObject. idles; by apply release_entry_idle. Qed.

Lemma updateObject_idle db k o : no_deadline db → Database.updateObject db k o ⇓! no_deadline.
Proof. intros H. unfold Database.updateObject. idles. Qed.

Lemma keys_idle db : no_deadline db → Database.keys db ⇓! idle_snd.
Proof. intros H. unfold Database.keys. idles; done. Qed.

Lemma ttl_idle now now' db k : no_deadline db → Database.ttl now now' db k ⇓! idle_snd.
Proof.
  intros H. unfold Database.ttl. eapply yields_bind; [apply yields_any|]. intros [[o d]|] _; [|idles; done].
  cbn [di_remove TTLHeap_DeadlineIndex]. rewrite remove_idle, bind_ok by done. idles; done.
Qed.

Lemma scan_filter_idle clk raw pattern : ∀ i db acc,
  no_deadline db → Database.scan_filter P clk i db raw pattern acc ⇓! idle_snd.
Proof. induction raw as [|k raw IH]; intros i db acc H; cbn [Database.scan_filter]; idles; done. Qed.

Lemma scan_idle clk db cursor count pattern :
  no_deadline db → Database.scan P clk db cursor count pattern ⇓! idle_snd.
Proof.
  intros H. unfold Database.scan. eapply yields_bind; [by apply rehashStep_idle|]. intros db1 H1.
  eapply yields_bind; [apply yields_any|]. intros [next raw] _.
  eapply yields_bind; [by apply scan_filter_idle|]. intros [ks db2] H2. by apply yields_ret.
Qed.

(** Nothing is due. *)
Lemma activeExpireCycle_idle now db maxWork : no_deadline db → Database.activeExpireCycle P now db maxWork = Ok db.
Proof.
  intros H. destruct db as [t h m]. unfold no_deadline in H. cbn in H. subst h.
  unfold Database.activeExpireCycle. cbn [di_popExpired TTLHeap_DeadlineIndex Database.ttlHeap_].
  unfold TTLHeap.popExpired. by destruct (Z.to_nat maxWork).
Qed.

End operations.

#[export] Hint Resolve rehashStep_idle checkAndExpire_idle findEntry_idle exists_idle del_idle set_idle setObject_idle
  updateObject_idle keys_idle ttl_idle scan_idle : idle.

(** ** The commands *)

Lemma openKey_idle T e db k : no_deadline db → openKey T e db k ⇓! idle_snd.
Proof. intros H. unfold openKey. idles; done. Qed.
#[local] Hint Resolve openKey_idle : idle.

Lemma openOrCreate_idle T fresh e db k : no_deadline db → openOrCreate T fresh e db k ⇓! idle_snd.
Proof. intros H. unfold openOrCreate. idles; done. Qed.
#[local] Hint Resolve openOrCreate_idle : idle.

Lemma writeOrDelete_idle e db k o b : no_deadline db → writeOrDelete e db k o b ⇓! no_deadline.
Proof. intros H. unfold writeOrDelete. idles. Qed.
#[local] Hint Resolve writeOrDelete_idle : idle.

Lemma withKey_idle T e db c k missing found :
  no_deadline db → (∀ db1 o, no_deadline db1 → found db1 o ⇓! idle_fst) → withKey T e db c k missing found ⇓! idle_fst.
Proof. intros H Hf. unfold withKey. idles; try done; by apply Hf. Qed.

Lemma withNewKey_idle T fresh e db c k found :
  no_deadline db → (∀ db1 o, no_deadline db1 → found db1 o ⇓! idle_fst) → withNewKey T fresh e db c k found ⇓! idle_fst.
Proof. intros H Hf. unfold withNewKey. idles; try done; by apply Hf. Qed.

Lemma del_loop_idle e ks : ∀ db n, no_deadline db → KeyCommands.del_loop e db ks n ⇓! idle_snd.
Proof. induction ks as [|k ks IH]; intros db n H; cbn [KeyCommands.del_loop]; idles; try done; by apply IH. Qed.

Lemma exists_loop_idle e ks : ∀ i db n, no_deadline db → KeyCommands.exists_loop e i db ks n ⇓! idle_snd.
Proof. induction ks as [|k ks IH]; intros i db n H; cbn [KeyCommands.exists_loop]; idles; try done; by apply IH. Qed.
#[local] Hint Resolve del_loop_idle exists_loop_idle : idle.

(** The handlers: those on one key through [withKey] and [withNewKey]. *)
Ltac idle_handler :=
  intros e db c args H; cbv beta delta [CommandTable.run];
  repeat match goal with
  | |- yields (?h _ _ _ _) _ => unfold h
  | |- yields (?h _ _ _ _ _) _ => unfold h
  end;
  idles;
  try (first [eapply withKey_idle | eapply withNewKey_idle]; [eassumption|intros ? ? ?]; idles);
  try done.

Definition entry_idle (nm : bytes) (entry : CommandTable.CommandEntry handler) : Prop :=
  nm ≠ lit "EXPIRE" → nm ≠ lit "PEXPIRE" →
  ∀ e db c args, no_deadline db → CommandTable.run entry e db c args ⇓! idle_fst.

Lemma core_commands_idle : Forall (λ entry, entry_idle (to_upper (CommandTable.name entry)) entry) CommandTable.core_commands.
Proof.
  each_command; intros Hw'; first [by destruct Hw | by destruct Hw' | clear Hw Hw'; cbn [CommandTable.run]; idle_handler].
Qed.

Lemma core_table_idle : map_Forall entry_idle CommandTable.core_table.
Proof.
  apply CommandTable.register_all_Forall; [done|apply map_Forall_empty|apply core_commands_idle].
Qed.

Lemma dispatch_idle e db c args :
  plain args → no_deadline db → CommandTable.dispatch CommandTable.core_table e db c args ⇓! idle_fst.
Proof.
  intros Hp H. destruct args as [|arg0 rest]; [intros ? [= <-]; done|]. destruct Hp as (He & Hpe & _).
  unfold CommandTable.dispatch, CommandTable.dispatch_with.
  destruct (CommandTable.core_table !! to_upper arg0) as [entry|] eqn:Hn; [|idles; done].
  destruct (negb _); [idles; done|]. by apply (core_table_idle _ _ Hn).
Qed.

End Idle.
