(* ===== verification/CmdTimed.v ===== *)
(** * The data with their deadlines

    The abstract store of [CmdStore] with a deadline beside each value, and the
    reference interpreter that takes the time: a look-up sees what is alive, SET
    forgets the deadline, a command that works in place keeps it, EXPIRE and
    PEXPIRE set it.  Two stores are the same from a time on when they differ in
    expired entries only.

    [dispatch_refines_timed] shows that dispatching a command does what the
    interpreter says, whatever is expired, lazily removed or still in the table. *)
From Stdlib Require Import Ascii String ZArith Lia ZifyNat ZifyBool.
From stdpp Require Import base option list strings gmap.
From S2P Require Import Prelude CStdlib CFloatText NetBuffer ProtoSerializer NetConnection StoreObject StoreInterfaces.
From S2P Require Import StoreDatabase CmdBase CmdString CmdKey CmdList CmdHash CmdSet CmdZSet CmdTransaction CmdTable CmdStore.
Import RedisObject Connection.

Module Timed.
Import Store.

Abbreviation tstore := (gmap bytes (value * Z)).

(** What is alive at [now]. *)
Definition alive (now : Z) (st : tstore) : tstore := filter (λ kx, Database.expired now kx.2.2 = false) st.

(** ** The reference interpreter *)

Definition change_timed (k : bytes) (f : option value → option (option value)) (st : tstore) : tstore :=
  match f (fst <$> st !! k) with
  | None => st
  | Some None => delete k st
  | Some (Some v) => <[k := (v, default (-1)%Z (snd <$> st !! k))]> st
  end.

Definition set_deadline (k : bytes) (d : Z) (st : tstore) : tstore :=
  match st !! k with
  | Some (v, _) => <[k := (v, d)]> st
  | None => st
  end.

(** The milliseconds EXPIRE and PEXPIRE ask for. *)
Definition span (nm : bytes) (args : list bytes) : option Z :=
  if bool_decide (nm = lit "EXPIRE") then (λ s, wrap_s64 (s * 1000)) <$> KeyCommands.parseInteger (arg args 2)
  else if bool_decide (nm = lit "PEXPIRE") then KeyCommands.parseInteger (arg args 2)
  else None.

Definition expires (nm : bytes) : bool := bool_decide (nm = lit "EXPIRE") || bool_decide (nm = lit "PEXPIRE").

(** The command [nm] at time [now], on a store of which everything is alive. *)
Definition apply_timed_named (now : Z) (nm : bytes) (args : list bytes) (st : tstore) : tstore :=
  let k := arg args 1 in
  if bool_decide (nm = lit "SET") then <[k := (VString (asString (createString (arg args 2))), (-1)%Z)]> st
  else if bool_decide (nm = lit "DEL") then filter (λ kv, kv.1 ∉ drop 1 args) st
  else if bool_decide (nm = lit "FLUSHDB") then ∅
  else if expires nm then
    match span nm args with
    | Some ms => set_deadline k (wrap_s64 (now + ms)) st
    | None => st
    end
  else change_timed k (update nm args) st.

Definition apply_timed (now : Z) (args : list bytes) (st : tstore) : tstore :=
  alive now
    match args with
    | [] => alive now st
    | arg0 :: _ =>
        match CommandTable.core_table !! to_upper arg0 with
        | Some entry =>
            if CommandTable.arity_ok (CommandTable.arity entry) args
            then apply_timed_named now (to_upper arg0) args (alive now st) else alive now st
        | None => alive now st
        end
    end.

(** ** Expiry *)

Lemma alive_lookup now st k :
  alive now st !! k = match st !! k with
                      | Some (v, d) => if Database.expired now d then None else Some (v, d)
                      | None => None
                      end.
Proof.
  unfold alive. rewrite map_lookup_filter. destruct (st !! k) as [[v d]|]; [|done]. cbn.
  destruct (Database.expired now d) eqn:Hd.
  - rewrite option_guard_False; [done|congruence].
  - by rewrite option_guard_True.
Qed.

Lemma alive_alive now now' st : (now ≤ now')%Z → alive now' (alive now st) = alive now' st.
Proof.
  intros Hle. apply map_eq. intros k. rewrite !alive_lookup. destruct (st !! k) as [[v d]|]; [|done].
  destruct (Database.expired now d) eqn:Hd; [|done]. unfold Database.expired in *.
  by replace (_ && _) with true by lia.
Qed.

(** The same for every client from [now] on. *)
Definition same_from (now : Z) : relation tstore := λ st1 st2, alive now st1 = alive now st2.

#[export] Instance same_from_equiv now : Equivalence (same_from now).
Proof. split; [done|by intros ? ? ?|by intros ? ? ? ? ?; etrans]. Qed.

Lemma same_from_later now now' st1 st2 : (now ≤ now')%Z → same_from now st1 st2 → same_from now' st1 st2.
Proof.
  intros Hle H. unfold same_from in *. by rewrite <- (alive_alive now now' st1), <- (alive_alive now now' st2), H.
Qed.

Lemma same_from_alive now st : same_from now (alive now st) st.
Proof. by apply alive_alive. Qed.

#[export] Instance alive_proper now : Proper (same_from now ==> eq) (alive now).
Proof. by intros st1 st2 H. Qed.

#[export] Instance apply_timed_proper now args : Proper (same_from now ==> eq) (apply_timed now args).
Proof. intros st1 st2 H. unfold apply_timed. by rewrite H. Qed.

Lemma alive_apply now args st : alive now (apply_timed now args st) = apply_timed now args st.
Proof. by apply alive_alive. Qed.

#[export] Instance insert_proper now k x : Proper (same_from now ==> same_from now) (insert (M := tstore) k x).
Proof.
  intros st1 st2 H. apply map_eq. intros j. pose proof (f_equal (lookup j) H) as Hj. rewrite !alive_lookup in *.
  destruct (decide (j = k)) as [->|Hne]; [by rewrite !lookup_insert_eq|by rewrite !lookup_insert_ne].
Qed.

#[export] Instance delete_proper now k : Proper (same_from now ==> same_from now) (delete (M := tstore) k).
Proof.
  intros st1 st2 H. apply map_eq. intros j. pose proof (f_equal (lookup j) H) as Hj. rewrite !alive_lookup in *.
  destruct (decide (j = k)) as [->|Hne]; [by rewrite !lookup_delete_eq|by rewrite !lookup_delete_ne].
Qed.

(** ** Abstraction *)

Definition timed (m : Database.keyspace) : tstore := (λ x, (value_of x.1, x.2)) <$> m.

Lemma timed_lookup m k : timed m !! k = (λ x, (value_of x.1, x.2)) <$> m !! k.
Proof. apply lookup_fmap. Qed.

Lemma timed_insert k o d m : timed (<[k := (o, d)]> m) = <[k := (value_of o, d)]> (timed m).
Proof. unfold timed. by rewrite fmap_insert. Qed.

Lemma timed_delete k m : timed (delete k m) = delete k (timed m).
Proof. apply fmap_delete. Qed.

(** What a client can see is what is alive. *)
Lemma timed_live now m : timed (Database.live now m) = alive now (timed m).
Proof.
  apply map_eq. intros k. rewrite alive_lookup, !timed_lookup, Database.live_lookup.
  destruct (m !! k) as [[o d]|]; [|done]. cbn. by destruct (Database.expired now d).
Qed.

(** Lazy expiry is not visible. *)
Lemma timed_purge now k m : same_from now (timed (Database.purge now k m)) (timed m).
Proof.
  unfold same_from. rewrite <- !timed_live. f_equal. apply Database.live_purge.
Qed.

(** No key of [m] expires while the clock of [e] is read: it is as at [now]. *)
Definition unhurried (e : Env) (now : Z) (m : Database.keyspace) : Prop :=
  ∀ j k x, m !! k = Some x → Database.expired (clk e j) x.2 = Database.expired now x.2.

Lemma unhurried_sub e now m m' : m' ⊆ m → unhurried e now m → unhurried e now m'.
Proof. intros Hs Hm j k x Hk. apply (Hm j k). by eapply lookup_weaken. Qed.

Lemma unhurried_live e now j m : unhurried e now m → Database.live (clk e j) m = Database.live now m.
Proof.
  intros Hm. unfold Database.live. apply map_filter_ext. intros k x Hk. cbn. by rewrite (Hm j k x Hk).
Qed.

Lemma unhurried_purge e now j k m : unhurried e now m → Database.purge (clk e j) k m = Database.purge now k m.
Proof.
  intros Hm. unfold Database.purge. destruct (m !! k) as [[o d]|] eqn:Hk; [|done].
  pose proof (Hm j k _ Hk) as Hx. cbn in Hx. by rewrite Hx.
Qed.

(** ** Commands refine the interpreter *)

Definition timed_refines (nm : bytes) (pre : list bytes → Prop) (R : command_spec) : Prop :=
  ∀ e m args r m', let now := clk e 0 in
    unhurried e now m → keyspace_ok m → sets_good m → pre args → R e m args r m' →
    same_from now (timed m') (apply_timed_named now nm args (alive now (timed m))) ∧ sets_good m'.

Lemma timed_set : timed_refines (lit "SET") (λ _, True) StringCommands.spec_set.
Proof.
  intros e m args r m' now _ Hk Hc _ [= _ ->]. split.
  - rewrite timed_insert, value_of_string. cbn. by rewrite same_from_alive.
  - apply map_Forall_insert_2; [|done]. intros z. by destruct (createString_cases (arg args 2)) as [->|(y & -> & _)].
Qed.

Lemma timed_del : timed_refines (lit "DEL") (λ _, True) KeyCommands.spec_del.
Proof.
  intros e m args r m' now _ Hk Hc _ [= _ ->]. split; [|by eapply sets_good_sub; [apply map_filter_subseteq|]].
  change (apply_timed_named now (lit "DEL") args (alive now (timed m))) with
    (filter (λ kv, kv.1 ∉ drop 1 args) (alive now (timed m))).
  apply map_eq. intros k. rewrite !alive_lookup, timed_lookup, !map_lookup_filter, alive_lookup, timed_lookup.
  destruct (m !! k) as [[o d]|]; [|done]. cbn. destruct (Database.expired now d) eqn:Hd.
  - case_guard; cbn; by rewrite ?Hd.
  - cbn. case_guard; cbn; by rewrite ?Hd.
Qed.

Lemma timed_flushdb : timed_refines (lit "FLUSHDB") (λ _, True) ServerCommands.spec_flushdb.
Proof. intros e m args r m' now _ Hk Hc _ [= _ ->]. split; [|apply map_Forall_empty]. by unfold timed; rewrite fmap_empty. Qed.

(** Setting a deadline. *)
Lemma timed_expire_at e m args d r m' :
  let now := clk e 0 in
  unhurried e now m → sets_good m → (r, m') = KeyCommands.expire_at e m (arg args 1) d →
  same_from now (timed m') (set_deadline (arg args 1) d (alive now (timed m))) ∧ sets_good m'.
Proof.
  intros now Hu Hc HR. unfold KeyCommands.expire_at in HR. rewrite (unhurried_purge e now) in HR by done.
  rewrite Database.purge_lookup in HR. unfold set_deadline. rewrite <- timed_live, timed_lookup.
  pose proof (sets_good_sub m (Database.purge now (arg args 1) m) (Database.purge_subseteq _ _ _) Hc) as Hc1.
  destruct (Database.live now m !! arg args 1) as [[o d']|] eqn:Hl; injection HR as _ ->; cbn; rewrite timed_live.
  - split; [by rewrite timed_insert, timed_purge, same_from_alive|]. apply map_Forall_insert_2; [|done].
    apply map_lookup_filter_Some in Hl as [Hl _]. apply (Hc _ _ Hl).
  - split; [by rewrite timed_purge, same_from_alive|done].
Qed.

Lemma timed_expire : timed_refines (lit "EXPIRE") (λ _, True) KeyCommands.spec_expire.
Proof.
  intros e m args r m' now Hu Hk Hc _ HR. unfold KeyCommands.spec_expire, exactly in HR.
  change (apply_timed_named now (lit "EXPIRE") args (alive now (timed m))) with
    (match (λ s, wrap_s64 (s * 1000)) <$> KeyCommands.parseInteger (arg args 2) with
     | Some ms => set_deadline (arg args 1) (wrap_s64 (now + ms)) (alive now (timed m))
     | None => alive now (timed m) end).
  destruct (KeyCommands.parseInteger (arg args 2)) as [s|]; cbn [fmap option_fmap option_map].
  - by eapply timed_expire_at.
  - injection HR as _ ->. by rewrite same_from_alive.
Qed.

Lemma timed_pexpire : timed_refines (lit "PEXPIRE") (λ _, True) KeyCommands.spec_pexpire.
Proof.
  intros e m args r m' now Hu Hk Hc _ HR. unfold KeyCommands.spec_pexpire, exactly in HR.
  change (apply_timed_named now (lit "PEXPIRE") args (alive now (timed m))) with
    (match KeyCommands.parseInteger (arg args 2) with
     | Some ms => set_deadline (arg args 1) (wrap_s64 (now + ms)) (alive now (timed m))
     | None => alive now (timed m) end).
  destruct (KeyCommands.parseInteger (arg args 2)) as [s|].
  - by eapply timed_expire_at.
  - injection HR as _ ->. by rewrite same_from_alive.
Qed.

(** An update of the value under a key keeps its deadline. *)
Lemma updates_timed nm pre R :
  updates nm pre R → (∀ now args st, apply_timed_named now nm args st = change_timed (arg args 1) (update nm args) st) →
  timed_refines nm pre R.
Proof.
  intros Hu Hn e m args r m' now _ Hk Hc Hp HR. rewrite Hn. unfold change_timed. rewrite <- timed_live, timed_lookup.
  destruct (Hu e m args r m' Hk Hc Hp HR) as [[-> ->]|H]; [by rewrite timed_live, same_from_alive|].
  pose proof (sets_good_sub m (Database.purge now (arg args 1) m) (Database.purge_subseteq _ _ _) Hc) as Hc1.
  cbv zeta in H. fold now in H. rewrite store_lookup, Database.purge_lookup in H.
  rewrite <- option_fmap_compose. change (fst ∘ _) with (λ x : RedisObject * Z, value_of x.1).
  destruct H as [| |o v d <- -> Ho]; rewrite timed_live.
  - by rewrite timed_purge, same_from_alive.
  - split; [by rewrite timed_delete, timed_purge, same_from_alive|]. by eapply sets_good_sub; [apply delete_subseteq|].
  - split; [|by apply map_Forall_insert_2]. rewrite timed_insert, timed_purge, same_from_alive.
    unfold deadline_at. rewrite Database.purge_lookup, <- option_fmap_compose. done.
Qed.

(** ** Dispatch refines the interpreter *)

(** Scores are numbers. *)
Definition numeric_named (nm : bytes) (args : list bytes) : Prop :=
  nm = lit "ZADD" → ZSetCommands.numbers (ZSetCommands.scored (drop 2 args)).

Definition numeric (args : list bytes) : Prop :=
  match args with [] => True | arg0 :: _ => numeric_named (to_upper arg0) args end.

Definition entry_timed (nm : bytes) (entry : CommandTable.CommandEntry handler) : Prop :=
  ∀ e db c args, let now := clk e 0 in
    env_ok e → unhurried e now (Database.view db) → Database.wf db → keyspace_ok (Database.view db) →
    sets_good (Database.view db) → out_ok c → numeric_named nm args →
    CommandTable.arity_ok (CommandTable.arity entry) args = true →
    CommandTable.run entry e db c args ⇓? λ '(db', _),
      same_from now (timed (Database.view db')) (apply_timed_named now nm args (alive now (timed (Database.view db)))) ∧
      sets_good (Database.view db').

Lemma write_timed nm pre pre' R n w h :
  implements h pre R → timed_refines nm pre' R → (∀ args, CommandTable.arity_ok n args = true → pre args) →
  (∀ args, numeric_named nm args → pre' args) → entry_timed nm (CommandTable.mkEntry nm n w h).
Proof.
  intros Hi Hr Hpre Hpre' e db c args now He Hu Hwf Hks Hc Hout Hp Ha.
  cbn [CommandTable.run CommandTable.arity] in *.
  eapply returns_survives; [by apply (Hi e db c args); [..|apply Hpre]|].
  intros [db' c'] (r & m' & HR & [_ Hv] & _). rewrite Hv. by eapply Hr; [..|apply Hpre'|].
Qed.

(** A change that is not visible at the end of a command is not visible at its
    start, when nothing expires in between. *)
Lemma unseen_timed e m m' :
  env_ok e → unhurried e (clk e 0) m → CommandTable.unseen e m m' → same_from (clk e 0) (timed m') (timed m).
Proof.
  intros He Hu [Hsub Hl]. unfold same_from. rewrite <- !timed_live. f_equal. apply map_eq. intros k.
  rewrite !Database.live_lookup. destruct (m' !! k) as [x|] eqn:Hk'; [by rewrite (lookup_weaken _ _ _ _ Hk' Hsub)|].
  destruct (m !! k) as [[o d]|] eqn:Hk; [|done]. destruct (Database.expired (clk e 0) d) eqn:Hd; [done|]. exfalso.
  assert (Hend : ∃ now, (∀ j, clk e j ≤ now)%Z ∧ Database.expired now d = false).
  { pose proof (λ j, Hu j k _ Hk) as Hj. cbn in Hj. rewrite Hd in Hj. unfold Database.expired in *.
    destruct (decide (0 ≤ d)%Z); [exists (d - 1)%Z; split; [intros j; specialize (Hj j)|]; lia|].
    destruct (clk_ends e He) as [now Hnow]. exists now. split; [done|lia]. }
  destruct Hend as (now & Hnow & Hd'). specialize (Hl now Hnow). apply (f_equal (lookup k)) in Hl.
  rewrite !Database.live_lookup, Hk', Hk, Hd' in Hl. done.
Qed.

Lemma read_timed nm entry :
  CommandTable.entry_ok nm entry → CommandTable.isWrite entry = false →
  (∀ now args st, apply_timed_named now nm args st = st) → entry_timed nm entry.
Proof.
  intros Hok Hw Hid e db c args now He Hu Hwf Hks Hc Hout Hp Ha. unfold CommandTable.entry_ok in Hok. rewrite Hw in Hok.
  eapply survives_mono; [by apply Hok|]. intros [db' c'] (_ & _ & _ & _ & Hun). specialize (Hun eq_refl).
  rewrite Hid, same_from_alive. split; [by apply unseen_timed|]. by eapply sets_good_sub; [apply Hun|].
Qed.

Ltac refine_timed H1 H2 :=
  eapply write_timed; [apply H1|apply H2
    |intros args Ha; cbv beta in *; first [apply CommandTable.arity_exact in Ha; [lia|lia]
       | apply CommandTable.arity_min in Ha; [lia|lia]]
    |try done].

Ltac refine_update H1 H2 := refine_timed H1 (updates_timed _ _ _ H2 (λ _ _ _, eq_refl)).

Lemma core_commands_timed :
  Forall (λ entry, entry_timed (to_upper (CommandTable.name entry)) entry) CommandTable.core_commands.
Proof.
  assert (Hreads : Forall (λ entry, CommandTable.isWrite entry = false →
    ∀ now args st, apply_timed_named now (to_upper (CommandTable.name entry)) args st = st) CommandTable.core_commands).
  { each_command; first [discriminate Hw | reflexivity]. }
  assert (Hwrites : Forall (λ entry, CommandTable.isWrite entry = true →
    entry_timed (to_upper (CommandTable.name entry)) entry) CommandTable.core_commands).
  { each_command; try discriminate Hw; clear Hw.
    - refine_timed StringCommands.cmdSet_ok timed_set.
    - refine_timed KeyCommands.cmdDel_ok timed_del.
    - refine_timed KeyCommands.cmdExpire_ok timed_expire.
    - refine_timed KeyCommands.cmdPexpire_ok timed_pexpire.
    - refine_update ListCommands.cmdLPush_ok updates_lpush.
    - refine_update ListCommands.cmdRPush_ok updates_rpush.
    - refine_update ListCommands.cmdLPop_ok updates_lpop.
    - refine_update ListCommands.cmdRPop_ok updates_rpop.
    - refine_update HashCommands.cmdHSet_ok updates_hset.
    - refine_update HashCommands.cmdHDel_ok updates_hdel.
    - refine_update SetCommands.cmdSAdd_ok updates_sadd.
    - refine_update SetCommands.cmdSRem_ok updates_srem.
    - refine_update ZSetCommands.cmdZAdd_ok updates_zadd. intros args Hz. by apply Hz.
    - refine_update ZSetCommands.cmdZRem_ok updates_zrem.
    - refine_timed ServerCommands.cmdFlushdb_ok timed_flushdb. }
  pose proof CommandTable.core_commands_ok as Hok. rewrite list.Forall_forall in Hreads, Hwrites, Hok |- *.
  intros entry Hin. destruct (CommandTable.isWrite entry) eqn:Hw; [by apply Hwrites|].
  apply read_timed; [by apply Hok|done|by apply Hreads].
Qed.

Lemma core_table_timed : map_Forall entry_timed CommandTable.core_table.
Proof. apply CommandTable.register_all_Forall; [done|apply map_Forall_empty|apply core_commands_timed]. Qed.

#[local] Opaque CommandTable.core_table.

Lemma dispatch_timed e db c args :
  let now := clk e 0 in
  env_ok e → unhurried e now (Database.view db) → Database.wf db → keyspace_ok (Database.view db) →
  sets_good (Database.view db) → out_ok c → numeric args → args ≠ [] →
  CommandTable.dispatch CommandTable.core_table e db c args ⇓? λ '(db', _),
    alive now (timed (Database.view db')) = apply_timed now args (timed (Database.view db)) ∧
    sets_good (Database.view db').
Proof.
  intros now He Hu Hwf Hks Hc Hout Hp Hne. destruct args as [|arg0 rest]; [done|].
  unfold CommandTable.dispatch, CommandTable.dispatch_with, apply_timed.
  assert (Hno : alive now (timed (Database.view db)) = alive now (alive now (timed (Database.view db))))
    by by rewrite alive_alive.
  destruct (CommandTable.core_table !! to_upper arg0) as [entry|] eqn:Hn.
  - destruct (CommandTable.arity_ok (CommandTable.arity entry) (arg0 :: rest)) eqn:Ha; cbn [negb].
    + pose proof (core_table_timed _ _ Hn) as Hx. clear Hn. eapply survives_mono; [by apply Hx|]. by intros [db' c'] ?.
    + clear Hn. go_with replyError_ok; [done|]. intros c' _. exact (conj Hno Hc).
  - clear Hn. go_with replyError_ok; [done|]. intros c' _. exact (conj Hno Hc).
Qed.

#[local] Transparent CommandTable.core_table.

(** ** Properties *)

(** C5: the server is a key-value store with deadlines.  At any time, on any
    consistent database in which expired entries may still sit in the table, and
    with scores that are numbers, dispatching a command changes what is alive
    exactly as the reference interpreter does at that time: an expired key counts
    as missing for every command, SET drops the deadline, the commands that work in
    place keep it, EXPIRE and PEXPIRE set it, and a deadline in the past removes
    the key.  No key may expire between the clock readings of the command. *)
Theorem dispatch_refines_timed (e : Env) (db : DB) (c : Connection) (args : list bytes) :
  env_ok e → unhurried e (clk e 0) (Database.view db) → Database.wf db → keyspace_ok (Database.view db) →
  sets_good (Database.view db) → out_ok c → numeric args → args ≠ [] →
  CommandTable.dispatch CommandTable.core_table e db c args ⇓? λ '(db', _),
    alive (clk e 0) (timed (Database.view db')) = apply_timed (clk e 0) args (timed (Database.view db)) ∧
    sets_good (Database.view db').
Proof. apply dispatch_timed. Qed.

(** ** Witness *)

Definition pexpire_args : list bytes := [lit "pexpire"; lit "k"; lit "1500"].

Lemma dispatch_refines_timed_witness :
  CommandTable.dispatch CommandTable.core_table ListCommands.plain_env Database.empty (Connection.create 7 0) pexpire_args
    ⇓? λ '(db', _),
    alive (clk ListCommands.plain_env 0) (timed (Database.view db')) =
      apply_timed (clk ListCommands.plain_env 0) pexpire_args (timed (Database.view Database.empty)) ∧
    sets_good (Database.view db').
Proof.
  apply (dispatch_refines_timed ListCommands.plain_env Database.empty (Connection.create 7 0) pexpire_args).
  - split; [exists 0%Z|..]; done.
  - intros j k x _. reflexivity.
  - exact (proj1 (Database.empty_ok Database.linux64)).
  - exact (proj2 empty_calm).
  - exact (calm_sets _ (proj1 empty_calm)).
  - exact (proj1 Buffer.empty_represents).
  - intros Hn. vm_compute in Hn. discriminate Hn.
  - discriminate.
Defined.

(** The interpreter on a small store: a value with a deadline of 10 is gone at 10,
    kept by LPUSH before that with its deadline, and dropped by SET. *)
Example timed_example (st := {[lit "k" := (VList [lit "a"], 10%Z)]} : tstore) :
  apply_timed 9 [lit "lpush"; lit "k"; lit "b"] st = {[lit "k" := (VList [lit "b"; lit "a"], 10%Z)]} ∧
  apply_timed 10 [lit "lpush"; lit "k"; lit "b"] st = {[lit "k" := (VList [lit "b"], (-1)%Z)]} ∧
  apply_timed 9 [lit "set"; lit "k"; lit "v"] st = {[lit "k" := (VString (lit "v"), (-1)%Z)]} ∧
  apply_timed 9 [lit "pexpire"; lit "k"; lit "-1"] st = ∅.
Proof. split_and!; vm_compute; reflexivity. Qed.

End Timed.
