(* ===== verification/CmdPubSub.v ===== *)
(** * [cmd/PubSubRegistry]: channels and their subscribers

    Class [PubSubRegistry] (src/cmd/PubSubRegistry.h, PubSubRegistry.cpp).  The
    registry holds raw pointers to connections that the server owns, so the
    connections live in an explicit store: a [Connection*] is an address, and
    following one whose connection was destroyed is a fault.  [Hub] is the
    registry together with that store.  The order in which an
    [std::unordered_set] is traversed is a parameter. *)
From Stdlib Require Import Ascii String ZArith Lia ZifyNat ZifyBool.
From stdpp Require Import base option list strings gmap.
From S2P Require Import Prelude CStdlib NetBuffer ProtoSerializer NetConnection CmdBase.
Import Connection.

Module PubSubRegistry.

Definition addr := nat.

Record Hub := mkHub {
  channels_ : gmap bytes (gset addr);
  conns : gmap addr Connection
}.

(** [*conn] *)
Definition load (w : Hub) (a : addr) : result Connection :=
  match conns w !! a with Some c => mret c | None => Fault DanglingPointer end.

Definition store (w : Hub) (a : addr) (c : Connection) : Hub := mkHub (channels_ w) (<[a := c]> (conns w)).

Definition subscribe (channel : bytes) (a : addr) (w : Hub) : result (Z * Hub) :=
  let subs := {[a]} ∪ default ∅ (channels_ w !! channel) in
  c ← load w a;
  let c' := set_channels ({[channel]} ∪ subscribedChannels c) c in
  mret (Z.of_nat (size (subscribedChannels c')), mkHub (<[channel := subs]> (channels_ w)) (<[a := c']> (conns w))).

(** [it = channels_.find(channel)], erase [&conn] from its set, and the set when it
    is empty. *)
Definition dropSubscriber (channel : bytes) (a : addr) (chs : gmap bytes (gset addr)) : gmap bytes (gset addr) :=
  match chs !! channel with
  | None => chs
  | Some subs =>
      let subs' := subs ∖ {[a]} in
      if bool_decide (subs' = ∅) then delete channel chs else <[channel := subs']> chs
  end.

Definition unsubscribe (channel : bytes) (a : addr) (w : Hub) : result (Z * Hub) :=
  c ← load w a;
  let c' := set_channels (subscribedChannels c ∖ {[channel]}) c in
  mret (Z.of_nat (size (subscribedChannels c')),
        mkHub (dropSubscriber channel a (channels_ w)) (<[a := c']> (conns w))).

(** The message written to one subscriber. *)
Definition deliver (channel message : bytes) (a : addr) (w : Hub) : result Hub :=
  c ← load w a;
  c1 ← replyHeader c 3;
  c2 ← replyBulk c1 (lit "message");
  c3 ← replyBulk c2 channel;
  c4 ← replyBulk c3 message;
  mret (store w a (setWantWrite true c4)).

(** [for (Connection* sub : it->second)] *)
Fixpoint deliver_all (channel message : bytes) (subs : list addr) (delivered : Z) (w : Hub) : result (Z * Hub) :=
  match subs with
  | [] => mret (delivered, w)
  | a :: subs' => w' ← deliver channel message a w; deliver_all channel message subs' (delivered + 1) w'
  end.

Definition publish (order : gset addr → list addr) (channel message : bytes) (w : Hub) : result (Z * Hub) :=
  match channels_ w !! channel with
  | None => mret (0%Z, w)
  | Some subs => deliver_all channel message (order subs) 0 w
  end.

Definition removeConnection (order : gset bytes → list bytes) (a : addr) (w : Hub) : result Hub :=
  c ← load w a;
  let chs := foldl (λ chs channel, dropSubscriber channel a chs) (channels_ w) (order (subscribedChannels c)) in
  mret (mkHub chs (<[a := set_channels ∅ c]> (conns w))).

(** ** Invariant: registry and connections agree *)

Definition subscribers (w : Hub) (channel : bytes) : gset addr := default ∅ (channels_ w !! channel).

Record hub_ok (w : Hub) : Prop := {
  hub_sync channel a :
    a ∈ subscribers w channel ↔ ∃ c, conns w !! a = Some c ∧ channel ∈ subscribedChannels c;
  hub_no_empty channel : channels_ w !! channel ≠ Some ∅;
  hub_out : map_Forall (λ _ c, out_ok c) (conns w)
}.

Lemma load_conn w a c : conns w !! a = Some c → load w a = Ok c.
Proof. unfold load. by intros ->. Qed.

Lemma load_bind {A} w a c (f : Connection → result A) : conns w !! a = Some c → (load w a ≫= f) = f c.
Proof. intros Ha. by rewrite (load_conn _ _ _ Ha). Qed.

Lemma dropSubscriber_lookup channel a chs ch :
  default ∅ (dropSubscriber channel a chs !! ch) =
    if decide (ch = channel) then default ∅ (chs !! ch) ∖ {[a]} else default ∅ (chs !! ch).
Proof.
  unfold dropSubscriber. destruct (decide (ch = channel)) as [->|Hne].
  - destruct (chs !! channel) as [subs|] eqn:Hs.
    + case_bool_decide as He; [by rewrite lookup_delete_eq|by rewrite lookup_insert_eq].
    + rewrite Hs. cbn. set_solver.
  - destruct (chs !! channel) as [subs|]; [|done].
    case_bool_decide; [by rewrite lookup_delete_ne|by rewrite lookup_insert_ne].
Qed.

Lemma dropSubscriber_no_empty channel a chs ch :
  (∀ ch, chs !! ch ≠ Some ∅) → dropSubscriber channel a chs !! ch ≠ Some ∅.
Proof.
  intros Hne. unfold dropSubscriber. destruct (chs !! channel) as [subs|]; [|done].
  case_bool_decide as He.
  - destruct (decide (ch = channel)) as [->|]; [by rewrite lookup_delete_eq|by rewrite lookup_delete_ne].
  - destruct (decide (ch = channel)) as [->|]; [rewrite lookup_insert_eq; congruence|by rewrite lookup_insert_ne].
Qed.

(** The hub after the connection at [a] was replaced by one with the channels
    [s], the registry telling the same. *)
Lemma hub_update w a c c' chs :
  hub_ok w → conns w !! a = Some c → out_ok c' →
  (∀ ch, chs !! ch ≠ Some ∅) →
  (∀ ch b, b ∈ (default ∅ (chs !! ch) : gset addr) ↔
     (b = a ∧ ch ∈ subscribedChannels c') ∨ (b ≠ a ∧ b ∈ subscribers w ch)) →
  hub_ok (mkHub chs (<[a := c']> (conns w))).
Proof.
  intros Hw Ha Hout Hne Hch. split; cbn.
  - intros ch b. unfold subscribers. cbn. rewrite Hch. destruct (decide (b = a)) as [->|Hb].
    + rewrite lookup_insert_eq. naive_solver.
    + rewrite lookup_insert_ne by done. rewrite (hub_sync w Hw). naive_solver.
  - done.
  - apply map_Forall_insert_2; [done|apply Hw].
Qed.

(** Replacing a connection by one with the same subscriptions. *)
Lemma store_ok w a c c' :
  hub_ok w → conns w !! a = Some c → out_ok c' → subscribedChannels c' = subscribedChannels c →
  hub_ok (store w a c').
Proof.
  intros Hw Ha Hout Hs. apply (hub_update w a c c'); try done; [apply Hw|].
  intros ch b. fold (subscribers w ch). rewrite Hs. pose proof (hub_sync w Hw ch a) as Hsync.
  destruct (decide (b = a)) as [->|]; [|naive_solver]. rewrite Hsync, Ha. naive_solver.
Qed.

Lemma conn_out w a c : hub_ok w → conns w !! a = Some c → out_ok c.
Proof. intros Hw Ha. by apply (hub_out w Hw a). Qed.

Lemma subscribe_ok channel a w c :
  hub_ok w → conns w !! a = Some c →
  subscribe channel a w ⇓ λ '(n, w'), hub_ok w' ∧
    n = Z.of_nat (size ({[channel]} ∪ subscribedChannels c)) ∧
    conns w' = <[a := set_channels ({[channel]} ∪ subscribedChannels c) c]> (conns w).
Proof.
  intros Hw Ha. unfold subscribe. rewrite (load_conn w a c Ha). cbn [mbind result_bind]. apply returns_ok.
  split; [|done]. apply (hub_update w a c); [done|done|by apply (conn_out w a c)| |].
  - intros ch. destruct (decide (ch = channel)) as [->|Hne];
      [rewrite lookup_insert_eq; intros [= Heq]; set_solver|rewrite lookup_insert_ne by done; apply Hw].
  - intros ch b. pose proof (hub_sync w Hw ch a) as Hsync. unfold subscribers in *.
    destruct (decide (ch = channel)) as [->|Hne].
    + rewrite lookup_insert_eq. cbn. destruct (decide (b = a)); set_solver.
    + rewrite lookup_insert_ne by done. cbn. destruct (decide (b = a)) as [->|]; [|set_solver].
      rewrite Hsync. set_solver.
Qed.

Lemma unsubscribe_ok channel a w c :
  hub_ok w → conns w !! a = Some c →
  unsubscribe channel a w ⇓ λ '(n, w'), hub_ok w' ∧
    n = Z.of_nat (size (subscribedChannels c ∖ {[channel]})) ∧
    conns w' = <[a := set_channels (subscribedChannels c ∖ {[channel]}) c]> (conns w).
Proof.
  intros Hw Ha. unfold unsubscribe. rewrite (load_conn w a c Ha). cbn [mbind result_bind]. apply returns_ok.
  split; [|done]. apply (hub_update w a c); [done|done|by apply (conn_out w a c)| |].
  - intros ch. apply dropSubscriber_no_empty, Hw.
  - intros ch b. rewrite dropSubscriber_lookup. fold (subscribers w ch). cbn.
    pose proof (hub_sync w Hw ch a) as Hsync. destruct (decide (ch = channel)) as [->|Hne].
    + destruct (decide (b = a)); set_solver.
    + destruct (decide (b = a)) as [->|]; [|set_solver]. rewrite Hsync. set_solver.
Qed.

Lemma dropAll_lookup a chs l ch :
  default ∅ (foldl (λ chs channel, dropSubscriber channel a chs) chs l !! ch) =
    if decide (ch ∈ l) then default ∅ (chs !! ch) ∖ {[a]} else default ∅ (chs !! ch).
Proof.
  revert chs. induction l as [|x l IH]; intros chs; cbn [foldl]; [by rewrite decide_False by apply not_elem_of_nil|].
  rewrite IH, dropSubscriber_lookup. destruct (decide (ch ∈ l)), (decide (ch = x));
    destruct (decide (ch ∈ x :: l)); set_solver.
Qed.

Lemma dropAll_no_empty a chs l ch :
  (∀ ch, chs !! ch ≠ Some ∅) → foldl (λ chs channel, dropSubscriber channel a chs) chs l !! ch ≠ Some ∅.
Proof.
  revert chs ch. induction l as [|x l IH]; intros chs ch Hne; [done|]. apply IH. intros ch'.
  by apply dropSubscriber_no_empty.
Qed.

Lemma removeConnection_ok order a w c :
  (∀ s, order s ≡ₚ elements s) → hub_ok w → conns w !! a = Some c →
  removeConnection order a w ⇓ λ w', hub_ok w' ∧ conns w' = <[a := set_channels ∅ c]> (conns w) ∧
    ∀ ch, a ∉ subscribers w' ch.
Proof.
  intros Hord Hw Ha. unfold removeConnection. rewrite (load_conn w a c Ha). cbn [mbind result_bind].
  set (w' := mkHub _ _). assert (Hok : hub_ok w').
  { apply (hub_update w a c); [done|done|by apply (conn_out w a c)| |].
    - intros ch. apply dropAll_no_empty, Hw.
    - intros ch b. rewrite dropAll_lookup. fold (subscribers w ch).
      pose proof (hub_sync w Hw ch a) as Hsync. cbn.
      assert (Hin : ch ∈ order (subscribedChannels c) ↔ ch ∈ subscribedChannels c)
        by by rewrite Hord, elem_of_elements.
      destruct (decide (ch ∈ order (subscribedChannels c))) as [He|He]; rewrite Hin in He.
      + destruct (decide (b = a)); set_solver.
      + destruct (decide (b = a)) as [->|]; [rewrite Hsync|]; set_solver. }
  apply returns_ok. split; [done|]. split; [done|]. intros ch Hin.
  apply (hub_sync w' Hok) in Hin as (c' & Hc' & Hch). cbn in Hc'. rewrite lookup_insert_eq in Hc'.
  injection Hc' as <-. set_solver.
Qed.

(** A connection without subscriptions can be destroyed, and a new one added. *)
Lemma erase_ok w a : hub_ok w → (∀ ch, a ∉ subscribers w ch) → hub_ok (mkHub (channels_ w) (delete a (conns w))).
Proof.
  intros Hw Ha. split; cbn; [|apply Hw|].
  - intros ch b. pose proof (hub_sync w Hw ch b) as Hsync. unfold subscribers in *. cbn. rewrite Hsync.
    destruct (decide (b = a)) as [->|Hb]; [|by rewrite lookup_delete_ne].
    rewrite lookup_delete_eq. specialize (Ha ch). rewrite Hsync in Ha. naive_solver.
  - apply map_Forall_delete, Hw.
Qed.

Lemma open_ok w a fd now : hub_ok w → conns w !! a = None → hub_ok (store w a (Connection.create fd now)).
Proof.
  intros Hw Ha. split; cbn; [|apply Hw|].
  - intros ch b. pose proof (hub_sync w Hw ch b) as Hsync. unfold subscribers in *. cbn. rewrite Hsync.
    destruct (decide (b = a)) as [->|Hb]; [|by rewrite lookup_insert_ne].
    rewrite lookup_insert_eq, Ha. split; [naive_solver|]. intros (c & [= <-] & Hc).
    by apply elem_of_empty in Hc.
  - apply map_Forall_insert_2; [apply Buffer.empty_represents|apply Hw].
Qed.

Lemma empty_hub_ok : hub_ok (mkHub ∅ ∅).
Proof.
  split; cbn [channels_ conns].
  - intros ch a. unfold subscribers. cbn [channels_]. rewrite !lookup_empty. set_solver.
  - intros ch. by rewrite lookup_empty.
  - apply map_Forall_empty.
Qed.

(** *** Publishing *)

Definition push_message (channel message : bytes) : resp := RBulks [lit "message"; channel; message].

(** [c'] is [c] with the message appended to its output and write interest. *)
Definition pushed (channel message : bytes) (c c' : Connection) : Prop :=
  ∃ c1, replied c (push_message channel message) c1 ∧ c' = setWantWrite true c1.

Lemma deliver_ok channel message a w c :
  hub_ok w → conns w !! a = Some c →
  deliver channel message a w ⇓ λ w', hub_ok w' ∧ channels_ w' = channels_ w ∧
    ∃ c', pushed channel message c c' ∧ conns w' = <[a := c']> (conns w).
Proof.
  intros Hw Ha. unfold deliver. rewrite (load_conn w a c Ha). cbn [mbind result_bind].
  run_with replyHeader_ok; [by apply (conn_out w a)|]. intros c1 H1.
  run_with replyBulk_ok; [apply H1|]. intros c2 H2. run_with replyBulk_ok; [apply H2|]. intros c3 H3.
  run_with replyBulk_ok; [apply H3|]. intros c4 H4. apply returns_ok.
  assert (Hr : replied c (push_message channel message) c4).
  { unfold replied, push_message. rewrite encode_bulks, !enc_bulks_cons. cbn [length].
    eapply appended_trans; [exact H1|]. eapply appended_trans; [exact H2|].
    eapply appended_trans; [exact H3|]. change (enc_bulks []) with (@nil ascii). rewrite app_nil_r. exact H4. }
  split; [|split; [done|exists (setWantWrite true c4); split; [by exists c4|done]]].
  apply (store_ok w a c); [done|done|apply Hr|]. destruct Hr as [-> _]. done.
Qed.

Lemma deliver_all_ok channel message subs n w :
  hub_ok w → NoDup subs → Forall (λ a, is_Some (conns w !! a)) subs →
  deliver_all channel message subs n w ⇓ λ '(n', w'), hub_ok w' ∧ channels_ w' = channels_ w ∧
    n' = (n + Z.of_nat (length subs))%Z ∧
    ∀ a, match conns w !! a, conns w' !! a with
         | Some c, Some c' => if decide (a ∈ subs) then pushed channel message c c' else c' = c
         | None, None => True
         | _, _ => False
         end.
Proof.
  revert n w. induction subs as [|a subs IH]; intros n w Hw Hnd Hall; cbn [deliver_all].
  { apply returns_ok. split; [done|]. split; [done|]. split; [simpl; lia|]. intros a.
    destruct (conns w !! a); [|done]. by rewrite decide_False by apply not_elem_of_nil. }
  apply NoDup_cons in Hnd as [Ha Hnd]. apply Forall_cons in Hall as [[c Hc] Hall].
  run_with deliver_ok; [done|exact Hc|]. intros w1 (Hw1 & Hch1 & c' & Hp & Hconns).
  eapply returns_mono; [apply IH; [done|done|]|].
  { eapply Forall_impl; [exact Hall|]. intros b Hb. rewrite Hconns. destruct (decide (b = a)) as [->|];
      [rewrite lookup_insert_eq; eauto|by rewrite lookup_insert_ne]. }
  intros [n' w'] (Hw' & Hch' & -> & Heach). split; [done|]. split; [congruence|]. split; [simpl; lia|].
  intros b. specialize (Heach b). rewrite Hconns in Heach. destruct (decide (b = a)) as [->|Hne].
  - rewrite lookup_insert_eq in Heach. rewrite Hc. destruct (conns w' !! a) as [c2|]; [|done].
    rewrite decide_False in Heach by done. rewrite decide_True by (apply elem_of_cons; by left). by subst c2.
  - rewrite lookup_insert_ne in Heach by done. destruct (conns w !! b), (conns w' !! b); try done.
    destruct (decide (b ∈ subs)), (decide (b ∈ a :: subs)); set_solver.
Qed.

Lemma publish_ok order channel message w :
  (∀ s, order s ≡ₚ elements s) → hub_ok w →
  publish order channel message w ⇓ λ '(n, w'), hub_ok w' ∧ channels_ w' = channels_ w ∧
    n = Z.of_nat (size (subscribers w channel)) ∧
    ∀ a, match conns w !! a, conns w' !! a with
         | Some c, Some c' =>
             if decide (channel ∈ subscribedChannels c) then pushed channel message c c' else c' = c
         | None, None => True
         | _, _ => False
         end.
Proof.
  intros Hord Hw. unfold publish, subscribers. destruct (channels_ w !! channel) as [subs|] eqn:Hs; cbn [default].
  - assert (Hsub : ∀ a, a ∈ order subs ↔ ∃ c, conns w !! a = Some c ∧ channel ∈ subscribedChannels c).
    { intros a. rewrite Hord, elem_of_elements, <- (hub_sync w Hw). unfold subscribers. by rewrite Hs. }
    eapply returns_mono; [apply deliver_all_ok; [done| |]|].
    + rewrite Hord. apply NoDup_elements.
    + apply list.Forall_forall. intros a (c & Hc & _)%Hsub. eauto.
    + intros [n w'] (Hw' & Hch & -> & Heach). split; [done|]. split; [done|]. split.
      { rewrite Hord. unfold size, set_size. cbn. lia. }
      intros a. specialize (Heach a). specialize (Hsub a).
      destruct (conns w !! a) as [c|], (conns w' !! a) as [c'|]; try done.
      destruct (decide (a ∈ order subs)), (decide (channel ∈ subscribedChannels c)); naive_solver.
  - apply returns_ok. split; [done|]. split; [done|]. split; [done|]. intros a.
    destruct (conns w !! a) as [c|] eqn:Hc; [|done]. rewrite decide_False; [done|]. intros Hin.
    assert (Hx : a ∈ subscribers w channel) by (apply (hub_sync w Hw); eauto).
    unfold subscribers in Hx. rewrite Hs in Hx. set_solver.
Qed.

(** ** Properties *)

(** C26: PUBLISH reaches exactly the subscribers.  Whatever the order of traversal,
    every connection subscribed to the channel has the message appended to its
    output exactly once and is marked for writing, no other connection changes,
    the number returned is that of the subscribers, and no dangling pointer is
    followed. *)
Theorem publish_reaches_subscribers (order : gset addr → list addr) (channel message : bytes) (w : Hub) :
  (∀ s, order s ≡ₚ elements s) → hub_ok w →
  publish order channel message w ⇓ λ '(n, w'), hub_ok w' ∧
    n = Z.of_nat (size (subscribers w channel)) ∧
    ∀ a, match conns w !! a, conns w' !! a with
         | Some c, Some c' =>
             if decide (channel ∈ subscribedChannels c) then pushed channel message c c' else c' = c
         | None, None => True
         | _, _ => False
         end.
Proof.
  intros Hord Hw. eapply returns_mono; [by apply publish_ok|]. intros [n w'] (? & _ & ? & ?). done.
Qed.

(** ** Witnesses *)

(** Two connections, one of them subscribed. *)
Definition two_conns : Hub :=
  mkHub {[lit "news" := {[1]}]}
    (<[1 := set_channels {[lit "news"]} (Connection.create 7 0)]> {[2 := Connection.create 8 0]}).

Lemma two_conns_ok : hub_ok two_conns.
Proof.
  pose proof (open_ok _ 2 8 0 empty_hub_ok eq_refl) as H2. pose proof (open_ok _ 1 7 0 H2 eq_refl) as H3.
  pose proof (subscribe_ok (lit "news") 1 _ _ H3 (lookup_insert_eq _ _ _)) as H4.
  unfold subscribe in H4. rewrite (load_conn _ _ _ (lookup_insert_eq _ _ _)) in H4.
  cbn [mbind result_bind returns] in H4. destruct H4 as [H4 _]. vm_compute in H4. vm_compute. exact H4.
Qed.

Lemma publish_reaches_subscribers_witness :
  publish elements (lit "news") (lit "hi") two_conns ⇓ λ '(n, w'), hub_ok w' ∧
    n = Z.of_nat (size (subscribers two_conns (lit "news"))) ∧
    ∀ a, match conns two_conns !! a, conns w' !! a with
         | Some c, Some c' =>
             if decide (lit "news" ∈ subscribedChannels c) then pushed (lit "news") (lit "hi") c c' else c' = c
         | None, None => True
         | _, _ => False
         end.
Proof.
  apply (publish_reaches_subscribers elements (lit "news") (lit "hi") two_conns); [|exact two_conns_ok].
  intros s. reflexivity.
Defined.

End PubSubRegistry.
