(* ===== verification/CmdInfo.v ===== *)
(** * [cmd/ServerCommands]: metrics, the slow log and INFO

    [ServerMetrics] (src/cmd/ServerCommands.h) and INFO
    (src/cmd/ServerCommands.cpp).  Readings of the clocks and the process id are
    arguments. *)
From Stdlib Require Import Ascii String ZArith Lia ZifyNat ZifyBool.
From stdpp Require Import base option list strings gmap.
From S2P Require Import Prelude CStdlib NetBuffer ProtoSerializer NetConnection StoreObject StoreInterfaces.
From S2P Require Import StoreDatabase CmdBase.
Import Connection.

Module ServerMetrics.

Definition kLatencyBuckets : nat := 6.
Definition kLatencyThresholds : list Z := [100; 500; 1000; 10000; 100000]%Z.
Definition kSlowLogMaxEntries : nat := 128.

(** [for (int i = 0; i < kLatencyBuckets - 1; ++i)], over the thresholds from [i]. *)
Fixpoint bucket_loop (thresholds : list Z) (i : nat) (durationUs : Z) : nat :=
  match thresholds with
  | [] => kLatencyBuckets - 1
  | t :: thresholds' => if (durationUs <? t)%Z then i else bucket_loop thresholds' (i + 1) durationUs
  end.

Definition latencyBucketIndex (durationUs : Z) : nat := bucket_loop kLatencyThresholds 0 durationUs.

Record SlowLogEntry := mkSlow {
  id : Z;
  timestampUs : Z;
  durationUs : Z;
  slow_args : list bytes
}.

Record ServerMetrics := mkMetrics {
  startTime : Z;
  totalCommandsProcessed : Z;
  latencyHistogram : list Z;
  slowLog : list SlowLogEntry;
  slowLogNextIdx : nat;
  slowLogCount : Z;
  slowLogThresholdUs : Z;
  connectedClients : nat;
  tcpPort : Z
}.

Definition create (now port : Z) : ServerMetrics :=
  mkMetrics now 0 (replicate kLatencyBuckets 0%Z) (replicate kSlowLogMaxEntries (mkSlow 0 0 0 [])) 0 0 10000 0
    port.

Definition countCommand (m : ServerMetrics) : ServerMetrics :=
  mkMetrics (startTime m) (wrap_u64 (totalCommandsProcessed m + 1)) (latencyHistogram m) (slowLog m)
    (slowLogNextIdx m) (slowLogCount m) (slowLogThresholdUs m) (connectedClients m) (tcpPort m).

Definition setConnectedClients (n : nat) (m : ServerMetrics) : ServerMetrics :=
  mkMetrics (startTime m) (totalCommandsProcessed m) (latencyHistogram m) (slowLog m)
    (slowLogNextIdx m) (slowLogCount m) (slowLogThresholdUs m) n (tcpPort m).

Definition recordLatency (durationUs : Z) (m : ServerMetrics) : result ServerMetrics :=
  let i := latencyBucketIndex durationUs in
  v ← vec_get (latencyHistogram m) i;
  h ← vec_set (latencyHistogram m) i (wrap_u64 (v + 1));
  mret (mkMetrics (startTime m) (totalCommandsProcessed m) h (slowLog m)
    (slowLogNextIdx m) (slowLogCount m) (slowLogThresholdUs m) (connectedClients m) (tcpPort m)).

(** [nowUs] is the wall clock; at most six arguments are kept. *)
Definition maybeRecordSlowLog (nowUs durationUs : Z) (args : list bytes) (m : ServerMetrics)
    : result ServerMetrics :=
  if (durationUs <? slowLogThresholdUs m)%Z then mret m
  else
    let e := mkSlow (slowLogCount m) nowUs durationUs (take (Nat.min (length args) 6) args) in
    l ← vec_set (slowLog m) (slowLogNextIdx m mod kSlowLogMaxEntries) e;
    mret (mkMetrics (startTime m) (totalCommandsProcessed m) (latencyHistogram m) l
      ((slowLogNextIdx m + 1) mod kSlowLogMaxEntries) (wrap_u64 (slowLogCount m + 1))
      (slowLogThresholdUs m) (connectedClients m) (tcpPort m)).

(** What the main loop does after each command it dispatched. *)
Definition record (nowUs durationUs : Z) (args : list bytes) (m : ServerMetrics) : result ServerMetrics :=
  m1 ← recordLatency durationUs (countCommand m);
  maybeRecordSlowLog nowUs durationUs args m1.

(** *** INFO *)

Definition line (key : bytes) (value : bytes) : bytes := key ++ value ++ crlf.
Definition num (key : bytes) (z : Z) : bytes := line key (to_string z).

Definition appendServerSection (now pid : Z) (m : ServerMetrics) : bytes :=
  let uptimeSec := Z.quot (now - startTime m) 1000000000 in
  line (lit "# Server") [] ++
  line (lit "redis_version:simple-redis-0.7.0") [] ++
  num (lit "process_id:") pid ++
  num (lit "tcp_port:") (tcpPort m) ++
  num (lit "uptime_in_seconds:") uptimeSec ++
  num (lit "uptime_in_days:") (Z.quot uptimeSec 86400) ++
  crlf.

Definition appendClientsSection (m : ServerMetrics) : bytes :=
  line (lit "# Clients") [] ++ num (lit "connected_clients:") (Z.of_nat (connectedClients m)) ++ crlf.

Definition appendMemorySection (db : DB) : bytes :=
  line (lit "# Memory") [] ++ num (lit "used_memory:") (Database.usedMemory_ db) ++ crlf.

Definition appendStatsSection (m : ServerMetrics) : result bytes :=
  h0 ← vec_get (latencyHistogram m) 0;
  h1 ← vec_get (latencyHistogram m) 1;
  h2 ← vec_get (latencyHistogram m) 2;
  h3 ← vec_get (latencyHistogram m) 3;
  h4 ← vec_get (latencyHistogram m) 4;
  h5 ← vec_get (latencyHistogram m) 5;
  let slowlogLen := if (slowLogCount m <? Z.of_nat kSlowLogMaxEntries)%Z then slowLogCount m
                    else Z.of_nat kSlowLogMaxEntries in
  mret (line (lit "# Stats") [] ++
    num (lit "total_commands_processed:") (totalCommandsProcessed m) ++
    num (lit "latency_histogram_us_lt100:") h0 ++
    num (lit "latency_histogram_us_lt500:") h1 ++
    num (lit "latency_histogram_us_lt1000:") h2 ++
    num (lit "latency_histogram_us_lt10000:") h3 ++
    num (lit "latency_histogram_us_lt100000:") h4 ++
    num (lit "latency_histogram_us_gte100000:") h5 ++
    num (lit "slowlog_len:") slowlogLen ++ crlf).

Definition appendKeyspaceSection (db : DB) : bytes :=
  let keys := Database.dbsize db in
  line (lit "# Keyspace") [] ++
  (if (0 <? keys)%Z
   then lit "db0:keys=" ++ to_string keys ++ lit ",expires=" ++ to_string (Z.of_nat (Database.expiryCount db)) ++
        lit ",avg_ttl=0" ++ crlf
   else []) ++
  crlf.

Definition info_text (now pid : Z) (section : bytes) (db : DB) (m : ServerMetrics) : result bytes :=
  let all := bool_decide (section = []) || bool_decide (section = lit "all") ||
             bool_decide (section = lit "everything") in
  let wants nm := all || bool_decide (section = lit nm) in
  stats ← if wants "stats"%string then appendStatsSection m else mret [];
  mret ((if wants "server"%string then appendServerSection now pid m else []) ++
        (if wants "clients"%string then appendClientsSection m else []) ++
        (if wants "memory"%string then appendMemorySection db else []) ++
        stats ++
        (if wants "keyspace"%string then appendKeyspaceSection db else [])).

Definition cmdInfo (now pid : Z) (m : ServerMetrics) (db : DB) (c : Connection) (args : list bytes)
    : result Connection :=
  let section := match args with _ :: a1 :: _ => to_lower a1 | _ => [] end in
  text ← info_text now pid section db m;
  replyBulk c text.

(** ** The metrics are exact *)

Record metrics_ok (m : ServerMetrics) : Prop := {
  m_hist : length (latencyHistogram m) = kLatencyBuckets;
  m_slow : length (slowLog m) = kSlowLogMaxEntries;
  m_next : slowLogNextIdx m < kSlowLogMaxEntries
}.

Lemma bucket_range d : latencyBucketIndex d < kLatencyBuckets.
Proof.
  unfold latencyBucketIndex, kLatencyThresholds, kLatencyBuckets. cbn [bucket_loop].
  repeat case_match; unfold kLatencyBuckets; lia.
Qed.

(** [d] falls into bucket [i]: below its threshold and not below the one before. *)
Definition in_bucket (i : nat) (d : Z) : bool :=
  match kLatencyThresholds !! i with Some t => (d <? t)%Z | None => true end &&
  match i with O => true | S j => match kLatencyThresholds !! j with Some t => (t <=? d)%Z | None => false end end.

Lemma bucket_spec i d : latencyBucketIndex d = i ↔ in_bucket i d = true.
Proof.
  unfold latencyBucketIndex, in_bucket, kLatencyThresholds, kLatencyBuckets.
  do 6 (destruct i as [|i]; [cbn; repeat case_match; lia|]). destruct i; cbn; repeat case_match; lia.
Qed.

(** What was recorded: wall clock, duration and arguments, oldest first. *)
Abbreviation sample := (Z * Z * list bytes)%type.

Fixpoint record_all (xs : list sample) (m : ServerMetrics) : result ServerMetrics :=
  match xs with
  | [] => mret m
  | (nowUs, d, args) :: xs' => m' ← record nowUs d args m; record_all xs' m'
  end.

Definition count (f : Z → bool) (xs : list sample) : Z := Z.of_nat (length (List.filter (λ x, f x.1.2) xs)).

(** The commands slow enough for the log, with the sequence numbers they get. *)
Definition slow_samples (xs : list sample) : list sample := List.filter (λ x, (10000 <=? x.1.2)%Z) xs.

Definition slow_entry (i : nat) (x : sample) : SlowLogEntry :=
  mkSlow (wrap_u64 (Z.of_nat i)) x.1.1 x.1.2 (take 6 x.2).

(** [m] has seen [xs]. *)
Record seen (xs : list sample) (m : ServerMetrics) : Prop := {
  seen_ok : metrics_ok m;
  seen_threshold : slowLogThresholdUs m = 10000%Z;
  seen_total : totalCommandsProcessed m = wrap_u64 (Z.of_nat (length xs));
  seen_hist i : i < kLatencyBuckets → latencyHistogram m !! i = Some (wrap_u64 (count (in_bucket i) xs));
  seen_count : slowLogCount m = wrap_u64 (Z.of_nat (length (slow_samples xs)));
  seen_next : slowLogNextIdx m = length (slow_samples xs) mod kSlowLogMaxEntries;
  seen_ring i x : slow_samples xs !! i = Some x → length (slow_samples xs) ≤ i + kSlowLogMaxEntries →
    slowLog m !! (i mod kSlowLogMaxEntries) = Some (slow_entry i x)
}.

Lemma wrap_u64_add z : wrap_u64 (wrap_u64 z + 1) = wrap_u64 (z + 1).
Proof. unfold wrap_u64. by rewrite Zplus_mod_idemp_l. Qed.

Lemma create_seen now port : seen [] (create now port).
Proof.
  split; try done; [split; [done|done|apply Nat.ltb_lt; reflexivity]|]. intros i Hi. by apply lookup_replicate_2.
Qed.

Lemma count_snoc f xs x : count f (xs ++ [x]) = (count f xs + if f x.1.2 then 1 else 0)%Z.
Proof. unfold count. rewrite List.filter_app, length_app. cbn. destruct (f x.1.2); cbn; lia. Qed.

Lemma slow_snoc xs x :
  slow_samples (xs ++ [x]) = if (x.1.2 <? 10000)%Z then slow_samples xs else slow_samples xs ++ [x].
Proof.
  unfold slow_samples. rewrite List.filter_app. cbn. destruct (Z.leb_spec 10000 x.1.2), (Z.ltb_spec x.1.2 10000); try lia.
  - done.
  - by rewrite app_nil_r.
Qed.

(** The histogram after one more duration. *)
Lemma hist_snoc xs x (h : list Z) :
  length h = kLatencyBuckets →
  (∀ i, i < kLatencyBuckets → h !! i = Some (wrap_u64 (count (in_bucket i) xs))) →
  ∀ i, i < kLatencyBuckets →
    <[latencyBucketIndex x.1.2 := wrap_u64 (wrap_u64 (count (in_bucket (latencyBucketIndex x.1.2)) xs) + 1)]> h !! i
      = Some (wrap_u64 (count (in_bucket i) (xs ++ [x]))).
Proof.
  intros Hlen Hh i Hi. rewrite count_snoc. destruct (decide (i = latencyBucketIndex x.1.2)) as [->|Hne].
  - rewrite list_lookup_insert_eq by (rewrite Hlen; apply bucket_range). rewrite wrap_u64_add.
    by rewrite (proj1 (bucket_spec _ x.1.2) eq_refl).
  - rewrite list_lookup_insert_ne by done. rewrite Hh by done. destruct (in_bucket i x.1.2) eqn:Hb.
    + by apply bucket_spec in Hb.
    + by rewrite Z.add_0_r.
Qed.

(** The ring after one more slow command. *)
Lemma ring_snoc (ss : list sample) (x : sample) (l : list SlowLogEntry) :
  length l = kSlowLogMaxEntries →
  (∀ i y, ss !! i = Some y → length ss ≤ i + kSlowLogMaxEntries →
     l !! (i mod kSlowLogMaxEntries) = Some (slow_entry i y)) →
  ∀ i y, (ss ++ [x]) !! i = Some y → length (ss ++ [x]) ≤ i + kSlowLogMaxEntries →
    <[length ss mod kSlowLogMaxEntries := slow_entry (length ss) x]> l !! (i mod kSlowLogMaxEntries)
      = Some (slow_entry i y).
Proof.
  intros Hlen Hl i y Hi Hle. rewrite length_app in Hle. simpl in Hle.
  assert (Hpos : kSlowLogMaxEntries ≠ 0) by done. destruct (decide (i < length ss)) as [Hlt|Hge].
  - rewrite lookup_app_l in Hi by done. rewrite list_lookup_insert_ne; [apply Hl; [done|lia]|].
    intros Heq. pose proof (Nat.div_mod_eq i kSlowLogMaxEntries). pose proof (Nat.div_mod_eq (length ss) kSlowLogMaxEntries).
    rewrite Heq in *. unfold kSlowLogMaxEntries in *. lia.
  - assert (i = length ss) as ->.
    { apply lookup_lt_Some in Hi. rewrite length_app in Hi. simpl in Hi. lia. }
    rewrite list_lookup_insert_eq by (rewrite Hlen; by apply Nat.mod_upper_bound).
    rewrite lookup_app_r, Nat.sub_diag in Hi by done. by injection Hi as <-.
Qed.

Lemma record_ok nowUs d args xs m : seen xs m → record nowUs d args m ⇓ seen (xs ++ [(nowUs, d, args)]).
Proof.
  intros [[Hh Hs Hn] Hthr Htot Hhist Hcnt Hnext Hring]. unfold record, recordLatency, countCommand.
  cbn [latencyHistogram]. pose proof (bucket_range d) as Hb.
  rewrite (vec_get_ok _ _ _ (Hhist _ Hb)). cbn [mbind result_bind]. rewrite vec_set_ok by lia.
  cbn [mbind result_bind mret result_ret]. unfold maybeRecordSlowLog.
  cbn [slowLogThresholdUs slowLogCount slowLogNextIdx slowLog startTime totalCommandsProcessed latencyHistogram
       connectedClients tcpPort].
  assert (Ht : wrap_u64 (totalCommandsProcessed m + 1) = wrap_u64 (Z.of_nat (length (xs ++ [(nowUs, d, args)])))).
  { rewrite Htot, wrap_u64_add, length_app. f_equal. simpl. lia. }
  pose proof (hist_snoc xs (nowUs, d, args) _ Hh Hhist) as Hhist'.
  rewrite Hthr. destruct (d <? 10000)%Z eqn:Hd.
  - apply returns_ok. split; cbn [fst snd]; rewrite ?slow_snoc; cbn [fst snd]; rewrite ?Hd; try done.
    split; cbn; [by rewrite length_insert|done|done].
  - assert (Hm : slowLogNextIdx m mod kSlowLogMaxEntries = length (slow_samples xs) mod kSlowLogMaxEntries).
    { rewrite Hnext. by rewrite Nat.Div0.mod_mod. }
    rewrite Hm, vec_set_ok by (rewrite Hs; by apply Nat.mod_upper_bound). apply returns_ok.
    assert (He : mkSlow (slowLogCount m) nowUs d (take (Nat.min (length args) 6) args) =
                 slow_entry (length (slow_samples xs)) (nowUs, d, args)).
    { unfold slow_entry. cbn [fst snd]. rewrite Hcnt. f_equal. rewrite <- take_take, take_ge; [done|]. rewrite length_take. lia. }
    rewrite He. split; rewrite ?slow_snoc; cbn [fst snd]; rewrite ?Hd; try done.
    + split; cbn [latencyHistogram slowLog slowLogNextIdx];
        [by rewrite length_insert|by rewrite length_insert|by apply Nat.mod_upper_bound].
    + cbn. rewrite Hcnt, wrap_u64_add, length_app. f_equal. simpl. lia.
    + cbn [slowLogNextIdx]. rewrite Hnext, length_app. cbn [length]. by rewrite Nat.Div0.add_mod_idemp_l.
    + by apply ring_snoc.
Qed.

Lemma record_all_ok xs ys m : seen ys m → record_all xs m ⇓ seen (ys ++ xs).
Proof.
  revert ys m. induction xs as [|[[nowUs d] args] xs IH]; intros ys m Hm; cbn [record_all].
  { by rewrite app_nil_r. }
  run_with record_ok; [exact Hm|]. intros m' Hm'. eapply returns_mono; [by apply IH|]. intros m2.
  by rewrite <- app_assoc.
Qed.

Lemma record_metrics_ok nowUs d args m : metrics_ok m → record nowUs d args m ⇓ metrics_ok.
Proof.
  intros [Hh Hs Hn]. unfold record, recordLatency, countCommand. cbn [latencyHistogram].
  pose proof (bucket_range d) as Hb. rewrite <- Hh in Hb.
  destruct (lookup_lt_is_Some_2 _ _ Hb) as [v Hv]. rewrite (vec_get_ok _ _ _ Hv). cbn [mbind result_bind]. rewrite vec_set_ok by done. cbn [mbind result_bind mret result_ret].
  unfold maybeRecordSlowLog. cbn [slowLogThresholdUs slowLogCount slowLogNextIdx slowLog].
  destruct (_ <? _)%Z; [apply returns_ok; split; cbn; by rewrite ?length_insert|].
  rewrite vec_set_ok by (rewrite Hs; by apply Nat.mod_upper_bound). apply returns_ok.
  split; cbn [latencyHistogram slowLog slowLogNextIdx]; rewrite ?length_insert; [done|done|by apply Nat.mod_upper_bound].
Qed.

Lemma info_text_ok now pid section db m : metrics_ok m → info_text now pid section db m ⇓ λ _, True.
Proof.
  intros [Hh _ _]. unfold info_text. cbv zeta beta.
  match goal with |- (mbind _ (if ?b then _ else _)) ⇓ _ => destruct b end; [|done].
  unfold appendStatsSection. unfold kLatencyBuckets in Hh.
  destruct (latencyHistogram m) as [|? [|? [|? [|? [|? [|? l]]]]]]; simpl in Hh; try lia. done.
Qed.

(** INFO answers one bulk string and changes nothing else. *)
Lemma cmdInfo_ok now pid m db c args :
  metrics_ok m → out_ok c → cmdInfo now pid m db c args ⇓ λ c', ∃ text, replied c (RBulk text) c'.
Proof.
  intros Hm Hc. unfold cmdInfo. run_with info_text_ok; [done|].
  intros text _. eapply returns_mono; [by apply replyBulk_ok|]. intros c' Hr. by exists text.
Qed.

(** ** Properties *)

(** C38: the metrics are exact.  After any run of recorded commands the counter
    and every histogram bucket hold the number of commands that fall into them
    (modulo 2^64), and the slow log holds the last 128 commands of at least
    10 ms, each in the slot of its sequence number, with its first six
    arguments; no index leaves its array. *)
Theorem metrics_exact (now port : Z) (xs : list sample) :
  record_all xs (create now port) ⇓ λ m,
    totalCommandsProcessed m = wrap_u64 (Z.of_nat (length xs)) ∧
    (∀ i, i < kLatencyBuckets → latencyHistogram m !! i = Some (wrap_u64 (count (in_bucket i) xs))) ∧
    slowLogCount m = wrap_u64 (Z.of_nat (length (slow_samples xs))) ∧
    ∀ i x, slow_samples xs !! i = Some x → length (slow_samples xs) ≤ i + kSlowLogMaxEntries →
      slowLog m !! (i mod kSlowLogMaxEntries) = Some (slow_entry i x).
Proof.
  eapply returns_mono; [apply (record_all_ok xs [] _ (create_seen now port))|]. intros m Hm.
  split; [apply Hm|]. split; [apply Hm|]. split; apply Hm.
Qed.

End ServerMetrics.
