(* ===== verification/PersistAOF.v ===== *)
(** * [persistence]: logging commands and replaying them

    [AOFWriter::log] with its helpers and [tick] (src/persistence/AOFWriter.cpp)
    and [AOFLoader::load] (src/persistence/AOFLoader.cpp).  The file on disk is
    its contents and the length of the prefix known to be durable.  The outcomes
    of successive [read] and [write] calls are lists, one element per call. *)
From Stdlib Require Import Ascii String ZArith Lia ZifyNat ZifyBool.
From stdpp Require Import base option list strings gmap.
From S2P Require Import Prelude CStdlib CPosix NetBuffer ProtoSerializer ProtoParser NetConnection StoreObject.
From S2P Require Import StoreInterfaces StoreDatabase CmdBase CmdList CmdTable.

(** The file: what has been written and how much of it is on stable storage. *)
Record Disk := mkDisk {
  contents : bytes;
  durable : nat
}.

Definition fsync (d : Disk) : Disk := mkDisk (contents d) (length (contents d)).

(** One call of [write]: [n] bytes taken, [EINTR], or another error. *)
Inductive write_call := CWrote (n : nat) | CEintr | CError.

(** One call of [read]: bytes, end of file, [EINTR], or another error. *)
Inductive read_call := CGot (s : bytes) | CEof | CReadEintr | CReadError.

Module AOFWriter.

Inductive FsyncPolicy := ALWAYS | EVERYSEC | NO.

#[export] Instance FsyncPolicy_eq_dec : EqDecision FsyncPolicy.
Proof. solve_decision. Defined.

Record AOFWriter := mkWriter {
  fd_ : Z;
  policy_ : FsyncPolicy;
  lastFsync_ : Z;
  rewriteChildPid_ : Z;
  isRewriting_ : bool;
  rewriteBuffer_ : list bytes
}.

(** The constructor; [fd] is what [open] returned. *)
Definition create (fd : Z) (policy : FsyncPolicy) (now : Z) : AOFWriter :=
  mkWriter fd policy now (-1) false [].

(** The destructor syncs and closes the file. *)
Definition destroy (w : AOFWriter) (d : Disk) (fds : Fds) : result (Disk * Fds) :=
  if (0 <=? fd_ w)%Z then fds' ← closeFd (fd_ w) fds; mret (fsync d, fds') else mret (d, fds).

Definition isEnabled (w : AOFWriter) : bool := (0 <=? fd_ w)%Z.

Definition format_arg (result : bytes) (arg : bytes) : bytes :=
  result ++ lit "$" ++ to_string (Z.of_nat (length arg)) ++ crlf ++ arg ++ crlf.

Definition formatRespCommand (args : list bytes) : bytes :=
  foldl format_arg (lit "*" ++ to_string (Z.of_nat (length args)) ++ crlf) args.

(** [while (written < len)]: the calls still to come, and the disk. *)
Fixpoint writeAll (calls : list write_call) (d : Disk) (buf : bytes) : result (list write_call * Disk) :=
  match buf with
  | [] => mret (calls, d)
  | _ =>
      match calls with
      | [] => Fault OutOfFuel
      | CEintr :: calls' => writeAll calls' d buf
      | CError :: calls' => mret (calls', d)
      | CWrote n :: calls' => writeAll calls' (mkDisk (contents d ++ take n buf) (durable d)) (drop n buf)
      end
  end.

Definition log (calls : list write_call) (w : AOFWriter) (d : Disk) (args : list bytes)
    : result (list write_call * AOFWriter * Disk) :=
  if (fd_ w <? 0)%Z then mret (calls, w, d)
  else
    let resp := formatRespCommand args in
    '(calls', d1) ← writeAll calls d resp;
    let d2 := if bool_decide (policy_ w = ALWAYS) then fsync d1 else d1 in
    let w' := if isRewriting_ w
              then mkWriter (fd_ w) (policy_ w) (lastFsync_ w) (rewriteChildPid_ w) (isRewriting_ w)
                     (rewriteBuffer_ w ++ [resp])
              else w in
    mret (calls', w', d2).

(** Readings of the steady clock are in nanoseconds; [duration_cast] to seconds
    rounds towards zero. *)
Definition tick (now : Z) (w : AOFWriter) (d : Disk) : AOFWriter * Disk :=
  if negb (bool_decide (policy_ w = EVERYSEC)) then (w, d)
  else if (fd_ w <? 0)%Z then (w, d)
  else if (1 <=? Z.quot (now - lastFsync_ w) 1000000000)%Z
  then (mkWriter (fd_ w) (policy_ w) now (rewriteChildPid_ w) (isRewriting_ w) (rewriteBuffer_ w), fsync d)
  else (w, d).

(** ** The file is the log *)

Lemma formatRespCommand_eq args : formatRespCommand args = enc_command args.
Proof.
  unfold formatRespCommand, enc_command.
  assert (Hf : ∀ acc, foldl format_arg acc args = acc ++ enc_bulks args).
  { induction args as [|a args IH]; intros acc; cbn [foldl]; [by rewrite app_nil_r|].
    rewrite IH, enc_bulks_cons, enc_bulk_eq. unfold format_arg. by rewrite <- !app_assoc. }
  rewrite Hf. unfold enc_header. rewrite enc_line_eq. by rewrite <- !app_assoc.
Qed.

(** No call fails, and together they take [n] bytes. *)
Fixpoint takes (calls : list write_call) (n : nat) : bool :=
  match n, calls with
  | O, _ => true
  | S _, [] => false
  | S _, CError :: _ => false
  | S _, CEintr :: calls' => takes calls' n
  | S _, CWrote k :: calls' => takes calls' (n - k)
  end.

Lemma writeAll_ok calls d buf :
  takes calls (length buf) = true →
  writeAll calls d buf ⇓ λ '(_, d'), d' = mkDisk (contents d ++ buf) (durable d).
Proof.
  revert d buf. induction calls as [|[n| |] calls IH]; intros d [|x buf] Ht; cbn [writeAll]; try done.
  all: try (apply returns_ok; rewrite app_nil_r; by destruct d).
  - eapply returns_mono; [apply IH; rewrite length_drop; exact Ht|]. intros [calls' d'] ->. cbn.
    by rewrite <- app_assoc, take_drop.
  - by apply IH.
Qed.

(** An error stops the write after a prefix of the bytes. *)
Lemma writeAll_prefix calls d buf calls' d' :
  writeAll calls d buf = Ok (calls', d') → ∃ n, contents d' = contents d ++ take n buf ∧ durable d' = durable d.
Proof.
  revert d buf. induction calls as [|[n| |] calls IH]; intros d [|x buf]; cbn [writeAll]; try done.
  all: try (intros [= <- <-]; exists 0; by rewrite ?take_0, app_nil_r).
  - intros [k [Hc Hd]]%IH. exists (n + k). rewrite Hc. cbn. split; [|done]. rewrite <- app_assoc. f_equal.
    by rewrite take_take_drop.
  - apply IH.
Qed.

Lemma log_ok calls w d args :
  isEnabled w = true → takes calls (length (enc_command args)) = true →
  log calls w d args ⇓ λ '(_, w', d'),
    contents d' = contents d ++ enc_command args ∧
    durable d' = (if bool_decide (policy_ w = ALWAYS) then length (contents d') else durable d) ∧
    fd_ w' = fd_ w ∧ policy_ w' = policy_ w ∧ rewriteChildPid_ w' = rewriteChildPid_ w ∧
    isRewriting_ w' = isRewriting_ w ∧
    rewriteBuffer_ w' = (if isRewriting_ w then rewriteBuffer_ w ++ [enc_command args] else rewriteBuffer_ w).
Proof.
  unfold isEnabled, log. intros He Ht. replace (fd_ w <? 0)%Z with false by lia. rewrite formatRespCommand_eq.
  run_with writeAll_ok; [exact Ht|]. intros [calls' d1] ->. apply returns_ok.
  case_bool_decide; destruct (isRewriting_ w) eqn:Hr; cbn; rewrite ?Hr; done.
Qed.

(** The calls are enough for the loop to end: with all [n] bytes taken, or with an
    error. *)
Fixpoint ends (calls : list write_call) (n : nat) : bool :=
  match n, calls with
  | O, _ => true
  | S _, [] => false
  | S _, CError :: _ => true
  | S _, CEintr :: calls' => ends calls' n
  | S _, CWrote k :: calls' => ends calls' (n - k)
  end.

Lemma takes_ends calls n : takes calls n = true → ends calls n = true.
Proof. revert n. induction calls as [|[k| |] calls IH]; intros [|n]; cbn; auto. Qed.

Lemma writeAll_ends calls d buf : ends calls (length buf) = true → writeAll calls d buf ⇓ λ _, True.
Proof.
  revert d buf. induction calls as [|[k| |] calls IH]; intros d [|x buf] He; cbn [writeAll]; try done.
  - apply IH. by rewrite length_drop.
  - by apply IH.
Qed.

Lemma log_ends calls w d args :
  ends calls (length (formatRespCommand args)) = true → log calls w d args ⇓ λ '(_, w', _), fd_ w' = fd_ w.
Proof.
  unfold log. intros He. destruct (fd_ w <? 0)%Z; [done|].
  eapply returns_bind; [by apply writeAll_ends|]. intros [calls' d'] _. apply returns_ok. by destruct (isRewriting_ w).
Qed.

Lemma tick_fd now w d : fd_ (tick now w d).1 = fd_ w.
Proof. unfold tick. by repeat case_match. Qed.

(** The descriptor of the log. *)
Definition log_fds (w : AOFWriter) : list Z := if isEnabled w then [fd_ w] else [].

Lemma log_fds_eq w w' : fd_ w' = fd_ w → log_fds w' = log_fds w.
Proof. intros H. unfold log_fds, isEnabled. by rewrite H. Qed.

(** A session: commands logged one after the other, each with the outcomes of
    its [write] calls. *)
Fixpoint log_all (w : AOFWriter) (d : Disk) (xs : list (list write_call * list bytes)) : result (AOFWriter * Disk) :=
  match xs with
  | [] => mret (w, d)
  | (calls, args) :: xs' => '(_, w', d') ← log calls w d args; log_all w' d' xs'
  end.

Definition log_bytes (cmds : list (list bytes)) : bytes := mjoin (enc_command <$> cmds).

Lemma log_all_ok w d xs :
  isEnabled w = true → Forall (λ x, takes x.1 (length (enc_command x.2)) = true) xs →
  log_all w d xs ⇓ λ '(_, d'), contents d' = contents d ++ log_bytes xs.*2 ∧
    (policy_ w = ALWAYS → durable d = length (contents d) → durable d' = length (contents d')).
Proof.
  intros He Hall. revert w d He. induction Hall as [|[calls args] xs Hx _ IH]; intros w d He; cbn [log_all].
  { apply returns_ok. unfold log_bytes. cbn. by rewrite app_nil_r. }
  run_with log_ok; [done|exact Hx|]. intros [[calls' w'] d'] (Hc & Hd & Hf & Hp & _).
  eapply returns_mono; [apply IH; unfold isEnabled in *; by rewrite Hf|]. intros [w2 d2] [Hc2 Hd2]. split.
  - rewrite Hc2, Hc, <- app_assoc. done.
  - intros Ha Hdur. apply Hd2; [congruence|]. rewrite Hd. by rewrite bool_decide_true.
Qed.

End AOFWriter.

Module AOFLoader.
Import Buffer.

(** [while (totalRead < fileSize)]: [None] is the error return. *)
Fixpoint read_file (calls : list read_call) (left : nat) (b : Buffer) : result (option Buffer) :=
  match left with
  | O => mret (Some b)
  | _ =>
      match calls with
      | [] => Fault OutOfFuel
      | CReadEintr :: calls' => read_file calls' left b
      | CReadError :: _ => mret None
      | CEof :: _ => mret (Some b)
      | CGot s :: calls' => b' ← fill b s; read_file calls' (left - length s) b'
      end
  end.

(** What the replay works on: [rp_run n] dispatches the [n]-th command to the state
    [St] and the dummy connection, and [rp_room n] is the memory the parser finds
    for it. *)
Record Replayer (St : Type) := mkReplayer {
  rp_run : nat → St → Connection.Connection → list bytes → result (St * Connection.Connection);
  rp_room : nat → Z → bool
}.
Arguments mkReplayer {St} _ _.
Arguments rp_run {St} _ _ _ _ _.
Arguments rp_room {St} _ _ _.

(** Replaying with a command table on a database: [es n] is the environment of the
    [n]-th command. *)
Definition with_table (t : CommandTable.CommandTable) (es : nat → Env) : Replayer DB :=
  mkReplayer (λ n, CommandTable.dispatch t (es n)) (λ n, grants (es n)).

Section replay.
Context {St : Type} (rp : Replayer St).

(** [while (buffer.readableBytes() > 0)]: the number of commands replayed and
    the state. *)
Fixpoint replay (fuel : nat) (st : St) (c : Connection.Connection) (b : Buffer) (count : nat) : result (nat * St) :=
  if bool_decide (readableBytes b = 0) then mret (count, st)
  else
    match fuel with
    | O => Fault OutOfFuel
    | S fuel' =>
        '(cmd, b') ← RespParser.parse (rp_room rp count) b;
        match cmd with
        | None => mret (count, st)
        | Some [] => replay fuel' st c b' count
        | Some args =>
            '(st', c1) ← rp_run rp count st c args;
            out' ← consume (Connection.out_ c1) (readableBytes (Connection.out_ c1));
            replay fuel' st' (Connection.set_out out' c1) b' (count + 1)
        end
    end.

(** How [open] and [fstat] of the file end. *)
Inductive open_outcome := OpenFailed | StatFailed | Opened (fileSize : nat).

(** The bytes of the file arrive through [calls]; [pipe] is the write end that
    [::pipe] returns, the descriptor of the dummy connection.  The result is the
    number of commands replayed, or [-1]. *)
Definition load (file : open_outcome) (calls : list read_call) (pipe : option Z) (now : Z) (st : St)
    : result (Z * St) :=
  match file with
  | OpenFailed | StatFailed => mret ((-1)%Z, st)
  | Opened O => mret (0%Z, st)
  | Opened fileSize =>
      b0 ← ensureWritableBytes Buffer.empty fileSize;
      r ← read_file calls fileSize b0;
      match r, pipe with
      | Some b, Some fd =>
          '(count, st') ← replay (S (readableBytes b)) st (Connection.create fd now) b 0;
          mret (Z.of_nat count, st')
      | _, _ => mret ((-1)%Z, st)
      end
  end.

(** The commands dispatched in order, the answers dropped. *)
Fixpoint exec_all (i : nat) (st : St) (c : Connection.Connection) (cmds : list (list bytes)) : result St :=
  match cmds with
  | [] => mret st
  | args :: cmds' =>
      '(st', c1) ← rp_run rp i st c args;
      out' ← consume (Connection.out_ c1) (readableBytes (Connection.out_ c1));
      exec_all (i + 1) st' (Connection.set_out out' c1) cmds'
  end.
End replay.

(** The descriptors of the same function: [fd] is the file, [readEnd] the other end
    of the pipe.  The dummy connection owns the write end and closes it when it
    goes out of scope. *)
Definition load_fds (fd readEnd : Z) (file : open_outcome) (calls : list read_call) (pipe : option Z) (fds : Fds)
    : result Fds :=
  match file with
  | OpenFailed => mret fds
  | StatFailed | Opened O => closeFd fd (openFd fd fds)
  | Opened fileSize =>
      b0 ← ensureWritableBytes Buffer.empty fileSize;
      r ← read_file calls fileSize b0;
      fds1 ← closeFd fd (openFd fd fds);
      match r, pipe with
      | Some _, Some writeEnd =>
          fds2 ← closeFd readEnd (openFd readEnd (openFd writeEnd fds1));
          Connection.destroy (Connection.create writeEnd 0) fds2
      | _, _ => mret fds1
      end
  end.

(** ** Replay is execution *)

(** The allocator grants what the parser asks for. *)
Definition ample {St} (rp : Replayer St) : Prop := ∀ n k, rp_room rp n k = true.
Definition roomy (es : nat → Env) : Prop := ∀ j k, grants (es j) k = true.

Lemma with_table_ample t es : roomy es → ample (with_table t es).
Proof. intros H n k. apply H. Qed.

(** What a crash can leave of the next command. *)
Definition cut_short (tail : bytes) : Prop :=
  tail = [] ∨ ∃ args missing, enc_command args = tail ++ missing ∧ missing ≠ [] ∧ RespParser.fits_int (enc_command args).

Lemma enc_command_pos args : 0 < length (enc_command args).
Proof. unfold enc_command, enc_header, enc_line. simpl. lia. Qed.

Lemma log_bytes_cons args cmds :
  AOFWriter.log_bytes (args :: cmds) = enc_command args ++ AOFWriter.log_bytes cmds.
Proof. done. Qed.

Lemma log_bytes_long cmds : length cmds ≤ length (AOFWriter.log_bytes cmds).
Proof.
  induction cmds as [|args cmds IH]; [done|]. rewrite log_bytes_cons, length_app. pose proof (enc_command_pos args).
  simpl. lia.
Qed.

Lemma replay_ok {St} (rp : Replayer St) fuel db c b i cmds tail :
  ample rp → represents b (AOFWriter.log_bytes cmds ++ tail) → RespParser.fits_int (AOFWriter.log_bytes cmds ++ tail) →
  cut_short tail → Forall (λ args, args ≠ []) cmds → length cmds < fuel →
  replay rp fuel db c b i = (db' ← exec_all rp i db c cmds; mret (i + length cmds, db')).
Proof.
  intros Hroom. revert fuel db c b i. induction cmds as [|args cmds IH]; intros fuel db c b i Hb Hfit Hcut Hne Hfuel.
  - cbn [exec_all mbind result_bind length]. rewrite Nat.add_0_r. change (AOFWriter.log_bytes [] ++ tail) with tail in *.
    destruct fuel as [|fuel]; [lia|]. cbn [replay].
    destruct Hcut as [->|(args & missing & Henc & Hm & Hf)].
    + rewrite (readableBytes_length _ _ Hb). by rewrite bool_decide_true.
    + case_bool_decide; [done|]. by rewrite (RespParser.parse_prefix_none _ b tail args missing).
  - apply Forall_cons in Hne as [Ha Hne]. destruct fuel as [|fuel]; [simpl in Hfuel; lia|]. cbn [replay].
    assert (Hlog : AOFWriter.log_bytes (args :: cmds) ++ tail =
      enc_command args ++ AOFWriter.log_bytes cmds ++ tail) by by rewrite app_assoc.
    rewrite Hlog in Hb, Hfit. rewrite bool_decide_false.
    2:{ rewrite (readableBytes_length _ _ Hb), length_app. pose proof (enc_command_pos args). lia. }
    pose proof (RespParser.parse_enc (rp_room rp i) b args _ Hb Hfit (Hroom _ _)) as Hp. apply returns_iff in Hp as ([r b'] & Hp & -> & Hb').
    rewrite Hp. cbn [mbind result_bind exec_all]. destruct args as [|a0 rest]; [done|].
    destruct (rp_run rp i db c (a0 :: rest)) as [[db' c1]|]; [|done]. cbn [mbind result_bind].
    destruct (consume _ _) as [out'|]; [|done]. cbn [mbind result_bind].
    rewrite (IH fuel); [| | |done|done|simpl in Hfuel; lia].
    + destruct (exec_all _ _ _ _ _); [|done]. cbn. do 2 f_equal. lia.
    + done.
    + unfold RespParser.fits_int in *. rewrite length_app in Hfit. lia.
Qed.

(** Commands whose arguments no handler chokes on. *)
Definition replayable (args : list bytes) : Prop :=
  match args with
  | [] => False
  | arg0 :: _ => CommandTable.indices_ok (to_upper arg0) args
  end.

Lemma exec_all_ok t es i db c cmds :
  CommandTable.table_ok t → (∀ j, env_ok (es j)) → Database.wf db → keyspace_ok (Database.view db) → out_ok c →
  Forall replayable cmds →
  exec_all (with_table t es) i db c cmds ⇓ λ db', Database.wf db' ∧ keyspace_ok (Database.view db').
Proof.
  intros Ht He Hwf Hks Hc Hall. revert i db c Hwf Hks Hc.
  induction Hall as [|args cmds Ha _ IH]; intros i db c Hwf Hks Hc; cbn [exec_all rp_run with_table]; [done|].
  destruct args as [|a0 rest]; [done|]. run_with CommandTable.dispatch_serves; [done|apply He|done|done|done|exact Ha|].
  intros [db' c1] (Hwf' & Hks' & [r (Hout & _)] & _).
  run_with (consume_ok _ (readable (Connection.out_ c1))); [by split|by rewrite length_readable|].
  intros out' [Hw _]. by apply IH.
Qed.

(** *** Reading the file *)

(** The bytes a sequence of [read] calls delivers before it stops. *)
Fixpoint got (calls : list read_call) : bytes :=
  match calls with
  | CGot s :: calls' => s ++ got calls'
  | CReadEintr :: calls' => got calls'
  | _ => []
  end.

(** No error and no early end of file. *)
Definition reads_ok (calls : list read_call) : Prop :=
  Forall (λ call, match call with CGot _ | CReadEintr => True | _ => False end) calls.

Lemma fill_room b s b' : fill b s = Ok b' → writableBytes b' = writableBytes b - length s.
Proof.
  unfold fill, memcpy, advanceWrite, writableBytes. case_bool_decide as Hl; [|done]. cbn.
  unfold assert. case_bool_decide as Hw; [|done]. cbn. intros [= <-]. cbn.
  rewrite !length_app, length_take, length_drop. lia.
Qed.

Lemma read_file_ok calls left b s :
  represents b s → reads_ok calls → length (got calls) = left → left ≤ writableBytes b →
  read_file calls left b ⇓ λ r, ∃ b', r = Some b' ∧ represents b' (s ++ got calls).
Proof.
  intros Hb Hall. revert left b s Hb. induction Hall as [|call calls Hc Hall IH]; intros left b s Hb Hlen Hroom.
  { simpl in Hlen. subst left. cbn. exists b. by rewrite app_nil_r. }
  destruct call as [t| | |]; try done; cbn [got] in *.
  - destruct left as [|left']; cbn [read_file].
    { destruct (t ++ got calls) eqn:Hg; [|simpl in Hlen; lia]. exists b. by rewrite app_nil_r. }
    rewrite length_app in Hlen. pose proof (fill_ok b s t Hb) as Hf.
    destruct (fill b t) as [b'|] eqn:Hfill; [|destruct Hf; lia]. cbn [mbind result_bind].
    eapply returns_mono; [apply (IH (S left' - length t) b' (s ++ t)); [apply Hf; lia|lia|]|].
    + rewrite (fill_room _ _ _ Hfill). lia.
    + intros r (b2 & -> & Hb2). exists b2. by rewrite app_assoc.
  - destruct left as [|left']; cbn [read_file].
    { destruct (got calls) eqn:Hg; [|simpl in Hlen; lia]. exists b. by rewrite app_nil_r. }
    by apply (IH (S left')).
Qed.

Lemma load_ok {St} (rp : Replayer St) calls fd now db cmds tail :
  ample rp → reads_ok calls → got calls = AOFWriter.log_bytes cmds ++ tail →
  RespParser.fits_int (got calls) → cut_short tail → Forall (λ args, args ≠ []) cmds →
  load rp (Opened (length (got calls))) calls (Some fd) now db =
    (db' ← exec_all rp 0 db (Connection.create fd now) cmds; mret (Z.of_nat (length cmds), db')).
Proof.
  intros Ham Hr Hg Hfit Hcut Hne. unfold load. destruct (length (got calls)) as [|len] eqn:H0.
  { assert (cmds = []) as ->; [|done]. destruct cmds as [|a cmds]; [done|].
    rewrite Hg in H0. unfold AOFWriter.log_bytes in H0. cbn in H0. rewrite !length_app in H0.
    pose proof (enc_command_pos a). lia. }
  rewrite <- H0. pose proof (ensureWritableBytes_ok Buffer.empty [] (length (got calls)) empty_represents) as Hew.
  apply returns_iff in Hew as (b0 & Hew & Hb0 & Hroom). rewrite Hew. cbn [mbind result_bind].
  pose proof (read_file_ok calls _ b0 [] Hb0 Hr eq_refl Hroom) as Hrf.
  apply returns_iff in Hrf as (r & Hrf & b & -> & Hb). rewrite Hrf. cbn [mbind result_bind app] in *.
  rewrite Hg in Hb, Hfit. rewrite (replay_ok rp _ db _ b 0 cmds tail); [|done|done|done|done|done|].
  - destruct (exec_all _ _ _ _ _); done.
  - rewrite (readableBytes_length _ _ Hb), length_app.
    pose proof (log_bytes_long cmds). lia.
Qed.

(** *** Any file *)

(** Enough calls for the reading loop to end, none of which delivers more than
    it was asked for. *)
Fixpoint file_ends (calls : list read_call) (left : nat) : bool :=
  match left with
  | O => true
  | _ =>
      match calls with
      | [] => false
      | CReadEintr :: calls' => file_ends calls' left
      | CReadError :: _ | CEof :: _ => true
      | CGot s :: calls' => bool_decide (length s ≤ left) && file_ends calls' (left - length s)
      end
  end.

Lemma read_file_total calls left b s :
  represents b s → file_ends calls left = true → left ≤ writableBytes b →
  read_file calls left b ⇓ λ r, ∀ b', r = Some b' → wf b' ∧ length (readable b') ≤ length s + left.
Proof.
  assert (Hstop : ∀ (b b' : Buffer) s left, represents b s → Some b = Some b' →
    wf b' ∧ length (readable b') ≤ length s + left).
  { intros b1 b' s1 left1 [Hw Hr] [= <-]. split; [done|]. rewrite Hr. lia. }
  revert left b s. induction calls as [|call calls IH]; intros [|left] b s Hb He Hroom; cbn [read_file];
    try (apply returns_ok; intros b'; by apply Hstop); [done|].
  destruct call as [t| | |]; cbn [file_ends] in He.
  - apply andb_prop in He as [Ht%bool_decide_eq_true He]. pose proof (fill_ok b s t Hb) as Hf.
    destruct (fill b t) as [b1|] eqn:Hfill; [|destruct Hf; lia]. cbn [mbind result_bind].
    eapply returns_mono; [apply (IH (S left - length t) b1 (s ++ t)); [apply Hf; lia|done|]|].
    + rewrite (fill_room _ _ _ Hfill). lia.
    + intros r Hr b' Hb'. destruct (Hr b' Hb') as [Hw Hl]. split; [done|]. rewrite length_app in Hl. lia.
  - apply returns_ok. intros b'. by apply Hstop.
  - by apply (IH (S left)).
  - done.
Qed.

Definition loaded_ok (db : DB) : Prop := Database.wf db ∧ keyspace_ok (Database.view db).

(** A dispatch that keeps [Q], whatever the command, unless an exception ends it. *)
Definition keeps {St} (rp : Replayer St) (Q : St → Prop) : Prop :=
  ∀ n st c args, args ≠ [] → Q st → out_ok c → rp_run rp n st c args ⇓? λ '(st', c'), Q st' ∧ out_ok c'.

Lemma with_table_keeps t es :
  CommandTable.table_ok t → (∀ j, env_ok (es j)) → keeps (with_table t es) loaded_ok.
Proof.
  intros Ht He n db c args Ha Hdb Hc. destruct args as [|a0 rest]; [done|]. cbn [rp_run with_table].
  eapply survives_mono; [apply CommandTable.dispatch_survives; [done|apply He|apply Hdb|apply Hdb|done]|].
  intros [db' c1] (Hwf' & Hks' & [x (Hout & Hok & _)] & _). done.
Qed.

Lemma replay_survives {St} (rp : Replayer St) (Q : St → Prop) fuel st c b i :
  keeps rp Q → Q st → out_ok c → wf b →
  RespParser.fits_int (readable b) → length (readable b) < fuel → replay rp fuel st c b i ⇓?? λ r, Q r.2.
Proof.
  intros HQ. revert st c b i. induction fuel as [|fuel IH]; intros st c b i Hst Hc Hb Hfit Hlen; [lia|].
  cbn [replay]. case_bool_decide; [done|].
  try_with RespParser.parse_survives; [done|exact Hfit|]. intros [r b'] [Hb' Hr].
  destruct r as [args|]; [|done]. destruct Hr as (frame & Hne & Hread).
  assert (Hlt : length (readable b') < length (readable b)).
  { rewrite Hread, length_app. destruct frame; [done|simpl; lia]. }
  assert (Hfit' : RespParser.fits_int (readable b')) by (unfold RespParser.fits_int in *; lia).
  destruct args as [|a0 rest]; [apply IH; try done; lia|].
  pass_with HQ; [done|done|done|]. intros [st' c1] [Hst' Hout].
  go_with (consume_ok _ (readable (Connection.out_ c1))); [by split|by rewrite length_readable|].
  intros out' [Hw _]. apply IH; try done. lia.
Qed.

(** Whatever the file holds, loading keeps what its commands keep, unless an
    exception ends it. *)
Lemma load_survives {St} (rp : Replayer St) (Q : St → Prop) file calls pipe now st :
  keeps rp Q → Q st →
  (∀ n, file = Opened n → (Z.of_nat n ≤ 2 ^ 31)%Z ∧ file_ends calls n = true) →
  load rp file calls pipe now st ⇓?? λ r, Q r.2.
Proof.
  intros HQ Hst Hfile. unfold load. destruct file as [| |[|n]]; try done.
  destruct (Hfile _ eq_refl) as [Hn Hends].
  go_with (ensureWritableBytes_ok Buffer.empty [] (S n)); [apply empty_represents|]. intros b0 [Hb0 Hroom].
  go_with (read_file_total calls (S n) b0 []); [done|done|lia|]. intros [b|] Hb; [|done].
  destruct (Hb b eq_refl) as [Hw Hlen]. destruct pipe as [fd|]; [|done].
  try_with (replay_survives rp Q _ st (Connection.create fd now)); [done|done|apply empty_represents|exact Hw| | |].
  - unfold RespParser.fits_int. simpl in Hlen. lia.
  - rewrite (readableBytes_length b (readable b)); [lia|by split].
  - by intros [count st'].
Qed.

(** Loading leaves no descriptor open. *)
Lemma load_fds_ok fd readEnd file calls pipe fds :
  fresh_fd fd fds → (∀ writeEnd, pipe = Some writeEnd → fresh_fd writeEnd fds ∧ fresh_fd readEnd (openFd writeEnd fds)) →
  (∀ n, file = Opened n → file_ends calls n = true) →
  load_fds fd readEnd file calls pipe fds = Ok fds.
Proof.
  intros Hfd Hpipe Hfile. unfold load_fds. destruct file as [| |[|n]]; [done|by apply open_close..|].
  pose proof (ensureWritableBytes_ok Buffer.empty [] (S n) empty_represents) as Hb.
  apply returns_iff in Hb as (b0 & -> & Hb0 & Hroom). rewrite bind_ok.
  pose proof (read_file_total calls (S n) b0 [] Hb0 (Hfile _ eq_refl) Hroom) as Hr.
  apply returns_iff in Hr as (r & -> & _). rewrite bind_ok, open_close, bind_ok by done.
  destruct r as [b|], pipe as [writeEnd|]; try done. destruct (Hpipe _ eq_refl) as [Hw Hre].
  rewrite open_close, bind_ok by done. unfold Connection.destroy. cbn [Connection.fd_ Connection.create].
  pose proof (open_close _ _ Hw) as Hc. destruct (Z.leb_spec 0 writeEnd); [done|]. by rewrite openFd_neg by lia.
Qed.

(** *** Truncated files *)

(** A prefix of the log is a number of whole commands and a piece of the next. *)
Lemma cut_log cmds n :
  RespParser.fits_int (AOFWriter.log_bytes cmds) →
  ∃ j tail, j ≤ length cmds ∧ take n (AOFWriter.log_bytes cmds) = AOFWriter.log_bytes (take j cmds) ++ tail ∧
    cut_short tail ∧ (j = length cmds ∨ n < length (AOFWriter.log_bytes (take (S j) cmds))).
Proof.
  revert n. induction cmds as [|args cmds IH]; intros n Hfit.
  { exists 0, []. split; [done|]. split; [by destruct n|]. split; [by left|by left]. }
  rewrite log_bytes_cons in *.
  assert (Hfit2 : RespParser.fits_int (enc_command args) ∧ RespParser.fits_int (AOFWriter.log_bytes cmds)).
  { unfold RespParser.fits_int in *. rewrite length_app in Hfit. lia. }
  destruct Hfit2 as [Hfit1 Hfit2]. destruct (decide (length (enc_command args) ≤ n)) as [Hge|Hlt].
  - destruct (IH (n - length (enc_command args)) Hfit2) as (j & tail & Hj & Htk & Hcut & Hlast).
    exists (S j), tail. split; [simpl; lia|]. rewrite firstn_cons, log_bytes_cons, <- app_assoc, <- Htk.
    split; [by rewrite take_app_ge|]. split; [done|]. destruct Hlast as [->|Hn]; [by left|right].
    rewrite firstn_cons, log_bytes_cons, length_app. lia.
  - exists 0, (take n (enc_command args)). split; [lia|]. rewrite take_app_le by lia. split; [by rewrite take_0|].
    split; [right; exists args, (drop n (enc_command args)); rewrite take_drop; split; [done|]; split; [|done]|].
    + intros Hd%(f_equal length). rewrite length_drop in Hd. change (length (@nil ascii)) with 0 in Hd. lia.
    + right. rewrite firstn_cons, take_0, log_bytes_cons, length_app. lia.
Qed.

(** ** Properties *)

(** The log is replayable, whole or cut short.  If the file holds any prefix
    of the bytes that logging [cmds] produces (a crash may stop a write anywhere),
    [load] executes exactly the commands that are complete in that prefix, in
    order and through the command table, and stops cleanly at the torn one; the
    resulting database satisfies the invariants. *)
Theorem aof_crash_recovery (calls : list read_call) (es : nat → Env) (fd now : Z) (db : DB)
    (cmds : list (list bytes)) (n : nat) :
  reads_ok calls → got calls = take n (AOFWriter.log_bytes cmds) →
  (Z.of_nat (length (AOFWriter.log_bytes cmds)) ≤ 2 ^ 31)%Z → Forall replayable cmds →
  (∀ j, env_ok (es j)) → roomy es → Database.wf db → keyspace_ok (Database.view db) →
  ∃ j, j ≤ length cmds ∧
    (j = length cmds ∨ n < length (AOFWriter.log_bytes (take (S j) cmds))) ∧
    length (AOFWriter.log_bytes (take j cmds)) ≤ length (got calls) ∧
    load (with_table CommandTable.core_table es) (Opened (length (got calls))) calls (Some fd) now db ⇓ λ '(r, db'),
      r = Z.of_nat j ∧ Database.wf db' ∧ keyspace_ok (Database.view db') ∧
      exec_all (with_table CommandTable.core_table es) 0 db (Connection.create fd now) (take j cmds) = Ok db'.
Proof.
  intros Hr Hg Hfit Hall He Hroom Hwf Hks. destruct (cut_log cmds n Hfit) as (j & tail & Hj & Htk & Hcut & Hlast).
  exists j. split; [done|]. split; [done|]. rewrite Htk in Hg. split; [rewrite Hg, length_app; lia|].
  assert (Hall' : Forall replayable (take j cmds)) by by apply Forall_take.
  rewrite (load_ok _ calls fd now db (take j cmds) tail); [|by apply with_table_ample|done|done| |done|].
  - pose proof (exec_all_ok CommandTable.core_table es 0 db (Connection.create fd now) (take j cmds)
      CommandTable.core_table_ok He Hwf Hks (proj1 empty_represents) Hall') as Hex.
    destruct (exec_all _ _ _ _ _) as [db'|]; [|done]. cbn. split; [|by destruct Hex].
    rewrite length_take. f_equal. lia.
  - rewrite Hg, <- Htk. unfold RespParser.fits_int. rewrite length_take. lia.
  - eapply Forall_impl; [exact Hall'|]. by intros [|??].
Qed.

End AOFLoader.

Module AOFProperties.
Import AOFWriter.

(** What the file holds.  Logging appends exactly the RESP form of each
    command, in order, however the kernel splits or interrupts the writes; with
    the policy ALWAYS everything logged is on stable storage when [log] returns. *)
Theorem aof_file_is_log (w : AOFWriter) (d : Disk) (xs : list (list write_call * list bytes)) :
  isEnabled w = true → Forall (λ x, takes x.1 (length (enc_command x.2)) = true) xs →
  log_all w d xs ⇓ λ '(_, d'), contents d' = contents d ++ log_bytes xs.*2 ∧
    (policy_ w = ALWAYS → durable d = length (contents d) → durable d' = length (contents d')).
Proof. apply log_all_ok. Qed.

(** ** Witnesses *)

Definition session : list (list write_call * list bytes) :=
  [([CWrote 3; CEintr; CWrote 100], [lit "SET"; lit "a"; lit "1"]); ([CWrote 100], [lit "DEL"; lit "a"])].

Lemma aof_file_is_log_witness :
  log_all (mkWriter 5 ALWAYS 0 (-1) false []) (mkDisk [] 0) session ⇓ λ '(_, d'),
    contents d' = [] ++ log_bytes session.*2 ∧
    (ALWAYS = ALWAYS → 0 = length (@nil ascii) → durable d' = length (contents d')).
Proof.
  apply (aof_file_is_log (mkWriter 5 ALWAYS 0 (-1) false []) (mkDisk [] 0) session); [reflexivity|].
  repeat constructor.
Defined.

Definition session_cmds : list (list bytes) := session.*2.

Lemma plain_env_ok : env_ok ListCommands.plain_env.
Proof. split; [exists 0%Z|..]; done. Qed.

Lemma aof_crash_recovery_witness :
  ∃ j, j ≤ length session_cmds ∧
    (j = length session_cmds ∨ 40 < length (log_bytes (take (S j) session_cmds))) ∧
    length (log_bytes (take j session_cmds)) ≤ length (take 40 (log_bytes session_cmds)) ∧
    AOFLoader.load (AOFLoader.with_table CommandTable.core_table (λ _, ListCommands.plain_env))
      (AOFLoader.Opened (length (take 40 (log_bytes session_cmds))))
      [CGot (take 40 (log_bytes session_cmds))] (Some 9%Z) 0 Database.empty ⇓ λ '(r, db'),
      r = Z.of_nat j ∧ Database.wf db' ∧ keyspace_ok (Database.view db') ∧
      AOFLoader.exec_all (AOFLoader.with_table CommandTable.core_table (λ _, ListCommands.plain_env)) 0 Database.empty
        (Connection.create 9 0) (take j session_cmds) = Ok db'.
Proof.
  pose proof (AOFLoader.aof_crash_recovery [CGot (take 40 (log_bytes session_cmds))]
    (λ _, ListCommands.plain_env) 9 0 Database.empty session_cmds 40) as H.
  cbn [AOFLoader.got] in H. rewrite app_nil_r in H. apply H; clear H.
  - repeat constructor.
  - done.
  - vm_compute. discriminate.
  - constructor; [intros [Hn|Hn]; vm_compute in Hn; discriminate Hn|].
    constructor; [intros [Hn|Hn]; vm_compute in Hn; discriminate Hn|constructor].
  - intros _. exact plain_env_ok.
  - done.
  - exact (proj1 (Database.empty_ok Database.linux64)).
  - rewrite (proj1 (proj2 (Database.empty_ok Database.linux64))). apply map_Forall_empty.
Defined.

End AOFProperties.
