(* ===== verification/PersistRewrite.v ===== *)
(** * [persistence/AOFWriter]: the background rewrite

    [AOFWriter::triggerRewrite] and [checkRewriteComplete]
    (src/persistence/AOFWriter.cpp).  [fork] gives the child a copy of the
    database; the child writes one or two commands per key to a temporary file;
    the parent goes on logging, keeps a copy of what it logs, and appends it when
    the child has ended, before the temporary file replaces the log.

    The child's memory is the copy ([Database]) in the state of the server; its
    run is the function [child_main].  The outcomes of the system calls are
    arguments. *)
From Stdlib Require Import Ascii String ZArith Lia ZifyNat ZifyBool.
From stdpp Require Import base option list strings gmap.
From S2P Require Import Prelude CStdlib CPosix CDouble CFloat NetBuffer ProtoSerializer ProtoParser NetConnection.
From S2P Require Import StoreSkiplist StoreObject StoreInterfaces StoreDatabase CmdBase CmdHash CmdZSet.
From S2P Require Import CmdTable PersistAOF.
Import RedisObject.

Module AOFRewrite.
Import AOFWriter.

(** ** The child *)

(** Score, member, score, member, ... *)
Definition flatten_zadd (l : list (bytes * double)) : list bytes :=
  mjoin ((λ '(x, s), [take 63 (CFloat.print17g s); x]) <$> l).

(** The [switch] over the type: the command that makes the value again. *)
Definition value_command (e : Env) (key : bytes) (o : RedisObject) : result (list (list bytes)) :=
  match type o with
  | STRING => mret [[lit "SET"; key; asString o]]
  | LIST =>
      l ← std_get (get_deque (data o));
      mret (if bool_decide (l = []) then [] else [lit "RPUSH" :: key :: l])
  | HASH =>
      h ← std_get (get_map (data o));
      mret (if bool_decide (h = ∅) then [] else [lit "HSET" :: key :: HashCommands.flatten (iter_map e h)])
  | SET =>
      s ← std_get (get_set (data o));
      mret (if bool_decide (s = ∅) then [] else [lit "SADD" :: key :: iter_set e s])
  | ZSET =>
      z ← std_get (get_zset (data o));
      if bool_decide (dict z = ∅) then mret []
      else
        elems ← Skiplist.rangeByRank (skiplist z) 0 (wrap_s32 (Z.of_nat (Skiplist.size (skiplist z))) - 1);
        mret [lit "ZADD" :: key :: flatten_zadd elems]
  end.

(** The body of the loop over the keys: three readings of the clock from [i] on. *)
Definition key_commands (e : Env) (i : nat) (db : DB) (key : bytes) : result (list (list bytes) * DB) :=
  '(entry, db1) ← Database.findEntry (platform e) (clk e i) db key;
  match entry with
  | None => mret ([], db1)
  | Some (o, _) =>
      cmds ← value_command e key o;
      '(remaining, db2) ← Database.ttl (clk e (i + 1)) (clk e (i + 2)) db1 key;
      mret (cmds ++ (if (0 <? remaining)%Z then [[lit "PEXPIRE"; key; to_string remaining]] else []), db2)
  end.

(** [writeRespCommand] for each command; [writes n] are the outcomes of [write] for
    the [n]-th.  An error of one is not reported to the caller. *)
Fixpoint write_commands (writes : nat → bytes → list write_call) (n : nat) (d : Disk) (cmds : list (list bytes))
    : result Disk :=
  match cmds with
  | [] => mret d
  | args :: cmds' =>
      let resp := formatRespCommand args in
      '(_, d') ← writeAll (writes n resp) d resp;
      write_commands writes (S n) d' cmds'
  end.

(** [for (const auto& key : allKeys)]: [n] commands are written so far. *)
Fixpoint keys_loop (e : Env) (writes : nat → bytes → list write_call) (keys : list bytes) (i n : nat) (db : DB)
    (d : Disk) : result Disk :=
  match keys with
  | [] => mret d
  | key :: keys' =>
      '(cmds, db') ← key_commands e i db key;
      d' ← write_commands writes n d cmds;
      keys_loop e writes keys' (i + 3) (n + length cmds) db' d'
  end.

(** What the child meets: whether [open] succeeds, its clock and traversal orders,
    the outcomes of [write]. *)
Record ChildWorld := mkChildWorld {
  ch_open : bool;
  ch_env : Env;
  ch_writes : nat → bytes → list write_call
}.

(** The exit status and the temporary file, which [open] truncates. *)
Definition child_main (w : ChildWorld) (db : DB) : result (Z * option Disk) :=
  if negb (ch_open w) then mret (1%Z, None)
  else
    '(allKeys, db1) ← Database.keys db;
    d ← keys_loop (ch_env w) (ch_writes w) allKeys 0 0 db1 (mkDisk [] 0);
    mret (0%Z, Some (fsync d)).

(** ** The parent *)

(** [pid] is what [fork] returned to the parent; [child] is the memory of the
    child process, if there is one. *)
Definition triggerRewrite (pid : Z) (w : AOFWriter) (db : DB) (child : option DB) : AOFWriter * option DB :=
  if isRewriting_ w then (w, child)
  else if (pid <? 0)%Z then (mkWriter (fd_ w) (policy_ w) (lastFsync_ w) (rewriteChildPid_ w) false [], child)
  else (mkWriter (fd_ w) (policy_ w) (lastFsync_ w) pid true [], Some db).

(** How [waitpid] finds the child: running, ended by itself, or otherwise. *)
Inductive wait_outcome := Running | Ended (w : ChildWorld) | Killed.

(** What the parent meets when the child has ended. *)
Record Completion := mkCompletion {
  cp_wait : wait_outcome;
  cp_open : bool;
  cp_writes : nat → bytes → list write_call;
  cp_rename : bool;
  cp_reopen : Z
}.

Fixpoint append_buffer (writes : nat → bytes → list write_call) (n : nat) (d : Disk) (buf : list bytes)
    : result Disk :=
  match buf with
  | [] => mret d
  | entry :: buf' => '(_, d') ← writeAll (writes n entry) d entry; append_buffer writes (S n) d' buf'
  end.

(** Status 0: the buffer is appended, the file replaces the log and is opened. *)
Definition finish_rewrite (c : Completion) (temp : Disk) (w : AOFWriter) (d : Disk) : result (Z * Disk) :=
  if cp_open c then
    temp1 ← append_buffer (cp_writes c) 0 temp (rewriteBuffer_ w);
    if cp_rename c then mret (cp_reopen c, fsync temp1) else mret (fd_ w, d)
  else mret (fd_ w, d).

(** The writer, the log, and the child that is still there. *)
Definition checkRewriteComplete (c : Completion) (child : option DB) (w : AOFWriter) (d : Disk)
    : result (AOFWriter * Disk * option DB) :=
  if (rewriteChildPid_ w <? 0)%Z then mret (w, d, child)
  else
    match cp_wait c with
    | Running => mret (w, d, child)
    | o =>
        '(fd, d') ←
          match o, child with
          | Ended cw, Some db =>
              match child_main cw db with
              | Ok (0%Z, Some temp) => finish_rewrite c temp w d
              | Fault OutOfFuel => Fault OutOfFuel
              | _ => mret (fd_ w, d)
              end
          | _, _ => mret (fd_ w, d)
          end;
        mret (mkWriter fd (policy_ w) (lastFsync_ w) (-1) false [], d', None)
    end.

(** The descriptors of the same function: [tmpFd] is the temporary file, opened
    when [cp_open] holds. *)
Definition checkRewriteComplete_fds (tmpFd : Z) (c : Completion) (child : option DB) (w : AOFWriter) (fds : Fds)
    : result Fds :=
  if (rewriteChildPid_ w <? 0)%Z then mret fds
  else
    match cp_wait c, child with
    | Ended cw, Some db =>
        match child_main cw db with
        | Ok (0%Z, Some _) =>
            if cp_open c then
              fds1 ← closeFd tmpFd (openFd tmpFd fds);
              if cp_rename c then fds2 ← closeFd (fd_ w) fds1; mret (openFd (cp_reopen c) fds2) else mret fds1
            else mret fds
        | _ => mret fds
        end
    | _, _ => mret fds
    end.

(** The log's descriptor is closed before it is opened again, and nothing else
    stays open or is closed. *)
Definition rewrite_fds_ok (tmpFd : Z) (c : Completion) (w : AOFWriter) (fds : Fds) : Prop :=
  fresh_fd tmpFd fds ∧ fresh_fd (cp_reopen c) (fds ∖ list_to_set (log_fds w)).

Lemma checkRewriteComplete_fds_ok tmpFd c child w d fds w' d' child' :
  list_to_set (log_fds w) ⊆ fds → rewrite_fds_ok tmpFd c w fds → checkRewriteComplete c child w d = Ok (w', d', child') →
  log_fds w' = log_fds w ∧ checkRewriteComplete_fds tmpFd c child w fds = Ok fds ∨
  Forall (λ fd, (fd ∉ fds ∖ list_to_set (log_fds w)) ∧ (0 ≤ fd)%Z) (log_fds w') ∧
  checkRewriteComplete_fds tmpFd c child w fds = Ok (list_to_set (log_fds w') ∪ fds ∖ list_to_set (log_fds w)).
Proof.
  intros Hsub [Htmp Hre] H. unfold checkRewriteComplete in H. unfold checkRewriteComplete_fds.
  destruct (_ <? 0)%Z; [injection H as <- <- <-; by left|]. destruct (cp_wait c) as [|cw|]; [injection H as <- <- <-; by left| |].
  2: { injection H as <- <- <-. by left. }
  destruct child as [db|]; [|injection H as <- <- <-; by left].
  destruct (child_main cw db) as [[[|?|?] [temp|]]|[]]; try discriminate H; try (injection H as <- <- <-; by left).
  unfold finish_rewrite in H. destruct (cp_open c); [|injection H as <- <- <-; by left].
  rewrite open_close, bind_ok by done. inv_bind. destruct r as [fd d2]. inv_bind. injection H as <- <- <-.
  destruct (cp_rename c); [|injection E as <- <-; by left]. injection E as <- <-. right.
  assert (Hclose : closeFd (fd_ w) fds = Ok (fds ∖ list_to_set (log_fds w))).
  { unfold log_fds, isEnabled in *. destruct (Z.leb_spec 0 (fd_ w)).
    - rewrite closeFd_ok; [f_equal; set_solver|done|set_solver].
    - rewrite closeFd_neg by done. f_equal. set_solver. }
  rewrite Hclose, bind_ok. set (w' := mkWriter _ _ _ _ _ _).
  change (log_fds w') with (if (0 <=? cp_reopen c)%Z then [cp_reopen c] else []). destruct (Z.leb_spec 0 (cp_reopen c)).
  - rewrite openFd_pos by done. split; [constructor; [auto|done]|]. unfold mret, result_ret. f_equal. set_solver.
  - rewrite openFd_neg by done. split; [done|]. unfold mret, result_ret. f_equal. set_solver.
Qed.

(** ** Termination *)

(** Whatever the outcomes of [write], as long as its loops end. *)
Definition writes_end (writes : nat → bytes → list write_call) : Prop :=
  ∀ n buf, ends (writes n buf) (length buf) = true.

Lemma write_commands_ends writes n d cmds : writes_end writes → write_commands writes n d cmds ⇓ λ _, True.
Proof.
  intros Hw. revert n d. induction cmds as [|args cmds IH]; intros n d; cbn [write_commands]; [done|].
  run_with writeAll_ends; [apply Hw|]. intros [calls d'] _. apply IH.
Qed.

Lemma append_buffer_ends writes n d buf : writes_end writes → append_buffer writes n d buf ⇓ λ _, True.
Proof.
  intros Hw. revert n d. induction buf as [|x buf IH]; intros n d; cbn [append_buffer]; [done|].
  run_with writeAll_ends; [apply Hw|]. intros [calls d'] _. apply IH.
Qed.

Lemma value_command_total e key o : RedisObject.wf o → value_command e key o ⇓ λ _, True.
Proof.
  intros Ho. destruct o as [[] [] []]; try done; cbn [value_command type data std_get get_deque get_map get_set get_zset].
  unfold RedisObject.wf in Ho. cbn in Ho. destruct Ho as [l Hl]. rewrite bind_ok.
  case_bool_decide; [done|]. run_with Skiplist.rangeByRank_any; [exact Hl|]. by intros.
Qed.

(** The commands for one key, and the database after it. *)
Lemma key_commands_total e i db key :
  Database.wf db → keyspace_ok (Database.view db) →
  key_commands e i db key ⇓ λ '(_, db'), Database.wf db' ∧ keyspace_ok (Database.view db').
Proof.
  intros Hwf Hks. unfold key_commands. run_with Database.findEntry_ok; [done|]. intros [r db1] [-> [[Hwf1 Hv1] _]].
  assert (Hks1 : keyspace_ok (Database.view db1)) by (rewrite Hv1; by apply keyspace_ok_purge).
  destruct (Database.live _ _ !! key) as [[o dl]|] eqn:Ho; [|by apply returns_ok].
  run_with value_command_total; [|intros cmds _].
  { apply map_lookup_filter_Some in Ho as [Ho _]. apply (Hks key _ Ho). }
  run_with (Database.ttl_ok Database.linux64); [done|]. intros [left db2] (_ & [Hwf2 Hv2] & _). apply returns_ok. split; [done|].
  rewrite Hv2. by apply keyspace_ok_purge.
Qed.

Lemma keys_loop_total e writes keys i n db d :
  writes_end writes → Database.wf db → keyspace_ok (Database.view db) →
  keys_loop e writes keys i n db d ⇓ λ _, True.
Proof.
  intros Hw. revert i n db d. induction keys as [|key keys IH]; intros i n db d Hwf Hks; cbn [keys_loop]; [done|].
  run_with key_commands_total; [done|done|]. intros [cmds db'] [Hwf' Hks'].
  run_with write_commands_ends; [done|]. intros d' _. by apply IH.
Qed.

Lemma child_main_total w db :
  writes_end (ch_writes w) → Database.wf db → keyspace_ok (Database.view db) → child_main w db ⇓ λ _, True.
Proof.
  intros Hw Hwf Hks. unfold child_main. destruct (negb _); [done|].
  run_with (Database.keys_ok Database.linux64); [done|]. intros [ks db1] (_ & _ & [[Hwf1 Hv1] _]).
  run_with keys_loop_total; [done|done|by rewrite Hv1|]. by intros.
Qed.

(** The outcomes of the system calls while a rewrite is completed. *)
Definition completion_ok (c : Completion) : Prop :=
  writes_end (cp_writes c) ∧ ∀ w, cp_wait c = Ended w → writes_end (ch_writes w).

Definition child_ok (child : option DB) : Prop :=
  ∀ db, child = Some db → Database.wf db ∧ keyspace_ok (Database.view db).

Lemma checkRewriteComplete_total c child w d :
  completion_ok c → child_ok child →
  checkRewriteComplete c child w d ⇓ λ '(_, _, child'), child' = child ∨ child' = None.
Proof.
  intros [Hc Hcw] Hch. unfold checkRewriteComplete. destruct (_ <? 0)%Z; [by left|].
  assert (Hfin : ∀ temp, finish_rewrite c temp w d ⇓ λ _, True).
  { intros temp. unfold finish_rewrite. destruct (cp_open c); [|done].
    run_with append_buffer_ends; [done|]. intros d' _. by destruct (cp_rename c). }
  destruct (cp_wait c) as [|cw|] eqn:Hwait; [by left| |cbn; by right].
  destruct child as [db|]; [|cbn; by right]. destruct (Hch db eq_refl) as [Hwf Hks].
  pose proof (child_main_total cw db (Hcw _ eq_refl) Hwf Hks) as Hm.
  eapply (returns_bind _ _ (λ _, True)); [|intros [fd d'] _; apply returns_ok; by right].
  destruct (child_main cw db) as [[[|?|?] [temp|]]|]; try done.
Qed.

End AOFRewrite.
