(* ===== verification/PersistRecovery.v ===== *)
(** * The data survives a restart

    What the log is for: the store rebuilt from it is the store of the server
    that wrote it, before and after a background rewrite.  The store is the one of
    [CmdStore]; the commands are those of [plain], without deadlines. *)
From Stdlib Require Import Ascii String ZArith Lia ZifyNat ZifyBool.
From stdpp Require Import base option list strings gmap.
From S2P Require Import Prelude CStdlib CDouble CFloat NetBuffer ProtoSerializer ProtoParser NetConnection.
From S2P Require Import StoreSkiplist StoreObject StoreInterfaces StoreDatabase CmdBase CmdList CmdHash CmdSet CmdZSet.
From S2P Require Import CmdTable CmdStore CmdTimed PersistAOF PersistRewrite.
Import RedisObject Connection.

Module Recovery.
Import Store Timed AOFWriter AOFLoader AOFRewrite.

(** ** Replay *)

(** The reference interpreter on a list of commands. *)
Definition run_all (cmds : list (list bytes)) (st : store) : store :=
  foldl (λ st args, apply CommandTable.core_table args st) st cmds.

Lemma run_all_app cmds1 cmds2 st : run_all (cmds1 ++ cmds2) st = run_all cmds2 (run_all cmds1 st).
Proof. apply foldl_app. Qed.

(** What the server logs in a session without deadlines. *)
Definition logged (args : list bytes) : Prop :=
  match args with [] => False | arg0 :: _ => CommandTable.isWriteCommand CommandTable.core_table arg0 = true end
  ∧ plain args.

Definition good_store (db : DB) (st : store) : Prop :=
  loaded_ok db ∧ calm (Database.view db) ∧ store_of (Database.view db) = st.

(** LRANGE and ZRANGE are not logged. *)
Lemma write_indices arg0 args :
  CommandTable.isWriteCommand CommandTable.core_table arg0 = true → CommandTable.indices_ok (to_upper arg0) args.
Proof.
  intros Hw. unfold CommandTable.isWriteCommand in Hw.
  intros [Hn|Hn]; rewrite Hn in Hw; vm_compute in Hw; discriminate Hw.
Qed.

Lemma logged_replayable args : logged args → replayable args.
Proof. intros [Hw _]. destruct args as [|arg0 rest]; [done|]. by apply write_indices. Qed.

#[local] Opaque CommandTable.core_table.

Lemma exec_all_applies es i db c cmds st :
  (∀ j, env_ok (es j)) → good_store db st → out_ok c → Forall logged cmds →
  exec_all (with_table CommandTable.core_table es) i db c cmds ⇓ λ db', good_store db' (run_all cmds st).
Proof.
  intros He Hdb Hc Hall. revert i db c st Hdb Hc.
  induction Hall as [|args cmds Ha _ IH]; intros i db c st [[Hwf Hks] [Hcalm Hst]] Hc;
    cbn [exec_all rp_run with_table]; [done|].
  pose proof (logged_replayable _ Ha) as Hrep. destruct args as [|a0 rest]; [by destruct Ha|].
  eapply returns_bind.
  { apply (returns_and (X := conversion)).
    - apply CommandTable.dispatch_serves; [apply CommandTable.core_table_ok|apply He|exact Hwf|exact Hks|exact Hc|exact Hrep].
    - apply dispatch_applies; [apply He|exact Hwf|exact Hks|exact Hcalm|exact Hc|apply Ha|discriminate]. }
  intros [db' c1] [(Hwf' & Hks' & [r (Hout & _)] & _) [Hst' Hcalm']].
  run_with (Buffer.consume_ok _ (Buffer.readable (out_ c1))); [by split|by rewrite Buffer.length_readable|].
  intros out' [Hw _]. apply IH; [|done]. split; [by split|]. split; [done|]. by rewrite Hst', Hst.
Qed.

(** ** The commands of a snapshot *)

(** Sorted sets as far as a snapshot can hold them: consistent, with binary64
    scores, and of a size that fits [int]. *)
Definition reads_back (s : double) : Prop := CFloat.strtod (ZSetCommands.formatScore s) = s.

Definition sized (o : RedisObject) : Prop := ∀ z, data o = DZSet z → (Z.of_nat (base.size (dict z)) < 2 ^ 31)%Z.

Definition storable (o : RedisObject) : Prop := sized o ∧ ∀ z, data o = DZSet z → zset_good z.

(** [args] puts the value of [o] under a key that is not there. *)
Definition rebuilds (key : bytes) (o : RedisObject) (args : list bytes) : Prop :=
  logged args ∧
  ∀ st : store, st !! key = None → apply CommandTable.core_table args st = <[key := value_of o]> st.

(** A command of the table by its name. *)
Definition known (nm : bytes) (n : Z) : Prop :=
  to_upper nm = nm ∧ (λ x, (CommandTable.arity x, CommandTable.isWrite x)) <$> CommandTable.core_table !! nm = Some (n, true).

Lemma apply_known nm n rest st :
  known nm n → CommandTable.arity_ok n (nm :: rest) = true →
  apply CommandTable.core_table (nm :: rest) st = apply_named nm (nm :: rest) st.
Proof.
  intros [Hup Hn] Har. unfold apply. rewrite Hup.
  destruct (CommandTable.core_table !! nm) as [x|]; [|done]. cbn in Hn. injection Hn as -> _. by rewrite Har.
Qed.

Lemma known_logged nm n rest : known nm n → plain (nm :: rest) → logged (nm :: rest).
Proof.
  intros [Hup Hn] Hp. split; [|done]. unfold CommandTable.isWriteCommand. rewrite Hup.
  destruct (CommandTable.core_table !! nm) as [x|]; [|done]. cbn in Hn. by injection Hn.
Qed.

#[local] Transparent CommandTable.core_table.
Lemma known_set : known (lit "SET") 3. Proof. by vm_compute. Qed.
Lemma known_rpush : known (lit "RPUSH") (-3). Proof. by vm_compute. Qed.
Lemma known_hset : known (lit "HSET") (-4). Proof. by vm_compute. Qed.
Lemma known_sadd : known (lit "SADD") (-3). Proof. by vm_compute. Qed.
Lemma known_zadd : known (lit "ZADD") (-4). Proof. by vm_compute. Qed.
Lemma known_pexpire : known (lit "PEXPIRE") 3. Proof. by vm_compute. Qed.
#[local] Opaque CommandTable.core_table.

Lemma at_least n nm (rest : list bytes) :
  (n < 0)%Z → (- n ≤ 1 + Z.of_nat (length rest))%Z → CommandTable.arity_ok n (nm :: rest) = true.
Proof.
  intros Hn Hl. unfold CommandTable.arity_ok. cbv zeta. replace (0 <? n)%Z with false by lia. simpl length. lia.
Qed.

(** A command that is neither EXPIRE, PEXPIRE nor ZADD. *)
Ltac plainly := split; [|split]; intros Hn; vm_compute in Hn; discriminate Hn.

Lemma rebuilds_string key o : RedisObject.wf o → type o = STRING → rebuilds key o [lit "SET"; key; asString o].
Proof.
  intros Ho Ht. split; [apply (known_logged _ _ _ known_set); plainly|]. intros st _.
  rewrite (apply_known _ _ _ _ known_set) by done.
  change (<[key := VString (asString (createString (asString o)))]> st = <[key := value_of o]> st). f_equal.
  destruct o as [[] [] []]; try done; unfold RedisObject.wf in Ho; cbn in Ho |- *; f_equal.
  - change (asString (mkObject STRING RAW (DString s))) with s. by rewrite Ho.
  - change (asString (mkObject STRING INTEGER (DInteger z))) with (to_string z). by rewrite createString_to_string.
Qed.

Lemma rebuilds_list key l :
  l ≠ [] → rebuilds key (ListCommands.list_obj l) (lit "RPUSH" :: key :: l).
Proof.
  intros Hl. split; [apply (known_logged _ _ _ known_rpush); plainly|]. intros st Hst.
  rewrite (apply_known _ _ _ _ known_rpush) by (apply at_least; [done|]; destruct l; [done|simpl; lia]).
  change (change key (push_list (λ l0, l0 ++ l)) st = <[key := VList l]> st). unfold change. by rewrite Hst.
Qed.

Lemma rebuilds_set key s (xs : list bytes) :
  s ≠ ∅ → xs ≡ₚ elements s → rebuilds key (SetCommands.set_obj s) (lit "SADD" :: key :: xs).
Proof.
  intros Hs Hxs. split; [apply (known_logged _ _ _ known_sadd); plainly|]. intros st Hst.
  assert (Hset : list_to_set xs = s) by (by rewrite Hxs; apply list_to_set_elements_L).
  rewrite (apply_known _ _ _ _ known_sadd).
  - change (change key (add_set xs) st = <[key := VSet s]> st). unfold change. rewrite Hst. cbn [add_set].
    by rewrite union_empty_l_L, Hset.
  - apply at_least; [done|]. destruct xs; [|simpl; lia]. by destruct Hs.
Qed.

(** A list of pairs laid out flat. *)
Lemma pairs_flatten fvs : HashCommands.pairs (HashCommands.flatten fvs) = fvs.
Proof. induction fvs as [|[f v] fvs IH]; [done|]. cbn. f_equal. exact IH. Qed.

Lemma put_all_fresh h fvs :
  NoDup fvs.*1 → (∀ f, f ∈ fvs.*1 → h !! f = None) → HashCommands.put_all h fvs = list_to_map fvs ∪ h.
Proof.
  revert h. induction fvs as [|[f v] fvs IH]; intros h Hnd Hh; cbn; [by rewrite (left_id_L ∅ (∪))|].
  apply NoDup_cons in Hnd as [Hf Hnd]. cbn in *. fold (HashCommands.put_all (<[f := v]> h) fvs). rewrite IH; [|done|].
  - rewrite <- insert_union_r by by apply not_elem_of_list_to_map_1. by rewrite insert_union_l.
  - intros g Hg. rewrite lookup_insert_ne by (by intros ->). apply Hh. by right.
Qed.

Lemma paired_flat nm key (xs : list bytes) n : length xs = n * 2 → paired (nm :: key :: xs) = true.
Proof.
  intros Hn. unfold paired. apply bool_decide_eq_true. simpl length. rewrite Nat.sub_succ, Nat.sub_succ, Nat.sub_0_r, Hn.
  apply Nat.Div0.mod_mul.
Qed.

Lemma rebuilds_hash key h (fvs : list (bytes * bytes)) :
  h ≠ ∅ → fvs ≡ₚ map_to_list h → rebuilds key (HashCommands.hash_obj h) (lit "HSET" :: key :: HashCommands.flatten fvs).
Proof.
  intros Hh Hfvs. split; [apply (known_logged _ _ _ known_hset); plainly|]. intros st Hst.
  assert (Hnd : NoDup fvs.*1) by (rewrite Hfvs; apply NoDup_fst_map_to_list).
  assert (Hmap : list_to_map fvs = h).
  { rewrite <- (list_to_map_to_list h). by apply list_to_map_proper. }
  pose proof (HashCommands.length_flatten fvs) as Hlen. rewrite (apply_known _ _ _ _ known_hset).
  - change (change key (if paired (lit "HSET" :: key :: HashCommands.flatten fvs)
      then put_hash (HashCommands.pairs (HashCommands.flatten fvs)) else λ _, None) st = <[key := VHash h]> st).
    rewrite (paired_flat _ _ _ _ Hlen). unfold change. rewrite Hst, pairs_flatten. cbn [put_hash].
    rewrite put_all_fresh, Hmap, (right_id_L ∅ (∪)); [done|done|]. intros f _. apply lookup_empty.
  - apply at_least; [done|]. destruct fvs as [|fv fvs]; [|simpl length in *; lia]. by destruct Hh.
Qed.

(** *** Sorted sets *)

Lemma length_flatten_zadd (l : list (bytes * double)) : length (flatten_zadd l) = length l * 2.
Proof.
  induction l as [|[x s] l IH]; [done|].
  change (flatten_zadd ((x, s) :: l)) with ([ZSetCommands.formatScore s; x] ++ flatten_zadd l). rewrite length_app, IH. simpl. lia.
Qed.

Lemma scored_flatten (l : list (bytes * double)) :
  Forall (λ xs, reads_back xs.2) l → ZSetCommands.scored (flatten_zadd l) = (λ xs, (xs.2, xs.1)) <$> l.
Proof.
  induction 1 as [|[x s] l Hs _ IH]; [done|].
  change (flatten_zadd ((x, s) :: l)) with (ZSetCommands.formatScore s :: x :: flatten_zadd l).
  unfold ZSetCommands.scored. cbn [HashCommands.pairs fmap list_fmap].
  fold (ZSetCommands.scored (flatten_zadd l)). rewrite IH. cbn in *. by rewrite Hs.
Qed.

Lemma put_scores_fresh h (l : list (bytes * double)) :
  NoDup l.*1 → (∀ x, x ∈ l.*1 → h !! x = None) →
  ZSetCommands.put_scores h ((λ xs, (xs.2, xs.1)) <$> l) = list_to_map l ∪ h.
Proof.
  revert h. induction l as [|[x s] l IH]; intros h Hnd Hh; cbn; [by rewrite (left_id_L ∅ (∪))|].
  apply NoDup_cons in Hnd as [Hx Hnd]. cbn in *. unfold ZSetCommands.put_score at 2. cbn.
  rewrite (Hh x) by by left. fold (ZSetCommands.put_scores (<[x := s]> h) ((λ xs, (xs.2, xs.1)) <$> l)).
  rewrite IH; [|done|].
  - rewrite <- insert_union_r by by apply not_elem_of_list_to_map_1. by rewrite insert_union_l.
  - intros y Hy. rewrite lookup_insert_ne by (by intros ->). apply Hh. by right.
Qed.

Lemma rebuilds_zset key z (l : list (bytes * double)) :
  dict z ≠ ∅ → dict z = list_to_map l → NoDup l.*1 → Skiplist.sorted l → map_Forall (λ _ s, reads_back s) (dict z) →
  rebuilds key (ZSetCommands.zset_obj z) (lit "ZADD" :: key :: flatten_zadd l).
Proof.
  intros Hz Hd Hnd [Hnan _] Hrb.
  assert (Hall : Forall (λ xs, reads_back xs.2) l).
  { apply list.Forall_forall. intros [x s] Hin. apply (Hrb x). rewrite Hd. by apply elem_of_list_to_map. }
  pose proof (length_flatten_zadd l) as Hlen. pose proof (scored_flatten l Hall) as Hsc. split.
  - apply (known_logged _ _ _ known_zadd). split; [|split]; [intros Hn; vm_compute in Hn; discriminate Hn..|].
    intros _. change (ZSetCommands.numbers (ZSetCommands.scored (flatten_zadd l))). rewrite Hsc. apply Forall_fmap. eapply Forall_impl; [exact Hnan|]. done.
  - intros st Hst. rewrite (apply_known _ _ _ _ known_zadd).
    + change (change key (if paired (lit "ZADD" :: key :: flatten_zadd l)
        then add_zset (ZSetCommands.scored (flatten_zadd l)) else λ _, None) st = <[key := VZSet (dict z)]> st).
      rewrite (paired_flat _ _ _ _ Hlen). unfold change. rewrite Hst, Hsc. cbn [add_zset].
      rewrite put_scores_fresh, <- Hd, (right_id_L ∅ (∪)); [done|done|]. intros x _. apply lookup_empty.
    + apply at_least; [done|]. destruct l as [|xs l]; [|simpl length in *; lia]. by destruct Hz.
Qed.

(** *** One key *)

Lemma value_command_ok e key o :
  env_ok e → object_ok o → storable o → value_command e key o ⇓ λ cmds, ∃ args, cmds = [args] ∧ rebuilds key o args.
Proof.
  intros He [Hw Hne] Hst. destruct o as [[] [] []]; try done;
    cbn [value_command type data std_get get_deque get_map get_set get_zset]; unfold nonempty in Hne; cbn in Hne.
  - apply returns_ok. eexists. split; [done|]. by apply rebuilds_string.
  - apply returns_ok. eexists. split; [done|]. by apply rebuilds_string.
  - rewrite bind_ok, bool_decide_false by done. apply returns_ok. eexists. split; [done|]. by apply rebuilds_list.
  - rewrite bind_ok, bool_decide_false by done. apply returns_ok. eexists. split; [done|].
    apply rebuilds_hash; [done|apply He].
  - rewrite bind_ok, bool_decide_false by done. apply returns_ok. eexists. split; [done|].
    apply rebuilds_set; [done|apply He].
  - rewrite bind_ok, bool_decide_false by done. destruct Hst as [Hlt Hst]. specialize (Hlt _ eq_refl).
    destruct (Hst _ eq_refl) as [(l & [Hch Hso] & Hnd & Hd) Hb].
    assert (Hrb : map_Forall (λ _ s, reads_back s) (dict z)).
    { intros x s Hx. apply ZSetCommands.formatScore_reads. by apply (Hb x). }
    assert (Hsize : base.size (dict z) = length l).
    { by rewrite Hd, map_size_list_to_map. }
    rewrite (ZSetCommands.zset_size _ _ Hch).
    run_with Skiplist.rangeByRank_ok; [exact Hch|lia|]. intros r ->. apply returns_ok. eexists. split; [done|].
    rewrite wrap_s32_id by (unfold in_s32; lia). rewrite ZSetCommands.range_of_all by done. by apply rebuilds_zset.
Qed.

Definition pexpire (k : bytes) (ms : Z) : list bytes := [lit "PEXPIRE"; k; to_string ms].

Lemma apply_pexpire k ms st : apply CommandTable.core_table (pexpire k ms) st = st.
Proof. unfold pexpire. by rewrite (apply_known _ _ _ _ known_pexpire). Qed.

(** What stands in the file for a key, and for several one after the other. *)
Definition key_written (e : Env) (j : nat) (live : Database.keyspace) (key : bytes) (cmds : list (list bytes)) : Prop :=
  match live !! key with
  | None => cmds = []
  | Some (o, d) => ∃ args, rebuilds key o args ∧
      cmds = args :: (if (0 <=? d)%Z then [pexpire key (d - clk e j)] else [])
  end.

Inductive written (e : Env) (live : Database.keyspace) : list bytes → list (list bytes) → Prop :=
| written_nil : written e live [] []
| written_key j key ks cmds1 cmds :
    key ∉ ks → key_written e j live key cmds1 → written e live ks cmds → written e live (key :: ks) (cmds1 ++ cmds).

(** The commands written for the keys [ks] of [m]: [now] tells which are alive. *)
Record snapshot (e : Env) (now : Z) (m : Database.keyspace) (ks : list bytes) (cmds : list (list bytes)) : Prop := {
  sn_store (st : store) k :
    (∀ k, k ∈ ks → st !! k = None) →
    run_all cmds st !! k = if decide (k ∈ ks) then store_of (Database.live now m) !! k else st !! k;
  sn_deadlines k o d :
    k ∈ ks → Database.live now m !! k = Some (o, d) → (0 ≤ d)%Z → ∃ j, pexpire k (d - clk e j) ∈ cmds;
  sn_written : written e (Database.live now m) ks cmds;
  sn_logged : (∀ k x, m !! k = Some x → x.2 = (-1)%Z) → Forall logged cmds
}.

Definition snapshot_ready (e : Env) (now : Z) (db : DB) : Prop :=
  Database.wf db ∧ keyspace_ok (Database.view db) ∧ unhurried e now (Database.view db) ∧
  map_Forall (λ _ x, storable x.1) (Database.view db).

Lemma ready_sub e now db db' m :
  snapshot_ready e now db → Database.holds m db' → m ⊆ Database.view db → snapshot_ready e now db'.
Proof.
  intros (Hwf & Hks & Hu & Hst) [Hwf' Hv] Hsub. rewrite <- Hv in Hsub. split; [done|]. split; [|split].
  - intros k x Hk. apply (Hks k). by eapply lookup_weaken.
  - by eapply unhurried_sub.
  - intros k x Hk. apply (Hst k). by eapply lookup_weaken.
Qed.

(** What [key_commands] writes for a key. *)
Lemma key_commands_ok e now i db key :
  env_ok e → snapshot_ready e now db →
  key_commands e i db key ⇓ λ '(cmds, db'),
    snapshot_ready e now db' ∧ Database.view db' ⊆ Database.view db ∧
    Database.live now (Database.view db') = Database.live now (Database.view db) ∧
    key_written e (i + 2) (Database.live now (Database.view db)) key cmds.
Proof.
  intros He Hready. pose proof Hready as (Hwf & Hks & Hu & Hst). unfold key_commands, key_written.
  run_with Database.findEntry_ok; [done|]. intros [r db1] [-> [[Hwf1 Hv1] _]].
  rewrite (unhurried_live e now i) by done. rewrite (unhurried_purge e now i) in Hv1 by done.
  assert (Hsub1 : Database.view db1 ⊆ Database.view db) by (rewrite Hv1; apply Database.purge_subseteq).
  assert (Hr1 : snapshot_ready e now db1) by (by apply (ready_sub e now db db1 (Database.view db1))).
  assert (Hl1 : Database.live now (Database.view db1) = Database.live now (Database.view db))
    by (rewrite Hv1; apply Database.live_purge).
  destruct (Database.live now (Database.view db) !! key) as [[o d]|] eqn:Ho; [|by apply returns_ok].
  pose proof Ho as Hlive. apply map_lookup_filter_Some in Hlive as [Hkey Hexp].
  run_with value_command_ok; [done|apply (Hks key _ Hkey)|apply (Hst key _ Hkey)|]. intros cmds (args & -> & Hreb).
  run_with (Database.ttl_ok Database.linux64); [done|]. intros [left db2] (Hleft & Hh2 & _).
  pose proof Hr1 as (_ & _ & Hu1 & _). rewrite (unhurried_live e now) in Hleft by done. rewrite Hl1, Ho in Hleft.
  rewrite (unhurried_purge e now) in Hh2 by done. apply returns_ok. pose proof (Database.purge_subseteq now key (Database.view db1)) as Hsub2.
  split; [by eapply ready_sub|]. destruct Hh2 as [_ Hv2]. rewrite Hv2. split; [by etrans|].
  split; [by rewrite Database.live_purge|]. exists args. split; [done|]. cbn [app]. f_equal.
  cbn in Hexp. pose proof (Hu (i + 2) key _ Hkey) as Hx. cbn in Hx.
  rewrite <- Hx in Hexp. unfold Database.expired in Hexp.
  destruct (Z.ltb_spec d 0), (Z.leb_spec 0 d); try lia; subst left; cbn [Z.ltb Z.compare]; [done|].
  replace (0 <? d - clk e (i + 2))%Z with true by lia. done.
Qed.

Lemma snapshot_nil e now m : snapshot e now m [] [].
Proof. split; [done| |constructor|by constructor]. by intros k o d ?%elem_of_nil. Qed.

(** One more key. *)
Lemma snapshot_cons (e : Env) (now : Z) (m m' : Database.keyspace) (key : bytes) (ks : list bytes)
    (cmds1 cmds : list (list bytes)) (j : nat) :
  key ∉ ks → m' ⊆ m → Database.live now m' = Database.live now m →
  key_written e j (Database.live now m) key cmds1 →
  snapshot e now m' ks cmds → snapshot e now m (key :: ks) (cmds1 ++ cmds).
Proof.
  intros Hnew Hsub Hlive Hkw [Hst Hdl Hwr Hlog]. rewrite Hlive in Hwr. pose proof Hkw as Hc. unfold key_written in Hc. split.
  - intros st k Hnone. rewrite run_all_app.
    assert (H1 : run_all cmds1 st = match store_of (Database.live now m) !! key with
                                    | Some v => <[key := v]> st | None => st end).
    { rewrite store_lookup. destruct (Database.live now m !! key) as [[o d]|]; [|by subst].
      destruct Hc as (args & [_ Hargs] & ->). unfold run_all. cbn [foldl fmap option_fmap option_map fst].
      rewrite Hargs by (apply Hnone; by left). destruct (0 <=? d)%Z; cbn [foldl]; [apply apply_pexpire|done]. }
    rewrite H1, Hst, Hlive.
    + destruct (decide (k ∈ ks)) as [Hk|Hk]; [by rewrite decide_True by by right|].
      destruct (decide (k = key)) as [->|Hne].
      * rewrite decide_True by by left. destruct (store_of (Database.live now m) !! key) as [v|] eqn:Hv; [by rewrite lookup_insert_eq|].
        apply Hnone. by left.
      * rewrite decide_False by (rewrite elem_of_cons; tauto).
        destruct (store_of (Database.live now m) !! key); [by rewrite lookup_insert_ne|done].
    + intros k' Hk'. destruct (store_of (Database.live now m) !! key); [rewrite lookup_insert_ne by (by intros ->)|]; apply Hnone; by right.
  - intros k o d Hk Ho Hd. destruct (decide (k = key)) as [->|Hne].
    + rewrite Ho in Hc. destruct Hc as (args & _ & ->). replace (0 <=? d)%Z with true by lia. exists j.
      apply elem_of_app. left. right. by left.
    + apply elem_of_cons in Hk as [?|Hk]; [done|]. destruct (Hdl k o d Hk) as [j' Hj']; [by rewrite Hlive|done|].
      exists j'. apply elem_of_app. by right.
  - by econstructor.
  - intros Hnd. apply Forall_app. split.
    + destruct (Database.live now m !! key) as [[o d]|] eqn:Ho; [|subst; constructor].
      destruct Hc as (args & [Hargs _] & ->). apply map_lookup_filter_Some in Ho as [Ho _].
      pose proof (Hnd key _ Ho) as Hd. cbn in Hd. subst d. apply Forall_cons. split; [done|constructor].
    + apply Hlog. intros k x Hk. apply (Hnd k). by eapply lookup_weaken.
Qed.

(** *** The file of the child *)

Definition all_taken (writes : nat → bytes → list write_call) : Prop :=
  ∀ n buf, takes (writes n buf) (length buf) = true.

Lemma write_commands_ok writes n d cmds :
  all_taken writes → write_commands writes n d cmds ⇓ λ d', d' = mkDisk (contents d ++ log_bytes cmds) (durable d).
Proof.
  intros Hw. revert n d. induction cmds as [|args cmds IH]; intros n d; cbn [write_commands].
  { apply returns_ok. unfold log_bytes. cbn. rewrite app_nil_r. by destruct d. }
  run_with writeAll_ok; [apply Hw|]. intros [calls d'] ->. eapply returns_mono; [apply IH|]. intros d' ->. cbn [contents durable].
  by rewrite formatRespCommand_eq, <- app_assoc.
Qed.

Lemma append_buffer_ok writes n d buf :
  all_taken writes → append_buffer writes n d buf ⇓ λ d', d' = mkDisk (contents d ++ mjoin buf) (durable d).
Proof.
  intros Hw. revert n d. induction buf as [|x buf IH]; intros n d; cbn [append_buffer].
  { apply returns_ok. cbn. rewrite app_nil_r. by destruct d. }
  run_with writeAll_ok; [apply Hw|]. intros [calls d'] ->. eapply returns_mono; [apply IH|]. intros d' ->.
  cbn [contents durable]. by rewrite <- app_assoc.
Qed.

Lemma log_bytes_app cmds1 cmds2 : log_bytes (cmds1 ++ cmds2) = log_bytes cmds1 ++ log_bytes cmds2.
Proof. unfold log_bytes. by rewrite fmap_app, join_app. Qed.

Lemma keys_loop_ok e now writes ks i n db d :
  env_ok e → all_taken writes → NoDup ks → snapshot_ready e now db →
  keys_loop e writes ks i n db d ⇓ λ d', ∃ cmds,
    contents d' = contents d ++ log_bytes cmds ∧ snapshot e now (Database.view db) ks cmds.
Proof.
  intros He Hw Hnd. revert i n db d. induction Hnd as [|key ks Hnew _ IH]; intros i n db d Hready; cbn [keys_loop].
  { apply returns_ok. exists []. split; [unfold log_bytes; cbn; by rewrite app_nil_r|apply snapshot_nil]. }
  run_with key_commands_ok; [done|done|]. intros [cmds1 db1] (Hr1 & Hsub & Hlive & Hc).
  run_with write_commands_ok; [done|]. intros d1 ->.
  eapply returns_mono; [by apply IH|]. intros d2 (cmds & Hd2 & Hsn). exists (cmds1 ++ cmds). split.
  - rewrite Hd2. cbn [contents]. by rewrite log_bytes_app, app_assoc.
  - by eapply snapshot_cons.
Qed.

Lemma child_main_ok w db now :
  ch_open w = true → env_ok (ch_env w) → all_taken (ch_writes w) → snapshot_ready (ch_env w) now db →
  child_main w db ⇓ λ '(status, file), status = 0%Z ∧ ∃ d ks cmds,
    file = Some d ∧ contents d = log_bytes cmds ∧ durable d = length (contents d) ∧
    (∀ k, k ∈ ks ↔ is_Some (Database.view db !! k)) ∧ snapshot (ch_env w) now (Database.view db) ks cmds.
Proof.
  intros Hopen He Hw Hready. unfold child_main. rewrite Hopen. cbn [negb].
  run_with (Database.keys_ok Database.linux64); [apply Hready|]. intros [ks db1] (Hnd & Hin & [[Hwf1 Hv1] _]).
  run_with (keys_loop_ok (ch_env w) now); [done|done|done|by eapply ready_sub; [|split|]|].
  intros d (cmds & Hd & Hsn). apply returns_ok. split; [done|]. exists (fsync d), ks, cmds. rewrite Hv1 in Hsn.
  split; [done|]. split; [exact Hd|]. by split.
Qed.

(** All keys: the commands rebuild the store that is alive. *)
Lemma snapshot_all e now m ks cmds :
  (∀ k : bytes, k ∈ ks ↔ is_Some (m !! k)) → snapshot e now m ks cmds →
  run_all cmds ∅ = store_of (Database.live now m).
Proof.
  intros Hks [Hst _ _ _]. apply map_eq. intros k. rewrite Hst by (intros; apply lookup_empty).
  destruct (decide (k ∈ ks)) as [|Hk]; [done|]. rewrite lookup_empty, store_lookup.
  destruct (Database.live now m !! k) as [x|] eqn:Hx; [|done]. destruct Hk. apply Hks.
  apply map_lookup_filter_Some in Hx as [Hx _]. eauto.
Qed.

(** ** A rewrite while commands arrive *)

(** Every system call of the child and of the parent succeeds. *)
Record completes (c : Completion) (cw : ChildWorld) : Prop := {
  cm_wait : cp_wait c = Ended cw;
  cm_child : ch_open cw = true ∧ env_ok (ch_env cw) ∧ all_taken (ch_writes cw);
  cm_parent : cp_open c = true ∧ all_taken (cp_writes c) ∧ cp_rename c = true ∧ (0 ≤ cp_reopen c)%Z
}.

(** BGREWRITEAOF on [db], the commands [xs] logged while the child runs, and the
    end of the rewrite. *)
Definition rewrite_run (pid : Z) (w : AOFWriter) (d : Disk) (db : DB) (xs : list (list write_call * list bytes))
    (c : Completion) : result (AOFWriter * Disk * option DB) :=
  let '(w1, ch) := triggerRewrite pid w db None in
  '(w2, d2) ← log_all w1 d xs;
  checkRewriteComplete c ch w2 d2.

Definition taken (xs : list (list write_call * list bytes)) : Prop :=
  Forall (λ x, takes x.1 (length (enc_command x.2)) = true) xs.

Lemma log_all_buffers w d xs :
  isEnabled w = true → isRewriting_ w = true → taken xs →
  log_all w d xs ⇓ λ '(w', _),
    rewriteChildPid_ w' = rewriteChildPid_ w ∧ rewriteBuffer_ w' = rewriteBuffer_ w ++ (enc_command <$> xs.*2).
Proof.
  intros He Hr Hall. revert w d He Hr. induction Hall as [|[calls args] xs Hx _ IH]; intros w d He Hr; cbn [log_all].
  { apply returns_ok. cbn. by rewrite app_nil_r. }
  run_with log_ok; [done|exact Hx|]. intros [[calls' w'] d'] (_ & _ & Hf & _ & Hpid & Hrw & Hbuf).
  eapply returns_mono; [apply IH; [unfold isEnabled in *; by rewrite Hf|congruence]|]. intros [w2 d2] [Hp2 Hb2].
  split; [congruence|]. rewrite Hb2, Hbuf, Hr, <- app_assoc. done.
Qed.

Lemma calm_ready e now db :
  loaded_ok db → calm (Database.view db) → map_Forall (λ _ x, sized x.1) (Database.view db) →
  snapshot_ready e now db.
Proof.
  intros [Hwf Hks] Hc Hst. split; [done|]. split; [done|]. split.
  - intros j k x Hk. destruct (Hc k x Hk) as [Hd _]. by rewrite Hd.
  - intros k x Hk. split; [by apply (Hst k)|]. by destruct (Hc k x Hk).
Qed.

(** The new log is the snapshot followed by what was logged meanwhile. *)
Lemma rewrite_log pid w d db xs c cw :
  loaded_ok db → calm (Database.view db) → map_Forall (λ _ x, sized x.1) (Database.view db) →
  isEnabled w = true → isRewriting_ w = false → (0 < pid)%Z → completes c cw → taken xs →
  rewrite_run pid w d db xs c ⇓ λ '(w', d', ch), isEnabled w' = true ∧ isRewriting_ w' = false ∧ ch = None ∧
    durable d' = length (contents d') ∧
    ∃ cmds, contents d' = log_bytes (cmds ++ xs.*2) ∧ Forall logged cmds ∧
      run_all cmds ∅ = store_of (Database.view db).
Proof.
  intros Hdb Hcalm Hst He Hr Hpid [Hwait (Ho & Henv & Hcw) (Hpo & Hpw & Hpr & Hpf)] Hxs.
  unfold rewrite_run, triggerRewrite. rewrite Hr. replace (pid <? 0)%Z with false by lia.
  run_with log_all_buffers; [exact He|done|done|]. intros [w2 d2] [Hp2 Hb2]. cbn in Hp2, Hb2.
  unfold checkRewriteComplete. rewrite Hp2. replace (pid <? 0)%Z with false by lia. rewrite Hwait.
  pose proof (child_main_ok cw db 0 Ho Henv Hcw (calm_ready _ 0 db Hdb Hcalm Hst)) as Hmain.
  apply returns_iff in Hmain as ([status file] & -> & -> & dc & ks & cmds & -> & Hcd & _ & Hks & Hsn).
  eapply (returns_bind _ _ (λ r, r = (cp_reopen c, fsync (mkDisk (log_bytes (cmds ++ xs.*2)) (durable dc))))).
  - unfold finish_rewrite. rewrite Hpo. run_with append_buffer_ok; [done|]. intros d' ->. rewrite Hpr. apply returns_ok.
    rewrite Hcd, Hb2, log_bytes_app. done.
  - intros [fd d'] [= -> ->]. apply returns_ok. split; [unfold isEnabled; cbn; lia|]. do 3 (split; [done|]).
    exists cmds. split; [done|]. split.
    + apply Hsn. intros k x Hk. by destruct (Hcalm k x Hk).
    + rewrite (snapshot_all _ _ _ _ _ Hks Hsn). by rewrite live_calm.
Qed.

Lemma empty_good : good_store Database.empty ∅.
Proof.
  destruct (Database.empty_ok Database.linux64) as (Hwf & Hv & _). split; [|split].
  - split; [done|]. rewrite Hv. apply map_Forall_empty.
  - apply empty_calm.
  - rewrite Hv. apply fmap_empty.
Qed.

(** Loading a log of such commands into an empty database. *)
Lemma load_applies calls es fd now cmds tail :
  reads_ok calls → got calls = log_bytes cmds ++ tail → RespParser.fits_int (got calls) → cut_short tail →
  (∀ j, env_ok (es j)) → roomy es → Forall logged cmds →
  load (with_table CommandTable.core_table es) (Opened (length (got calls))) calls (Some fd) now Database.empty ⇓ λ '(n, db'),
    n = Z.of_nat (length cmds) ∧ good_store db' (run_all cmds ∅).
Proof.
  intros Hr Hg Hfit Hcut He Hroom Hall. rewrite (load_ok _ _ _ _ _ cmds tail); [|by apply with_table_ample|done..|].
  - run_with exec_all_applies; [done|apply empty_good|apply Buffer.empty_represents|done|by intros db' Hdb'].
  - eapply Forall_impl; [exact Hall|]. by intros [|? ?] [? _].
Qed.

(** ** Properties *)

(** The snapshot of a background rewrite is the data.  When its writes
    succeed, the child writes a file of commands that rebuild, in the reference
    interpreter, exactly the keys that are alive, with their values: strings in
    either encoding, lists in order, hashes, sets and sorted sets with every score;
    each key with a deadline is followed by a PEXPIRE with the time left. *)
Theorem rewrite_snapshot (w : ChildWorld) (db : DB) (now : Z) :
  ch_open w = true → env_ok (ch_env w) → all_taken (ch_writes w) → snapshot_ready (ch_env w) now db →
  child_main w db ⇓ λ '(status, file), status = 0%Z ∧ ∃ d cmds,
    file = Some d ∧ contents d = log_bytes cmds ∧ durable d = length (contents d) ∧
    run_all cmds ∅ = store_of (Database.live now (Database.view db)) ∧
    ∀ k o dl, Database.live now (Database.view db) !! k = Some (o, dl) → (0 ≤ dl)%Z →
      ∃ j, pexpire k (dl - clk (ch_env w) j) ∈ cmds.
Proof.
  intros Ho He Hw Hr. eapply returns_mono; [by apply child_main_ok|].
  intros [status file] (-> & d & ks & cmds & -> & Hd & Hdur & Hks & Hsn). split; [done|]. exists d, cmds.
  split; [done|]. split; [done|]. split; [done|]. split; [by eapply snapshot_all|].
  intros k o dl Hk Hdl. eapply (sn_deadlines _ _ _ _ _ Hsn); [|exact Hk|done]. apply Hks.
  apply map_lookup_filter_Some in Hk as [Hk _]. eauto.
Qed.

(** C7: nothing is lost by a background rewrite of data without deadlines.  While
    the child writes its snapshot, in which a sorted set has fewer than 2^31 members,
    the server goes on executing and logging commands other than EXPIRE, PEXPIRE and a
    ZADD of NaN.  When the kernel takes every write of both processes and the rewrite
    completes, the log has been replaced, is durable and is open for writing, and a
    restart from it, with any clock, random numbers and traversal orders, gives
    exactly the store of the server that kept running. *)
Theorem rewrite_keeps_data (pid : Z) (w : AOFWriter) (d : Disk) (db : DB) (c0 : Connection)
    (xs : list (list write_call * list bytes)) (c : Completion) (cw : ChildWorld) (es es' : nat → Env) :
  loaded_ok db → calm (Database.view db) → map_Forall (λ _ x, sized x.1) (Database.view db) → out_ok c0 →
  isEnabled w = true → isRewriting_ w = false → (0 < pid)%Z → completes c cw → taken xs → Forall logged xs.*2 →
  (∀ j, env_ok (es j)) → (∀ j, env_ok (es' j)) → roomy es' →
  exec_all (with_table CommandTable.core_table es) 0 db c0 xs.*2 ⇓ λ running,
  rewrite_run pid w d db xs c ⇓ λ '(w', d', ch),
    isEnabled w' = true ∧ isRewriting_ w' = false ∧ ch = None ∧ durable d' = length (contents d') ∧
    ∀ calls fd now, reads_ok calls → got calls = contents d' → RespParser.fits_int (contents d') →
      load (with_table CommandTable.core_table es') (Opened (length (got calls))) calls (Some fd) now Database.empty
        ⇓ λ '(_, restarted), store_of (Database.view restarted) = store_of (Database.view running).
Proof.
  intros Hdb Hcalm Hst Hc0 He Hr Hpid Hc Hxs Hlog Hes Hes' Hroom.
  eapply returns_mono; [by apply (exec_all_applies es 0 db c0 xs.*2 (store_of (Database.view db)))|].
  intros running (_ & _ & Hrun). eapply returns_mono; [by eapply rewrite_log|].
  intros [[w' d'] ch] (Hw' & Hr' & Hch & Hdur & cmds & Hd' & Hcmds & Hsnap). do 4 (split; [done|]).
  intros calls fd now Hreads Hg Hfit.
  eapply returns_mono; [apply (load_applies calls es' fd now (cmds ++ xs.*2) []); try done|].
  - by rewrite Hg, Hd', app_nil_r.
  - by rewrite Hg.
  - by left.
  - by apply Forall_app.
  - intros [n restarted] (_ & _ & _ & ->). by rewrite run_all_app, Hsnap, Hrun.
Qed.

(** C12: a crash costs at most a suffix of the session.  After a session from an
    empty database, of write commands other than EXPIRE, PEXPIRE and a ZADD of NaN,
    each of which the kernel took in full, the file may be cut anywhere behind its
    durable part; a restart then gives exactly the store the server had after some number [j] of
    the commands, and [j] is all of them under the policy ALWAYS. *)
Theorem crash_restores_store (w w' : AOFWriter) (d' : Disk) (xs : list (list write_call * list bytes)) (n : nat)
    (calls : list read_call) (es es' : nat → Env) (c0 : Connection) (fd now : Z) :
  isEnabled w = true → taken xs → Forall logged xs.*2 → log_all w (mkDisk [] 0) xs = Ok (w', d') →
  RespParser.fits_int (contents d') → durable d' ≤ n → reads_ok calls → got calls = take n (contents d') →
  (∀ j, env_ok (es j)) → (∀ j, env_ok (es' j)) → roomy es' → out_ok c0 →
  ∃ j, j ≤ length xs ∧ (policy_ w = ALWAYS → j = length xs) ∧
    exec_all (with_table CommandTable.core_table es) 0 Database.empty c0 (take j xs.*2) ⇓ λ running,
    load (with_table CommandTable.core_table es') (Opened (length (got calls))) calls (Some fd) now Database.empty
      ⇓ λ '(r, restarted), r = Z.of_nat j ∧ store_of (Database.view restarted) = store_of (Database.view running).
Proof.
  intros He Hxs Hlog Hall Hfit Hdur Hreads Hg Hes Hes' Hroom Hc0.
  pose proof (log_all_ok w (mkDisk [] 0) xs He Hxs) as Hl. rewrite Hall in Hl. destruct Hl as [Hcont Halways].
  cbn in Hcont. rewrite Hcont in Hg, Hfit. destruct (cut_log xs.*2 n Hfit) as (j & tail & Hj & Htk & Hcut & Hlast).
  rewrite length_fmap in Hj, Hlast. exists j. split; [done|]. split.
  - intros Ha. destruct Hlast as [|Hn]; [done|]. specialize (Halways Ha eq_refl). rewrite Hcont in Halways.
    rewrite <- (take_drop (S j) xs.*2), log_bytes_app, length_app in Halways. lia.
  - assert (Hlog' : Forall logged (take j xs.*2)) by by apply Forall_take.
    eapply returns_mono; [apply (exec_all_applies es 0 Database.empty c0 _ ∅); [done| |done|done]|].
    { apply empty_good. }
    intros running (_ & _ & Hrun). rewrite Htk in Hg.
    eapply returns_mono; [apply (load_applies calls es' fd now (take j xs.*2) tail); try done|].
    + rewrite Hg, <- Htk. unfold RespParser.fits_int in *. rewrite length_take. lia.
    + intros [r restarted] (-> & _ & _ & ->). rewrite Hrun. split; [|done].
      rewrite length_take, length_fmap. lia.
Qed.

(** ** Witnesses *)

Definition one_key : DB :=
  match Database.set Database.linux64 Database.empty (lit "a") (lit "1") with Ok db => db | Fault _ => Database.empty end.

Lemma one_key_ok :
  loaded_ok one_key ∧ calm (Database.view one_key) ∧ map_Forall (λ _ x, sized x.1) (Database.view one_key).
Proof.
  destruct (Database.empty_ok Database.linux64) as (Hwf & Hv & _).
  pose proof (Database.set_ok Database.linux64 Database.empty (lit "a") (lit "1") Hwf) as Hset.
  unfold one_key. destruct (Database.set _ _ _ _) as [db|]; [|destruct Hset]. destruct Hset as [[Hwf' Hv'] _].
  rewrite Hv', Hv. unfold loaded_ok. rewrite Hv', Hv, !insert_empty.
  replace (createString (lit "1")) with (mkObject STRING INTEGER (DInteger 1)) by (by vm_compute).
  split; [split; [done|]|split]; apply map_Forall_singleton; [|by split|done]. split; [|done]. by cbv.
Qed.

Definition willing (n : nat) (buf : bytes) : list write_call := [CWrote (length buf)].

Lemma willing_taken : all_taken willing.
Proof. intros n buf. unfold willing. destruct (length buf) as [|k]; [done|]. cbn. by rewrite Nat.sub_diag. Qed.

Definition child_world : ChildWorld := mkChildWorld true ListCommands.plain_env willing.

Definition completion : Completion := mkCompletion (Ended child_world) true willing true 6.

Lemma rewrite_snapshot_witness :
  child_main child_world one_key ⇓ λ '(status, file), status = 0%Z ∧ ∃ d cmds,
    file = Some d ∧ contents d = log_bytes cmds ∧ durable d = length (contents d) ∧
    run_all cmds ∅ = store_of (Database.live 0 (Database.view one_key)) ∧
    ∀ k o dl, Database.live 0 (Database.view one_key) !! k = Some (o, dl) → (0 ≤ dl)%Z →
      ∃ j, pexpire k (dl - clk (ch_env child_world) j) ∈ cmds.
Proof.
  apply (rewrite_snapshot child_world one_key 0); [reflexivity|exact AOFProperties.plain_env_ok|exact willing_taken|].
  destruct one_key_ok as (H1 & H2 & H3). by apply calm_ready.
Defined.

Lemma session_logged : Forall logged AOFProperties.session.*2.
Proof. repeat constructor; intros Hn; vm_compute in Hn; discriminate Hn. Qed.

Lemma rewrite_keeps_data_witness :
  exec_all (with_table CommandTable.core_table (λ _, ListCommands.plain_env)) 0 one_key (Connection.create 7 0)
    AOFProperties.session.*2 ⇓ λ running,
  rewrite_run 42 (create 5 EVERYSEC 0) (mkDisk [] 0) one_key AOFProperties.session completion ⇓ λ '(w', d', ch),
    isEnabled w' = true ∧ isRewriting_ w' = false ∧ ch = None ∧ durable d' = length (contents d') ∧
    ∀ calls fd now, reads_ok calls → got calls = contents d' → RespParser.fits_int (contents d') →
      load (with_table CommandTable.core_table (λ _, ListCommands.plain_env)) (Opened (length (got calls))) calls (Some fd) now
        Database.empty
        ⇓ λ '(_, restarted), store_of (Database.view restarted) = store_of (Database.view running).
Proof.
  apply (rewrite_keeps_data 42 (create 5 EVERYSEC 0) (mkDisk [] 0) one_key (Connection.create 7 0)
    AOFProperties.session completion child_world (λ _, ListCommands.plain_env) (λ _, ListCommands.plain_env)).
  - apply one_key_ok.
  - apply one_key_ok.
  - apply one_key_ok.
  - exact (proj1 Buffer.empty_represents).
  - reflexivity.
  - reflexivity.
  - lia.
  - split; [reflexivity| |].
    + split; [reflexivity|]. split; [exact AOFProperties.plain_env_ok|exact willing_taken].
    + split; [reflexivity|]. split; [exact willing_taken|]. split; [reflexivity|]. discriminate.
  - repeat constructor.
  - exact session_logged.
  - intros _. exact AOFProperties.plain_env_ok.
  - intros _. exact AOFProperties.plain_env_ok.
  - done.
Defined.

(** The session cut in the middle of its second command. *)
Definition cut_file : bytes := take 40 (log_bytes AOFProperties.session.*2).

Lemma crash_restores_store_witness :
  ∃ j, j ≤ 2 ∧ (EVERYSEC = ALWAYS → j = 2) ∧
    exec_all (with_table CommandTable.core_table (λ _, ListCommands.plain_env)) 0 Database.empty (Connection.create 7 0)
      (take j AOFProperties.session.*2) ⇓ λ running,
    load (with_table CommandTable.core_table (λ _, ListCommands.plain_env)) (Opened (length (got [CGot cut_file])))
       [CGot cut_file] (Some 9%Z) 0 Database.empty
      ⇓ λ '(r, restarted), r = Z.of_nat j ∧ store_of (Database.view restarted) = store_of (Database.view running).
Proof.
  apply (crash_restores_store (create 5 EVERYSEC 0) (create 5 EVERYSEC 0) (mkDisk (log_bytes AOFProperties.session.*2) 0)
    AOFProperties.session 40 [CGot cut_file] (λ _, ListCommands.plain_env) (λ _, ListCommands.plain_env)
    (Connection.create 7 0) 9 0).
  - reflexivity.
  - repeat constructor.
  - exact session_logged.
  - vm_compute. reflexivity.
  - vm_compute. discriminate.
  - cbn [durable]. lia.
  - repeat constructor.
  - vm_compute. reflexivity.
  - intros _. exact AOFProperties.plain_env_ok.
  - intros _. exact AOFProperties.plain_env_ok.
  - done.
  - exact (proj1 Buffer.empty_represents).
Defined.

End Recovery.
