(* ===== verification/PersistTorn.v ===== *)
(** * What follows a torn command

    After a crash the file may end inside a command ([cut_short] of [PersistAOF]).
    [AOFLoader::load] ignores that piece but leaves it in the file, and
    [AOFWriter] opens the file with [O_APPEND]: what is logged from then on
    stands behind the piece.  Here: what the next start makes of it. *)
From Stdlib Require Import Ascii String ZArith Lia ZifyNat ZifyBool.
From stdpp Require Import base option list strings gmap.
From S2P Require Import Prelude CStdlib NetBuffer ProtoSerializer ProtoParser NetConnection StoreObject StoreInterfaces.
From S2P Require Import StoreDatabase CmdBase CmdList CmdTable CmdStore PersistAOF PersistRewrite PersistRecovery.

Module Torn.
Import Store AOFWriter AOFLoader Recovery.

(** The bytes before the last argument, of length [n]. *)
Definition before_last (init : list bytes) (n : nat) : bytes :=
  enc_header (Z.of_nat (S (length init))) ++ enc_bulks init ++ enc_line "$" (to_string (Z.of_nat n)).

Lemma enc_command_last init v : enc_command (init ++ [v]) = before_last init (length v) ++ v ++ crlf.
Proof.
  unfold enc_command, before_last, enc_bulks, enc_bulk. rewrite fmap_app, join_app, length_app. cbn [fmap list_fmap mjoin list_join].
  rewrite app_nil_r, Nat.add_1_r, <- !app_assoc. done.
Qed.

(** [torn] is what a crash has left of the command with the arguments [init] and a
    last one, of which [seen] was written and [missing] was not. *)
Definition torn_inside (init : list bytes) (seen missing torn : bytes) : Prop :=
  enc_command (init ++ [seen ++ missing]) = torn ++ missing ++ crlf.

(** Bytes that come behind it, no more than are missing, are read as the rest of
    the argument. *)
Lemma torn_command init seen missing torn more :
  torn_inside init seen missing torn → length more ≤ length missing →
  enc_command (init ++ [seen ++ more ++ drop (length more) missing]) = (torn ++ more) ++ drop (length more) missing ++ crlf.
Proof.
  unfold torn_inside. intros Ht Hlen. rewrite enc_command_last in *. rewrite <- app_assoc in Ht.
  assert (Htorn : torn = before_last init (length (seen ++ missing)) ++ seen).
  { apply (app_inv_tail (missing ++ crlf)). by rewrite <- Ht, <- !app_assoc. }
  rewrite Htorn, <- !app_assoc. f_equal. f_equal. rewrite !length_app, length_drop. lia.
Qed.

Lemma torn_cut_short init seen missing torn more :
  torn_inside init seen missing torn → length more ≤ length missing →
  RespParser.fits_int (enc_command (init ++ [seen ++ missing])) → cut_short (torn ++ more).
Proof.
  intros Ht Hlen Hfit. pose proof (torn_command _ _ _ _ more Ht Hlen) as Hm. right. eexists _, _. split; [exact Hm|]. split.
  - by intros [_ ?]%app_eq_nil.
  - rewrite Hm. unfold RespParser.fits_int in *. unfold torn_inside in Ht. rewrite Ht in Hfit. rewrite !length_app, length_drop in *. lia.
Qed.

(** ** Property *)

(** C25: a crash in the middle of a command endangers what is logged after it.  The
    file ends in a command that is cut inside its last argument.  The server
    starts with the commands before it, as documented; it then executes the
    commands [xs] and logs them without an error, under the policy ALWAYS with
    every byte on stable storage.  If they are not longer than what is missing of
    the torn argument, the next start reads them as a part of it: not one of them
    is replayed, and the data is that before [xs]. *)
Theorem torn_log_swallows_writes (w w' : AOFWriter) (d d' : Disk) (cmds : list (list bytes)) (init : list bytes)
    (seen missing torn : bytes) (xs : list (list write_call * list bytes)) (calls calls' : list read_call)
    (es es1 es2 : nat → Env) (c0 : Connection.Connection) (fd now : Z) :
  contents d = log_bytes cmds ++ torn → torn_inside init seen missing torn →
  RespParser.fits_int (log_bytes cmds ++ enc_command (init ++ [seen ++ missing])) →
  isEnabled w = true → taken xs → Forall logged cmds → Forall logged xs.*2 →
  length (log_bytes xs.*2) ≤ length missing → log_all w d xs = Ok (w', d') →
  reads_ok calls → got calls = contents d → reads_ok calls' → got calls' = contents d' →
  (∀ j, env_ok (es j)) → (∀ j, env_ok (es1 j)) → (∀ j, env_ok (es2 j)) → roomy es → roomy es2 → out_ok c0 →
  load (with_table CommandTable.core_table es) (Opened (length (got calls))) calls (Some fd) now Database.empty ⇓ λ '(n, db1),
    n = Z.of_nat (length cmds) ∧
    exec_all (with_table CommandTable.core_table es1) 0 db1 c0 xs.*2 ⇓ λ running,
      store_of (Database.view running) = run_all xs.*2 (store_of (Database.view db1)) ∧
      (policy_ w = ALWAYS → durable d = length (contents d) → durable d' = length (contents d')) ∧
      load (with_table CommandTable.core_table es2) (Opened (length (got calls'))) calls' (Some fd) now Database.empty ⇓ λ '(n', db2),
        n' = n ∧ store_of (Database.view db2) = store_of (Database.view db1).
Proof.
  intros Hd Ht Hfit He Hxs Hcmds Hlog Hlen Hall Hr Hg Hr' Hg' Hes Hes1 Hes2 Hroom Hroom2 Hc0.
  pose proof (log_all_ok w d xs He Hxs) as Hl. rewrite Hall in Hl. destruct Hl as [Hcont Halways].
  assert (Hfits : ∀ more, length more ≤ length missing → RespParser.fits_int (log_bytes cmds ++ torn ++ more)).
  { intros more Hm. unfold RespParser.fits_int in *. unfold torn_inside in Ht. rewrite Ht in Hfit. rewrite !length_app in *. lia. }
  assert (Hcut : ∀ more, length more ≤ length missing → cut_short (torn ++ more)).
  { intros more Hm. apply (torn_cut_short init seen missing torn more Ht Hm).
    unfold RespParser.fits_int in *. rewrite length_app in Hfit. lia. }
  eapply returns_mono; [apply (load_applies calls es fd now cmds torn); try done|].
  { by rewrite Hg. }
  { rewrite Hg, Hd, <- (app_nil_r torn). apply Hfits. simpl. lia. }
  { rewrite <- (app_nil_r torn). apply Hcut. simpl. lia. }
  intros [n db1] (-> & Hgood). split; [done|]. pose proof (proj2 (proj2 Hgood)) as Hst1.
  eapply returns_mono; [by apply (exec_all_applies es1 0 db1 c0 xs.*2 (run_all cmds ∅))|].
  intros running (_ & _ & Hrun). rewrite Hst1. split; [done|]. split; [done|].
  eapply returns_mono; [apply (load_applies calls' es2 fd now cmds (torn ++ log_bytes xs.*2)); try done|].
  { by rewrite Hg', Hcont, Hd, <- app_assoc. }
  { rewrite Hg', Hcont, Hd, <- app_assoc. by apply Hfits. }
  { by apply Hcut. }
  by intros [n' db2] (-> & _ & _ & ->).
Qed.

(** ** Witness *)

(** A SET of 40 bytes, of which 5 were written before the crash. *)
Definition half : bytes := lit "01234".
Definition lost_half : bytes := replicate 35 "x"%char.
Definition torn_set : bytes := take 33 (enc_command [lit "SET"; lit "long"; half ++ lost_half]).

Definition torn_cmds : list (list bytes) := take 1 AOFProperties.session.*2.

Definition torn_disk : Disk := fsync (mkDisk (log_bytes torn_cmds ++ torn_set) 0).

Definition new_set : list bytes := [lit "SET"; lit "k"; lit "v"].
Definition new_write : list (list write_call * list bytes) := [([CWrote (length (enc_command new_set))], new_set)].
Definition new_disk : Disk := fsync (mkDisk (contents torn_disk ++ enc_command new_set) 0).
Definition always : AOFWriter := create 5 ALWAYS 0.

Lemma torn_log_swallows_writes_witness :
  load (with_table CommandTable.core_table (λ _, ListCommands.plain_env)) (Opened (length (got [CGot (contents torn_disk)])))
       [CGot (contents torn_disk)] (Some 9%Z) 0 Database.empty ⇓ λ '(n, db1),
    n = Z.of_nat (length torn_cmds) ∧
    exec_all (with_table CommandTable.core_table (λ _, ListCommands.plain_env)) 0 db1 (Connection.create 7 0) new_write.*2 ⇓ λ running,
      store_of (Database.view running) = run_all new_write.*2 (store_of (Database.view db1)) ∧
      (policy_ always = ALWAYS → durable torn_disk = length (contents torn_disk) → durable new_disk = length (contents new_disk)) ∧
      load (with_table CommandTable.core_table (λ _, ListCommands.plain_env)) (Opened (length (got [CGot (contents new_disk)])))
       [CGot (contents new_disk)] (Some 9%Z) 0 Database.empty ⇓ λ '(n', db2),
        n' = n ∧ store_of (Database.view db2) = store_of (Database.view db1).
Proof.
  apply (torn_log_swallows_writes always always torn_disk new_disk torn_cmds
    [lit "SET"; lit "long"] half lost_half torn_set new_write [CGot (contents torn_disk)] [CGot (contents new_disk)]
    (λ _, ListCommands.plain_env) (λ _, ListCommands.plain_env) (λ _, ListCommands.plain_env) (Connection.create 7 0) 9 0).
  - reflexivity.
  - vm_compute. reflexivity.
  - unfold RespParser.fits_int. vm_compute. discriminate.
  - reflexivity.
  - repeat constructor.
  - apply Forall_take, session_logged.
  - apply Forall_cons. split; [apply (known_logged _ _ _ known_set); plainly|constructor].
  - vm_compute. lia.
  - vm_compute. reflexivity.
  - repeat constructor.
  - apply app_nil_r.
  - repeat constructor.
  - apply app_nil_r.
  - intros j. exact AOFProperties.plain_env_ok.
  - intros j. exact AOFProperties.plain_env_ok.
  - intros j. exact AOFProperties.plain_env_ok.
  - done.
  - done.
  - exact (proj1 Buffer.empty_represents).
Defined.

End Torn.
