(* ===== verification/PersistDeadlines.v ===== *)
(** * Deadlines across a restart

    The log holds EXPIRE and PEXPIRE as the client sent them, relative to the time
    of their execution, and nothing when a key expires.  Replaying it is running
    the interpreter of [CmdTimed] with later clocks.  [restart_keeps_deadlines]:
    as long as no key expires during the session, a restart gives the same keys
    and values, with every deadline moved by the time between the session and
    the replay.  [expired_write_lost]: when a key does expire, writes made to it
    afterwards can be lost. *)
From Stdlib Require Import Ascii String ZArith Lia ZifyNat ZifyBool.
From stdpp Require Import base option list strings gmap.
From S2P Require Import Prelude CStdlib NetBuffer ProtoSerializer ProtoParser NetConnection StoreObject StoreInterfaces.
From S2P Require Import StoreDatabase CmdBase CmdKey CmdList CmdTable CmdStore CmdTimed PersistAOF PersistRewrite.
From S2P Require Import PersistRecovery.
Import RedisObject Connection.

Module Deadlines.
Import Store Timed AOFWriter AOFLoader Recovery.

(** ** Replay with deadlines *)

(** The interpreter on a list of commands, the [i]-th one at the time [t i]. *)
Fixpoint run_timed (t : nat → Z) (i : nat) (cmds : list (list bytes)) (st : tstore) : tstore :=
  match cmds with
  | [] => st
  | args :: cmds' => run_timed t (i + 1) cmds' (apply_timed (t i) args st)
  end.

(** Write commands with scores that are numbers. *)
Definition timely (args : list bytes) : Prop :=
  match args with [] => False | arg0 :: _ => CommandTable.isWriteCommand CommandTable.core_table arg0 = true end ∧
  numeric args.

Lemma timely_replayable args : timely args → replayable args.
Proof.
  intros [Hw _]. destruct args as [|arg0 rest]; [done|]. by apply write_indices.
Qed.

(** One reading of the clock per command. *)
Definition still (e : Env) : Prop := ∀ j, clk e j = clk e 0.

Lemma still_unhurried e m : still e → unhurried e (clk e 0) m.
Proof. intros He j k x _. by rewrite He. Qed.

Definition start_of (es : nat → Env) (i : nat) : Z := clk (es i) 0.

Record clocks (es : nat → Env) : Prop := {
  ck_env i : env_ok (es i);
  ck_still i : still (es i);
  ck_mono i : (start_of es i ≤ start_of es (i + 1))%Z
}.

(** A database that is, from [now] on, the store [st]. *)
Definition good_from (now : Z) (db : DB) (st : tstore) : Prop :=
  loaded_ok db ∧ sets_good (Database.view db) ∧ same_from now (timed (Database.view db)) st.

#[local] Opaque CommandTable.core_table.

Lemma exec_all_timed es i db c cmds st :
  clocks es → good_from (start_of es i) db st → out_ok c → Forall timely cmds →
  exec_all (with_table CommandTable.core_table es) i db c cmds ⇓ λ db',
    good_from (start_of es (i + length cmds)) db' (run_timed (start_of es) i cmds st).
Proof.
  intros Hck Hdb Hc Hall. revert i db c st Hdb Hc.
  induction Hall as [|args cmds Ha _ IH]; intros i db c st [[Hwf Hks] [Hsets Hst]] Hc; cbn [exec_all rp_run with_table run_timed].
  { rewrite Nat.add_0_r. done. }
  pose proof (timely_replayable _ Ha) as Hrep. destruct args as [|a0 rest]; [by destruct Ha|].
  eapply returns_bind.
  { apply (returns_and (X := conversion)).
    - apply CommandTable.dispatch_serves;
        [apply CommandTable.core_table_ok|apply (ck_env es Hck)|exact Hwf|exact Hks|exact Hc|exact Hrep].
    - apply dispatch_timed; [apply (ck_env es Hck)|apply still_unhurried, (ck_still es Hck)|exact Hwf|exact Hks
        |exact Hsets|exact Hc|apply Ha|discriminate]. }
  intros [db' c1] [(Hwf' & Hks' & [r (Hout & _)] & _) [Hst' Hsets']].
  run_with (Buffer.consume_ok _ (Buffer.readable (out_ c1))); [by split|by rewrite Buffer.length_readable|].
  intros out' [Hw _]. cbn [length]. replace (i + S (length cmds)) with ((i + 1) + length cmds) by lia.
  apply IH; [|done]. split; [by split|]. split; [done|]. apply (same_from_later (start_of es i)); [apply Hck|].
  unfold same_from, start_of. rewrite Hst', alive_apply. by apply apply_timed_proper.
Qed.

Lemma empty_from now : good_from now Database.empty ∅.
Proof.
  destruct empty_good as (Hl & Hc & _). split; [done|]. split; [by apply calm_sets|].
  rewrite (proj1 (proj2 (Database.empty_ok Database.linux64))). unfold timed. by rewrite fmap_empty.
Qed.

Lemma load_timed calls es fd now cmds tail :
  reads_ok calls → got calls = log_bytes cmds ++ tail → RespParser.fits_int (got calls) → cut_short tail →
  clocks es → roomy es → Forall timely cmds →
  load (with_table CommandTable.core_table es) (Opened (length (got calls))) calls (Some fd) now Database.empty ⇓ λ '(n, db'),
    n = Z.of_nat (length cmds) ∧ good_from (start_of es (length cmds)) db' (run_timed (start_of es) 0 cmds ∅).
Proof.
  intros Hr Hg Hfit Hcut He Hroom Hall. rewrite (load_ok _ _ _ _ _ cmds tail); [|by apply with_table_ample|done..|].
  - run_with exec_all_timed; [done|apply empty_from|apply Buffer.empty_represents|done|by intros db' Hdb'].
  - eapply Forall_impl; [exact Hall|]. by intros [|? ?] [? _].
Qed.

(** ** The session and its replay *)

(** An entry at [now] and its copy at [now']: both alive, with the same value, and the
    copy's deadline later by what the clocks are apart or more, and by no more
    than [most]. *)
Inductive moved (now now' most : Z) : option (value * Z) → option (value * Z) → Prop :=
| moved_none : moved now now' most None None
| moved_forever v : moved now now' most (Some (v, (-1)%Z)) (Some (v, (-1)%Z))
| moved_deadline v d d' :
    (0 ≤ d)%Z → (now < d)%Z → (d + (now' - now) ≤ d' ≤ d + most)%Z → moved now now' most (Some (v, d)) (Some (v, d')).

Definition outlives (now now' most : Z) (st st' : tstore) : Prop := ∀ k, moved now now' most (st !! k) (st' !! k).

Section replay.
Context (now now' most : Z) (Hnow : (now ≤ now' ≤ now + most)%Z).

Lemma outlives_alive st st' : outlives now now' most st st' → alive now st = st ∧ alive now' st' = st'.
Proof.
  intros H. split; apply map_eq; intros k; rewrite alive_lookup; destruct (H k) as [|v|v d d' Hd Hlt Hle];
    try done; unfold Database.expired; by replace (_ && _) with false by lia.
Qed.

Lemma outlives_empty : outlives now now' most ∅ ∅.
Proof. intros k. rewrite !lookup_empty. constructor. Qed.

Lemma outlives_insert k x x' st st' :
  moved now now' most (Some x) (Some x') → outlives now now' most st st' →
  outlives now now' most (<[k := x]> st) (<[k := x']> st').
Proof.
  intros Hx H j. destruct (decide (j = k)) as [->|Hne]; [by rewrite !lookup_insert_eq|by rewrite !lookup_insert_ne].
Qed.

Lemma outlives_delete k st st' : outlives now now' most st st' → outlives now now' most (delete k st) (delete k st').
Proof.
  intros H j. destruct (decide (j = k)) as [->|Hne]; [rewrite !lookup_delete_eq; constructor|by rewrite !lookup_delete_ne].
Qed.

Lemma outlives_del (ks : list bytes) st st' :
  outlives now now' most st st' → outlives now now' most (filter (λ kv, kv.1 ∉ ks) st) (filter (λ kv, kv.1 ∉ ks) st').
Proof.
  intros H k. rewrite !map_lookup_filter. destruct (H k); cbn; [constructor|case_guard; by constructor..].
Qed.

Lemma outlives_change k f st st' :
  outlives now now' most st st' → outlives now now' most (change_timed k f st) (change_timed k f st').
Proof.
  intros H. unfold change_timed. pose proof (H k) as Hk.
  assert (Hv : fst <$> st !! k = fst <$> st' !! k) by by destruct Hk. rewrite Hv.
  destruct (f _) as [[v|]|]; [|by apply outlives_delete|done]. apply outlives_insert; [|done].
  destruct Hk; cbn; by constructor.
Qed.

(** A deadline that is not in the future removes the key in both. *)
Lemma outlives_deadline k ms st st' :
  (0 ≤ now + ms)%Z → (now' + ms < 2 ^ 63)%Z → outlives now now' most st st' →
  outlives now now' most (alive now (set_deadline k (wrap_s64 (now + ms)) st))
    (alive now' (set_deadline k (wrap_s64 (now' + ms)) st')).
Proof.
  intros Hlo Hhi H. rewrite !wrap_s64_id by (unfold in_s64; lia). destruct (outlives_alive st st' H) as [Ha Ha'].
  unfold set_deadline. pose proof (H k) as Hk. inversion Hk as [Hn Hn'|v Hn Hn'|v d d' Hd Hlt Hle Hn Hn']; subst;
    [by rewrite Ha, Ha'|..]; intros j; rewrite !alive_lookup; (destruct (decide (j = k)) as [->|Hne];
      [rewrite !lookup_insert_eq|rewrite !lookup_insert_ne, <- !alive_lookup, Ha, Ha' by done; apply H]);
    (destruct (decide (0 < ms)%Z); unfold Database.expired;
      [replace (_ && _) with false by lia; replace (_ && _) with false by lia; constructor; lia
      |replace (_ && _) with true by lia; replace (_ && _) with true by lia; constructor]).
Qed.

(** The deadlines of the session are not before the epoch, those of the replay not
    beyond 64 bits. *)
Definition fits (args : list bytes) : Prop :=
  match args with
  | [] => True
  | arg0 :: _ => ∀ ms, span (to_upper arg0) args = Some ms → (0 ≤ now + ms ∧ now' + ms < 2 ^ 63)%Z
  end.

Lemma outlives_apply args st st' :
  outlives now now' most st st' → fits args → outlives now now' most (apply_timed now args st) (apply_timed now' args st').
Proof.
  intros H Hf. unfold apply_timed. destruct (outlives_alive st st' H) as [-> ->].
  assert (Hsame : ∀ st1 st1', outlives now now' most st1 st1' → outlives now now' most (alive now st1) (alive now' st1')).
  { intros st1 st1' H1. by destruct (outlives_alive st1 st1' H1) as [-> ->]. }
  destruct args as [|arg0 rest]; [by apply Hsame|]. destruct (_ !! _) as [entry|]; [|by apply Hsame].
  destruct (CommandTable.arity_ok _ _); [|by apply Hsame]. unfold apply_timed_named. cbv zeta.
  case_bool_decide; [by apply Hsame, outlives_insert; [constructor|]|].
  case_bool_decide; [by apply Hsame, outlives_del|]. case_bool_decide; [apply Hsame, outlives_empty|].
  destruct (expires _); [|by apply Hsame, outlives_change].
  unfold fits in Hf. destruct (span _ _) as [ms|]; [|by apply Hsame]. destruct (Hf ms eq_refl). by apply outlives_deadline.
Qed.

End replay.

(** Time goes on, no faster for the replay, and nothing expires. *)
Lemma outlives_later now now' now2 now2' most st st' :
  (now ≤ now2)%Z → (now2' - now2 ≤ now' - now)%Z → alive now2 st = st →
  outlives now now' most st st' → outlives now2 now2' most st st'.
Proof.
  intros Hle Hsh Ha H k. pose proof (f_equal (lookup k) Ha) as Hk. rewrite alive_lookup in Hk. revert Hk.
  destruct (H k) as [|v|v d d' Hd Hlt Hle']; [constructor..|]. unfold Database.expired. intros Hk.
  destruct (_ && _) eqn:He; [done|]. constructor; lia.
Qed.

(** Nothing expires between a command and the next one, or the end. *)
Fixpoint on_time (t : nat → Z) (i : nat) (cmds : list (list bytes)) (st : tstore) : Prop :=
  match cmds with
  | [] => True
  | args :: cmds' =>
      alive (t (i + 1)) (apply_timed (t i) args st) = apply_timed (t i) args st ∧
      on_time t (i + 1) cmds' (apply_timed (t i) args st)
  end.

Fixpoint all_fit (t t' : nat → Z) (i : nat) (cmds : list (list bytes)) : Prop :=
  match cmds with
  | [] => True
  | args :: cmds' => fits (t i) (t' i) args ∧ all_fit t t' (i + 1) cmds'
  end.

(** The replay comes after the session and takes no longer between any two commands. *)
Record no_slower (t t' : nat → Z) : Prop := {
  ns_later (i : nat) : (t i ≤ t' i)%Z;
  ns_shift i : (t' (i + 1)%nat - t (i + 1)%nat ≤ t' i - t i)%Z
}.

Lemma run_timed_outlives t t' most cmds : ∀ i st st',
  (∀ i, (t i ≤ t (i + 1)%nat)%Z) → no_slower t t' → (t' i - t i ≤ most)%Z → on_time t i cmds st → all_fit t t' i cmds →
  outlives (t i) (t' i) most st st' →
  outlives (t (i + length cmds)) (t' (i + length cmds)) most (run_timed t i cmds st) (run_timed t' i cmds st').
Proof.
  intros i st st' Hm Hns. revert i st st'. induction cmds as [|args cmds IH]; intros i st st' Hmost Hon Hfit H.
  { by rewrite Nat.add_0_r. }
  cbn [length run_timed]. replace (i + S (length cmds)) with ((i + 1) + length cmds) by lia.
  destruct Hon as [Ha Hon], Hfit as [Hf Hfit]. pose proof (ns_shift _ _ Hns i). pose proof (ns_later _ _ Hns i).
  apply IH; [lia|done|done|]. eapply outlives_later; [apply Hm|exact (ns_shift _ _ Hns i)|done|].
  apply outlives_apply; [lia|done|done].
Qed.

(** ** A key that expires during the session *)

(** SET, PEXPIRE and RPUSH on one key; [ttl] is the numeral of the milliseconds. *)
Definition lost_cmds (k v ttl x : bytes) : list (list bytes) :=
  [[lit "SET"; k; v]; [lit "PEXPIRE"; k; ttl]; [lit "RPUSH"; k; x]].

Definition entry_of (k : bytes) (v : value) (d : Z) : tstore := {[k := (v, d)]}.

Lemma alive_entry now k v d : alive now (entry_of k v d) = if Database.expired now d then ∅ else entry_of k v d.
Proof.
  unfold entry_of. apply map_eq. intros j. rewrite alive_lookup. destruct (decide (j = k)) as [->|Hne].
  - rewrite lookup_singleton_eq. destruct (Database.expired now d); [by rewrite lookup_empty|by rewrite lookup_singleton_eq].
  - rewrite lookup_singleton_ne by done. destruct (Database.expired now d); by rewrite ?lookup_empty, ?lookup_singleton_ne.
Qed.

Lemma apply_timed_known now nm n rest st :
  known nm n → CommandTable.arity_ok n (nm :: rest) = true →
  apply_timed now (nm :: rest) st = alive now (apply_timed_named now nm (nm :: rest) (alive now st)).
Proof.
  intros [Hup Hn] Har. unfold apply_timed. rewrite Hup.
  destruct (CommandTable.core_table !! nm) as [x|]; [|done]. cbn in Hn. injection Hn as -> _. by rewrite Har.
Qed.

Section lost.
Context (k v ttl x : bytes) (ms : Z).
Context (Hms : KeyCommands.parseInteger ttl = Some ms).

Let s := VString (asString (createString v)).

(** The three commands, one by one. *)
Lemma lost_set now : apply_timed now [lit "SET"; k; v] ∅ = entry_of k s (-1).
Proof using Type.
  rewrite (apply_timed_known _ _ _ _ _ known_set) by done. change (alive now (entry_of k s (-1)) = entry_of k s (-1)).
  apply alive_entry.
Qed.

Lemma lost_pexpire now o :
  (0 ≤ now)%Z → (0 < ms)%Z → (now + ms < 2 ^ 63)%Z →
  apply_timed now [lit "PEXPIRE"; k; ttl] (entry_of k o (-1)) = entry_of k o (now + ms).
Proof using Hms.
  intros Hlo H0 Hhi. rewrite (apply_timed_known _ _ _ _ _ known_pexpire) by done. rewrite alive_entry.
  change (alive now (match KeyCommands.parseInteger ttl with
    | Some z => set_deadline k (wrap_s64 (now + z)) (entry_of k o (-1)) | None => entry_of k o (-1) end) =
    entry_of k o (now + ms)).
  rewrite Hms, wrap_s64_id by (unfold in_s64; lia). unfold set_deadline, entry_of.
  rewrite lookup_singleton_eq, insert_singleton_eq. fold (entry_of k o (now + ms)). rewrite alive_entry.
  unfold Database.expired. by replace (_ && _) with false by lia.
Qed.

Lemma lost_rpush now d :
  apply_timed now [lit "RPUSH"; k; x] (entry_of k s d) =
    if Database.expired now d then entry_of k (VList [x]) (-1) else entry_of k s d.
Proof using Type.
  rewrite (apply_timed_known _ _ _ _ _ known_rpush) by done. rewrite alive_entry.
  change (apply_timed_named now (lit "RPUSH") [lit "RPUSH"; k; x])
    with (change_timed k (update (lit "RPUSH") [lit "RPUSH"; k; x])). unfold change_timed.
  destruct (Database.expired now d) eqn:He.
  - rewrite lookup_empty. change (alive now (entry_of k (VList [x]) (-1)) = entry_of k (VList [x]) (-1)). apply alive_entry.
  - assert (Hk : entry_of k s d !! k = Some (s, d)) by apply lookup_singleton_eq. rewrite Hk.
    change (alive now (entry_of k s d) = entry_of k s d). by rewrite alive_entry, He.
Qed.
End lost.

Lemma lost_timely k v ttl x : Forall timely (lost_cmds k v ttl x).
Proof.
  assert (H : ∀ nm n rest, known nm n → (nm = lit "ZADD" → False) → timely (nm :: rest)).
  { intros nm n rest [Hup Hn] Hz. split.
    - unfold CommandTable.isWriteCommand. rewrite Hup. destruct (CommandTable.core_table !! nm) as [entry|]; [|done].
      cbn in Hn. by injection Hn.
    - unfold numeric, numeric_named. rewrite Hup. by intros ?%Hz. }
  constructor; [apply (H _ _ _ known_set); discriminate|]. constructor; [apply (H _ _ _ known_pexpire); discriminate|].
  constructor; [apply (H _ _ _ known_rpush); discriminate|constructor].
Qed.

(** ** Properties *)

(** C13: a restart keeps deadlines.  Suppose no key expires during a session from an
    empty database of write commands, EXPIRE and PEXPIRE included, with scores that are
    numbers and deadlines in the range of [int64_t], and the log is replayed
    later, in any other environment, where the time between two commands, each with
    one reading of the clock, is never longer than it was in the session (and the
    allocator grants what the log announces).  Then exactly the keys alive at the
    end of the session are alive after the
    restart, with their values; keys without a deadline stay without one, and
    every deadline is moved by at least the time between the ends and at most the
    time between the starts of session and replay. *)
Theorem restart_keeps_deadlines (es es' : nat → Env) (cmds : list (list bytes)) (c0 : Connection)
    (calls : list read_call) (fd now : Z) :
  clocks es → clocks es' → roomy es' → no_slower (start_of es) (start_of es') → Forall timely cmds →
  on_time (start_of es) 0 cmds ∅ → all_fit (start_of es) (start_of es') 0 cmds → out_ok c0 →
  reads_ok calls → got calls = log_bytes cmds → RespParser.fits_int (got calls) →
  exec_all (with_table CommandTable.core_table es) 0 Database.empty c0 cmds ⇓ λ running,
  load (with_table CommandTable.core_table es') (Opened (length (got calls))) calls (Some fd) now Database.empty ⇓ λ '(_, restarted),
    let t := start_of es (length cmds) in
    let t' := start_of es' (length cmds) in
    outlives t t' (start_of es' 0 - start_of es 0)
      (alive t (timed (Database.view running))) (alive t' (timed (Database.view restarted))).
Proof.
  intros Hes Hes' Hroom Hns Hall Hon Hfit Hc0 Hr Hg Hint.
  eapply returns_mono; [by apply (exec_all_timed es 0 _ c0 cmds ∅ Hes (empty_from _))|]. intros running (_ & _ & Hrun).
  eapply returns_mono; [apply (load_timed calls es' fd now cmds []); try done; [by rewrite app_nil_r|by left]|].
  intros [n restarted] (_ & _ & _ & Hre). cbv zeta.
  assert (Hout := run_timed_outlives (start_of es) (start_of es') (start_of es' 0 - start_of es 0) cmds 0 ∅ ∅
    (ck_mono es Hes) Hns (Z.le_refl _) Hon Hfit (outlives_empty _ _ _)). cbn [Nat.add] in Hout, Hrun.
  destruct (outlives_alive _ _ _ _ _ Hout) as [Ha Ha'].
  unfold same_from in Hrun, Hre. by rewrite Hrun, Hre, Ha, Ha'.
Qed.

(** C35: a write to a key that had expired is lost by a restart.  Take any key, any
    string, any element and a positive number of milliseconds: SET, PEXPIRE and,
    after these milliseconds have passed, RPUSH on the same key.  The server ends
    with a list of that element, without a deadline.  The log has no trace of the
    expiry, so a replay that is through before the deadline it sets finds the
    string, refuses the RPUSH, and ends with the string and a new deadline. *)
Theorem expired_write_lost (es es' : nat → Env) (k v ttl x : bytes) (ms : Z) (c0 : Connection)
    (calls : list read_call) (fd now : Z) :
  clocks es → clocks es' → roomy es' → out_ok c0 → reads_ok calls →
  got calls = log_bytes (lost_cmds k v ttl x) → RespParser.fits_int (got calls) →
  KeyCommands.parseInteger ttl = Some ms → (0 < ms)%Z →
  (0 ≤ start_of es 1)%Z → (start_of es 1 + ms ≤ start_of es 2 < 2 ^ 63)%Z →
  (0 ≤ start_of es' 1)%Z → (start_of es' 3 < start_of es' 1 + ms < 2 ^ 63)%Z →
  exec_all (with_table CommandTable.core_table es) 0 Database.empty c0 (lost_cmds k v ttl x) ⇓ λ running,
  load (with_table CommandTable.core_table es') (Opened (length (got calls))) calls (Some fd) now Database.empty ⇓ λ '(_, restarted),
    alive (start_of es 3) (timed (Database.view running)) = {[k := (VList [x], (-1)%Z)]} ∧
    alive (start_of es' 3) (timed (Database.view restarted)) =
      {[k := (VString (asString (createString v)), (start_of es' 1 + ms)%Z)]}.
Proof.
  intros Hes Hes' Hroom Hc0 Hr Hg Hfit Hms H0 Hlo Ht Hlo' Ht'.
  eapply returns_mono; [by apply (exec_all_timed es 0 _ c0 _ ∅ Hes (empty_from _) Hc0 (lost_timely k v ttl x))|].
  intros running (_ & _ & Hrun). eapply returns_mono;
    [apply (load_timed calls es' fd now (lost_cmds k v ttl x) [] Hr);
       [by rewrite app_nil_r|exact Hfit|by left|exact Hes'|exact Hroom|apply lost_timely]|].
  intros [n restarted] (_ & _ & _ & Hre). pose proof (ck_mono es' Hes' 2).
  unfold same_from, lost_cmds in Hrun, Hre. cbn [length Nat.add run_timed] in Hrun, Hre, H. rewrite Hrun, Hre.
  rewrite !lost_set, !(lost_pexpire _ _ ms Hms), !lost_rpush by lia. unfold Database.expired.
  replace (_ && (_ <=? start_of es 2)%Z) with true by lia. replace (_ && (_ <=? start_of es' 2)%Z) with false by lia.
  rewrite !alive_entry. unfold Database.expired. replace (_ && (_ <=? start_of es' 3)%Z) with false by lia.
  exact (conj eq_refl eq_refl).
Qed.

(** ** Witnesses *)

(** A clock that stands at [z]. *)
Definition at_time (z : Z) : Env := mkEnv Database.linux64 (λ _, z) (λ _, 1%Z) map_to_list elements (λ _, true).

(** One millisecond per command, from [z] on. *)
Definition each_ms (z : Z) (i : nat) : Env := at_time (z + Z.of_nat i).

Lemma each_ms_clocks z : clocks (each_ms z).
Proof.
  split; [intros i; split; [exists (z + Z.of_nat i)%Z|..]; intros; cbn; lia || done|done|].
  intros i. cbn. lia.
Qed.

Definition demo_cmds : list (list bytes) := lost_cmds (lit "k") (lit "v") (lit "10") (lit "x").
Definition kept_cmds : list (list bytes) := take 2 demo_cmds.

Lemma kept_on_time : on_time (start_of (each_ms 100)) 0 kept_cmds ∅.
Proof.
  unfold kept_cmds, demo_cmds, lost_cmds. cbn [take on_time Nat.add].
  rewrite lost_set, !(lost_pexpire _ (lit "10") 10 eq_refl) by (cbn; lia).
  split; [apply alive_entry|]. split; [|exact I]. rewrite alive_entry. reflexivity.
Qed.

Lemma restart_keeps_deadlines_witness :
  exec_all (with_table CommandTable.core_table (each_ms 100)) 0 Database.empty (Connection.create 7 0) kept_cmds ⇓ λ running,
  load (with_table CommandTable.core_table (each_ms 5000)) (Opened (length (got [CGot (log_bytes kept_cmds)])))
       [CGot (log_bytes kept_cmds)] (Some 9%Z) 0 Database.empty ⇓ λ '(_, restarted),
    let t := start_of (each_ms 100) (length kept_cmds) in
    let t' := start_of (each_ms 5000) (length kept_cmds) in
    outlives t t' (start_of (each_ms 5000) 0 - start_of (each_ms 100) 0)
      (alive t (timed (Database.view running))) (alive t' (timed (Database.view restarted))).
Proof.
  apply (restart_keeps_deadlines (each_ms 100) (each_ms 5000) kept_cmds (Connection.create 7 0)
    [CGot (log_bytes kept_cmds)] 9 0).
  - apply each_ms_clocks.
  - apply each_ms_clocks.
  - done.
  - split; intros i; cbn; lia.
  - apply Forall_take, lost_timely.
  - exact kept_on_time.
  - split; [intros ms Hms; vm_compute in Hms; discriminate Hms|]. split; [|exact I].
    intros ms Hms. vm_compute in Hms. injection Hms as <-. vm_compute. split; [discriminate|reflexivity].
  - exact (proj1 Buffer.empty_represents).
  - repeat constructor.
  - apply app_nil_r.
  - vm_compute. discriminate.
Defined.

(** Ten seconds between the commands of the session. *)
Definition slow (i : nat) : Env := at_time (10000 * Z.of_nat i).

Lemma slow_clocks : clocks slow.
Proof.
  split; [intros i; split; [exists (10000 * Z.of_nat i)%Z|..]; intros; cbn; lia || done|done|].
  intros i. unfold start_of, slow, at_time. cbn [clk]. lia.
Qed.

Lemma expired_write_lost_witness :
  exec_all (with_table CommandTable.core_table slow) 0 Database.empty (Connection.create 7 0) demo_cmds ⇓ λ running,
  load (with_table CommandTable.core_table (each_ms 50000)) (Opened (length (got [CGot (log_bytes demo_cmds)])))
       [CGot (log_bytes demo_cmds)] (Some 9%Z) 0 Database.empty ⇓ λ '(_, restarted),
    alive (start_of slow 3) (timed (Database.view running)) = {[lit "k" := (VList [lit "x"], (-1)%Z)]} ∧
    alive (start_of (each_ms 50000) 3) (timed (Database.view restarted)) =
      {[lit "k" := (VString (asString (createString (lit "v"))), (start_of (each_ms 50000) 1 + 10)%Z)]}.
Proof.
  apply (expired_write_lost slow (each_ms 50000) (lit "k") (lit "v") (lit "10") (lit "x") 10 (Connection.create 7 0) [CGot (log_bytes demo_cmds)] 9 0).
  - exact slow_clocks.
  - apply each_ms_clocks.
  - done.
  - exact (proj1 Buffer.empty_represents).
  - repeat constructor.
  - apply app_nil_r.
  - vm_compute. discriminate.
  - reflexivity.
  - reflexivity.
  - vm_compute. discriminate.
  - vm_compute. split; [discriminate|reflexivity].
  - vm_compute. discriminate.
  - vm_compute. split; reflexivity.
Defined.

End Deadlines.
