(* ===== verification/PersistSnapshot.v ===== *)
(** * Deadlines in a snapshot

    The file a background rewrite writes holds, for each key that is alive, the
    command that makes its value again, and PEXPIRE with the time left for a key
    with a deadline.  Here: what a start that replays this file makes of it, in
    terms of the timed store of [CmdTimed] and of the relation [outlives] of
    [PersistDeadlines]. *)
From Stdlib Require Import Ascii String ZArith Lia ZifyNat ZifyBool.
From stdpp Require Import base option list strings gmap.
From S2P Require Import Prelude CStdlib NetBuffer ProtoSerializer ProtoParser NetConnection StoreObject StoreInterfaces.
From S2P Require Import StoreDatabase CmdBase CmdKey CmdList CmdTable CmdStore CmdTimed PersistAOF PersistRewrite.
From S2P Require Import PersistRecovery PersistDeadlines.
Import RedisObject Connection.

Module Snapshot.
Import Store Timed AOFWriter AOFLoader AOFRewrite Recovery Deadlines.

(** ** The two commands of a key *)

Lemma parseInteger_to_string z : in_s64 z → KeyCommands.parseInteger (to_string z) = Some z.
Proof.
  intros Hz. unfold KeyCommands.parseInteger. rewrite strtoll_to_string by done. cbn.
  rewrite (bool_decide_true (length (to_string z) = _)) by done. rewrite bool_decide_false; [done|].
  intros H. pose proof (f_equal strtoll H) as Hs. rewrite strtoll_to_string in Hs by done. rewrite H in Hs.
  vm_compute in Hs. injection Hs as ->. vm_compute in H. discriminate H.
Qed.

Lemma alive_insert t key v d st :
  Database.expired t d = false → alive t (<[key := (v, d)]> st) = <[key := (v, d)]> (alive t st).
Proof.
  intros Hd. apply map_eq. intros k. rewrite alive_lookup. destruct (decide (k = key)) as [->|Hne].
  - by rewrite !lookup_insert_eq, Hd.
  - by rewrite !lookup_insert_ne, alive_lookup.
Qed.

Lemma insert_empty_inv {A} (k k' : bytes) (v v' : A) :
  <[k := v]> (∅ : gmap bytes A) = <[k' := v']> ∅ → k = k' ∧ v = v'.
Proof.
  intros H. pose proof (f_equal (lookup k') H) as H'. rewrite lookup_insert_eq in H'.
  destruct (decide (k = k')) as [->|Hne]; [rewrite lookup_insert_eq in H'; split; congruence|].
  by rewrite lookup_insert_ne in H'.
Qed.

#[local] Opaque CommandTable.core_table.

(** A command that makes the value of a key it does not find gives it no deadline. *)
Lemma rebuilds_timed key o args t st :
  rebuilds key o args → alive t st !! key = None → apply_timed t args st = <[key := (value_of o, (-1)%Z)]> (alive t st).
Proof.
  intros [[Hw Hp] Hreb] Hkey. destruct args as [|arg0 rest]; [done|].
  pose proof (Hreb ∅ (lookup_empty key)) as H0. unfold apply in H0. unfold apply_timed.
  assert (Hno : ∀ st0 : store, st0 = ∅ → st0 ≠ <[key := value_of o]> ∅).
  { intros st0 -> Heq. apply (f_equal (lookup key)) in Heq. by rewrite lookup_insert_eq in Heq. }
  destruct (CommandTable.core_table !! to_upper arg0) as [entry|]; [|by destruct (Hno ∅)].
  destruct (CommandTable.arity_ok _ _); [|by destruct (Hno ∅)]. unfold apply_named in H0. unfold apply_timed_named. cbv zeta in *.
  destruct Hp as (He & Hpe & _). case_bool_decide.
  { apply insert_empty_inv in H0 as [-> ->]. rewrite alive_insert by done. by rewrite alive_alive. }
  case_bool_decide; [destruct (Hno _ (map_filter_empty _) H0)|]. case_bool_decide; [by destruct (Hno ∅)|].
  unfold expires. rewrite !bool_decide_false by done. cbn [orb]. unfold change in H0. unfold change_timed.
  destruct (update _ _ (∅ !! _)) as [[v|]|] eqn:Hu; [|by destruct (Hno (delete (arg (arg0 :: rest) 1) ∅) (delete_empty _))
    |by destruct (Hno ∅)].
  apply insert_empty_inv in H0 as [-> ->]. rewrite lookup_empty in Hu. rewrite Hkey. cbn [fmap option_fmap option_map].
  rewrite Hu. cbn [default]. rewrite alive_insert by done. by rewrite alive_alive.
Qed.

Lemma pexpire_timed key ms t v st :
  (0 ≤ t)%Z → (0 < ms)%Z → (t + ms < 2 ^ 63)%Z → alive t st = st → st !! key = Some (v, (-1)%Z) →
  apply_timed t (pexpire key ms) st = <[key := (v, (t + ms)%Z)]> st.
Proof.
  intros Ht Hms Hhi Ha Hk. unfold pexpire. rewrite (apply_timed_known _ _ _ _ _ known_pexpire) by done. rewrite Ha.
  change (alive t (match KeyCommands.parseInteger (to_string ms) with
    | Some ms => set_deadline key (wrap_s64 (t + ms)) st | None => st end) = <[key := (v, (t + ms)%Z)]> st).
  rewrite parseInteger_to_string by (unfold in_s64; lia). unfold set_deadline. rewrite Hk, wrap_s64_id by (unfold in_s64; lia).
  rewrite alive_insert, Ha; [done|]. unfold Database.expired. lia.
Qed.

(** ** Replaying the file *)

Lemma run_timed_app t cmds1 cmds2 : ∀ i st,
  run_timed t i (cmds1 ++ cmds2) st = run_timed t (i + length cmds1) cmds2 (run_timed t i cmds1 st).
Proof.
  induction cmds1 as [|args cmds1 IH]; intros i st; cbn [app run_timed length]; [by rewrite Nat.add_0_r|].
  rewrite IH. f_equal. lia.
Qed.

(** Everything is alive at [last]. *)
Definition lasting (last : Z) (st : tstore) : Prop := map_Forall (λ _ x, Database.expired last x.2 = false) st.

Lemma lasting_alive last t st : (t ≤ last)%Z → lasting last st → alive t st = st.
Proof.
  intros Hle Hst. apply map_filter_id. intros k x Hk. specialize (Hst k x Hk). unfold Database.expired in *. cbn in *. lia.
Qed.

Section replay.
(** The child reads its clock from [now] to [finish]; the replay of the [n]
    commands of the file lasts from [t 0] to [last]. *)
Context (e : Env) (t : nat → Z) (n : nat) (now finish last : Z).
Context (Hclk : ∀ j, (now ≤ clk e j ≤ finish)%Z) (Ht : ∀ i, i ≤ n → (t 0%nat ≤ t i ≤ last)%Z) (Hpos : (0 ≤ t 0%nat)%Z).

(** A deadline that neither the child nor the replay reaches, and that fits. *)
Definition far (d : Z) : Prop :=
  d = (-1)%Z ∨ (0 ≤ d ∧ last - t 0%nat < d - finish ∧ last + (d - now) < 2 ^ 63)%Z.

Lemma key_timed j live key cmds i st :
  key_written e j live key cmds → map_Forall (λ _ x, far x.2) live → lasting last st → st !! key = None → i + length cmds ≤ n →
  ∃ y, moved finish (t 0%nat) (last - now) (timed live !! key) y ∧
    run_timed t i cmds st = partial_alter (λ _, y) key st ∧ lasting last (run_timed t i cmds st).
Proof.
  intros Hc Hfar Hst Hkey Hi. unfold key_written in Hc. rewrite timed_lookup.
  destruct (live !! key) as [[o d]|] eqn:Hl; cbn [fmap option_fmap option_map fst snd].
  2: { subst cmds. exists None. split; [constructor|]. split; [|done]. cbn. by rewrite partial_alter_id. }
  destruct Hc as (args & Hreb & ->). pose proof (Hfar key _ Hl) as Hd. cbn in Hd. cbn [length] in Hi.
  pose proof (Ht i ltac:(lia)) as Hti. pose proof (lasting_alive last (t i) st ltac:(lia) Hst) as Ha.
  assert (H1 : apply_timed (t i) args st = <[key := (value_of o, (-1)%Z)]> st).
  { rewrite (rebuilds_timed key o args (t i) st Hreb), Ha; [done|by rewrite Ha]. }
  assert (Hst1 : lasting last (<[key := (value_of o, (-1)%Z)]> st)) by (by apply map_Forall_insert_2).
  destruct Hd as [->|(Hd0 & Hlate & Hfits)].
  { exists (Some (value_of o, (-1)%Z)). cbn [Z.leb Z.compare run_timed]. rewrite H1. split; [constructor|done]. }
  replace (0 <=? d)%Z with true in * by lia. cbn [length] in Hi. cbn [run_timed]. rewrite H1.
  pose proof (Ht (i + 1) ltac:(lia)) as Hti1. pose proof (Hclk j) as Hj.
  rewrite (pexpire_timed key (d - clk e j) (t (i + 1)) (value_of o));
    [|lia|lia|lia|by apply (lasting_alive last); [lia|]|by rewrite lookup_insert_eq].
  rewrite insert_insert_eq. exists (Some (value_of o, (t (i + 1)%nat + (d - clk e j))%Z)).
  split; [constructor; lia|]. split; [done|]. apply map_Forall_insert_2; [|done]. unfold Database.expired. cbn. lia.
Qed.

Lemma written_timed live ks cmds :
  written e live ks cmds → map_Forall (λ _ x, far x.2) live → ∀ i st,
  lasting last st → (∀ k, k ∈ ks → st !! k = None) → i + length cmds ≤ n →
  lasting last (run_timed t i cmds st) ∧
  ∀ k, if decide (k ∈ ks) then moved finish (t 0%nat) (last - now) (timed live !! k) (run_timed t i cmds st !! k)
       else run_timed t i cmds st !! k = st !! k.
Proof.
  intros Hw Hfar. induction Hw as [|j key ks cmds1 cmds Hnew Hkw _ IH]; intros i st Hst Hnone Hi.
  { split; [done|]. intros k. by rewrite decide_False by apply not_elem_of_nil. }
  rewrite length_app in Hi. rewrite run_timed_app.
  destruct (key_timed j live key cmds1 i st Hkw Hfar Hst) as (y & Hy & Hrun & Hst1); [apply Hnone; by left|lia|].
  destruct (IH (i + length cmds1) (run_timed t i cmds1 st) Hst1) as [Hst2 Hks]; [|lia|].
  { intros k Hk. rewrite Hrun, lookup_partial_alter_ne by (by intros ->). apply Hnone. by right. }
  split; [done|]. intros k. specialize (Hks k). destruct (decide (k = key)) as [->|Hne].
  - rewrite decide_True by by left. rewrite decide_False in Hks by done. rewrite Hks, Hrun. by rewrite lookup_partial_alter_eq.
  - rewrite (decide_ext _ (k ∈ ks)) by (rewrite elem_of_cons; tauto). destruct (decide (k ∈ ks)); [done|].
    by rewrite Hks, Hrun, lookup_partial_alter_ne.
Qed.

(** All keys, from nothing. *)
Lemma snapshot_outlives m ks cmds :
  snapshot e now m ks cmds → (∀ k : bytes, k ∈ ks ↔ is_Some (m !! k)) → map_Forall (λ _ x, far x.2) (Database.live now m) →
  length cmds ≤ n →
  outlives finish (t 0%nat) (last - now) (alive now (timed m)) (run_timed t 0 cmds ∅) ∧ lasting last (run_timed t 0 cmds ∅).
Proof.
  intros Hsn Hks Hfar Hn. destruct (written_timed _ _ _ (sn_written _ _ _ _ _ Hsn) Hfar 0 ∅) as [Hl H];
    [apply map_Forall_empty|intros; apply lookup_empty|lia|]. split; [|done]. intros k. specialize (H k).
  rewrite timed_live in H. destruct (decide (k ∈ ks)) as [|Hk]; [done|]. rewrite H, lookup_empty.
  rewrite alive_lookup, timed_lookup. destruct (m !! k) as [x|] eqn:Hm; [|constructor]. destruct Hk. apply Hks. by rewrite Hm.
Qed.

End replay.

(** The commands of a snapshot are write commands. *)
Lemma written_timely e live ks cmds : written e live ks cmds → Forall timely cmds.
Proof.
  assert (Hpx : ∀ k ms, timely (pexpire k ms)).
  { intros k ms. destruct known_pexpire as [Hup Hn]. split.
    - unfold pexpire, CommandTable.isWriteCommand. rewrite Hup.
      destruct (CommandTable.core_table !! lit "PEXPIRE") as [x|]; [|done]. cbn in Hn. by injection Hn.
    - unfold numeric, pexpire, numeric_named. rewrite Hup. discriminate. }
  induction 1 as [|j key ks cmds1 cmds _ Hkw _ IH]; [constructor|]. apply Forall_app. split; [|done].
  unfold key_written in Hkw. destruct (live !! key) as [[o d]|]; [|subst; constructor].
  destruct Hkw as (args & [[Hw Hp] _] & ->). constructor; [|destruct (0 <=? d)%Z; repeat constructor; apply Hpx].
  split; [done|]. destruct args as [|arg0 rest]; [done|]. destruct Hp as (_ & _ & Hz). exact Hz.
Qed.

Lemma written_length e live ks cmds : written e live ks cmds → NoDup ks ∧ length cmds ≤ 2 * length ks.
Proof.
  induction 1 as [|j key ks cmds1 cmds Hnew Hkw _ [IHn IHl]]; [split; [constructor|simpl; lia]|].
  split; [by constructor|]. rewrite length_app. unfold key_written in Hkw. simpl length.
  destruct (live !! key) as [[o d]|]; [|subst; simpl; lia]. destruct Hkw as (args & _ & ->). destruct (0 <=? d)%Z; simpl; lia.
Qed.

Lemma keys_size {A} (m : gmap bytes A) ks : NoDup ks → (∀ k, k ∈ ks ↔ is_Some (m !! k)) → length ks = size m.
Proof.
  intros Hnd Hks. rewrite <- (size_dom m), <- (size_list_to_set (C := gset bytes) ks Hnd). f_equal. apply set_eq. intros k.
  by rewrite elem_of_list_to_set, elem_of_dom, Hks.
Qed.

(** ** Property *)

(** C23: a background rewrite keeps deadlines.  The child of a rewrite reads its clock
    between [now] and [finish]; the file it writes is replayed by a later start,
    in any other environment, between [start_of es 0] and [last].  If the kernel takes
    all that the child writes and no deadline is reached meanwhile, exactly the keys
    alive at the time of the rewrite are alive after the restart, with their values
    of every type; keys without a deadline stay without one, and each deadline is
    moved by at least the time from the end of the child to the start of the replay
    and at most the time from the rewrite to the end of the replay. *)
Theorem snapshot_keeps_deadlines (w : ChildWorld) (db : DB) (now finish last : Z) (es : nat → Env) (fd dummyNow : Z) :
  ch_open w = true → env_ok (ch_env w) → all_taken (ch_writes w) → snapshot_ready (ch_env w) now db →
  (∀ j, now ≤ clk (ch_env w) j ≤ finish)%Z → clocks es → roomy es → (0 ≤ start_of es 0)%Z →
  (∀ i, i ≤ 2 * base.size (Database.view db) → (start_of es i ≤ last)%Z) →
  map_Forall (λ _ x, far (start_of es) now finish last x.2) (Database.live now (Database.view db)) →
  child_main w db ⇓ λ '(status, file), status = 0%Z ∧ ∃ d, file = Some d ∧ durable d = length (contents d) ∧
    ∀ calls, reads_ok calls → got calls = contents d → RespParser.fits_int (got calls) →
    load (with_table CommandTable.core_table es) (Opened (length (got calls))) calls (Some fd) dummyNow Database.empty ⇓ λ '(_, restarted),
      outlives finish (start_of es 0) (last - now)
        (alive now (timed (Database.view db))) (alive last (timed (Database.view restarted))).
Proof.
  intros Ho He Hw Hr Hclk Hck Hroom Hpos Hlast Hfar. eapply returns_mono; [by apply child_main_ok|].
  intros [status file] (-> & d & ks & cmds & -> & Hd & Hdur & Hks & Hsn). split; [done|]. exists d. split; [done|]. split; [done|].
  intros calls Hreads Hg Hfit. pose proof (sn_written _ _ _ _ _ Hsn) as Hwr. destruct (written_length _ _ _ _ Hwr) as [Hnd Hlen].
  rewrite (keys_size _ _ Hnd Hks) in Hlen.
  assert (Hmono : ∀ i, (start_of es 0 ≤ start_of es i)%Z).
  { induction i as [|i IH]; [lia|]. pose proof (ck_mono es Hck i) as Hm. rewrite Nat.add_1_r in Hm. lia. }
  destruct (snapshot_outlives (ch_env w) (start_of es) (2 * base.size (Database.view db)) now finish last Hclk
    (λ i Hi, conj (Hmono i) (Hlast i Hi)) Hpos _ _ _ Hsn Hks Hfar Hlen) as [Hout Hl].
  eapply returns_mono; [apply (load_timed calls es fd dummyNow cmds []); try done|].
  - by rewrite Hg, Hd, app_nil_r.
  - by left.
  - by eapply written_timely.
  - intros [n restarted] (_ & _ & _ & Hsame). apply (same_from_later _ last) in Hsame; [|by apply Hlast].
    unfold same_from in Hsame. by rewrite Hsame, (lasting_alive last last).
Qed.

(** ** Witness *)

(** Two strings, one of them with the deadline 50; the child runs at 12, and the file
    is replayed from 1000 on. *)
Definition demo_child : ChildWorld := mkChildWorld true (at_time 12) willing.

Lemma demo_view :
  Database.view Database.demo =
    <[lit "a" := (createString (lit "1"), 50%Z)]> {[lit "b" := (createString (lit "two"), (-1)%Z)]}.
Proof. vm_compute. reflexivity. Qed.

Lemma demo_forall (P : RedisObject * Z → Prop) :
  P (createString (lit "1"), 50%Z) → P (createString (lit "two"), (-1)%Z) →
  map_Forall (λ _ x, P x) (Database.view Database.demo).
Proof. intros Ha Hb. rewrite demo_view. apply map_Forall_insert_2; [done|]. by apply map_Forall_singleton. Qed.

Lemma demo_ready : snapshot_ready (ch_env demo_child) 12 Database.demo.
Proof.
  split; [exact Database.demo_wf|]. split; [|split].
  - by apply (demo_forall (λ x, object_ok x.1)).
  - intros j k x Hk. done.
  - by apply (demo_forall (λ x, storable x.1)).
Qed.

Lemma snapshot_keeps_deadlines_witness :
  child_main demo_child Database.demo ⇓ λ '(status, file), status = 0%Z ∧ ∃ d, file = Some d ∧ durable d = length (contents d) ∧
    ∀ calls, reads_ok calls → got calls = contents d → RespParser.fits_int (got calls) →
    load (with_table CommandTable.core_table (each_ms 1000)) (Opened (length (got calls))) calls (Some 9%Z) 0 Database.empty
      ⇓ λ '(_, restarted), outlives 12 (start_of (each_ms 1000) 0) (1004 - 12)
        (alive 12 (timed (Database.view Database.demo))) (alive 1004 (timed (Database.view restarted))).
Proof.
  apply (snapshot_keeps_deadlines demo_child Database.demo 12 12 1004 (each_ms 1000) 9 0).
  - reflexivity.
  - exact (ck_env _ (each_ms_clocks 12) 0).
  - exact willing_taken.
  - exact demo_ready.
  - intros j. cbn. lia.
  - apply each_ms_clocks.
  - done.
  - cbn. lia.
  - intros i Hi. assert (Hs : base.size (Database.view Database.demo) = 2) by (rewrite demo_view; reflexivity).
    rewrite Hs in Hi. cbn. lia.
  - intros k x [Hk _]%map_lookup_filter_Some. revert k x Hk. apply (demo_forall (λ x, far _ _ _ _ x.2)).
    + right. cbn. lia.
    + by left.
Defined.

End Snapshot.
