(* ===== verification/Server.v ===== *)
(** * [main]: the server

    src/main.cpp: the commands registered by [main] itself, the dispatch of one
    parsed command with its subscriber and MULTI gates, the parse/dispatch loop of
    a readable client, and the steps of the event loop.

    The local variables of [main] are the record [Server].  The lambdas that
    capture them are constructors of [Closure].  Connections are owned by the map
    from descriptors to [std::unique_ptr<Connection>] and pointed to by the
    publish/subscribe registry: they live in the store of [Hub] under addresses
    that are never reused.

    What the program reads from outside while it executes a command is a
    [World]; an [event] is one step of the event loop with the outcomes of the
    system calls it makes.  The commands are those of [CmdTable], INFO,
    BGREWRITEAOF, EXEC, SUBSCRIBE, UNSUBSCRIBE and PUBLISH. *)
From Stdlib Require Import Ascii String ZArith Lia ZifyNat ZifyBool.
From stdpp Require Import base option list strings gmap.
From S2P Require Import Prelude CStdlib CPosix NetBuffer ProtoSerializer ProtoParser NetConnection NetListener.
From S2P Require Import NetEventLoop StoreObject.
From S2P Require Import StoreInterfaces StoreDatabase CmdBase CmdTable CmdPubSub CmdInfo PersistAOF PersistRewrite.
Import RedisObject Connection PubSubRegistry.

Module Server.

Inductive Closure := Plain (h : handler) | Info | Rewrite | Exec | Subscribe | Unsubscribe | Publish.

Record Server := mkServer {
  db : DB;
  aof : AOFWriter.AOFWriter;
  disk : Disk;
  child : option DB;
  metrics : ServerMetrics.ServerMetrics;
  hub : Hub;
  connections : gmap Z addr;
  next_addr : addr;
  loop : EventLoop.EventLoop;
  listener : Listener.Listener;
  fds : Fds
}.

(** The events asked for on each descriptor. *)
Definition epoll (s : Server) : gmap Z EventLoop.interest := EventLoop.registered (loop s).

(** Of one command: the environments of the commands it runs (0 is the command
    itself, [S i] the [i]-th one of a transaction), the outcomes of [write] on the
    log for given bytes, the traversal of subscribers, the readings of the steady
    clock around the dispatch and in INFO (nanoseconds) and of the wall clock
    (microseconds), the process id, and what [fork] returns to the parent. *)
Record World := mkWorld {
  envs : nat → Env;
  writes : nat → bytes → list write_call;
  order : nat → gset addr → list addr;
  started : Z;
  ended : Z;
  infoNow : Z;
  wallUs : Z;
  pid : Z;
  fork : nat → Z
}.

(** *** Field updates *)

Definition set_db d s := mkServer d (aof s) (disk s) (child s) (metrics s) (hub s) (connections s) (next_addr s) (loop s) (listener s) (fds s).
Definition set_hub h s := mkServer (db s) (aof s) (disk s) (child s) (metrics s) h (connections s) (next_addr s) (loop s) (listener s) (fds s).
Definition set_metrics m s := mkServer (db s) (aof s) (disk s) (child s) m (hub s) (connections s) (next_addr s) (loop s) (listener s) (fds s).
Definition set_log w d s := mkServer (db s) w d (child s) (metrics s) (hub s) (connections s) (next_addr s) (loop s) (listener s) (fds s).
Definition set_rewrite w d ch s := mkServer (db s) w d ch (metrics s) (hub s) (connections s) (next_addr s) (loop s) (listener s) (fds s).
Definition set_loop l s := mkServer (db s) (aof s) (disk s) (child s) (metrics s) (hub s) (connections s) (next_addr s) l (listener s) (fds s).
Definition set_fds f s := mkServer (db s) (aof s) (disk s) (child s) (metrics s) (hub s) (connections s) (next_addr s) (loop s) (listener s) f.

(** A change of the connection at [a]. *)
Definition onConn (a : addr) (f : Connection → result Connection) (s : Server) : result Server :=
  c ← load (hub s) a;
  c' ← f c;
  mret (set_hub (store (hub s) a c') s).

(** *** The handlers that [main] registers *)

Definition callPlain (h : handler) (e : Env) (a : addr) (args : list bytes) (s : Server) : result Server :=
  c ← load (hub s) a;
  '(db', c') ← h e (db s) c args;
  mret (set_db db' (set_hub (store (hub s) a c') s)).

Definition callInfo (w : World) (a : addr) (args : list bytes) (s : Server) : result Server :=
  onConn a (λ c, ServerMetrics.cmdInfo (infoNow w) (pid w) (metrics s) (db s) c args) s.

Definition callRewrite (pid : Z) (a : addr) (s : Server) : result Server :=
  let '(w', child') := AOFRewrite.triggerRewrite pid (aof s) (db s) (child s) in
  onConn a (λ c, replySimple c (lit "Background append only file rewriting started"))
    (set_rewrite w' (disk s) child' s).

(** The three elements of a subscription reply. *)
Definition replySubscription (kind channel : bytes) (n : Z) (c : Connection) : result Connection :=
  c1 ← replyHeader c 3;
  c2 ← replyBulk c1 kind;
  c3 ← replyBulk c2 channel;
  replyInteger c3 n.

Fixpoint subscribe_loop (a : addr) (chs : list bytes) (s : Server) : result Server :=
  match chs with
  | [] => mret s
  | ch :: chs' =>
      '(n, h) ← subscribe ch a (hub s);
      s' ← onConn a (replySubscription (lit "subscribe") ch n) (set_hub h s);
      subscribe_loop a chs' s'
  end.

Fixpoint unsubscribe_loop (a : addr) (chs : list bytes) (s : Server) : result Server :=
  match chs with
  | [] => mret s
  | ch :: chs' =>
      '(n, h) ← unsubscribe ch a (hub s);
      s' ← onConn a (replySubscription (lit "unsubscribe") ch n) (set_hub h s);
      unsubscribe_loop a chs' s'
  end.

Definition cmdSubscribe (a : addr) (args : list bytes) (s : Server) : result Server :=
  subscribe_loop a (drop 1 args) s.

Definition cmdUnsubscribe (e : Env) (a : addr) (args : list bytes) (s : Server) : result Server :=
  if bool_decide (length args ≤ 1) then
    c ← load (hub s) a;
    if bool_decide (subscribedChannels c = ∅) then
      onConn a (λ c, c1 ← replyHeader c 3; c2 ← replyBulk c1 (lit "unsubscribe"); c3 ← replyNull c2;
                     replyInteger c3 0) s
    else unsubscribe_loop a (iter_set e (subscribedChannels c)) s
  else unsubscribe_loop a (drop 1 args) s.

Definition cmdPublish (ord : gset addr → list addr) (a : addr) (args : list bytes) (s : Server) : result Server :=
  ch ← vec_get args 1;
  msg ← vec_get args 2;
  '(n, h) ← publish ord ch msg (hub s);
  onConn a (λ c, replyInteger c n) (set_hub h s).

(** *** The command table of the running server *)

Definition liftEntry (x : CommandTable.CommandEntry handler) : CommandTable.CommandEntry Closure :=
  CommandTable.mkEntry (CommandTable.name x) (CommandTable.arity x) (CommandTable.isWrite x)
    (Plain (CommandTable.run x)).

Definition main_commands : list (CommandTable.CommandEntry Closure) :=
  [CommandTable.mkEntry (lit "INFO") (-1) false Info;
   CommandTable.mkEntry (lit "BGREWRITEAOF") 1 false Rewrite;
   CommandTable.mkEntry (lit "EXEC") 1 false Exec;
   CommandTable.mkEntry (lit "SUBSCRIBE") (-2) false Subscribe;
   CommandTable.mkEntry (lit "UNSUBSCRIBE") (-1) false Unsubscribe;
   CommandTable.mkEntry (lit "PUBLISH") 3 false Publish].

Definition server_table : gmap bytes (CommandTable.CommandEntry Closure) :=
  foldl CommandTable.registerCommand (liftEntry <$> CommandTable.core_table) main_commands.

(** [if (aofWriter.isEnabled() && commandTable.isWriteCommand(cmd[0]))
    aofWriter.log(cmd)] *)
Definition logCommand (calls : bytes → list write_call) (cmd : list bytes) (s : Server) : result Server :=
  arg0 ← vec_get cmd 0;
  if AOFWriter.isEnabled (aof s) && CommandTable.isWriteCommand server_table arg0 then
    '(_, w', d') ← AOFWriter.log (calls (AOFWriter.formatRespCommand cmd)) (aof s) (disk s) cmd;
    mret (set_log w' d' s)
  else mret s.

(** [for (auto& qcmd : queued)]: [queued] refers into the connection, so a command
    that changed or dropped the queue would leave the loop with a dangling
    reference. *)
Fixpoint exec_loop (run : nat → list bytes → Server → result Server) (calls : nat → bytes → list write_call)
    (a : addr) (queued : list (list bytes)) (i : nat) (rest : list (list bytes)) (s : Server) : result Server :=
  match rest with
  | [] => mret s
  | qcmd :: rest' =>
      c ← load (hub s) a;
      if bool_decide (queuedCommands <$> txn c = Some queued) then
        s1 ← run i qcmd s;
        s2 ← logCommand (calls (S i)) qcmd s1;
        exec_loop run calls a queued (S i) rest' s2
      else Fault DanglingPointer
  end.

Definition cmdExec (run : nat → list bytes → Server → result Server) (w : World) (a : addr) (s : Server)
    : result Server :=
  c ← load (hub s) a;
  match txn c with
  | None => onConn a (λ c, replyError c (lit "ERR EXEC without MULTI")) s
  | Some t =>
      let queued := queuedCommands t in
      s1 ← onConn a (λ c, replyHeader c (Z.of_nat (length queued))) s;
      s2 ← exec_loop run (writes w) a queued 0 queued s1;
      onConn a (λ c, mret (set_txn None c)) s2
  end.

(** Calling a handler; [exec] is the body of EXEC. *)
Definition call (exec : Server → result Server) (n : nat) (w : World) (a : addr) (args : list bytes)
    (cl : Closure) (s : Server) : result Server :=
  match cl with
  | Plain h => callPlain h (envs w n) a args s
  | Info => callInfo w a args s
  | Rewrite => callRewrite (fork w n) a s
  | Exec => exec s
  | Subscribe => cmdSubscribe a args s
  | Unsubscribe => cmdUnsubscribe (envs w n) a args s
  | Publish => cmdPublish (order w n) a args s
  end.

(** [commandTable.dispatch(db, conn, args)] of the [n]-th command.  [depth] bounds
    the nesting of EXEC. *)
Fixpoint dispatch (depth n : nat) (w : World) (a : addr) (args : list bytes) (s : Server) : result Server :=
  let exec :=
    match depth with
    | O => λ _, Fault OutOfFuel
    | S depth' => cmdExec (λ i, dispatch depth' (S i) w a) w a
    end in
  CommandTable.dispatch_with (λ msg, onConn a (λ c, replyError c msg)) (call exec n w a args) server_table args s.

(** *** One parsed command *)

Definition ERR_SUBSCRIBED (arg0 : bytes) : bytes :=
  lit "ERR Can't execute '" ++ arg0 ++
  lit "': only (P)SUBSCRIBE / (P)UNSUBSCRIBE / PING / QUIT are allowed in this context".

Definition allowedSubscribed (cmdName : bytes) : bool :=
  bool_decide (cmdName = lit "SUBSCRIBE") || bool_decide (cmdName = lit "UNSUBSCRIBE") ||
  bool_decide (cmdName = lit "PING") || bool_decide (cmdName = lit "QUIT").

Definition transactional (cmdName : bytes) : bool :=
  bool_decide (cmdName = lit "EXEC") || bool_decide (cmdName = lit "DISCARD") ||
  bool_decide (cmdName = lit "MULTI").

(** The timed dispatch, the metrics and the log. *)
Definition execute (w : World) (a : addr) (cmd : list bytes) (cmdName : bytes) (s : Server) : result Server :=
  s1 ← dispatch 1 0 w a cmd s;
  let durationUs := Z.quot (ended w - started w) 1000 in
  m ← ServerMetrics.record (wallUs w) durationUs cmd (metrics s1);
  let s2 := set_metrics m s1 in
  if negb (bool_decide (cmdName = lit "EXEC")) then logCommand (writes w 0) cmd s2 else mret s2.

Definition processCommand (w : World) (a : addr) (cmd : list bytes) (s : Server) : result Server :=
  match cmd with
  | [] => mret s
  | arg0 :: _ =>
      let cmdName := to_upper arg0 in
      c ← load (hub s) a;
      if inSubscribeMode c && negb (allowedSubscribed cmdName) then
        onConn a (λ c, replyError c (ERR_SUBSCRIBED arg0)) s
      else
        match txn c with
        | Some t =>
            if negb (transactional cmdName) then
              onConn a (λ c, replySimple (set_txn (Some (mkTxn (queuedCommands t ++ [cmd]))) c) (lit "QUEUED")) s
            else execute w a cmd cmdName s
        | None => execute w a cmd cmdName s
        end
  end.

(** [while (true) { cmd = parser.parse(conn.incoming()); ... }]: [ws k] is the
    world of the [k]-th frame, its parsing included. *)
Fixpoint drain (fuel : nat) (ws : nat → World) (a : addr) (s : Server) : result Server :=
  match fuel with
  | O => Fault OutOfFuel
  | S fuel' =>
      c ← load (hub s) a;
      '(cmd, b) ← RespParser.parse (grants (envs (ws 0%nat) 0)) (in_ c);
      let s1 := set_hub (store (hub s) a (set_in b c)) s in
      match cmd with
      | None => mret s1
      | Some args => s2 ← processCommand (ws 0%nat) a args s1; drain fuel' (λ k, ws (S k)) a s2
      end
  end.

(** The loop with enough fuel: every frame consumes a byte of the input. *)
Definition drainInput (ws : nat → World) (a : addr) (s : Server) : result Server :=
  c ← load (hub s) a;
  drain (S (Buffer.readableBytes (in_ c))) ws a s.

(** *** The event loop *)

(** A readable client: [read], then the parse/dispatch loop. *)
Definition handleReadable (now : Z) (kernel : nat → read_outcome) (ws : nat → World) (a : addr) (s : Server)
    : result Server :=
  c ← load (hub s) a;
  '(alive, c1) ← handleRead now kernel c;
  let c2 := if alive : bool then c1 else setWantRead false c1 in
  s1 ← drainInput ws a (set_hub (store (hub s) a c2) s);
  onConn a (λ c, mret (if bool_decide (0 < Buffer.readableBytes (out_ c)) then setWantWrite true c else c)) s1.

Definition handleWritable (now : Z) (kernel : bytes → write_outcome) (a : addr) (s : Server) : result Server :=
  onConn a (λ c,
    if wantClose_ c then mret c
    else
      '(ok, c1) ← handleWrite now kernel c;
      mret (if negb ok then setWantClose true c1
            else if bool_decide (Buffer.readableBytes (out_ c1) = 0) then setWantWrite false c1
            else c1)) s.

(** Closing when the read side is done and nothing is left to write, and the new
    epoll registration otherwise. *)
Definition finishEvent (fd : Z) (a : addr) (s : Server) : result Server :=
  s1 ← onConn a (λ c, mret (if negb (wantRead_ c) && bool_decide (Buffer.readableBytes (out_ c) = 0)
                            then setWantClose true c else c)) s;
  c ← load (hub s1) a;
  mret (if wantClose_ c then s1 else set_loop (EventLoop.modFd fd (wantRead_ c, wantWrite_ c) (loop s1)) s1).

(** One entry returned by [epoll_wait]: the flags EPOLLERR, EPOLLIN or EPOLLHUP, and
    EPOLLOUT, and the outcomes of the system calls. *)
Record ClientEvent := mkClientEvent {
  ev_err : bool;
  ev_in : bool;
  ev_out : bool;
  ev_now : Z;
  ev_read : nat → read_outcome;
  ev_write : bytes → write_outcome;
  ev_worlds : nat → World
}.

Definition clientEvent (fd : Z) (ev : ClientEvent) (s : Server) : result Server :=
  match connections s !! fd with
  | None => mret s
  | Some a =>
      if ev_err ev then onConn a (λ c, mret (setWantClose true c)) s
      else
        s1 ← if ev_in ev then handleReadable (ev_now ev) (ev_read ev) (ev_worlds ev) a s else mret s;
        s2 ← if ev_out ev then handleWritable (ev_now ev) (ev_write ev) a s1 else mret s1;
        finishEvent fd a s2
  end.

(** A client accepted on descriptor [fd]: [std::make_unique<Connection>], [addFd] and
    the new entry of the connection map. *)
Definition addClient (fd now : Z) (s : Server) : Server :=
  let a := next_addr s in
  mkServer (db s) (aof s) (disk s) (child s) (metrics s) (store (hub s) a (Connection.create fd now))
    (<[fd := a]> (connections s)) (S a) (EventLoop.addFd fd (true, false) (loop s)) (listener s) (fds s).

(** [while (true) { clientFd = listener.acceptClient(); if (clientFd < 0) break; ...
    }]: what [accept4] returns one call after the other, and the time. *)
Fixpoint acceptLoop (rets : list (Z * Z)) (s : Server) : result Server :=
  match rets with
  | [] => Fault OutOfFuel
  | (ret, now) :: rets' =>
      let '(clientFd, fds') := Listener.acceptClient ret (fds s) in
      if (clientFd <? 0)%Z then mret s else acceptLoop rets' (addClient clientFd now (set_fds fds' s))
  end.

(** Enable EPOLLOUT for connections with pending output. *)
Fixpoint sweep (cs : list (Z * addr)) (s : Server) : result Server :=
  match cs with
  | [] => mret s
  | (sfd, a) :: cs' =>
      c ← load (hub s) a;
      if negb (wantClose_ c) && bool_decide (0 < Buffer.readableBytes (out_ c)) then
        let c' := setWantWrite true c in
        sweep cs' (set_loop (EventLoop.modFd sfd (wantRead_ c', wantWrite_ c') (loop s)) (set_hub (store (hub s) a c') s))
      else sweep cs' s
  end.

(** The descriptors to close. *)
Fixpoint toClose (cs : list (Z * addr)) (h : Hub) : result (list Z) :=
  match cs with
  | [] => mret []
  | (cfd, a) :: cs' =>
      c ← load h a;
      fds ← toClose cs' h;
      mret (if wantClose_ c then cfd :: fds else fds)
  end.

(** Leaving the registry, the epoll set and the connection map, whose pointer
    owns the connection: its destructor closes the descriptor. *)
Definition closeConn (chorder : gset bytes → list bytes) (cfd : Z) (s : Server) : result Server :=
  match connections s !! cfd with
  | None => mret (set_loop (EventLoop.removeFd cfd (loop s)) s)
  | Some a =>
      h ← removeConnection chorder a (hub s);
      c ← load h a;
      fds' ← Connection.destroy c (fds s);
      mret (mkServer (db s) (aof s) (disk s) (child s) (metrics s) (mkHub (channels_ h) (delete a (conns h)))
              (delete cfd (connections s)) (next_addr s) (EventLoop.removeFd cfd (loop s)) (listener s) fds')
  end.

Fixpoint closeAll (chorder : gset bytes → list bytes) (fds : list Z) (s : Server) : result Server :=
  match fds with
  | [] => mret s
  | cfd :: fds' => s' ← closeConn chorder cfd s; closeAll chorder fds' s'
  end.

(** After the events of one [poll]; [iter] is the traversal of the connection
    map. *)
Definition endBatch (iter : gmap Z addr → list (Z * addr)) (chorder : gset bytes → list bytes) (s : Server)
    : result Server :=
  db' ← Database.rehashStep (db s);
  s1 ← sweep (iter (connections s)) (set_db db' s);
  fds ← toClose (iter (connections s1)) (hub s1);
  closeAll chorder fds s1.

(** The timer: active expiry with the wall clock, the log's fsync, and the end of
    a rewrite. *)
Definition timer (p : Platform) (nowMs steadyNs : Z) (c : AOFRewrite.Completion) (tmpFd : Z) (s : Server)
    : result Server :=
  db' ← Database.activeExpireCycle p nowMs (db s) 200;
  let '(w', d') := AOFWriter.tick steadyNs (aof s) (disk s) in
  '(w2, d2, child') ← AOFRewrite.checkRewriteComplete c (child s) w' d';
  fds' ← AOFRewrite.checkRewriteComplete_fds tmpFd c (child s) w' (fds s);
  mret (set_fds fds' (set_rewrite w2 d2 child' (set_db db' s))).

(** What the program meets in one [poll]: the steady clock before and after
    [epoll_wait], its outcome, and for the timer the wall clock, the steady clock,
    the end of a rewrite and the descriptor of its temporary file. *)
Record PollWorld := mkPollWorld {
  po_now : Z;
  po_wait : Z → EventLoop.wait_result;
  po_now' : Z;
  po_platform : Platform;
  po_wallMs : Z;
  po_tickNs : Z;
  po_rewrite : AOFRewrite.Completion;
  po_tmpFd : Z
}.

(** The head of the main loop: the client count and [eventLoop.poll(100)], with its
    result. *)
Definition beginBatch (p : PollWorld) (s : Server) : result (Z * Server) :=
  let s1 := set_metrics (ServerMetrics.setConnectedClients (size (connections s)) (metrics s)) s in
  '(n, l, s2) ← EventLoop.poll (timer (po_platform p) (po_wallMs p) (po_tickNs p) (po_rewrite p) (po_tmpFd p))
                  (po_now p) 100 (po_wait p) (po_now' p) (loop s1) s1;
  mret (n, set_loop l s2).

Inductive event :=
| Poll (p : PollWorld)
| Accept (rets : list (Z * Z))
| Client (fd : Z) (ev : ClientEvent)
| EndBatch (iter : gmap Z addr → list (Z * addr)) (chorder : gset bytes → list bytes).

Definition step (ev : event) (s : Server) : result Server :=
  match ev with
  | Poll p => '(_, s') ← beginBatch p s; mret s'
  | Accept rets => acceptLoop rets s
  | Client fd cev => clientEvent fd cev s
  | EndBatch iter chorder => endBatch iter chorder s
  end.

(** The state before the first event, from what [main] has set up. *)
Definition boot (d : DB) (w : AOFWriter.AOFWriter) (dk : Disk) (ch : option DB) (m : ServerMetrics.ServerMetrics)
    (l : EventLoop.EventLoop) (lis : Listener.Listener) (f : Fds) : Server :=
  mkServer d w dk ch m (mkHub ∅ ∅) ∅ 0 l lis f.

End Server.
