(* ===== verification/Main.v ===== *)
(** * [main]: the program from its start to its exit

    src/main.cpp around the state machine of [Server]: the command line, the limit
    on descriptors, the construction of the parts and the replay of the log with the
    commands registered by then ([startup]); the main loop with the events of one [poll] ([iteration]); the
    shutdown and the destructors, in the reverse order of the declarations
    ([shutdown]).

    The outside is given as data: [StartWorld] for the start, one [Iteration] per
    turn of the loop with the value of [g_running] it finds, which the signal
    handler sets to 0 at any time.  Messages on standard output are left out. *)
From Stdlib Require Import Ascii String ZArith Lia ZifyNat ZifyBool.
From stdpp Require Import base option list strings gmap.
From S2P Require Import Prelude CStdlib CPosix NetBuffer NetConnection NetListener NetEventLoop StoreObject.
From S2P Require Import StoreInterfaces StoreDatabase CmdBase CmdTable CmdPubSub CmdInfo PersistAOF PersistRewrite Server.
Import Connection PubSubRegistry Server.

Module Main.

(** ** Start *)

(** What the program meets before its loop: the arguments after its name; the
    calls of the listener; [epoll_create1]; [open] for the log and the file found
    there; the descriptors, calls and environments of the replay; readings of
    the steady clock; for the commands of the log what [fork] returns and the clock
    that INFO reads, and the process id; the limit on descriptors and the changes
    of it that the kernel permits. *)
Record StartWorld := mkStart {
  sw_args : list bytes;
  sw_bind : Listener.BindWorld;
  sw_epoll : Z;
  sw_log : Z;
  sw_disk : Disk;
  sw_file : AOFLoader.open_outcome;
  sw_calls : list read_call;
  sw_loadFd : Z;
  sw_readEnd : Z;
  sw_pipe : option Z;
  sw_envs : nat → Env;
  sw_loopNow : Z;
  sw_metricsNow : Z;
  sw_logNow : Z;
  sw_dummyNow : Z;
  sw_timerNow : Z;
  sw_fork : nat → Z;
  sw_infoNow : nat → Z;
  sw_pid : Z;
  sw_limit : rlimit;
  sw_permits : rlimit → rlimit → bool
}.

(** [int port = 6379; if (argc > 1) port = std::atoi(argv[1]);] *)
Definition parsePort (args : list bytes) : Z :=
  match args with [] => 6379%Z | arg :: _ => atoi arg end.

(** Raising the limit on descriptors, with the fallback to the hard limit. *)
Definition raiseLimit (permits : rlimit → rlimit → bool) (l : rlimit) : rlimit :=
  let '(ok, l1) := setrlimit permits (mkRlimit 65536 65536) l in
  if ok : bool then l1
  else
    let rl := mkRlimit (rlim_max l1) (rlim_max l1) in
    (setrlimit permits rl l1).2.

(** *** The replay *)

(** The handlers registered before the replay: those of the table, INFO, and the
    lambda of BGREWRITEAOF, which captures the log. *)
Inductive EarlyClosure := Early (h : handler) | EarlyInfo | EarlyRewrite.

Definition earlyEntry (x : CommandTable.CommandEntry handler) : CommandTable.CommandEntry EarlyClosure :=
  CommandTable.mkEntry (CommandTable.name x) (CommandTable.arity x) (CommandTable.isWrite x)
    (Early (CommandTable.run x)).

Definition early_commands : list (CommandTable.CommandEntry EarlyClosure) :=
  [CommandTable.mkEntry (lit "INFO") (-1) false EarlyInfo;
   CommandTable.mkEntry (lit "BGREWRITEAOF") 1 false EarlyRewrite].

Definition loading_table : gmap bytes (CommandTable.CommandEntry EarlyClosure) :=
  foldl CommandTable.registerCommand (earlyEntry <$> CommandTable.core_table) early_commands.

(** What a replayed command can change: the database, the log's object and the
    child that a replayed BGREWRITEAOF forks. *)
Record Loading := mkLoading {
  ld_db : DB;
  ld_aof : AOFWriter.AOFWriter;
  ld_child : option DB
}.

Definition callEarly (w : StartWorld) (m : ServerMetrics.ServerMetrics) (n : nat) (args : list bytes)
    (cl : EarlyClosure) (st : Loading * Connection) : result (Loading * Connection) :=
  let '(ld, c) := st in
  match cl with
  | Early h =>
      '(db', c') ← h (sw_envs w n) (ld_db ld) c args;
      mret (mkLoading db' (ld_aof ld) (ld_child ld), c')
  | EarlyInfo =>
      c' ← ServerMetrics.cmdInfo (sw_infoNow w n) (sw_pid w) m (ld_db ld) c args;
      mret (ld, c')
  | EarlyRewrite =>
      let '(aw, ch) := AOFRewrite.triggerRewrite (sw_fork w n) (ld_aof ld) (ld_db ld) (ld_child ld) in
      c' ← replySimple c (lit "Background append only file rewriting started");
      mret (mkLoading (ld_db ld) aw ch, c')
  end.

(** [cmdTable.dispatch(db, dummyConn, *cmd)] *)
Definition loader (w : StartWorld) (m : ServerMetrics.ServerMetrics) : AOFLoader.Replayer Loading :=
  AOFLoader.mkReplayer
    (λ n ld c args,
      CommandTable.dispatch_with (λ msg '(ld, c), c' ← replyError c msg; mret (ld, c'))
        (callEarly w m n args) loading_table args (ld, c))
    (λ n, grants (sw_envs w n)).

(** *** The construction *)

(** The text and the open descriptors of an uncaught [std::runtime_error], or the
    state in which the loop starts. *)
Definition startup (w : StartWorld) : result (bytes * Fds + Server) :=
  let port := parsePort (sw_args w) in
  '(r, fds1) ← Listener.create (sw_bind w) (lit "0.0.0.0") port ∅;
  match r with
  | inl what => mret (inl (what, fds1))
  | inr lis =>
      match EventLoop.create (sw_epoll w) (sw_loopNow w) fds1 with
      | (None, fds2) => mret (inl (lit "epoll_create1() failed", fds2))
      | (Some l0, fds2) =>
          let l1 := EventLoop.addFd (Listener.fd_ lis) (true, false) l0 in
          let m := ServerMetrics.create (sw_metricsNow w) (Listener.port16 port) in
          let aw := AOFWriter.create (sw_log w) AOFWriter.EVERYSEC (sw_logNow w) in
          let fds3 := openFd (sw_log w) fds2 in
          '(_, ld) ← AOFLoader.load (loader w m) (sw_file w) (sw_calls w) (sw_pipe w) (sw_dummyNow w)
                       (mkLoading Database.empty aw None);
          fds4 ← AOFLoader.load_fds (sw_loadFd w) (sw_readEnd w) (sw_file w) (sw_calls w) (sw_pipe w) fds3;
          let l2 := EventLoop.setTimerCallback 100 (sw_timerNow w) l1 in
          mret (inr (boot (ld_db ld) (ld_aof ld) (sw_disk w) (ld_child ld) m l2 lis fds4))
      end
  end.

(** ** The loop *)

(** One entry of [events_]: the descriptor, what happens if it is a client, and
    what [accept4] returns if it is the listener. *)
Record Ready := mkReady {
  rd_fd : Z;
  rd_client : ClientEvent;
  rd_accepts : list (Z * Z)
}.

Definition readyEvent (r : Ready) (s : Server) : result Server :=
  if bool_decide (rd_fd r = Listener.fd_ (listener s)) then acceptLoop (rd_accepts r) s
  else clientEvent (rd_fd r) (rd_client r) s.

(** [for (int i = 0; i < n; ++i)]: [n] entries from [i] on. *)
Fixpoint readyLoop (n i : nat) (events_ : list Ready) (s : Server) : result Server :=
  match n with
  | O => mret s
  | S n' =>
      ev ← vec_get events_ i;
      s' ← readyEvent ev s;
      readyLoop n' (S i) events_ s'
  end.

Record Iteration := mkIteration {
  it_running : bool;
  it_poll : PollWorld;
  it_events : list Ready;
  it_conns : gmap Z addr → list (Z * addr);
  it_channels : gset bytes → list bytes
}.

(** One turn of the loop: whether it goes on, and the state. *)
Definition iteration (it : Iteration) (s : Server) : result (bool * Server) :=
  if negb (it_running it) then mret (false, s)
  else
    '(n, s1) ← beginBatch (it_poll it) s;
    if (n <? 0)%Z then mret (false, s1)
    else
      s2 ← readyLoop (Z.to_nat n) 0 (it_events it) s1;
      s3 ← endBatch (it_conns it) (it_channels it) s2;
      mret (true, s3).

(** The turns there is an [Iteration] for: whether the loop has ended, and the
    state. *)
Fixpoint mainLoop (its : list Iteration) (s : Server) : result (bool * Server) :=
  match its with
  | [] => mret (false, s)
  | it :: its' =>
      '(more, s') ← iteration it s;
      if more : bool then mainLoop its' s' else mret (true, s')
  end.

(** ** The end *)

(** [for (auto& [cfd, cptr] : connections) eventLoop.removeFd(cfd);] *)
Fixpoint unregister (cs : list (Z * addr)) (l : EventLoop.EventLoop) : EventLoop.EventLoop :=
  match cs with
  | [] => l
  | (cfd, _) :: cs' => unregister cs' (EventLoop.removeFd cfd l)
  end.

(** [connections.clear()]: the destructors of the connections. *)
Fixpoint destroyAll (cs : list (Z * addr)) (h : Hub) (f : Fds) : result Fds :=
  match cs with
  | [] => mret f
  | (_, a) :: cs' =>
      c ← load h a;
      f' ← Connection.destroy c f;
      destroyAll cs' h f'
  end.

(** The end of [main]: the connections are closed, then the log, the event loop and
    the listener are destroyed; [iter] is the traversal of the connection map. *)
Definition shutdown (iter : gmap Z addr → list (Z * addr)) (s : Server) : result (Disk * Fds) :=
  let l := unregister (iter (connections s)) (loop s) in
  f1 ← destroyAll (iter (connections s)) (hub s) (fds s);
  '(d, f2) ← AOFWriter.destroy (aof s) (disk s) f1;
  f3 ← EventLoop.destroy l f2;
  f4 ← Listener.destroy (listener s) f3;
  mret (d, f4).

(** How the program ends, or the state it is in. *)
Inductive Outcome :=
| Uncaught (what : bytes) (f : Fds)
| Serving (s : Server)
| Exited (code : Z) (d : Disk) (f : Fds).

(** With the limit on descriptors it runs under. *)
Definition main (w : StartWorld) (its : list Iteration) (iter : gmap Z addr → list (Z * addr))
    : result (rlimit * Outcome) :=
  let limit := raiseLimit (sw_permits w) (sw_limit w) in
  r ← startup w;
  match r with
  | inl (what, f) => mret (limit, Uncaught what f)
  | inr s =>
      '(ended, s') ← mainLoop its s;
      if ended : bool then
        '(d, f) ← shutdown iter s';
        mret (limit, Exited 0 d f)
      else mret (limit, Serving s')
  end.

End Main.
