(* ===== verification/ServerSafety.v ===== *)
(** * The server never leaves its invariant

    The state machine of [Server] and what holds in every state it can reach,
    whatever bytes the clients send and whatever the kernel answers within its
    contract: the database invariants, the agreement between registry and
    connections, the ownership of connections, and transaction queues that EXEC
    can run.  Nothing but the uncaught exception of a number conversion can stop
    it. *)
From Stdlib Require Import Ascii String ZArith Lia ZifyNat ZifyBool.
From stdpp Require Import base option list strings gmap.
From S2P Require Import Prelude CStdlib CPosix NetBuffer ProtoSerializer ProtoParser NetConnection NetListener.
From S2P Require Import NetEventLoop StoreObject.
From S2P Require Import StoreInterfaces StoreDatabase CmdBase CmdTable CmdPubSub CmdInfo PersistAOF.
From S2P Require Import CmdKey CmdList PersistRewrite Server Main.
Import Connection PubSubRegistry Server Main.

Module ServerSafety.

(** ** Invariant *)

(** EXEC, DISCARD and MULTI are never queued. *)
Definition queueable (cmd : list bytes) : Prop :=
  match cmd with [] => False | arg0 :: _ => transactional (to_upper arg0) = false end.

Record conn_ok (c : Connection) : Prop := {
  co_in : Buffer.wf (in_ c);
  co_fits : RespParser.fits_int (Buffer.readable (in_ c));
  co_out : out_ok c;
  co_queue t : txn c = Some t → Forall queueable (queuedCommands t)
}.

(** The descriptors that are not clients: listener, epoll, log. *)
Definition base_fds (s : Server) : list Z :=
  Listener.fd_ (listener s) :: EventLoop.epollFd_ (loop s) :: AOFWriter.log_fds (aof s).

(** The open descriptors are exactly those the program still has a use for, each
    with one owner, and only the listener and clients are registered with epoll. *)
Record fds_ok (s : Server) : Prop := {
  fo_base : NoDup (base_fds s);
  fo_pos : Forall (λ fd, 0 ≤ fd)%Z (base_fds s);
  fo_conn fd : is_Some (connections s !! fd) → (0 ≤ fd)%Z ∧ fd ∉ base_fds s;
  fo_all : fds s = list_to_set (base_fds s) ∪ dom (connections s);
  fo_epoll : dom (epoll s) ⊆ {[Listener.fd_ (listener s)]} ∪ dom (connections s)
}.

Record server_ok (s : Server) : Prop := {
  sv_db : Database.wf (db s);
  sv_ks : keyspace_ok (Database.view (db s));
  sv_hub : hub_ok (hub s);
  sv_conns : map_Forall (λ _ c, conn_ok c) (conns (hub s));
  sv_metrics : ServerMetrics.metrics_ok (metrics s);
  sv_owned (a : addr) c : conns (hub s) !! a = Some c → connections s !! fd_ c = Some a;
  sv_map fd (a : addr) : connections s !! fd = Some a → ∃ c, conns (hub s) !! a = Some c ∧ fd_ c = fd;
  sv_fresh (a : addr) c : conns (hub s) !! a = Some c → a < next_addr s;
  sv_child : AOFRewrite.child_ok (child s);
  sv_epoll fd : is_Some (connections s !! fd) → is_Some (epoll s !! fd);
  sv_fds : fds_ok s
}.

(** The registrations may change for descriptors that are registered. *)
Lemma fds_ok_ext s s' :
  fds_ok s → fds s' = fds s → base_fds s' = base_fds s → connections s' = connections s →
  (∀ fd, is_Some (epoll s' !! fd) → is_Some (epoll s !! fd)) → fds_ok s'.
Proof.
  intros [H1 H2 H3 H4 H5] Hf Hb Hc He. split; rewrite ?Hf, ?Hb, ?Hc; try done.
  injection Hb as -> _. intros fd Hfd. apply H5. rewrite elem_of_dom in *. by apply He.
Qed.

(** What the outside promises during one command. *)
Record world_ok (w : World) : Prop := {
  w_env n : env_ok (envs w n);
  w_writes n buf : AOFWriter.ends (writes w n buf) (length buf) = true;
  w_order n s : order w n s ≡ₚ elements s
}.

(** *** What commands do not change *)

(** The same connections, with the same descriptors and input. *)
Definition same_conns (h h' : Hub) : Prop :=
  ∀ a : addr, match conns h !! a, conns h' !! a with
       | Some c, Some c' => in_ c' = in_ c ∧ fd_ c' = fd_ c
       | None, None => True
       | _, _ => False
       end.

Record steady (s s' : Server) : Prop := {
  st_conns : same_conns (hub s) (hub s');
  st_map : connections s' = connections s;
  st_next : next_addr s' = next_addr s;
  st_loop : loop s' = loop s;
  st_fds : fds s' = fds s;
  st_base : base_fds s' = base_fds s
}.

Lemma same_conns_refl h : same_conns h h.
Proof. intros a. by destruct (conns h !! a). Qed.

Lemma same_conns_trans h1 h2 h3 : same_conns h1 h2 → same_conns h2 h3 → same_conns h1 h3.
Proof.
  intros H1 H2 a. specialize (H1 a). specialize (H2 a).
  destruct (conns h1 !! a), (conns h2 !! a), (conns h3 !! a); try done. intuition congruence.
Qed.

Lemma same_conns_store h a c c' :
  conns h !! a = Some c → in_ c' = in_ c → fd_ c' = fd_ c → same_conns h (store h a c').
Proof.
  intros Ha Hin Hfd b. cbn. destruct (decide (b = a)) as [->|Hne].
  - by rewrite Ha, lookup_insert_eq.
  - rewrite lookup_insert_ne by done. by destruct (conns h !! b).
Qed.

Lemma steady_refl s : steady s s.
Proof. split; [apply same_conns_refl|done..]. Qed.

Lemma steady_trans s1 s2 s3 : steady s1 s2 → steady s2 s3 → steady s1 s3.
Proof.
  intros [H1 H2 H3 H4 H5 H6] [H7 H8 H9 H10 H11 H12]. split; [by eapply same_conns_trans|congruence..].
Qed.

Lemma steady_conn s s' a c :
  steady s s' → conns (hub s) !! a = Some c →
  ∃ c', conns (hub s') !! a = Some c' ∧ in_ c' = in_ c ∧ fd_ c' = fd_ c.
Proof.
  intros [Hc _ _ _ _ _] Ha. specialize (Hc a). rewrite Ha in Hc. destruct (conns (hub s') !! a) as [c'|]; [|done]. eauto.
Qed.

(** The ownership part of the invariant is kept by every steady change. *)
Lemma steady_ok s s' :
  server_ok s → steady s s' → Database.wf (db s') → keyspace_ok (Database.view (db s')) → hub_ok (hub s') →
  map_Forall (λ _ c, conn_ok c) (conns (hub s')) → ServerMetrics.metrics_ok (metrics s') → AOFRewrite.child_ok (child s') → server_ok s'.
Proof.
  intros Hs [Hc Hm Hn Hlp Hfs Hbs] Hdb Hks Hhub Hconns Hmet Hch. split; try done.
  - intros a c' Ha. specialize (Hc a). rewrite Ha in Hc. destruct (conns (hub s) !! a) as [c|] eqn:Hac; [|done].
    destruct Hc as [_ ->]. rewrite Hm. by apply (sv_owned s Hs).
  - intros fd a Hfd. rewrite Hm in Hfd. destruct (sv_map s Hs fd a Hfd) as (c & Hac & Hf). specialize (Hc a).
    rewrite Hac in Hc. destruct (conns (hub s') !! a) as [c'|]; [|done]. exists c'. split; [done|]. destruct Hc. congruence.
  - intros a c' Ha. specialize (Hc a). rewrite Ha in Hc. rewrite Hn. destruct (conns (hub s) !! a) as [c|] eqn:Hac; [|done].
    by apply (sv_fresh s Hs a c).
  - intros fd. rewrite Hm. unfold epoll. rewrite Hlp. apply (sv_epoll s Hs).
  - by apply (fds_ok_ext s); [apply Hs|..|intros fd; unfold epoll; rewrite Hlp].
Qed.

(** The transaction state of the connection at [a]. *)
Definition txn_at (s : Server) (a : addr) : option TransactionState := conns (hub s) !! a ≫= txn.

(** [s'] is a good state after a command of the connection at [a]; its queue is
    the same when [keep] holds. *)
Definition good (keep : bool) (a : addr) (s s' : Server) : Prop :=
  server_ok s' ∧ steady s s' ∧ (keep = true → txn_at s' a = txn_at s a).

Lemma good_refl keep a s : server_ok s → good keep a s s.
Proof. intros Hs. split; [done|]. split; [apply steady_refl|done]. Qed.

Lemma good_trans keep a s1 s2 s3 : good keep a s1 s2 → good keep a s2 s3 → good keep a s1 s3.
Proof.
  intros (H1 & H2 & H3) (H4 & H5 & H6). split; [done|]. split; [by eapply steady_trans|].
  intros Hk. rewrite H6, H3; done.
Qed.

Lemma good_weaken a s s' : good true a s s' → ∀ keep, good keep a s s'.
Proof. intros (H1 & H2 & H3) keep. split; [done|]. split; [done|]. auto. Qed.

(** *** One connection at a time *)

(** [c'] can replace [c] in a good state. *)
Record replaces (c c' : Connection) : Prop := {
  rp_in : in_ c' = in_ c;
  rp_fd : fd_ c' = fd_ c;
  rp_out : out_ok c';
  rp_subs : subscribedChannels c' = subscribedChannels c;
  rp_queue t : txn c' = Some t → Forall queueable (queuedCommands t)
}.

Lemma replaces_conn_ok c c' : conn_ok c → replaces c c' → conn_ok c'.
Proof. intros [H1 H2 H3 H4] [H5 H6 H7 H8 H9]. split; rewrite ?H5; done. Qed.

Lemma store_good keep a s c c' :
  server_ok s → conns (hub s) !! a = Some c → replaces c c' → (keep = true → txn c' = txn c) →
  good keep a s (set_hub (store (hub s) a c') s).
Proof.
  intros Hs Ha Hr Ht. assert (Hst : steady s (set_hub (store (hub s) a c') s)).
  { split; [|done..]. by apply (same_conns_store _ _ c); [|apply Hr|apply Hr]. }
  split; [|split; [done|]].
  - apply (steady_ok s); [done|done|apply Hs|apply Hs| | |apply Hs|apply Hs].
    + apply (store_ok _ _ c); [apply Hs|done|apply Hr|apply Hr].
    + apply map_Forall_insert_2; [|apply Hs]. apply (replaces_conn_ok c); [by apply (sv_conns s Hs a)|done].
  - intros Hk. unfold txn_at. cbn [hub set_hub store conns]. rewrite lookup_insert_eq, Ha. cbn. by apply Ht.
Qed.

Lemma appended_replaces c s c' : conn_ok c → appended c s c' → replaces c c'.
Proof. intros [_ _ _ Hq] (H1 & H2 & H3). rewrite H1 in H2 |- *. split; done. Qed.

Lemma appended_txn c s c' : appended c s c' → txn c' = txn c.
Proof. by intros [-> _]. Qed.

Lemma onConn_ok keep a f s c (Q : Connection → Prop) :
  server_ok s → conns (hub s) !! a = Some c →
  f c ⇓ (λ c', replaces c c' ∧ (keep = true → txn c' = txn c) ∧ Q c') →
  onConn a f s ⇓ λ s', good keep a s s' ∧ ∃ c', conns (hub s') !! a = Some c' ∧ Q c'.
Proof.
  intros Hs Ha Hf. unfold onConn. rewrite (load_bind _ _ _ _ Ha).
  eapply returns_bind; [exact Hf|]. intros c' (Hr & Ht & HQ). apply returns_ok.
  split; [by apply (store_good _ _ _ c)|]. exists c'. cbn. by rewrite lookup_insert_eq.
Qed.

(** A reply to the connection at [a]. *)
Lemma onConn_reply keep a f s c str :
  server_ok s → conns (hub s) !! a = Some c → f c ⇓ appended c str → onConn a f s ⇓ good keep a s.
Proof.
  intros Hs Ha Hf. eapply returns_mono; [apply (onConn_ok keep a f s c (λ _, True)); [done|done|]|by intros s' [? _]].
  eapply returns_mono; [exact Hf|]. intros c' Hc'. split; [|split; [|done]].
  - eapply appended_replaces; [by apply (sv_conns s Hs a)|exact Hc'].
  - intros _. by eapply appended_txn.
Qed.

(** *** The handlers *)

Lemma set_db_good keep a s s1 d :
  good keep a s s1 → Database.wf d → keyspace_ok (Database.view d) → good keep a s (set_db d s1).
Proof.
  intros (Hs & [H1 H2 H3 H4 H5 H6] & Ht) Hw Hk. split; [|split; [by split|done]].
  apply (steady_ok s1); [done| |done|done|apply Hs..]. split; [apply same_conns_refl|done..].
Qed.

Lemma answered_replaces nm c r c' :
  conn_ok c → CommandTable.answered c r c' → CommandTable.txn_kept nm c c' → replaces c c'.
Proof.
  intros [_ _ _ Hq] (H1 & _ & H3) Ht. rewrite H3 in *. split; try done. cbn. intros t Heq.
  destruct Ht as [Ht|[_ [Ht|Ht]]]; cbn in Ht; rewrite Ht in Heq; [by apply Hq|done|by simplify_eq].
Qed.

Lemma callPlain_ok nm entry w n a args s c :
  server_ok s → conns (hub s) !! a = Some c → world_ok w →
  CommandTable.core_table !! nm = Some entry → CommandTable.arity_ok (CommandTable.arity entry) args = true →
  callPlain (CommandTable.run entry) (envs w n) a args s ⇓? good (negb (transactional nm)) a s.
Proof.
  intros Hs Ha Hw Hn Har. unfold callPlain. rewrite (load_bind _ _ _ _ Ha).
  pose proof (sv_conns s Hs a c Ha) as Hc.
  pose proof (CommandTable.core_table_ok nm entry Hn (envs w n) (db s) c args (w_env w Hw n)
    (sv_db s Hs) (sv_ks s Hs) (co_out c Hc) Har) as [_ Hrun].
  eapply survives_bind; [exact Hrun|]. intros [db' c'] (Hw' & Hk' & [r Hr] & Ht & _). cbn [survives].
  apply set_db_good; [|done|done]. apply (store_good _ _ _ c); [done|done|by eapply answered_replaces|].
  intros Hneg. destruct Ht as [Ht|[[-> | ->] _]]; [done|vm_compute in Hneg; discriminate Hneg..].
Qed.

(** A change of the hub that leaves inputs, descriptors and queues alone. *)
Definition quiet (h h' : Hub) : Prop :=
  ∀ a : addr, match conns h !! a, conns h' !! a with
              | Some c, Some c' => in_ c' = in_ c ∧ fd_ c' = fd_ c ∧ txn c' = txn c
              | None, None => True
              | _, _ => False
              end.

Lemma quiet_insert h h' a c c' :
  conns h !! a = Some c → conns h' = <[a := c']> (conns h) →
  in_ c' = in_ c → fd_ c' = fd_ c → txn c' = txn c → quiet h h'.
Proof.
  intros Ha Hh Hin Hfd Ht b. rewrite Hh. destruct (decide (b = a)) as [->|Hne].
  - by rewrite Ha, lookup_insert_eq.
  - rewrite lookup_insert_ne by done. by destruct (conns h !! b).
Qed.

Lemma set_hub_good s h a : server_ok s → hub_ok h → quiet (hub s) h → good true a s (set_hub h s).
Proof.
  intros Hs Hh Hq. assert (Hst : steady s (set_hub h s)).
  { split; [|done..]. intros b. specialize (Hq b). cbn. destruct (conns (hub s) !! b), (conns h !! b); tauto. }
  split; [|split; [done|]].
  - apply (steady_ok s); [done|done|apply Hs|apply Hs|done| |apply Hs|apply Hs]. intros b c' Hb. cbn in Hb.
    specialize (Hq b). rewrite Hb in Hq. destruct (conns (hub s) !! b) as [c|] eqn:Hc; [|done].
    destruct Hq as (Hin & _ & Ht), (sv_conns s Hs b c Hc) as [H1 H2 _ H4].
    split; [by rewrite Hin|by rewrite Hin|by apply (hub_out h Hh b)|by rewrite Ht].
  - intros _. unfold txn_at. cbn. specialize (Hq a). destruct (conns (hub s) !! a), (conns h !! a); try done.
    cbn. tauto.
Qed.

Lemma replySubscription_ok kind ch n c :
  out_ok c → replySubscription kind ch n c ⇓ appended c (encode (RArray [RBulk kind; RBulk ch; RInt n])).
Proof.
  intros Hc. unfold replySubscription. run_with replyHeader_ok; [done|]. intros c1 H1.
  run_with replyBulk_ok; [apply H1|]. intros c2 H2. run_with replyBulk_ok; [apply H2|]. intros c3 H3.
  eapply returns_mono; [apply replyInteger_ok, H3|]. intros c4 H4. unfold replied in *.
  cbn [encode fmap list_fmap mjoin list_join length]. rewrite app_nil_r.
  eapply appended_trans; [exact H1|]. eapply appended_trans; [exact H2|]. by eapply appended_trans.
Qed.

(** One step of the two subscription loops. *)
Lemma subscription_step kind a h n ch s c c' :
  server_ok s → conns (hub s) !! a = Some c → hub_ok h → conns h = <[a := c']> (conns (hub s)) →
  in_ c' = in_ c → fd_ c' = fd_ c → txn c' = txn c →
  onConn a (replySubscription kind ch n) (set_hub h s) ⇓ λ s', good true a s s' ∧ is_Some (conns (hub s') !! a).
Proof.
  intros Hs Ha Hh Hconns Hin Hfd Ht.
  assert (Hg : good true a s (set_hub h s)) by (apply set_hub_good; [done|done|by apply (quiet_insert _ _ a c c')]).
  pose proof (proj1 Hg) as Hs1.
  assert (Ha1 : conns (hub (set_hub h s)) !! a = Some c') by (cbn; by rewrite Hconns, lookup_insert_eq).
  pose proof (sv_conns _ Hs1 a c' Ha1) as Hc'.
  eapply returns_mono; [apply (onConn_ok true a _ _ c' (λ _, True) Hs1 Ha1)|].
  - eapply returns_mono; [apply replySubscription_ok, Hc'|]. intros c2 H2. split; [|split; [|done]].
    + by eapply appended_replaces.
    + intros _. by eapply appended_txn.
  - intros s' [Hg' (c2 & Hc2 & _)]. split; [by eapply good_trans|eauto].
Qed.

Lemma subscribe_loop_ok a chs s :
  server_ok s → is_Some (conns (hub s) !! a) → subscribe_loop a chs s ⇓ good true a s.
Proof.
  revert s. induction chs as [|ch chs IH]; intros s Hs [c Ha]; cbn [subscribe_loop]; [by apply returns_ok, good_refl|].
  run_with subscribe_ok; [apply Hs|exact Ha|]. intros [n h] (Hh & _ & Hconns).
  eapply returns_bind; [eapply (subscription_step _ a h n ch s c _ Hs Ha Hh Hconns); done|].
  intros s' [Hg Ha']. eapply returns_mono; [apply IH; [apply Hg|done]|]. intros s2. by apply good_trans.
Qed.

Lemma unsubscribe_loop_ok a chs s :
  server_ok s → is_Some (conns (hub s) !! a) → unsubscribe_loop a chs s ⇓ good true a s.
Proof.
  revert s. induction chs as [|ch chs IH]; intros s Hs [c Ha]; cbn [unsubscribe_loop]; [by apply returns_ok, good_refl|].
  run_with unsubscribe_ok; [apply Hs|exact Ha|]. intros [n h] (Hh & _ & Hconns).
  eapply returns_bind; [eapply (subscription_step _ a h n ch s c _ Hs Ha Hh Hconns); done|].
  intros s' [Hg Ha']. eapply returns_mono; [apply IH; [apply Hg|done]|]. intros s2. by apply good_trans.
Qed.

Lemma cmdUnsubscribe_ok e a args s c :
  server_ok s → conns (hub s) !! a = Some c → cmdUnsubscribe e a args s ⇓ good true a s.
Proof.
  intros Hs Ha. unfold cmdUnsubscribe. case_bool_decide; [|apply unsubscribe_loop_ok; eauto].
  rewrite (load_bind _ _ _ _ Ha). case_bool_decide; [|apply unsubscribe_loop_ok; eauto].
  eapply onConn_reply; [done|exact Ha|]. pose proof (co_out c (sv_conns s Hs a c Ha)) as Hc.
  run_with replyHeader_ok; [done|]. intros c1 H1. run_with replyBulk_ok; [apply H1|]. intros c2 H2.
  run_with replyNull_ok; [apply H2|]. intros c3 H3. eapply returns_mono; [apply replyInteger_ok, H3|].
  intros c4 H4. eapply appended_trans; [exact H1|]. eapply appended_trans; [exact H2|]. by eapply appended_trans.
Qed.

Lemma pushed_quiet ch msg c c' : pushed ch msg c c' → in_ c' = in_ c ∧ fd_ c' = fd_ c ∧ txn c' = txn c.
Proof. intros (c1 & [-> _] & ->). done. Qed.

Lemma cmdPublish_ok ord a args s c :
  server_ok s → conns (hub s) !! a = Some c → (∀ x, ord x ≡ₚ elements x) → length args = 3 →
  cmdPublish ord a args s ⇓ good true a s.
Proof.
  intros Hs Ha Hord Hlen. unfold cmdPublish. rewrite !vec_get_arg by lia. cbn [mbind result_bind].
  run_with publish_ok; [done|apply Hs|]. intros [n h] (Hh & _ & _ & Heach).
  assert (Hq : quiet (hub s) h).
  { intros b. specialize (Heach b). destruct (conns (hub s) !! b), (conns h !! b); try done.
    destruct (decide _); [by eapply pushed_quiet|by subst]. }
  pose proof (set_hub_good s h a Hs Hh Hq) as Hg. specialize (Hq a). rewrite Ha in Hq.
  destruct (conns h !! a) as [c'|] eqn:Hc'; [|done].
  eapply returns_mono; [eapply (onConn_reply true a); [apply Hg|exact Hc'|apply replyInteger_ok]|].
  - by apply (hub_out h Hh a).
  - intros s'. by apply good_trans.
Qed.

(** *** Dispatch *)

#[local] Opaque CommandTable.core_table.

Lemma server_table_cases nm entry :
  server_table !! nm = Some entry →
  match CommandTable.run entry with
  | Plain _ => ∃ x, CommandTable.core_table !! nm = Some x ∧ entry = liftEntry x
  | Exec => nm = lit "EXEC"
  | Publish => nm = lit "PUBLISH" ∧ CommandTable.arity entry = 3%Z
  | Info => nm = lit "INFO"
  | Rewrite => nm = lit "BGREWRITEAOF"
  | Subscribe => nm = lit "SUBSCRIBE"
  | Unsubscribe => nm = lit "UNSUBSCRIBE"
  end.
Proof.
  unfold server_table, main_commands. cbn [foldl]. unfold CommandTable.registerCommand.
  cbn [CommandTable.name CommandTable.arity CommandTable.isWrite CommandTable.run].
  intros [[<- <-]|[_ H]]%lookup_insert_Some; [by split|].
  apply lookup_insert_Some in H as [[<- <-]|[_ H]]; [done|].
  apply lookup_insert_Some in H as [[<- <-]|[_ H]]; [done|].
  apply lookup_insert_Some in H as [[<- <-]|[_ H]]; [done|].
  apply lookup_insert_Some in H as [[<- <-]|[_ H]]; [done|].
  apply lookup_insert_Some in H as [[<- <-]|[_ H]]; [done|].
  apply lookup_fmap_Some in H as (x & <- & Hx). exists x. split; [exact Hx|reflexivity].
Qed.

#[local] Opaque server_table.

Lemma set_log_good a s w' d' :
  server_ok s → AOFWriter.fd_ w' = AOFWriter.fd_ (aof s) → good true a s (set_log w' d' s).
Proof.
  intros Hs Hfd. assert (Hst : steady s (set_log w' d' s)).
  { split; [apply same_conns_refl|done..|]. unfold base_fds. cbn. by rewrite (AOFWriter.log_fds_eq _ _ Hfd). }
  split; [|split; [done|done]]. apply (steady_ok s); [done|done|apply Hs..].
Qed.

Lemma logCommand_ok a w n cmd s :
  server_ok s → world_ok w → cmd ≠ [] → logCommand (writes w n) cmd s ⇓ good true a s.
Proof.
  intros Hs Hw Hne. unfold logCommand. destruct cmd as [|arg0 rest]; [done|].
  rewrite (vec_get_ok _ _ arg0) by done. cbn [mbind result_bind].
  destruct (_ && _); [|by apply returns_ok, good_refl].
  run_with AOFWriter.log_ends; [apply Hw|]. intros [[calls w'] d'] Hfd. by apply returns_ok, set_log_good.
Qed.

Lemma exec_loop_ok run w a queued i rest s :
  (∀ i qcmd s, server_ok s → is_Some (conns (hub s) !! a) → queueable qcmd → run i qcmd s ⇓? good true a s) →
  world_ok w → server_ok s → txn_at s a = Some (mkTxn queued) → Forall queueable rest →
  exec_loop run (writes w) a queued i rest s ⇓? good true a s.
Proof.
  intros Hrun Hw. revert i s. induction rest as [|qcmd rest IH]; intros i s Hs Ht Hall; cbn [exec_loop].
  { by apply good_refl. }
  apply Forall_cons in Hall as [Hq Hall]. unfold txn_at in Ht.
  destruct (conns (hub s) !! a) as [c|] eqn:Ha; [|done]. cbn in Ht.
  rewrite (load_bind _ _ _ _ Ha). rewrite Ht. rewrite bool_decide_true by done.
  try_with Hrun; [done|by rewrite Ha|done|]. intros s1 Hg1.
  go_with (logCommand_ok a); [apply Hg1|done|by intros ->|]. intros s2 Hg2.
  pose proof (good_trans _ _ _ _ _ Hg1 Hg2) as Hg.
  eapply survives_mono; [apply IH; [apply Hg2| |done]|].
  - destruct Hg as (_ & _ & ->); [|done]. unfold txn_at. by rewrite Ha.
  - intros s3. by apply good_trans.
Qed.

Lemma cmdExec_ok run w a s c :
  (∀ i qcmd s, server_ok s → is_Some (conns (hub s) !! a) → queueable qcmd → run i qcmd s ⇓? good true a s) →
  world_ok w → server_ok s → conns (hub s) !! a = Some c → cmdExec run w a s ⇓? good false a s.
Proof.
  intros Hrun Hw Hs Ha. unfold cmdExec. rewrite (load_bind _ _ _ _ Ha).
  pose proof (sv_conns s Hs a c Ha) as Hc. destruct (txn c) as [[queued]|] eqn:Ht.
  - go_with (onConn_reply true a); [done|exact Ha|apply replyHeader_ok, Hc|]. intros s1 Hg1.
    try_with (exec_loop_ok run w a queued); [done|done|apply Hg1| |by apply (co_queue c Hc _ Ht)|].
    { destruct Hg1 as (_ & _ & ->); [|done]. unfold txn_at. by rewrite Ha. }
    intros s2 Hg2. pose proof (good_trans _ _ _ _ _ Hg1 Hg2) as Hg. pose proof Hg as (Hs2 & Hst & _).
    destruct (steady_conn _ _ _ _ Hst Ha) as (c2 & Ha2 & _). pose proof (sv_conns _ Hs2 a c2 Ha2) as Hc2.
    eapply returns_survives; [apply (onConn_ok false a _ s2 c2 (λ _, True)); [done|done|]|].
    + apply returns_ok. split; [|split; [done|done]]. split; try done; apply Hc2.
    + intros s3 [Hg3 _]. apply (good_trans false a s s2); [by apply good_weaken|done].
  - eapply returns_survives; [eapply (onConn_reply false a); [done|exact Ha|apply replyError_ok, Hc]|done].
Qed.

Lemma callInfo_ok w a args s c :
  server_ok s → conns (hub s) !! a = Some c → callInfo w a args s ⇓ good true a s.
Proof.
  intros Hs Ha. pose proof (sv_conns s Hs a c Ha) as Hc.
  eapply returns_mono; [apply (onConn_ok true a _ s c (λ _, True)); [done|done|]|by intros s' [? _]].
  eapply returns_mono; [apply ServerMetrics.cmdInfo_ok; [apply Hs|apply Hc]|]. intros c' [text Hr].
  split; [by eapply appended_replaces|]. split; [|done]. intros _. by eapply appended_txn.
Qed.

Lemma set_rewrite_good a w d ch s :
  server_ok s → AOFRewrite.child_ok ch → AOFWriter.fd_ w = AOFWriter.fd_ (aof s) → good true a s (set_rewrite w d ch s).
Proof.
  intros Hs Hch Hfd. assert (Hst : steady s (set_rewrite w d ch s)).
  { split; [apply same_conns_refl|done..|]. unfold base_fds. cbn. by rewrite (AOFWriter.log_fds_eq _ _ Hfd). }
  split; [|split; [done|done]]. apply (steady_ok s); [done|done|apply Hs..|done].
Qed.

Lemma triggerRewrite_fd pid w d ch : AOFWriter.fd_ (AOFRewrite.triggerRewrite pid w d ch).1 = AOFWriter.fd_ w.
Proof. unfold AOFRewrite.triggerRewrite. by destruct (AOFWriter.isRewriting_ w), (pid <? 0)%Z. Qed.

Lemma triggerRewrite_child pid w d ch :
  AOFRewrite.child_ok ch → Database.wf d → keyspace_ok (Database.view d) →
  AOFRewrite.child_ok (AOFRewrite.triggerRewrite pid w d ch).2.
Proof.
  intros Hch Hwf Hks. unfold AOFRewrite.triggerRewrite.
  destruct (AOFWriter.isRewriting_ w), (pid <? 0)%Z; try exact Hch. by intros ? [= <-].
Qed.

Lemma callRewrite_ok pid a s c :
  server_ok s → conns (hub s) !! a = Some c → callRewrite pid a s ⇓ good true a s.
Proof.
  intros Hs Ha. unfold callRewrite.
  pose proof (triggerRewrite_child pid (aof s) (db s) (child s) (sv_child s Hs) (sv_db s Hs) (sv_ks s Hs)) as Hch.
  pose proof (triggerRewrite_fd pid (aof s) (db s) (child s)) as Hfd.
  destruct (AOFRewrite.triggerRewrite _ _ _ _) as [w' ch']. cbn [fst snd] in Hch, Hfd.
  pose proof (set_rewrite_good a w' (disk s) ch' s Hs Hch Hfd) as Hg.
  eapply returns_mono; [eapply (onConn_reply true a); [apply Hg|exact Ha|apply replySimple_ok, (sv_conns s Hs a c Ha)]|].
  intros s'. by apply good_trans.
Qed.

(** A registered handler called with enough arguments. *)
Lemma call_ok exec n w a args s c nm entry :
  server_ok s → world_ok w → conns (hub s) !! a = Some c →
  server_table !! nm = Some entry → CommandTable.arity_ok (CommandTable.arity entry) args = true →
  (nm = lit "EXEC" → exec s ⇓? good false a s) →
  call exec n w a args (CommandTable.run entry) s ⇓? good (negb (transactional nm)) a s.
Proof.
  intros Hs Hw Ha He Har Hexec. pose proof (server_table_cases _ _ He) as Hcase.
  destruct (CommandTable.run entry) as [h| | | | | |] eqn:Hr; cbn [call].
  - destruct Hcase as (x & Hx & ->). cbn in Hr. injection Hr as <-. by eapply callPlain_ok.
  - eapply returns_survives; [by eapply callInfo_ok|]. intros s' Hg. by apply good_weaken.
  - eapply returns_survives; [by eapply callRewrite_ok|]. intros s' Hg. by apply good_weaken.
  - rewrite Hcase. by apply Hexec.
  - eapply returns_survives; [apply subscribe_loop_ok; [done|by rewrite Ha]|]. intros s' Hg. by apply good_weaken.
  - eapply returns_survives; [by eapply cmdUnsubscribe_ok|]. intros s' Hg. by apply good_weaken.
  - destruct Hcase as [_ Har3]. rewrite Har3 in Har. apply CommandTable.arity_exact in Har; [|done].
    eapply returns_survives; [eapply cmdPublish_ok; [done|exact Ha|apply Hw|lia]|].
    intros s' Hg. by apply good_weaken.
Qed.

Lemma dispatch_ok depth n w a arg0 rest s :
  server_ok s → world_ok w → is_Some (conns (hub s) !! a) → (depth = 0 → to_upper arg0 ≠ lit "EXEC") →
  dispatch depth n w a (arg0 :: rest) s ⇓? good (negb (transactional (to_upper arg0))) a s.
Proof.
  revert n arg0 rest s. induction depth as [|depth IH]; intros n arg0 rest s Hs Hw [c Ha] Hd.
  all: assert (Herr : ∀ msg, onConn a (λ c, replyError c msg) s ⇓? good (negb (transactional (to_upper arg0))) a s)
    by (intros msg; eapply returns_survives; [eapply (onConn_reply true a); [done|exact Ha|]|
          intros s' Hg; by apply good_weaken]; apply replyError_ok, (sv_conns s Hs a c Ha)).
  all: cbn [dispatch]; unfold CommandTable.dispatch_with;
    destruct (server_table !! to_upper arg0) as [entry|] eqn:He; [|apply Herr];
    destruct (CommandTable.arity_ok _ _) eqn:Har; cbn [negb]; [|apply Herr];
    eapply call_ok; [exact Hs|exact Hw|exact Ha|exact He|exact Har|]; intros Hex.
  - destruct (Hd eq_refl Hex).
  - eapply cmdExec_ok; [|exact Hw|exact Hs|exact Ha]. intros i [|q0 qrest] s1 Hs1 Ha1 Hq; [destruct Hq|].
    unfold queueable in Hq.
    eapply survives_mono; [apply (IH (S i) q0 qrest s1); [exact Hs1|exact Hw|exact Ha1|]|].
    + intros _ Heq. rewrite Heq in Hq. vm_compute in Hq. discriminate Hq.
    + rewrite Hq. done.
Qed.

Lemma set_metrics_good a s m : server_ok s → ServerMetrics.metrics_ok m → good true a s (set_metrics m s).
Proof.
  intros Hs Hm. assert (Hst : steady s (set_metrics m s)) by (split; [apply same_conns_refl|done..]).
  split; [|split; [done|done]]. apply (steady_ok s); [done|done|apply Hs|apply Hs|apply Hs|apply Hs|done|apply Hs].
Qed.

Lemma execute_ok w a arg0 rest s :
  server_ok s → world_ok w → is_Some (conns (hub s) !! a) →
  execute w a (arg0 :: rest) (to_upper arg0) s ⇓? good false a s.
Proof.
  intros Hs Hw Ha. unfold execute. try_with dispatch_ok; [done|done|done|done|]. intros s1 (Hs1 & Hst1 & _).
  go_with ServerMetrics.record_metrics_ok; [apply Hs1|]. intros m Hm.
  pose proof (set_metrics_good a s1 m Hs1 Hm) as Hg2.
  assert (Hg : good false a s (set_metrics m s1)).
  { split; [apply Hg2|]. split; [by eapply steady_trans; [exact Hst1|apply Hg2]|done]. }
  destruct (negb _); [|exact Hg].
  eapply returns_survives; [apply (logCommand_ok a); [apply Hg2|done|done]|]. intros s3 Hg3.
  eapply good_trans; [exact Hg|by apply good_weaken].
Qed.

Lemma processCommand_ok w a cmd s :
  server_ok s → world_ok w → is_Some (conns (hub s) !! a) → processCommand w a cmd s ⇓? good false a s.
Proof.
  intros Hs Hw [c Ha]. unfold processCommand. destruct cmd as [|arg0 rest]; [by apply good_refl|].
  rewrite (load_bind _ _ _ _ Ha). pose proof (sv_conns s Hs a c Ha) as Hc.
  destruct (_ && _).
  { eapply returns_survives; [eapply (onConn_reply false a); [done|exact Ha|apply replyError_ok, Hc]|done]. }
  destruct (txn c) as [t|] eqn:Ht; [|apply execute_ok; [done|done|by rewrite Ha]].
  destruct (transactional (to_upper arg0)) eqn:Htr; cbn [negb]; [apply execute_ok; [done|done|by rewrite Ha]|].
  eapply returns_survives; [apply (onConn_ok false a _ s c (λ _, True)); [done|done|]|by intros s' [? _]].
  eapply returns_mono; [apply replySimple_ok, Hc|]. intros c' Hr. split; [|split; [done|done]].
  destruct Hr as (-> & Ho & _). split; try done. cbn. intros t' [= <-]. cbn.
  apply Forall_app. split; [by apply (co_queue c Hc)|]. by repeat constructor.
Qed.

(** *** The parse loop *)

(** The same connections with the same descriptors. *)
Record stable (s s' : Server) : Prop := {
  sb_conns (a : addr) : fd_ <$> conns (hub s') !! a = fd_ <$> conns (hub s) !! a;
  sb_map : connections s' = connections s
}.

Lemma steady_stable s s' : steady s s' → stable s s'.
Proof.
  intros [Hc Hm _ _ _ _]. split; [|done]. intros a. specialize (Hc a).
  destruct (conns (hub s) !! a), (conns (hub s') !! a); try done. cbn. f_equal. tauto.
Qed.

Lemma stable_refl s : stable s s.
Proof. by split. Qed.

Lemma stable_trans s1 s2 s3 : stable s1 s2 → stable s2 s3 → stable s1 s3.
Proof. intros [H1 H2] [H3 H4]. split; [intros a; by rewrite H3, H1|congruence]. Qed.

Lemma stable_conn s s' a : stable s s' → is_Some (conns (hub s) !! a) → is_Some (conns (hub s') !! a).
Proof.
  intros [Hc _] [c Ha]. specialize (Hc a). rewrite Ha in Hc. destruct (conns (hub s') !! a); [eauto|done].
Qed.

(** Replacing the connection at [a] by one with other input and flags. *)
Lemma store_stable a s c c' :
  server_ok s → conns (hub s) !! a = Some c → conn_ok c' → fd_ c' = fd_ c →
  subscribedChannels c' = subscribedChannels c →
  server_ok (set_hub (store (hub s) a c') s) ∧ stable s (set_hub (store (hub s) a c') s).
Proof.
  intros Hs Ha Hc' Hfd Hsub.
  assert (Hfds : ∀ b : addr, fd_ <$> (<[a := c']> (conns (hub s)) !! b) = fd_ <$> (conns (hub s) !! b)).
  { intros b. destruct (decide (b = a)) as [->|Hne]; [rewrite lookup_insert_eq, Ha; cbn; congruence|].
    by rewrite lookup_insert_ne. }
  split; [|by split]. split; cbn; try apply Hs.
  - apply (store_ok _ _ c); [apply Hs|done|apply Hc'|done].
  - apply map_Forall_insert_2; [done|apply Hs].
  - intros b d Hb. specialize (Hfds b). rewrite Hb in Hfds.
    destruct (conns (hub s) !! b) as [d0|] eqn:Hd0; [|done]. cbn in Hfds. injection Hfds as ->.
    by apply (sv_owned s Hs).
  - intros fd b Hb. destruct (sv_map s Hs fd b Hb) as (d & Hd & <-). specialize (Hfds b). rewrite Hd in Hfds.
    destruct (<[a := c']> (conns (hub s)) !! b) as [d'|]; [|done]. exists d'. split; [done|]. by injection Hfds.
  - intros b d Hb. specialize (Hfds b). rewrite Hb in Hfds.
    destruct (conns (hub s) !! b) as [d0|] eqn:Hd0; [|done]. by apply (sv_fresh s Hs b d0).
  - by apply (fds_ok_ext s); [apply Hs|..].
Qed.

Lemma set_in_ok c b :
  conn_ok c → Buffer.wf b → RespParser.fits_int (Buffer.readable b) → conn_ok (set_in b c).
Proof. intros [_ _ H3 H4] Hb Hf. by split. Qed.

Lemma drain_ok fuel ws a s c :
  server_ok s → (∀ k, world_ok (ws k)) → conns (hub s) !! a = Some c →
  length (Buffer.readable (in_ c)) < fuel → drain fuel ws a s ⇓?? λ s', server_ok s' ∧ stable s s'.
Proof.
  revert ws s c. induction fuel as [|fuel IH]; intros ws s c Hs Hws Ha Hlen; [lia|]. cbn [drain].
  rewrite (load_bind _ _ _ _ Ha). pose proof (sv_conns s Hs a c Ha) as Hc.
  try_with RespParser.parse_survives; [apply Hc|apply Hc|]. intros [r b] [Hb Hr]. cbv zeta.
  destruct r as [args|].
  - destruct Hr as (frame & Hne & Hread).
    assert (Hshort : length (Buffer.readable b) < length (Buffer.readable (in_ c))).
    { rewrite Hread, length_app. destruct frame; [done|]. simpl. lia. }
    assert (Hcb : conn_ok (set_in b c)).
    { apply set_in_ok; [done|done|]. pose proof (co_fits c Hc). unfold RespParser.fits_int in *. lia. }
    destruct (store_stable a s c (set_in b c) Hs Ha Hcb eq_refl eq_refl) as [Hs1 Hst1].
    assert (Ha1 : conns (hub (set_hub (store (hub s) a (set_in b c)) s)) !! a = Some (set_in b c))
      by (cbn; by rewrite lookup_insert_eq).
    pass_with processCommand_ok; [exact Hs1|apply Hws|by rewrite Ha1|]. intros s2 (Hs2 & Hst2 & _).
    destruct (steady_conn _ _ _ _ Hst2 Ha1) as (c2 & Ha2 & Hin2 & _).
    eapply survives_mono; [apply (IH (λ k, ws (S k)) s2 c2); [done|done|done|rewrite Hin2; cbn; lia]|].
    intros s3 [Hs3 Hst3]. split; [done|]. eapply stable_trans; [exact Hst1|].
    eapply stable_trans; [by apply steady_stable|done].
  - cbn. apply (store_stable a s c); [done|done| |done|done]. apply set_in_ok; [done|done|]. subst b. apply Hc.
Qed.

Lemma drainInput_ok ws a s c :
  server_ok s → (∀ k, world_ok (ws k)) → conns (hub s) !! a = Some c →
  drainInput ws a s ⇓?? λ s', server_ok s' ∧ stable s s'.
Proof.
  intros Hs Hws Ha. unfold drainInput. rewrite (load_bind _ _ _ _ Ha).
  apply (drain_ok _ ws a s c); [done..|].
  rewrite (Buffer.readableBytes_length _ (Buffer.readable (in_ c))); [lia|].
  by split; [apply (sv_conns s Hs a c Ha)|].
Qed.

(** *** The steps of the event loop *)

#[local] Opaque drain.

Lemma onConn_stable a f s c :
  server_ok s → conns (hub s) !! a = Some c →
  f c ⇓ (λ c', conn_ok c' ∧ fd_ c' = fd_ c ∧ subscribedChannels c' = subscribedChannels c) →
  onConn a f s ⇓ λ s', server_ok s' ∧ stable s s'.
Proof.
  intros Hs Ha Hf. unfold onConn. rewrite (load_bind _ _ _ _ Ha).
  eapply returns_bind; [exact Hf|]. intros c' (Hc' & Hfd & Hsub). by apply returns_ok, (store_stable a s c).
Qed.

(** The flags do not matter to the invariant. *)
Lemma flags_ok c c' :
  conn_ok c → in_ c' = in_ c → out_ c' = out_ c → txn c' = txn c → conn_ok c'.
Proof. intros [H1 H2 H3 H4] Hi Ho Ht. split; unfold out_ok in *; rewrite ?Hi, ?Ho, ?Ht; done. Qed.

Lemma setFlags_ok a s c (g : Connection → Connection) :
  server_ok s → conns (hub s) !! a = Some c →
  in_ (g c) = in_ c → out_ (g c) = out_ c → txn (g c) = txn c → fd_ (g c) = fd_ c →
  subscribedChannels (g c) = subscribedChannels c →
  onConn a (λ c, mret (g c)) s ⇓ λ s', server_ok s' ∧ stable s s'.
Proof.
  intros Hs Ha Hi Ho Ht Hf Hsub. eapply onConn_stable; [done|exact Ha|]. apply returns_ok.
  split; [|done]. eapply flags_ok; [by apply (sv_conns s Hs a)|done..].
Qed.

(** What a [read] of the kernel may deliver to the connection [c]. *)
Definition read_ok (kernel : nat → read_outcome) (c : Connection) : Prop :=
  ∀ n t, kernel n = ReadData t → length t ≤ n ∧ RespParser.fits_int (Buffer.readable (in_ c) ++ t).

(** The connection after a [read]. *)
Lemma after_read_ok now kernel c :
  conn_ok c → read_ok kernel c →
  handleRead now kernel c ⇓ λ r, ∀ c2, c2 = (if r.1 : bool then r.2 else setWantRead false r.2) →
    conn_ok c2 ∧ fd_ c2 = fd_ c ∧ subscribedChannels c2 = subscribedChannels c.
Proof.
  intros [Hin Hfit Hout Hq] Hk.
  eapply returns_mono; [apply (handleRead_ok now kernel c); [by split|intros n t Hn; by apply (Hk n t)]|].
  intros [alive c1] (n & _ & _ & [Hin1 Hread1] & Ho1 & Ht1 & Hsub1 & Hfd1) c2 Hc2. cbn [fst snd] in *.
  assert (H2 : in_ c2 = in_ c1 ∧ out_ c2 = out_ c ∧ txn c2 = txn c ∧ fd_ c2 = fd_ c ∧
    subscribedChannels c2 = subscribedChannels c) by (subst c2; destruct alive; done).
  destruct H2 as (Hi2 & Ho2 & Ht2 & Hf2 & Hs2). clear Hc2. split; [|done].
  split; unfold out_ok; rewrite ?Hi2, ?Ho2, ?Ht2; try done. rewrite Hread1.
  destruct (kernel n) as [t| | |] eqn:Hn; cbn [delivered]; rewrite ?app_nil_r; [by apply (Hk n t)|done..].
Qed.

(** The rest of a readable event. *)
Lemma after_drain_ok a s c :
  server_ok s → conns (hub s) !! a = Some c →
  onConn a (λ c, mret (if bool_decide (0 < Buffer.readableBytes (out_ c)) then setWantWrite true c else c)) s
    ⇓ λ s', server_ok s' ∧ stable s s'.
Proof.
  intros Hs Ha. apply (setFlags_ok a s c (λ c,
    if bool_decide (0 < Buffer.readableBytes (out_ c)) then setWantWrite true c else c)); try done;
    by case_bool_decide.
Qed.

Lemma handleReadable_ok now kernel ws a s c :
  server_ok s → conns (hub s) !! a = Some c → read_ok kernel c → (∀ k, world_ok (ws k)) →
  handleReadable now kernel ws a s ⇓?? λ s', server_ok s' ∧ stable s s'.
Proof.
  intros Hs Ha Hk Hws. unfold handleReadable. rewrite (load_bind _ _ _ _ Ha).
  go_with (after_read_ok now kernel c); [by apply (sv_conns s Hs a)|done|].
  intros [alive c1] H2. destruct (H2 _ eq_refl) as (Hc2 & Hf2 & Hs2). clear H2. cbn [fst snd] in *.
  destruct (store_stable a s c _ Hs Ha Hc2 Hf2 Hs2) as [Hs1 Hst1].
  try_with (drainInput_ok ws a); [exact Hs1|done|cbn; by rewrite lookup_insert_eq|].
  intros s2 [Hsv2 Hst2]. pose proof (stable_trans _ _ _ Hst1 Hst2) as Hst.
  destruct (stable_conn _ _ a Hst) as [c3 Hc3]; [by rewrite Ha|].
  eapply returns_survives; [by apply (after_drain_ok a s2 c3)|].
  intros s4 [? ?]. split; [done|by eapply stable_trans].
Qed.

Lemma handleWritable_ok now kernel a s c :
  server_ok s → conns (hub s) !! a = Some c → write_contract kernel →
  handleWritable now kernel a s ⇓ λ s', server_ok s' ∧ stable s s'.
Proof.
  intros Hs Ha Hk. pose proof (sv_conns s Hs a c Ha) as Hc. eapply onConn_stable; [done|exact Ha|].
  destruct (wantClose_ c); [by apply returns_ok|].
  run_with (handleWrite_ok now kernel c); [by split; [apply Hc|]|done|].
  intros [ok c1] ([Hout1 _] & _ & Hin1 & Ht1 & Hsub1 & Hfd1). apply returns_ok.
  assert (Hc1 : conn_ok c1) by (split; rewrite ?Hin1, ?Ht1; try done; apply Hc).
  destruct ok; cbn [negb]; [case_bool_decide|]; (split; [by eapply flags_ok; [exact Hc1|..]|done]).
Qed.

Lemma set_loop_ok l s :
  server_ok s → EventLoop.epollFd_ l = EventLoop.epollFd_ (loop s) →
  (∀ fd, is_Some (connections s !! fd) → is_Some (EventLoop.registered l !! fd)) →
  (∀ fd, is_Some (EventLoop.registered l !! fd) → is_Some (epoll s !! fd)) →
  server_ok (set_loop l s) ∧ stable s (set_loop l s).
Proof.
  intros Hs He Hl Hr. split; [|by split]. split; try apply Hs; [exact Hl|].
  apply (fds_ok_ext s); [apply Hs|done| |done|exact Hr]. unfold base_fds. cbn. by rewrite He.
Qed.

Lemma modFd_ok fd ev s :
  server_ok s → server_ok (set_loop (EventLoop.modFd fd ev (loop s)) s) ∧
                stable s (set_loop (EventLoop.modFd fd ev (loop s)) s).
Proof.
  intros Hs. apply set_loop_ok; [done|apply EventLoop.modFd_fd|..]; intros fd' Hfd.
  - apply EventLoop.modFd_is_Some. by apply (sv_epoll s Hs).
  - by apply EventLoop.modFd_is_Some in Hfd.
Qed.

Lemma finishEvent_ok fd a s c :
  server_ok s → conns (hub s) !! a = Some c → finishEvent fd a s ⇓ λ s', server_ok s' ∧ stable s s'.
Proof.
  intros Hs Ha. unfold finishEvent.
  eapply returns_bind; [apply (setFlags_ok a s c (λ c, if negb (wantRead_ c) &&
    bool_decide (Buffer.readableBytes (out_ c) = 0) then setWantClose true c else c)); try done;
    by destruct (_ && _)|]. intros s1 [Hs1 Hst1].
  destruct (stable_conn _ _ a Hst1) as [c1 Ha1]; [by rewrite Ha|]. rewrite (load_conn _ _ _ Ha1).
  cbn [mbind result_bind]. apply returns_ok. destruct (wantClose_ c1); [done|].
  destruct (modFd_ok fd (wantRead_ c1, wantWrite_ c1) s1 Hs1) as [Hs2 Hst2].
  split; [done|by eapply stable_trans].
Qed.

Record client_ok (c : Connection) (ev : ClientEvent) : Prop := {
  cl_read : read_ok (ev_read ev) c;
  cl_write : write_contract (ev_write ev);
  cl_worlds k : world_ok (ev_worlds ev k)
}.

Lemma clientEvent_ok fd ev s :
  server_ok s → (∀ a c, connections s !! fd = Some a → conns (hub s) !! a = Some c → client_ok c ev) →
  clientEvent fd ev s ⇓?? server_ok.
Proof.
  intros Hs Hev. unfold clientEvent. destruct (connections s !! fd) as [a|] eqn:Hfd; [|done].
  destruct (sv_map s Hs fd a Hfd) as (c & Ha & _). destruct (Hev a c eq_refl Ha) as [Hr Hw Hws].
  destruct (ev_err ev).
  { eapply returns_survives; [by apply (setFlags_ok a s c (setWantClose true))|]. by intros s' [? _]. }
  eapply (survives_bind _ _ (λ s', server_ok s' ∧ stable s s')).
  { destruct (ev_in ev); [by eapply handleReadable_ok|]. by split; [|apply stable_refl]. }
  intros s1 [Hs1 Hst1]. destruct (stable_conn _ _ a Hst1) as [c1 Ha1]; [by rewrite Ha|].
  eapply (returns_survives_bind _ _ (λ s', server_ok s' ∧ stable s1 s')).
  { destruct (ev_out ev); [by eapply handleWritable_ok|]. by split; [|apply stable_refl]. }
  intros s2 [Hs2 Hst2]. destruct (stable_conn _ _ a Hst2) as [c2 Ha2]; [by rewrite Ha1|].
  eapply returns_survives; [by eapply finishEvent_ok|]. by intros s' [? _].
Qed.

(** *** Accepting *)

Lemma new_conn_ok fd now : conn_ok (Connection.create fd now).
Proof.
  destruct Buffer.empty_represents as [Hw Hr]. split; [exact Hw| |exact Hw|done].
  cbn [in_ Connection.create]. rewrite Hr. unfold RespParser.fits_int. cbn. lia.
Qed.

(** A descriptor that is not open belongs to nobody. *)
Lemma fresh_unowned fd s :
  fds_ok s → fd ∉ fds s → connections s !! fd = None ∧ epoll s !! fd = None ∧ fd ∉ base_fds s.
Proof.
  intros [H1 H2 H3 H4 H5] Hfd. rewrite H4 in Hfd. apply not_elem_of_union in Hfd as [Hb Hc].
  split; [by apply not_elem_of_dom|]. split; [|by rewrite elem_of_list_to_set in Hb].
  apply not_elem_of_dom. set_solver.
Qed.

Lemma addClient_ok fd now s :
  server_ok s → (0 ≤ fd)%Z → fd ∉ fds s → server_ok (addClient fd now (set_fds (openFd fd (fds s)) s)).
Proof.
  intros Hs H0 Hnew. destruct (fresh_unowned fd s (sv_fds s Hs) Hnew) as (Hfd & He & Hbase).
  assert (Hfresh : conns (hub s) !! next_addr s = None).
  { destruct (conns (hub s) !! next_addr s) as [c|] eqn:Hc; [|done]. pose proof (sv_fresh s Hs _ _ Hc). lia. }
  split; cbn; try apply Hs.
  - by apply open_ok; [apply Hs|].
  - apply map_Forall_insert_2; [apply new_conn_ok|apply Hs].
  - intros b c Hb. destruct (decide (b = next_addr s)) as [->|Hne].
    + rewrite lookup_insert_eq in Hb. injection Hb as <-. cbn. by rewrite lookup_insert_eq.
    + rewrite lookup_insert_ne in Hb by done. pose proof (sv_owned s Hs b c Hb) as Ho.
      rewrite lookup_insert_ne; [done|]. intros ->. congruence.
  - intros fd' b Hb. destruct (decide (fd' = fd)) as [->|Hne].
    + rewrite lookup_insert_eq in Hb. injection Hb as <-. rewrite lookup_insert_eq. eauto.
    + rewrite lookup_insert_ne in Hb by done. destruct (sv_map s Hs fd' b Hb) as (c & Hc & Hf).
      exists c. rewrite lookup_insert_ne; [done|]. intros <-. congruence.
  - intros b c Hb. destruct (decide (b = next_addr s)) as [->|Hne]; [lia|].
    rewrite lookup_insert_ne in Hb by done. pose proof (sv_fresh s Hs b c Hb). lia.
  - intros fd' Hfd'. unfold epoll. cbn. rewrite EventLoop.addFd_lookup by done. destruct (decide (fd' = fd)); [eauto|].
    rewrite lookup_insert_ne in Hfd' by done. by apply (sv_epoll s Hs).
  - destruct (sv_fds s Hs) as [H1 H2 H3 H4 H5].
    assert (Hb : base_fds (addClient fd now (set_fds (openFd fd (fds s)) s)) = base_fds s)
      by (unfold base_fds; cbn; by rewrite EventLoop.addFd_fd).
    split; rewrite ?Hb; try done.
    + intros fd' Hfd'. cbn in Hfd'. destruct (decide (fd' = fd)) as [->|Hne]; [done|].
      rewrite lookup_insert_ne in Hfd' by done. by apply H3.
    + cbn. rewrite openFd_pos, dom_insert_L, H4 by done. set_solver.
    + intros fd' Hfd'. rewrite elem_of_dom in Hfd'. unfold epoll in Hfd'. cbn in Hfd' |- *.
      rewrite EventLoop.addFd_lookup in Hfd' by done. rewrite dom_insert_L.
      destruct (decide (fd' = fd)); [set_solver|]. assert (fd' ∈ dom (epoll s)) by (by rewrite elem_of_dom). set_solver.
Qed.

(** What the kernel promises for a run of [accept4]: descriptors that are not in
    use, until none is left to accept. *)
Fixpoint accepts_ok (rets : list (Z * Z)) (f : Fds) : Prop :=
  match rets with
  | [] => False
  | (ret, _) :: rets' => (ret < 0)%Z ∨ (ret ∉ f) ∧ accepts_ok rets' (openFd ret f)
  end.

Lemma acceptLoop_ok rets s : server_ok s → accepts_ok rets (fds s) → acceptLoop rets s ⇓ server_ok.
Proof.
  revert s. induction rets as [|[ret now] rets IH]; intros s Hs Hr; [done|]. cbn [acceptLoop accepts_ok] in *.
  unfold Listener.acceptClient. destruct (Z.ltb_spec ret 0); [by apply returns_ok|].
  destruct Hr as [?|[Hnew Hr]]; [lia|]. by apply IH; [apply addClient_ok|].
Qed.

(** *** The end of a batch of events *)

(** Pending output of a live connection is announced to epoll. *)
Definition settled (s : Server) (fd : Z) (a : addr) : Prop :=
  ∀ c, conns (hub s) !! a = Some c → wantClose_ c = false → 0 < Buffer.readableBytes (out_ c) →
  epoll s !! fd = Some (wantRead_ c, true).

(** What the sweep does not change. *)
Definition same_closing (s s' : Server) : Prop :=
  db s' = db s ∧ ∀ a : addr, wantClose_ <$> conns (hub s') !! a = wantClose_ <$> conns (hub s) !! a.

Definition swept (cs : list (Z * addr)) (s s' : Server) : Prop :=
  server_ok s' ∧ stable s s' ∧ same_closing s s' ∧
  ∀ fd a, connections s !! fd = Some a → (fd, a) ∈ cs ∨ settled s fd a → settled s' fd a.

Lemma swept_skip sfd a cs s s' : settled s sfd a → swept cs s s' → swept ((sfd, a) :: cs) s s'.
Proof.
  intros Ha (Hs' & Hst & Hcl & Hset). split; [done|]. split; [done|]. split; [done|].
  intros fd b Hb [[[= -> ->]|H]%elem_of_cons|H]; apply Hset; auto.
Qed.

Lemma swept_step sfd a c cs s s' :
  server_ok s → connections s !! sfd = Some a → conns (hub s) !! a = Some c →
  swept cs (set_loop (EventLoop.modFd sfd (wantRead_ c, true) (loop s)) (set_hub (store (hub s) a (setWantWrite true c)) s)) s' →
  swept ((sfd, a) :: cs) s s'.
Proof.
  intros Hs Hsfd Ha (Hs' & Hst & [Hdb Hcl] & Hset).
  destruct (store_stable a s c (setWantWrite true c) Hs Ha) as [_ [Hst1 _]];
    [by eapply flags_ok; [apply (sv_conns s Hs a c Ha)|..]|done|done|].
  split; [done|]. split; [|split; [split; [done|]|]].
  - split; [|apply (sb_map _ _ Hst)]. intros b. by rewrite (sb_conns _ _ Hst), <- Hst1.
  - intros b. rewrite Hcl. cbn. destruct (decide (b = a)) as [->|]; [by rewrite lookup_insert_eq, Ha|].
    by rewrite lookup_insert_ne.
  - intros fd b Hb Hor. apply Hset; [done|]. destruct (decide (fd = sfd)) as [->|Hne].
    + right. assert (b = a) as -> by congruence. intros d. cbn. rewrite lookup_insert_eq. intros [= <-] _ _.
      unfold epoll. cbn. rewrite EventLoop.modFd_lookup, decide_True by (done || apply (sv_epoll s Hs); eauto). done.
    + destruct Hor as [[[= -> ->]|H]%elem_of_cons|H]; [done|by left|right].
      assert (b ≠ a). { intros ->. destruct (sv_map s Hs fd a Hb) as (d & Hd & ?).
        destruct (sv_map s Hs sfd a Hsfd) as (d' & Hd' & ?). congruence. }
      intros d. unfold epoll. cbn. rewrite lookup_insert_ne by done.
      rewrite EventLoop.modFd_lookup, decide_False by (done || apply (sv_epoll s Hs); eauto). apply H.
Qed.

Lemma sweep_ok cs s :
  server_ok s → (∀ fd a, (fd, a) ∈ cs → connections s !! fd = Some a) → sweep cs s ⇓ swept cs s.
Proof.
  revert s. induction cs as [|[sfd a] cs IH]; intros s Hs Hcs; cbn [sweep].
  { apply returns_ok. split; [done|]. split; [apply stable_refl|]. split; [done|].
    intros fd a _ [H|H]; [by apply elem_of_nil in H|done]. }
  pose proof (Hcs sfd a ltac:(left)) as Hsfd. destruct (sv_map s Hs sfd a Hsfd) as (c & Ha & _).
  assert (Hcs' : ∀ fd b, (fd, b) ∈ cs → connections s !! fd = Some b) by (intros fd b H; apply Hcs; by right).
  rewrite (load_bind _ _ _ _ Ha). destruct (negb (wantClose_ c) && _) eqn:Hpend.
  - destruct (store_stable a s c (setWantWrite true c) Hs Ha) as [Hs1 Hst1];
      [by eapply flags_ok; [apply (sv_conns s Hs a c Ha)|..]|done|done|].
    eapply returns_mono; [apply IH; [by apply (modFd_ok sfd _ (set_hub (store (hub s) a (setWantWrite true c)) s))|exact Hcs']|]. intros s'. by apply (swept_step _ _ c).
  - eapply returns_mono; [by apply IH|]. intros s'. apply swept_skip.
    intros d Hd Hcl Hout. rewrite Ha in Hd. injection Hd as <-. rewrite Hcl, bool_decide_true in Hpend by done. done.
Qed.

Lemma toClose_ok cs s :
  server_ok s → (∀ fd a, (fd, a) ∈ cs → connections s !! fd = Some a) →
  toClose cs (hub s) ⇓ λ fds, ∀ fd, fd ∈ fds ↔
    ∃ a c, (fd, a) ∈ cs ∧ conns (hub s) !! a = Some c ∧ wantClose_ c = true.
Proof.
  intros Hs. induction cs as [|[cfd a] cs IH]; intros Hcs; cbn [toClose].
  { apply returns_ok. intros fd. split; [by intros ?%elem_of_nil|]. by intros (a & c & ?%elem_of_nil & _). }
  destruct (sv_map s Hs cfd a (Hcs cfd a ltac:(left))) as (c & Ha & _). rewrite (load_bind _ _ _ _ Ha).
  run_with IH; [intros fd b H; apply Hcs; by right|]. intros fds Hfds. apply returns_ok. intros fd.
  destruct (wantClose_ c) eqn:Hc; rewrite ?elem_of_cons, Hfds; split.
  - intros [->|(b & d & ? & ?)]; [exists a, c; split; [by left|done]|exists b, d; split; [by right|done]].
  - intros (b & d & [[= -> ->]|H]%elem_of_cons & ?); [by left|right; eauto].
  - intros (b & d & ? & ?). exists b, d. split; [by right|done].
  - intros (b & d & [[= -> ->]|H]%elem_of_cons & ? & ?); [congruence|eauto].
Qed.

(** The connections on the other descriptors are untouched. *)
Definition closes (fds : list Z) (s s' : Server) : Prop :=
  server_ok s' ∧ db s' = db s ∧
  ∀ fd, if bool_decide (fd ∈ fds) then connections s' !! fd = None else
    connections s' !! fd = connections s !! fd ∧ epoll s' !! fd = epoll s !! fd ∧
    ∀ a : addr, connections s !! fd = Some a → conns (hub s') !! a = conns (hub s) !! a.

Lemma closeConn_ok chorder cfd s :
  server_ok s → (∀ t, chorder t ≡ₚ elements t) → closeConn chorder cfd s ⇓ closes [cfd] s.
Proof.
  intros Hs Hord. unfold closeConn. destruct (connections s !! cfd) as [a|] eqn:Hcfd.
  2: { apply returns_ok. split; [apply set_loop_ok; [done|done|..]|split; [done|]]; intros fd.
    - intros Hfd. cbn. rewrite lookup_delete_ne; [by apply (sv_epoll s Hs)|]. intros <-. rewrite Hcfd in Hfd.
      by destruct Hfd.
    - cbn. by intros [x [_ Hx]%lookup_delete_Some].
    - case_bool_decide as Hfd; rewrite list_elem_of_singleton in Hfd; [by subst|]. unfold epoll. cbn.
      by rewrite lookup_delete_ne. }
  destruct (sv_map s Hs cfd a Hcfd) as (c & Ha & Hfd).
  run_with removeConnection_ok; [exact Hord|apply Hs|exact Ha|]. intros h (Hh & Hconns & Hout).
  rewrite (load_bind _ _ (set_channels ∅ c)) by (by rewrite Hconns, lookup_insert_eq).
  destruct (fo_conn s (sv_fds s Hs) cfd ltac:(by rewrite Hcfd)) as [H0 Hbase].
  unfold Connection.destroy. cbn [fd_ set_channels]. rewrite Hfd. replace (0 <=? cfd)%Z with true by lia.
  rewrite closeFd_ok, bind_ok by (done || rewrite (fo_all s (sv_fds s Hs)), elem_of_union, elem_of_dom, Hcfd; eauto).
  apply returns_ok.
  assert (Hdel : delete a (conns h) = delete a (conns (hub s))) by (by rewrite Hconns, delete_insert_eq).
  split; [|split; [done|]].
  - split; cbn; rewrite ?Hdel; try apply Hs.
    + rewrite <- Hdel. by apply erase_ok.
    + apply map_Forall_delete, Hs.
    + intros b d [Hne Hb]%lookup_delete_Some. pose proof (sv_owned s Hs b d Hb) as Ho.
      rewrite lookup_delete_ne; [done|]. congruence.
    + intros fd b [Hne Hb]%lookup_delete_Some. destruct (sv_map s Hs fd b Hb) as (d & Hd & Hf).
      exists d. rewrite lookup_delete_ne; [done|]. congruence.
    + intros b d [Hne Hb]%lookup_delete_Some. by apply (sv_fresh s Hs b d).
    + intros fd [x [Hne Hx]%lookup_delete_Some]. unfold epoll. cbn. rewrite lookup_delete_ne by done.
      apply (sv_epoll s Hs). eauto.
    + destruct (sv_fds s Hs) as [H1 H2 H3 H4 H5]. split; try done; cbn.
      * intros fd [x [_ Hx]%lookup_delete_Some]. apply H3. by rewrite Hx.
      * rewrite H4, dom_delete_L. assert (cfd ∉ (list_to_set (base_fds s) : gset Z)) by by rewrite elem_of_list_to_set.
        change (base_fds _) with (base_fds s). set_solver.
      * unfold epoll. cbn. rewrite !dom_delete_L. unfold epoll in H5. set_solver.
  - intros fd. unfold epoll. cbn. case_bool_decide as Hin; rewrite list_elem_of_singleton in Hin.
    { subst. by rewrite lookup_delete_eq. }
    rewrite !lookup_delete_ne by done. split; [done|]. split; [done|]. intros b Hb.
    destruct (sv_map s Hs fd b Hb) as (d & Hd & Hf). rewrite Hdel, lookup_delete_ne; [done|]. congruence.
Qed.

Lemma closeAll_ok chorder fds s :
  server_ok s → (∀ t, chorder t ≡ₚ elements t) → closeAll chorder fds s ⇓ closes fds s.
Proof.
  intros Hs Hord. revert s Hs. induction fds as [|cfd fds IH]; intros s Hs; cbn [closeAll].
  { apply returns_ok. split; [done|]. split; [done|]. intros fd. by rewrite bool_decide_false by apply not_elem_of_nil. }
  run_with closeConn_ok; [done|done|]. intros s1 (Hs1 & Hdb1 & H1).
  eapply returns_mono; [by apply IH|]. intros s2 (Hs2 & Hdb2 & H2). split; [done|]. split; [congruence|].
  intros fd. specialize (H1 fd). specialize (H2 fd).
  destruct (decide (fd = cfd)) as [->|Hne].
  - rewrite bool_decide_true in H1 by (by left). rewrite bool_decide_true by (by left).
    case_bool_decide; [done|]. destruct H2 as [-> _]. done.
  - rewrite bool_decide_false in H1 by (by rewrite list_elem_of_singleton).
    rewrite (bool_decide_ext _ (fd ∈ fds)) by (rewrite elem_of_cons; tauto).
    case_bool_decide; [done|]. destruct H1 as (Hm1 & He1 & Hc1), H2 as (Hm2 & He2 & Hc2).
    rewrite Hm2, He2. split; [done|]. split; [done|]. intros a Ha. rewrite Hc2, Hc1; [done|done|congruence].
Qed.

Lemma set_db_ok d s :
  server_ok s → Database.wf d → keyspace_ok (Database.view d) → server_ok (set_db d s) ∧ stable s (set_db d s).
Proof.
  intros Hs Hd Hk. split; [|by split]. split; [exact Hd|exact Hk|apply Hs..|]. by apply (fds_ok_ext s); [apply Hs|..].
Qed.

(** The data stays; the connections that stay are the ones that do not want to be
    closed, and those with pending output are registered for writing. *)
Definition batch_done (s s' : Server) : Prop :=
  Database.view (db s') = Database.view (db s) ∧
  ∀ fd a, (connections s' !! fd = Some a ↔
    connections s !! fd = Some a ∧ wantClose_ <$> conns (hub s) !! a = Some false) ∧
    (connections s' !! fd = Some a → ∃ c, conns (hub s') !! a = Some c ∧ wantClose_ c = false ∧
      (0 < Buffer.readableBytes (out_ c) → epoll s' !! fd = Some (wantRead_ c, true))).

Lemma endBatch_ok iter chorder s :
  server_ok s → (∀ m, iter m ≡ₚ map_to_list m) → (∀ t, chorder t ≡ₚ elements t) →
  endBatch iter chorder s ⇓ λ s', server_ok s' ∧ batch_done s s'.
Proof.
  intros Hs Hiter Hord. unfold endBatch.
  assert (Hin : ∀ (m : gmap Z addr) fd a, (fd, a) ∈ iter m ↔ m !! fd = Some a).
  { intros m fd a. by rewrite Hiter, elem_of_map_to_list. }
  run_with (Database.rehashStep_ok Database.linux64); [apply Hs|]. intros d ((Hwf & Hv) & _).
  destruct (set_db_ok d s Hs Hwf) as [Hs0 _]; [rewrite Hv; apply Hs|].
  run_with sweep_ok; [exact Hs0|intros fd a H; by apply Hin|]. intros s1 (Hs1 & Hst1 & [Hdb1 Hcl1] & Hset).
  pose proof (sb_map _ _ Hst1) as Hm1. cbn [connections set_db hub] in Hm1, Hcl1, Hset.
  run_with toClose_ok; [exact Hs1|intros fd a H; by apply Hin|]. intros fds Hfds.
  eapply returns_mono; [by apply closeAll_ok|]. intros s2 (Hs2 & Hdb2 & Hcl2). split; [done|].
  split; [by rewrite Hdb2, Hdb1|]. intros fd a. specialize (Hcl2 fd). specialize (Hfds fd).
  rewrite <- Hcl1, <- Hm1. case_bool_decide as Hclosed.
  - rewrite Hcl2. split; [|done]. split; [done|]. intros [Ha Hf]. apply Hfds in Hclosed as (b & c & Hb%Hin & Hc & Hw).
    assert (b = a) as -> by congruence. rewrite Hc in Hf. cbn in Hf. congruence.
  - destruct Hcl2 as (Hm2 & He2 & Hc2). rewrite Hm2, He2.
    assert (Hopen : connections s1 !! fd = Some a → ∃ c, conns (hub s1) !! a = Some c ∧ wantClose_ c = false).
    { intros Ha. destruct (sv_map s1 Hs1 fd a Ha) as (c & Hc & _). exists c. split; [done|].
      destruct (wantClose_ c) eqn:Hw; [|done]. destruct Hclosed. apply Hfds. exists a, c. by rewrite Hin. }
    split; [split; [|by intros [? _]]|].
    + intros Ha. destruct (Hopen Ha) as (c & -> & Hw). cbn. by rewrite Hw.
    + intros Ha. destruct (Hopen Ha) as (c & Hc & Hw). exists c. rewrite (Hc2 a Ha). split; [done|]. split; [done|].
      intros Hout. apply (Hset fd a); [congruence| |done|done|done]. left. apply Hin. congruence.
Qed.

(** The log is closed and opened again on another descriptor. *)
Lemma fds_ok_reopen s s' :
  fds_ok s → listener s' = listener s → loop s' = loop s → connections s' = connections s →
  Forall (λ fd, (fd ∉ fds s ∖ list_to_set (AOFWriter.log_fds (aof s))) ∧ (0 ≤ fd)%Z) (AOFWriter.log_fds (aof s')) →
  fds s' = list_to_set (AOFWriter.log_fds (aof s')) ∪ fds s ∖ list_to_set (AOFWriter.log_fds (aof s)) → fds_ok s'.
Proof.
  intros [H1 H2 H3 H4 H5] Hlis Hloop Hconn Hnew Hfds. unfold base_fds in *. rewrite <- Hlis, <- Hloop in *.
  set (L := Listener.fd_ (listener s')) in *. set (E := EventLoop.epollFd_ (loop s')) in *.
  set (old := AOFWriter.log_fds (aof s)) in *. set (new := AOFWriter.log_fds (aof s')) in *.
  rewrite !NoDup_cons, !not_elem_of_cons in H1. rewrite !Forall_cons in H2.
  assert (Hkeep : ∀ fd, fd ∈ new → (fd ∉ [L; E]) ∧ connections s !! fd = None).
  { intros fd Hfd. rewrite list.Forall_forall in Hnew. destruct (Hnew fd Hfd) as [Hno _]. split.
    - intros Hin. apply Hno. rewrite H4. set_solver.
    - apply not_elem_of_dom. intros Hin. apply Hno. rewrite H4.
      destruct (H3 fd) as [_ Hb]; [by rewrite <- elem_of_dom|]. set_solver. }
  assert (Hnd : NoDup new) by (unfold new, AOFWriter.log_fds; case_match; repeat constructor; apply not_elem_of_nil).
  split; unfold base_fds; fold L E new; unfold epoll; rewrite ?Hconn.
  - rewrite !NoDup_cons, !not_elem_of_cons. set_solver.
  - rewrite !Forall_cons. split; [apply H2|]. split; [apply H2|]. by eapply Forall_impl; [exact Hnew|intros fd [_ ?]].
  - intros fd Hfd. destruct (H3 fd Hfd) as [H0 Hb]. split; [done|]. intros [->|[->|Hin]%elem_of_cons]%elem_of_cons.
    + set_solver.
    + set_solver.
    + destruct (Hkeep fd Hin) as [_ Hno]. rewrite Hno in Hfd. by destruct Hfd.
  - rewrite Hfds, H4. assert (Hd : ∀ fd, fd ∈ dom (connections s) → fd ∉ old).
    { intros fd Hfd%elem_of_dom Hin. destruct (H3 fd Hfd) as [_ Hb]. set_solver. }
    set_solver.
  - unfold epoll in H5. by rewrite Hloop.
Qed.

Lemma timer_ok p nowMs steadyNs c tmpFd s :
  server_ok s → AOFRewrite.completion_ok c → AOFRewrite.rewrite_fds_ok tmpFd c (aof s) (fds s) →
  timer p nowMs steadyNs c tmpFd s ⇓ λ s', server_ok s' ∧ connections s' = connections s ∧ loop s' = loop s.
Proof.
  intros Hs Hc Hf. unfold timer. run_with Database.activeExpireCycle_ok; [apply Hs|].
  intros d (ks & ((Hwf & Hv) & _) & _). pose proof (AOFWriter.tick_fd steadyNs (aof s) (disk s)) as Hfd.
  destruct (AOFWriter.tick _ _ _) as [w dk]. cbn [fst] in Hfd. apply AOFWriter.log_fds_eq in Hfd.
  destruct (set_db_ok d s Hs Hwf) as [Hs1 _]; [rewrite Hv; apply KeyCommands.keyspace_ok_filter, Hs|].
  pose proof (AOFRewrite.checkRewriteComplete_total c (child s) w dk Hc (sv_child s Hs)) as Hr.
  destruct (AOFRewrite.checkRewriteComplete c (child s) w dk) as [[[w2 d2] ch]|] eqn:Hcr; [|destruct Hr].
  rewrite bind_ok. unfold AOFRewrite.rewrite_fds_ok in Hf. rewrite <- Hfd in Hf.
  destruct (AOFRewrite.checkRewriteComplete_fds_ok tmpFd c (child s) w dk (fds s) w2 d2 ch) as [[Hl ->]|[Hnew ->]];
    [rewrite Hfd, (fo_all s (sv_fds s Hs)); set_solver|done|done|..]; rewrite bind_ok; apply returns_ok;
    (split; [|done]); split; try apply Hs1; cbn [child set_rewrite set_fds];
    try (destruct Hr as [-> | ->]; [apply Hs|by intros ?]).
  - apply (fds_ok_ext s); [apply Hs|done| |done|done]. unfold base_fds. cbn. by rewrite Hl, Hfd.
  - rewrite Hfd in Hnew. apply (fds_ok_reopen s); [apply Hs|done..|exact Hnew|]. cbn. by rewrite Hfd.
Qed.

(** What the kernel promises during a [poll]. *)
Definition poll_ok (p : PollWorld) (s : Server) : Prop :=
  AOFRewrite.completion_ok (po_rewrite p) ∧ AOFRewrite.rewrite_fds_ok (po_tmpFd p) (po_rewrite p) (aof s) (fds s).

Lemma beginBatch_ok p s : server_ok s → poll_ok p s → beginBatch p s ⇓ λ '(_, s'), server_ok s'.
Proof.
  intros Hs [Hc Hf]. unfold beginBatch. set (s1 := set_metrics _ s).
  assert (Hs1 : server_ok s1).
  { destruct (set_metrics_good 0 s (ServerMetrics.setConnectedClients (size (connections s)) (metrics s)) Hs) as [Hok _];
      [by destruct (sv_metrics s Hs); split|done]. }
  assert (Hl : ∀ l s', EventLoop.epollFd_ l = EventLoop.epollFd_ (loop s1) →
    EventLoop.registered l = EventLoop.registered (loop s1) → server_ok s' ∧ connections s' = connections s1 ∧ loop s' = loop s1 →
    server_ok (set_loop l s')).
  { intros l s' He Hr (Hs' & Hconn & Hlp). apply set_loop_ok; [done|by rewrite Hlp|..]; rewrite Hr.
    - rewrite Hconn. apply (sv_epoll s1 Hs1).
    - unfold epoll. by rewrite Hlp. }
  unfold EventLoop.poll. destruct (po_wait p _) as [k| |]; [destruct (_ && _)|..].
  - pose proof (timer_ok (po_platform p) (po_wallMs p) (po_tickNs p) (po_rewrite p) (po_tmpFd p) s1 Hs1 Hc Hf) as Ht.
    destruct (timer _ _ _ _ _ s1) as [s'|]; [|destruct Ht]. rewrite !bind_ok. by apply returns_ok, Hl.
  - by apply returns_ok, Hl.
  - by apply returns_ok, Hl.
  - by apply returns_ok, Hl.
Qed.

(** ** Every event *)

(** What the outside promises for one event: the kernel gives a new client a
    descriptor that is not in use, keeps the contracts of [read] and [write], and
    a traversal visits every element once. *)
Definition event_ok (s : Server) (ev : event) : Prop :=
  match ev with
  | Poll p => poll_ok p s
  | Accept rets => accepts_ok rets (fds s)
  | Client fd cev => ∀ a c, connections s !! fd = Some a → conns (hub s) !! a = Some c → client_ok c cev
  | EndBatch iter chorder => (∀ m, iter m ≡ₚ map_to_list m) ∧ (∀ t, chorder t ≡ₚ elements t)
  end.

Lemma step_ok ev s : server_ok s → event_ok s ev → step ev s ⇓?? server_ok.
Proof.
  intros Hs Hev. destruct ev as [p|rets|fd cev|iter chorder]; cbn [step].
  - go_with beginBatch_ok; [done|done|]. by intros [n s'] Hs'.
  - eapply returns_survives; [by apply acceptLoop_ok|done].
  - by apply clientEvent_ok.
  - destruct Hev. eapply returns_survives; [by apply endBatch_ok|]. by intros s' [? _].
Qed.

(** ** The start *)

(** Before there are clients. *)
Lemma boot_ok d w dk ch m l lis f :
  AOFLoader.loaded_ok d → AOFRewrite.child_ok ch → ServerMetrics.metrics_ok m →
  NoDup (base_fds (boot d w dk ch m l lis f)) →
  Forall (λ fd, 0 ≤ fd)%Z (base_fds (boot d w dk ch m l lis f)) → f = list_to_set (base_fds (boot d w dk ch m l lis f)) →
  dom (EventLoop.registered l) ⊆ {[Listener.fd_ lis]} → server_ok (boot d w dk ch m l lis f).
Proof.
  intros [Hwf Hks] Hch Hm Hnd Hpos Hf Hl. split; cbn [db hub conns connections next_addr metrics boot]; try done.
  - apply empty_hub_ok.
  - intros fd [x Hx]. by rewrite lookup_empty in Hx.
  - split; cbn [connections fds boot]; try done.
    + intros fd [x Hx]. by rewrite lookup_empty in Hx.
    + rewrite Hf at 1. set_solver.
    + rewrite dom_empty_L, (right_id_L ∅ (∪)). exact Hl.
Qed.

(** What the outside promises for the start: descriptors that are not in use, a
    log of a size that fits, whose reading ends, and environments for its
    commands; and a process may always set its limit on descriptors to any value
    up to the hard one. *)
Record start_ok (w : StartWorld) : Prop := {
  so_envs j : env_ok (sw_envs w j);
  so_file len : sw_file w = AOFLoader.Opened len → (Z.of_nat len ≤ 2 ^ 31)%Z ∧ AOFLoader.file_ends (sw_calls w) len = true;
  so_epoll : fresh_fd (sw_epoll w) {[Listener.bw_socket (sw_bind w)]};
  so_log : fresh_fd (sw_log w) {[sw_epoll w; Listener.bw_socket (sw_bind w)]};
  so_load : fresh_fd (sw_loadFd w) (openFd (sw_log w) {[sw_epoll w; Listener.bw_socket (sw_bind w)]});
  so_pipe writeEnd : sw_pipe w = Some writeEnd →
    let f := openFd (sw_log w) {[sw_epoll w; Listener.bw_socket (sw_bind w)]} in
    fresh_fd writeEnd f ∧ fresh_fd (sw_readEnd w) (openFd writeEnd f);
  so_limit l new : (rlim_cur new ≤ rlim_max new ≤ rlim_max l)%Z → sw_permits w l new = true
}.

(** *** The replay *)

Lemma loading_table_cases nm entry :
  loading_table !! nm = Some entry →
  match CommandTable.run entry with
  | Early _ => ∃ x, CommandTable.core_table !! nm = Some x ∧ entry = earlyEntry x
  | EarlyInfo => nm = lit "INFO"
  | EarlyRewrite => nm = lit "BGREWRITEAOF"
  end.
Proof.
  unfold loading_table, early_commands. cbn [foldl]. unfold CommandTable.registerCommand.
  cbn [CommandTable.name CommandTable.arity CommandTable.isWrite CommandTable.run].
  intros [[<- <-]|[_ H]]%lookup_insert_Some; [done|].
  apply lookup_insert_Some in H as [[<- <-]|[_ H]]; [done|].
  apply lookup_fmap_Some in H as (x & <- & Hx). exists x. split; [exact Hx|reflexivity].
Qed.

(** While the log is replayed its descriptor stays what it was. *)
Definition loading_ok (fd : Z) (ld : Loading) : Prop :=
  AOFLoader.loaded_ok (ld_db ld) ∧ AOFRewrite.child_ok (ld_child ld) ∧ AOFWriter.fd_ (ld_aof ld) = fd.

Lemma triggerRewrite_ok pid aw db ch aw' ch' :
  AOFLoader.loaded_ok db → AOFRewrite.child_ok ch → AOFRewrite.triggerRewrite pid aw db ch = (aw', ch') →
  AOFRewrite.child_ok ch' ∧ AOFWriter.fd_ aw' = AOFWriter.fd_ aw.
Proof.
  intros Hdb Hch. unfold AOFRewrite.triggerRewrite. destruct (AOFWriter.isRewriting_ aw); [by intros [= <- <-]|].
  destruct (pid <? 0)%Z; intros [= <- <-]; (split; [|done]); [done|]. by intros ? [= <-].
Qed.

#[local] Opaque loading_table.

Lemma loader_keeps w m fd :
  (∀ j, env_ok (sw_envs w j)) → ServerMetrics.metrics_ok m → AOFLoader.keeps (loader w m) (loading_ok fd).
Proof.
  intros He Hm n ld c args Ha (Hdb & Hch & Hfd) Hc. cbn [AOFLoader.rp_run loader].
  assert (Herr : ∀ msg, (c' ← replyError c msg; mret (ld, c')) ⇓? λ '(ld', c'), loading_ok fd ld' ∧ out_ok c').
  { intros msg. go_with replyError_ok; [done|]. intros c' (_ & Hc' & _). by split. }
  unfold CommandTable.dispatch_with. destruct args as [|arg0 rest]; [done|].
  destruct (loading_table !! to_upper arg0) as [entry|] eqn:Hn; [|apply Herr].
  destruct (CommandTable.arity_ok _ _) eqn:Har; cbn [negb]; [|apply Herr].
  pose proof (loading_table_cases _ _ Hn) as Hcase. destruct (CommandTable.run entry) as [h| |] eqn:Hrun; cbn [callEarly].
  - destruct Hcase as (x & Hx & ->). injection Hrun as <-.
    pose proof (CommandTable.dispatch_survives CommandTable.core_table (sw_envs w n) (ld_db ld) c arg0 rest
      CommandTable.core_table_ok (He n) (proj1 Hdb) (proj2 Hdb) Hc) as Hd.
    unfold CommandTable.dispatch, CommandTable.dispatch_with in Hd. rewrite Hx in Hd. cbn in Har. rewrite Har in Hd. cbn [negb] in Hd.
    eapply survives_bind; [exact Hd|]. intros [db' c'] (Hwf' & Hks' & [r (Hout & _)] & _). cbn. split; [|exact Hout].
    split; [by split|by split].
  - go_with ServerMetrics.cmdInfo_ok; [done|done|]. intros c' [text (_ & Hc' & _)]. by split.
  - destruct (AOFRewrite.triggerRewrite _ _ _ _) as [aw ch] eqn:Ht. destruct (triggerRewrite_ok _ _ _ _ _ _ Hdb Hch Ht) as [Hch' Hfd'].
    go_with replySimple_ok; [done|]. intros c' (_ & Hc' & _). split; [|done]. split; [done|]. split; [done|]. by rewrite <- Hfd.
Qed.

Lemma startup_ok w :
  start_ok w → startup w ⇓?? λ r, match r with inl (_, f) => f = ∅ ∨ f = {[Listener.bw_socket (sw_bind w)]} | inr s => server_ok s end.
Proof.
  intros [Henv Hfile Hep Hlog Hload Hpipe _]. unfold startup.
  go_with Listener.listener_create_ok; [intros _; apply not_elem_of_empty|]. intros [[what|lis] f1]; [intros ->; by left|].
  intros (Hf1 & Hlis & Hsock & _ & _ & _). rewrite (right_id_L ∅ (∪)) in Hf1. rewrite <- Hsock in *.
  unfold EventLoop.create. destruct (Z.ltb_spec (sw_epoll w) 0) as [Hneg|Hpos]; [by right|].
  assert (Hf2 : openFd (sw_epoll w) f1 = {[sw_epoll w; Listener.fd_ lis]}) by (by rewrite openFd_pos, Hf1).
  destruct (Database.empty_ok Database.linux64) as (Hwf & Hv & _).
  assert (Hm : ServerMetrics.metrics_ok (ServerMetrics.create (sw_metricsNow w) (Listener.port16 (parsePort (sw_args w)))))
    by apply (ServerMetrics.create_seen (sw_metricsNow w)).
  try_with (AOFLoader.load_survives _ (loading_ok (sw_log w))); [by apply loader_keeps| |exact Hfile|].
  { split; [split; [done|]|done]. cbn [ld_db]. rewrite Hv. apply map_Forall_empty. }
  intros [n ld] (Hd & Hch & Hfd). cbn [snd] in *. rewrite Hf2, AOFLoader.load_fds_ok, bind_ok; [|done|done|intros k Hk; by apply Hfile].
  cbn [survives]. assert (Hne : Listener.fd_ lis ≠ sw_epoll w) by (specialize (Hep Hpos); set_solver).
  unfold fresh_fd in Hlog. apply boot_ok; [exact Hd|exact Hch|exact Hm|..];
    unfold base_fds, AOFWriter.log_fds, AOFWriter.isEnabled, openFd; cbn; rewrite ?EventLoop.addFd_fd, ?Hfd; cbn;
    destruct (Z.leb_spec 0 (sw_log w)) as [H0|H0].
  - specialize (Hlog H0). rewrite elem_of_union, !elem_of_singleton in Hlog.
    rewrite !NoDup_cons, !not_elem_of_cons. repeat split; try apply not_elem_of_nil; try apply NoDup_nil_2; naive_solver.
  - rewrite !NoDup_cons, !not_elem_of_cons. repeat split; try apply not_elem_of_nil; try apply NoDup_nil_2; naive_solver.
  - by repeat constructor.
  - by repeat constructor.
  - clear. set_solver.
  - clear. set_solver.
  - unfold EventLoop.addFd. cbn. rewrite lookup_empty. cbn. by rewrite dom_insert_L, dom_empty_L, (right_id_L ∅ (∪)).
  - unfold EventLoop.addFd. cbn. rewrite lookup_empty. cbn. by rewrite dom_insert_L, dom_empty_L, (right_id_L ∅ (∪)).
Qed.

(** The states of a run: the start, then events follow one another. *)
Inductive reachable : Server → Prop :=
| reach_start w s : start_ok w → startup w = Ok (inr s) → reachable s
| reach_step s ev s' : reachable s → event_ok s ev → step ev s = Ok s' → reachable s'.

Lemma reachable_ok s : reachable s → server_ok s.
Proof.
  induction 1 as [w s Hw Hst|s ev s' _ IH Hev Hstep].
  - pose proof (startup_ok w Hw) as Hs. by rewrite Hst in Hs.
  - pose proof (step_ok ev s IH Hev) as Hs. by rewrite Hstep in Hs.
Qed.

(** ** Properties *)

(** C1: the server cannot be crashed from outside, but for two known exceptions.
    In every state it can reach, from a start with a log of arbitrary bytes and then by
    any sequence of accepted clients, requests of any bytes (the log, and what is
    waiting in an input buffer, being at most 2^31 bytes), partial reads and
    writes, errors of the kernel, timer ticks, expiry and background rewrites, all
    components satisfy their invariants together, and the next event neither
    fails an assertion, nor leaves a buffer, nor touches a destroyed connection,
    nor runs forever.  What is left are the uncaught exceptions of a number
    conversion and of the memory reserved for the number of arguments that a
    request announces. *)
Theorem server_safe (s : Server) (ev : event) :
  reachable s → event_ok s ev → server_ok s ∧ step ev s ⇓?? server_ok.
Proof.
  intros Hr Hev. pose proof (reachable_ok s Hr) as Hs. split; [done|]. by apply step_ok.
Qed.

(** C22: no reply is forgotten.  After a batch of events the data is what it was,
    the connections that remain are exactly those not marked for closing, and
    every one of them with pending output, its own or published to it by another
    client, is registered for writing. *)
Theorem batch_end (s : Server) (iter : gmap Z addr → list (Z * addr)) (chorder : gset bytes → list bytes) :
  reachable s → (∀ m, iter m ≡ₚ map_to_list m) → (∀ t, chorder t ≡ₚ elements t) →
  endBatch iter chorder s ⇓ λ s', reachable s' ∧ Database.view (db s') = Database.view (db s) ∧
    ∀ fd a, (connections s' !! fd = Some a ↔
        connections s !! fd = Some a ∧ wantClose_ <$> conns (hub s) !! a = Some false) ∧
      (connections s' !! fd = Some a → ∃ c, conns (hub s') !! a = Some c ∧ wantClose_ c = false ∧
        (0 < Buffer.readableBytes (out_ c) → epoll s' !! fd = Some (wantRead_ c, true))).
Proof.
  intros Hr Hi Ho. pose proof (endBatch_ok iter chorder s (reachable_ok s Hr) Hi Ho) as Hb.
  destruct (endBatch iter chorder s) as [s'|] eqn:E; [|done]. destruct Hb as [_ [Hv Hc]].
  split; [by apply (reach_step s (EndBatch iter chorder) s')|]. by split.
Qed.

(** ** Witnesses *)

(** A start without arguments and without a log. *)
Definition demo_start : StartWorld :=
  mkStart [] (Listener.mkBindWorld 3 0 0 []) 4 5 (mkDisk [] 0) AOFLoader.OpenFailed [] (-1) (-1) None
    (λ _, ListCommands.plain_env) 0 0 0 0 0 (λ _, (-1)%Z) (λ _, 0%Z) 1 (mkRlimit 1024 4096)
    (λ old new, (rlim_max new <=? rlim_max old)%Z).

Lemma demo_start_ok : start_ok demo_start.
Proof.
  split; cbn; try done; [intros _; exact AOFProperties.plain_env_ok|intros _; set_solver..|].
  intros l new H. apply Z.leb_le. lia.
Qed.

Definition demo_loop : EventLoop.EventLoop :=
  EventLoop.setTimerCallback 100 0 (EventLoop.addFd 3 (true, false) (EventLoop.mkLoop 4 ∅ 0 false 0 0)).

Definition booted : Server :=
  boot Database.empty (AOFWriter.create 5 AOFWriter.EVERYSEC 0) (mkDisk [] 0) None (ServerMetrics.create 0 6379) demo_loop
    (Listener.mkListener 3 ([0; 0; 0; 0]%Z, 6379%Z)) (openFd 5 (openFd 4 (openFd 3 ∅))).

Lemma booted_reachable : reachable booted.
Proof. apply (reach_start demo_start); [exact demo_start_ok|reflexivity]. Qed.

(** A client on descriptor 7. *)
Definition client : Connection := Connection.create 7 0.
Definition with_client (c : Connection) : Server := set_hub (store (hub booted) 0 c)
  (mkServer (db booted) (aof booted) (disk booted) None (metrics booted) (hub booted) {[7%Z := 0]} 1
     (EventLoop.addFd 7 (true, false) (loop booted)) (listener booted) (openFd 7 (fds booted))).

Lemma accepted_reachable : reachable (with_client client).
Proof.
  apply (reach_step booted (Accept [(7, 0); (-1, 0)]%Z)); [apply booted_reachable| |].
  - right. split; [|by left]. apply (bool_decide_eq_true_1 (7%Z ∉ fds booted)). reflexivity.
  - unfold with_client, step, acceptLoop, addClient, set_fds. cbn [connections booted boot].
    cbn. by rewrite insert_empty.
Qed.

Lemma server_safe_witness :
  server_ok (with_client client) ∧
  step (EndBatch map_to_list elements) (with_client client) ⇓?? server_ok.
Proof. apply (server_safe (with_client client) (EndBatch map_to_list elements)); [exact accepted_reachable|done]. Defined.

Lemma batch_end_witness :
  endBatch map_to_list elements (with_client client) ⇓ λ s',
    reachable s' ∧ Database.view (db s') = Database.view (db (with_client client)) ∧
    ∀ fd a, (connections s' !! fd = Some a ↔ connections (with_client client) !! fd = Some a ∧
        wantClose_ <$> conns (hub (with_client client)) !! a = Some false) ∧
      (connections s' !! fd = Some a → ∃ c, conns (hub s') !! a = Some c ∧ wantClose_ c = false ∧
        (0 < Buffer.readableBytes (out_ c) → epoll s' !! fd = Some (wantRead_ c, true))).
Proof. apply (batch_end (with_client client) map_to_list elements); [exact accepted_reachable|done|done]. Defined.

End ServerSafety.
