(* ===== verification/ServerProperties.v ===== *)
(** * What the server does with a command

    On top of the invariant of [ServerSafety]: the gates of subscriber mode and
    MULTI, EXEC as the execution of its queue, and the logging of write commands. *)
From Stdlib Require Import Ascii String ZArith Lia ZifyNat ZifyBool.
From stdpp Require Import base option list strings gmap.
From S2P Require Import Prelude CStdlib NetBuffer ProtoSerializer ProtoParser NetConnection NetEventLoop StoreObject.
From S2P Require Import StoreInterfaces StoreDatabase CmdBase CmdList CmdTable CmdPubSub CmdInfo PersistAOF.
From S2P Require Import PersistRewrite Server ServerSafety.
Import Connection PubSubRegistry Server ServerSafety.

Module ServerProperties.

#[local] Opaque CommandTable.core_table server_table.

(** ** EXEC runs its queue *)

(** The queued commands dispatched in order, each logged when it is a write. *)
Fixpoint run_queue (w : World) (a : addr) (i : nat) (queue : list (list bytes)) (s : Server) : result Server :=
  match queue with
  | [] => mret s
  | cmd :: queue' =>
      s1 ← dispatch 0 (S i) w a cmd s;
      s2 ← logCommand (writes w (S i)) cmd s1;
      run_queue w a (S i) queue' s2
  end.

Lemma queued_dispatch_ok w a i cmd s :
  server_ok s → world_ok w → is_Some (conns (hub s) !! a) → queueable cmd → dispatch 0 (S i) w a cmd s ⇓? good true a s.
Proof.
  intros Hs Hw Ha Hq. destruct cmd as [|arg0 rest]; [destruct Hq|]. unfold queueable in Hq.
  pose proof (dispatch_ok 0 (S i) w a arg0 rest s Hs Hw Ha) as Hd. rewrite Hq in Hd. apply Hd. intros _ Heq.
  rewrite Heq in Hq. vm_compute in Hq. discriminate Hq.
Qed.

(** The reference the loop holds into the connection stays valid. *)
Lemma exec_loop_runs w a queued i rest s :
  world_ok w → server_ok s → txn_at s a = Some (mkTxn queued) → Forall queueable rest →
  exec_loop (λ i, dispatch 0 (S i) w a) (writes w) a queued i rest s = run_queue w a i rest s.
Proof.
  intros Hw. revert i s. induction rest as [|cmd rest IH]; intros i s Hs Ht Hall; cbn [exec_loop run_queue]; [done|].
  apply Forall_cons in Hall as [Hq Hall]. pose proof Ht as Hc. unfold txn_at in Hc.
  destruct (conns (hub s) !! a) as [c|] eqn:Ha; [|done]. cbn in Hc. rewrite (load_bind _ _ _ _ Ha), Hc.
  rewrite bool_decide_true by done.
  pose proof (queued_dispatch_ok w a i cmd s Hs Hw ltac:(by rewrite Ha) Hq) as Hd.
  destruct (dispatch 0 (S i) w a cmd s) as [s1|]; [|done]. rewrite !bind_ok. cbn [survives] in Hd.
  pose proof (logCommand_ok a w (S i) cmd s1 (proj1 Hd) Hw ltac:(by intros ->)) as Hl.
  destruct (logCommand (writes w (S i)) cmd s1) as [s2|]; [|done]. rewrite !bind_ok. cbn [returns] in Hl.
  apply IH; [apply Hl| |done]. destruct (good_trans _ _ _ _ _ Hd Hl) as (_ & _ & ->); done.
Qed.

Lemma cmdExec_runs w a s c t :
  world_ok w → server_ok s → conns (hub s) !! a = Some c → txn c = Some t →
  cmdExec (λ i, dispatch 0 (S i) w a) w a s =
    (s1 ← onConn a (λ c, replyHeader c (Z.of_nat (length (queuedCommands t)))) s;
     s2 ← run_queue w a 0 (queuedCommands t) s1;
     onConn a (λ c, mret (set_txn None c)) s2).
Proof.
  intros Hw Hs Ha Ht. unfold cmdExec. rewrite (load_bind _ _ _ _ Ha), Ht. pose proof (sv_conns s Hs a c Ha) as Hc.
  pose proof (onConn_reply true a (λ c, replyHeader c (Z.of_nat (length (queuedCommands t)))) s c _ Hs Ha
    (replyHeader_ok c (co_out c Hc) _)) as H1.
  destruct (onConn a _ s) as [s1|]; [|done]. rewrite !bind_ok. cbn [returns] in H1. destruct H1 as (Hs1 & _ & Ht1).
  rewrite exec_loop_runs; [done|done|done| |by apply (co_queue c Hc)].
  rewrite Ht1 by done. unfold txn_at. rewrite Ha. cbn. rewrite Ht. by destruct t.
Qed.

(** ** The log *)

(** [s'] has the log and the metrics of [s]. *)
Definition log_kept (s s' : Server) : Prop :=
  disk s' = disk s ∧ AOFWriter.fd_ (aof s') = AOFWriter.fd_ (aof s) ∧ metrics s' = metrics s.

Lemma log_kept_trans s1 s2 s3 : log_kept s1 s2 → log_kept s2 s3 → log_kept s1 s3.
Proof. intros (H1 & H2 & H3) (H4 & H5 & H6). split_and!; congruence. Qed.

Lemma onConn_log a f s s' : onConn a f s = Ok s' → log_kept s s'.
Proof.
  unfold onConn. intros (c & _ & H)%bind_Ok_inv. apply bind_Ok_inv in H as (c' & _ & [= <-]). done.
Qed.

Lemma subscribe_loop_log a chs s s' : subscribe_loop a chs s = Ok s' → log_kept s s'.
Proof.
  revert s. induction chs as [|ch chs IH]; intros s; cbn [subscribe_loop]; [by intros [= <-]|].
  intros H. inv_bind. destruct r as [n h]. inv_bind. eapply log_kept_trans; [|by apply IH].
  by apply onConn_log in E0.
Qed.

Lemma unsubscribe_loop_log a chs s s' : unsubscribe_loop a chs s = Ok s' → log_kept s s'.
Proof.
  revert s. induction chs as [|ch chs IH]; intros s; cbn [unsubscribe_loop]; [by intros [= <-]|].
  intros H. inv_bind. destruct r as [n h]. inv_bind. eapply log_kept_trans; [|by apply IH].
  by apply onConn_log in E0.
Qed.

Lemma callRewrite_log p a s s' : callRewrite p a s = Ok s' → log_kept s s'.
Proof.
  unfold callRewrite, AOFRewrite.triggerRewrite.
  destruct (AOFWriter.isRewriting_ (aof s)), (p <? 0)%Z; intros H; by apply onConn_log in H.
Qed.

(** No handler but EXEC writes to the log. *)
Lemma call_log exec n w a args cl s s' : cl ≠ Exec → call exec n w a args cl s = Ok s' → log_kept s s'.
Proof.
  intros Hcl H. destruct cl as [h| | | | | |]; cbn [call] in H; [|..|].
  - unfold callPlain in H. inv_bind. destruct r0 as [db' c']. by injection H as <-.
  - by apply onConn_log in H.
  - by apply callRewrite_log in H.
  - done.
  - by apply subscribe_loop_log in H.
  - unfold cmdUnsubscribe in H. case_bool_decide; [|by apply unsubscribe_loop_log in H].
    inv_bind. case_bool_decide; [by apply onConn_log in H|by apply unsubscribe_loop_log in H].
  - unfold cmdPublish in H. inv_bind. destruct r1 as [k h]. by apply onConn_log in H.
Qed.

Lemma dispatch_log depth n w a arg0 rest s s' :
  to_upper arg0 ≠ lit "EXEC" → dispatch depth n w a (arg0 :: rest) s = Ok s' → log_kept s s'.
Proof.
  intros Hne H. destruct depth; cbn [dispatch] in H; unfold CommandTable.dispatch_with in H;
    (destruct (server_table !! to_upper arg0) as [entry|] eqn:He; [|by apply onConn_log in H]);
    (destruct (negb _); [by apply onConn_log in H|]); eapply call_log; [|exact H| |exact H];
    intros Hcl; pose proof (server_table_cases _ _ He) as Hc; rewrite Hcl in Hc; exact (Hne Hc).
Qed.

(** *** The metrics *)







(** The bytes a command adds to the log. *)
Definition log_entry (cmd : list bytes) : bytes :=
  match cmd with
  | [] => []
  | arg0 :: _ => if CommandTable.isWriteCommand server_table arg0 then enc_command cmd else []
  end.

Definition all_writes_taken (w : World) : Prop := ∀ n buf, AOFWriter.takes (writes w n buf) (length buf) = true.

Lemma logCommand_appends w n arg0 rest s :
  all_writes_taken w → AOFWriter.isEnabled (aof s) = true →
  logCommand (writes w n) (arg0 :: rest) s ⇓ λ s',
    contents (disk s') = contents (disk s) ++ log_entry (arg0 :: rest) ∧
    AOFWriter.fd_ (aof s') = AOFWriter.fd_ (aof s) ∧ db s' = db s ∧ hub s' = hub s.
Proof.
  intros Hw He. unfold logCommand, log_entry. rewrite (vec_get_ok _ _ arg0) by done. rewrite bind_ok, He. cbn [andb].
  destruct (CommandTable.isWriteCommand server_table arg0); [|apply returns_ok; by rewrite app_nil_r].
  run_with AOFWriter.log_ok; [done|rewrite AOFWriter.formatRespCommand_eq; apply Hw|].
  intros [[calls w'] d'] (Hc & _ & Hf & _). by apply returns_ok.
Qed.

(** Logging changes neither the data nor the connections. *)
Lemma logCommand_data calls cmd s s' : logCommand calls cmd s = Ok s' → db s' = db s ∧ hub s' = hub s.
Proof.
  unfold logCommand. intros (x & _ & H)%bind_Ok_inv. destruct (_ && _); [|by injection H as <-].
  apply bind_Ok_inv in H as ([[calls' w'] d'] & _ & [= <-]). done.
Qed.

Lemma run_queue_appends w a i queue s :
  world_ok w → all_writes_taken w → server_ok s → is_Some (conns (hub s) !! a) → AOFWriter.isEnabled (aof s) = true →
  Forall queueable queue →
  run_queue w a i queue s ⇓? λ s', good true a s s' ∧ contents (disk s') = contents (disk s) ++ mjoin (log_entry <$> queue).
Proof.
  intros Hw Ht. revert i s. induction queue as [|cmd queue IH]; intros i s Hs Ha He Hall; cbn [run_queue].
  { split; [by apply good_refl|]. cbn. by rewrite app_nil_r. }
  apply Forall_cons in Hall as [Hq Hall]. pose proof (queued_dispatch_ok w a i cmd s Hs Hw Ha Hq) as Hd.
  destruct cmd as [|arg0 rest]; [destruct Hq|]. pose proof (dispatch_log 0 (S i) w a arg0 rest s) as Hlog.
  destruct (dispatch 0 (S i) w a (arg0 :: rest) s) as [s1|]; [|exact Hd]. rewrite bind_ok. cbn [survives] in Hd.
  destruct (Hlog s1) as (Hdisk & Hfd & _); [|done|].
  { intros Heq. unfold queueable in Hq. rewrite Heq in Hq. vm_compute in Hq. discriminate Hq. }
  assert (He1 : AOFWriter.isEnabled (aof s1) = true) by (unfold AOFWriter.isEnabled in *; by rewrite Hfd).
  pose proof (logCommand_ok a w (S i) (arg0 :: rest) s1 (proj1 Hd) Hw ltac:(done)) as Hl.
  pose proof (logCommand_appends w (S i) arg0 rest s1 Ht He1) as Happ.
  destruct (logCommand _ _ s1) as [s2|]; [|destruct Hl]. rewrite bind_ok. cbn [returns] in Hl, Happ.
  destruct Happ as (Hc2 & Hf2 & _). pose proof (good_trans _ _ _ _ _ Hd Hl) as Hg2. pose proof Hg2 as (Hs2 & Hst2 & _).
  destruct Ha as [c Ha]. destruct (steady_conn _ _ _ _ Hst2 Ha) as (c2 & Ha2 & _).
  eapply survives_mono; [apply IH; [done|by rewrite Ha2| |done]|].
  - unfold AOFWriter.isEnabled in *. by rewrite Hf2.
  - intros s3 [Hg3 ->]. split; [by eapply good_trans|]. cbn [fmap list_fmap mjoin list_join].
    by rewrite Hc2, Hdisk, <- app_assoc.
Qed.

(** ** EXEC in the table *)

#[local] Transparent CommandTable.core_table server_table.
Lemma table_exec : server_table !! lit "EXEC" = Some (CommandTable.mkEntry (lit "EXEC") 1 false Exec).
Proof. vm_compute. reflexivity. Qed.
#[local] Opaque CommandTable.core_table server_table.

Lemma dispatch_exec n w a arg0 rest s :
  to_upper arg0 = lit "EXEC" →
  dispatch 1 n w a (arg0 :: rest) s =
    if bool_decide (rest = []) then cmdExec (λ i, dispatch 0 (S i) w a) w a s
    else onConn a (λ c, replyError c (CommandTable.ERR_ARITY (lit "EXEC"))) s.
Proof.
  intros Heq. cbn [dispatch]. unfold CommandTable.dispatch_with. rewrite Heq, table_exec.
  cbn [CommandTable.arity CommandTable.run call].
  destruct rest as [|x rest]; [reflexivity|]. rewrite bool_decide_false by done.
  replace (CommandTable.arity_ok 1 (arg0 :: x :: rest)) with false; [done|].
  unfold CommandTable.arity_ok. change (0 <? 1)%Z with true. cbv iota zeta. simpl length. lia.
Qed.

(** ** What a parsed command executes *)

(** Closed by the subscriber gate. *)
Definition refused (c : Connection) (arg0 : bytes) : bool :=
  inSubscribeMode c && negb (allowedSubscribed (to_upper arg0)).

(** The commands that are executed when [cmd] arrives on [c]: none when a gate
    closes or the command is queued, the queue for EXEC, itself otherwise. *)
Definition commands_run (c : Connection) (cmd : list bytes) : list (list bytes) :=
  match cmd with
  | [] => []
  | arg0 :: rest =>
      if refused c arg0 then []
      else if bool_decide (to_upper arg0 = lit "EXEC") then
        if bool_decide (rest = []) then default [] (queuedCommands <$> txn c) else []
      else match txn c with
           | Some _ => if transactional (to_upper arg0) then [cmd] else []
           | None => [cmd]
           end
  end.

Lemma contents_kept {A} (l : bytes) (x : list A) (f : A → bytes) : x = [] → l = l ++ mjoin (f <$> x).
Proof. intros ->. cbn. by rewrite app_nil_r. Qed.

Lemma cmdExec_appends w a s c :
  world_ok w → all_writes_taken w → server_ok s → conns (hub s) !! a = Some c → AOFWriter.isEnabled (aof s) = true →
  cmdExec (λ i, dispatch 0 (S i) w a) w a s ⇓? λ s',
    contents (disk s') = contents (disk s) ++ mjoin (log_entry <$> default [] (queuedCommands <$> txn c)).
Proof.
  intros Hw Ht Hs Ha He. pose proof (sv_conns s Hs a c Ha) as Hc. destruct (txn c) as [t|] eqn:Htxn.
  - rewrite (cmdExec_runs w a s c t) by done. cbn [fmap option_fmap option_map default].
    pose proof (onConn_reply true a (λ c, replyHeader c (Z.of_nat (length (queuedCommands t)))) s c _ Hs Ha
      (replyHeader_ok c (co_out c Hc) _)) as H1.
    destruct (onConn a _ s) as [s1|] eqn:E1; [|destruct H1]. rewrite bind_ok. cbn [returns] in H1.
    apply onConn_log in E1 as (Hd1 & Hf1 & _). destruct H1 as (Hs1 & Hst1 & _).
    destruct (steady_conn _ _ _ _ Hst1 Ha) as (c1 & Ha1 & _).
    try_with (run_queue_appends w a 0 (queuedCommands t) s1); [done|done|done|by rewrite Ha1| |by apply (co_queue c Hc)|].
    { unfold AOFWriter.isEnabled in *. by rewrite Hf1. }
    intros s2 [(_ & Hst2 & _) Hs2]. destruct (steady_conn _ _ _ _ Hst2 Ha1) as (c2 & Ha2 & _).
    unfold onConn. rewrite (load_bind _ _ _ _ Ha2). rewrite bind_ok. cbn. by rewrite Hs2, Hd1.
  - unfold cmdExec. rewrite (load_bind _ _ _ _ Ha), Htxn.
    pose proof (onConn_reply true a (λ c, replyError c (lit "ERR EXEC without MULTI")) s c _ Hs Ha
      (replyError_ok c (co_out c Hc) _)) as H1.
    destruct (onConn a _ s) as [s1|] eqn:E1; [|destruct H1]. apply onConn_log in E1 as (Hd1 & _).
    cbn [survives]. rewrite Hd1. by apply contents_kept.
Qed.

Lemma execute_appends w a arg0 rest s c :
  world_ok w → all_writes_taken w → server_ok s → conns (hub s) !! a = Some c → AOFWriter.isEnabled (aof s) = true →
  execute w a (arg0 :: rest) (to_upper arg0) s ⇓? λ s', contents (disk s') = contents (disk s) ++ mjoin (log_entry <$>
    if bool_decide (to_upper arg0 = lit "EXEC") then
      if bool_decide (rest = []) then default [] (queuedCommands <$> txn c) else []
    else [arg0 :: rest]).
Proof.
  intros Hw Ht Hs Ha He. unfold execute. destruct (decide (to_upper arg0 = lit "EXEC")) as [Hex|Hex].
  - rewrite (bool_decide_true (to_upper arg0 = lit "EXEC")) by done. cbn [negb].
    assert (Hd : dispatch 1 0 w a (arg0 :: rest) s ⇓? λ s1, server_ok s1 ∧ contents (disk s1) = contents (disk s) ++
      mjoin (log_entry <$> if bool_decide (rest = []) then default [] (queuedCommands <$> txn c) else [])).
    { pose proof (dispatch_ok 1 0 w a arg0 rest s Hs Hw ltac:(by rewrite Ha) ltac:(done)) as Hok. revert Hok.
      rewrite dispatch_exec by done. case_bool_decide.
      - pose proof (cmdExec_appends w a s c Hw Ht Hs Ha He) as Hx. destruct (cmdExec _ w a s) as [s1|]; [|done].
        intros [Hs1 _]. by split.
      - destruct (onConn a _ s) as [s1|] eqn:E1; [|done]. apply onConn_log in E1 as (Hd1 & _). intros [Hs1 _].
        split; [done|]. rewrite Hd1. by apply contents_kept. }
    eapply survives_bind; [exact Hd|]. intros s1 [Hs1 Hc1].
    go_with ServerMetrics.record_metrics_ok; [apply Hs1|]. by intros m _.
  - rewrite (bool_decide_false (to_upper arg0 = lit "EXEC")) by done. cbn [negb].
    pose proof (dispatch_ok 1 0 w a arg0 rest s Hs Hw ltac:(by rewrite Ha) ltac:(done)) as Hok.
    pose proof (dispatch_log 1 0 w a arg0 rest s) as Hlog.
    destruct (dispatch 1 0 w a (arg0 :: rest) s) as [s1|]; [|exact Hok]. rewrite bind_ok.
    destruct (Hlog s1 Hex eq_refl) as (Hd1 & Hf1 & _). destruct Hok as [Hs1 _].
    go_with ServerMetrics.record_metrics_ok; [apply Hs1|]. intros m _.
    eapply returns_survives; [apply logCommand_appends; [done|unfold AOFWriter.isEnabled in *; cbn; by rewrite Hf1]|].
    intros s2 (Hc2 & _). cbn [fmap list_fmap mjoin list_join]. rewrite Hc2, app_nil_r. cbn. by rewrite Hd1.
Qed.

(** ** Properties *)

(** C18: EXEC is the execution of its queue.  It announces as many replies as
    there are commands, dispatches them in the order they were queued with no
    other client's command in between, logs each write, and ends the transaction;
    the loop's reference into the connection stays valid throughout. *)
Theorem exec_runs_queue (w : World) (a : addr) (arg0 : bytes) (s : Server) (c : Connection) (t : TransactionState) :
  server_ok s → world_ok w → conns (hub s) !! a = Some c → txn c = Some t → to_upper arg0 = lit "EXEC" →
  dispatch 1 0 w a [arg0] s =
    (s1 ← onConn a (λ c, replyHeader c (Z.of_nat (length (queuedCommands t)))) s;
     s2 ← run_queue w a 0 (queuedCommands t) s1;
     onConn a (λ c, mret (set_txn None c)) s2) ∧
  dispatch 1 0 w a [arg0] s ⇓? λ s', server_ok s' ∧ txn_at s' a = None.
Proof.
  intros Hs Hw Ha Ht Hex.
  pose proof (dispatch_ok 1 0 w a arg0 [] s Hs Hw ltac:(by rewrite Ha) ltac:(done)) as Hok.
  rewrite dispatch_exec, bool_decide_true, (cmdExec_runs w a s c t) in Hok |- * by done. split; [done|].
  destruct (_ ≫= _) as [s'|] eqn:E; [|done]. destruct Hok as [Hs' _]. split; [done|].
  apply bind_Ok_inv in E as (s1 & _ & E). apply bind_Ok_inv in E as (s2 & _ & E). unfold onConn in E.
  apply bind_Ok_inv in E as (c2 & _ & [= <-]). unfold txn_at. cbn. by rewrite lookup_insert_eq.
Qed.


(** C17: the log is the executed writes.  Processing one parsed command appends to
    the log exactly the write commands it executed, in order: nothing for a
    refused or queued command, the writes of the queue for EXEC, the command
    itself otherwise if it is a write. *)
Theorem command_logged (w : World) (a : addr) (cmd : list bytes) (s : Server) (c : Connection) :
  server_ok s → world_ok w → all_writes_taken w → conns (hub s) !! a = Some c → AOFWriter.isEnabled (aof s) = true →
  processCommand w a cmd s ⇓? λ s',
    contents (disk s') = contents (disk s) ++ mjoin (log_entry <$> commands_run c cmd).
Proof.
  intros Hs Hw Ht Ha He. pose proof (co_out c (sv_conns s Hs a c Ha)) as Hc.
  destruct cmd as [|arg0 rest]; cbn [processCommand]; [by apply contents_kept|].
  pose proof (execute_appends w a arg0 rest s c Hw Ht Hs Ha He) as Hx.
  rewrite (load_bind _ _ _ _ Ha). unfold commands_run. fold (refused c arg0). destruct (refused c arg0).
  - unfold onConn. rewrite (load_bind _ _ _ _ Ha). go_with replyError_ok; [done|]. intros c' _. by apply contents_kept.
  - destruct (txn c) as [t|] eqn:Htxn; [|exact Hx]. destruct (transactional (to_upper arg0)) eqn:Htr; cbn [negb].
    + eapply survives_mono; [exact Hx|]. done.
    + rewrite bool_decide_false; [|intros Heq; rewrite Heq in Htr; vm_compute in Htr; discriminate Htr].
      unfold onConn. rewrite (load_bind _ _ _ _ Ha). go_with replySimple_ok; [done|]. intros c' _. by apply contents_kept.
Qed.

(** ** Witnesses *)

(** The client inside a transaction. *)
Definition in_multi : Connection := set_txn (Some (mkTxn [[lit "SET"; lit "a"; lit "1"]])) client.

Lemma with_client_ok : server_ok (with_client in_multi).
Proof.
  pose proof (reachable_ok _ accepted_reachable) as Hs.
  assert (Ha : conns (hub (with_client client)) !! 0 = Some client) by (cbn; apply lookup_insert_eq).
  destruct (store_good false 0 (with_client client) client in_multi Hs Ha) as [Hok _]; [|done|].
  - split; [done|done|apply Buffer.empty_represents|done|]. intros t [= <-]. by repeat constructor.
  - revert Hok. unfold with_client, store. cbn. by rewrite insert_insert_eq.
Qed.

Lemma with_client_conn c : conns (hub (with_client c)) !! 0 = Some c.
Proof. cbn. apply lookup_insert_eq. Qed.

Definition world : World :=
  mkWorld (λ _, ListCommands.plain_env) (λ _ buf, [CWrote (length buf)]) (λ _, elements) 0 0 0 0 1 (λ _, 42%Z).

Lemma world_taken : all_writes_taken world.
Proof. intros n buf. cbn. destruct (length buf) as [|k]; [done|]. cbn. by rewrite Nat.sub_diag. Qed.

Lemma demo_world_ok : world_ok world.
Proof.
  split; [intros n; exact AOFProperties.plain_env_ok|intros n buf; apply AOFWriter.takes_ends, world_taken|done].
Qed.

Lemma exec_runs_queue_witness :
  dispatch 1 0 world 0 [lit "exec"] (with_client in_multi) =
    (s1 ← onConn 0 (λ c, replyHeader c 1) (with_client in_multi);
     s2 ← run_queue world 0 0 [[lit "SET"; lit "a"; lit "1"]] s1;
     onConn 0 (λ c, mret (set_txn None c)) s2) ∧
  dispatch 1 0 world 0 [lit "exec"] (with_client in_multi) ⇓? λ s', server_ok s' ∧ txn_at s' 0 = None.
Proof.
  apply (exec_runs_queue world 0 (lit "exec") (with_client in_multi) in_multi (mkTxn [[lit "SET"; lit "a"; lit "1"]])).
  - exact with_client_ok.
  - exact demo_world_ok.
  - apply with_client_conn.
  - reflexivity.
  - vm_compute. reflexivity.
Defined.



Lemma command_logged_witness :
  processCommand world 0 [lit "exec"] (with_client in_multi) ⇓? λ s',
    contents (disk s') = contents (disk (with_client in_multi)) ++
      mjoin (log_entry <$> commands_run in_multi [lit "exec"]).
Proof.
  apply (command_logged world 0 [lit "exec"] (with_client in_multi) in_multi);
    [exact with_client_ok|exact demo_world_ok|exact world_taken|apply with_client_conn|reflexivity].
Defined.

End ServerProperties.
