(* ===== verification/ServerSession.v ===== *)
(** * A client's session

    From the bytes a client sends to the bytes it gets back: the parse loop, the
    gates, the command table, the log and the buffers of [Server] together
    implement the specification of [CmdSpec].  The client is one that is neither
    subscribed nor inside MULTI, and its commands are those that work on the
    database. *)
From Stdlib Require Import Ascii String ZArith Lia ZifyNat ZifyBool.
From stdpp Require Import base option list strings gmap.
From S2P Require Import Prelude CStdlib CPosix NetBuffer ProtoSerializer ProtoParser NetConnection NetEventLoop StoreObject.
From S2P Require Import StoreInterfaces StoreDatabase CmdBase CmdList CmdTable CmdSpec CmdPubSub CmdInfo PersistAOF.
From S2P Require Import PersistRewrite Server Main ServerSafety ServerProperties.
Import Connection PubSubRegistry Server ServerSafety ServerProperties CmdSpec.

Module ServerSession.

(** ** Ordinary commands *)

(** The names [main] registers, and MULTI and DISCARD, are not ordinary. *)
Definition main_names : list bytes :=
  [lit "INFO"; lit "BGREWRITEAOF"; lit "EXEC"; lit "SUBSCRIBE"; lit "UNSUBSCRIBE"; lit "PUBLISH"].

Definition ordinary (args : list bytes) : Prop :=
  data_command args ∧ match args with [] => False | arg0 :: _ => to_upper arg0 ∉ main_names end.

Lemma table_ordinary nm : nm ∉ main_names → server_table !! nm = liftEntry <$> CommandTable.core_table !! nm.
Proof.
  intros Hnm. unfold main_names in Hnm. rewrite !not_elem_of_cons in Hnm. destruct Hnm as (H1 & H2 & H3 & H4 & H5 & H6 & _).
  unfold server_table, main_commands. cbn [foldl]. unfold CommandTable.registerCommand.
  cbn [CommandTable.name CommandTable.arity CommandTable.isWrite CommandTable.run].
  rewrite !lookup_insert_ne
    by (intros Heq; first [exact (H1 (eq_sym Heq))|exact (H2 (eq_sym Heq))|exact (H3 (eq_sym Heq))
          |exact (H4 (eq_sym Heq))|exact (H5 (eq_sym Heq))|exact (H6 (eq_sym Heq))]).
  apply lookup_fmap.
Qed.

Lemma set_db_same s : set_db (db s) s = s.
Proof. by destruct s. Qed.

#[local] Opaque CommandTable.core_table server_table.

(** The server's dispatch of a command that [main] does not register is the command
    table's. *)
Lemma dispatch_core depth n w a arg0 rest s c :
  conns (hub s) !! a = Some c → to_upper arg0 ∉ main_names →
  dispatch depth n w a (arg0 :: rest) s =
    ('(db', c') ← CommandTable.dispatch CommandTable.core_table (envs w n) (db s) c (arg0 :: rest);
     mret (set_db db' (set_hub (store (hub s) a c') s))).
Proof.
  intros Ha Hnm. destruct depth; cbn [dispatch];
    unfold CommandTable.dispatch, CommandTable.dispatch_with; rewrite (table_ordinary _ Hnm);
    (destruct (CommandTable.core_table !! to_upper arg0) as [entry|]; cbn [fmap option_fmap option_map];
     [cbn [liftEntry CommandTable.arity CommandTable.run call]; destruct (negb _);
      [|unfold callPlain; by rewrite (load_bind _ _ _ _ Ha)]|]);
    unfold onConn; rewrite (load_bind _ _ _ _ Ha); (destruct (replyError _ _) as [c'|]; [|done]); cbn;
    by rewrite <- (set_db_same s) at 1.
Qed.

(** ** One command *)

(** Neither subscribed nor inside a transaction. *)
Definition idle (c : Connection) : Prop := txn c = None ∧ subscribedChannels c = ∅.

(** Command lines executed one after the other, each in its world, with their
    replies. *)
Inductive answers : list World → Database.keyspace → list (list bytes) → list resp → Database.keyspace → Prop :=
| answers_nil m : answers [] m [] [] m
| answers_cons w ws m args r m1 cmds rs m2 :
    command_line (envs w 0) m args r m1 → answers ws m1 cmds rs m2 →
    answers (w :: ws) m (args :: cmds) (r :: rs) m2.

Lemma answers_app ws1 ws2 m1 cmds1 cmds2 rs1 rs2 m2 m3 :
  answers ws1 m1 cmds1 rs1 m2 → answers ws2 m2 cmds2 rs2 m3 → answers (ws1 ++ ws2) m1 (cmds1 ++ cmds2) (rs1 ++ rs2) m3.
Proof. induction 1 as [|w ws m args r m' cmds rs m'' Hc _ IH]; intros H2; [done|]. econstructor; [done|by apply IH]. Qed.

(** From [s] to [s'] the commands [cmds] of the connection at [a] were executed and
    the bytes [sent] went out to it: the data are what the specification says, sent
    and buffered output together are the replies in order, and the log has got the
    writes. *)
Definition performed (ws : list World) (a : addr) (cmds : list (list bytes)) (sent : bytes) (s s' : Server) : Prop :=
  ∃ c c' rs, conns (hub s) !! a = Some c ∧ conns (hub s') !! a = Some c' ∧
    answers ws (Database.view (db s)) cmds rs (Database.view (db s')) ∧
    sent ++ Buffer.readable (out_ c') = Buffer.readable (out_ c) ++ mjoin (encode <$> rs) ∧
    txn c' = txn c ∧ subscribedChannels c' = subscribedChannels c ∧
    (Forall all_writes_taken ws → AOFWriter.isEnabled (aof s) = true →
     contents (disk s') = contents (disk s) ++ mjoin (log_entry <$> cmds) ∧ AOFWriter.isEnabled (aof s') = true).

Lemma performed_trans ws1 ws2 a cmds1 cmds2 sent1 sent2 s1 s2 s3 :
  performed ws1 a cmds1 sent1 s1 s2 → performed ws2 a cmds2 sent2 s2 s3 →
  performed (ws1 ++ ws2) a (cmds1 ++ cmds2) (sent1 ++ sent2) s1 s3.
Proof.
  intros (c1 & c2 & rs1 & H1 & H2 & Ha1 & Ho1 & Ht1 & Hc1 & Hl1) (c2' & c3 & rs2 & H2' & H3 & Ha2 & Ho2 & Ht2 & Hc2 & Hl2).
  rewrite H2 in H2'. injection H2' as <-. exists c1, c3, (rs1 ++ rs2). split; [done|]. split; [done|].
  split; [by eapply answers_app|]. split; [by rewrite <- app_assoc, Ho2, app_assoc, Ho1, fmap_app, join_app, app_assoc|].
  split; [congruence|]. split; [congruence|]. rewrite Forall_app. intros [Hw1 Hw2] He.
  destruct (Hl1 Hw1 He) as [Hd1 He1], (Hl2 Hw2 He1) as [Hd2 He2]. split; [|done].
  by rewrite Hd2, Hd1, fmap_app, join_app, app_assoc.
Qed.

(** A step that only changes the input, the flags or the registration. *)
Lemma performed_nothing a s s' c c' :
  conns (hub s) !! a = Some c → conns (hub s') !! a = Some c' → db s' = db s → disk s' = disk s → aof s' = aof s →
  out_ c' = out_ c → txn c' = txn c → subscribedChannels c' = subscribedChannels c → performed [] a [] [] s s'.
Proof.
  intros H1 H2 Hd Hk Hf Ho Ht Hsub. exists c, c', []. rewrite Hd, Hk, Hf, Ho, Ht, Hsub. cbn. rewrite !app_nil_r.
  split_and!; try done. constructor.
Qed.

Lemma steady_enabled s s' : steady s s' → AOFWriter.isEnabled (aof s') = AOFWriter.isEnabled (aof s).
Proof.
  intros Hst. pose proof (st_base _ _ Hst) as Hb. unfold base_fds in Hb. injection Hb as _ _ Hl.
  unfold AOFWriter.log_fds in Hl. by destruct (AOFWriter.isEnabled (aof s')), (AOFWriter.isEnabled (aof s)).
Qed.

Lemma ordinary_not_transactional args arg0 rest :
  ordinary args → args = arg0 :: rest → transactional (to_upper arg0) = false ∧ to_upper arg0 ≠ lit "EXEC".
Proof.
  intros [Hd Hnm] ->. destruct Hd as (Hm & Hdis & _).
  assert (Hex : to_upper arg0 ≠ lit "EXEC") by (intros Heq; apply Hnm; rewrite Heq; do 2 right; left).
  split; [|done]. unfold transactional. by rewrite !bool_decide_false.
Qed.

Lemma execute_serves w a arg0 rest s c :
  server_ok s → world_ok w → conns (hub s) !! a = Some c → ordinary (arg0 :: rest) →
  execute w a (arg0 :: rest) (to_upper arg0) s ⇓ λ s', good true a s s' ∧ performed [w] a [arg0 :: rest] [] s s'.
Proof.
  intros Hs Hw Ha Ho. destruct (ordinary_not_transactional _ arg0 rest Ho eq_refl) as [Htr Hex].
  pose proof (dispatch_ok 1 0 w a arg0 rest s Hs Hw ltac:(by rewrite Ha) ltac:(done)) as Hgood. rewrite Htr in Hgood.
  assert (Hd : dispatch 1 0 w a (arg0 :: rest) s ⇓ λ s1, ∃ r c',
    command_line (envs w 0) (Database.view (db s)) (arg0 :: rest) r (Database.view (db s1)) ∧ replied c r c' ∧
    conns (hub s1) !! a = Some c' ∧ disk s1 = disk s).
  { rewrite (dispatch_core 1 0 w a arg0 rest s c Ha (proj2 Ho)). eapply returns_bind.
    - apply dispatch_spec; [apply (w_env w Hw)|apply Hs|apply Hs|apply (sv_conns s Hs a c Ha)|apply Ho].
    - intros [db' c'] (r & m' & Hcl & [_ <-] & _ & Hr). apply returns_ok. exists r, c'.
      cbn [db hub disk set_db set_hub conns store].
      rewrite lookup_insert_eq. exact (conj Hcl (conj Hr (conj eq_refl eq_refl))). }
  unfold execute. eapply returns_bind; [exact (returns_and _ _ _ Hd Hgood)|]. cbn [negb].
  intros s1 [(r & c' & Hcl & Hr & Ha1 & Hdisk) Hg1].
  run_with ServerMetrics.record_metrics_ok; [apply Hg1|]. intros m Hm.
  pose proof (good_trans _ _ _ _ _ Hg1 (set_metrics_good a s1 m (proj1 Hg1) Hm)) as Hg2.
  rewrite (bool_decide_false (to_upper arg0 = lit "EXEC")) by done. cbn [negb].
  pose proof (logCommand_ok a w 0 (arg0 :: rest) (set_metrics m s1) (proj1 Hg2) Hw ltac:(done)) as Hl.
  pose proof (logCommand_data (writes w 0) (arg0 :: rest) (set_metrics m s1)) as Hkeep.
  pose proof (λ Ht He, logCommand_appends w 0 arg0 rest (set_metrics m s1) Ht He) as Happ.
  destruct (logCommand _ _ _) as [s2|]; [|done]. cbn [returns] in Hl, Hkeep, Happ |- *.
  pose proof (good_trans _ _ _ _ _ Hg2 Hl) as Hg3. split; [done|]. exists c, c', [r].
  destruct (Hkeep s2 eq_refl) as [Hdb Hhub]. rewrite Hdb, Hhub. cbn [db hub set_metrics]. split; [done|]. split; [done|].
  destruct Hr as (Hceq & _ & Hout). split; [by econstructor; [exact Hcl|constructor]|].
  split; [cbn; by rewrite app_nil_r|]. split; [by rewrite Hceq|]. split; [by rewrite Hceq|].
  clear Hcl. intros Hts He. apply Forall_cons in Hts as [Ht _]. destruct Happ as (Hc & Hf & _); [exact Ht| |].
  - cbn [aof set_metrics]. rewrite (steady_enabled s s1); [done|apply Hg1].
  - rewrite Hc. cbn [disk set_metrics fmap list_fmap mjoin list_join]. rewrite Hdisk, app_nil_r. split; [done|].
    rewrite (steady_enabled s s2); [done|apply Hg3].
Qed.

(** ** The parse loop *)

Lemma ordinary_nonempty args : ordinary args → args ≠ [].
Proof. by intros [_ H] ->. Qed.

(** Past the gates of an idle client. *)
Lemma processCommand_serves w a args s c :
  server_ok s → world_ok w → conns (hub s) !! a = Some c → idle c → ordinary args →
  processCommand w a args s ⇓ λ s', good true a s s' ∧ performed [w] a [args] [] s s'.
Proof.
  intros Hs Hw Ha [Ht Hsub] Ho. destruct args as [|arg0 rest]; [by destruct (ordinary_nonempty _ Ho)|].
  unfold processCommand. rewrite (load_bind _ _ _ _ Ha). unfold inSubscribeMode. rewrite Hsub, Ht.
  by apply (execute_serves w a arg0 rest s c).
Qed.

(** The connection at [a] is idle and has [data] to be parsed. *)
Definition awaits (a : addr) (data : bytes) (s : Server) : Prop :=
  ∃ c, conns (hub s) !! a = Some c ∧ idle c ∧ Buffer.represents (in_ c) data.

(** Other input and flags for the connection at [a]. *)
Lemma reconn a s c c' data :
  server_ok s → conns (hub s) !! a = Some c → idle c → conn_ok c' → fd_ c' = fd_ c → out_ c' = out_ c →
  txn c' = txn c → subscribedChannels c' = subscribedChannels c → Buffer.represents (in_ c') data →
  let s' := set_hub (store (hub s) a c') s in
  server_ok s' ∧ stable s s' ∧ awaits a data s' ∧ performed [] a [] [] s s' ∧ conns (hub s') !! a = Some c'.
Proof.
  intros Hs Ha [Ht Hsub] Hc' Hf Ho Ht' Hsub' Hb s'.
  assert (Ha' : conns (hub s') !! a = Some c') by apply lookup_insert_eq.
  destruct (store_stable a s c c' Hs Ha Hc' Hf Hsub') as [Hs' Hst]. split; [done|]. split; [done|].
  split; [exists c'; split; [done|]; split; [split; congruence|done]|]. split; [|done].
  by eapply performed_nothing; [exact Ha|exact Ha'|..].
Qed.

(** A parse that leaves [data] as input. *)
Lemma input_set a s c b data :
  server_ok s → conns (hub s) !! a = Some c → idle c → Buffer.represents b data → RespParser.fits_int data →
  let s' := set_hub (store (hub s) a (set_in b c)) s in
  server_ok s' ∧ stable s s' ∧ awaits a data s' ∧ performed [] a [] [] s s' ∧ conns (hub s') !! a = Some (set_in b c).
Proof.
  intros Hs Ha Hi Hb Hfit. apply (reconn a s c); try done. destruct Hb as [Hb Hr].
  apply set_in_ok; [by apply (sv_conns s Hs a c Ha)|done|by rewrite Hr].
Qed.

Lemma parse_tail g b tail :
  (∀ n, g n = true) → Buffer.represents b tail → AOFLoader.cut_short tail → RespParser.parse g b = Ok (None, b).
Proof.
  intros Hg Hb [->|(args & missing & Henc & Hm & Hf)]; [|by eapply RespParser.parse_prefix_none].
  apply (RespParser.parse_prefix_none g b [] [] (enc_command [])); [done..| |done]. by vm_compute.
Qed.

(** The allocator grants what the requests announce. *)
Definition room (ws : nat → World) : Prop := ∀ k n, grants (envs (ws k) 0) n = true.

(** Every whole command of the input is executed, once and in order, and what is cut
    short stays in the buffer. *)
Lemma drain_serves fuel ws a cmds tail s :
  server_ok s → (∀ k, world_ok (ws k)) → room ws → awaits a (AOFWriter.log_bytes cmds ++ tail) s →
  RespParser.fits_int (AOFWriter.log_bytes cmds ++ tail) → AOFLoader.cut_short tail → Forall ordinary cmds →
  length cmds < fuel →
  drain fuel ws a s ⇓ λ s', server_ok s' ∧ stable s s' ∧ awaits a tail s' ∧
    performed (ws <$> seq 0 (length cmds)) a cmds [] s s'.
Proof.
  revert fuel ws s. induction cmds as [|args cmds IH]; intros fuel ws s Hs Hws Hroom (c & Ha & Hi & Hb) Hfit Hcut Hall Hfuel;
    (destruct fuel as [|fuel]; [simpl in Hfuel; lia|]); cbn [drain]; rewrite (load_bind _ _ _ _ Ha).
  - rewrite (parse_tail _ (in_ c) tail (Hroom 0) Hb Hcut), bind_ok. cbv zeta. apply returns_ok.
    destruct (input_set a s c (in_ c) tail Hs Ha Hi Hb Hfit) as (H1 & H2 & H3 & H4 & _). done.
  - apply Forall_cons in Hall as [Ho Hall].
    assert (Hlog : AOFWriter.log_bytes (args :: cmds) ++ tail = enc_command args ++ AOFWriter.log_bytes cmds ++ tail)
      by by rewrite app_assoc.
    rewrite Hlog in Hb, Hfit. run_with RespParser.parse_enc; [exact Hb|exact Hfit|apply Hroom|]. intros [r b] [-> Hb']. cbv zeta.
    assert (Hfit' : RespParser.fits_int (AOFWriter.log_bytes cmds ++ tail))
      by (unfold RespParser.fits_int in *; rewrite length_app in Hfit; lia).
    destruct (input_set a s c b _ Hs Ha Hi Hb' Hfit') as (Hs1 & Hst1 & _ & Hp1 & Ha1).
    run_with (processCommand_serves (ws 0) a args); [exact Hs1|done|exact Ha1|exact Hi|done|].
    intros s2 [(Hs2 & Hst2 & Ht2) Hp2]. destruct (steady_conn _ _ _ _ Hst2 Ha1) as (c2 & Ha2 & Hin2 & _).
    assert (Hi2 : idle c2).
    { destruct Hp2 as (d & d' & _ & Hd & Hd' & _ & _ & Htx & Hsub & _). rewrite Ha1 in Hd. rewrite Ha2 in Hd'.
      injection Hd as <-. injection Hd' as <-. destruct Hi. by split; [rewrite Htx|rewrite Hsub]. }
    eapply returns_mono; [apply (IH fuel (λ k, ws (S k)) s2 Hs2); [done|intros k; apply Hroom| |done|done|done|simpl in Hfuel; lia]|].
    + exists c2. split; [done|]. split; [done|]. by rewrite Hin2.
    + intros s3 (Hs3 & Hst3 & Haw & Hp3). split; [done|]. split.
      { eapply stable_trans; [exact Hst1|]. eapply stable_trans; [by apply steady_stable|done]. }
      split; [done|]. pose proof (performed_trans _ _ _ _ _ _ _ _ _ _ Hp1 (performed_trans _ _ _ _ _ _ _ _ _ _ Hp2 Hp3)) as Hp.
      cbn [app] in Hp. cbn [length seq fmap list_fmap]. rewrite <- fmap_S_seq, <- list_fmap_compose. exact Hp.
Qed.

(** ** One event *)

(** The bytes [t] arrive with the event (none when the client is not readable), and
    the outside keeps its contracts. *)
Record session_event (ev : ClientEvent) (t : bytes) : Prop := {
  se_err : ev_err ev = false;
  se_none : ev_in ev = false → t = [];
  se_read n : ev_in ev = true → kReadBufSize ≤ n → delivered (ev_read ev n) = t;
  se_data n t' : ev_in ev = true → ev_read ev n = ReadData t' → t' = t ∧ length t ≤ n;
  se_write : write_contract (ev_write ev);
  se_worlds k : world_ok (ev_worlds ev k);
  se_room : room (ev_worlds ev)
}.

(** What the event offers to [write]: the output after its commands. *)
Definition offered (fd : Z) (ev : ClientEvent) (s : Server) : bytes :=
  match connections s !! fd with
  | None => []
  | Some a =>
      match (if ev_in ev then handleReadable (ev_now ev) (ev_read ev) (ev_worlds ev) a s else mret s) with
      | Ok s1 =>
          match conns (hub s1) !! a with
          | Some c => if ev_out ev && negb (wantClose_ c) then Buffer.readable (out_ c) else []
          | None => []
          end
      | Fault _ => []
      end
  end.

(** The bytes that reach the client. *)
Definition sentBy (fd : Z) (ev : ClientEvent) (s : Server) : bytes :=
  take (taken (ev_write ev (offered fd ev s))) (offered fd ev s).

(** [handleRead] and the parse loop. *)
Lemma handleReadable_serves now kernel ws a p t cmds tail s :
  server_ok s → (∀ k, world_ok (ws k)) → room ws → awaits a p s → p ++ t = AOFWriter.log_bytes cmds ++ tail →
  (∀ n, kReadBufSize ≤ n → delivered (kernel n) = t) →
  (∀ n t', kernel n = ReadData t' → t' = t ∧ length t ≤ n) → RespParser.fits_int (p ++ t) → AOFLoader.cut_short tail →
  Forall ordinary cmds →
  handleReadable now kernel ws a s ⇓ λ s', server_ok s' ∧ stable s s' ∧ awaits a tail s' ∧
    performed (ws <$> seq 0 (length cmds)) a cmds [] s s'.
Proof.
  intros Hs Hws Hroom (c & Ha & Hi & Hb) Hpt Hdel Hk Hfit Hcut Hall. unfold handleReadable. rewrite (load_bind _ _ _ _ Ha).
  pose proof (sv_conns s Hs a c Ha) as Hc.
  run_with (handleRead_ok now kernel c p); [done|intros n t' Hn; by destruct (Hk n t' Hn) as [-> ?]|].
  intros [alive c1] (n & Hn & _ & Hin1 & Ho1 & Ht1 & Hsub1 & Hf1). rewrite (Hdel n Hn) in Hin1.
  set (c2 := if alive then c1 else setWantRead false c1).
  assert (H2 : in_ c2 = in_ c1 ∧ out_ c2 = out_ c ∧ txn c2 = txn c ∧ fd_ c2 = fd_ c ∧
    subscribedChannels c2 = subscribedChannels c) by (subst c2; destruct alive; done).
  destruct H2 as (Hi2 & Ho2 & Ht2 & Hf2 & Hs2). cbv zeta. fold c2. clearbody c2.
  destruct (reconn a s c c2 (p ++ t) Hs Ha Hi) as (Hok1 & Hst1 & Haw1 & Hp1 & Ha1); try done; [|by rewrite Hi2|].
  { destruct Hin1 as [Hw1 Hr1]. split; unfold out_ok; rewrite ?Hi2, ?Ho2, ?Ht2, ?Hr1; [done|done|apply Hc|apply Hc]. }
  set (s1 := set_hub _ s) in *. rewrite Hpt in Haw1, Hfit.
  assert (Hd : drainInput ws a s1 ⇓ λ s', server_ok s' ∧ stable s1 s' ∧ awaits a tail s' ∧
    performed (ws <$> seq 0 (length cmds)) a cmds [] s1 s').
  { unfold drainInput. rewrite (load_bind _ _ _ _ Ha1). apply drain_serves; try done.
    rewrite Hi2, (Buffer.readableBytes_length _ _ Hin1), Hpt, length_app. pose proof (AOFLoader.log_bytes_long cmds). lia. }
  eapply returns_bind; [exact Hd|]. intros s2 (Hok2 & Hst2 & (c3 & Ha3 & Hi3 & Hb3) & Hp2). unfold onConn.
  rewrite (load_bind _ _ _ _ Ha3), bind_ok. apply returns_ok. set (c4 := if bool_decide _ then _ else c3).
  destruct (reconn a s2 c3 c4 tail Hok2 Ha3 Hi3) as (Hok4 & Hst4 & Haw4 & Hp4 & _);
    try (subst c4; by case_bool_decide).
  { apply (flags_ok c3); [by apply (sv_conns s2 Hok2 a)|..]; subst c4; by case_bool_decide. }
  split; [done|]. split; [by eapply stable_trans; [|eapply stable_trans]|]. split; [done|].
  pose proof (performed_trans _ _ _ _ _ _ _ _ _ _ Hp1 (performed_trans _ _ _ _ _ _ _ _ _ _ Hp2 Hp4)) as Hp.
  cbn [app] in Hp. by rewrite !app_nil_r in Hp.
Qed.

(** What [write] takes leaves the output buffer. *)
Lemma handleWritable_serves now kernel a p s c :
  server_ok s → write_contract kernel → conns (hub s) !! a = Some c → idle c → Buffer.represents (in_ c) p →
  let o := if wantClose_ c then [] else Buffer.readable (out_ c) in
  handleWritable now kernel a s ⇓ λ s', server_ok s' ∧ stable s s' ∧ awaits a p s' ∧
    performed [] a [] (take (taken (kernel o)) o) s s'.
Proof.
  intros Hs Hk Ha Hi Hb o. pose proof (sv_conns s Hs a c Ha) as Hc. unfold handleWritable, onConn.
  rewrite (load_bind _ _ _ _ Ha). subst o. destruct (wantClose_ c).
  { rewrite bind_ok. apply returns_ok. destruct (reconn a s c c p Hs Ha Hi) as (H1 & H2 & H3 & H4 & _); try done.
    by rewrite take_nil. }
  eapply (returns_bind _ _ (λ c2,
    Buffer.represents (out_ c2) (drop (taken (kernel (Buffer.readable (out_ c)))) (Buffer.readable (out_ c))) ∧
    in_ c2 = in_ c ∧ txn c2 = txn c ∧ fd_ c2 = fd_ c ∧ subscribedChannels c2 = subscribedChannels c)).
  { run_with (handleWrite_ok now kernel c (Buffer.readable (out_ c))); [by split; [apply Hc|]|done|].
    intros [ok c1] (Ho1 & _ & Hrest). apply returns_ok.
    assert (Ho : Buffer.represents (out_ c1) (drop (taken (kernel (Buffer.readable (out_ c)))) (Buffer.readable (out_ c)))).
    { case_bool_decide as H0; [|done]. rewrite H0 in *. by rewrite drop_nil in *. }
    destruct Hrest as (E1 & E2 & E3 & E4). clear Ho1. destruct ok; cbn [negb]; [case_bool_decide|];
      exact (conj Ho (conj E1 (conj E2 (conj E4 E3)))). }
  intros c2 ([Hw1 Hr1] & Hi2 & Ht2 & Hf2 & Hs2). apply returns_ok.
  assert (Hc2 : conn_ok c2).
  { split; unfold out_ok; rewrite ?Hi2, ?Ht2; [apply Hc|apply Hc|exact Hw1|apply Hc]. }
  destruct (store_stable a s c c2 Hs Ha Hc2 Hf2 Hs2) as [Hs' Hst]. destruct Hi as [Htx Hsb].
  assert (Ha2 : conns (hub (set_hub (store (hub s) a c2) s)) !! a = Some c2) by apply lookup_insert_eq.
  split; [done|]. split; [done|]. split; [exists c2; split; [done|]; split; [split; congruence|by rewrite Hi2]|].
  exists c, c2, []. split; [done|]. split; [done|]. split; [constructor|]. cbn [fmap list_fmap mjoin list_join].
  split; [|split; [done|]; split; [done|]; intros _ He; by rewrite app_nil_r].
  rewrite Hr1, app_nil_r. apply take_drop.
Qed.

Lemma finishEvent_serves fd a p s :
  server_ok s → awaits a p s →
  finishEvent fd a s ⇓ λ s', server_ok s' ∧ stable s s' ∧ awaits a p s' ∧ performed [] a [] [] s s'.
Proof.
  intros Hs (c & Ha & Hi & Hb). unfold finishEvent, onConn. rewrite (load_bind _ _ _ _ Ha), !bind_ok.
  set (c1 := if _ && _ then _ else c).
  destruct (reconn a s c c1 p Hs Ha Hi) as (Hs1 & Hst1 & Haw1 & Hp1 & Ha1); try (subst c1; by destruct (_ && _)).
  { apply (flags_ok c); [by apply (sv_conns s Hs a)|..]; subst c1; by destruct (_ && _). }
  rewrite (load_bind _ _ _ _ Ha1). apply returns_ok. destruct (wantClose_ c1); [done|].
  destruct (modFd_ok fd (wantRead_ c1, wantWrite_ c1) _ Hs1) as [Hs2 Hst2]. split; [done|].
  split; [by eapply stable_trans|]. split; [exact Haw1|exact Hp1].
Qed.

Lemma clientEvent_serves fd a ev p t cmds tail s :
  server_ok s → connections s !! fd = Some a → session_event ev t → awaits a p s →
  p ++ t = AOFWriter.log_bytes cmds ++ tail → RespParser.fits_int (p ++ t) → AOFLoader.cut_short tail →
  Forall ordinary cmds → (ev_in ev = false → cmds = []) →
  clientEvent fd ev s ⇓ λ s', server_ok s' ∧ connections s' !! fd = Some a ∧ awaits a tail s' ∧
    performed (ev_worlds ev <$> seq 0 (length cmds)) a cmds (sentBy fd ev s) s s'.
Proof.
  intros Hs Hfd [Herr Hnone Hrd Hdt Hwr Hws Hroom] Haw Hpt Hfit Hcut Hall Hno. unfold clientEvent, sentBy, offered.
  rewrite Hfd, Herr.
  assert (H1 : (if ev_in ev then handleReadable (ev_now ev) (ev_read ev) (ev_worlds ev) a s else mret s) ⇓ λ s',
    server_ok s' ∧ stable s s' ∧ awaits a tail s' ∧ performed (ev_worlds ev <$> seq 0 (length cmds)) a cmds [] s s').
  { destruct (ev_in ev) eqn:Hin; [by eapply handleReadable_serves; eauto|]. rewrite (Hno eq_refl) in Hpt |- *.
    rewrite (Hnone eq_refl), app_nil_r in Hpt. change (AOFWriter.log_bytes [] ++ tail) with tail in Hpt. subst p.
    apply returns_ok. split; [done|]. split; [apply stable_refl|]. split; [done|]. destruct Haw as (c & Ha & _).
    by eapply performed_nothing; [exact Ha|exact Ha|..]. }
  destruct (if ev_in ev then _ else _) as [s1|]; [|done]. rewrite bind_ok. cbn [returns] in H1.
  destruct H1 as (Hs1 & Hst1 & (c1 & Ha1 & Hi1 & Hb1) & Hp1). rewrite Ha1.
  set (o := if ev_out ev && _ then _ else _).
  assert (H2 : (if ev_out ev then handleWritable (ev_now ev) (ev_write ev) a s1 else mret s1) ⇓ λ s',
    server_ok s' ∧ stable s1 s' ∧ awaits a tail s' ∧ performed [] a [] (take (taken (ev_write ev o)) o) s1 s').
  { subst o. destruct (ev_out ev); cbn [andb].
    - pose proof (handleWritable_serves (ev_now ev) (ev_write ev) a tail s1 c1 Hs1 Hwr Ha1 Hi1 Hb1) as H. cbv zeta in H.
      by destruct (wantClose_ c1).
    - rewrite take_nil. apply returns_ok. split; [done|]. split; [apply stable_refl|]. split; [by exists c1|].
      by eapply performed_nothing; [exact Ha1|exact Ha1|..]. }
  eapply returns_bind; [exact H2|]. clear H2. intros s2 (Hs2 & Hst2 & Haw2 & Hp2).
  eapply returns_mono; [by apply finishEvent_serves|]. intros s3 (Hs3 & Hst3 & Haw3 & Hp3). split; [done|].
  split; [by rewrite (sb_map _ _ Hst3), (sb_map _ _ Hst2), (sb_map _ _ Hst1)|]. split; [done|].
  pose proof (performed_trans _ _ _ _ _ _ _ _ _ _ Hp1 (performed_trans _ _ _ _ _ _ _ _ _ _ Hp2 Hp3)) as Hp.
  cbn [app] in Hp. by rewrite !app_nil_r in Hp.
Qed.

(** ** A whole session *)

(** Events of one client, with what was sent to it. *)
Fixpoint session (fd : Z) (evs : list ClientEvent) (s : Server) : result (bytes * Server) :=
  match evs with
  | [] => mret ([], s)
  | ev :: evs' =>
      s1 ← clientEvent fd ev s;
      '(sent, s2) ← session fd evs' s1;
      mret (sentBy fd ev s ++ sent, s2)
  end.

(** A whole command is not cut short. *)
Lemma cut_short_whole cmds :
  AOFLoader.cut_short (AOFWriter.log_bytes cmds) → RespParser.fits_int (AOFWriter.log_bytes cmds) → cmds = [].
Proof.
  intros Hcut Hfit. destruct cmds as [|args cmds]; [done|]. exfalso. rewrite AOFLoader.log_bytes_cons in *.
  pose proof (Buffer.append_ok Buffer.empty [] (enc_command args ++ AOFWriter.log_bytes cmds) Buffer.empty_represents) as Hb.
  apply returns_iff in Hb as (b & _ & Hb).
  pose proof (RespParser.parse_enc (λ _, true) b args _ Hb Hfit eq_refl) as Hp.
  by rewrite (parse_tail _ b _ (λ _, eq_refl) Hb Hcut) in Hp; destruct Hp.
Qed.

(** A prefix of what is to come: whole commands and the piece of the next. *)
Lemma split_stream cmds p rest :
  RespParser.fits_int (AOFWriter.log_bytes cmds) → AOFWriter.log_bytes cmds = p ++ rest →
  ∃ done todo tail, cmds = done ++ todo ∧ p = AOFWriter.log_bytes done ++ tail ∧
    AOFWriter.log_bytes todo = tail ++ rest ∧ AOFLoader.cut_short tail.
Proof.
  intros Hfit Hlog. destruct (AOFLoader.cut_log cmds (length p) Hfit) as (j & tail & _ & Htk & Hcut & _).
  rewrite Hlog, take_app_length in Htk. exists (take j cmds), (drop j cmds), tail. rewrite take_drop.
  split; [done|]. split; [done|]. split; [|done]. rewrite <- (take_drop j cmds) in Hlog at 1.
  unfold AOFWriter.log_bytes in *. rewrite fmap_app, join_app, Htk, <- app_assoc in Hlog. by apply app_inv_head in Hlog.
Qed.

Lemma session_serves fd a evs ts : ∀ s p cmds rest,
  server_ok s → connections s !! fd = Some a → awaits a p s → AOFLoader.cut_short p → Forall ordinary cmds →
  RespParser.fits_int (AOFWriter.log_bytes cmds) → Forall2 session_event evs ts →
  AOFWriter.log_bytes cmds = p ++ mjoin ts ++ rest →
  session fd evs s ⇓ λ '(sent, s'), ∃ ws done todo tail,
    cmds = done ++ todo ∧ AOFWriter.log_bytes todo = tail ++ rest ∧ AOFLoader.cut_short tail ∧ server_ok s' ∧
    awaits a tail s' ∧ performed ws a done sent s s' ∧ Forall (λ w, ∃ ev k, ev ∈ evs ∧ w = ev_worlds ev k) ws.
Proof.
  intros s p cmds rest Hs Hfd Haw Hcut Hall Hfit Hevs. revert s p cmds Hs Hfd Haw Hcut Hall Hfit.
  induction Hevs as [|ev t evs ts Hev _ IH]; intros s p cmds Hs Hfd Haw Hcut Hall Hfit Hlog; cbn [session].
  { apply returns_ok. exists [], [], cmds, p. destruct Haw as (c & Ha & Hi). split_and!; try done; [by exists c|].
    by eapply performed_nothing; [exact Ha|exact Ha|..]. }
  cbn [mjoin list_join] in Hlog. rewrite <- app_assoc in Hlog.
  assert (Hsplit : ∃ done todo tail, cmds = done ++ todo ∧ p ++ t = AOFWriter.log_bytes done ++ tail ∧
    AOFWriter.log_bytes todo = tail ++ mjoin ts ++ rest ∧ AOFLoader.cut_short tail ∧ (ev_in ev = false → done = [])).
  { destruct (ev_in ev) eqn:Hin.
    - rewrite app_assoc in Hlog. destruct (split_stream cmds _ _ Hfit Hlog) as (d & td & tl & H1 & H2 & H3 & H4).
      by exists d, td, tl.
    - exists [], cmds, p. rewrite (se_none _ _ Hev Hin), app_nil_r in *. done. }
  destruct Hsplit as (done & todo & tail & -> & Hpt & Htodo & Hcut1 & Hno). apply Forall_app in Hall as [Hd Htd].
  assert (Hf : RespParser.fits_int (p ++ t) ∧ RespParser.fits_int (AOFWriter.log_bytes todo)).
  { unfold RespParser.fits_int, AOFWriter.log_bytes in *. rewrite Hpt. rewrite fmap_app, join_app, length_app in Hfit.
    rewrite Htodo in Hfit |- *. rewrite !length_app in *. lia. }
  eapply returns_bind; [apply (clientEvent_serves fd a ev p t done tail s); try done; apply Hf|].
  intros s1 (Hs1 & Hfd1 & Haw1 & Hp1).
  eapply returns_bind; [apply (IH s1 tail todo); try done; apply Hf|].
  intros [sent s2] (ws & done2 & todo2 & tail2 & -> & Htodo2 & Hcut2 & Hs2 & Haw2 & Hp2 & Hws). apply returns_ok.
  exists ((ev_worlds ev <$> seq 0 (length done)) ++ ws), (done ++ done2), todo2, tail2.
  split; [by rewrite app_assoc|]. split_and!; try done; [by eapply performed_trans|].
  apply Forall_app. split.
  - apply Forall_forall. intros w (k & -> & _)%list_elem_of_fmap. exists ev, k. split; [by left|done].
  - eapply Forall_impl; [exact Hws|]. intros w (ev' & k & Hin & ->). exists ev', k. split; [by right|done].
Qed.

(** ** Properties *)

(** C3: from the bytes a client sends to the bytes it gets back.  An idle client
    sends commands that work on the database; their encoding arrives in any
    fragments, over any number of readiness events, mixed with events in which the
    socket takes any part of the output; the allocator grants what the requests
    announce.  Then no event faults; the commands
    whose bytes have arrived in full are executed, each once and in order, with
    replies and data as the specification of the commands says; sent and
    buffered output together are the earlier output and exactly those replies in
    order; a log that can be written gets exactly the writes; and what is left in
    the input buffer is the piece of the next command, none once everything has
    arrived. *)
Theorem client_session (fd : Z) (a : addr) (s : Server) (cmds : list (list bytes)) (evs : list ClientEvent)
    (ts : list bytes) (rest : bytes) :
  reachable s → connections s !! fd = Some a → awaits a [] s → Forall ordinary cmds →
  (Z.of_nat (length (AOFWriter.log_bytes cmds)) ≤ 2 ^ 31)%Z → Forall2 session_event evs ts →
  AOFWriter.log_bytes cmds = mjoin ts ++ rest →
  session fd evs s ⇓ λ '(sent, s'), ∃ ws done todo tail,
    cmds = done ++ todo ∧ AOFWriter.log_bytes todo = tail ++ rest ∧ (rest = [] → todo = []) ∧ awaits a tail s' ∧
    performed ws a done sent s s' ∧ Forall (λ w, ∃ ev k, ev ∈ evs ∧ w = ev_worlds ev k) ws.
Proof.
  intros Hr Hfd Haw Hall Hfit Hevs Hlog.
  eapply returns_mono; [apply (session_serves fd a evs ts s [] cmds rest); try done; [by apply reachable_ok|by left]|].
  intros [sent s'] (ws & done & todo & tail & -> & Htodo & Hcut & _ & Haw' & Hp & Hws). exists ws, done, todo, tail.
  split_and!; try done. intros ->. rewrite app_nil_r in Htodo. apply cut_short_whole; [by rewrite Htodo|].
  unfold RespParser.fits_int, AOFWriter.log_bytes in *. rewrite fmap_app, join_app, length_app in Hfit. lia.
Qed.

(** ** Witness *)

Definition demo_cmds : list (list bytes) := [[lit "SET"; lit "k"; lit "v"]; [lit "get"; lit "k"]].

(** Bytes that arrive while the socket takes three bytes. *)
Definition arrival (t : bytes) : ClientEvent :=
  mkClientEvent false true true 0 (λ n, if bool_decide (length t ≤ n) then ReadData t else ReadAgain) three_at_a_time
    (λ _, world).

Lemma arrival_ok t : length t ≤ kReadBufSize → session_event (arrival t) t.
Proof.
  intros Ht. split; try done; cbn.
  - intros n _ Hn. rewrite bool_decide_true by lia. done.
  - intros n t' _. case_bool_decide; [|done]. by intros [= <-].
  - intros s. apply Nat.le_min_r.
  - intros _. exact demo_world_ok.
Qed.

Lemma demo_ordinary : Forall ordinary demo_cmds.
Proof.
  assert (H : ∀ arg0 rest, bool_decide ((to_upper arg0 ∉ main_names) ∧
      to_upper arg0 ∉ [lit "MULTI"; lit "DISCARD"; lit "LRANGE"; lit "ZRANGE"]) = true → ordinary (arg0 :: rest)).
  { intros arg0 rest [Hm Hn]%bool_decide_eq_true_1. rewrite !not_elem_of_cons in Hn. destruct Hn as (H1 & H2 & H3 & H4 & _).
    split; [|done]. split; [done|]. split; [done|]. by intros [?|?]. }
  repeat (apply Forall_cons; split); [apply H; reflexivity..|apply Forall_nil_2].
Qed.

Definition demo_stream : bytes := AOFWriter.log_bytes demo_cmds.

Lemma client_session_witness :
  session 7 [arrival (take 40 demo_stream); arrival (drop 40 demo_stream)] (with_client client) ⇓ λ '(sent, s'),
    ∃ ws done todo tail,
      demo_cmds = done ++ todo ∧ AOFWriter.log_bytes todo = tail ++ [] ∧ (@nil ascii = [] → todo = []) ∧ awaits 0 tail s' ∧
      performed ws 0 done sent (with_client client) s' ∧
      Forall (λ w, ∃ ev k, ev ∈ [arrival (take 40 demo_stream); arrival (drop 40 demo_stream)] ∧ w = ev_worlds ev k) ws.
Proof.
  apply (client_session 7 0 (with_client client) demo_cmds _ [take 40 demo_stream; drop 40 demo_stream] []).
  - exact accepted_reachable.
  - reflexivity.
  - exists client. split; [reflexivity|]. split; [done|exact Buffer.empty_represents].
  - exact demo_ordinary.
  - by vm_compute.
  - constructor; [apply arrival_ok; vm_compute; lia|]. constructor; [apply arrival_ok; vm_compute; lia|constructor].
  - reflexivity.
Defined.

End ServerSession.
