(* ===== verification/ServerFrame.v ===== *)
(** * What a client event keeps

    A relation between states that holds across each parsed command, and across
    changes of the client's own connection and of the epoll registrations, holds
    across the whole event: the reading, the parse loop, the writing and the
    closing decision.  [ServerIsolation] and [ServerDurable] are instances. *)
From Stdlib Require Import Ascii String ZArith Lia ZifyNat ZifyBool.
From stdpp Require Import base option list strings gmap.
From S2P Require Import Prelude CStdlib CPosix NetBuffer ProtoSerializer ProtoParser NetConnection NetEventLoop StoreObject.
From S2P Require Import StoreInterfaces StoreDatabase CmdBase CmdTable CmdPubSub CmdInfo PersistAOF PersistRewrite.
From S2P Require Import Server Main ServerSafety.
Import Connection PubSubRegistry Server Main ServerSafety.

Module ServerFrame.

Section event.
Context (a : addr) (W : World → Prop) (R : Server → Server → Prop).

(** [R] is kept by the parts of an event of the client at [a], whose commands meet
    worlds of [W]. *)
Record kept : Prop := {
  kp_refl s : R s s;
  kp_trans s1 s2 s3 : R s1 s2 → R s2 s3 → R s1 s3;
  kp_store c s : R s (set_hub (store (hub s) a c) s);
  kp_loop l s : R s (set_loop l s);
  kp_command w cmd s s' c :
    world_ok w → W w → server_ok s → conns (hub s) !! a = Some c → processCommand w a cmd s = Ok s' → R s s'
}.

Context (HR : kept).

Lemma onConn_kept f s s' : onConn a f s = Ok s' → R s s'.
Proof.
  unfold onConn. intros (c & _ & H)%bind_Ok_inv. apply bind_Ok_inv in H as (c' & _ & [= <-]). apply (kp_store HR).
Qed.

Lemma drain_kept fuel : ∀ ws s s' c,
  server_ok s → (∀ k, world_ok (ws k)) → (∀ k, W (ws k)) → conns (hub s) !! a = Some c → drain fuel ws a s = Ok s' → R s s'.
Proof.
  induction fuel as [|fuel IH]; intros ws s s' c Hs Hws Ht Ha H; cbn [drain] in H; [discriminate H|].
  rewrite (load_bind _ _ _ _ Ha) in H. pose proof (sv_conns s Hs a c Ha) as Hc.
  pose proof (RespParser.parse_total (grants (envs (ws 0) 0)) (in_ c) (co_in c Hc) (co_fits c Hc)) as Hp.
  apply bind_Ok_inv in H as ([r b] & E & H). rewrite E in Hp. destruct Hp as [Hb Hr]. cbv zeta in H.
  eapply (kp_trans HR); [apply (kp_store HR (set_in b c))|]. set (s1 := set_hub _ s) in *.
  destruct r as [args|]; [|injection H as <-; apply (kp_refl HR)]. destruct Hr as (frame & _ & Hread).
  assert (Hcb : conn_ok (set_in b c)).
  { apply set_in_ok; [done|done|]. pose proof (co_fits c Hc) as Hf. unfold RespParser.fits_int in *.
    rewrite Hread, length_app in Hf. lia. }
  destruct (store_stable a s c (set_in b c) Hs Ha Hcb eq_refl eq_refl) as [Hs1 _]. fold s1 in Hs1.
  assert (Ha1 : conns (hub s1) !! a = Some (set_in b c)) by (cbn; by rewrite lookup_insert_eq).
  apply bind_Ok_inv in H as (s2 & E2 & H).
  pose proof (processCommand_ok (ws 0) a args s1 Hs1 (Hws 0) ltac:(by rewrite Ha1)) as Hg. rewrite E2 in Hg.
  destruct Hg as (Hs2 & Hst2 & _). destruct (steady_conn _ _ _ _ Hst2 Ha1) as (c2 & Ha2 & _).
  eapply (kp_trans HR); [by eapply (kp_command HR)|]. by apply (IH (λ k, ws (S k)) s2 s' c2).
Qed.

Lemma handleReadable_kept now kernel ws s s' c :
  server_ok s → (∀ k, world_ok (ws k)) → (∀ k, W (ws k)) → conns (hub s) !! a = Some c → read_ok kernel c →
  handleReadable now kernel ws a s = Ok s' → R s s'.
Proof.
  intros Hs Hws Ht Ha Hk H. unfold handleReadable in H. rewrite (load_bind _ _ _ _ Ha) in H.
  pose proof (after_read_ok now kernel c (sv_conns s Hs a c Ha) Hk) as Hr.
  apply bind_Ok_inv in H as ([alive c1] & E & H). rewrite E in Hr. destruct (Hr _ eq_refl) as (Hc2 & Hf2 & Hs2).
  cbv zeta in H. destruct (store_stable a s c _ Hs Ha Hc2 Hf2 Hs2) as [Hs1 _]. cbn [fst snd] in *.
  set (c2 := if alive then c1 else setWantRead false c1) in *. eapply (kp_trans HR); [apply (kp_store HR c2)|].
  set (s1 := set_hub _ s) in *. assert (Ha1 : conns (hub s1) !! a = Some c2) by (cbn; by rewrite lookup_insert_eq).
  apply bind_Ok_inv in H as (s2 & E2 & H). unfold drainInput in E2. rewrite (load_bind _ _ _ _ Ha1) in E2.
  eapply (kp_trans HR); [by eapply drain_kept|]. by apply onConn_kept in H.
Qed.

Lemma finishEvent_kept fd s s' : finishEvent fd a s = Ok s' → R s s'.
Proof.
  unfold finishEvent. intros H. apply bind_Ok_inv in H as (s1 & E & H). apply bind_Ok_inv in H as (c & _ & [= <-]).
  apply onConn_kept in E. destruct (wantClose_ c); [done|]. eapply (kp_trans HR); [exact E|apply (kp_loop HR)].
Qed.

Lemma clientEvent_kept fd ev s s' :
  server_ok s → connections s !! fd = Some a → (∀ c, conns (hub s) !! a = Some c → client_ok c ev) →
  (∀ k, W (ev_worlds ev k)) → clientEvent fd ev s = Ok s' → R s s'.
Proof.
  intros Hs Hfd Hev Ht H. unfold clientEvent in H. rewrite Hfd in H.
  destruct (sv_map s Hs fd a Hfd) as (c & Ha & _). destruct (Hev c Ha) as [Hr Hw Hws].
  destruct (ev_err ev); [by apply onConn_kept in H|].
  apply bind_Ok_inv in H as (s1 & E1 & H). apply bind_Ok_inv in H as (s2 & E2 & H).
  eapply (kp_trans HR); [|eapply (kp_trans HR); [|exact (finishEvent_kept _ _ _ H)]].
  - destruct (ev_in ev); [by eapply handleReadable_kept|]. injection E1 as <-. apply (kp_refl HR).
  - destruct (ev_out ev); [by apply onConn_kept in E2|]. injection E2 as <-. apply (kp_refl HR).
Qed.

End event.

(** ** Events one after the other *)

Fixpoint steps (evs : list event) (s : Server) : result Server :=
  match evs with [] => mret s | ev :: evs' => s' ← step ev s; steps evs' s' end.

Lemma steps_snoc evs ev : ∀ s, steps (evs ++ [ev]) s = s' ← steps evs s; step ev s'.
Proof.
  induction evs as [|e evs IH]; intros s; cbn [app steps].
  - rewrite bind_ok. by destruct (step ev s).
  - destruct (step e s) as [s1|]; [|done]. rewrite !bind_ok. apply IH.
Qed.

(** The state after the first [n] events. *)
Definition state_after (evs : list event) (n : nat) (s : Server) : Server :=
  match steps (take n evs) s with Ok s' => s' | Fault _ => s end.

Lemma state_after_step evs n ev s :
  evs !! n = Some ev → steps (take (S n) evs) s = Ok (state_after evs (S n) s) →
  step ev (state_after evs n s) = Ok (state_after evs (S n) s).
Proof.
  intros Hn. rewrite (take_S_r _ _ _ Hn), steps_snoc. unfold state_after at 2. by destruct (steps (take n evs) s).
Qed.

End ServerFrame.
