(* ===== verification/ServerIsolation.v ===== *)
(** * Clients do not see each other

    What the requests of one client do to the connections of the others: they
    receive what is published on channels they have subscribed to, and nothing
    else; their input, transactions and subscriptions are untouched.  With
    [client_session] of [ServerSession], which follows one client, this tells
    apart what is shared (the data and the log) from what is not. *)
From Stdlib Require Import Ascii String ZArith Lia ZifyNat ZifyBool.
From stdpp Require Import base option list strings gmap.
From S2P Require Import Prelude CStdlib CPosix NetBuffer ProtoSerializer ProtoParser NetConnection NetEventLoop StoreObject.
From S2P Require Import StoreInterfaces StoreDatabase CmdBase CmdList CmdTable CmdPubSub CmdInfo PersistAOF.
From S2P Require Import PersistRewrite Server Main ServerSafety ServerProperties ServerFrame.
Import Connection PubSubRegistry Server Main ServerSafety ServerProperties.

Module ServerIsolation.

(** ** What a connection can receive *)

(** Messages on channels the connection is subscribed to. *)
Inductive received (c : Connection) : Connection → Prop :=
| received_none : received c c
| received_push ch msg c1 c2 : received c c1 → ch ∈ subscribedChannels c → pushed ch msg c1 c2 → received c c2.

Lemma pushed_channels ch msg c c' : pushed ch msg c c' → subscribedChannels c' = subscribedChannels c.
Proof. by intros (c1 & (-> & _) & ->). Qed.

Lemma received_channels c c' : received c c' → subscribedChannels c' = subscribedChannels c.
Proof. induction 1 as [|ch msg c1 c2 _ IH _ Hp]; [done|]. by rewrite (pushed_channels _ _ _ _ Hp). Qed.

Lemma received_trans c1 c2 c3 : received c1 c2 → received c2 c3 → received c1 c3.
Proof.
  intros H1. induction 1 as [|ch msg c c' _ IH Hch Hp]; [done|]. eapply received_push; [exact IH| |exact Hp].
  by rewrite <- (received_channels _ _ H1).
Qed.

(** Without subscriptions, nothing. *)
Lemma received_unsubscribed c c' : subscribedChannels c = ∅ → received c c' → c' = c.
Proof. intros Hs. induction 1 as [|ch msg c1 c2 _ _ Hch _]; [done|]. rewrite Hs in Hch. by apply elem_of_empty in Hch. Qed.

(** Everything but the output and the interest in writing is what it was. *)
Lemma received_same c c' :
  received c c' → in_ c' = in_ c ∧ txn c' = txn c ∧ fd_ c' = fd_ c ∧ subscribedChannels c' = subscribedChannels c.
Proof.
  intros H. split_and!; [..|by apply received_channels];
    (induction H as [|ch msg c1 c2 _ IH _ (c3 & (Heq & _) & ->)]; [done|]; by rewrite <- IH, Heq).
Qed.

(** ** The other connections *)

Definition others (a : addr) (s s' : Server) : Prop :=
  ∀ b, b ≠ a →
  match conns (hub s) !! b, conns (hub s') !! b with
  | Some c, Some c' => received c c'
  | None, None => True
  | _, _ => False
  end.

Lemma others_hub a s s' : (∀ b, b ≠ a → conns (hub s') !! b = conns (hub s) !! b) → others a s s'.
Proof. intros H b Hb. rewrite (H b Hb). destruct (conns (hub s) !! b); [constructor|done]. Qed.

Lemma others_refl a s : others a s s.
Proof. by apply others_hub. Qed.

Lemma others_trans a s1 s2 s3 : others a s1 s2 → others a s2 s3 → others a s1 s3.
Proof.
  intros H1 H2 b Hb. specialize (H1 b Hb). specialize (H2 b Hb).
  destruct (conns (hub s1) !! b), (conns (hub s2) !! b), (conns (hub s3) !! b); try done. by eapply received_trans.
Qed.

Lemma onConn_others a f s s' : onConn a f s = Ok s' → others a s s'.
Proof.
  unfold onConn. intros (c & _ & H)%bind_Ok_inv. apply bind_Ok_inv in H as (c' & _ & [= <-]).
  apply others_hub. intros b Hb. cbn. by rewrite lookup_insert_ne.
Qed.

#[local] Opaque CommandTable.core_table server_table.

Lemma subscribe_loop_others a chs : ∀ s s', subscribe_loop a chs s = Ok s' → others a s s'.
Proof.
  induction chs as [|ch chs IH]; intros s s' H; cbn [subscribe_loop] in H; [injection H as <-; apply others_refl|].
  apply bind_Ok_inv in H as ([n h] & E & H). apply bind_Ok_inv in H as (s1 & E1 & H).
  unfold subscribe in E. apply bind_Ok_inv in E as (c & _ & [= _ <-]).
  eapply others_trans; [|by apply IH]. eapply others_trans; [|exact (onConn_others _ _ _ _ E1)].
  apply others_hub. intros b Hb. cbn. by rewrite lookup_insert_ne.
Qed.

Lemma unsubscribe_loop_others a chs : ∀ s s', unsubscribe_loop a chs s = Ok s' → others a s s'.
Proof.
  induction chs as [|ch chs IH]; intros s s' H; cbn [unsubscribe_loop] in H; [injection H as <-; apply others_refl|].
  apply bind_Ok_inv in H as ([n h] & E & H). apply bind_Ok_inv in H as (s1 & E1 & H).
  unfold unsubscribe in E. apply bind_Ok_inv in E as (c & _ & [= _ <-]).
  eapply others_trans; [|by apply IH]. eapply others_trans; [|exact (onConn_others _ _ _ _ E1)].
  apply others_hub. intros b Hb. cbn. by rewrite lookup_insert_ne.
Qed.

Lemma cmdPublish_others w n a args s s' :
  server_ok s → world_ok w → cmdPublish (order w n) a args s = Ok s' → others a s s'.
Proof.
  intros Hs Hw H. unfold cmdPublish in H. apply bind_Ok_inv in H as (ch & _ & H). apply bind_Ok_inv in H as (msg & _ & H).
  apply bind_Ok_inv in H as ([k h] & E & H). eapply others_trans; [|exact (onConn_others _ _ _ _ H)].
  pose proof (publish_ok (order w n) ch msg (hub s) (w_order w Hw n) (sv_hub s Hs)) as Hp. rewrite E in Hp.
  destruct Hp as (_ & _ & _ & Hall). intros b _. specialize (Hall b). cbn [hub set_hub].
  destruct (conns (hub s) !! b), (conns h !! b); try done. destruct (decide _); [|subst; constructor].
  eapply received_push; [constructor|done|done].
Qed.

Lemma call_others exec n w a args cl s s' :
  server_ok s → world_ok w → (∀ s', exec s = Ok s' → others a s s') → call exec n w a args cl s = Ok s' → others a s s'.
Proof.
  intros Hs Hw Hx H. destruct cl as [h| | | | | |]; cbn [call] in H.
  - unfold callPlain in H. apply bind_Ok_inv in H as (c & _ & H). apply bind_Ok_inv in H as ([d c'] & _ & [= <-]).
    apply others_hub. intros b Hb. cbn. by rewrite lookup_insert_ne.
  - by apply onConn_others in H.
  - unfold callRewrite in H. destruct (AOFRewrite.triggerRewrite _ _ _ _). by apply onConn_others in H.
  - by apply Hx.
  - by apply subscribe_loop_others in H.
  - unfold cmdUnsubscribe in H. case_bool_decide; [|by apply unsubscribe_loop_others in H].
    apply bind_Ok_inv in H as (c & _ & H). case_bool_decide; [by apply onConn_others in H|by apply unsubscribe_loop_others in H].
  - by eapply cmdPublish_others.
Qed.

Lemma dispatch0_others n w a args s s' :
  server_ok s → world_ok w → dispatch 0 n w a args s = Ok s' → others a s s'.
Proof.
  intros Hs Hw H. cbn [dispatch] in H. unfold CommandTable.dispatch_with in H.
  destruct args as [|arg0 rest]; [injection H as <-; apply others_refl|].
  destruct (server_table !! to_upper arg0) as [entry|]; [|by apply onConn_others in H].
  destruct (negb _); [by apply onConn_others in H|]. eapply call_others; [done|done| |exact H]. done.
Qed.

(** Logging does not touch connections. *)
Lemma logCommand_others a calls cmd s s' : logCommand calls cmd s = Ok s' → others a s s'.
Proof. intros H. apply others_hub. intros b _. by rewrite (proj2 (logCommand_data _ _ _ _ H)). Qed.

Lemma run_queue_others w a queue : ∀ i s s',
  world_ok w → server_ok s → is_Some (conns (hub s) !! a) → Forall queueable queue →
  run_queue w a i queue s = Ok s' → others a s s'.
Proof.
  induction queue as [|cmd queue IH]; intros i s s' Hw Hs Ha Hall H; cbn [run_queue] in H.
  { injection H as <-. apply others_refl. }
  apply Forall_cons in Hall as [Hq Hall]. pose proof (queued_dispatch_ok w a i cmd s Hs Hw Ha Hq) as Hd.
  apply bind_Ok_inv in H as (s1 & E1 & H). apply bind_Ok_inv in H as (s2 & E2 & H). rewrite E1 in Hd.
  pose proof (logCommand_ok a w (S i) cmd s1 (proj1 Hd) Hw ltac:(by destruct cmd)) as Hl. rewrite E2 in Hl.
  destruct Ha as [c Ha]. destruct (good_trans _ _ _ _ _ Hd Hl) as (Hs2 & Hst2 & _).
  destruct (steady_conn _ _ _ _ Hst2 Ha) as (c2 & Ha2 & _).
  eapply others_trans; [exact (dispatch0_others _ _ _ _ _ _ Hs Hw E1)|].
  eapply others_trans; [exact (logCommand_others _ _ _ _ _ E2)|]. by apply (IH (S i)); [..|by rewrite Ha2| |].
Qed.

Lemma cmdExec_others w a s s' c :
  world_ok w → server_ok s → conns (hub s) !! a = Some c → cmdExec (λ i, dispatch 0 (S i) w a) w a s = Ok s' → others a s s'.
Proof.
  intros Hw Hs Ha H. pose proof (sv_conns s Hs a c Ha) as Hc. destruct (txn c) as [t|] eqn:Htxn.
  - rewrite (cmdExec_runs w a s c t) in H by done.
    pose proof (onConn_reply true a (λ c, replyHeader c (Z.of_nat (length (queuedCommands t)))) s c _ Hs Ha
      (replyHeader_ok c (co_out c Hc) _)) as H1.
    apply bind_Ok_inv in H as (s1 & E1 & H). apply bind_Ok_inv in H as (s2 & E2 & H).
    rewrite E1 in H1. destruct H1 as (Hs1 & Hst1 & _). destruct (steady_conn _ _ _ _ Hst1 Ha) as (c1 & Ha1 & _).
    eapply others_trans; [exact (onConn_others _ _ _ _ E1)|]. eapply others_trans; [|exact (onConn_others _ _ _ _ H)].
    eapply run_queue_others; [done|exact Hs1|by rewrite Ha1|by apply (co_queue c Hc)|exact E2].
  - unfold cmdExec in H. rewrite (load_bind _ _ _ _ Ha), Htxn in H. by apply onConn_others in H.
Qed.

Lemma processCommand_others w a cmd s s' c :
  world_ok w → server_ok s → conns (hub s) !! a = Some c → processCommand w a cmd s = Ok s' → others a s s'.
Proof.
  intros Hw Hs Ha H. destruct cmd as [|arg0 rest]; cbn [processCommand] in H; [injection H as <-; apply others_refl|].
  rewrite (load_bind _ _ _ _ Ha) in H. destruct (inSubscribeMode c && _); [by apply onConn_others in H|].
  assert (Hx : execute w a (arg0 :: rest) (to_upper arg0) s = Ok s' → others a s s').
  { clear H. intros H. unfold execute in H. apply bind_Ok_inv in H as (s1 & E1 & H). apply bind_Ok_inv in H as (m & _ & H).
    eapply others_trans; [|destruct (negb _); [eapply (logCommand_others a), H|injection H as <-; apply others_refl]].
    change (others a s s1). cbn [dispatch] in E1. unfold CommandTable.dispatch_with in E1.
    destruct (server_table !! to_upper arg0) as [entry|]; [|by apply onConn_others in E1].
    destruct (negb _); [by apply onConn_others in E1|]. eapply call_others; [done|done| |exact E1].
    intros s2. by apply (cmdExec_others w a s s2 c). }
  destruct (txn c); [|by apply Hx]. destruct (negb _); [by apply onConn_others in H|by apply Hx].
Qed.

Lemma others_kept a : ServerFrame.kept a (λ _, True) (others a).
Proof.
  split; [apply others_refl|apply others_trans|..].
  - intros c s. apply others_hub. intros b Hb. cbn. by rewrite lookup_insert_ne.
  - intros l s. by apply others_hub.
  - intros w cmd s s' c Hw _. by apply processCommand_others.
Qed.

(** ** Property *)

(** C8: clients are isolated.  Whatever a client sends, transactions and malformed
    bytes included, the event leaves every other connection with the input, the
    transaction and the subscriptions it had; the only thing it can receive are
    messages, whole and each as one reply, on channels it has subscribed to.  So a
    client without subscriptions is not affected at all: its connection, with the
    output that waits in it, is exactly what it was. *)
Theorem clients_isolated (s : Server) (fd : Z) (ev : ClientEvent) (b : addr) (c : Connection) :
  reachable s → event_ok s (Client fd ev) → connections s !! fd ≠ Some b → conns (hub s) !! b = Some c →
  step (Client fd ev) s ⇓?? λ s', ∃ c', conns (hub s') !! b = Some c' ∧ received c c' ∧
    in_ c' = in_ c ∧ txn c' = txn c ∧ fd_ c' = fd_ c ∧ subscribedChannels c' = subscribedChannels c ∧
    (subscribedChannels c = ∅ → c' = c).
Proof.
  intros Hr Hev Hne Hb. pose proof (reachable_ok s Hr) as Hs. pose proof (step_ok _ s Hs Hev) as Hok. cbn [step] in *.
  destruct (clientEvent fd ev s) as [s'|] eqn:E; [|exact Hok]. clear Hok. cbn [survives].
  assert (H : ∃ c', conns (hub s') !! b = Some c' ∧ received c c').
  { destruct (connections s !! fd) as [a|] eqn:Hfd.
    - pose proof (ServerFrame.clientEvent_kept a _ _ (others_kept a) fd ev s s' Hs Hfd (λ c, Hev a c Hfd) (λ _, I) E b) as Ho.
      rewrite Hb in Ho. specialize (Ho ltac:(by intros ->)). destruct (conns (hub s') !! b) as [c'|]; [by exists c'|done].
    - unfold clientEvent in E. rewrite Hfd in E. injection E as <-. exists c. split; [done|constructor]. }
  destruct H as (c' & Hc' & Hrec). exists c'. split; [done|]. split; [done|].
  destruct (received_same _ _ Hrec) as (H1 & H2 & H3 & H4). split_and!; try done. intros Hsub. by apply received_unsubscribed.
Qed.

(** ** Witness *)

(** Two clients; the second subscribes, the first publishes. *)
Definition sends (args : list bytes) : ClientEvent :=
  mkClientEvent false true false 0 (λ n, if bool_decide (length (enc_command args) ≤ n) then ReadData (enc_command args) else ReadAgain)
    (λ _, WriteAgain) (λ _, world).

Definition chat : list event :=
  [Accept [(7, 0); (8, 0); (-1, 0)]%Z; Client 8 (sends [lit "SUBSCRIBE"; lit "news"])].

Definition chatting (n : nat) : Server := ServerFrame.state_after chat n booted.

Definition publish_hi : ClientEvent := sends [lit "PUBLISH"; lit "news"; lit "hi"].

(** The connection of the client on 8. *)
Definition second (n : nat) : Connection := default client (conns (hub (chatting n)) !! 1%nat).

Lemma sends_ok args c :
  RespParser.fits_int (Buffer.readable (in_ c) ++ enc_command args) → client_ok c (sends args).
Proof.
  intros Hfit. split; [|intros b; apply Nat.le_0_l|intros k; exact demo_world_ok]. intros n t. cbn [ev_read sends]. case_bool_decide; [|done].
  by intros [= <-].
Qed.

Lemma chatting_reachable : reachable (chatting 2).
Proof.
  apply (reach_step (chatting 1) (Client 8 (sends [lit "SUBSCRIBE"; lit "news"]))).
  - apply (reach_step booted (Accept [(7, 0); (8, 0); (-1, 0)]%Z)); [exact booted_reachable| |].
    + right. split; [|right; split; [|by left]]; apply (bool_decide_eq_true_1 (_ ∉ _)); reflexivity.
    + apply (ServerFrame.state_after_step chat 0); [done|]. vm_compute. reflexivity.
  - intros a c Ha Hc. assert (Hfd : connections (chatting 1) !! 8%Z = Some 1%nat) by (vm_compute; reflexivity).
    pose proof (eq_trans (eq_sym Hfd) Ha) as [= <-].
    assert (Hcl : conns (hub (chatting 1)) !! 1%nat = Some (second 1)) by (vm_compute; reflexivity).
    pose proof (eq_trans (eq_sym Hcl) Hc) as Heq. injection Heq as <-. apply sends_ok. unfold RespParser.fits_int. vm_compute. discriminate.
  - apply (ServerFrame.state_after_step chat 1); [done|]. vm_compute. reflexivity.
Qed.

Lemma clients_isolated_witness :
  step (Client 7 publish_hi) (chatting 2) ⇓?? λ s', ∃ c', conns (hub s') !! 1%nat = Some c' ∧ received (second 2) c' ∧
    in_ c' = in_ (second 2) ∧ txn c' = txn (second 2) ∧ fd_ c' = fd_ (second 2) ∧
    subscribedChannels c' = subscribedChannels (second 2) ∧ (subscribedChannels (second 2) = ∅ → c' = second 2).
Proof.
  apply (clients_isolated (chatting 2) 7 publish_hi 1 (second 2)).
  - exact chatting_reachable.
  - intros a c Ha Hc. assert (Hfd : connections (chatting 2) !! 7%Z = Some 0%nat) by (vm_compute; reflexivity).
    pose proof (eq_trans (eq_sym Hfd) Ha) as [= <-]. apply sends_ok.
    assert (Hcl : conns (hub (chatting 2)) !! 0%nat = Some client) by (vm_compute; reflexivity).
    pose proof (eq_trans (eq_sym Hcl) Hc) as Heq. injection Heq as <-. unfold RespParser.fits_int. vm_compute. discriminate.
  - vm_compute. discriminate.
  - vm_compute. reflexivity.
Defined.

End ServerIsolation.
