(* ===== verification/MainProperties.v ===== *)
(** * The whole program

    [main] from its start to its exit: every turn of its loop consists of steps of
    the state machine of [ServerSafety], so that all states it passes through are
    reachable ones; when it ends, every descriptor has been closed and the log has
    been handed to a last fsync. *)
From Stdlib Require Import Ascii String ZArith Lia ZifyNat ZifyBool.
From stdpp Require Import base option list strings gmap.
From S2P Require Import Prelude CStdlib CPosix NetBuffer NetConnection NetListener NetEventLoop StoreObject.
From S2P Require Import StoreInterfaces StoreDatabase CmdBase CmdTable CmdPubSub CmdInfo PersistAOF PersistRewrite.
From S2P Require Import Server Main ServerSafety.
Import Connection PubSubRegistry Server Main ServerSafety.

Module MainProperties.

(** ** A turn of the loop is a sequence of steps *)

(** The event behind an entry of [events_]. *)
Definition event_of (r : Ready) (s : Server) : event :=
  if bool_decide (rd_fd r = Listener.fd_ (listener s)) then Accept (rd_accepts r) else Client (rd_fd r) (rd_client r).

Lemma readyEvent_step r s : readyEvent r s = step (event_of r s) s.
Proof. unfold readyEvent, event_of. by case_bool_decide. Qed.

(** What the outside promises for the entries still to come. *)
Fixpoint events_ok (evs : list Ready) (s : Server) : Prop :=
  match evs with
  | [] => True
  | r :: evs' => event_ok s (event_of r s) ∧ ∀ s', readyEvent r s = Ok s' → events_ok evs' s'
  end.

(** For one turn: [epoll_wait] fills as many entries as it reports, and the
    traversals visit every element once. *)
Definition turn_ok (it : Iteration) (s : Server) : Prop :=
  it_running it = true →
  poll_ok (it_poll it) s ∧
  (∀ n s1, beginBatch (it_poll it) s = Ok (n, s1) → (0 ≤ n)%Z →
    Z.to_nat n = length (it_events it) ∧ events_ok (it_events it) s1) ∧
  (∀ m, it_conns it m ≡ₚ map_to_list m) ∧ (∀ t, it_channels it t ≡ₚ elements t).

Fixpoint turns_ok (its : list Iteration) (s : Server) : Prop :=
  match its with
  | [] => True
  | it :: its' => turn_ok it s ∧ ∀ s', iteration it s = Ok (true, s') → turns_ok its' s'
  end.

Lemma step_reachable ev s : reachable s → event_ok s ev → step ev s ⇓?? reachable.
Proof.
  intros Hr Hev. pose proof (step_ok ev s (reachable_ok s Hr) Hev) as Hs.
  destruct (step ev s) as [s'|] eqn:E; [|exact Hs]. by apply (reach_step s ev s').
Qed.

Lemma readyLoop_reachable evs pre s :
  reachable s → events_ok evs s → readyLoop (length evs) (length pre) (pre ++ evs) s ⇓?? reachable.
Proof.
  revert pre s. induction evs as [|r evs IH]; intros pre s Hr Hev; cbn [readyLoop length]; [done|].
  destruct Hev as [He Hrest]. rewrite (vec_get_ok _ _ r), bind_ok by (by rewrite list_lookup_middle).
  pose proof (step_reachable _ s Hr He) as Hs. rewrite <- readyEvent_step in Hs.
  destruct (readyEvent r s) as [s'|] eqn:E; [|exact Hs]. rewrite bind_ok.
  specialize (IH (pre ++ [r]) s' Hs (Hrest s' eq_refl)). rewrite length_app, <- app_assoc in IH. simpl in IH.
  by rewrite Nat.add_comm in IH.
Qed.

Lemma iteration_reachable it s :
  reachable s → turn_ok it s → iteration it s ⇓?? λ '(_, s'), reachable s'.
Proof.
  intros Hr Hit. unfold iteration. destruct (it_running it) eqn:Hrun; cbn [negb]; [|done].
  destruct (Hit Hrun) as (Hp & Hev & Hc & Hch).
  pose proof (step_reachable (Poll (it_poll it)) s Hr Hp) as Hs. cbn [step] in Hs.
  destruct (beginBatch (it_poll it) s) as [[n s1]|]; [|exact Hs]. cbn [mbind result_bind survives] in Hs |- *.
  destruct (Z.ltb_spec n 0) as [|H0]; [done|]. destruct (Hev n s1 eq_refl H0) as [-> Hok].
  try_with (readyLoop_reachable (it_events it) [] s1); [done|done|]. intros s2 Hs2.
  try_with (step_reachable (EndBatch (it_conns it) (it_channels it)) s2); [done|by split|]. by intros s3 Hs3.
Qed.

Lemma mainLoop_reachable its s :
  reachable s → turns_ok its s →
  mainLoop its s ⇓?? λ '(ended, s'), reachable s' ∧ (ended = false → Forall (λ it, it_running it = true) its).
Proof.
  revert s. induction its as [|it its IH]; intros s Hr Hits; cbn [mainLoop]; [done|]. destruct Hits as [Hit Hits].
  pose proof (iteration_reachable it s Hr Hit) as Hi.
  destruct (iteration it s) as [[more s']|] eqn:E; [|exact Hi]. cbn [mbind result_bind survives] in Hi |- *.
  destruct more; [|done]. eapply survives_mono; [apply (IH s'); [done|by apply Hits]|].
  intros [ended s2] [Hr2 Hf]. split; [done|]. intros He. constructor; [|by apply Hf].
  unfold iteration in E. by destruct (it_running it).
Qed.

(** ** The exit *)

Lemma unregister_fd cs l : EventLoop.epollFd_ (unregister cs l) = EventLoop.epollFd_ l.
Proof. revert l. induction cs as [|[cfd a] cs IH]; intros l; cbn [unregister]; [done|]. by rewrite IH. Qed.

Lemma destroyAll_ok cs h f :
  NoDup cs.*1 →
  (∀ fd (a : addr), (fd, a) ∈ cs → (0 ≤ fd)%Z ∧ fd ∈ f ∧ ∃ c, conns h !! a = Some c ∧ Connection.fd_ c = fd) →
  destroyAll cs h f = Ok (f ∖ list_to_set cs.*1).
Proof.
  revert f. induction cs as [|[cfd a] cs IH]; intros f Hnd Hcs; cbn [destroyAll].
  { unfold mret, result_ret. f_equal. set_solver. }
  apply NoDup_cons in Hnd as [Hnew Hnd]. destruct (Hcs cfd a ltac:(left)) as (H0 & Hin & c & Ha & Hfd).
  rewrite (load_bind _ _ _ _ Ha). unfold Connection.destroy. rewrite Hfd. replace (0 <=? cfd)%Z with true by lia.
  rewrite closeFd_ok, bind_ok, IH by done || (intros fd b Hb; destruct (Hcs fd b ltac:(by right)) as (? & ? & ?);
    split; [done|]; split; [|done]; assert (fd ≠ cfd) by (intros ->; apply Hnew, list_elem_of_fmap; by exists (cfd, b)); set_solver).
  cbn. f_equal. set_solver.
Qed.

Lemma keys_dom (m : gmap Z addr) : list_to_set (map_to_list m).*1 =@{gset Z} dom m.
Proof.
  apply set_eq. intros fd. rewrite elem_of_list_to_set, elem_of_dom, list_elem_of_fmap. split.
  - intros ([fd' a] & -> & Hin%elem_of_map_to_list). by exists a.
  - intros [a Ha]. exists (fd, a). by rewrite elem_of_map_to_list.
Qed.

Lemma shutdown_ok iter s :
  server_ok s → (∀ m, iter m ≡ₚ map_to_list m) →
  shutdown iter s ⇓ λ '(d, f), f = ∅ ∧ contents d = contents (disk s) ∧
    (AOFWriter.isEnabled (aof s) = true → durable d = length (contents d)).
Proof.
  intros Hs Hiter. unfold shutdown. destruct (sv_fds s Hs) as [H1 H2 H3 H4 _].
  rewrite (destroyAll_ok (iter (connections s)) (hub s) (fds s)), bind_ok.
  2: { rewrite Hiter. apply NoDup_fst_map_to_list. }
  2: { intros fd a Hin. rewrite Hiter, elem_of_map_to_list in Hin. destruct (H3 fd ltac:(by rewrite Hin)) as [H0 _].
       split; [done|]. split; [rewrite H4, elem_of_union, elem_of_dom; right; by rewrite Hin|by apply (sv_map s Hs)]. }
  assert (Hf1 : fds s ∖ list_to_set (iter (connections s)).*1 = list_to_set (base_fds s)).
  { assert (Hd : list_to_set (iter (connections s)).*1 = dom (connections s)) by (rewrite Hiter; apply keys_dom).
    rewrite H4, Hd. apply set_eq. intros fd. rewrite elem_of_difference, elem_of_union, elem_of_dom, elem_of_list_to_set.
    split; [tauto|]. intros Hb. split; [by left|]. intros Hc. by destruct (H3 fd Hc). }
  rewrite Hf1. clear Hf1. unfold base_fds, AOFWriter.log_fds, AOFWriter.destroy, AOFWriter.isEnabled in *.
  rewrite !NoDup_cons, !not_elem_of_cons in H1. rewrite !Forall_cons in H2. destruct H2 as (HL & HE & _).
  destruct H1 as ((Hne & HnL) & HnE & _). unfold EventLoop.destroy, Listener.destroy. rewrite unregister_fd.
  replace (0 <=? EventLoop.epollFd_ (loop s))%Z with true by lia.
  replace (0 <=? Listener.fd_ (listener s))%Z with true by lia.
  destruct (Z.leb_spec 0 (AOFWriter.fd_ (aof s))) as [H0|H0]; cbn [list_to_set].
  - rewrite (closeFd_ok (AOFWriter.fd_ (aof s))), !bind_ok by (done || set_solver).
    rewrite not_elem_of_cons in HnL, HnE. destruct HnL, HnE.
    rewrite (closeFd_ok (EventLoop.epollFd_ (loop s))), !bind_ok by (done || set_solver).
    rewrite (closeFd_ok (Listener.fd_ (listener s))), !bind_ok by (done || set_solver).
    apply returns_ok. split; [|done]. set_solver.
  - rewrite bind_ok. rewrite (closeFd_ok (EventLoop.epollFd_ (loop s))), !bind_ok by (done || set_solver).
    rewrite (closeFd_ok (Listener.fd_ (listener s))), !bind_ok by (done || set_solver).
    apply returns_ok. split; [set_solver|]. split; [done|]. intros Hen. lia.
Qed.

(** The limit on descriptors ends up equal to the hard limit, which is 65536 or what
    it was. *)
Lemma raiseLimit_ok w :
  start_ok w →
  let l := raiseLimit (sw_permits w) (sw_limit w) in
  rlim_cur l = rlim_max l ∧ (rlim_max l = 65536%Z ∨ rlim_max l = rlim_max (sw_limit w)).
Proof.
  intros Hw. unfold raiseLimit, setrlimit. destruct (sw_permits w _ _); cbn; [auto|].
  rewrite (so_limit w Hw) by (cbn; lia). cbn. auto.
Qed.

(** ** Properties *)

(** C6: the whole program.  From any command line, any log file of at most 2^31 bytes
    (a log with BGREWRITEAOF or INFO in it included) and any outcomes
    of the system calls that the kernel's contracts allow, through any number of
    turns of the loop, [main] neither faults nor loses a descriptor: an exception
    during the start leaves at most the socket; while it serves, its state is
    reachable; and when a signal or an error of epoll ends the loop, it exits with
    status 0, every descriptor closed exactly once and everything logged handed to a
    last fsync.  A turn that finds [g_running] cleared ends the loop.  The limit
    on descriptors is the hard limit throughout.  Only the uncaught exceptions of a
    number conversion and of the memory reserved for an announced number of
    arguments can prevent this. *)
Theorem main_clean_exit (w : StartWorld) (its : list Iteration) (iter : gmap Z addr → list (Z * addr)) :
  start_ok w → (∀ m, iter m ≡ₚ map_to_list m) → (∀ s, startup w = Ok (inr s) → turns_ok its s) →
  main w its iter ⇓?? λ '(limit, o),
    rlim_cur limit = rlim_max limit ∧ (rlim_max limit = 65536%Z ∨ rlim_max limit = rlim_max (sw_limit w)) ∧
    match o with
    | Uncaught _ f => f = ∅ ∨ f = {[Listener.bw_socket (sw_bind w)]}
    | Serving s => reachable s ∧ Forall (λ it, it_running it = true) its
    | Exited code d f => code = 0%Z ∧ f = ∅ ∧
        ∃ s, reachable s ∧ contents d = contents (disk s) ∧
          (AOFWriter.isEnabled (aof s) = true → durable d = length (contents d))
    end.
Proof.
  intros Hw Hiter Hits. unfold main. destruct (raiseLimit_ok w Hw) as [Hl1 Hl2]. pose proof (startup_ok w Hw) as Hst.
  destruct (startup w) as [[[what f]|s]|] eqn:E; [done| |exact Hst]. rewrite bind_ok.
  try_with (mainLoop_reachable its s); [by apply (reach_start w)|by apply Hits|]. intros [ended s'] [Hr Hf].
  destruct ended; [|cbn; auto]. go_with (shutdown_ok iter s'); [by apply reachable_ok|done|].
  intros [d f] (-> & Hd & Hdur). cbn. split; [done|]. split; [done|]. split; [done|]. split; [done|]. eauto.
Qed.

(** Where the server listens.  After a successful start the socket is bound to
    all addresses and to the port that INFO reports: 6379 without an argument, the
    number that [atoi] reads modulo 2^16 with one, which is exactly the number
    given when it is a decimal number below 2^16.  The listener is registered for
    input and the 100 ms timer is set. *)
Theorem startup_port (w : StartWorld) (s : Server) :
  start_ok w → startup w = Ok (inr s) →
  let port := Listener.port16 (parsePort (sw_args w)) in
  Listener.bound (listener s) = ([0; 0; 0; 0]%Z, port) ∧ ServerMetrics.tcpPort (metrics s) = port ∧
  (sw_args w = [] → port = 6379%Z) ∧
  (∀ p rest, sw_args w = to_string p :: rest → (0 ≤ p < 2 ^ 16)%Z → port = p) ∧
  epoll s = {[Listener.fd_ (listener s) := (true, false)]} ∧ connections s = ∅ ∧
  EventLoop.timer_armed (sw_timerNow w) (loop s).
Proof.
  intros Hw Hs. cbn zeta. pose proof (Listener.listener_create_ok (sw_bind w) (lit "0.0.0.0") (parsePort (sw_args w)) ∅) as Hc.
  unfold startup in Hs. apply bind_Ok_inv in Hs as ([r f1] & E & Hs). rewrite E in Hc.
  specialize (Hc ltac:(intros _; apply not_elem_of_empty)). cbn [returns] in Hc. destruct r as [what|lis]; [discriminate Hs|].
  destruct Hc as (_ & _ & _ & _ & Ha & Hp). rewrite Listener.any_address in Ha. injection Ha as Ha.
  unfold EventLoop.create in Hs. destruct (sw_epoll w <? 0)%Z; [discriminate Hs|].
  inv_bind. destruct r as [n d]. inv_bind. injection Hs as <-. cbn [listener metrics connections loop boot].
  split; [by destruct (Listener.bound lis); cbn in *; subst|]. split; [done|]. split; [by intros ->|]. split.
  - intros p rest -> Hpr. cbn [parsePort]. unfold Listener.port16.
    rewrite atoi_to_string by (unfold in_s32; lia). apply Z.mod_small. lia.
  - unfold epoll. cbn. unfold EventLoop.addFd. cbn. rewrite lookup_empty. cbn. rewrite insert_empty.
    split; [done|]. split; [done|]. split; cbn; [done|lia|]. unfold EventLoop.elapsedMs. cbn. rewrite Z.sub_diag. cbn. lia.
Qed.

(** ** Witnesses *)

(** A poll that reports one entry; no rewrite is under way. *)
Definition quiet_poll : PollWorld :=
  mkPollWorld 0 (λ _, EventLoop.Ready 1) 0 Database.linux64 0 0
    (AOFRewrite.mkCompletion AOFRewrite.Running false (λ _ _, [CError]) false (-1)) (-1).

(** The listener is ready: two clients are waiting. *)
Definition demo_ready : Ready :=
  mkReady 3 (mkClientEvent false false false 0 (λ _, ReadAgain) (λ _, WriteAgain)
    (λ _, mkWorld (sw_envs demo_start) (λ _ _, []) (λ _, elements) 0 0 0 0 0 (λ _, 0%Z))) [(7, 0); (8, 0); (-1, 0)]%Z.

(** A turn in which they are accepted, and one that finds the signal. *)
Definition demo_turns : list Iteration :=
  [mkIteration true quiet_poll [demo_ready] map_to_list elements; mkIteration false quiet_poll [] map_to_list elements].

Lemma quiet_poll_ok s : poll_ok quiet_poll s.
Proof.
  split; [|split; intros H; exfalso; exact (H eq_refl)]. split; [|discriminate]. intros n [|x buf]; done.
Qed.

Lemma demo_turns_ok s : startup demo_start = Ok (inr s) → turns_ok demo_turns s.
Proof.
  assert (Hst : startup demo_start = Ok (inr booted)) by reflexivity. rewrite Hst. intros [= <-]. split.
  - intros _. split; [apply quiet_poll_ok|]. split; [|done]. intros n s1 Hb _.
    assert (Hb' : beginBatch quiet_poll booted = Ok (1%Z, set_loop (EventLoop.mkLoop 4 (epoll booted) 1 true 100 0)
      (set_metrics (ServerMetrics.setConnectedClients 0 (metrics booted)) booted))) by reflexivity.
    pose proof (eq_trans (eq_sym Hb) Hb') as Heq. injection Heq as -> ->. split; [done|]. split; [|done].
    right. split; [|right; split; [|by left]].
    + apply (bool_decide_eq_true_1 (7%Z ∉ fds booted)). reflexivity.
    + apply (bool_decide_eq_true_1 (8%Z ∉ openFd 7 (fds booted))). reflexivity.
  - intros s' _. by split.
Qed.

Lemma main_clean_exit_witness :
  main demo_start demo_turns map_to_list ⇓?? λ '(limit, o),
    rlim_cur limit = rlim_max limit ∧ (rlim_max limit = 65536%Z ∨ rlim_max limit = 4096%Z) ∧
    match o with
    | Uncaught _ f => f = ∅ ∨ f = {[3%Z]}
    | Serving s => reachable s ∧ Forall (λ it, it_running it = true) demo_turns
    | Exited code d f => code = 0%Z ∧ f = ∅ ∧
        ∃ s, reachable s ∧ contents d = contents (disk s) ∧
          (AOFWriter.isEnabled (aof s) = true → durable d = length (contents d))
    end.
Proof.
  apply (main_clean_exit demo_start demo_turns map_to_list); [exact demo_start_ok|reflexivity|exact demo_turns_ok].
Defined.

(** A log in which a client's BGREWRITEAOF stands between two writes: the replay
    forks, and the server starts with the child of the data loaded until then. *)
Definition log_with_rewrite : bytes :=
  AOFWriter.log_bytes [[lit "SET"; lit "k"; lit "v"]; [lit "BGREWRITEAOF"]; [lit "DEL"; lit "k"]].

Definition start_with_rewrite : StartWorld :=
  mkStart [] (Listener.mkBindWorld 3 0 0 []) 4 5 (mkDisk log_with_rewrite 0) (AOFLoader.Opened (length log_with_rewrite))
    [CGot log_with_rewrite] 6 7 (Some 8%Z) (sw_envs demo_start) 0 0 0 0 0 (λ _, 77%Z) (sw_infoNow demo_start) 1
    (sw_limit demo_start) (sw_permits demo_start).

Example replay_forks :
  startup start_with_rewrite ⇓ λ r,
    match r with
    | inr s => AOFWriter.isRewriting_ (aof s) = true ∧ AOFWriter.rewriteChildPid_ (aof s) = 77%Z ∧
        Database.view (db s) = ∅ ∧ dom ∘ Database.view <$> child s = Some {[lit "k"]}
    | inl _ => False
    end.
Proof. vm_compute. done. Qed.

(** The same start with the argument 7000. *)
Definition start_7000 : StartWorld :=
  mkStart [lit "7000"] (Listener.mkBindWorld 3 0 0 []) 4 5 (mkDisk [] 0) AOFLoader.OpenFailed [] (-1) (-1) None
    (sw_envs demo_start) 0 0 0 0 0 (sw_fork demo_start) (sw_infoNow demo_start) 1 (sw_limit demo_start) (sw_permits demo_start).

Definition on_7000 : Server :=
  boot Database.empty (aof booted) (disk booted) None (ServerMetrics.create 0 7000) (loop booted)
    (Listener.mkListener 3 ([0; 0; 0; 0]%Z, 7000%Z)) (fds booted).

Lemma startup_port_witness :
  let port := Listener.port16 (parsePort [lit "7000"]) in
  Listener.bound (listener on_7000) = ([0; 0; 0; 0]%Z, port) ∧ ServerMetrics.tcpPort (metrics on_7000) = port ∧
  ([lit "7000"] = [] → port = 6379%Z) ∧
  (∀ p rest, [lit "7000"] = to_string p :: rest → (0 ≤ p < 2 ^ 16)%Z → port = p) ∧
  epoll on_7000 = {[3%Z := (true, false)]} ∧ connections on_7000 = ∅ ∧ EventLoop.timer_armed 0 (loop on_7000).
Proof.
  apply (startup_port start_7000 on_7000).
  - destruct demo_start_ok. split; assumption.
  - reflexivity.
Defined.

End MainProperties.
