(* ===== verification/ServerDurable.v ===== *)
(** * The log is the data

    Everything together: clients that interleave, transactions, publish and
    subscribe, the timer, closing and accepting, background rewrites that run,
    fail or complete.  [recoverable s]: the commands in the log of [s], run from an
    empty store, give exactly the data of [s], and so do the snapshot and the
    buffer of a rewrite under way.  Every event keeps this, as long as the kernel
    takes what is written and the logged commands are those of [plain], without
    deadlines and NaN scores. *)
From Stdlib Require Import Ascii String ZArith Lia ZifyNat ZifyBool.
From stdpp Require Import base option list strings gmap.
From S2P Require Import Prelude CStdlib CPosix NetBuffer ProtoSerializer ProtoParser NetConnection NetListener.
From S2P Require Import NetEventLoop StoreObject StoreInterfaces StoreDatabase CmdBase CmdKey CmdList CmdTable CmdStore CmdIdle.
From S2P Require Import CmdPubSub CmdInfo PersistAOF PersistRewrite PersistRecovery Server Main ServerSafety.
From S2P Require Import ServerProperties ServerSession ServerFrame MainProperties.
Import Connection PubSubRegistry Server Main ServerSafety ServerProperties ServerSession MainProperties.

Module ServerDurable.
Import Store Idle AOFLoader Recovery.

(** ** The invariant *)

(** No deadlines, in the table and in the heap. *)
Definition at_rest (d : DB) : Prop := calm (Database.view d) ∧ no_deadline d.

Definition store_at (s : Server) : store := store_of (Database.view (db s)).

(** A snapshot and the commands buffered since then give the data; without a rewrite
    there is no child to wait for. *)
Definition rewrite_tracks (s : Server) : Prop :=
  if AOFWriter.isRewriting_ (aof s) then
    ∃ snap xs, child s = Some snap ∧ loaded_ok snap ∧ calm (Database.view snap) ∧
      AOFWriter.rewriteBuffer_ (aof s) = enc_command <$> xs ∧ Forall logged xs ∧
      run_all xs (store_of (Database.view snap)) = store_at s
  else (AOFWriter.rewriteChildPid_ (aof s) < 0)%Z.

Record recoverable (s : Server) : Prop := {
  rc_rest : at_rest (db s);
  rc_log : ∃ cmds, contents (disk s) = AOFWriter.log_bytes cmds ∧ Forall logged cmds ∧ run_all cmds ∅ = store_at s;
  rc_rewrite : rewrite_tracks s
}.

(** From [s] to [s'] the log has grown by the commands [xs]; when these are plain,
    it still gives the data. *)
Record extends (xs : list (list bytes)) (s s' : Server) : Prop := {
  ex_enabled : AOFWriter.isEnabled (aof s') = true;
  ex_log : contents (disk s') = contents (disk s) ++ AOFWriter.log_bytes xs;
  ex_data : Forall plain xs → recoverable s → recoverable s'
}.

Lemma extends_trans xs1 xs2 s1 s2 s3 : extends xs1 s1 s2 → extends xs2 s2 s3 → extends (xs1 ++ xs2) s1 s3.
Proof.
  intros [_ Hl1 Hd1] [He2 Hl2 Hd2]. split; [done|by rewrite Hl2, Hl1, log_bytes_app, app_assoc|].
  intros [H1 H2]%Forall_app Hr. auto.
Qed.

(** The parts of the state the invariant is about. *)
Record same_data (s s' : Server) : Prop := {
  sd_view : Database.view (db s') = Database.view (db s);
  sd_heap : Database.ttlHeap_ (db s') = Database.ttlHeap_ (db s);
  sd_disk : disk s' = disk s;
  sd_aof : aof s' = aof s;
  sd_child : child s' = child s
}.

Lemma same_data_refl s : same_data s s.
Proof. by split. Qed.

Lemma same_data_trans s1 s2 s3 : same_data s1 s2 → same_data s2 s3 → same_data s1 s3.
Proof. intros [? ? ? ? ?] [? ? ? ? ?]. split; congruence. Qed.

Lemma same_data_extends s s' : AOFWriter.isEnabled (aof s) = true → same_data s s' → extends [] s s'.
Proof.
  intros He [Hv Hh Hd Ha Hc]. split; [by rewrite Ha|by rewrite Hd, app_nil_r|]. intros _ [Hcalm Hlog Hrw].
  split; unfold rewrite_tracks, store_at, at_rest, no_deadline in *; by rewrite ?Hv, ?Hh, ?Hd, ?Ha, ?Hc.
Qed.

Lemma extends_same xs s1 s2 s3 : extends xs s1 s2 → same_data s2 s3 → extends xs s1 s3.
Proof.
  intros H1 H2. rewrite <- (app_nil_r xs). eapply extends_trans; [exact H1|].
  apply same_data_extends; [apply (ex_enabled _ _ _ H1)|done].
Qed.

#[local] Opaque CommandTable.core_table server_table.

(** ** What changes nothing *)

Lemma onConn_same a f s s' : onConn a f s = Ok s' → same_data s s'.
Proof.
  unfold onConn. intros (c & _ & H)%bind_Ok_inv. apply bind_Ok_inv in H as (c' & _ & [= <-]). by split.
Qed.

Lemma subscribe_loop_same a chs s s' : subscribe_loop a chs s = Ok s' → same_data s s'.
Proof.
  revert s. induction chs as [|ch chs IH]; intros s; cbn [subscribe_loop]; [intros [= <-]; apply same_data_refl|].
  intros H. inv_bind. destruct r as [n h]. inv_bind. eapply same_data_trans; [|by apply IH].
  apply onConn_same in E0. by destruct E0.
Qed.

Lemma unsubscribe_loop_same a chs s s' : unsubscribe_loop a chs s = Ok s' → same_data s s'.
Proof.
  revert s. induction chs as [|ch chs IH]; intros s; cbn [unsubscribe_loop]; [intros [= <-]; apply same_data_refl|].
  intros H. inv_bind. destruct r as [n h]. inv_bind. eapply same_data_trans; [|by apply IH].
  apply onConn_same in E0. by destruct E0.
Qed.

(** The commands of [main] but EXEC leave the data alone, or start a rewrite. *)
Definition triggered (s s' : Server) : Prop :=
  ∃ pid, db s' = db s ∧ disk s' = disk s ∧
    (aof s', child s') = AOFRewrite.triggerRewrite pid (aof s) (db s) (child s).

Lemma call_main exec n w a args cl s s' :
  cl ≠ Exec → (∀ h, cl ≠ Plain h) → call exec n w a args cl s = Ok s' → same_data s s' ∨ triggered s s'.
Proof.
  intros Hx Hp H. destruct cl as [h| | | | | |]; cbn [call] in H.
  - by destruct (Hp h).
  - left. by apply onConn_same in H.
  - right. exists (fork w n). unfold callRewrite in H. destruct (AOFRewrite.triggerRewrite _ _ _ _) as [w' ch].
    apply bind_Ok_inv in H as (c & _ & H). by apply bind_Ok_inv in H as (c' & _ & [= <-]).
  - done.
  - left. by apply subscribe_loop_same in H.
  - left. unfold cmdUnsubscribe in H. case_bool_decide; [|by apply unsubscribe_loop_same in H].
    inv_bind. case_bool_decide; [by apply onConn_same in H|by apply unsubscribe_loop_same in H].
  - left. unfold cmdPublish in H. inv_bind. destruct r1 as [k h]. apply onConn_same in H. by destruct H.
Qed.

(** Starting a rewrite: the snapshot is the data. *)
Lemma triggered_extends s s' :
  server_ok s → AOFWriter.isEnabled (aof s) = true → triggered s s' → extends [] s s'.
Proof.
  intros Hs He (pid & Hdb & Hd & Ht).
  unfold AOFRewrite.triggerRewrite in Ht. destruct (AOFWriter.isRewriting_ (aof s)) eqn:Hr.
  - injection Ht as Ha Hc. apply same_data_extends; [done|]. by split; rewrite ?Hdb.
  - destruct (Z.ltb_spec pid 0) as [Hneg|Hpos]; injection Ht as Ha Hc; (split;
      [rewrite Ha; exact He|by rewrite Hd, app_nil_r|]); intros _ [Hcalm Hlog Hrw];
      (split; [by rewrite Hdb|unfold store_at; by rewrite Hdb, Hd|]); unfold rewrite_tracks in *;
      rewrite Ha; cbn [AOFWriter.isRewriting_ AOFWriter.rewriteChildPid_ AOFWriter.rewriteBuffer_];
      rewrite ?Hr in Hrw; [done|].
    exists (db s), []. split; [done|]. split; [split; apply Hs|]. split; [apply Hcalm|]. split; [done|]. split; [constructor|].
    unfold store_at. by rewrite Hdb.
Qed.

(** ** One command and its log entry *)

(** What a command adds to the log. *)
Definition writes_of (cmd : list bytes) : list (list bytes) :=
  match cmd with
  | [] => []
  | arg0 :: _ => if CommandTable.isWriteCommand server_table arg0 then [cmd] else []
  end.

#[local] Transparent CommandTable.core_table server_table.
Lemma main_not_write arg0 : to_upper arg0 ∈ main_names → CommandTable.isWriteCommand server_table arg0 = false.
Proof.
  intros Hin. unfold CommandTable.isWriteCommand, main_names in *. rewrite !elem_of_cons in Hin.
  destruct Hin as [->|[->|[->|[->|[->|[->|[]%elem_of_nil]]]]]]; vm_compute; reflexivity.
Qed.

Lemma read_plain arg0 rest : CommandTable.isWriteCommand CommandTable.core_table arg0 = false → plain (arg0 :: rest).
Proof.
  intros Hw. unfold CommandTable.isWriteCommand in Hw.
  split; [|split]; intros Hn; rewrite Hn in Hw; vm_compute in Hw; discriminate Hw.
Qed.
#[local] Opaque CommandTable.core_table server_table.

Lemma core_write arg0 :
  to_upper arg0 ∉ main_names →
  CommandTable.isWriteCommand server_table arg0 = CommandTable.isWriteCommand CommandTable.core_table arg0.
Proof.
  intros Hn. unfold CommandTable.isWriteCommand. rewrite (table_ordinary _ Hn).
  by destruct (CommandTable.core_table !! to_upper arg0).
Qed.

(** A dispatched command that is not EXEC, before it is logged. *)
Definition dispatched (cmd : list bytes) (s s1 : Server) : Prop :=
  disk s1 = disk s ∧ aof s1 = aof s ∧ child s1 = child s ∧
  (plain cmd → at_rest (db s) → at_rest (db s1) ∧ store_at s1 = apply CommandTable.core_table cmd (store_at s)).

Lemma core_dispatched depth n w a arg0 rest s s1 :
  server_ok s → world_ok w → is_Some (conns (hub s) !! a) → to_upper arg0 ∉ main_names →
  dispatch depth n w a (arg0 :: rest) s = Ok s1 → dispatched (arg0 :: rest) s s1.
Proof.
  intros Hs Hw [c Ha] Hn H. rewrite (dispatch_core depth n w a arg0 rest s c Ha Hn) in H.
  pose proof (λ Hp Hc, dispatch_applies (envs w n) (db s) c (arg0 :: rest) (w_env w Hw n) (sv_db s Hs) (sv_ks s Hs) Hc
    (co_out c (sv_conns s Hs a c Ha)) Hp ltac:(discriminate)) as Happ.
  pose proof (dispatch_idle (envs w n) (db s) c (arg0 :: rest)) as Hidle.
  destruct (CommandTable.dispatch _ _ _ _ _) as [[db' c']|]; [|discriminate H]. rewrite bind_ok in H.
  injection H as <-. do 3 (split; [reflexivity|]). intros Hp [Hc Hh]. destruct (Happ Hp Hc) as [Hst Hcalm].
  split; [|exact Hst]. split; [exact Hcalm|]. exact (Hidle Hp Hh _ eq_refl).
Qed.

(** The log entry brings the log up to date. *)
Lemma log_extends calls cmd s s1 w2 d2 calls' :
  AOFWriter.isEnabled (aof s) = true → AOFWriter.takes calls (length (enc_command cmd)) = true →
  match cmd with [] => False | arg0 :: _ => CommandTable.isWriteCommand CommandTable.core_table arg0 = true end →
  dispatched cmd s s1 → AOFWriter.log calls (aof s1) (disk s1) cmd = Ok (calls', w2, d2) →
  extends [cmd] s (set_log w2 d2 s1).
Proof.
  intros He Ht Hw (Hd & Ha & Hc & Hst) Hl. rewrite Ha, Hd in Hl.
  pose proof (AOFWriter.log_ok calls (aof s) (disk s) cmd He Ht) as Hok. rewrite Hl in Hok. cbn in Hok.
  destruct Hok as (Hcont & _ & Hfd & _ & Hpid & Hrw & Hbuf). split.
  - unfold AOFWriter.isEnabled in *. cbn. by rewrite Hfd.
  - cbn [disk set_log]. rewrite Hcont. unfold AOFWriter.log_bytes. cbn. by rewrite app_nil_r.
  - intros [Hp _]%Forall_cons [Hcalm (cmds & Hcmds & Hall & Hrun) Htr]. destruct (Hst Hp Hcalm) as [Hcalm' Hst'].
    assert (Hlogged : logged cmd) by (split; [exact Hw|exact Hp]). split.
    + exact Hcalm'.
    + exists (cmds ++ [cmd]). cbn [disk set_log]. split; [rewrite Hcont, Hcmds, log_bytes_app|split].
      * unfold AOFWriter.log_bytes. cbn. by rewrite app_nil_r.
      * apply Forall_app. split; [exact Hall|]. constructor; [exact Hlogged|constructor].
      * rewrite run_all_app, Hrun. symmetry. exact Hst'.
    + unfold rewrite_tracks in *. cbn [aof child set_log]. rewrite Hrw, Hpid, Hbuf, Hc.
      destruct (AOFWriter.isRewriting_ (aof s)); [|exact Htr]. destruct Htr as (snap & xs & H1 & H2 & H3 & H4 & H5 & H6).
      exists snap, (xs ++ [cmd]). do 3 (split; [assumption|]). split; [rewrite H4, fmap_app; reflexivity|].
      split; [apply Forall_app; split; [exact H5|constructor; [exact Hlogged|constructor]]|].
      rewrite run_all_app, H6. symmetry. exact Hst'.
Qed.

#[local] Transparent CommandTable.core_table.
Lemma main_not_core nm : nm ∈ main_names → CommandTable.core_table !! nm = None.
Proof.
  unfold main_names. rewrite !elem_of_cons.
  intros [->|[->|[->|[->|[->|[->|[]%elem_of_nil]]]]]]; vm_compute; reflexivity.
Qed.
#[local] Opaque CommandTable.core_table.

Lemma main_dispatched depth n w a arg0 rest s s1 :
  to_upper arg0 ∈ main_names → to_upper arg0 ≠ lit "EXEC" → dispatch depth n w a (arg0 :: rest) s = Ok s1 →
  same_data s s1 ∨ triggered s s1.
Proof.
  intros Hin Hne H. destruct depth; cbn [dispatch] in H; unfold CommandTable.dispatch_with in H;
    (destruct (server_table !! to_upper arg0) as [entry|] eqn:He; [|left; by apply onConn_same in H]);
    (destruct (negb _); [left; by apply onConn_same in H|]); eapply call_main; [| |exact H| | |exact H];
    try (intros Hcl; pose proof (server_table_cases _ _ He) as Hc; rewrite Hcl in Hc; exact (Hne Hc));
    intros h Hcl; pose proof (server_table_cases _ _ He) as Hc; rewrite Hcl in Hc; destruct Hc as (x & Hx & _);
    rewrite (main_not_core _ Hin) in Hx; discriminate Hx.
Qed.

(** Every dispatched command with what is logged for it. *)
Lemma command_extends depth n calls w a arg0 rest s s1 s1' s2 :
  server_ok s → world_ok w → (∀ buf, AOFWriter.takes (calls buf) (length buf) = true) → is_Some (conns (hub s) !! a) →
  AOFWriter.isEnabled (aof s) = true → to_upper arg0 ≠ lit "EXEC" →
  dispatch depth n w a (arg0 :: rest) s = Ok s1 → same_data s1 s1' → logCommand calls (arg0 :: rest) s1' = Ok s2 →
  extends (writes_of (arg0 :: rest)) s s2.
Proof.
  intros Hs Hw Ht Ha He Hne Hd Hsame Hl. unfold logCommand in Hl. rewrite (vec_get_ok _ _ arg0), bind_ok in Hl by done.
  unfold writes_of. destruct (decide (to_upper arg0 ∈ main_names)) as [Hin|Hin].
  - rewrite (main_not_write _ Hin) in Hl |- *. rewrite andb_false_r in Hl. injection Hl as <-.
    eapply extends_same; [|exact Hsame]. destruct (main_dispatched _ _ _ _ _ _ _ _ Hin Hne Hd).
    + by apply same_data_extends.
    + by apply triggered_extends.
  - pose proof (core_dispatched _ _ _ _ _ _ _ _ Hs Hw Ha Hin Hd) as (H1 & H2 & H3 & H4).
    destruct Hsame as [Hv Hhp Hdk Haf Hch]. rewrite (core_write _ Hin) in *.
    assert (Hdisp : dispatched (arg0 :: rest) s s1').
    { split; [congruence|]. split; [congruence|]. split; [congruence|]. unfold store_at, at_rest, no_deadline in *. by rewrite Hv, Hhp. }
    destruct (CommandTable.isWriteCommand CommandTable.core_table arg0) eqn:Hwr.
    + destruct Hdisp as (D1 & D2 & D3 & D4). rewrite D2, He in Hl. cbn [andb] in Hl.
      apply bind_Ok_inv in Hl as ([[calls' w2] d2] & Hl & [= <-]).
      eapply (log_extends (calls (AOFWriter.formatRespCommand (arg0 :: rest)))); [exact He| |exact Hwr
        |exact (conj D1 (conj D2 (conj D3 D4)))|rewrite D2; exact Hl].
      rewrite AOFWriter.formatRespCommand_eq. apply Ht.
    + rewrite andb_false_r in Hl. injection Hl as <-. destruct Hdisp as (D1 & D2 & D3 & D4). split.
      * by rewrite D2.
      * by rewrite D1, app_nil_r.
      * intros _ [Hcalm Hlog Hrw]. destruct (D4 (read_plain _ _ Hwr) Hcalm) as [Hc' Hst'].
        rewrite (apply_read _ _ _ Hwr) in Hst'. split; [exact Hc'|by rewrite D1, Hst'|].
        unfold rewrite_tracks in *. by rewrite D2, D3, Hst'.
Qed.

(** ** Transactions and the gates *)

Lemma run_queue_extends w a queue : ∀ i s s',
  world_ok w → all_writes_taken w → server_ok s → is_Some (conns (hub s) !! a) → AOFWriter.isEnabled (aof s) = true →
  Forall queueable queue → run_queue w a i queue s = Ok s' → extends (mjoin (writes_of <$> queue)) s s'.
Proof.
  induction queue as [|cmd queue IH]; intros i s s' Hw Ht Hs Ha He Hall H; cbn [run_queue] in H.
  { injection H as <-. by apply same_data_extends; [|apply same_data_refl]. }
  apply Forall_cons in Hall as [Hq Hall]. pose proof (queued_dispatch_ok w a i cmd s Hs Hw Ha Hq) as Hd.
  apply bind_Ok_inv in H as (s1 & E1 & H). apply bind_Ok_inv in H as (s2 & E2 & H). rewrite E1 in Hd. cbn in Hd.
  destruct cmd as [|arg0 rest]; [destruct Hq|].
  pose proof (logCommand_ok a w (S i) (arg0 :: rest) s1 (proj1 Hd) Hw ltac:(done)) as Hl. rewrite E2 in Hl. cbn [returns] in Hl.
  assert (Hne : to_upper arg0 ≠ lit "EXEC").
  { intros Heq. unfold queueable in Hq. rewrite Heq in Hq. vm_compute in Hq. discriminate Hq. }
  pose proof (command_extends _ _ _ _ _ _ _ _ _ _ _ Hs Hw (Ht (S i)) Ha He Hne E1 (same_data_refl s1) E2) as Hext.
  cbn [fmap list_fmap mjoin list_join]. eapply extends_trans; [exact Hext|].
  destruct Ha as [c Ha]. destruct (good_trans _ _ _ _ _ Hd Hl) as (Hs2 & Hst2 & _).
  destruct (steady_conn _ _ _ _ Hst2 Ha) as (c2 & Ha2 & _).
  apply (IH (S i)); [done|done|done|by rewrite Ha2|apply (ex_enabled _ _ _ Hext)|done|done].
Qed.

Lemma cmdExec_extends w a s s' c :
  world_ok w → all_writes_taken w → server_ok s → conns (hub s) !! a = Some c → AOFWriter.isEnabled (aof s) = true →
  cmdExec (λ i, dispatch 0 (S i) w a) w a s = Ok s' →
  extends (mjoin (writes_of <$> default [] (queuedCommands <$> txn c))) s s'.
Proof.
  intros Hw Ht Hs Ha He H. pose proof (sv_conns s Hs a c Ha) as Hc. destruct (txn c) as [t|] eqn:Htxn.
  - rewrite (cmdExec_runs w a s c t) in H by done. cbn [fmap option_fmap option_map default].
    pose proof (onConn_reply true a (λ c, replyHeader c (Z.of_nat (length (queuedCommands t)))) s c _ Hs Ha
      (replyHeader_ok c (co_out c Hc) _)) as H1.
    apply bind_Ok_inv in H as (s1 & E1 & H). apply bind_Ok_inv in H as (s2 & E2 & H).
    rewrite E1 in H1. destruct H1 as (Hs1 & Hst1 & _). destruct (steady_conn _ _ _ _ Hst1 Ha) as (c1 & Ha1 & _).
    apply onConn_same in E1. pose proof (same_data_extends _ _ He E1) as H1.
    eapply extends_same; [|exact (onConn_same _ _ _ _ H)]. change (extends ([] ++ mjoin (writes_of <$> queuedCommands t)) s s2).
    eapply extends_trans; [exact H1|]. eapply run_queue_extends; [done|done|exact Hs1|by rewrite Ha1
      |apply (ex_enabled _ _ _ H1)|by apply (co_queue c Hc)|exact E2].
  - unfold cmdExec in H. rewrite (load_bind _ _ _ _ Ha), Htxn in H. apply onConn_same in H. by apply same_data_extends.
Qed.

Lemma set_metrics_same m s : same_data s (set_metrics m s).
Proof. by split. Qed.

Lemma execute_extends w a arg0 rest s s' c :
  world_ok w → all_writes_taken w → server_ok s → conns (hub s) !! a = Some c → AOFWriter.isEnabled (aof s) = true →
  execute w a (arg0 :: rest) (to_upper arg0) s = Ok s' →
  extends (mjoin (writes_of <$> if bool_decide (to_upper arg0 = lit "EXEC") then
      if bool_decide (rest = []) then default [] (queuedCommands <$> txn c) else []
    else [arg0 :: rest])) s s'.
Proof.
  intros Hw Ht Hs Ha He H. unfold execute in H. apply bind_Ok_inv in H as (s1 & E1 & H).
  apply bind_Ok_inv in H as (m & _ & H). destruct (decide (to_upper arg0 = lit "EXEC")) as [Hex|Hex].
  - rewrite (bool_decide_true (to_upper arg0 = lit "EXEC")) in * by done. cbn [negb] in H. injection H as <-.
    eapply extends_same; [|apply set_metrics_same]. rewrite dispatch_exec in E1 by done. case_bool_decide.
    + by eapply cmdExec_extends.
    + apply onConn_same in E1. by apply same_data_extends.
  - rewrite (bool_decide_false (to_upper arg0 = lit "EXEC")) in * by done. cbn [negb] in H.
    cbn [fmap list_fmap mjoin list_join]. rewrite app_nil_r.
    eapply command_extends; [exact Hs|exact Hw|exact (Ht 0)|by rewrite Ha|exact He|exact Hex|exact E1
      |apply set_metrics_same|exact H].
Qed.

Lemma processCommand_extends w a cmd s s' c :
  world_ok w → all_writes_taken w → server_ok s → conns (hub s) !! a = Some c → AOFWriter.isEnabled (aof s) = true →
  processCommand w a cmd s = Ok s' → extends (mjoin (writes_of <$> commands_run c cmd)) s s'.
Proof.
  intros Hw Ht Hs Ha He H. destruct cmd as [|arg0 rest]; cbn [processCommand] in H.
  { injection H as <-. by apply same_data_extends; [|apply same_data_refl]. }
  rewrite (load_bind _ _ _ _ Ha) in H. unfold commands_run. fold (refused c arg0) in H. destruct (refused c arg0).
  { apply onConn_same in H. by apply same_data_extends. }
  pose proof (execute_extends w a arg0 rest s s' c Hw Ht Hs Ha He) as Hx.
  destruct (txn c) as [t|] eqn:Htxn; [|by apply Hx]. destruct (transactional (to_upper arg0)) eqn:Htr; cbn [negb] in H.
  - by apply Hx.
  - rewrite bool_decide_false; [|intros Heq; rewrite Heq in Htr; vm_compute in Htr; discriminate Htr].
    apply onConn_same in H. by apply same_data_extends.
Qed.

(** ** The events *)

Lemma set_hub_same h s : same_data s (set_hub h s).
Proof. by split. Qed.

Lemma extends_kept a :
  ServerFrame.kept a all_writes_taken (λ s s', AOFWriter.isEnabled (aof s) = true → ∃ xs, extends xs s s').
Proof.
  split.
  - intros s He. exists []. by apply same_data_extends; [|apply same_data_refl].
  - intros s1 s2 s3 H1 H2 He. destruct (H1 He) as [xs1 Hx1]. destruct (H2 (ex_enabled _ _ _ Hx1)) as [xs2 Hx2].
    exists (xs1 ++ xs2). by eapply extends_trans.
  - intros c s He. exists []. apply same_data_extends; [done|apply set_hub_same].
  - intros l s He. exists []. apply same_data_extends; [done|]. by split.
  - intros w cmd s s' c Hw Ht Hs Ha H He. eexists. by eapply processCommand_extends.
Qed.

Lemma clientEvent_extends fd ev s s' :
  server_ok s → (∀ a c, connections s !! fd = Some a → conns (hub s) !! a = Some c → client_ok c ev) →
  (∀ k, all_writes_taken (ev_worlds ev k)) → AOFWriter.isEnabled (aof s) = true → clientEvent fd ev s = Ok s' →
  ∃ xs, extends xs s s'.
Proof.
  intros Hs Hev Ht He H. destruct (connections s !! fd) as [a|] eqn:Hfd.
  - by apply (ServerFrame.clientEvent_kept a _ _ (extends_kept a) fd ev s s' Hs Hfd (λ c, Hev a c eq_refl) Ht H).
  - unfold clientEvent in H. rewrite Hfd in H. injection H as <-. exists [].
    by apply same_data_extends; [|apply same_data_refl].
Qed.

Lemma acceptLoop_same rets : ∀ s s', acceptLoop rets s = Ok s' → same_data s s'.
Proof.
  induction rets as [|[ret now] rets IH]; intros s s' H; cbn [acceptLoop] in H; [discriminate H|].
  destruct (Listener.acceptClient ret (fds s)) as [fd f]. destruct (fd <? 0)%Z; [injection H as <-; apply same_data_refl|].
  by destruct (IH _ _ H).
Qed.

Lemma sweep_same cs : ∀ s s', sweep cs s = Ok s' → same_data s s'.
Proof.
  induction cs as [|[sfd a] cs IH]; intros s s' H; cbn [sweep] in H; [injection H as <-; apply same_data_refl|].
  apply bind_Ok_inv in H as (c & _ & H). destruct (_ && _); by destruct (IH _ _ H).
Qed.

Lemma closeAll_same chorder l : ∀ s s', closeAll chorder l s = Ok s' → same_data s s'.
Proof.
  induction l as [|cfd l IH]; intros s s' H; cbn [closeAll] in H; [injection H as <-; apply same_data_refl|].
  apply bind_Ok_inv in H as (s1 & E & H). eapply same_data_trans; [|by apply IH].
  unfold closeConn in E. destruct (connections s !! cfd) as [a|]; [|injection E as <-; by split].
  apply bind_Ok_inv in E as (h & _ & E). apply bind_Ok_inv in E as (c & _ & E).
  by apply bind_Ok_inv in E as (f & _ & [= <-]).
Qed.

Lemma endBatch_same iter chorder s s' : server_ok s → endBatch iter chorder s = Ok s' → same_data s s'.
Proof.
  intros Hs H. unfold endBatch in H. apply bind_Ok_inv in H as (d & E & H). apply bind_Ok_inv in H as (s1 & E1 & H).
  apply bind_Ok_inv in H as (l & _ & H).
  pose proof (Database.rehashStep_ok Database.linux64 (db s) (sv_db s Hs)) as Hd. rewrite E in Hd.
  destruct Hd as ((_ & Hv) & _). unfold Database.rehashStep in E. apply bind_Ok_inv in E as (t & _ & [= <-]).
  apply sweep_same in E1. apply closeAll_same in H. pose proof (same_data_trans _ _ _ E1 H) as [V Hp D A C].
  split; [by rewrite V|exact Hp|exact D|exact A|exact C].
Qed.

(** ** The timer *)

(** The log, enabled, gives the data. *)
Definition durable_state (s : Server) : Prop := AOFWriter.isEnabled (aof s) = true ∧ recoverable s.

Lemma tick_durable now s :
  durable_state s → let '(w, d) := AOFWriter.tick now (aof s) (disk s) in durable_state (set_log w d s).
Proof.
  intros [He [Hr Hl Ht]]. unfold AOFWriter.tick.
  destruct (negb _); [|destruct (_ <? 0)%Z; [|destruct (1 <=? _)%Z]]; (split; [exact He|by split]).
Qed.

(** The calls of a rewrite that is about to end: what is written is taken, the file
    that replaced the log can be opened, the traversals are complete, and the sizes
    of the sorted sets in the snapshot fit [int]. *)
Record rewrite_fine (c : AOFRewrite.Completion) (snap : option DB) : Prop := {
  rf_child cw : AOFRewrite.cp_wait c = AOFRewrite.Ended cw → env_ok (AOFRewrite.ch_env cw) ∧ all_taken (AOFRewrite.ch_writes cw);
  rf_parent : all_taken (AOFRewrite.cp_writes c);
  rf_reopen : AOFRewrite.cp_rename c = true → (0 ≤ AOFRewrite.cp_reopen c)%Z;
  rf_sized d : snap = Some d → map_Forall (λ _ x, sized x.1) (Database.view d)
}.

(** The rewrite is over and the log is what it was. *)
Lemma rewrite_dropped s :
  durable_state s →
  durable_state (set_rewrite (AOFWriter.mkWriter (AOFWriter.fd_ (aof s)) (AOFWriter.policy_ (aof s))
    (AOFWriter.lastFsync_ (aof s)) (-1) false []) (disk s) None s).
Proof. intros [He [Hr Hl _]]. split; [exact He|]. by split. Qed.

(** The snapshot with the buffer behind it is as good as the log it replaces. *)
Lemma rewrite_replaces c cw snap xs fd s :
  rewrite_fine c (Some snap) → AOFRewrite.cp_wait c = AOFRewrite.Ended cw → AOFRewrite.ch_open cw = true →
  loaded_ok snap → calm (Database.view snap) → AOFWriter.rewriteBuffer_ (aof s) = enc_command <$> xs → Forall logged xs →
  run_all xs (store_of (Database.view snap)) = store_at s → durable_state s → (0 ≤ fd)%Z →
  ∃ temp, AOFRewrite.child_main cw snap = Ok (0%Z, Some temp) ∧
    AOFRewrite.append_buffer (AOFRewrite.cp_writes c) 0 temp (AOFWriter.rewriteBuffer_ (aof s)) ⇓ λ temp1,
    durable_state (set_rewrite (AOFWriter.mkWriter fd (AOFWriter.policy_ (aof s)) (AOFWriter.lastFsync_ (aof s)) (-1) false [])
      (fsync temp1) None s).
Proof.
  intros [Hch Hpw _ Hsz] Hwait Ho Hdb Hcalm Hbuf Hxs Hrun [He [Hr _ _]] Hfd. destruct (Hch cw Hwait) as [Henv Hcw].
  pose proof (child_main_ok cw snap 0 Ho Henv Hcw (calm_ready _ 0 snap Hdb Hcalm (Hsz snap eq_refl))) as Hmain.
  apply returns_iff in Hmain as ([status file] & -> & -> & temp & ks & cmds & -> & Hcd & _ & Hks & Hsn).
  exists temp. split; [done|]. eapply returns_mono; [by apply append_buffer_ok|]. intros temp1 ->.
  split; [unfold AOFWriter.isEnabled; cbn; lia|]. split; [exact Hr| |cbn; lia]. exists (cmds ++ xs). split; [|split].
  - cbn. by rewrite Hcd, Hbuf, log_bytes_app.
  - apply Forall_app. split; [|done]. apply Hsn. intros k x Hk. by destruct (Hcalm k x Hk).
  - rewrite run_all_app, (snapshot_all _ _ _ _ _ Hks Hsn), live_calm by done. exact Hrun.
Qed.

Lemma child_main_closed cw d : AOFRewrite.ch_open cw = false → AOFRewrite.child_main cw d = Ok (1%Z, None).
Proof. intros H. unfold AOFRewrite.child_main. by rewrite H. Qed.

Lemma rewrite_durable c s w2 d2 ch2 :
  rewrite_fine c (child s) → durable_state s →
  AOFRewrite.checkRewriteComplete c (child s) (aof s) (disk s) = Ok (w2, d2, ch2) → durable_state (set_rewrite w2 d2 ch2 s).
Proof.
  intros Hf Hd H. assert (Hsame : durable_state (set_rewrite (aof s) (disk s) (child s) s)) by by destruct s.
  pose proof (rewrite_dropped s Hd) as Hdrop.
  unfold AOFRewrite.checkRewriteComplete in H. destruct (Z.ltb_spec (AOFWriter.rewriteChildPid_ (aof s)) 0) as [|Hpid].
  { by injection H as <- <- <-. }
  destruct (AOFRewrite.cp_wait c) as [|cw|] eqn:Hwait; [by injection H as <- <- <-| |by injection H as <- <- <-].
  pose proof (rc_rewrite s (proj2 Hd)) as Htr. unfold rewrite_tracks in Htr.
  destruct (AOFWriter.isRewriting_ (aof s)); [|lia]. destruct Htr as (snap & xs & Hch & Hsnap & Hcalm & Hbuf & Hxs & Hrun).
  rewrite Hch in *. destruct (AOFRewrite.ch_open cw) eqn:Ho.
  2: { rewrite (child_main_closed _ _ Ho) in H. by injection H as <- <- <-. }
  assert (Hrep := λ Hpos, rewrite_replaces c cw snap xs (AOFRewrite.cp_reopen c) s Hf Hwait Ho Hsnap Hcalm Hbuf Hxs Hrun Hd Hpos).
  destruct (Z.leb_spec 0 (AOFRewrite.cp_reopen c)) as [Hpos|Hneg].
  - destruct (Hrep Hpos) as (temp & E & Happ). rewrite E in H. unfold AOFRewrite.finish_rewrite in H.
    destruct (AOFRewrite.cp_open c); [|by injection H as <- <- <-].
    apply returns_iff in Happ as (temp1 & E1 & Hd1). rewrite E1 in H. cbn [mbind result_bind] in H.
    destruct (AOFRewrite.cp_rename c); by injection H as <- <- <-.
  - assert (Hnr : AOFRewrite.cp_rename c = false).
    { destruct (AOFRewrite.cp_rename c) eqn:Hr; [|done]. pose proof (rf_reopen _ _ Hf Hr). lia. }
    apply bind_Ok_inv in H as ([fd d'] & E & [= <- <- <-]).
    assert (Hk : fd = AOFWriter.fd_ (aof s) ∧ d' = disk s).
    { unfold AOFRewrite.finish_rewrite in E. rewrite Hnr in E.
      destruct (AOFRewrite.child_main cw snap) as [[[|?|?] [temp|]]|[]]; try discriminate E; try by injection E as <- <-.
      destruct (AOFRewrite.cp_open c); [|by injection E as <- <-]. by apply bind_Ok_inv in E as (? & _ & [= <- <-]). }
    by destruct Hk as [-> ->].
Qed.

Lemma timer_durable p nowMs steadyNs c tmpFd s s' :
  rewrite_fine c (child s) → durable_state s → timer p nowMs steadyNs c tmpFd s = Ok s' → durable_state s'.
Proof.
  intros Hf Hd H. unfold timer in H. rewrite activeExpireCycle_idle, bind_ok in H by apply Hd.
  pose proof (tick_durable steadyNs s Hd) as Ht. destruct (AOFWriter.tick steadyNs (aof s) (disk s)) as [w d].
  apply bind_Ok_inv in H as ([[w2 d2] ch] & E & H). apply bind_Ok_inv in H as (f & _ & [= <-]).
  destruct (rewrite_durable c (set_log w d s) w2 d2 ch Hf Ht E) as [He [Hr Hl Hrw]]. split; [done|by split].
Qed.

Lemma beginBatch_durable p n s s' :
  rewrite_fine (po_rewrite p) (child s) → durable_state s → beginBatch p s = Ok (n, s') → durable_state s'.
Proof.
  intros Hf Hd H. unfold beginBatch in H. cbv zeta in H. set (s1 := set_metrics _ s) in H.
  assert (Hd1 : durable_state s1) by (destruct Hd as [He [Hr Hl Ht]]; split; [done|by split]).
  assert (Hl : ∀ l s2, durable_state s2 → durable_state (set_loop l s2)).
  { intros l s2 [He [Hr Hl Ht]]. split; [done|by split]. }
  apply bind_Ok_inv in H as ([[n' l] s2] & E & [= -> <-]). apply Hl. unfold EventLoop.poll in E.
  destruct (po_wait p _); [|by injection E as <- <- <-..]. destruct (_ && _); [|by injection E as <- <- <-].
  apply bind_Ok_inv in E as (s3 & E & [= <- <- <-]). eapply timer_durable; [|exact Hd1|exact E]. exact Hf.
Qed.

(** ** Starting *)

Lemma exec_all_idle es cmds : ∀ i d c,
  Forall plain cmds → no_deadline d → yields (exec_all (with_table CommandTable.core_table es) i d c cmds) no_deadline.
Proof.
  induction cmds as [|args cmds IH]; intros i d c Hall Hd; cbn [exec_all rp_run with_table]; [by apply yields_ret|].
  apply Forall_cons in Hall as [Hp Hall]. eapply yields_bind; [by apply dispatch_idle|]. intros [d' c'] Hd'.
  eapply yields_bind; [apply yields_any|]. intros out _. by apply IH.
Qed.

(** Of the commands registered before the replay, a logged one is in the table of
    the database commands, and the log's object is left alone. *)
#[local] Transparent CommandTable.core_table.
Lemma loading_table_core nm :
  nm ≠ lit "INFO" → nm ≠ lit "BGREWRITEAOF" → loading_table !! nm = earlyEntry <$> CommandTable.core_table !! nm.
Proof.
  intros H1 H2. unfold loading_table, early_commands. cbn [foldl]. unfold CommandTable.registerCommand.
  cbn [CommandTable.name]. rewrite lookup_insert_ne by (by intros <-). rewrite lookup_insert_ne by (by intros <-). apply lookup_fmap.
Qed.

Lemma early_not_core : CommandTable.core_table !! lit "INFO" = None ∧ CommandTable.core_table !! lit "BGREWRITEAOF" = None.
Proof. split; vm_compute; reflexivity. Qed.
#[local] Opaque CommandTable.core_table.

Lemma loader_logged w m n d aw ch c args :
  logged args →
  rp_run (loader w m) n (mkLoading d aw ch) c args =
    ('(d', c') ← rp_run (with_table CommandTable.core_table (sw_envs w)) n d c args; mret (mkLoading d' aw ch, c')).
Proof.
  intros [Hw _]. destruct args as [|arg0 rest]; [done|]. unfold CommandTable.isWriteCommand in Hw.
  cbn [rp_run loader with_table]. unfold CommandTable.dispatch, CommandTable.dispatch_with. rewrite loading_table_core.
  - destruct (CommandTable.core_table !! to_upper arg0) as [x|]; [|done].
    change (earlyEntry <$> Some x) with (Some (earlyEntry x)).
    cbn [earlyEntry CommandTable.arity CommandTable.run callEarly ld_db ld_aof ld_child].
    destruct (CommandTable.arity_ok _ _); cbn [negb]; [|by destruct (replyError c _)].
    by destruct (CommandTable.run x _ d c _) as [[d' c']|].
  - intros E. by rewrite E, (proj1 early_not_core) in Hw.
  - intros E. by rewrite E, (proj2 early_not_core) in Hw.
Qed.

Lemma loader_exec w m cmds : ∀ i d aw ch c,
  Forall logged cmds →
  exec_all (loader w m) i (mkLoading d aw ch) c cmds =
    (d' ← exec_all (with_table CommandTable.core_table (sw_envs w)) i d c cmds; mret (mkLoading d' aw ch)).
Proof.
  induction cmds as [|args cmds IH]; intros i d aw ch c Hall; cbn [exec_all]; [done|].
  apply Forall_cons in Hall as [Ha Hall]. rewrite loader_logged by done.
  destruct (rp_run (with_table _ _) i d c args) as [[d' c']|]; [|done]. cbn [mbind result_bind mret result_ret].
  destruct (Buffer.consume _ _) as [out|]; [|done]. cbn [mbind result_bind]. by apply IH.
Qed.

(** The outside of a start that finds the bytes [log] in the file, and reads them;
    the allocator grants what the commands of the log announce. *)
Record finds (w : StartWorld) (log : bytes) : Prop := {
  fi_start : start_ok w;
  fi_room : roomy (sw_envs w);
  fi_log : (0 ≤ sw_log w)%Z;
  fi_disk : contents (sw_disk w) = log;
  fi_file : log = [] ∧ sw_file w = OpenFailed ∨
    sw_file w = Opened (length log) ∧ reads_ok (sw_calls w) ∧ got (sw_calls w) = log ∧
    RespParser.fits_int log ∧ is_Some (sw_pipe w)
}.

Lemma log_bytes_empty cmds : AOFWriter.log_bytes cmds = [] → cmds = [].
Proof.
  destruct cmds as [|args cmds]; [done|]. rewrite log_bytes_cons. intros [H _]%app_eq_nil.
  pose proof (enc_command_pos args). by rewrite H in *.
Qed.

Lemma load_rests w m aw cmds :
  finds w (AOFWriter.log_bytes cmds) → Forall logged cmds →
  load (loader w m) (sw_file w) (sw_calls w) (sw_pipe w) (sw_dummyNow w) (mkLoading Database.empty aw None)
    ⇓ λ '(_, ld), good_store (ld_db ld) (run_all cmds ∅) ∧ no_deadline (ld_db ld) ∧ ld_aof ld = aw ∧ ld_child ld = None.
Proof.
  intros [Hs Hroom _ _ [[H0 ->]|(-> & Hr & Hg & Hfit & [fd ->])]] Hall.
  - rewrite (log_bytes_empty cmds H0). apply returns_ok. split; [apply empty_good|done].
  - assert (Hne : Forall (λ args, args ≠ []) cmds).
    { eapply Forall_impl; [exact Hall|]. by intros [|? ?] [? _]. }
    rewrite <- Hg in Hfit |- *.
    rewrite (load_ok _ _ _ _ _ cmds []); [|intros n k; apply Hroom|done|by rewrite app_nil_r, Hg|done|by left|done].
    rewrite loader_exec by done.
    pose proof (exec_all_applies (sw_envs w) 0 Database.empty (Connection.create fd (sw_dummyNow w)) cmds ∅
      (so_envs w Hs) empty_good (proj1 Buffer.empty_represents) Hall) as Hex.
    pose proof (exec_all_idle (sw_envs w) cmds 0 Database.empty (Connection.create fd (sw_dummyNow w))) as Hid.
    apply returns_iff in Hex as (d & E & Hd). rewrite E, !bind_ok. apply returns_ok. split; [done|]. split; [|done].
    refine (Hid _ eq_refl d E). eapply Forall_impl; [exact Hall|]. by intros args [_ ?].
Qed.

Lemma startup_durable w cmds :
  finds w (AOFWriter.log_bytes cmds) → Forall logged cmds →
  startup w ⇓ λ r, ∀ s, r = inr s → durable_state s ∧ store_at s = run_all cmds ∅.
Proof.
  intros Hin Hall. pose proof (λ m aw, load_rests w m aw cmds Hin Hall) as Hload. destruct Hin as [Hs _ Hlog Hc _].
  unfold startup. run_with Listener.listener_create_ok; [intros _; apply not_elem_of_empty|].
  intros [[what|lis] f1] Hl; [by apply returns_ok|]. destruct Hl as (Hf1 & _ & Hsock & _).
  rewrite (right_id_L ∅ (∪)) in Hf1. unfold EventLoop.create. destruct (Z.ltb_spec (sw_epoll w) 0) as [|Hpos]; [by apply returns_ok|].
  rewrite (openFd_pos (sw_epoll w)), Hf1, Hsock by done. cbv zeta.
  eapply returns_bind; [apply Hload|]. intros [n [d aw ch]] ((_ & Hcalm & Hst) & Hid & -> & ->). cbn [ld_db] in *.
  rewrite load_fds_ok, bind_ok; [|apply Hs|apply Hs|intros k Hk; by apply (so_file w Hs)]. apply returns_ok.
  intros s [= <-]. split; [|exact Hst]. split; [unfold AOFWriter.isEnabled; cbn; lia|]. split; [done| |cbn; lia].
  exists cmds. by rewrite <- Hst.
Qed.

(** ** Runs *)

(** What the outside does for durability: the kernel takes what the log is given
    and opens the log that a rewrite has put in place, and what the clients log is
    [plain]: no deadlines and no NaN scores. *)
Definition step_fine (s : Server) (ev : event) (s' : Server) : Prop :=
  match ev with
  | Poll p => rewrite_fine (po_rewrite p) (child s)
  | Client _ cev => (∀ k, all_writes_taken (ev_worlds cev k)) ∧
      ∀ xs, contents (disk s') = contents (disk s) ++ AOFWriter.log_bytes xs → Forall plain xs
  | _ => True
  end.

Inductive plain_run : Server → Prop :=
| run_start w cmds s : finds w (AOFWriter.log_bytes cmds) → Forall logged cmds → startup w = Ok (inr s) → plain_run s
| run_step s ev s' : plain_run s → event_ok s ev → step ev s = Ok s' → step_fine s ev s' → plain_run s'.

Lemma run_reachable s : plain_run s → reachable s.
Proof. induction 1 as [w cmds s Hin _ Hs|s ev s' _ IH Hev Hs _]; [by eapply reach_start; [apply Hin|]|by eapply reach_step]. Qed.

Lemma step_durable s ev s' :
  server_ok s → durable_state s → event_ok s ev → step_fine s ev s' → step ev s = Ok s' → durable_state s'.
Proof.
  intros Hs Hd Hev Hf H. assert (Hsame : same_data s s' → durable_state s').
  { intros Hsd. destruct Hd as [He Hr]. pose proof (same_data_extends _ _ He Hsd) as [He' _ Hdata]. split; auto. }
  destruct ev as [p|rets|fd cev|iter chorder]; cbn [step event_ok step_fine] in *.
  - apply bind_Ok_inv in H as ([n s1] & E & [= <-]). by eapply beginBatch_durable.
  - by apply Hsame, (acceptLoop_same rets).
  - destruct Hf as [Ht Hp], Hd as [He Hr]. destruct (clientEvent_extends fd cev s s' Hs Hev Ht He H) as [xs [He' Hlog Hdata]].
    split; [done|]. apply Hdata; [by apply Hp|done].
  - by apply Hsame, (endBatch_same iter chorder).
Qed.

Lemma run_durable s : plain_run s → durable_state s.
Proof.
  induction 1 as [w cmds s Hin Hall Hs|s ev s' Hr IH Hev Hs Hf].
  - pose proof (startup_durable w cmds Hin Hall) as Hst. rewrite Hs in Hst. by apply (Hst s eq_refl).
  - eapply step_durable; [by apply reachable_ok, run_reachable|done..].
Qed.

(** ** Property *)

(** C2: the log is the data, in every state of the program.  Take any run: a start
    that finds a log of commands, then any interleaving of clients that connect,
    send commands in any fragments, use transactions, subscribe, publish and
    leave, with the timer, rehashing, and background rewrites that are started,
    fail at any point or complete while commands go on arriving.  As long as the
    kernel takes what is written to the files, the allocator grants what the
    commands of the log announce, a sorted set in a snapshot has
    fewer than 2^31 members, and neither deadlines nor NaN scores are logged, then
    at every moment a new start that reads the log has exactly the data of the
    running server, in a state from which the same holds again; and an exit leaves
    that log on stable storage. *)
Theorem server_durable (s : Server) (w : StartWorld) (iter : gmap Z addr → list (Z * addr)) :
  plain_run s → finds w (contents (disk s)) → (∀ m, iter m ≡ₚ map_to_list m) →
  (startup w ⇓ λ r, ∀ s', r = inr s' → plain_run s' ∧ store_at s' = store_at s) ∧
  shutdown iter s ⇓ λ '(d, f), f = ∅ ∧ contents d = contents (disk s) ∧ durable d = length (contents d).
Proof.
  intros Hr Hw Hiter. destruct (run_durable s Hr) as [He [_ (cmds & Hcmds & Hall & Hrun) _]]. split.
  - rewrite Hcmds in Hw. pose proof (startup_durable w cmds Hw Hall) as Hst. destruct (startup w) as [r|] eqn:E; [|done].
    cbn [returns] in *. intros s' ->. split; [by eapply run_start|]. rewrite <- Hrun. by apply (Hst s').
  - eapply returns_mono; [by apply (shutdown_ok iter s (reachable_ok s (run_reachable s Hr)))|].
    intros [d f] (-> & Hd & Hdur). split; [done|]. split; [done|]. by apply Hdur.
Qed.

(** ** Witness *)

(** SET, a rewrite, and a SET while the child is running, in one piece. *)
Definition durable_cmds : list (list bytes) := [[lit "SET"; lit "k"; lit "v"]; [lit "RPUSH"; lit "l"; lit "x"]].
Definition rewrite_stream : bytes :=
  AOFWriter.log_bytes (take 1 durable_cmds ++ [[lit "BGREWRITEAOF"]] ++ drop 1 durable_cmds).

(** The child has ended and the timer is due. *)
Definition rewrite_poll : PollWorld :=
  mkPollWorld 0 (λ _, EventLoop.Ready 0) 200000000 Database.linux64 0 0 completion 6.

Definition demo_events : list event :=
  [Accept [(7, 0); (-1, 0)]%Z; Client 7 (ServerSession.arrival rewrite_stream); Poll rewrite_poll].

Definition after (n : nat) : Server := ServerFrame.state_after demo_events n booted.

Lemma log_bytes_inj cmds cmds' :
  RespParser.fits_int (AOFWriter.log_bytes cmds) → AOFWriter.log_bytes cmds = AOFWriter.log_bytes cmds' → cmds = cmds'.
Proof.
  revert cmds'. induction cmds as [|args cmds IH]; intros [|args' cmds'] Hfit Heq; [done|..].
  - symmetry in Heq. by apply log_bytes_empty in Heq.
  - by apply log_bytes_empty in Heq.
  - rewrite !log_bytes_cons in *. pose proof (RespParser.parse_frame_enc RespParser.plenty args _ Hfit eq_refl) as H1. rewrite Heq in H1, Hfit.
    rewrite (RespParser.parse_frame_enc RespParser.plenty args' _ Hfit eq_refl) in H1. injection H1 as -> _. apply app_inv_head in Heq.
    f_equal. apply IH; [|done]. rewrite <- Heq in Hfit. unfold RespParser.fits_int in *. rewrite length_app in Hfit. lia.
Qed.

Lemma durable_cmds_logged : Forall logged durable_cmds.
Proof.
  apply Forall_cons. split; [apply (known_logged _ _ _ known_set); plainly|].
  apply Forall_cons. split; [apply (known_logged _ _ _ known_rpush); plainly|constructor].
Qed.

Lemma accepted_run : plain_run (after 1).
Proof.
  apply (run_step booted (Accept [(7, 0); (-1, 0)]%Z)); [|right; split; [|by left]| |done].
  - apply (run_start demo_start []); [|constructor|reflexivity]. split; [exact demo_start_ok|done|done|done|by left].
  - apply (bool_decide_eq_true_1 (7%Z ∉ fds booted)). reflexivity.
  - apply (ServerFrame.state_after_step demo_events 0); [done|]. vm_compute. reflexivity.
Qed.

Lemma served_run : plain_run (after 2).
Proof.
  apply (run_step (after 1) (Client 7 (ServerSession.arrival rewrite_stream))); [exact accepted_run| | |].
  - intros a c Ha Hc. assert (Hfd : connections (after 1) !! 7%Z = Some 0%nat) by (vm_compute; reflexivity).
    pose proof (eq_trans (eq_sym Hfd) Ha) as [= <-]. assert (Hcl : conns (hub (after 1)) !! 0%nat = Some client) by (vm_compute; reflexivity).
    pose proof (eq_trans (eq_sym Hcl) Hc) as [= <-]. split; [|intros b; apply Nat.le_min_r|intros k; exact demo_world_ok].
    intros n t. cbn [ev_read ServerSession.arrival]. case_bool_decide as Hn; [|done]. intros [= <-]. split; [exact Hn|].
    unfold RespParser.fits_int. vm_compute. discriminate.
  - apply (ServerFrame.state_after_step demo_events 1); [done|]. vm_compute. reflexivity.
  - split; [intros k; exact world_taken|]. intros xs Hxs.
    assert (Hlog : contents (disk (after 2)) = AOFWriter.log_bytes durable_cmds) by (vm_compute; reflexivity).
    assert (H0 : contents (disk (after 1)) = []) by (vm_compute; reflexivity). rewrite Hlog, H0 in Hxs.
    rewrite <- (log_bytes_inj durable_cmds xs); [|unfold RespParser.fits_int; vm_compute; discriminate|exact Hxs].
    eapply Forall_impl; [exact durable_cmds_logged|]. by intros args [_ ?].
Qed.

Lemma completed_run : plain_run (after 3).
Proof.
  apply (run_step (after 2) (Poll rewrite_poll)); [exact served_run| | |].
  - split; [split|].
    + intros n buf. apply AOFWriter.takes_ends, willing_taken.
    + intros cw [= <-] n buf. apply AOFWriter.takes_ends, willing_taken.
    + split; intros _; apply (bool_decide_eq_true_1 (6%Z ∉ _)); vm_compute; reflexivity.
  - apply (ServerFrame.state_after_step demo_events 2); [done|]. vm_compute. reflexivity.
  - split; [|exact willing_taken|done|].
    + intros cw [= <-]. split; [exact AOFProperties.plain_env_ok|exact willing_taken].
    + intros d Hd. assert (Hv : Database.view <$> child (after 2) = Some {[lit "k" := (RedisObject.createString (lit "v"), (-1)%Z)]})
        by (vm_compute; reflexivity). rewrite Hd in Hv. injection Hv as Hv.
      intros key x Hx. unfold Database.view in Hx. cbn [kt_map HashTable_laws] in Hx. rewrite Hv in Hx.
      apply lookup_singleton_Some in Hx as [_ <-]. by intros z.
Qed.

(** The same command line, and a file with the log of that state. *)
Definition durable_log : bytes := AOFWriter.log_bytes durable_cmds.

Definition restart : StartWorld :=
  mkStart [] (Listener.mkBindWorld 3 0 0 []) 4 5 (mkDisk durable_log 56) (Opened 56)
    [CGot durable_log] 6 7 (Some 8%Z) (λ _, ListCommands.plain_env) 0 0 0 0 0
    (sw_fork demo_start) (sw_infoNow demo_start) 1 (sw_limit demo_start) (sw_permits demo_start).

Lemma restart_finds : finds restart durable_log.
Proof.
  split; [|done|done|done|].
  - split; try (intros _; apply (bool_decide_eq_true_1 (_ ∉ _)); vm_compute; reflexivity).
    + intros j. exact AOFProperties.plain_env_ok.
    + intros len [= <-]. split; [lia|vm_compute; reflexivity].
    + intros fd [= <-]. split; intros _; apply (bool_decide_eq_true_1 (_ ∉ _)); vm_compute; reflexivity.
    + apply demo_start_ok.
  - right. split; [reflexivity|]. split; [by repeat constructor|]. split; [apply app_nil_r|].
    split; [unfold RespParser.fits_int; vm_compute; discriminate|by exists 8%Z].
Qed.

Lemma restart_log : contents (disk (after 3)) = durable_log.
Proof. vm_compute. reflexivity. Qed.

Lemma server_durable_witness :
  (startup restart ⇓ λ r, ∀ s', r = inr s' → plain_run s' ∧ store_at s' = store_at (after 3)) ∧
  shutdown map_to_list (after 3) ⇓ λ '(d, f), f = ∅ ∧ contents d = contents (disk (after 3)) ∧ durable d = length (contents d).
Proof.
  apply (server_durable (after 3) restart map_to_list); [exact completed_run| |reflexivity].
  rewrite restart_log. exact restart_finds.
Defined.

End ServerDurable.
